(* ===== verification/_CoqProject ===== *)
-Q . S2P
Prelude.v
Regexp.v
Tools.v
Entities.v
Node.v
NodeFacts.v
NodeMoves.v
NodeWalk.v
NodeAttrs.v
NodeSample.v
Writer.v
Serializer.v
UndoManager.v
JSON.v
LocalStorage.v
URI.v
Observable.v
ScriptLoader.v
Schema.v
SaxParser.v
DomParser.v
DomFacts.v
RoundTrip.v
Styles.v
StylesFacts.v
TableGrid.v
TableFacts.v
TableInv.v
TableRows.v
Dom.v
TreeWalker.v
DOMUtils.v
Range.v
RangeClone.v
RangeUtils.v
RangeCut.v
MutDom.v
RangeExtract.v
RangeInsert.v
RangeExtractFacts.v
RangeContents.v
Selector.v
I18n.v
Shortcuts.v
Commands.v
ScriptLive.v
EventUtils.v
EventFacts.v
DomSerializer.v
ParserAttrs.v
DomSerializerFacts.v
WordFilter.v
WordFilterFacts.v
WordLists.v
WordOutline.v
WordFindings.v
