(* ===== verification/Prelude.v ===== *)
(** * TinyMCE core: a verification library (root file)

    The program is the editor TinyMCE 4 as shipped under
    src/server/html/js/tinymce/tinymce/js/tinymce; this library models its
    core logic from the classes/ directory and two plug-ins, file by file, and proves what each
    part promises.  All paths below are relative to classes/, or to the directory beside it where they begin
    with plugins/.

    ** The program and how its parts meet

    HTML enters the editor as a string.  [html/SaxParser.js] splits it with one
    regular expression into calls of handlers, after checking elements and
    attributes against a [html/Schema.js] object and decoding text with
    [html/Entities.js]; [html/DomParser.js] supplies the handlers, which build a
    tree of [html/Node.js] objects, repair it and run filters over it; the
    tree leaves the editor through [html/Serializer.js], which walks it and calls
    [html/Writer.js], which encodes text with Entities again; style attributes go through [html/Styles.js].
    While a document is edited, addresses, styles and scripts are kept in attributes of the editor's own:
    filters of [Editor.js] put them there and filters of [dom/Serializer.js] take them out again.
    In between, the browser holds the document: [dom/TreeWalker.js], [dom/Range.js] and the
    reading half of [dom/DOMUtils.js] walk it and compare positions in it, and [dom/EventUtils.js]
    passes its events on.  Around this pipeline the
    editor keeps its undo history ([UndoManager.js]), fires events
    ([util/Observable.js]), loads scripts and plug-ins ([dom/ScriptLoader.js],
    [AddOnManager.js]), resolves addresses ([util/URI.js]) and stores and sends data
    ([util/LocalStorage.js], [util/JSON.js]), looks up texts in other languages ([util/I18n.js]), finds
    controls of the interface with selectors ([ui/Selector.js]) and carries out commands ([EditorCommands.js]) that keys stand for ([Shortcuts.js]).  The table plug-in edits
    tables through a grid of their cells; the paste plug-in ([plugins/paste/classes/WordFilter.js]) cleans up what a word
    processor hands over with a parser, a schema and a serializer of its own.  [util/Tools.js] holds the helpers all share.

    ** The files

    - Prelude: strings as lists of UTF-16 code units ([jstr]), numbers as text, objects
      used as maps (module [Obj]: an association list in insertion order; a lookup of a name all
      objects inherit, [Obj.is_proto], finds something, as it does in the language), the state
      and exception monad [SE] ([None] is an exception) with its rules [wp_*].
    - Regexp: the regular expressions of ECMAScript 5 as a backtracking matcher with capture
      groups, [exec], [test], [replace], and the calculus [reads]/[refuses] that proves what
      an expression takes from a text.
    - Tools, Entities, JSON, LocalStorage, URI, Observable, UndoManager, ScriptLoader (with
      AddOnManager), Schema, SaxParser, DomParser, Writer, Serializer, Styles: one file each for the source of that name; a
      Definition or Fixpoint has the name of the function it models, and loops inside a function
      are Fixpoints of their own.
    - Node: the mutable node tree in a store [gmap ref node]; NodeFacts: the invariant [wf h s]
      (the pointers of the store [h] are those of the tree shape [s]) and remove, append and insert
      as operations on shapes; NodeMoves: unwrap, replace, wrap; NodeWalk: walk, getAll, isEmpty and
      empty; NodeAttrs: attr and clone; NodeSample: a concrete tree for the witnesses.
    - DomSerializer: the filters of dom/Serializer.js and of the parser of Editor.js, which work on the
      tree of DomParser, and serialize from the printed HTML on; ParserAttrs: what the parser does to the attributes
      of nodes ([steady], [keeps] and their like, predicates closed under the monad);
      DomSerializerFacts: the two sets of filters against each other.
    - WordFilter: plugins/paste/classes/WordFilter.js and Utils.js, the handler of a paste from text to text; WordFilterFacts,
      WordLists: the conversion of paragraphs into lists on the invariant of NodeFacts, one paragraph and the loop;
      WordOutline: the levels of the items; WordFindings: the whole handler on concrete text.
    - Dom: the browser's document as the sources read it, the classes [Dom] and [DomLaws] with the laws of a finite forest, and places in
      it as ways from the root; TreeWalker, DOMUtils, Range (the boundary points), RangeClone
      (cloneContents) and RangeUtils (walk and compareRanges) are proved against the class; each has an instance for its witnesses.
    - RangeExtract: extractContents and deleteContents of dom/Range, against the class [MutDom] of documents that change; RangeCut: the
      nodes between the ends; RangeExtractFacts: the traversal as a simulation, one loop after the other; RangeContents: the two operations.
      RangeInsert: insertNode, against the class [InsertDom] of documents that take new nodes.
    - EventUtils: dom/EventUtils.js against the class [Page] of objects, listeners and expandos; EventFacts: lists of
      handlers as its specification.  ScriptLive: the loader of ScriptLoader with a browser that answers.
    - Selector, I18n, Shortcuts: the sources of that name.  Commands: the tables of EditorCommands.js and the commands of Editor.js, against
      a record [host] of what the editor and the browser do.
    - DomFacts: the handlers of DomParser on the invariant of NodeFacts.  RoundTrip: the
      writer and the tokenizer together, against the class [Codec] of encoders.  StylesFacts: round trip, termination and box
      styles of Styles.
    - TableGrid: plugins/table/classes/TableGrid.js (beside classes/), the grid of a table with spans and every operation
      on it, over a store of cells in rows in sections; TableFacts: what buildGrid puts where; TableInv:
      the invariant [ok] that all operations keep, with the hint database [keep]; TableRows: insertRow, and
      tables on which operations go wrong.

    ** What the theorems show

    - Parsing: the tokenizer returns for every document without inherited names
      ([parse_total]) and its calls are nested ([parse_balanced]), checked against the schema
      ([parse_valid]) and free of script addresses ([parse_no_script_urls]); the builder then builds a well-formed
      tree to the end and lists every misplaced element ([document_built]).
    - Trees: unwrap, replace, wrap, getAll, attr and clone do on the store what they say on the tree
      (NodeMoves, NodeWalk, NodeAttrs); the theorems on the handlers rest on those of NodeFacts.
    - Filters: no attribute or bookmark of the editor survives the filters of the serializer
      ([internal_removed]), which undo those of the editor ([filters_restore]).
    - Pasting: the conversion into lists returns on every tree and touches nothing but items ([convert_ok]); with levels that
      move by one it builds their outline ([outline_ok]).
    - Document: the walker moves in document order ([walk_ok]), ranges compare places lexicographically
      ([compareBoundaryPoints_ok], [setEndPoint_moved]), keep their ends in order under
      the calls that set them while the document stands still ([reachable_range_good]), and
      clone what lies in between ([cloneContents_ok]); extracting and deleting take out
      what cloning copies and leave the rest in its place ([extractContents_ok]); walking a range visits the nodes in it ([rangewalk_ok]); the two orders agree ([next_forward]); [isEmpty_ok].
    - Selectors: match and find mean what selectors without the sign > spell, as long as no compound throws
      ([match_ok], [find_ok]), parsing ends ([init_total]).
    - Keys and commands: a combination of keys runs what was added last for it ([listener_ok]); a command is offered in order until one
      takes it ([execCommand_ok]).
    - Events of the browser: the handler lists refine lists of pairs ([handlers_refine]), each event runs the callbacks
      bound when it starts ([dispatch_ok]).
    - Both ways: the tokenizer reads back what the writer makes of nested, plain calls ([parse_written]).
    - Printing: the serializer makes the nested calls of the tree in document order
      ([serialize_ok]), sorts attributes without losing any, and the writer concatenates them.
    - Text codecs: decode inverts the encoders, encoded text holds no markup, literals and stored items
      read back, relative addresses resolve back, the rule languages of the schema mean what they spell; printed
      styles read back, and joining box styles keeps what they say where the box style does not come after its sides.
    - History, events, loading: between commands the undo history refines past/present/future lists over contents
      as the editor reads them back ([history_refines]), stays in bounds ([reachable_history_ok]) and drops its oldest
      level when there are too many ([add_over_limit]); handlers run in order; no script is loaded twice, and every callback that waits for the
      queue runs once the browser has answered ([queue_announced]).
    - Tables: the grid shows the cell that covers a slot ([buildGrid_ok]), and a new row has a cell for each of its
      neighbour's where these have row spans of one ([insertRow_ok]); TableRows shows what happens to cells that end at the place.
      That operations keep rows and cells linked as a tree ([operations_keep_table]) is a lemma.
    - Errors: theorems on concrete or general inputs where the code does not do what it
      means to (each is a finding of the manifest).

    ** Fuel and bounds

    The matcher of Regexp needs no fuel for what it consumes; the loops that follow pointers
    take the number of nodes in the store as fuel, which bounds every chain of a well-formed tree
    (the theorems show that the fuel is not exhausted); the tokenizer's loop takes the length of the text plus one, as every token
    is at least one unit long; reading of stored items takes the length of the text.  Walks over the
    document take the number of its nodes or the height below a node, selectors the length of the text plus
    one, events the height of the document above their target; each
    theorem says that this is enough.  Integers are [Z]: the sources use
    them below 2^53 as lengths, indices and code units; [Entities.to_int32] wraps
    where the code uses bit operations.

    ** Not modelled

    Most of what changes the browser's document, and what measures it on the screen: surroundContents of dom/Range, split of
    dom/RangeUtils, the writing half of dom/DOMUtils, the built-in commands, Formatter, EnterKey,
    selections and the user interface; they are calls into the browser almost line by line.
    Of dom/EventUtils, browsers without addEventListener and the position of the mouse on the page; of
    dom/Serializer, the printing by the browser and the events of the editor.  Also
    third-party code (dom/Sizzle, jQuery, the carousel) and the generated bundles.  Where a
    modelled part calls such code it is a parameter: the browser's entity decoder
    ([nativeDecode]), the editor behind the undo manager ([Editor], whose laws [EditorLaws] say what it gives
    back of a content that was set; the raw path of setContent and getContent of Editor.js is an instance), callbacks of events and filters,
    the loading of a script (an event).  Of numbers JSON has the integers below 2^53 in absolute value, and
    the call of hasOwnProperty on an object that has such a property of its own is an exception there. *)

From stdpp Require Export base list strings gmap.
From Stdlib Require Export ZArith Lia.

Open Scope Z_scope.

(** ** JavaScript strings

    A string is the list of its UTF-16 code units. *)

Abbreviation jstr := (list Z).

Fixpoint js (s : string) : jstr :=
  match s with
  | EmptyString => []
  | String a s' => Z.of_N (Ascii.N_of_ascii a) :: js s'
  end.

Definition is_unit (c : Z) : Prop := 0 <= c < 65536.

(** [s1 === s2] *)
Definition str_eqb (s1 s2 : jstr) : bool := bool_decide (s1 = s2).

(** JavaScript truthiness of a string: only the empty string is falsy. *)
Definition truthy (s : jstr) : bool := match s with [] => false | _ => true end.

(** ** Character classes of the regular expressions in the sources *)

Definition between (a b c : Z) : bool := (a <=? c) && (c <=? b).

(** [\s] (ECMAScript 5, 15.10.2.12: WhiteSpace and LineTerminator). *)
Definition is_space (c : Z) : bool :=
  between 9 13 c || (c =? 32) || (c =? 160) || (c =? 5760) || (c =? 6158)
  || between 8192 8202 c || (c =? 8232) || (c =? 8233) || (c =? 8239)
  || (c =? 8287) || (c =? 12288) || (c =? 65279).

Definition is_digit (c : Z) : bool := between 48 57 c.

(** [\w] *)
Definition is_word (c : Z) : bool :=
  between 48 57 c || between 65 90 c || (c =? 95) || between 97 122 c.

(** [String.prototype.toLowerCase] and [toUpperCase] on the ASCII letters. *)
Definition lower_unit (c : Z) : Z := if between 65 90 c then c + 32 else c.
Definition upper_unit (c : Z) : Z := if between 97 122 c then c - 32 else c.
Definition to_lower (s : jstr) : jstr := lower_unit <$> s.
Definition to_upper (s : jstr) : jstr := upper_unit <$> s.

(** ** String methods *)

(** [s.indexOf(c)] for a one-unit needle, as a position. *)
Fixpoint index_of_unit (c : Z) (s : jstr) : option nat :=
  match s with
  | [] => None
  | x :: s' => if x =? c then Some 0%nat else S <$> index_of_unit c s'
  end.

(** [s.split(c)] for a one-unit separator: always at least one piece. *)
Fixpoint split_unit (c : Z) (s : jstr) : list jstr :=
  match s with
  | [] => [[]]
  | x :: s' =>
      if x =? c then [] :: split_unit c s'
      else match split_unit c s' with
           | [] => [[x]]
           | p :: ps => (x :: p) :: ps
           end
  end.

(** [pieces.join(sep)] *)
Fixpoint join (sep : jstr) (ps : list jstr) : jstr :=
  match ps with
  | [] => []
  | [p] => p
  | p :: ps' => p ++ sep ++ join sep ps'
  end.

Fixpoint starts_with (p s : jstr) : bool :=
  match p, s with
  | [], _ => true
  | a :: p', b :: s' => (a =? b) && starts_with p' s'
  | _ :: _, [] => false
  end.

(** [s.indexOf(p)] for an arbitrary needle. *)
Fixpoint index_of (p s : jstr) : option nat :=
  if starts_with p s then Some 0%nat
  else match s with
       | [] => None
       | _ :: s' => S <$> index_of p s'
       end.

Fixpoint drop_while (f : Z -> bool) (s : jstr) : jstr :=
  match s with
  | [] => []
  | c :: s' => if f c then drop_while f s' else s
  end.

(** Removing the longest prefix, the longest suffix, both. *)
Definition trim_left_by (f : Z -> bool) (s : jstr) : jstr := drop_while f s.
Definition trim_right_by (f : Z -> bool) (s : jstr) : jstr :=
  reverse (drop_while f (reverse s)).

Lemma forallb_imp {A} (f g : A -> bool) l : (∀ x, f x = true → g x = true) → forallb f l = true → forallb g l = true.
Proof. rewrite !forallb_forall. auto. Qed.

(** ** Numbers as strings *)

Definition digit_unit (d : Z) : Z := if d <? 10 then 48 + d else 87 + d.

Definition unit_digit (c : Z) : option Z :=
  if between 48 57 c then Some (c - 48)
  else if between 97 122 c then Some (c - 87)
  else if between 65 90 c then Some (c - 55)
  else None.

Fixpoint digits_rev (fuel : nat) (radix n : Z) : jstr :=
  match fuel with
  | O => []
  | S f => if n <? radix then [digit_unit n]
           else digit_unit (n mod radix) :: digits_rev f radix (n / radix)
  end.

(** [n.toString(radix)] for a non-negative integer. *)
Definition num_to_string (radix n : Z) : jstr :=
  reverse (digits_rev (S (Z.to_nat (Z.log2 n))) radix n).

(** The digits [parseInt(s, radix)] reads: the longest prefix of digits of
    that radix, valued from the left; [None] is NaN. *)
Fixpoint read_digits (radix acc : Z) (s : jstr) : Z :=
  match s with
  | [] => acc
  | c :: s' =>
      match unit_digit c with
      | Some d => if d <? radix then read_digits radix (acc * radix + d) s' else acc
      | None => acc
      end
  end.

(** [parseInt(s, radix)]: leading white space and a sign are skipped, radix
    16 also skips "0x"; no digit at all gives NaN ([None]). *)
Definition parse_int (radix : Z) (s : jstr) : option Z :=
  let s := drop_while is_space s in
  let '(sg, s) := match s with
                  | c :: s' => if c =? 45 then (-1, s') else if c =? 43 then (1, s') else (1, s)
                  | [] => (1, s)
                  end in
  let s := match s with
           | z :: x :: s' =>
               if (radix =? 16) && (z =? 48) && ((x =? 120) || (x =? 88)) then s' else s
           | _ => s
           end in
  match s with
  | c :: _ =>
      match unit_digit c with
      | Some d => if d <? radix then Some (sg * read_digits radix 0 s) else None
      | None => None
      end
  | [] => None
  end.

(** [String.fromCharCode(n)] keeps 16 bits. *)
Definition from_char_code (n : Z) : jstr := [n mod 65536].

(** ** Objects used as maps

    The own properties in creation order (the order [for..in] visits them;
    integer-like names are not moved to the front), and the names every object inherits from
    [Object.prototype], which [in] and a plain lookup see as well. *)
Module Obj.
Abbreviation t V := (list (jstr * V)).

Definition proto_names : list jstr :=
  js <$> ["constructor"; "toString"; "toLocaleString"; "valueOf"; "hasOwnProperty";
          "isPrototypeOf"; "propertyIsEnumerable"; "__defineGetter__";
          "__defineSetter__"; "__lookupGetter__"; "__lookupSetter__"; "__proto__"]%string.

Definition is_proto (k : jstr) : bool := bool_decide (k ∈ proto_names).

Section ops.
Context {V : Type}.
Implicit Types (o : t V) (k : jstr) (v : V).

(** The own property [k]. *)
Fixpoint get k o : option V :=
  match o with
  | [] => None
  | (k', v) :: o' => if str_eqb k k' then Some v else get k o'
  end.

(** [o[k] = v]: an existing property keeps its place. *)
Fixpoint set k v o : t V :=
  match o with
  | [] => [(k, v)]
  | (k', v') :: o' => if str_eqb k k' then (k, v) :: o' else (k', v') :: set k v o'
  end.

(** [delete o[k]] *)
Fixpoint delete k o : t V :=
  match o with
  | [] => []
  | (k', v') :: o' => if str_eqb k k' then delete k o' else (k', v') :: delete k o'
  end.

Definition keys o : list jstr := o.*1.

(** [k in o] *)
Definition has k o : bool :=
  match get k o with Some _ => true | None => is_proto k end.

Lemma get_set_eq k v o : get k (set k v o) = Some v.
Proof.
  induction o as [|[k' v'] o IH]; simpl.
  - unfold str_eqb. by rewrite bool_decide_true.
  - destruct (str_eqb k k') eqn:E; simpl; [|by rewrite E].
    unfold str_eqb. by rewrite bool_decide_true.
Qed.

Lemma get_set_ne k k' v o : k ≠ k' → get k' (set k v o) = get k' o.
Proof.
  intros Hne. unfold str_eqb in *.
  induction o as [|[k1 v1] o IH]; simpl; unfold str_eqb.
  - by rewrite bool_decide_false.
  - case_bool_decide; simpl; unfold str_eqb; subst.
    + by rewrite !(bool_decide_false (k' = k1)).
    + by rewrite IH.
Qed.

Lemma get_set k k' v o :
  get k' (set k v o) = if decide (k = k') then Some v else get k' o.
Proof. case_decide; subst; auto using get_set_eq, get_set_ne. Qed.

Lemma get_delete_eq k o : get k (delete k o) = None.
Proof.
  induction o as [|[k' v'] o IH]; simpl; [done|].
  destruct (str_eqb k k') eqn:E; simpl; [done|]. by rewrite E.
Qed.

Lemma get_delete_ne k k' o : k ≠ k' → get k' (delete k o) = get k' o.
Proof.
  intros Hne. induction o as [|[k1 v1] o IH]; simpl; unfold str_eqb in *; [done|].
  case_bool_decide; simpl; unfold str_eqb; subst.
  - by rewrite (bool_decide_false (k' = k1)).
  - by rewrite IH.
Qed.

Lemma get_Some_elem k v o : get k o = Some v → (k, v) ∈ o.
Proof.
  induction o as [|[k' v'] o IH]; simpl; [done|]. unfold str_eqb.
  case_bool_decide; intros; simplify_eq; set_solver.
Qed.

Lemma get_elem_keys k o : is_Some (get k o) ↔ k ∈ keys o.
Proof.
  induction o as [|[k' v'] o IH]; simpl; unfold str_eqb.
  - split; [by intros []|set_solver].
  - rewrite elem_of_cons. case_bool_decide; [naive_solver|].
    rewrite IH. naive_solver.
Qed.

Lemma get_None_keys k o : get k o = None ↔ k ∉ keys o.
Proof. rewrite <- get_elem_keys, eq_None_not_Some. done. Qed.

Lemma keys_set_new k v o : get k o = None → set k v o = o ++ [(k, v)].
Proof.
  induction o as [|[k' v'] o IH]; simpl; [done|].
  destruct (str_eqb k k'); [done|]. intros. by rewrite IH.
Qed.

Lemma keys_set_old k v o : is_Some (get k o) → keys (set k v o) = keys o.
Proof.
  induction o as [|[k' v'] o IH]; simpl; [by intros []|]. unfold str_eqb.
  case_bool_decide; subst; simpl; [done|].
  intros. unfold keys in *. by rewrite IH.
Qed.

Lemma keys_delete_elem k k' o : k' ∈ keys (delete k o) ↔ k' ≠ k ∧ k' ∈ keys o.
Proof.
  rewrite <- !get_elem_keys. destruct (decide (k = k')) as [->|].
  - rewrite get_delete_eq. split; [by intros []|naive_solver].
  - rewrite get_delete_ne by done. naive_solver.
Qed.

Lemma keys_NoDup_set k v o : NoDup (keys o) → NoDup (keys (set k v o)).
Proof.
  intros. destruct (get k o) eqn:E.
  - rewrite keys_set_old; eauto.
  - rewrite keys_set_new by done. unfold keys. rewrite fmap_app. simpl.
    apply NoDup_app. split_and!; [done| |apply NoDup_singleton].
    intros x Hx ->%list_elem_of_singleton. by apply get_None_keys in E.
Qed.

Lemma keys_NoDup_delete k o : NoDup (keys o) → NoDup (keys (delete k o)).
Proof.
  induction o as [|[k' v'] o IH]; simpl; [done|].
  rewrite NoDup_cons. intros [Hn ?]. destruct (str_eqb k k'); [auto|].
  simpl. rewrite NoDup_cons. split; [|auto].
  rewrite keys_delete_elem. naive_solver.
Qed.

(** With distinct keys an object is determined by its pairs. *)
Lemma get_elem_NoDup k v o : NoDup (keys o) → (k, v) ∈ o → get k o = Some v.
Proof.
  induction o as [|[k' v'] o IH]; simpl; [set_solver|].
  rewrite NoDup_cons. intros [Hn ?] Hin. unfold str_eqb.
  apply elem_of_cons in Hin as [?|Hin]; simplify_eq.
  - by rewrite bool_decide_true.
  - rewrite bool_decide_false; [auto|]. intros ->.
    apply Hn. apply list_elem_of_fmap. by exists (k', v).
Qed.
End ops.
End Obj.

(** ** A state monad with failure

    [None] is an exception the JavaScript code throws (a TypeError for a
    property of [null] or [undefined]). *)
Definition SE (S A : Type) : Type := S -> option (A * S).

#[export] Instance SE_ret S : MRet (SE S) := λ A x s, Some (x, s).
#[export] Instance SE_bind S : MBind (SE S) :=
  λ A B f m s, match m s with Some (x, s') => f x s' | None => None end.

Definition throw {S A} : SE S A := λ _, None.
Definition gets {S A} (f : S -> A) : SE S A := λ s, Some (f s, s).
Definition modify {S} (f : S -> S) : SE S unit := λ s, Some (tt, f s).
Definition oget {S A} (o : option A) : SE S A := λ s, (λ x, (x, s)) <$> o.

Lemma SE_bind_unfold {S A B} (f : A -> SE S B) (m : SE S A) (s : S) :
  (m ≫= f) s = match m s with Some (x, s') => f x s' | None => None end.
Proof. done. Qed.

Lemma SE_bind_assoc {S A B C} (m : SE S A) (f : A -> SE S B) (g : B -> SE S C) s :
  ((m ≫= f) ≫= g) s = (m ≫= (λ x, f x ≫= g)) s.
Proof. rewrite !SE_bind_unfold. destruct (m s) as [[]|]; done. Qed.

Lemma SE_ret_bind {S A B} (x : A) (f : A -> SE S B) s : (mret x ≫= f) s = f x s.
Proof. done. Qed.

Lemma SE_bind_some {S A B} (m : SE S A) (f : A -> SE S B) s x s' :
  m s = Some (x, s') → (m ≫= f) s = f x s'.
Proof. intros E. by rewrite SE_bind_unfold, E. Qed.

(** [wp m s post]: from [s] the computation returns, without an exception, an
    answer and a state that satisfy [post]. *)
Definition wp {S A} (m : SE S A) (s : S) (post : A -> S -> Prop) : Prop :=
  ∃ x s', m s = Some (x, s') ∧ post x s'.

Section Wp.
Context {S : Type}.

Lemma wp_ret {A} (x : A) (s : S) post : post x s → wp (mret x) s post.
Proof. intros H. by exists x, s. Qed.

Lemma wp_bind {A B} (m : SE S A) (f : A -> SE S B) (s : S) post :
  wp m s (λ x s', wp (f x) s' post) → wp (m ≫= f) s post.
Proof. intros (x & s' & E & y & s2 & E2 & H). exists y, s2. rewrite SE_bind_unfold, E. by split. Qed.

Lemma wp_mono {A} (m : SE S A) (s : S) (post post' : A -> S -> Prop) :
  (∀ x s', post x s' → post' x s') → wp m s post → wp m s post'.
Proof. intros Hp (x & s' & E & H). exists x, s'. auto. Qed.

Lemma wp_gets {A} (f : S -> A) (s : S) post : post (f s) s → wp (gets f) s post.
Proof. intros H. by exists (f s), s. Qed.

Lemma wp_modify (f : S -> S) (s : S) post : post tt (f s) → wp (modify f) s post.
Proof. intros H. by exists tt, (f s). Qed.

Lemma wp_oget {A} (o : option A) x (s : S) post : o = Some x → post x s → wp (oget o) s post.
Proof. intros -> H. by exists x, s. Qed.

Lemma wp_run {A} (m : SE S A) (s : S) x s' (post : A -> S -> Prop) :
  m s = Some (x, s') → post x s' → wp m s post.
Proof. intros E H. by exists x, s'. Qed.
End Wp.

(** ** Printing and reading back a number *)
Lemma unit_digit_unit d : 0 <= d < 36 → unit_digit (digit_unit d) = Some d.
Proof.
  intros. unfold digit_unit, unit_digit, between.
  destruct (Z.ltb_spec d 10);
    repeat match goal with |- context [Z.leb ?a ?b] => destruct (Z.leb_spec a b) end;
    simpl; try lia; f_equal; lia.
Qed.

Lemma digit_unit_cases d : 0 <= d < 36 →
  48 <= digit_unit d <= 57 ∨ 97 <= digit_unit d <= 122.
Proof. unfold digit_unit. destruct (Z.ltb_spec d 10); lia. Qed.

Section NumStrings.
Context (radix : Z) (Hradix : 2 <= radix <= 36).

Lemma digits_rev_read fuel : ∀ n acc t, 0 <= n < radix ^ Z.of_nat fuel →
  read_digits radix acc (reverse (digits_rev fuel radix n) ++ t) =
    read_digits radix (acc * radix ^ Z.of_nat (length (digits_rev fuel radix n)) + n) t.
Proof using Hradix.
  induction fuel as [|f IH]; intros n acc t Hn.
  - simpl in *. f_equal. lia.
  - rewrite Nat2Z.inj_succ, Z.pow_succ_r in Hn by lia. cbn [digits_rev].
    destruct (Z.ltb_spec n radix) as [Hlt|Hge].
    + cbn. rewrite unit_digit_unit by lia. destruct (Z.ltb_spec n radix); [|lia].
      f_equal. lia.
    + pose proof (Z.mod_pos_bound n radix). pose proof (Z.div_mod n radix).
      assert (0 <= n / radix < radix ^ Z.of_nat f) by
        (split; [apply Z.div_pos; lia|apply Z.div_lt_upper_bound; lia]).
      rewrite reverse_cons, <- app_assoc, IH by done. cbn [app read_digits length].
      rewrite unit_digit_unit by lia. destruct (Z.ltb_spec (n mod radix) radix); [|lia].
      f_equal. rewrite Nat2Z.inj_succ, Z.pow_succ_r by lia. nia.
Qed.

Lemma num_fuel n : 0 <= n → n < radix ^ Z.of_nat (S (Z.to_nat (Z.log2 n))).
Proof using Hradix.
  intros. rewrite Nat2Z.inj_succ, Z2Nat.id by apply Z.log2_nonneg.
  destruct (decide (n = 0)) as [->|]; [cbn; lia|].
  apply Z.lt_le_trans with (2 ^ Z.succ (Z.log2 n)); [apply Z.log2_spec; lia|].
  apply Z.pow_le_mono_l. lia.
Qed.

Lemma read_num_to_string n t : 0 <= n →
  read_digits radix 0 (num_to_string radix n ++ t) = read_digits radix n t.
Proof using Hradix.
  intros. unfold num_to_string. rewrite digits_rev_read by (pose proof (num_fuel n); lia).
  by rewrite Z.mul_0_l.
Qed.

Lemma digits_rev_units fuel n : 0 <= n →
  Forall (λ c, ∃ d, c = digit_unit d ∧ 0 <= d < radix) (digits_rev fuel radix n).
Proof using Hradix.
  revert n. induction fuel as [|f IH]; intros n Hn; cbn [digits_rev]; [done|].
  destruct (Z.ltb_spec n radix).
  - repeat constructor. eauto.
  - constructor; [|apply IH, Z.div_pos; lia].
    eexists; split; [done|]. apply Z.mod_pos_bound; lia.
Qed.

Lemma num_to_string_units n : 0 <= n →
  Forall (λ c, ∃ d, c = digit_unit d ∧ 0 <= d < radix) (num_to_string radix n).
Proof using Hradix. intros. by apply Forall_reverse, digits_rev_units. Qed.

Lemma num_to_string_cons n : 0 <= n →
  ∃ d s, num_to_string radix n = digit_unit d :: s ∧ 0 <= d < radix.
Proof using Hradix.
  intros Hn. pose proof (num_to_string_units n Hn) as HF.
  assert (num_to_string radix n ≠ []) as Hne.
  { unfold num_to_string. intros E%(f_equal length). rewrite length_reverse in E.
    cbn [digits_rev] in E. by destruct (n <? radix). }
  destruct (num_to_string radix n); [done|]. inv HF. naive_solver.
Qed.

(** [parseInt(n.toString(radix), radix) === n] for n >= 0. *)
Lemma parse_num_to_string n : 0 <= n → parse_int radix (num_to_string radix n) = Some n.
Proof using Hradix.
  intros Hn. pose proof (read_num_to_string n [] Hn) as Hread. rewrite app_nil_r in Hread.
  destruct (num_to_string_cons n Hn) as (d & s & E & Hd).
  pose proof (num_to_string_units n Hn) as HF. rewrite E in *.
  unfold parse_int. pose proof (digit_unit_cases d ltac:(lia)) as Hc.
  assert (is_space (digit_unit d) = false) as Hsp.
  { unfold is_space, between. lia. }
  cbn [drop_while]. rewrite Hsp.
  replace (digit_unit d =? 45) with false by lia.
  replace (digit_unit d =? 43) with false by lia.
  set (s' := match s with [] => _ | _ => _ end).
  assert (s' = digit_unit d :: s) as ->.
  { subst s'. destruct s as [|x s]; [done|].
    destruct (Z.eqb_spec radix 16), (Z.eqb_spec (digit_unit d) 48); try done. simpl.
    inv HF. match goal with H : Forall _ (x :: s) |- _ => inv H end.
    match goal with H : ∃ d, x = _ ∧ _ |- _ => destruct H as (d' & -> & ?) end.
    unfold digit_unit. destruct (Z.ltb_spec d' 10);
      rewrite (proj2 (Z.eqb_neq _ 120)), (proj2 (Z.eqb_neq _ 88)) by lia; done. }
  rewrite unit_digit_unit by lia. destruct (Z.ltb_spec d radix); [|lia].
  rewrite Hread. cbn. f_equal. lia.
Qed.
End NumStrings.

(** ** Comparing strings *)
Lemma str_eqb_true s1 s2 : str_eqb s1 s2 = true ↔ s1 = s2.
Proof. unfold str_eqb. by rewrite bool_decide_eq_true. Qed.
Lemma str_eqb_false s1 s2 : str_eqb s1 s2 = false ↔ s1 ≠ s2.
Proof. unfold str_eqb. by rewrite bool_decide_eq_false. Qed.

(** ** Splitting and joining *)
Section Split.
Context (c : Z).

Lemma split_unit_none s : c ∉ s → split_unit c s = [s].
Proof.
  induction s as [|x s IH]; [done|]. intros [Hx Hs]%not_elem_of_cons. cbn.
  rewrite (proj2 (Z.eqb_neq x c)) by done. by rewrite IH.
Qed.

Lemma split_unit_app s t : c ∉ s → split_unit c (s ++ c :: t) = s :: split_unit c t.
Proof.
  induction s as [|x s IH]; intros Hs; [cbn; by rewrite Z.eqb_refl|].
  apply not_elem_of_cons in Hs as [Hx Hs]. cbn [app split_unit].
  rewrite (proj2 (Z.eqb_neq x c)) by done. by rewrite IH.
Qed.

Lemma split_unit_join ps : ps ≠ [] → Forall (λ s, c ∉ s) ps → split_unit c (join [c] ps) = ps.
Proof.
  intros Hne Hs. induction Hs as [|p ps Hp Hs IH]; [done|]. destruct ps as [|q ps].
  - by apply split_unit_none.
  - change (join [c] (p :: q :: ps)) with (p ++ c :: join [c] (q :: ps)).
    rewrite split_unit_app by done. by rewrite IH.
Qed.
End Split.
