(* ===== verification/Regexp.v ===== *)
(** * Regular expressions

    The sources lean on JavaScript regular expressions; this file gives the
    ECMAScript 5 semantics (15.10.2) they need: ordered alternation, greedy
    and lazy quantifiers, capture groups (reset at each iteration), look-ahead, [^] and
    [$], and the methods [exec], [test] and [replace].  The matcher is
    a backtracking matcher with a continuation; it is total, because an
    iteration of a star must consume a unit. *)

From S2P Require Import Prelude.

(** A set of code units, as a decidable predicate. *)
Abbreviation cset := (Z -> bool).

Inductive re : Type :=
  | REmpty
  | RSet (f : cset)
  | RSeq (a b : re)
  | RAlt (a b : re)
  | RStar (greedy : bool) (a : re)
  | RGroup (n : nat) (a : re)
  | RNotAhead (a : re)
  | RBol
  | REol.

(** [r+], [r?] and the lazy forms. *)
Definition RPlus (a : re) : re := RSeq a (RStar true a).
Definition ROpt (a : re) : re := RAlt a REmpty.
Definition RChar (c : Z) : re := RSet (Z.eqb c).
Fixpoint RStr (s : jstr) : re :=
  match s with
  | [] => REmpty
  | [c] => RChar c
  | c :: s' => RSeq (RChar c) (RStr s')
  end.

(** Case-insensitive literals (flag [i]), on ASCII letters. *)
Fixpoint RStrI (s : jstr) : re :=
  match s with
  | [] => REmpty
  | c :: s' => RSeq (RSet (λ x, lower_unit x =? lower_unit c)) (RStrI s')
  end.

(** The sets the expressions use. *)
Definition word_dash : cset := λ c, is_word c || (c =? 45).
Definition none_of (s : string) : cset := λ c, negb (existsb (Z.eqb c) (js s)).
Definition any_of (s : string) : cset := λ c, existsb (Z.eqb c) (js s).
(** [.]: any unit but a line terminator. *)
Definition dot : cset := λ c, negb ((c =? 10) || (c =? 13) || (c =? 0x2028) || (c =? 0x2029)).

(** A matching state: the units still to read, how many were read so far, and the captures. *)
Record mstate := MS { rest : jstr; pos : nat; caps : list (nat * jstr) }.

Definition cap_get (n : nat) (c : list (nat * jstr)) : option jstr :=
  snd <$> List.find (λ p, Nat.eqb p.1 n) c.

Fixpoint groups (r : re) : list nat :=
  match r with
  | REmpty | RSet _ | RBol | REol => []
  | RSeq a b | RAlt a b => groups a ++ groups b
  | RStar _ a | RNotAhead a => groups a
  | RGroup n a => n :: groups a
  end.

Definition reset_caps (gs : list nat) (st : mstate) : mstate :=
  MS (rest st) (pos st) (List.filter (λ p, negb (existsb (Nat.eqb p.1) gs)) (caps st)).

Abbreviation kont := (mstate -> option mstate).

(** [RepeatMatcher]: [fuel] bounds the iterations by the units left. *)
Fixpoint star_loop (m : mstate -> kont -> option mstate) (gs : list nat)
    (greedy : bool) (fuel : nat) (st : mstate) (k : kont) : option mstate :=
  match fuel with
  | O => k st
  | S f =>
      let iter (_ : unit) :=
        m (reset_caps gs st) (λ st',
          if Nat.eqb (pos st') (pos st) then None else star_loop m gs greedy f st' k) in
      if greedy then match iter tt with Some r => Some r | None => k st end
      else match k st with Some r => Some r | None => iter tt end
  end.

Fixpoint mtch (r : re) (st : mstate) (k : kont) {struct r} : option mstate :=
  match r with
  | REmpty => k st
  | RSet f =>
      match rest st with
      | c :: s => if f c then k (MS s (S (pos st)) (caps st)) else None
      | [] => None
      end
  | RSeq a b => mtch a st (λ st', mtch b st' k)
  | RAlt a b => match mtch a st k with Some x => Some x | None => mtch b st k end
  | RStar g a => star_loop (mtch a) (groups a) g (length (rest st)) st k
  | RGroup n a =>
      mtch a st (λ st',
        k (MS (rest st') (pos st')
              ((n, take (pos st' - pos st)%nat (rest st))
               :: List.filter (λ p, negb (Nat.eqb p.1 n)) (caps st'))))
  | RNotAhead a => match mtch a st Some with Some _ => None | None => k st end
  | RBol => if Nat.eqb (pos st) 0 then k st else None
  | REol => match rest st with [] => k st | _ => None end
  end.

(** A match: where it starts, the matched text, the text after it, the captures. *)
Record mres := MR { m_index : nat; m_text : jstr; m_after : jstr; m_caps : list (nat * jstr) }.

Definition group (n : nat) (m : mres) : option jstr := cap_get n (m_caps m).

Definition match_here (r : re) (p : nat) (s : jstr) : option mres :=
  match mtch r (MS s p []) Some with
  | Some st => Some (MR p (take (pos st - p)%nat s) (rest st) (caps st))
  | None => None
  end.

(** [r.exec(s)] from position [p] on, where [s] is the text from [p]. *)
Fixpoint exec_from (r : re) (p : nat) (s : jstr) : option mres :=
  match match_here r p s with
  | Some m => Some m
  | None => match s with [] => None | _ :: s' => exec_from r (S p) s' end
  end.

Definition exec (r : re) (s : jstr) : option mres := exec_from r 0 s.
Definition test (r : re) (s : jstr) : bool := if exec r s is Some _ then true else false.

(** [s.replace(r, f)] with the flag [g]: each match is replaced, matching goes on after it; an
    empty match moves on by one unit. *)
Fixpoint replace_all_from (fuel : nat) (r : re) (f : mres -> jstr) (p : nat) (s : jstr) : jstr :=
  match fuel with
  | O => s
  | S n =>
      match match_here r p s with
      | Some m =>
          let d := length (m_text m) in
          if Nat.eqb d 0 then
            f m ++ match s with [] => [] | c :: s' => c :: replace_all_from n r f (S p) s' end
          else f m ++ replace_all_from n r f (p + d)%nat (m_after m)
      | None =>
          match s with [] => [] | c :: s' => c :: replace_all_from n r f (S p) s' end
      end
  end.

Definition replace_all (r : re) (f : mres -> jstr) (s : jstr) : jstr :=
  replace_all_from (S (length s)) r f 0 s.

(** [s.replace(r, f)] without [g]: the first match only. *)
Definition replace_first (r : re) (f : mres -> jstr) (s : jstr) : jstr :=
  match exec r s with
  | Some m => take (m_index m) s ++ f m ++ m_after m
  | None => s
  end.

Example exec_greedy :
  (λ m, (m_index m, m_text m, group 1 m)) <$>
    exec (RSeq (RChar 97) (RGroup 1 (RStar true (RSet is_digit)))) (js "xa12b")
  = Some (1%nat, js "a12", Some (js "12")).
Proof. reflexivity. Qed.

Example replace_lazy :
  replace_all (RSeq (RChar 60) (RSeq (RStar false (RSet (λ _, true))) (RChar 62)))
    (λ _, js "-") (js "a<b>c<d>>") = js "a-c->".
Proof. reflexivity. Qed.

(** ** What a matcher does to its state

    Every state passed on continues the state it started from: it has read
    a prefix of the remaining text. *)
Definition extends (st st' : mstate) : Prop :=
  exists p, rest st = p ++ rest st' /\ pos st' = (pos st + length p)%nat.

#[export] Instance extends_preorder : PreOrder extends.
Proof.
  split.
  - intros st. by exists []; rewrite Nat.add_0_r.
  - intros s1 s2 s3 (p & Hr & Hp) (q & Hr' & Hq). exists (p ++ q).
    rewrite Hr, Hr', Hq, Hp, length_app, app_assoc. split; [done|lia].
Qed.

Definition sound (m : mstate -> kont -> option mstate) : Prop :=
  ∀ st k x, m st k = Some x → ∃ st', extends st st' ∧ k st' = Some x.

Lemma star_loop_sound m gs g fuel : sound m → sound (star_loop m gs g fuel).
Proof.
  intros Hm. induction fuel as [|f IH]; intros st k x; simpl.
  - intros H. exists st. by split.
  - set (iter := m (reset_caps gs st) _).
    assert (Hiter : ∀ x, iter = Some x → ∃ st', extends st st' ∧ k st' = Some x).
    { intros y (st' & He & Hk)%Hm. destruct (Nat.eqb _ _); [done|].
      apply IH in Hk as (st'' & He' & Hk). exists st''. split; [|done].
      etransitivity; [|done]. exact He. }
    assert (Hk : ∀ x, k st = Some x → ∃ st', extends st st' ∧ k st' = Some x).
    { intros y Hy. exists st. by split. }
    destruct g; [destruct iter eqn:E|destruct (k st) eqn:E]; intros H; simplify_eq; eauto.
Qed.

Lemma mtch_sound r : sound (mtch r).
Proof.
  induction r as [|f|a IHa b IHb|a IHa b IHb|g a IHa|n a IHa|a IHa| |];
    intros st k x H; simpl in H.
  - exists st. by split.
  - destruct st as [s p c]; destruct s as [|u s]; simpl in *; [done|].
    destruct (f u); [|done]. eexists; split; [|done]. exists [u]. simpl. split; [done|lia].
  - apply IHa in H as (s1 & H1 & H). apply IHb in H as (s2 & H2 & H).
    exists s2. split; [by etransitivity|done].
  - destruct (mtch a st k) eqn:E; simplify_eq; eauto.
  - by apply star_loop_sound in H.
  - apply IHa in H as (s1 & H1 & H). eexists; split; [|exact H]. exact H1.
  - destruct (mtch a st Some); [done|]. exists st. by split.
  - destruct (Nat.eqb _ _); [|done]. exists st. by split.
  - destruct st as [[|] ? ?]; simpl in *; [|done]. eexists. by split.
Qed.

(** A match is a factor of the subject at the position it names. *)
Lemma match_here_split r p s m :
  match_here r p s = Some m → s = m_text m ++ m_after m ∧ m_index m = p.
Proof.
  unfold match_here. destruct (mtch r _ _) eqn:E; [|done]. intros [= <-].
  apply mtch_sound in E as (st' & (q & Hr & Hp) & [= ->]). simpl in *.
  rewrite Hp, Hr. replace (p + length q - p)%nat with (length q) by lia.
  by rewrite take_app_length.
Qed.

Lemma exec_from_split r s : ∀ p m,
  exec_from r p s = Some m →
  ∃ pre, s = pre ++ m_text m ++ m_after m ∧ m_index m = (p + length pre)%nat.
Proof.
  induction s as [|c s IH]; intros p m; cbn [exec_from]; destruct (match_here r p _) eqn:E;
    intros H; simplify_eq.
  - apply match_here_split in E as [-> ->]. exists []. simpl. split; [done|lia].
  - apply match_here_split in E as [-> ->]. exists []. simpl. split; [done|lia].
  - apply IH in H as (pre & -> & ->). exists (c :: pre). simpl. split; [done|lia].
Qed.

Lemma exec_split r s m :
  exec r s = Some m → s = take (m_index m) s ++ m_text m ++ m_after m.
Proof.
  intros (pre & Hs & Hi)%exec_from_split. rewrite Hi. simpl.
  rewrite Hs at 2. by rewrite take_app_length.
Qed.

(** Replacing every match by itself changes nothing. *)
Lemma replace_all_from_id r n : ∀ p s, replace_all_from n r m_text p s = s.
Proof.
  induction n as [|n IH]; intros p s; cbn [replace_all_from]; [done|].
  destruct (match_here r p s) as [m|] eqn:E.
  - apply match_here_split in E as [E _].
    destruct (Nat.eqb_spec (length (m_text m)) 0) as [H0|].
    + apply nil_length_inv in H0. rewrite H0. simpl. destruct s; [done|]. by rewrite IH.
    + by rewrite IH.
  - destruct s; [done|]. by rewrite IH.
Qed.

Lemma replace_all_from_S n r f p s :
  replace_all_from (S n) r f p s =
    match match_here r p s with
    | Some m =>
        let d := length (m_text m) in
        if Nat.eqb d 0 then
          f m ++ match s with [] => [] | c :: s' => c :: replace_all_from n r f (S p) s' end
        else f m ++ replace_all_from n r f (p + d)%nat (m_after m)
    | None =>
        match s with [] => [] | c :: s' => c :: replace_all_from n r f (S p) s' end
    end.
Proof. done. Qed.

(** ** Single-unit expressions

    A replace whose expression is one character class acts unit by unit. *)
Lemma match_here_set f p c s :
  match_here (RSet f) p (c :: s) =
    if f c then Some (MR p [c] s []) else None.
Proof.
  unfold match_here. simpl. destruct (f c); [|done].
  simpl. by replace (S p - p)%nat with 1%nat by lia.
Qed.

Lemma replace_all_set_from f g n : ∀ p s, (length s < n)%nat →
  replace_all_from n (RSet f) (λ m, g (m_text m)) p s =
    mjoin ((λ c, if f c then g [c] else [c]) <$> s).
Proof.
  induction n as [|n IH]; intros p s Hn; [lia|]. destruct s as [|c s]; [done|].
  cbn [replace_all_from]. rewrite match_here_set. simpl in Hn.
  destruct (f c) eqn:E; csimpl; rewrite E, IH by lia; done.
Qed.

Lemma replace_all_set f g s :
  replace_all (RSet f) (λ m, g (m_text m)) s =
    mjoin ((λ c, if f c then g [c] else [c]) <$> s).
Proof. apply replace_all_set_from. lia. Qed.

(** ** Runs of one class

    A greedy star of a class tries the longest run first and then the
    shorter ones. *)
Fixpoint greedy_run (f : cset) (s : jstr) (p : nat) (cs : list (nat * jstr)) (k : kont) : option mstate :=
  match s with
  | c :: s' =>
      if f c then
        match greedy_run f s' (S p) cs k with Some r => Some r | None => k (MS s p cs) end
      else k (MS s p cs)
  | [] => k (MS s p cs)
  end.

Lemma reset_caps_nil st : reset_caps [] st = st.
Proof.
  destruct st as [s p cs]. unfold reset_caps. simpl. f_equal.
  induction cs; simpl; by f_equal.
Qed.

Lemma star_loop_set f n : ∀ s p cs k, (length s ≤ n)%nat →
  star_loop (mtch (RSet f)) [] true n (MS s p cs) k = greedy_run f s p cs k.
Proof.
  induction n as [|n IH]; intros s p cs k Hn.
  - by destruct s; simpl in *; [|lia].
  - cbn [star_loop]. rewrite reset_caps_nil. destruct s as [|c s]; simpl; [done|].
    destruct (f c); [|done]. simpl. destruct (Nat.eqb_spec p (S p)); [lia|].
    rewrite <- IH by (simpl in Hn; lia). destruct p; [done|].
    by destruct (Nat.eqb_spec (S p) p); [lia|].
Qed.

(** One equation per constructor, so that a proof can step through an
    expression without unfolding its stars. *)
Lemma mtch_seq a b st k : mtch (RSeq a b) st k = mtch a st (λ st', mtch b st' k).
Proof. done. Qed.
Lemma mtch_alt a b st k :
  mtch (RAlt a b) st k = match mtch a st k with Some x => Some x | None => mtch b st k end.
Proof. done. Qed.
Lemma mtch_bol s p cs k : mtch RBol (MS s p cs) k = if Nat.eqb p 0 then k (MS s p cs) else None.
Proof. done. Qed.
Lemma mtch_eol s p cs k :
  mtch REol (MS s p cs) k = match s with [] => k (MS s p cs) | _ => None end.
Proof. done. Qed.
Lemma mtch_set_cons f c s p cs k :
  mtch (RSet f) (MS (c :: s) p cs) k = if f c then k (MS s (S p) cs) else None.
Proof. done. Qed.
Lemma mtch_set_nil f p cs k : mtch (RSet f) (MS [] p cs) k = None.
Proof. done. Qed.
Lemma mtch_empty st k : mtch REmpty st k = k st.
Proof. done. Qed.
Lemma mtch_group n a st k :
  mtch (RGroup n a) st k = mtch a st (λ st',
    k (MS (rest st') (pos st')
        ((n, take (pos st' - pos st)%nat (rest st))
         :: List.filter (λ p, negb (Nat.eqb p.1 n)) (caps st')))).
Proof. done. Qed.

Create Rewrite HintDb mtch.
#[export] Hint Rewrite mtch_seq mtch_alt mtch_bol mtch_eol mtch_set_cons mtch_set_nil
  mtch_empty mtch_group : mtch.

Lemma mtch_star_set f s p cs k :
  mtch (RStar true (RSet f)) (MS s p cs) k = greedy_run f s p cs k.
Proof. by apply star_loop_set. Qed.
#[export] Hint Rewrite mtch_star_set : mtch.

(** With a continuation that cannot fail the run is the longest one. *)
Lemma greedy_run_total f k s : ∀ p cs, (∀ st, is_Some (k st)) →
  greedy_run f s p cs k =
    k (MS (drop_while f s) (p + (length s - length (drop_while f s)))%nat cs).
Proof.
  induction s as [|c s IH]; intros p cs Hk; simpl; [by rewrite Nat.add_0_r|].
  destruct (f c) eqn:E.
  - rewrite IH by done.
    set (a := k _). destruct (Hk (MS (drop_while f s)
      (S p + (length s - length (drop_while f s)))%nat cs)) as [x Hx].
    unfold a. rewrite Hx, <- Hx. do 2 f_equal.
    assert (length (drop_while f s) ≤ length s)%nat; [|lia].
    clear. induction s as [|c s IH]; simpl; [lia|]. destruct (f c); simpl; lia.
  - simpl. by rewrite Nat.sub_diag, Nat.add_0_r.
Qed.

(** A continuation that only accepts the end of the text. *)
Lemma greedy_run_end f s : ∀ p cs,
  greedy_run f s p cs (λ st, mtch REol st Some) =
    if forallb f s then Some (MS [] (p + length s)%nat cs) else None.
Proof.
  induction s as [|c s IH]; intros p cs; simpl; [by rewrite Nat.add_0_r|].
  destruct (f c); simpl; [|done]. rewrite IH.
  destruct (forallb f s); [|done]. do 2 f_equal. lia.
Qed.

(** ** Matching does not depend on the position

    An expression without [^] matches the same way wherever the text
    stands, so that [replace] can be read from left to right. *)
Fixpoint no_bol (r : re) : bool :=
  match r with
  | RBol => false
  | REmpty | RSet _ | REol => true
  | RSeq a b | RAlt a b => no_bol a && no_bol b
  | RStar _ a | RGroup _ a | RNotAhead a => no_bol a
  end.

Definition shift (d : nat) (st : mstate) : mstate := MS (rest st) (d + pos st)%nat (caps st).

Definition shifted (d : nat) (k k' : kont) : Prop := ∀ st, k' (shift d st) = shift d <$> k st.

Lemma star_loop_shift d m gs g fuel :
  (∀ st k k', shifted d k k' → m (shift d st) k' = shift d <$> m st k) →
  ∀ st k k', shifted d k k' →
    star_loop m gs g fuel (shift d st) k' = shift d <$> star_loop m gs g fuel st k.
Proof.
  intros Hm. induction fuel as [|f IH]; intros st k k' Hk; cbn [star_loop]; [apply Hk|].
  change (reset_caps gs (shift d st)) with (shift d (reset_caps gs st)).
  erewrite (Hm _ (λ st', if Nat.eqb (pos st') (pos st) then None else star_loop m gs g f st' k)).
  2:{ intros st'. simpl.
      replace (Nat.eqb (d + pos st') (d + pos st)) with (Nat.eqb (pos st') (pos st));
        [destruct (Nat.eqb _ _); [done|by apply IH]|].
      destruct (Nat.eqb_spec (pos st') (pos st)), (Nat.eqb_spec (d + pos st') (d + pos st));
        done || lia. }
  rewrite (Hk st). destruct g, (m _ _), (k st); done.
Qed.

Lemma mtch_shift d r : no_bol r = true →
  ∀ st k k', shifted d k k' → mtch r (shift d st) k' = shift d <$> mtch r st k.
Proof.
  induction r as [|f|a IHa b IHb|a IHa b IHb|g a IHa|n a IHa|a IHa| |];
    cbn [no_bol]; intros Hr st k k' Hk; try apply andb_true_iff in Hr as [??].
  - apply Hk.
  - destruct st as [[|c s] p cs]; simpl; [done|]. destruct (f c); [|done].
    rewrite <- Hk. unfold shift. simpl. by rewrite Nat.add_succ_r.
  - cbn [mtch]. apply IHa; [done|]. intros st'. by apply IHb.
  - cbn [mtch]. rewrite (IHa ltac:(done) st k k' Hk). destruct (mtch a st k); [done|].
    by apply IHb.
  - cbn [mtch]. apply star_loop_shift; [|done]. intros. by apply IHa.
  - cbn [mtch]. apply IHa; [done|]. intros st'. rewrite <- Hk. unfold shift. simpl.
    by replace (d + pos st' - (d + pos st))%nat with (pos st' - pos st)%nat by lia.
  - cbn [mtch]. rewrite (IHa ltac:(done) st Some Some); [|done].
    destruct (mtch a st Some); [done|]. apply Hk.
  - done.
  - destruct st as [[|] p cs]; simpl; [|done]. apply (Hk (MS [] p cs)).
Qed.

Definition set_index (p : nat) (m : mres) : mres := MR p (m_text m) (m_after m) (m_caps m).

Lemma match_here_shift r p s : no_bol r = true →
  match_here r p s = set_index p <$> match_here r 0 s.
Proof.
  intros Hr. unfold match_here.
  change (MS s p []) with (MS s p (@nil (nat * jstr))).
  replace (MS s p []) with (shift p (MS s 0 [])) by (unfold shift; simpl; by rewrite Nat.add_0_r).
  rewrite (mtch_shift p r Hr (MS s 0 []) Some Some) by done.
  destruct (mtch r _ _) as [st|]; [|done]. simpl. unfold set_index. simpl.
  by replace (p + pos st - p)%nat with (pos st - 0)%nat by lia.
Qed.

Section Replace.
Context (r : re) (f : mres -> jstr).
Context (Hr : no_bol r = true) (Hf : ∀ m p, f (set_index p m) = f m).

Lemma m_after_shorter p s m :
  match_here r p s = Some m → (length (m_text m) + length (m_after m) = length s)%nat.
Proof. intros [-> _]%match_here_split. by rewrite length_app. Qed.

Lemma replace_all_from_fuel n : ∀ n' p p' s, (length s < n)%nat → (length s < n')%nat →
  replace_all_from n r f p s = replace_all_from n' r f p' s.
Proof.
  induction n as [|n IH]; intros [|n'] p p' s Hn Hn'; try lia.
  rewrite !replace_all_from_S, (match_here_shift r p s Hr), (match_here_shift r p' s Hr).
  assert (Htl : ∀ q q', match s with [] => [] | c :: s' => c :: replace_all_from n r f q s' end =
      match s with [] => [] | c :: s' => c :: replace_all_from n' r f q' s' end).
  { intros q q'. destruct s as [|c s]; [done|]. f_equal. apply IH; simpl in *; lia. }
  destruct (match_here r 0 s) as [m|] eqn:E; [|apply Htl].
  cbn [fmap option_fmap option_map]. cbv zeta. rewrite !Hf. cbn [set_index m_text m_after].
  apply m_after_shorter in E. destruct (Nat.eqb_spec (length (m_text m)) 0).
  - f_equal. apply Htl.
  - f_equal. apply IH; lia.
Qed.

(** The three equations of [replace]. *)
Lemma replace_all_step s m :
  match_here r 0 s = Some m → m_text m ≠ [] →
  replace_all r f s = f m ++ replace_all r f (m_after m).
Proof using Hr Hf.
  intros E Hne. unfold replace_all at 1. rewrite replace_all_from_S, E. cbv zeta.
  apply m_after_shorter in E. destruct (m_text m) as [|c t] eqn:Et; [done|].
  cbn [length Nat.eqb]. f_equal. apply replace_all_from_fuel; simpl in *; lia.
Qed.

Lemma replace_all_skip c s :
  match_here r 0 (c :: s) = None → replace_all r f (c :: s) = c :: replace_all r f s.
Proof using Hr Hf.
  intros E. unfold replace_all at 1. rewrite replace_all_from_S, E. f_equal.
  apply replace_all_from_fuel; simpl in *; lia.
Qed.

Lemma replace_all_nil : match_here r 0 [] = None → replace_all r f [] = [].
Proof. intros E. unfold replace_all. cbn [length]. by rewrite replace_all_from_S, E. Qed.
End Replace.

(** A greedy run of a class stops at the first unit outside it, when what
    follows accepts there. *)
Lemma greedy_run_app f w c t k p cs x :
  forallb f w = true → f c = false →
  k (MS (c :: t) (p + length w)%nat cs) = Some x →
  greedy_run f (w ++ c :: t) p cs k = Some x.
Proof.
  revert p. induction w as [|a w IH]; intros p Hw Hc Hk; simpl in *.
  - rewrite Hc. by rewrite Nat.add_0_r in Hk.
  - apply andb_true_iff in Hw as [-> Hw]. rewrite (IH (S p)); [done|done|done|].
    by rewrite Nat.add_succ_r in Hk.
Qed.

(** ** Reading forward

    [reads r u t cs cs']: in front of the text [t] the expression reads [u]
    and the captures become [cs'], whenever what follows accepts there. [refuses r s]: it matches
    nothing at the start of [s].  The rules below follow a match from left to right. *)
Definition reads (r : re) (u t : jstr) (cs cs' : list (nat * jstr)) : Prop :=
  ∀ p k x, k (MS t (p + length u)%nat cs') = Some x → mtch r (MS (u ++ t) p cs) k = Some x.
Definition refuses (r : re) (s : jstr) : Prop := ∀ p cs k, mtch r (MS s p cs) k = None.

(** The text does not go on with a unit of the set. *)
Definition stops (f : cset) (t : jstr) : bool := match t with [] => true | c :: _ => negb (f c) end.

Definition capture (n : nat) (u : jstr) (cs : list (nat * jstr)) : list (nat * jstr) :=
  (n, u) :: List.filter (λ p, negb (Nat.eqb p.1 n)) cs.

Lemma greedy_run_stop f w t k p cs x :
  forallb f w = true → stops f t = true →
  k (MS t (p + length w)%nat cs) = Some x → greedy_run f (w ++ t) p cs k = Some x.
Proof.
  intros Hw Ht Hk. destruct t as [|c t].
  - rewrite app_nil_r. revert p Hk. induction w as [|a w IH]; intros p Hk; simpl in *.
    + by rewrite Nat.add_0_r in Hk.
    + apply andb_true_iff in Hw as [-> Hw]. rewrite Nat.add_succ_r in Hk. by rewrite (IH Hw (S p) Hk).
  - apply negb_true_iff in Ht. by apply greedy_run_app.
Qed.

Lemma reads_empty t cs : reads REmpty [] t cs cs.
Proof. intros p k x. simpl. by rewrite Nat.add_0_r. Qed.

Lemma reads_set f c t cs : f c = true → reads (RSet f) [c] t cs cs.
Proof. intros Hc p k x. simpl. rewrite Hc. by rewrite Nat.add_1_r. Qed.

Lemma reads_char c t cs : reads (RChar c) [c] t cs cs.
Proof. apply reads_set. apply Z.eqb_refl. Qed.

Lemma reads_str w : ∀ t cs, reads (RStr w) w t cs cs.
Proof.
  induction w as [|c [|d w] IH]; intros t cs; [apply reads_empty|apply reads_char|].
  intros p k x Hk. cbn [RStr app]. rewrite mtch_seq. unfold RChar. rewrite mtch_set_cons, Z.eqb_refl.
  apply (IH t cs (S p)). cbn [length] in *. by rewrite Nat.add_succ_l, <- Nat.add_succ_r.
Qed.

Lemma reads_seq a b u v t cs cs1 cs2 :
  reads a u (v ++ t) cs cs1 → reads b v t cs1 cs2 → reads (RSeq a b) (u ++ v) t cs cs2.
Proof.
  intros Ha Hb p k x Hk. rewrite mtch_seq, <- app_assoc. apply Ha, Hb.
  by rewrite <- Nat.add_assoc, <- length_app.
Qed.

Lemma reads_alt_l a b u t cs cs' : reads a u t cs cs' → reads (RAlt a b) u t cs cs'.
Proof. intros Ha p k x Hk. rewrite mtch_alt. by rewrite (Ha p k x Hk). Qed.

Lemma reads_alt_r a b u t cs cs' : refuses a (u ++ t) → reads b u t cs cs' → reads (RAlt a b) u t cs cs'.
Proof. intros Ha Hb p k x Hk. rewrite mtch_alt, Ha. by apply Hb. Qed.

Lemma reads_opt_none a t cs : refuses a t → reads (ROpt a) [] t cs cs.
Proof. intros Ha. apply reads_alt_r; [done|apply reads_empty]. Qed.

Lemma reads_group n a u t cs cs' : reads a u t cs cs' → reads (RGroup n a) u t cs (capture n u cs').
Proof.
  intros Ha p k x Hk. rewrite mtch_group. apply Ha. cbn [rest pos caps].
  replace (p + length u - p)%nat with (length u) by lia. by rewrite take_app_length.
Qed.

Lemma reads_star f w t cs : forallb f w = true → stops f t = true → reads (RStar true (RSet f)) w t cs cs.
Proof. intros Hw Ht p k x Hk. rewrite mtch_star_set. by apply greedy_run_stop. Qed.

Lemma reads_plus f w t cs : w ≠ [] → forallb f w = true → stops f t = true →
  reads (RPlus (RSet f)) w t cs cs.
Proof.
  intros Hne Hw Ht. destruct w as [|c w]; [done|]. apply andb_true_iff in Hw as [Hc Hw].
  apply (reads_seq _ _ [c] w _ _ cs); [by apply reads_set|by apply reads_star].
Qed.

Lemma reads_eol cs : reads REol [] [] cs cs.
Proof. intros p k x. simpl. by rewrite Nat.add_0_r. Qed.

(** A reading of the whole text when only its end is accepted after it. *)
Lemma reads_nil a u t cs cs' : u = [] → reads a [] t cs cs' → reads a u t cs cs'.
Proof. by intros ->. Qed.

Lemma refuses_set f s : stops f s = true → refuses (RSet f) s.
Proof.
  intros Hs p cs k. destruct s as [|c s]; [done|]. apply negb_true_iff in Hs. rewrite mtch_set_cons. by rewrite Hs.
Qed.

Lemma refuses_char c s : stops (Z.eqb c) s = true → refuses (RChar c) s.
Proof. apply refuses_set. Qed.

Lemma refuses_seq a b s : refuses a s → refuses (RSeq a b) s.
Proof. intros Ha p cs k. rewrite mtch_seq. apply Ha. Qed.

Lemma refuses_alt a b s : refuses a s → refuses b s → refuses (RAlt a b) s.
Proof. intros Ha Hb p cs k. by rewrite mtch_alt, Ha, Hb. Qed.

Lemma refuses_group n a s : refuses a s → refuses (RGroup n a) s.
Proof. intros Ha p cs k. rewrite mtch_group. apply Ha. Qed.

(** A run that cannot be followed by [b], however far it goes. *)
Lemma refuses_star f b s : (∀ u t, s = u ++ t → forallb f u = true → refuses b t) →
  refuses (RSeq (RStar true (RSet f)) b) s.
Proof.
  intros H p cs k. rewrite mtch_seq, mtch_star_set. revert p. induction s as [|c s IH]; intros p; cbn [greedy_run].
  - apply (H [] []); done.
  - destruct (f c) eqn:E; [|by apply (H [] (c :: s))].
    rewrite IH; [by apply (H [] (c :: s))|]. intros u t -> Hu. apply (H (c :: u) t); [done|]. cbn. by rewrite E.
Qed.

Lemma refuses_plus f b s : (∀ u t, s = u ++ t → forallb f u = true → refuses b t) →
  refuses (RSeq (RPlus (RSet f)) b) s.
Proof.
  intros H p cs k. unfold RPlus. rewrite mtch_seq, mtch_seq. destruct s as [|c s]; [done|].
  rewrite mtch_set_cons. destruct (f c) eqn:E; [|done].
  rewrite <- mtch_seq. apply refuses_star. intros u t -> Hu. apply (H (c :: u) t); [done|]. cbn. by rewrite E.
Qed.

Lemma exec_reads r u t cs : reads r u t [] cs → exec (RSeq RBol r) (u ++ t) = Some (MR 0 u t cs).
Proof.
  intros Hr. unfold exec.
  assert (match_here (RSeq RBol r) 0 (u ++ t) = Some (MR 0 u t cs)) as E.
  { unfold match_here. rewrite mtch_seq, mtch_bol. cbn [Nat.eqb].
    rewrite (Hr 0%nat Some (MS t (length u) cs) eq_refl). cbn [pos rest caps].
    by rewrite Nat.sub_0_r, take_app_length. }
  by destruct (u ++ t); cbn [exec_from]; rewrite E.
Qed.

(** A text that avoids some signs avoids fewer of them. *)
Lemma none_of_sub s s' w :
  forallb (any_of s) (js s') = true → forallb (none_of s) w = true → forallb (none_of s') w = true.
Proof.
  rewrite !forallb_forall. intros Hs Hw c Hc. specialize (Hw c Hc). unfold none_of, any_of in *.
  apply negb_true_iff in Hw. apply negb_true_iff, not_true_iff_false. intros (d & Hd & ->%Z.eqb_eq)%existsb_exists.
  by rewrite (Hs d Hd) in Hw.
Qed.

(** The matches [s.replace(r, f)] with the flag [g] hands to its callback, in order. *)
Fixpoint all_matches_from (fuel : nat) (r : re) (p : nat) (s : jstr) : list mres :=
  match fuel with
  | O => []
  | S n =>
      match match_here r p s with
      | Some m =>
          let d := length (m_text m) in
          m :: if Nat.eqb d 0 then match s with [] => [] | _ :: s' => all_matches_from n r (S p) s' end
               else all_matches_from n r (p + d)%nat (m_after m)
      | None => match s with [] => [] | _ :: s' => all_matches_from n r (S p) s' end
      end
  end.

Definition all_matches (r : re) (s : jstr) : list mres := all_matches_from (S (length s)) r 0 s.

(** ** Captures are pieces of the subject *)
Definition factor (u s : jstr) : Prop := ∃ a b, s = a ++ u ++ b.

Lemma factor_app_r u a s : factor u s → factor u (a ++ s).
Proof. intros (x & y & ->). exists (a ++ x), y. by rewrite <- app_assoc. Qed.
Lemma factor_trans u v s : factor u v → factor v s → factor u s.
Proof.
  intros (a & b & ->) (c & d & ->). exists (c ++ a), (b ++ d). by rewrite <- !app_assoc.
Qed.
Lemma factor_refl s : factor s s.
Proof. exists [], []. by rewrite app_nil_r. Qed.

(** What a state may capture: what was there, and pieces of what is read. *)
Definition captures (st st' : mstate) : Prop :=
  ∀ n u, (n, u) ∈ caps st' → (n, u) ∈ caps st ∨ factor u (rest st).

Definition capturing (m : mstate -> kont -> option mstate) : Prop :=
  ∀ st k x, m st k = Some x → ∃ st', extends st st' ∧ captures st st' ∧ k st' = Some x.

Lemma captures_trans st1 st2 st3 : extends st1 st2 → captures st1 st2 → captures st2 st3 → captures st1 st3.
Proof.
  intros (p & Hr & _) H1 H2 n u [Hin|Hf]%H2; [by apply H1|]. right. rewrite Hr. by apply factor_app_r.
Qed.

Lemma filter_caps (f : nat * jstr -> bool) l x : x ∈ List.filter f l → x ∈ l.
Proof. rewrite !list_elem_of_In. intros H. by apply List.filter_In in H as [? _]. Qed.

Lemma star_loop_capturing m gs g fuel : capturing m → capturing (star_loop m gs g fuel).
Proof.
  intros Hm. induction fuel as [|f IH]; intros st k x; cbn [star_loop].
  - intros H. exists st. split_and!; [done|intros n u; by left|done].
  - set (iter := m (reset_caps gs st) _).
    assert (Hiter : iter = Some x → ∃ st', extends st st' ∧ captures st st' ∧ k st' = Some x).
    { intros (st1 & He & Hc & Hk)%Hm. destruct (Nat.eqb _ _); [done|].
      apply IH in Hk as (st2 & He2 & Hc2 & Hk). exists st2. split_and!; [by etransitivity; [exact He|]| |done].
      apply (captures_trans _ st1); [exact He| |done]. intros n u Hin. destruct (Hc n u Hin) as [Hin'|]; [|by right].
      left. by apply filter_caps in Hin'. }
    assert (k st = Some x → ∃ st', extends st st' ∧ captures st st' ∧ k st' = Some x) as Hk.
    { intros Hx. exists st. split_and!; [done|intros n u; by left|done]. }
    destruct g; [destruct iter eqn:E|destruct (k st) eqn:E]; intros; simplify_eq; eauto.
Qed.

Lemma mtch_capturing r : capturing (mtch r).
Proof.
  induction r as [|f|a IHa b IHb|a IHa b IHb|g a IHa|n a IHa|a IHa| |]; intros st k x H; cbn [mtch] in H.
  - exists st. split_and!; [done|intros n u; by left|done].
  - destruct st as [s p c]; destruct s as [|u s]; simpl in *; [done|].
    destruct (f u); [|done]. exists (MS s (S p) c). split_and!; [|intros n v; by left|done].
    exists [u]. simpl. split; [done|lia].
  - apply IHa in H as (s1 & H1 & C1 & H). apply IHb in H as (s2 & H2 & C2 & H).
    exists s2. split_and!; [by etransitivity|by eapply captures_trans|done].
  - destruct (mtch a st k) eqn:E; simplify_eq; eauto.
  - by apply star_loop_capturing in H.
  - apply IHa in H as (s1 & H1 & C1 & H). eexists. split; [|split; [|exact H]]; [exact H1|].
    intros n' u. cbn [caps]. intros [[= -> ->]|Hin]%elem_of_cons.
    + right. exists [], (drop (pos s1 - pos st)%nat (rest st)). cbn. by rewrite take_drop.
    + apply filter_caps in Hin. by apply C1.
  - destruct (mtch a st Some); [done|]. exists st. split_and!; [done|intros n u; by left|done].
  - destruct (Nat.eqb _ _); [|done]. exists st. split_and!; [done|intros n u; by left|done].
  - destruct st as [[|] p c]; simpl in *; [|done]. exists (MS [] p c). split_and!; [done|intros n u; by left|done].
Qed.

Lemma group_factor r p s m n u : exec_from r p s = Some m → group n m = Some u → factor u s.
Proof.
  revert p. induction s as [|c s IH]; intros p; cbn [exec_from];
    (destruct (match_here r p _) as [m'|] eqn:E; [intros [= ->]|]).
  1,3: unfold match_here in E; destruct (mtch r _ _) as [st|] eqn:Em; [|done];
    apply mtch_capturing in Em as (st' & _ & Hc & [= ->]); injection E as <-;
    unfold group, cap_get; cbn [m_caps];
    (destruct (List.find _ (caps st)) as [[n' v]|] eqn:Ef; [|done]); intros [= ->];
    apply List.find_some in Ef as [Hin%list_elem_of_In _];
    destruct (Hc _ _ Hin) as [Hnil|Hf]; [by apply not_elem_of_nil in Hnil|exact Hf].
  - done.
  - intros H Hg. by apply (factor_app_r _ [c]), (IH (S p)).
Qed.
