(* ===== verification/Tools.v ===== *)
(** * classes/util/Tools.js

    The helpers every other class calls.  [each] passes the state its
    callback changes and stops when the callback returns [false]; the maps
    [makeMap] builds have the value [{}] (here [tt]) at every key. *)

From S2P Require Import Prelude Regexp.

(** [whiteSpaceRegExp = /^\s*|\s*$/g] *)
Definition whiteSpaceRegExp : re :=
  RAlt (RSeq RBol (RStar true (RSet is_space))) (RSeq (RStar true (RSet is_space)) REol).

Definition trim (s : jstr) : jstr := replace_all whiteSpaceRegExp (λ _, []) s.

Section Arrays.
Context {A S : Type}.

(** The callback returns the new state, and [true] when its JavaScript
    result is [false]. *)
Fixpoint each_from (cb : A -> nat -> S -> S * bool) (n : nat) (o : list A) (s : S) : S * Z :=
  match o with
  | [] => (s, 1)
  | x :: o' =>
      let '(s', stop) := cb x n s in
      if stop then (s', 0) else each_from cb (n + 1)%nat o' s'
  end.

Definition each (o : list A) (cb : A -> nat -> S -> S * bool) (s : S) : S * Z :=
  each_from cb 0 o s.
End Arrays.

(** [map(a, f)] and [grep(a, f)] push onto a fresh array. *)
Definition map_ {A B} (a : list A) (f : A -> B) : list B :=
  (each a (λ v _ o, (o ++ [f v], false)) []).1.

Definition grep {A} (a : list A) (f : option (A -> bool)) : list A :=
  (each a (λ v _ o, (if match f with None => true | Some f => f v end then o ++ [v] else o, false)) []).1.

(** [inArray(a, v)]: the first index, or -1. *)
Fixpoint inArray_from `{EqDecision A} (i : Z) (a : list A) (v : A) : Z :=
  match a with
  | [] => -1
  | x :: a' => if bool_decide (x = v) then i else inArray_from (i + 1) a' v
  end.
Definition inArray `{EqDecision A} (a : list A) (v : A) : Z := inArray_from 0 a v.

(** [extend(obj, ext)] with one extension whose values are defined. *)
Definition extend {V} (obj ext : Obj.t V) : Obj.t V :=
  fold_left (λ o p, Obj.set p.1 p.2 o) ext obj.

(** [makeMap(items, delim, map)] on a string: the keys are set from the
    last piece to the first; the empty string gives no piece. *)
Definition makeMap_list (items : list jstr) (map : Obj.t unit) : Obj.t unit :=
  fold_right (λ k m, Obj.set k tt m) map items.
Definition makeMap (items : jstr) (delim : Z) (map : Obj.t unit) : Obj.t unit :=
  makeMap_list (if truthy items then split_unit delim items else []) map.

(** [explode(s, d)] of a non-empty string. *)
Definition explode (s : jstr) (d : Z) : list jstr :=
  if truthy s then map_ (split_unit d s) trim else [].

(** ** Their behaviour *)
Lemma each_from_fold {A S} (f : A -> S -> S) n o (s : S) :
  each_from (λ x _ s, (f x s, false)) n o s = (fold_left (λ s x, f x s) o s, 1).
Proof. revert n s. induction o as [|x o IH]; intros n s; simpl; [done|]. apply IH. Qed.

Lemma each_fold {A S} (f : A -> S -> S) o (s : S) :
  each o (λ x _ s, (f x s, false)) s = (fold_left (λ s x, f x s) o s, 1).
Proof. apply each_from_fold. Qed.

Lemma map_fmap {A B} (a : list A) (f : A -> B) : map_ a f = f <$> a.
Proof.
  unfold map_. rewrite each_fold. simpl.
  enough (∀ o, fold_left (λ o v, o ++ [f v]) a o = o ++ (f <$> a)) as H by apply H.
  induction a as [|x a IH]; intros o; simpl; [by rewrite app_nil_r|].
  by rewrite IH, <- app_assoc.
Qed.

Lemma grep_filter {A} (a : list A) (f : A -> bool) : grep a (Some f) = List.filter f a.
Proof.
  unfold grep. rewrite (each_fold (λ v o, if f v then o ++ [v] else o)). simpl.
  enough (∀ o, fold_left (λ o v, if f v then o ++ [v] else o) a o = o ++ List.filter f a) as H
    by apply H.
  induction a as [|x a IH]; intros o; simpl; [by rewrite app_nil_r|].
  rewrite IH. destruct (f x); [by rewrite <- app_assoc|done].
Qed.

Lemma makeMap_list_get items m k :
  Obj.get k (makeMap_list items m) = if decide (k ∈ items) then Some tt else Obj.get k m.
Proof.
  induction items as [|x items IH]; cbn [makeMap_list fold_right].
  - case_decide; set_solver.
  - fold (makeMap_list items m). rewrite Obj.get_set, IH. repeat case_decide; set_solver.
Qed.

Lemma extend_get {V} (obj ext : Obj.t V) k :
  NoDup (Obj.keys ext) →
  Obj.get k (extend obj ext) =
    match Obj.get k ext with Some v => Some v | None => Obj.get k obj end.
Proof.
  unfold extend. revert obj. induction ext as [|[k' v] ext IH]; intros obj; simpl; [done|].
  rewrite NoDup_cons. intros [Hn ?]. rewrite IH, Obj.get_set by done.
  unfold str_eqb. case_bool_decide as Hk; subst.
  - rewrite decide_True by done. apply Obj.get_None_keys in Hn. by rewrite Hn.
  - by rewrite decide_False by done.
Qed.

(** ** [trim] removes the leading and the trailing white space *)
Lemma trim_right_by_cons f c s :
  trim_right_by f (c :: s) =
    if f c && forallb f s then [] else c :: trim_right_by f s.
Proof.
  unfold trim_right_by. rewrite reverse_cons.
  assert (Hd : ∀ l, drop_while f (l ++ [c]) =
      if forallb f l then drop_while f [c] else drop_while f l ++ [c]).
  { induction l as [|x l IH]; simpl; [by destruct (f c)|]. destruct (f x); simpl; [done|done]. }
  assert (Hr : forallb f (reverse s) = forallb f s).
  { apply eq_iff_eq_true. rewrite !forallb_forall.
    by setoid_rewrite <- list_elem_of_In; setoid_rewrite elem_of_reverse. }
  assert (Ha : ∀ l, forallb f l = true → drop_while f l = []).
  { induction l as [|x l IH]; simpl; [done|]. by intros [-> ?]%andb_true_iff; auto. }
  rewrite Hd, Hr. destruct (forallb f s) eqn:E.
  - rewrite (Ha (reverse s)) by congruence. simpl. by destruct (f c).
  - rewrite andb_false_r, reverse_app. done.
Qed.

Lemma forallb_trim_right f s : forallb f s = true → trim_right_by f s = [].
Proof.
  destruct s as [|c s]; simpl; [done|]. rewrite trim_right_by_cons. by intros ->.
Qed.

Lemma match_ws_start s :
  let d := drop_while is_space s in
  match_here whiteSpaceRegExp 0 s = Some (MR 0 (take (length s - length d) s) d []).
Proof.
  intros d. unfold match_here, whiteSpaceRegExp. autorewrite with mtch. simpl Nat.eqb. cbn iota.
  rewrite greedy_run_total by (intros; eauto). simpl. by rewrite Nat.sub_0_r.
Qed.

Lemma match_ws_inside p s : (0 < p)%nat →
  match_here whiteSpaceRegExp p s = if forallb is_space s then Some (MR p s [] []) else None.
Proof.
  intros Hp. unfold match_here, whiteSpaceRegExp. autorewrite with mtch.
  destruct (Nat.eqb_spec p 0); [lia|]. rewrite (greedy_run_end is_space s p []).
  destruct (forallb is_space s); [|done]. simpl.
  by replace (p + length s - p)%nat with (length s) by lia; rewrite firstn_all.
Qed.

Lemma trim_tail n : ∀ p s, (0 < p)%nat → (length s < n)%nat →
  replace_all_from n whiteSpaceRegExp (λ _, []) p s = trim_right_by is_space s.
Proof.
  induction n as [|n IH]; intros p s Hp Hn; [lia|]. cbn [replace_all_from].
  rewrite match_ws_inside by done. destruct (forallb is_space s) eqn:E.
  - rewrite (forallb_trim_right _ _ E). destruct s as [|c s]; [done|]. simpl.
    rewrite IH; [done|lia|simpl in *; lia].
  - destruct s as [|c s]; [done|]. rewrite trim_right_by_cons.
    simpl in E. rewrite E, IH; [done|lia|simpl in *; lia].
Qed.

Lemma drop_while_length f s : (length (drop_while f s) ≤ length s)%nat.
Proof. induction s as [|c s IH]; simpl; [done|]. destruct (f c); simpl; lia. Qed.

Lemma drop_while_head f s c s' : drop_while f s = c :: s' → f c = false.
Proof.
  induction s as [|x s IH]; simpl; [done|]. destruct (f x) eqn:E; [auto|]. by intros [= <- <-].
Qed.

Lemma drop_while_same f s : length s = length (drop_while f s) → drop_while f s = s.
Proof.
  destruct s as [|c s]; simpl; [done|]. destruct (f c); [|done].
  pose proof (drop_while_length f s). lia.
Qed.

(** [trim] strips exactly the leading and the trailing white space. *)
Theorem trim_spec s :
  trim s = trim_right_by is_space (trim_left_by is_space s).
Proof.
  unfold trim, replace_all, trim_left_by. rewrite replace_all_from_S, match_ws_start. cbv zeta. cbn [m_text m_after].
  pose proof (drop_while_length is_space s). rewrite length_take.
  destruct (Nat.eqb_spec ((length s - length (drop_while is_space s)) `min` length s) 0).
  - rewrite drop_while_same by lia. destruct s as [|c s]; [done|]. rewrite (app_nil_l _).
    rewrite trim_tail, trim_right_by_cons by (simpl; lia).
    by rewrite (drop_while_head is_space (c :: s) c s) by (apply drop_while_same; simpl in *; lia).
  - rewrite trim_tail by lia. done.
Qed.

Example trim_example : trim (js "  a b ") = js "a b".
Proof. vm_compute. reflexivity. Qed.
