(* ===== verification/Entities.v ===== *)
(** * classes/html/Entities.js

    Encoding text with character entities and decoding it.  The browser's
    own decoder ([nativeDecode], the DOM) is a parameter. *)

From S2P Require Import Prelude Regexp Tools.

(** ** Tables *)
Definition high_surrogate (c : Z) : bool := between 0xD800 0xDBFF c.
Definition low_surrogate (c : Z) : bool := between 0xDC00 0xDFFF c.

(** The markup characters (ampersand, angle brackets and, in attributes, the
    double quote) and the units from 0x7E on; surrogate pairs match as one. *)
Definition attrsChars (c : Z) : bool :=
  (c =? 38) || (c =? 60) || (c =? 62) || (c =? 34) || between 0x7E 0xD7FF c || between 0xE000 0xFFEF c.
Definition textChars (c : Z) : bool :=
  (c =? 60) || (c =? 62) || (c =? 38) || between 0x7E 0xD7FF c || between 0xE000 0xFFEF c.
Definition rawChars (c : Z) : bool :=
  (c =? 60) || (c =? 62) || (c =? 38) || (c =? 34) || (c =? 39).

Definition surrogatePair : re := RSeq (RSet high_surrogate) (RSet low_surrogate).
Definition attrsCharsRegExp : re := RAlt (RSet attrsChars) surrogatePair.
Definition textCharsRegExp : re := RAlt (RSet textChars) surrogatePair.
Definition rawCharsRegExp : re := RSet rawChars.

(** [/&(#x|#)?([\w]+);/g] *)
Definition entityRegExp : re :=
  RSeq (RChar 38) (RSeq (ROpt (RGroup 1 (RAlt (RStr (js "#x")) (RStr (js "#")))))
    (RSeq (RGroup 2 (RPlus (RSet is_word))) (RChar 59))).

Definition asciiMap : list (Z * Z) :=
  [(128, 0x20AC); (130, 0x201A); (131, 0x0192); (132, 0x201E); (133, 0x2026); (134, 0x2020);
   (135, 0x2021); (136, 0x02C6); (137, 0x2030); (138, 0x0160); (139, 0x2039); (140, 0x0152);
   (142, 0x017D); (145, 0x2018); (146, 0x2019); (147, 0x201C); (148, 0x201D); (149, 0x2022);
   (150, 0x2013); (151, 0x2014); (152, 0x02DC); (153, 0x2122); (154, 0x0161); (155, 0x203A);
   (156, 0x0153); (158, 0x017E); (159, 0x0178)].

Definition asciiMap_get (v : Z) : option Z := snd <$> List.find (λ p, p.1 =? v) asciiMap.

Definition baseEntities : Obj.t jstr :=
  [([34], js "&quot;"); ([39], js "&#39;"); (js "<", js "&lt;"); (js ">", js "&gt;");
   (js "&", js "&amp;")].

Definition reverseEntities : Obj.t jstr :=
  [(js "&lt;", js "<"); (js "&gt;", js ">"); (js "&amp;", js "&"); (js "&quot;", [34]);
   (js "&apos;", [39])].

(** [items[i]]; past the end the value [undefined] prints as its name. *)
Definition item_or_undefined (items : list jstr) (i : nat) : jstr :=
  default (js "undefined") (items !! i).

Fixpoint build_loop (n : nat) (items : list jstr) (radix : Z) (lookup : Obj.t jstr) : Obj.t jstr :=
  match n, items with
  | S n', it :: rest =>
      let chr := from_char_code (default 0 (parse_int radix it)) in
      let lookup :=
        if Obj.get chr baseEntities is Some _ then lookup
        else
          let entity := js "&" ++ item_or_undefined rest 0%nat ++ js ";" in
          Obj.set entity chr (Obj.set chr entity lookup) in
      build_loop n' (tail rest) radix lookup
  | _, _ => lookup
  end.

(** [buildEntitiesLookup(items, radix)]; the empty string gives [undefined]. *)
Definition buildEntitiesLookup (items : jstr) (radix : Z) : option (Obj.t jstr) :=
  if truthy items then
    let items := split_unit 44 items in
    Some (build_loop (length items) items (if radix =? 0 then 10 else radix) [])
  else None.

Definition namedEntities_src : jstr := js (
  "50,nbsp,51,iexcl,52,cent,53,pound,54,curren,55,yen,56,brvbar,57,sect,58,uml,59,copy," ++
  "5a,ordf,5b,laquo,5c,not,5d,shy,5e,reg,5f,macr,5g,deg,5h,plusmn,5i,sup2,5j,sup3,5k,acute," ++
  "5l,micro,5m,para,5n,middot,5o,cedil,5p,sup1,5q,ordm,5r,raquo,5s,frac14,5t,frac12,5u,frac34," ++
  "5v,iquest,60,Agrave,61,Aacute,62,Acirc,63,Atilde,64,Auml,65,Aring,66,AElig,67,Ccedil," ++
  "68,Egrave,69,Eacute,6a,Ecirc,6b,Euml,6c,Igrave,6d,Iacute,6e,Icirc,6f,Iuml,6g,ETH,6h,Ntilde," ++
  "6i,Ograve,6j,Oacute,6k,Ocirc,6l,Otilde,6m,Ouml,6n,times,6o,Oslash,6p,Ugrave,6q,Uacute," ++
  "6r,Ucirc,6s,Uuml,6t,Yacute,6u,THORN,6v,szlig,70,agrave,71,aacute,72,acirc,73,atilde,74,auml," ++
  "75,aring,76,aelig,77,ccedil,78,egrave,79,eacute,7a,ecirc,7b,euml,7c,igrave,7d,iacute,7e,icirc," ++
  "7f,iuml,7g,eth,7h,ntilde,7i,ograve,7j,oacute,7k,ocirc,7l,otilde,7m,ouml,7n,divide,7o,oslash," ++
  "7p,ugrave,7q,uacute,7r,ucirc,7s,uuml,7t,yacute,7u,thorn,7v,yuml,ci,fnof,sh,Alpha,si,Beta," ++
  "sj,Gamma,sk,Delta,sl,Epsilon,sm,Zeta,sn,Eta,so,Theta,sp,Iota,sq,Kappa,sr,Lambda,ss,Mu," ++
  "st,Nu,su,Xi,sv,Omicron,t0,Pi,t1,Rho,t3,Sigma,t4,Tau,t5,Upsilon,t6,Phi,t7,Chi,t8,Psi," ++
  "t9,Omega,th,alpha,ti,beta,tj,gamma,tk,delta,tl,epsilon,tm,zeta,tn,eta,to,theta,tp,iota," ++
  "tq,kappa,tr,lambda,ts,mu,tt,nu,tu,xi,tv,omicron,u0,pi,u1,rho,u2,sigmaf,u3,sigma,u4,tau," ++
  "u5,upsilon,u6,phi,u7,chi,u8,psi,u9,omega,uh,thetasym,ui,upsih,um,piv,812,bull,816,hellip," ++
  "81i,prime,81j,Prime,81u,oline,824,frasl,88o,weierp,88h,image,88s,real,892,trade,89l,alefsym," ++
  "8cg,larr,8ch,uarr,8ci,rarr,8cj,darr,8ck,harr,8dl,crarr,8eg,lArr,8eh,uArr,8ei,rArr,8ej,dArr," ++
  "8ek,hArr,8g0,forall,8g2,part,8g3,exist,8g5,empty,8g7,nabla,8g8,isin,8g9,notin,8gb,ni,8gf,prod," ++
  "8gh,sum,8gi,minus,8gn,lowast,8gq,radic,8gt,prop,8gu,infin,8h0,ang,8h7,and,8h8,or,8h9,cap,8ha,cup," ++
  "8hb,int,8hk,there4,8hs,sim,8i5,cong,8i8,asymp,8j0,ne,8j1,equiv,8j4,le,8j5,ge,8k2,sub,8k3,sup,8k4," ++
  "nsub,8k6,sube,8k7,supe,8kl,oplus,8kn,otimes,8l5,perp,8m5,sdot,8o8,lceil,8o9,rceil,8oa,lfloor,8ob," ++
  "rfloor,8p9,lang,8pa,rang,9ea,loz,9j0,spades,9j3,clubs,9j5,hearts,9j6,diams,ai,OElig,aj,oelig,b0," ++
  "Scaron,b1,scaron,bo,Yuml,m6,circ,ms,tilde,802,ensp,803,emsp,809,thinsp,80c,zwnj,80d,zwj,80e,lrm," ++
  "80f,rlm,80j,ndash,80k,mdash,80o,lsquo,80p,rsquo,80q,sbquo,80s,ldquo,80t,rdquo,80u,bdquo,810,dagger," ++
  "811,Dagger,81g,permil,81p,lsaquo,81q,rsaquo,85c,euro").

Definition namedEntities : Obj.t jstr :=
  Eval vm_compute in default [] (buildEntitiesLookup namedEntities_src 32).

Example namedEntities_nbsp : Obj.get (js "&nbsp;") namedEntities = Some [160].
Proof. reflexivity. Qed.

(** ** Encoders *)
Definition base_or (chr other : jstr) : jstr := default other (Obj.get chr baseEntities).

Definition charsRegExp (attr : bool) : re := if attr then attrsCharsRegExp else textCharsRegExp.

Definition encodeRaw (text : jstr) (attr : bool) : jstr :=
  replace_all (charsRegExp attr) (λ m, base_or (m_text m) (m_text m)) text.

Definition encodeAllRaw (text : jstr) : jstr :=
  replace_all rawCharsRegExp (λ m, base_or (m_text m) (m_text m)) text.

(** ["&#" + n + ";"] *)
Definition numeric_entity (n : Z) : jstr := js "&#" ++ num_to_string 10 n ++ js ";".

Definition encodeNumeric (text : jstr) (attr : bool) : jstr :=
  replace_all (charsRegExp attr) (λ m,
    match m_text m with
    | [hi; lo] => numeric_entity ((hi - 0xD800) * 0x400 + (lo - 0xDC00) + 0x10000)
    | chr => base_or chr (numeric_entity (default 0 (head chr)))
    end) text.

Definition encodeNamed (text : jstr) (attr : bool) (entities : Obj.t jstr) : jstr :=
  replace_all (charsRegExp attr) (λ m,
    let chr := m_text m in base_or chr (default chr (Obj.get chr entities))) text.

(** The encoder [getEncodeFunc] returns for named and numeric: the code of
    the first unit only. *)
Definition encodeNamedAndNumeric (entities : Obj.t jstr) (text : jstr) (attr : bool) : jstr :=
  replace_all (charsRegExp attr) (λ m,
    let chr := m_text m in
    base_or chr (default (numeric_entity (default 0 (head chr))) (Obj.get chr entities))) text.

(** [getEncodeFunc(name, entities)]: [entities] is the empty string when
    the option is not given. *)
Definition getEncodeFunc (name entities : jstr) : jstr -> bool -> jstr :=
  let entities := default namedEntities (buildEntitiesLookup entities 0) in
  let name := makeMap (replace_all (RChar 43) (λ _, js ",") name) 44 [] in
  let has k := if Obj.get (js k) name is Some _ then true else false in
  if has "named"%string && has "numeric"%string then encodeNamedAndNumeric entities
  else if has "named"%string then λ text attr, encodeNamed text attr entities
  else if has "numeric"%string then encodeNumeric
  else encodeRaw.

(** ** Decoding *)

(** [ToInt32] before a bit operation. *)
Definition to_int32 (v : Z) : Z := (v + 2147483648) mod 4294967296 - 2147483648.

(** The code of a numeric entity as text; [None] is NaN. *)
Definition decode_code (value : option Z) : jstr :=
  match value with
  | Some value =>
      if 0xFFFF <? value then
        let value := value - 0x10000 in
        from_char_code (0xD800 + Z.shiftr (to_int32 value) 10)
        ++ from_char_code (0xDC00 + Z.land (to_int32 value) 0x3FF)
      else match asciiMap_get value with
           | Some c => [c]
           | None => from_char_code value
           end
  | None => from_char_code 0
  end.

Section Decode.
(** The browser: an element whose innerHTML is the entity, read back. *)
Context (nativeDecode : jstr -> jstr).

Definition decode_entity (m : mres) : jstr :=
  match group 1 m with
  | Some numeric =>
      decode_code (parse_int (if Nat.eqb (length numeric) 2 then 16 else 10)
                     (default [] (group 2 m)))
  | None =>
      match Obj.get (m_text m) reverseEntities with
      | Some c => c
      | None =>
          match Obj.get (m_text m) namedEntities with
          | Some c => c
          | None => nativeDecode (m_text m)
          end
      end
  end.

Definition decode (text : jstr) : jstr := replace_all entityRegExp decode_entity text.
End Decode.

Example encode_example : encodeNumeric (js "a<b" ++ [233; 0xD83D; 0xDE00]) false
  = js "a&lt;b&#233;&#128512;".
Proof. vm_compute. reflexivity. Qed.
Example decode_example : decode (λ s, s) (js "a&lt;b&#xe9;&#128512;&eacute;&foo;")
  = js "a<b" ++ [233; 0xD83D; 0xDE00; 233] ++ js "&foo;".
Proof. vm_compute. reflexivity. Qed.
Example encode_options : getEncodeFunc (js "named+numeric") [] [160; 0x3042] false
  = js "&nbsp;&#12354;".
Proof. vm_compute. reflexivity. Qed.

(** ** Lemmas: one entity *)
Lemma entityRegExp_no_bol : no_bol entityRegExp = true.
Proof. reflexivity. Qed.

Lemma charsRegExp_no_bol attr : no_bol (charsRegExp attr) = true.
Proof. by destruct attr. Qed.

Section WordRun.
Context (w t : jstr) (Hne : w ≠ []) (Hw : forallb is_word w = true).

Lemma word_run p cs :
  mtch (RSeq (RGroup 2 (RPlus (RSet is_word))) (RChar 59)) (MS (w ++ 59 :: t) p cs) Some =
    Some (MS t (S (p + length w))%nat ((2%nat, w) :: List.filter (λ q, negb (Nat.eqb q.1 2)) cs)).
Proof using Hne Hw.
  destruct w as [|c w']; [done|]. simpl in Hw. apply andb_true_iff in Hw as [Hc Hw'].
  unfold RPlus. autorewrite with mtch. rewrite <- app_comm_cons. autorewrite with mtch.
  rewrite Hc. autorewrite with mtch.
  apply greedy_run_app; [done|done|]. cbn [pos rest caps].
  replace (S p + length w' - p)%nat with (length (c :: w')) by (simpl; lia).
  rewrite app_comm_cons, take_app_length. cbn. do 2 f_equal. lia.
Qed.
End WordRun.

Definition numPrefix : re := RGroup 1 (RAlt (RSeq (RChar 35) (RChar 120)) (RChar 35)).

Lemma entityRegExp_eq : entityRegExp =
  RSeq (RChar 38) (RSeq (RAlt numPrefix REmpty)
    (RSeq (RGroup 2 (RPlus (RSet is_word))) (RChar 59))).
Proof. reflexivity. Qed.

Lemma mtch_char_cons a c s p cs k :
  mtch (RChar a) (MS (c :: s) p cs) k = if a =? c then k (MS s (S p) cs) else None.
Proof. done. Qed.

Lemma take_named (x : Z) (w t : jstr) :
  take (S (S (length w))) (x :: w ++ 59 :: t) = x :: w ++ [59].
Proof.
  cbn [take firstn]. f_equal. rewrite (cons_middle 59 w t), app_assoc.
  apply take_app_length'. rewrite length_app. simpl. lia.
Qed.

Lemma match_named w t : w ≠ [] → forallb is_word w = true →
  match_here entityRegExp 0 (38 :: w ++ 59 :: t) =
    Some (MR 0 (38 :: w ++ [59]) t [(2%nat, w)]).
Proof.
  intros Hne Hw. unfold match_here. rewrite entityRegExp_eq.
  rewrite mtch_seq, mtch_char_cons, Z.eqb_refl, mtch_seq, mtch_alt, mtch_empty.
  rewrite word_run by done. unfold numPrefix. autorewrite with mtch.
  destruct w as [|c w']; [done|]. rewrite <- app_comm_cons, !mtch_char_cons.
  assert ((35 =? c) = false) as ->.
  { simpl in Hw. apply andb_true_iff in Hw as [Hw _]. unfold is_word, between in Hw. lia. }
  cbn [pos rest caps]. rewrite Nat.sub_0_r. by rewrite app_comm_cons, take_named.
Qed.

(** A decimal entity: the prefix is the sharp sign alone, because a digit
    is not an x. *)
Lemma match_decimal c w t : is_digit c = true → forallb is_word w = true →
  match_here entityRegExp 0 (38 :: 35 :: c :: w ++ 59 :: t) =
    Some (MR 0 (38 :: 35 :: c :: w ++ [59]) t [(2%nat, c :: w); (1%nat, [35])]).
Proof.
  intros Hc Hw. unfold match_here. rewrite entityRegExp_eq.
  rewrite mtch_seq, mtch_char_cons, Z.eqb_refl, mtch_seq, mtch_alt.
  unfold numPrefix. rewrite mtch_group, mtch_alt, mtch_seq, mtch_char_cons, Z.eqb_refl, mtch_char_cons.
  assert ((120 =? c) = false) as ->. { unfold is_digit, between in Hc. lia. }
  rewrite mtch_char_cons, Z.eqb_refl. cbn [pos rest caps Nat.sub take firstn List.filter].
  assert (is_word c = true) as Hc'. { unfold is_digit, is_word, between in *. lia. }
  rewrite app_comm_cons, word_run by (simpl; by rewrite ?Hc').
  cbn [pos rest caps]. rewrite Nat.sub_0_r. do 2 f_equal.
  cbn [take firstn Nat.add length]. do 2 f_equal. apply take_named.
Qed.

Lemma match_not_amp c s : c ≠ 38 → match_here entityRegExp 0 (c :: s) = None.
Proof.
  intros Hc. unfold match_here. rewrite entityRegExp_eq, mtch_seq, mtch_char_cons.
  by destruct (Z.eqb_spec 38 c); [congruence|].
Qed.

(** ** Lemmas: decoding what an encoder wrote *)
Section DecodeFacts.
Context (nd : jstr -> jstr).

Lemma decode_entity_index m p : decode_entity nd (set_index p m) = decode_entity nd m.
Proof. done. Qed.

Lemma decode_nil : decode nd [] = [].
Proof. done. Qed.

Lemma decode_char c t : c ≠ 38 → decode nd (c :: t) = c :: decode nd t.
Proof. intros. apply replace_all_skip; [done|done|by apply match_not_amp]. Qed.

Lemma decode_named w t : w ≠ [] → forallb is_word w = true →
  decode nd (38 :: w ++ 59 :: t) =
    decode_entity nd (MR 0 (38 :: w ++ [59]) t [(2%nat, w)]) ++ decode nd t.
Proof. intros Hne Hw. by apply replace_all_step; [| |apply match_named|]. Qed.

Lemma decode_decimal c w t : is_digit c = true → forallb is_word w = true →
  decode nd (38 :: 35 :: c :: w ++ 59 :: t) = decode_code (parse_int 10 (c :: w)) ++ decode nd t.
Proof.
  intros Hc Hw. unfold decode.
  erewrite replace_all_step; [|done|done|by apply match_decimal|done]. done.
Qed.

Lemma decode_numeric n t : 0 <= n →
  decode nd (numeric_entity n ++ t) = decode_code (Some n) ++ decode nd t.
Proof.
  intros Hn. unfold numeric_entity.
  pose proof (parse_num_to_string 10 ltac:(lia) n Hn) as Hp.
  pose proof (num_to_string_units 10 ltac:(lia) n Hn) as HF.
  destruct (num_to_string_cons 10 ltac:(lia) n Hn) as (d & s & E & Hd). rewrite E in *.
  change (js "&#") with [38; 35]. change (js ";") with [59].
  rewrite <- !app_assoc. cbn [app].
  rewrite decode_decimal, Hp; [done| |].
  - unfold digit_unit, is_digit, between. destruct (Z.ltb_spec d 10); lia.
  - inv HF. apply forallb_forall. intros x Hx%list_elem_of_In.
    rewrite Forall_forall in *. destruct (H2 x Hx) as (d' & -> & ?).
    unfold digit_unit, is_word, between. destruct (Z.ltb_spec d' 10); lia.
Qed.

(** Every base entity decodes to its character. *)
Lemma decode_base chr e t : Obj.get chr baseEntities = Some e →
  decode nd (e ++ t) = chr ++ decode nd t.
Proof.
  intros H%Obj.get_Some_elem. unfold baseEntities in H.
  repeat (apply elem_of_cons in H as [[= -> ->]|H]); [..|set_solver].
  - apply (decode_named (js "quot") t); done.
  - apply (decode_decimal 51 [57] t); done.
  - apply (decode_named (js "lt") t); done.
  - apply (decode_named (js "gt") t); done.
  - apply (decode_named (js "amp") t); done.
Qed.

Lemma decode_code_unit c : is_unit c → asciiMap_get c = None → decode_code (Some c) = [c].
Proof.
  unfold is_unit. intros Hc Ha. unfold decode_code, from_char_code.
  destruct (Z.ltb_spec 65535 c); [lia|]. by rewrite Ha, Z.mod_small.
Qed.

(** The code an encoder computes for a surrogate pair. *)
Lemma decode_code_pair hi lo : high_surrogate hi = true → low_surrogate lo = true →
  decode_code (Some ((hi - 0xD800) * 0x400 + (lo - 0xDC00) + 0x10000)) = [hi; lo].
Proof.
  unfold high_surrogate, low_surrogate, between. intros Hh Hl.
  assert (55296 <= hi <= 56319) by lia. assert (56320 <= lo <= 57343) by lia.
  unfold decode_code. destruct (Z.ltb_spec 65535 ((hi - 55296) * 1024 + (lo - 56320) + 65536)); [|lia].
  replace ((hi - 55296) * 1024 + (lo - 56320) + 65536 - 65536)
    with ((hi - 55296) * 2 ^ 10 + (lo - 56320)) by lia.
  set (v := (hi - 55296) * 2 ^ 10 + (lo - 56320)).
  assert (to_int32 v = v) as ->.
  { unfold to_int32. rewrite Z.mod_small; lia. }
  assert (Z.shiftr v 10 = hi - 55296) as ->.
  { rewrite Z.shiftr_div_pow2 by lia. unfold v. rewrite Z.div_add_l, Z.div_small; lia. }
  assert (Z.land v 1023 = lo - 56320) as ->.
  { change 1023 with (Z.ones 10). rewrite Z.land_ones by lia. unfold v.
    rewrite Z.add_comm, Z_mod_plus_full, Z.mod_small; lia. }
  unfold from_char_code. rewrite !Z.mod_small by lia. simpl. f_equal; [lia|f_equal; lia].
Qed.
End DecodeFacts.

(** ** Lemmas: encoding left to right *)
Definition is_pair (c : Z) (s : jstr) : bool :=
  high_surrogate c && match s with lo :: _ => low_surrogate lo | [] => false end.

Definition chars (attr : bool) : cset := if attr then attrsChars else textChars.

Lemma chars_not_high attr c : high_surrogate c = true → chars attr c = false.
Proof. destruct attr; unfold chars, attrsChars, textChars, high_surrogate, between; lia. Qed.

Lemma chars_amp attr : chars attr 38 = true.
Proof. by destruct attr. Qed.

Section Scan.
Context (attr : bool) (f : mres -> jstr) (g : jstr -> jstr).
Context (Hf : ∀ m, f m = g (m_text m)).

Lemma scan_pair hi lo s : high_surrogate hi = true → low_surrogate lo = true →
  replace_all (charsRegExp attr) f (hi :: lo :: s) = g [hi; lo] ++ replace_all (charsRegExp attr) f s.
Proof using Hf.
  intros Hh Hl.
  rewrite (replace_all_step _ _ (charsRegExp_no_bol attr) ltac:(intros; by rewrite !Hf)
             _ (MR 0 [hi; lo] s [])); [by rewrite Hf| |done].
  pose proof (chars_not_high attr hi Hh) as Hc. unfold chars in Hc. unfold match_here, charsRegExp.
  destruct attr; unfold attrsCharsRegExp, textCharsRegExp, surrogatePair;
    rewrite mtch_alt, mtch_set_cons, Hc, mtch_seq, mtch_set_cons, Hh, mtch_set_cons, Hl; done.
Qed.

Lemma scan_char c s : is_pair c s = false →
  replace_all (charsRegExp attr) f (c :: s) =
    (if chars attr c then g [c] else [c]) ++ replace_all (charsRegExp attr) f s.
Proof using Hf.
  intros Hp. destruct (chars attr c) eqn:Hc.
  - rewrite (replace_all_step _ _ (charsRegExp_no_bol attr) ltac:(intros; by rewrite !Hf)
               _ (MR 0 [c] s [])); [by rewrite Hf| |done].
    unfold match_here, charsRegExp, chars in *.
    destruct attr; unfold attrsCharsRegExp, textCharsRegExp;
      rewrite mtch_alt, mtch_set_cons, Hc; done.
  - rewrite replace_all_skip; [done|apply charsRegExp_no_bol|intros; by rewrite !Hf|].
    unfold match_here, charsRegExp, chars, is_pair in *.
    destruct attr; unfold attrsCharsRegExp, textCharsRegExp, surrogatePair;
      rewrite mtch_alt, mtch_set_cons, Hc, mtch_seq, mtch_set_cons;
      (destruct (high_surrogate c); [|done]); (destruct s as [|lo s]; [done|]);
      rewrite mtch_set_cons; by destruct (low_surrogate lo).
Qed.

Lemma scan_nil : replace_all (charsRegExp attr) f [] = [].
Proof. by destruct attr. Qed.
End Scan.

(** Induction over a text as the encoders read it. *)
Lemma scan_ind (P : jstr -> Prop) :
  P [] →
  (∀ hi lo s, high_surrogate hi = true → low_surrogate lo = true → P s → P (hi :: lo :: s)) →
  (∀ c s, is_pair c s = false → P s → P (c :: s)) →
  ∀ s, P s.
Proof.
  intros Hn Hp Hc s. remember (length s) as n eqn:En. revert s En.
  induction (lt_wf n) as [n _ IH]. intros s ->. destruct s as [|c s]; [done|].
  destruct (is_pair c s) eqn:E.
  - unfold is_pair in E. apply andb_true_iff in E as [Hh Hl]. destruct s as [|lo s]; [done|].
    apply Hp; [done|done|]. eapply IH; [|done]. simpl. lia.
  - apply Hc; [done|]. eapply IH; [|done]. simpl. lia.
Qed.

(** An encoder whose replacements decode is inverted by [decode]. *)
Lemma decode_scan nd attr f g s :
  (∀ m, f m = g (m_text m)) →
  (∀ hi lo t, high_surrogate hi = true → low_surrogate lo = true →
     decode nd (g [hi; lo] ++ t) = hi :: lo :: decode nd t) →
  (∀ c t, c ∈ s → chars attr c = true → decode nd (g [c] ++ t) = c :: decode nd t) →
  decode nd (replace_all (charsRegExp attr) f s) = s.
Proof.
  intros Hf Hpair Hchar. induction s as [|hi lo s Hh Hl IH|c s Hp IH] using scan_ind.
  - rewrite scan_nil. apply decode_nil.
  - rewrite (scan_pair attr f g Hf) by done. rewrite Hpair by done.
    rewrite IH; [done|]. intros. apply Hchar; [set_solver|done].
  - rewrite (scan_char attr f g Hf) by done. destruct (chars attr c) eqn:Hc.
    + rewrite Hchar by (done || set_solver). rewrite IH; [done|].
      intros. apply Hchar; [set_solver|done].
    + cbn [app]. rewrite decode_char.
      * rewrite IH; [done|]. intros. apply Hchar; [set_solver|done].
      * intros ->. by rewrite chars_amp in Hc.
Qed.

Lemma decode_pair nd hi lo t : high_surrogate hi = true → low_surrogate lo = true →
  decode nd ([hi; lo] ++ t) = hi :: lo :: decode nd t.
Proof.
  unfold high_surrogate, low_surrogate, between. intros.
  cbn [app]. by rewrite !decode_char by lia.
Qed.

Lemma base_get_pair (hi lo : Z) : Obj.get [hi; lo] baseEntities = None.
Proof. simpl. unfold str_eqb. by rewrite !bool_decide_false by done. Qed.

Lemma base_amp c : Obj.get [c] baseEntities = None → c ≠ 38.
Proof. by intros H ->. Qed.

Lemma decode_base_or nd c e t :
  (Obj.get [c] baseEntities = None → decode nd (e ++ t) = c :: decode nd t) →
  decode nd (base_or [c] e ++ t) = c :: decode nd t.
Proof.
  intros He. unfold base_or. destruct (Obj.get [c] baseEntities) eqn:E; [|by apply He].
  simpl. by apply (decode_base nd [c]).
Qed.

Lemma raw_decoded nd s attr : decode nd (encodeRaw s attr) = s.
Proof.
  apply decode_scan with (g := λ c, base_or c c); [done| |].
  - intros hi lo t Hh Hl. unfold base_or. rewrite base_get_pair. by apply decode_pair.
  - intros c t _ _. apply decode_base_or. intros E. by apply decode_char, base_amp.
Qed.

(** Decoding undoes the raw encoder, whatever the browser does with
    the entities it is asked about. *)
Theorem decode_encodeRaw nd s attr : decode nd (encodeRaw s attr) = s.
Proof. apply raw_decoded. Qed.

(** Decoding undoes the numeric encoder on every text of code units
    that holds no C1 control the decoder reads as Windows-1252. *)
Theorem decode_encodeNumeric nd s attr :
  Forall (λ c, is_unit c ∧ asciiMap_get c = None) s →
  decode nd (encodeNumeric s attr) = s.
Proof.
  intros HF. rewrite Forall_forall in HF.
  apply decode_scan with (g := λ chr, match chr with
    | [hi; lo] => numeric_entity ((hi - 0xD800) * 0x400 + (lo - 0xDC00) + 0x10000)
    | chr => base_or chr (numeric_entity (default 0 (head chr))) end).
  - intros m. by destruct (m_text m) as [|? [|? []]].
  - intros hi lo t Hh Hl. rewrite decode_numeric.
    + by rewrite decode_code_pair.
    + unfold high_surrogate, low_surrogate, between in *. lia.
  - intros c t Hin _. destruct (HF c Hin) as [Hu Ha]. apply decode_base_or. intros _.
    change (default 0 (head [c])) with c. rewrite decode_numeric by apply Hu. by rewrite decode_code_unit.
Qed.

(** The name between the ampersand and the semicolon. *)
Definition entity_name (e : jstr) : option jstr :=
  match e with
  | a :: w => match reverse w with
              | z :: r => if (a =? 38) && (z =? 59) then Some (reverse r) else None
              | [] => None
              end
  | [] => None
  end.

Lemma entity_name_Some e w : entity_name e = Some w → e = 38 :: w ++ [59].
Proof.
  destruct e as [|a v]; simpl; [done|]. destruct (reverse v) as [|z r] eqn:E; [done|].
  destruct (Z.eqb_spec a 38), (Z.eqb_spec z 59); simpl; intros; simplify_eq.
  by rewrite <- reverse_cons, <- E, reverse_involutive.
Qed.

(** The table is two-way: the entity it gives for a character has a name
    of word characters, is not a base entity, and leads back. *)
Definition entity_ok (chr e : jstr) : bool :=
  match entity_name e with
  | Some w => truthy w && forallb is_word w
              && str_eqb (default [] (Obj.get e namedEntities)) chr && truthy chr
              && negb (if Obj.get e reverseEntities is Some _ then true else false)
  | None => false
  end.

Lemma namedEntities_two_way :
  forallb (λ p, (Nat.eqb (length p.1) 1 && entity_ok p.1 p.2) || Nat.ltb 1 (length p.1)) namedEntities = true.
Proof. vm_compute. reflexivity. Qed.

Lemma decode_entity_ok nd chr e t : entity_ok chr e = true →
  decode nd (e ++ t) = chr ++ decode nd t.
Proof.
  unfold entity_ok. destruct (entity_name e) as [w|] eqn:E; [|done].
  apply entity_name_Some in E as ->. intros [[[[Hne Hw]%andb_true_iff Hg]%andb_true_iff
    Hc]%andb_true_iff Hr]%andb_true_iff.
  cbn [app]. rewrite <- app_assoc. cbn [app]. rewrite decode_named by (done || by destruct w).
  f_equal. unfold decode_entity, group. cbn [m_caps m_text cap_get List.find fst Nat.eqb option_map fmap].
  destruct (Obj.get _ reverseEntities); [done|].
  unfold str_eqb in Hg. apply bool_decide_eq_true in Hg.
  destruct (Obj.get _ namedEntities); simpl in Hg; [done|]. by subst chr.
Qed.

Lemma decode_two_way nd c e t : Obj.get [c] namedEntities = Some e →
  decode nd (e ++ t) = c :: decode nd t.
Proof.
  intros Hg%Obj.get_Some_elem. pose proof namedEntities_two_way as H.
  rewrite forallb_forall in H. apply list_elem_of_In, H in Hg. clear H.
  cbn [fst snd length Nat.eqb Nat.ltb Nat.leb] in Hg. rewrite orb_false_r in Hg.
  by apply (decode_entity_ok nd [c]).
Qed.

Lemma named_get_pair hi lo : high_surrogate hi = true → Obj.get [hi; lo] namedEntities = None.
Proof.
  intros Hh. destruct (Obj.get _ _) eqn:E; [|done]. apply Obj.get_Some_elem, list_elem_of_In in E.
  assert (forallb (λ p, negb (high_surrogate (default 0 (head p.1)))) namedEntities = true) as H
    by (vm_compute; reflexivity).
  rewrite forallb_forall in H. apply H in E. simpl in E. by rewrite Hh in E.
Qed.

Lemma named_decoded nd s attr : decode nd (encodeNamed s attr namedEntities) = s.
Proof.
  apply decode_scan with (g := λ c, base_or c (default c (Obj.get c namedEntities))); [done| |].
  - intros hi lo t Hh Hl. unfold base_or. rewrite base_get_pair, named_get_pair by done.
    by apply decode_pair.
  - intros c t _ _. apply decode_base_or. intros E.
    destruct (Obj.get [c] namedEntities) eqn:En; simpl; [by apply decode_two_way|].
    by apply decode_char, base_amp.
Qed.

(** C32: Decoding undoes the named encoder on every text. *)
Theorem decode_encodeNamed nd s attr : decode nd (encodeNamed s attr namedEntities) = s.
Proof. apply named_decoded. Qed.

(** The combined encoder writes a surrogate pair as the code of its first
    unit, so the second unit is lost. *)
Lemma encodeNamedAndNumeric_pair entities hi lo s attr :
  high_surrogate hi = true → low_surrogate lo = true → Obj.get [hi; lo] entities = None →
  encodeNamedAndNumeric entities (hi :: lo :: s) attr =
    numeric_entity hi ++ encodeNamedAndNumeric entities s attr.
Proof.
  intros Hh Hl Hg. unfold encodeNamedAndNumeric.
  rewrite (scan_pair attr _ (λ chr, base_or chr (default (numeric_entity (default 0 (head chr)))
    (Obj.get chr entities)))) by done.
  unfold base_or. by rewrite base_get_pair, Hg.
Qed.

(** ** No markup in what the encoders write *)
Definition safe_unit (attr : bool) (c : Z) : Prop := c ≠ 60 ∧ c ≠ 62 ∧ (attr = true → c ≠ 34).

Lemma safe_word attr c : is_word c = true → safe_unit attr c.
Proof. unfold is_word, between, safe_unit. lia. Qed.

Lemma safe_numeric attr n : 0 <= n → Forall (safe_unit attr) (numeric_entity n).
Proof.
  intros Hn. unfold numeric_entity. rewrite !Forall_app. split_and!.
  - repeat constructor; simpl; lia.
  - eapply Forall_impl; [by apply num_to_string_units|]. intros c (d & -> & ?).
    pose proof (digit_unit_cases d). unfold safe_unit. lia.
  - repeat constructor; simpl; lia.
Qed.

Lemma safe_base attr c e : Obj.get c baseEntities = Some e → Forall (safe_unit attr) e.
Proof.
  intros H%Obj.get_Some_elem. unfold baseEntities in H.
  repeat (apply elem_of_cons in H as [[= -> ->]|H]); [..|set_solver];
    repeat constructor; simpl; lia.
Qed.

Lemma safe_named attr c e : Obj.get [c] namedEntities = Some e → Forall (safe_unit attr) e.
Proof.
  intros Hg%Obj.get_Some_elem. pose proof namedEntities_two_way as H.
  rewrite forallb_forall in H. apply list_elem_of_In, H in Hg. clear H.
  cbn [fst snd length Nat.eqb Nat.ltb Nat.leb] in Hg. rewrite orb_false_r in Hg.
  unfold entity_ok in Hg. destruct (entity_name e) as [w|] eqn:E; [|done].
  apply entity_name_Some in E as ->.
  assert (forallb is_word w = true) as Hw by (destruct (forallb is_word w); [done|]; by rewrite andb_false_r in Hg).
  constructor; [unfold safe_unit; lia|]. rewrite Forall_app. split.
  - apply Forall_forall. intros x Hx. rewrite forallb_forall in Hw.
    by apply safe_word, Hw, list_elem_of_In.
  - repeat constructor; lia.
Qed.

Lemma safe_plain attr c : chars attr c = false → safe_unit attr c.
Proof.
  destruct attr; unfold chars, attrsChars, textChars, safe_unit, between; lia.
Qed.

Lemma safe_base_or attr (c : Z) e : chars attr c = true →
  (Obj.get [c] baseEntities = None → Forall (safe_unit attr) e) →
  Forall (safe_unit attr) (base_or [c] e).
Proof.
  intros _ He. unfold base_or. destruct (Obj.get [c] baseEntities) eqn:E; simpl; [|auto].
  by eapply safe_base.
Qed.

(** A unit that is not a base character is safe to copy. *)
Lemma safe_not_base attr (c : Z) : Obj.get [c] baseEntities = None → Forall (safe_unit attr) [c].
Proof.
  intros H. constructor; [|done]. unfold safe_unit.
  split_and!; intros; intros ->; vm_compute in H; discriminate.
Qed.

Lemma safe_scan attr f g s :
  (∀ m, f m = g (m_text m)) →
  (∀ hi lo, high_surrogate hi = true → low_surrogate lo = true → Forall (safe_unit attr) (g [hi; lo])) →
  (∀ c, chars attr c = true → Forall (safe_unit attr) (g [c])) →
  Forall (safe_unit attr) (replace_all (charsRegExp attr) f s).
Proof.
  intros Hf Hpair Hchar. induction s as [|hi lo s Hh Hl IH|c s Hp IH] using scan_ind.
  - by rewrite scan_nil.
  - rewrite (scan_pair attr f g Hf) by done. rewrite Forall_app. auto.
  - rewrite (scan_char attr f g Hf) by done. rewrite Forall_app. split; [|done].
    destruct (chars attr c) eqn:Hc; [auto|]. constructor; [by apply safe_plain|done].
Qed.

Lemma safe_pair attr hi lo : high_surrogate hi = true → low_surrogate lo = true →
  Forall (safe_unit attr) [hi; lo].
Proof.
  unfold high_surrogate, low_surrogate, between. intros.
  repeat constructor; unfold safe_unit; lia.
Qed.

Lemma chars_nonneg attr c : chars attr c = true → 0 <= c.
Proof. destruct attr; unfold chars, attrsChars, textChars, between; lia. Qed.

Lemma raw_safe s attr : Forall (safe_unit attr) (encodeRaw s attr).
Proof.
  apply safe_scan with (g := λ c, base_or c c); [done| |].
  - intros hi lo Hh Hl. unfold base_or. rewrite base_get_pair. by apply safe_pair.
  - intros c Hc. apply safe_base_or; [done|]. apply safe_not_base.
Qed.

Lemma numeric_safe s attr : Forall (safe_unit attr) (encodeNumeric s attr).
Proof.
  apply safe_scan with (g := λ chr, match chr with
    | [hi; lo] => numeric_entity ((hi - 0xD800) * 0x400 + (lo - 0xDC00) + 0x10000)
    | chr => base_or chr (numeric_entity (default 0 (head chr))) end).
  - intros m. by destruct (m_text m) as [|? [|? []]].
  - intros hi lo. unfold high_surrogate, low_surrogate, between. intros.
    apply safe_numeric. lia.
  - intros c Hc. apply safe_base_or; [done|]. intros _.
    apply safe_numeric. by apply chars_nonneg in Hc.
Qed.

Lemma named_safe s attr : Forall (safe_unit attr) (encodeNamed s attr namedEntities).
Proof.
  apply safe_scan with (g := λ c, base_or c (default c (Obj.get c namedEntities))); [done| |].
  - intros hi lo Hh Hl. unfold base_or. rewrite base_get_pair, named_get_pair by done.
    by apply safe_pair.
  - intros c Hc. apply safe_base_or; [done|]. intros Hb.
    destruct (Obj.get [c] namedEntities) eqn:E; simpl; [by eapply safe_named|].
    by apply safe_not_base.
Qed.

Lemma named_numeric_safe s attr : Forall (safe_unit attr) (encodeNamedAndNumeric namedEntities s attr).
Proof.
  apply safe_scan with (g := λ chr, base_or chr (default (numeric_entity (default 0 (head chr)))
    (Obj.get chr namedEntities))); [done| |].
  - intros hi lo Hh Hl. unfold base_or. rewrite base_get_pair, named_get_pair by done.
    apply safe_numeric. unfold high_surrogate, between in Hh. simpl. lia.
  - intros c Hc. apply safe_base_or; [done|]. intros Hb.
    destruct (Obj.get [c] namedEntities) eqn:E; simpl; [by eapply safe_named|].
    apply safe_numeric. by apply chars_nonneg in Hc.
Qed.

(** C33: Whatever encoder is chosen by name (without custom entities),
    its output holds no angle bracket, and no double quote in an attribute: encoded text cannot open
    a tag nor close its attribute. *)
Theorem getEncodeFunc_safe name s attr :
  Forall (safe_unit attr) (getEncodeFunc name [] s attr).
Proof.
  unfold getEncodeFunc. cbn [buildEntitiesLookup truthy default].
  set (nm := makeMap _ _ _). clearbody nm. cbv zeta.
  pose proof (raw_safe s attr). pose proof (numeric_safe s attr). pose proof (named_safe s attr).
  pose proof (named_numeric_safe s attr). repeat case_match; done.
Qed.

(** The combined encoder loses the second half of a character outside
    the basic plane: what it writes for the two texts is the same. *)
Theorem encodeNamedAndNumeric_not_injective attr :
  encodeNamedAndNumeric namedEntities [0xD83D; 0xDE00] attr =
  encodeNamedAndNumeric namedEntities [0xD83D; 0xDE01] attr.
Proof.
  by rewrite !encodeNamedAndNumeric_pair by (done || by apply named_get_pair).
Qed.

Lemma decode_encodeNumeric_witness :
  decode (λ s, s) (encodeNumeric [97; 38; 233; 0xD83D; 0xDE00; 34] true) = [97; 38; 233; 0xD83D; 0xDE00; 34].
Proof.
  apply decode_encodeNumeric. repeat constructor; try done.
Defined.
