(* ===== verification/Node.v ===== *)
(** * classes/html/Node.js

    The DOM-like node the HTML parser builds: a tree of mutable objects with
    parent, first/last child and sibling pointers.  The store of nodes is a
    finite map from references to records; [null] and [undefined] pointers are [None], and
    reading a property of them is an exception. *)

From S2P Require Import Prelude.

(** ** Data *)
Abbreviation ref := nat.

(** The value of [node.type]: a number, a string (one caller passes '3'), or
    the function a lookup of an inherited name returns. *)
Inductive ntype := TNum (n : Z) | TStr (s : jstr) | TFun.

#[export] Instance ntype_eq_dec : EqDecision ntype.
Proof. solve_decision. Defined.

(** The attribute list and its [map] property. *)
Record attrs := Attrs { alist : list (jstr * jstr); amap : Obj.t jstr }.

Record node := MkNode {
  name : jstr;
  type : ntype;
  attributes : option attrs;
  value : option jstr;
  shortEnded : bool;
  raw : bool;
  fixed : bool;
  parent : option ref;
  firstChild : option ref;
  lastChild : option ref;
  next : option ref;
  prev : option ref
}.

Abbreviation heap := (gmap ref node).
Abbreviation HM := (SE heap).

(** [new Node(name, type)] *)
Definition new_node (nm : jstr) (ty : ntype) : node :=
  MkNode nm ty (if decide (ty = TNum 1) then Some (Attrs [] []) else None)
    None false false false None None None None None.

Definition set_attributes a n := MkNode (name n) (type n) a (value n) (shortEnded n) (raw n) (fixed n)
  (parent n) (firstChild n) (lastChild n) (next n) (prev n).
Definition set_value v n := MkNode (name n) (type n) (attributes n) v (shortEnded n) (raw n) (fixed n)
  (parent n) (firstChild n) (lastChild n) (next n) (prev n).
Definition set_shortEnded b n := MkNode (name n) (type n) (attributes n) (value n) b (raw n) (fixed n)
  (parent n) (firstChild n) (lastChild n) (next n) (prev n).
Definition set_parent p n := MkNode (name n) (type n) (attributes n) (value n) (shortEnded n) (raw n) (fixed n)
  p (firstChild n) (lastChild n) (next n) (prev n).
Definition set_firstChild c n := MkNode (name n) (type n) (attributes n) (value n) (shortEnded n) (raw n) (fixed n)
  (parent n) c (lastChild n) (next n) (prev n).
Definition set_lastChild c n := MkNode (name n) (type n) (attributes n) (value n) (shortEnded n) (raw n) (fixed n)
  (parent n) (firstChild n) c (next n) (prev n).
Definition set_next c n := MkNode (name n) (type n) (attributes n) (value n) (shortEnded n) (raw n) (fixed n)
  (parent n) (firstChild n) (lastChild n) c (prev n).
Definition set_prev c n := MkNode (name n) (type n) (attributes n) (value n) (shortEnded n) (raw n) (fixed n)
  (parent n) (firstChild n) (lastChild n) (next n) c.

(** ** The store *)
Definition deref (r : ref) : HM node := λ h, (λ n, (n, h)) <$> h !! r.
Definition upd (r : ref) (f : node -> node) : HM unit :=
  λ h, (λ n, (tt, <[r := f n]> h)) <$> h !! r.
Definition alloc (n : node) : HM ref :=
  λ h, let r := fresh (dom h) in Some (r, <[r := n]> h).

(** A statement on the object a pointer leads to: null is an exception. *)
Definition nonnull {A} (o : option ref) (k : ref -> HM A) : HM A :=
  match o with Some r => k r | None => throw end.
Definition when_some {A} (o : option A) (k : A -> HM unit) : HM unit :=
  match o with Some x => k x | None => mret tt end.

(** ** Operations (Node.prototype) *)
Definition remove (self : ref) : HM ref :=
  n ← deref self;
  match parent n with
  | None => mret self
  | Some p =>
      pn ← deref p;
      (if decide (firstChild pn = Some self) then
         upd p (set_firstChild (next n));;
         when_some (next n) (λ nx, upd nx (set_prev None))
       else nonnull (prev n) (λ pv, upd pv (set_next (next n))));;
      pn ← deref p;
      (if decide (lastChild pn = Some self) then
         upd p (set_lastChild (prev n));;
         when_some (prev n) (λ pv, upd pv (set_next None))
       else nonnull (next n) (λ nx, upd nx (set_prev (prev n))));;
      upd self (λ n, set_parent None (set_next None (set_prev None n)));;
      mret self
  end.

(** [if (node.parent) node.remove()] *)
Definition detach_node (node : ref) : HM unit :=
  n ← deref node;
  match parent n with Some _ => remove node;; mret tt | None => mret tt end.

(** The statements of [append] and [insert] after the node has left its old
    parent. *)
Definition append_link (self node : ref) : HM ref :=
  sn ← deref self;
  match lastChild sn with
  | Some last =>
      upd last (set_next (Some node));;
      upd node (set_prev (Some last));;
      upd self (set_lastChild (Some node))
  | None => upd self (λ n, set_firstChild (Some node) (set_lastChild (Some node) n))
  end;;
  upd node (set_parent (Some self));;
  mret node.

Definition append (self node : ref) : HM ref :=
  detach_node node;;
  append_link self node.

Definition insert_link (self node ref_node : ref) (before : bool) : HM ref :=
  rn ← deref ref_node;
  let p := default self (parent rn) in
  pn ← deref p;
  (if before then
     (if decide (Some ref_node = firstChild pn) then upd p (set_firstChild (Some node))
      else nonnull (prev rn) (λ pv, upd pv (set_next (Some node))));;
     rn ← deref ref_node;
     upd node (set_prev (prev rn));;
     upd node (set_next (Some ref_node));;
     upd ref_node (set_prev (Some node))
   else
     (if decide (Some ref_node = lastChild pn) then upd p (set_lastChild (Some node))
      else nonnull (next rn) (λ nx, upd nx (set_prev (Some node))));;
     rn ← deref ref_node;
     upd node (set_next (next rn));;
     upd node (set_prev (Some ref_node));;
     upd ref_node (set_next (Some node)));;
  upd node (set_parent (Some p));;
  mret node.

Definition insert (self node ref_node : ref) (before : bool) : HM ref :=
  detach_node node;;
  insert_link self node ref_node before.

Definition replace (self node : ref) : HM ref :=
  detach_node node;;
  insert self node self false;;
  remove self;;
  mret self.

Definition wrap (self wrapper : ref) : HM ref :=
  n ← deref self;
  nonnull (parent n) (λ p, insert p wrapper self false;; append wrapper self);;
  mret self.

(** [for (node = self.firstChild; node; ) ...]: [next] is read before the
    child moves. *)
Fixpoint unwrap_loop (fuel : nat) (self : ref) (node : option ref) : HM unit :=
  match fuel, node with
  | _, None => mret tt
  | O, Some _ => throw
  | S f, Some c =>
      cn ← deref c;
      insert self c self true;;
      unwrap_loop f self (next cn)
  end.

Definition unwrap (self : ref) : HM unit :=
  n ← deref self;
  sz ← gets size;
  unwrap_loop sz self (firstChild n);;
  remove self;;
  mret tt.

(** [walk(node, root_node, prev)]: the next node of the subtree in document
    order (the previous one when [back]). *)
Fixpoint walk_up (fuel : nat) (back : bool) (p root : option ref) : HM (option ref) :=
  match fuel, p with
  | _, None => mret None
  | O, Some _ => throw
  | S f, Some p =>
      if decide (Some p = root) then mret None
      else
        pn ← deref p;
        match (if back then prev pn else next pn) with
        | Some sibling => mret (Some sibling)
        | None => walk_up f back (parent pn) root
        end
  end.

Definition walk (node : ref) (root_node : option ref) (back : bool) : HM (option ref) :=
  n ← deref node;
  match (if back then lastChild n else firstChild n) with
  | Some c => mret (Some c)
  | None =>
      if decide (Some node = root_node) then mret None
      else
        match (if back then prev n else next n) with
        | Some sibling => mret (Some sibling)
        | None => sz ← gets size; walk_up (S sz) back (parent n) root_node
        end
  end.

(** [for (node = self.firstChild; node; node = walk(node, self)) ...] *)
Fixpoint walk_all {A} (fuel : nat) (self : ref) (cur : option ref)
    (f : A -> ref -> node -> A) (acc : A) : HM A :=
  match fuel, cur with
  | _, None => mret acc
  | O, Some _ => throw
  | S k, Some x =>
      n ← deref x;
      nx ← walk x (Some self) false;
      walk_all k self nx f (f acc x n)
  end.

Definition walk_children {A} (self : ref) (f : A -> ref -> node -> A) (acc : A) : HM A :=
  n ← deref self;
  sz ← gets size;
  walk_all sz self (firstChild n) f acc.

Definition getAll (self : ref) (nm : jstr) : HM (list ref) :=
  walk_children self (λ acc x n, if str_eqb (name n) nm then acc ++ [x] else acc) [].

Definition clear_links (n : node) : node :=
  set_parent None (set_firstChild None (set_lastChild None (set_next None (set_prev None n)))).

(** [while (i--)]: from the last collected node to the first. *)
Fixpoint clear_all (nodes : list ref) : HM unit :=
  match nodes with
  | [] => mret tt
  | x :: nodes' => clear_all nodes';; upd x clear_links
  end.

Definition empty (self : ref) : HM ref :=
  n ← deref self;
  match firstChild n with
  | Some _ =>
      nodes ← walk_children self (λ acc x _, acc ++ [x]) [];
      clear_all nodes
  | None => mret tt
  end;;
  upd self (λ n, set_firstChild None (set_lastChild None n));;
  mret self.

(** [elements[node.name]], [attributes.map[...]]: truthiness of a lookup. *)
Definition map_truthy (k : jstr) (m : Obj.t jstr) : bool :=
  match Obj.get k m with Some v => truthy v | None => Obj.is_proto k end.

Definition is_wsp (c : Z) : bool := (c =? 32) || (c =? 9) || (c =? 13) || (c =? 10).

(** [whiteSpaceRegExp.test(value)]; a value that is undefined reads as its name. *)
Definition all_white (v : option jstr) : bool :=
  match v with Some v => forallb is_wsp v | None => false end.

(** An attribute that keeps its element: name or data-mce-*. *)
Definition keeps (a : jstr * jstr) : bool :=
  str_eqb a.1 (js "name") || starts_with (js "data-mce-") a.1.

(** What [isEmpty] decides on one node: [true] keeps looking, [false]
    returns false; an element without attributes throws. *)
Definition ignorable (elements : Obj.t unit) (n : node) : option bool :=
  if decide (type n = TNum 1) then
    match attributes n with
    | None => None
    | Some a =>
        if map_truthy (js "data-mce-bogus") (amap a) then Some true
        else if Obj.has (name n) elements then Some false
        else Some (negb (existsb keeps (alist a)))
    end
  else if decide (type n = TNum 8) then Some false
  else if decide (type n = TNum 3) then Some (all_white (value n))
  else Some true.

Fixpoint isEmpty_loop (fuel : nat) (self : ref) (cur : option ref) (elements : Obj.t unit) : HM bool :=
  match fuel, cur with
  | _, None => mret true
  | O, Some _ => throw
  | S k, Some x =>
      n ← deref x;
      ok ← oget (ignorable elements n);
      if (ok : bool) then
        nx ← walk x (Some self) false;
        isEmpty_loop k self nx elements
      else mret false
  end.

Definition isEmpty (self : ref) (elements : Obj.t unit) : HM bool :=
  n ← deref self;
  sz ← gets size;
  isEmpty_loop sz self (firstChild n) elements.

(** ** Attributes *)
Inductive attr_arg := ArgUndefined | ArgNull | ArgVal (v : jstr).

(** What [attr] returns: the node, undefined, a value, or the function a
    lookup of an inherited name finds. *)
Inductive attr_res := ResSelf | ResUndefined | ResVal (v : jstr) | ResInherited.

(** The last entry of that name, counting down. *)
Fixpoint remove_last (nm : jstr) (l : list (jstr * jstr)) : list (jstr * jstr) * bool :=
  match l with
  | [] => ([], false)
  | a :: l' =>
      let '(r, done) := remove_last nm l' in
      if done then (a :: r, true) else if str_eqb a.1 nm then (r, true) else (a :: r, false)
  end.

Fixpoint update_last (nm v : jstr) (l : list (jstr * jstr)) : list (jstr * jstr) * bool :=
  match l with
  | [] => ([], false)
  | a :: l' =>
      let '(r, done) := update_last nm v l' in
      if done then (a :: r, true) else if str_eqb a.1 nm then ((a.1, v) :: r, true) else (a :: r, false)
  end.

Definition attr_attrs (nm : jstr) (v : attr_arg) (a : attrs) : attrs * attr_res :=
  match v with
  | ArgUndefined =>
      (a, match Obj.get nm (amap a) with
          | Some v => ResVal v
          | None => if Obj.is_proto nm then ResInherited else ResUndefined
          end)
  | ArgNull =>
      if Obj.has nm (amap a) then
        (Attrs (remove_last nm (alist a)).1 (Obj.delete nm (amap a)), ResSelf)
      else (a, ResSelf)
  | ArgVal v =>
      (Attrs (if Obj.has nm (amap a) then (update_last nm v (alist a)).1 else alist a ++ [(nm, v)])
             (Obj.set nm v (amap a)), ResSelf)
  end.

(** [attr(name, value)] with a string name. *)
Definition attr (self : ref) (nm : jstr) (v : attr_arg) : HM attr_res :=
  n ← deref self;
  match attributes n with
  | None => mret ResUndefined
  | Some a =>
      let '(a', r) := attr_attrs nm v a in
      upd self (set_attributes (Some a'));;
      mret r
  end.

(** [attr(items)] with an object. *)
Fixpoint attr_items (self : ref) (items : list (jstr * attr_arg)) : HM unit :=
  match items with
  | [] => mret tt
  | (nm, v) :: items' => attr self nm v;; attr_items self items'
  end.

(** ** Copies *)
Definition clone_attrs (a : attrs) : attrs :=
  let l := List.filter (λ p, negb (str_eqb p.1 (js "id"))) (alist a) in
  Attrs l (fold_left (λ m p, Obj.set p.1 p.2 m) l []).

Definition clone_node (n : node) : node :=
  set_shortEnded (shortEnded n) (set_value (value n)
    (set_attributes
       match attributes n with
       | Some a => Some (clone_attrs a)
       | None => attributes (new_node (name n) (type n))
       end (new_node (name n) (type n)))).

Definition clone (self : ref) : HM ref := n ← deref self; alloc (clone_node n).

Definition typeLookup (nm : jstr) : ntype :=
  match Obj.get nm [(js "#text", 3); (js "#comment", 8); (js "#cdata", 4); (js "#pi", 7);
                    (js "#doctype", 10); (js "#document-fragment", 11)] with
  | Some t => TNum t
  | None => if Obj.is_proto nm then TFun else TNum 1
  end.

(** [Node.create(name, attrs)] *)
Definition create (nm : jstr) (items : list (jstr * attr_arg)) : HM ref :=
  r ← alloc (new_node nm (typeLookup nm));
  attr_items r items;;
  mret r.
