(* ===== verification/NodeFacts.v ===== *)
(** * The node tree: its invariant and what each operation does to it

    A store of nodes represents a [shape]: the list of children of each node
    and its parent.  [wf h s] says that the pointers of the store are exactly
    those the shape dictates, that no node occurs twice among the children
    and that the parent chains are finite.  Each operation of Node.v
    is then the corresponding operation on shapes. *)

From S2P Require Import Prelude Node.

(** ** Neighbours in a list *)
Fixpoint next_in (x : ref) (l : list ref) : option ref :=
  match l with
  | [] => None
  | y :: l' => if decide (x = y) then head l' else next_in x l'
  end.
Definition prev_in (x : ref) (l : list ref) : option ref := next_in x (reverse l).

Lemma next_in_notin x l : x ∉ l → next_in x l = None.
Proof.
  induction l as [|y l IH]; simpl; [done|]. intros [??]%not_elem_of_cons.
  rewrite decide_False by done. auto.
Qed.

Lemma next_in_mid x l1 l2 : x ∉ l1 → next_in x (l1 ++ x :: l2) = head l2.
Proof.
  induction l1 as [|y l1 IH]; simpl; [by rewrite decide_True|].
  intros [??]%not_elem_of_cons. rewrite decide_False by done. auto.
Qed.

Lemma next_in_app_r x l1 l2 : x ∉ l1 → next_in x (l1 ++ l2) = next_in x l2.
Proof.
  induction l1 as [|y l1 IH]; simpl; [done|].
  intros [??]%not_elem_of_cons. rewrite decide_False by done. auto.
Qed.

Lemma next_in_app_l x l1 l2 : x ∈ l1 → last l1 ≠ Some x → next_in x (l1 ++ l2) = next_in x l1.
Proof.
  induction l1 as [|y l1 IH]; [set_solver|]. cbn [next_in app].
  intros Hin Hl. destruct (decide (x = y)) as [->|].
  - destruct l1 as [|z l1]; [done|done].
  - apply elem_of_cons in Hin as [?|Hin]; [done|].
    apply IH; [done|]. destruct l1; [set_solver|done].
Qed.

Lemma next_in_snoc_last x l1 l2 : NoDup l1 → last l1 = Some x → next_in x (l1 ++ l2) = head l2.
Proof.
  intros Hn (l & ->)%last_Some. rewrite <- app_assoc. simpl.
  apply next_in_mid. apply NoDup_app in Hn. set_solver.
Qed.

Lemma head_reverse {A} (l : list A) : head (reverse l) = last l.
Proof. induction l as [|x l IH] using rev_ind; [done|]. by rewrite reverse_app, last_snoc. Qed.
Lemma last_reverse {A} (l : list A) : last (reverse l) = head l.
Proof. by rewrite <- head_reverse, reverse_involutive. Qed.

(** Removing the node [r] from between [l1] and [l2]. *)
Section RemoveMid.
Context (r : ref) (l1 l2 : list ref) (Hn : NoDup (l1 ++ r :: l2)).

Lemma mid_notin : (r ∉ l1) ∧ (r ∉ l2) ∧ NoDup (l1 ++ l2).
Proof using Hn.
  apply NoDup_app in Hn as (H1 & Hd & H2). apply NoDup_cons in H2 as [Hr H2].
  split_and!; [set_solver|done|apply NoDup_app; set_solver].
Qed.

Lemma next_in_remove x : x ≠ r →
  next_in x (l1 ++ l2) =
    if decide (last l1 = Some x) then head l2 else next_in x (l1 ++ r :: l2).
Proof using Hn.
  intros Hx. destruct mid_notin as (Hr1 & Hr2 & Hn').
  apply NoDup_app in Hn' as (Hn1 & _). case_decide as Hl.
  - by apply next_in_snoc_last.
  - destruct (decide (x ∈ l1)).
    + by rewrite !next_in_app_l.
    + rewrite !next_in_app_r by done. simpl. by rewrite decide_False.
Qed.
End RemoveMid.

Lemma NoDup_reverse_mid (r : ref) (l1 l2 : list ref) : NoDup (l1 ++ r :: l2) → NoDup (reverse l2 ++ r :: reverse l1).
Proof.
  rewrite <- (reverse_Permutation (l1 ++ r :: l2)), reverse_app, reverse_cons, <- app_assoc. done.
Qed.

Lemma prev_in_remove r l1 l2 x : NoDup (l1 ++ r :: l2) → x ≠ r →
  prev_in x (l1 ++ l2) =
    if decide (head l2 = Some x) then last l1 else prev_in x (l1 ++ r :: l2).
Proof.
  intros Hn Hx. unfold prev_in.
  rewrite !reverse_app, reverse_cons, <- app_assoc. cbn [app].
  rewrite (next_in_remove r), head_reverse, last_reverse by (try apply NoDup_reverse_mid; done).
  done.
Qed.

Lemma prev_in_mid x l1 l2 : x ∉ l2 → prev_in x (l1 ++ x :: l2) = last l1.
Proof.
  intros. unfold prev_in. rewrite reverse_app, reverse_cons, <- app_assoc. cbn [app].
  rewrite next_in_mid, head_reverse; [done|]. by rewrite elem_of_reverse.
Qed.

Lemma prev_in_notin x l : x ∉ l → prev_in x l = None.
Proof. intros. apply next_in_notin. by rewrite elem_of_reverse. Qed.

(** ** Shapes *)
Record shape := Shape { ch : ref -> list ref; par : ref -> option ref }.

Definition fset {A} (k : ref) (v : A) (f : ref -> A) : ref -> A :=
  λ x, if decide (x = k) then v else f x.

Lemma fset_eq {A} k (v : A) f : fset k v f k = v.
Proof. unfold fset. by rewrite decide_True. Qed.
Lemma fset_ne {A} k (v : A) f x : x ≠ k → fset k v f x = f x.
Proof. intros. unfold fset. by rewrite decide_False. Qed.

Definition sib_next (s : shape) (r : ref) : option ref := par s r ≫= λ p, next_in r (ch s p).
Definition sib_prev (s : shape) (r : ref) : option ref := par s r ≫= λ p, prev_in r (ch s p).

Definition links_ok (s : shape) (r : ref) (n : node) : Prop :=
  parent n = par s r ∧ firstChild n = head (ch s r) ∧ lastChild n = last (ch s r)
  ∧ next n = sib_next s r ∧ prev n = sib_prev s r.

(** [p] is the parent of [c]. *)
Definition parent_of (s : shape) (p c : ref) : Prop := par s c = Some p.

Record wf (h : heap) (s : shape) : Prop := Wf {
  wf_ch : ∀ p c, c ∈ ch s p ↔ par s c = Some p;
  wf_nodup : ∀ p, NoDup (ch s p);
  wf_acyclic : ∀ c, Acc (parent_of s) c;
  wf_dom : ∀ p c, par s c = Some p → is_Some (h !! p) ∧ is_Some (h !! c);
  wf_links : ∀ r n, h !! r = Some n → links_ok s r n
}.

(** The ancestors of a node, itself included. *)
Definition anc (s : shape) (a x : ref) : Prop := rtc (λ x y, par s x = Some y) x a.

Lemma acyclic_irrefl s c : Acc (parent_of s) c → par s c ≠ Some c.
Proof. intros Ha. induction Ha as [c _ IH]. intros Hc. by apply (IH c Hc). Qed.

(** The parts of a node the links do not belong to. *)
Definition payload (n : node) : node := clear_links n.

Definition same_payload (h h' : heap) : Prop := ∀ x, payload <$> h' !! x = payload <$> h !! x.

#[export] Instance same_payload_equiv : Equivalence same_payload.
Proof. split; [by intros h x|by intros h1 h2 ? x|intros h1 h2 h3 H1 H2 x; by rewrite H2, H1]. Qed.

Lemma same_payload_dom h h' x : same_payload h h' → is_Some (h' !! x) ↔ is_Some (h !! x).
Proof. intros E. specialize (E x). destruct (h !! x), (h' !! x); simpl in *; naive_solver. Qed.

(** ** The shape operations *)
Definition detach (r : ref) (s : shape) : shape :=
  match par s r with
  | None => s
  | Some p => Shape (fset p (filter (λ x, x ≠ r) (ch s p)) (ch s)) (fset r None (par s))
  end.

(** Making the detached node [r] a child of [p], between [l1] and [l2]. *)
Definition attach (p r : ref) (l : list ref) (s : shape) : shape :=
  Shape (fset p l (ch s)) (fset r (Some p) (par s)).

(** ** Running the store monad *)
Section Run.
Context {A : Type} (h : heap) (r : ref) (n : node).

Lemma deref_bind (f : node -> HM A) : h !! r = Some n → (deref r ≫= f) h = f n h.
Proof. intros E. unfold deref. rewrite SE_bind_unfold, E. done. Qed.

Lemma upd_bind g (f : unit -> HM A) :
  h !! r = Some n → (upd r g ≫= f) h = f tt (<[r := g n]> h).
Proof. intros E. unfold upd. rewrite SE_bind_unfold, E. done. Qed.
End Run.

(** ** Rewriting every link from a shape *)
Definition relink_node (s : shape) (x : ref) (n : node) : node :=
  MkNode (name n) (type n) (attributes n) (value n) (shortEnded n) (raw n) (fixed n)
    (par s x) (head (ch s x)) (last (ch s x)) (sib_next s x) (sib_prev s x).

Definition relinked (s : shape) (h h' : heap) : Prop := ∀ x, h' !! x = relink_node s x <$> h !! x.

Lemma relinked_payload s h h' : relinked s h h' → same_payload h h'.
Proof. intros E x. rewrite E. by destruct (h !! x). Qed.

Lemma relinked_links s h h' : relinked s h h' → ∀ r n, h' !! r = Some n → links_ok s r n.
Proof.
  intros E r n. rewrite E. destruct (h !! r); simpl; intros; simplify_eq. unfold links_ok. auto.
Qed.

Lemma relink_node_same s x n : links_ok s x n → relink_node s x n = n.
Proof. intros (?&?&?&?&?). destruct n; simpl in *; subst; done. Qed.

Lemma relinked_refl h s : wf h s → relinked s h h.
Proof.
  intros Hwf x. destruct (h !! x) as [n|] eqn:E; [|done]. simpl.
  rewrite relink_node_same; [done|]. by eapply wf_links.
Qed.

(** A store relinked along a well-formed shape is well formed. *)
Definition shape_ok (h : heap) (s : shape) : Prop :=
  (∀ p c, c ∈ ch s p ↔ par s c = Some p) ∧ (∀ p, NoDup (ch s p))
  ∧ (∀ c, Acc (parent_of s) c)
  ∧ (∀ p c, par s c = Some p → is_Some (h !! p) ∧ is_Some (h !! c)).

Lemma wf_shape_ok h s : wf h s → shape_ok h s.
Proof. intros []. unfold shape_ok. auto. Qed.

Lemma relinked_wf s h h' : shape_ok h s → relinked s h h' → wf h' s.
Proof.
  intros (Hc & Hn & Ha & Hd) E. split; [done|done|done| |by eapply relinked_links].
  intros p c Hp. apply Hd in Hp as [??].
  by split; eapply same_payload_dom; eauto using relinked_payload.
Qed.

(** ** [remove] *)
Lemma filter_mid (r : ref) l1 l2 : NoDup (l1 ++ r :: l2) →
  filter (λ x, x ≠ r) (l1 ++ r :: l2) = l1 ++ l2.
Proof.
  intros (Hr1 & Hr2 & _)%mid_notin.
  assert (Hf : ∀ l : list ref, r ∉ l → filter (λ x, x ≠ r) l = l).
  { induction l as [|y l IH]; [done|]. intros [??]%not_elem_of_cons.
    rewrite filter_cons_True by done. by rewrite IH. }
  rewrite filter_app, filter_cons_False by (intros []; done). by rewrite !Hf.
Qed.

(** A node with a parent sits between two lists of siblings. *)
Lemma child_split h s p r : wf h s → par s r = Some p →
  ∃ l1 l2, ch s p = l1 ++ r :: l2 ∧ NoDup (l1 ++ r :: l2) ∧ r ≠ p ∧ p ∉ ch s p.
Proof.
  intros Hwf Hp. pose proof (proj2 (wf_ch _ _ Hwf p r) Hp) as Hin.
  apply list_elem_of_split in Hin as (l1 & l2 & E). exists l1, l2.
  pose proof (wf_nodup _ _ Hwf p) as Hn. rewrite E in Hn. split_and!; [done|done| |].
  - intros ->. by apply (acyclic_irrefl _ _ (wf_acyclic _ _ Hwf p)).
  - rewrite (wf_ch _ _ Hwf). by apply acyclic_irrefl, (wf_acyclic _ _ Hwf).
Qed.

Lemma detach_unfold s r p l1 l2 : par s r = Some p → ch s p = l1 ++ r :: l2 →
  NoDup (l1 ++ r :: l2) →
  detach r s = Shape (fset p (l1 ++ l2) (ch s)) (fset r None (par s)).
Proof. intros Hp Hc Hn. unfold detach. by rewrite Hp, Hc, filter_mid. Qed.

Lemma detach_par r s x : par (detach r s) x = if decide (x = r) then None else par s x.
Proof.
  unfold detach. destruct (par s r) eqn:E; simpl; unfold fset; case_decide; by subst.
Qed.

Lemma acc_subpar (s s' : shape) : (∀ x p, par s' x = Some p → par s x = Some p) →
  ∀ c, Acc (parent_of s) c → Acc (parent_of s') c.
Proof. intros Hsub c Ha. induction Ha as [c _ IH]. constructor. intros p Hp. by apply IH, Hsub. Qed.

Lemma detach_shape_ok h s r : wf h s → shape_ok h (detach r s).
Proof.
  intros Hwf. destruct (par s r) as [p|] eqn:Hp; cycle 1.
  { unfold detach. rewrite Hp. by apply wf_shape_ok. }
  destruct (child_split _ _ _ _ Hwf Hp) as (l1 & l2 & Hc & Hn & Hne & _).
  rewrite (detach_unfold s r p l1 l2) by done.
  destruct (mid_notin _ _ _ Hn) as (Hr1 & Hr2 & Hn').
  split_and!; simpl.
  - intros q c. unfold fset. repeat case_decide; subst.
    + set_solver.
    + rewrite <- (wf_ch _ _ Hwf p c), Hc. set_solver.
    + rewrite (wf_ch _ _ Hwf). split; intros; congruence.
    + apply (wf_ch _ _ Hwf).
  - intros q. unfold fset. case_decide; subst; [done|]. apply (wf_nodup _ _ Hwf).
  - intros c. eapply acc_subpar; [|apply (wf_acyclic _ _ Hwf c)].
    intros x q. simpl. unfold fset. by case_decide.
  - intros q c. unfold fset. case_decide; [done|]. apply (wf_dom _ _ Hwf).
Qed.

Section Detached.
Context (h : heap) (s : shape) (r p : ref) (l1 l2 : list ref).
Context (Hwf : wf h s) (Hp : par s r = Some p).
Context (Hc : ch s p = l1 ++ r :: l2) (Hn : NoDup (l1 ++ r :: l2)).

Lemma sib_next_detach x : x ≠ r →
  sib_next (detach r s) x = if decide (last l1 = Some x) then head l2 else sib_next s x.
Proof using Hwf Hp Hc Hn.
  intros Hx. rewrite (detach_unfold s r p l1 l2) by done. unfold sib_next. simpl.
  rewrite fset_ne by done. destruct (par s x) as [q|] eqn:Eq; simpl.
  - destruct (decide (q = p)) as [->|Hq].
    + rewrite fset_eq, Hc. by apply next_in_remove.
    + rewrite fset_ne by done. rewrite decide_False; [done|].
      intros (l & ->)%last_Some. assert (x ∈ ch s p) as Hin by (rewrite Hc; set_solver).
      apply (wf_ch _ _ Hwf) in Hin. congruence.
  - rewrite decide_False; [done|].
    intros (l & ->)%last_Some. assert (x ∈ ch s p) as Hin by (rewrite Hc; set_solver).
    apply (wf_ch _ _ Hwf) in Hin. congruence.
Qed.

Lemma sib_prev_detach x : x ≠ r →
  sib_prev (detach r s) x = if decide (head l2 = Some x) then last l1 else sib_prev s x.
Proof using Hwf Hp Hc Hn.
  intros Hx. rewrite (detach_unfold s r p l1 l2) by done. unfold sib_prev. simpl.
  rewrite fset_ne by done.
  assert (Hl2 : head l2 = Some x → par s x = Some p).
  { intros E. apply (wf_ch _ _ Hwf). rewrite Hc. destruct l2; simplify_eq/=. set_solver. }
  destruct (par s x) as [q|] eqn:Eq; simpl.
  - destruct (decide (q = p)) as [->|Hq].
    + rewrite fset_eq, Hc. by apply prev_in_remove.
    + rewrite fset_ne by done. rewrite decide_False; [done|]. intros E. apply Hl2 in E. congruence.
  - rewrite decide_False; [done|]. intros E. by apply Hl2 in E.
Qed.

Lemma sib_next_mid : sib_next s r = head l2.
Proof using Hp Hc Hn.
  unfold sib_next. rewrite Hp. simpl. rewrite Hc. apply next_in_mid. by destruct (mid_notin _ _ _ Hn) as (? & ? & ?).
Qed.

Lemma sib_prev_mid : sib_prev s r = last l1.
Proof using Hp Hc Hn.
  unfold sib_prev. rewrite Hp. simpl. rewrite Hc. apply prev_in_mid. by destruct (mid_notin _ _ _ Hn) as (? & ? & ?).
Qed.
End Detached.

(** The pointers [remove] writes are those of the detached shape. *)
Lemma relink_node_ext s x n n' :
  payload n' = payload n → parent n' = par s x → firstChild n' = head (ch s x) →
  lastChild n' = last (ch s x) → next n' = sib_next s x → prev n' = sib_prev s x →
  n' = relink_node s x n.
Proof. destruct n, n'. unfold payload, clear_links. simpl. by intros [=] -> -> -> -> ->; subst. Qed.

(** Stepping through a program on a known store. *)
Ltac hstep :=
  lazymatch goal with
  | |- context [((?m ≫= ?f) ≫= ?g) ?h] => rewrite (SE_bind_assoc m f g h)
  | |- context [(mret ?x ≫= ?f) ?h] => rewrite (SE_ret_bind x f h)
  | |- context [(deref ?r ≫= ?f) ?h] => erewrite (deref_bind h r _ f) by (simplify_map_eq; reflexivity)
  | |- context [(upd ?r ?g ≫= ?f) ?h] => erewrite (upd_bind h r _ g f) by (simplify_map_eq; reflexivity)
  end; cbn beta.

Lemma head_app_mid (l1 : list ref) r l2 : r ∉ l1 → head (l1 ++ r :: l2) = Some r ↔ l1 = [].
Proof. intros Hr. destruct l1 as [|y l1]; simpl; [done|]. set_solver. Qed.

Lemma last_app_mid (l1 : list ref) r l2 : r ∉ l2 → last (l1 ++ r :: l2) = Some r ↔ l2 = [].
Proof.
  intros Hr. rewrite last_app_cons. destruct l2 as [|y l2] using rev_ind; [done|].
  rewrite app_comm_cons, last_snoc. split; [set_solver|by destruct l2].
Qed.

(** One node, before and after an operation. *)
Definition step_node (n n' : node) (pa fc lc nx pv : option ref) : Prop :=
  payload n' = payload n ∧ parent n' = pa ∧ firstChild n' = fc ∧ lastChild n' = lc
  ∧ next n' = nx ∧ prev n' = pv.

Lemma relinked_step s h h' :
  (∀ x, h !! x = None → h' !! x = None) →
  (∀ x n, h !! x = Some n → ∃ n', h' !! x = Some n' ∧
     step_node n n' (par s x) (head (ch s x)) (last (ch s x)) (sib_next s x) (sib_prev s x)) →
  relinked s h h'.
Proof.
  intros Hnone Hsome x. destruct (h !! x) as [n|] eqn:E; simpl; [|auto].
  destruct (Hsome x n E) as (n' & -> & (?&?&?&?&?&?)). f_equal. by apply relink_node_ext.
Qed.

Lemma detach_relinked h h' s r p l1 l2 :
  wf h s → par s r = Some p → ch s p = l1 ++ r :: l2 → NoDup (l1 ++ r :: l2) →
  (∀ x, h !! x = None → h' !! x = None) →
  (∀ x n, h !! x = Some n → ∃ n', h' !! x = Some n' ∧
     step_node n n' (if decide (x = r) then None else parent n)
       (if decide (x = p) then head (l1 ++ l2) else firstChild n)
       (if decide (x = p) then last (l1 ++ l2) else lastChild n)
       (if decide (x = r) then None else if decide (last l1 = Some x) then head l2 else next n)
       (if decide (x = r) then None else if decide (head l2 = Some x) then last l1 else prev n)) →
  relinked (detach r s) h h'.
Proof.
  intros Hwf Hp Hc Hn Hnone Hsome. apply relinked_step; [done|].
  intros x n E. destruct (Hsome x n E) as (n' & E' & (Hpay & Hpar & Hfc & Hlc & Hnx & Hpv)).
  exists n'. split; [done|]. destruct (wf_links _ _ Hwf x n E) as (Hpar0 & Hfc0 & Hlc0 & Hnx0 & Hpv0).
  split_and!; [done|..].
  - by rewrite Hpar, detach_par, <- Hpar0.
  - rewrite Hfc, Hfc0, (detach_unfold s r p l1 l2) by done. simpl. unfold fset. by destruct (decide (x = p)).
  - rewrite Hlc, Hlc0, (detach_unfold s r p l1 l2) by done. simpl. unfold fset. by destruct (decide (x = p)).
  - rewrite Hnx. destruct (decide (x = r)) as [Hx|Hx].
    + unfold sib_next. rewrite detach_par, decide_True by done. done.
    + by rewrite (sib_next_detach h s r p l1 l2), Hnx0.
  - rewrite Hpv. destruct (decide (x = r)) as [Hx|Hx].
    + unfold sib_prev. rewrite detach_par, decide_True by done. done.
    + by rewrite (sib_prev_detach h s r p l1 l2), Hpv0.
Qed.

Lemma head_remove (l1 l2 : list ref) r : l1 ≠ [] → head (l1 ++ l2) = head (l1 ++ r :: l2).
Proof. by destruct l1. Qed.
Lemma last_remove (l1 l2 : list ref) r : l2 ≠ [] → last (l1 ++ l2) = last (l1 ++ r :: l2).
Proof.
  intros. rewrite last_app_cons. destruct l2 as [|y l2 _] using rev_ind; [done|].
  by rewrite app_comm_cons, app_assoc, !last_snoc.
Qed.
Lemma head_None {A} (l : list A) : head l = None ↔ l = [].
Proof. by destruct l. Qed.
Lemma head_Some_elem {A} (l : list A) x : head l = Some x → x ∈ l.
Proof. destruct l; simpl; intros; simplify_eq. set_solver. Qed.
Lemma last_Some_elem {A} (l : list A) x : last l = Some x → x ∈ l.
Proof. intros (l' & ->)%last_Some. set_solver. Qed.

(** Compares every node of the store before and after the writes to the
    nodes named: one case per node. *)
Ltac by_node r p tac :=
  let x := fresh "x" in intros x;
  destruct (decide (x = r)) as [?|?], (decide (x = p)) as [?|?]; tac x;
  subst; intros; simplify_map_eq; try done;
  eexists; (split; [reflexivity|]); unfold step_node; cbn;
  split_and!; try done;
  repeat match goal with |- context [decide ?P] => destruct (decide P) end;
  simplify_eq; try done; try congruence.

Lemma remove_run h s r n : wf h s → h !! r = Some n →
  ∃ h', remove r h = Some (r, h') ∧ relinked (detach r s) h h'.
Proof.
  intros Hwf Hr. destruct (wf_links _ _ Hwf r n Hr) as (Hpar & _ & _ & Hnext & Hprev).
  unfold remove. rewrite (deref_bind h r n) by done.
  destruct (par s r) as [p|] eqn:Hp; rewrite Hpar; cycle 1.
  { exists h. split; [done|]. unfold detach. rewrite Hp. by apply relinked_refl. }
  destruct (child_split _ _ _ _ Hwf Hp) as (l1 & l2 & Hc & Hn & Hrp & Hpp).
  destruct (mid_notin _ _ _ Hn) as (Hr1 & Hr2 & Hn12).
  destruct (wf_dom _ _ Hwf p r Hp) as [[pn Epn] _].
  destruct (wf_links _ _ Hwf p pn Epn) as (_ & Hpf & Hpl & _ & _).
  rewrite (sib_next_mid s r p l1 l2) in Hnext by done.
  rewrite (sib_prev_mid s r p l1 l2) in Hprev by done.
  assert (Hsib : ∀ x, x ∈ l1 ++ l2 → x ≠ r ∧ x ≠ p ∧ is_Some (h !! x)).
  { intros x Hx. rewrite Hc in Hpp. split_and!; [set_solver|set_solver|].
    apply (wf_dom _ _ Hwf p), (wf_ch _ _ Hwf). rewrite Hc. set_solver. }
  rewrite Hc in *. pose proof (head_remove l1 l2 r) as Hhr. pose proof (last_remove l1 l2 r) as Hlr.
  hstep. rewrite Hpf, Hnext, Hprev.
  assert (Hrel : ∀ h' : heap, (∀ x, h !! x = None → h' !! x = None) → _ → relinked (detach r s) h h') by
    (intros h'; apply (detach_relinked h h' s r p l1 l2); done).
  destruct (last l1) as [pv|] eqn:Epv, (head l2) as [nx|] eqn:Enx.
  - pose proof (last_Some_elem _ _ Epv). pose proof (head_Some_elem _ _ Enx).
    destruct (Hsib pv) as (?&?&[pvn ?]); [set_solver|].
    destruct (Hsib nx) as (?&?&[nxn ?]); [set_solver|].
    assert (pv ≠ nx) by (apply NoDup_app in Hn12; set_solver).
    assert (l1 ≠ [] ∧ l2 ≠ []) as [Hl1 Hl2] by (split; intros ->; done).
    specialize (Hhr Hl1). specialize (Hlr Hl2).
    rewrite decide_False by (rewrite head_app_mid by done; done).
    cbn [nonnull when_some]. repeat hstep.
    rewrite decide_False by (rewrite Hpl, last_app_mid by done; done).
    repeat hstep. eexists; split; [reflexivity|]. apply Hrel;
    by_node r p ltac:(fun x => destruct (decide (x = pv)) as [?|?], (decide (x = nx)) as [?|?]).
  - pose proof (last_Some_elem _ _ Epv). apply head_None in Enx as ->.
    destruct (Hsib pv) as (?&?&[pvn ?]); [set_solver|].
    assert (l1 ≠ []) as Hl1 by (intros ->; done). specialize (Hhr Hl1).
    rewrite decide_False by (rewrite head_app_mid by done; done).
    cbn [nonnull when_some]. repeat hstep.
    rewrite decide_True by (rewrite Hpl, last_app_mid; done).
    cbn [nonnull when_some]. repeat hstep. eexists; split; [reflexivity|]. rewrite app_nil_r in *. apply Hrel;
    by_node r p ltac:(fun x => destruct (decide (x = pv)) as [?|?]).
  - pose proof (head_Some_elem _ _ Enx). apply last_None in Epv as ->.
    destruct (Hsib nx) as (?&?&[nxn ?]); [set_solver|].
    assert (l2 ≠ []) as Hl2 by (intros ->; done). specialize (Hlr Hl2).
    rewrite decide_True by (rewrite head_app_mid; done).
    cbn [nonnull when_some]. repeat hstep.
    rewrite decide_False by (cbn; rewrite Hpl, last_app_mid by done; done).
    cbn [nonnull when_some]. repeat hstep. eexists; split; [reflexivity|]. apply Hrel;
    by_node r p ltac:(fun x => destruct (decide (x = nx)) as [?|?]).
  - apply last_None in Epv as ->. apply head_None in Enx as ->.
    rewrite decide_True by done. cbn [nonnull when_some]. repeat hstep.
    rewrite decide_True by done. cbn [nonnull when_some]. repeat hstep.
    eexists; split; [reflexivity|]. apply Hrel; by_node r p ltac:(fun x => idtac).
Qed.

Lemma remove_ok h s r : wf h s → is_Some (h !! r) →
  ∃ h', remove r h = Some (r, h') ∧ wf h' (detach r s) ∧ same_payload h h'.
Proof.
  intros Hwf [n Hr]. destruct (remove_run h s r n Hwf Hr) as (h' & E & Hrel).
  exists h'. split_and!; [done| |by eapply relinked_payload].
  eapply relinked_wf; [|done]. by apply detach_shape_ok.
Qed.

Lemma detach_node_ok h s r : wf h s → is_Some (h !! r) →
  ∃ h', detach_node r h = Some (tt, h') ∧ wf h' (detach r s) ∧ same_payload h h'.
Proof.
  intros Hwf [n Hr]. unfold detach_node. rewrite (deref_bind h r n) by done.
  destruct (wf_links _ _ Hwf r n Hr) as (-> & _). destruct (par s r) eqn:Hp.
  - destruct (remove_ok h s r Hwf ltac:(done)) as (h' & E & ?).
    exists h'. by rewrite (SE_bind_some _ _ _ _ _ E).
  - exists h. unfold detach. by rewrite Hp.
Qed.

(** ** Linking a detached node in *)
Section Attach.
Context (h : heap) (s : shape) (r p : ref) (l1 l2 : list ref).
Context (Hwf : wf h s) (Hr : is_Some (h !! r)) (Hp : is_Some (h !! p)).
Context (Hpar : par s r = None) (Hc : ch s p = l1 ++ l2) (Hanc : ¬ anc s r p).

Abbreviation s' := (attach p r (l1 ++ r :: l2) s).

Lemma attach_notin q : r ∉ ch s q.
Proof using All. intros Hx%(wf_ch _ _ Hwf). congruence. Qed.

Lemma attach_ne : r ≠ p.
Proof using All. intros ->. apply Hanc, rtc_refl. Qed.

Lemma attach_NoDup : NoDup (l1 ++ r :: l2).
Proof using All.
  rewrite <- Permutation_middle. apply NoDup_cons. rewrite <- Hc.
  split; [apply attach_notin|apply (wf_nodup _ _ Hwf)].
Qed.

Lemma attach_acyclic c : Acc (parent_of s') c.
Proof using All.
  assert (Hp' : ∀ c, Acc (parent_of s) c → ¬ anc s r c → Acc (parent_of s') c).
  { intros x Ha. induction Ha as [x _ IH]. intros Hx. constructor. intros q Hq.
    unfold parent_of, attach in Hq. simpl in Hq.
    rewrite fset_ne in Hq by (intros ->; apply Hx, rtc_refl).
    apply IH; [done|]. intros Hq'. apply Hx. by eapply rtc_l. }
  induction (wf_acyclic _ _ Hwf c) as [x _ IH]. constructor. intros q Hq.
  unfold parent_of, attach in Hq. simpl in Hq. unfold fset in Hq. case_decide; [|by apply IH].
  simplify_eq. apply Hp'; [apply (wf_acyclic _ _ Hwf)|done].
Qed.

Lemma attach_shape_ok : shape_ok h s'.
Proof using All.
  split_and!; simpl.
  - intros q c. unfold fset. pose proof (wf_ch _ _ Hwf) as HH.
    destruct (decide (q = p)) as [->|], (decide (c = r)) as [->|].
    + split; [done|set_solver].
    + rewrite <- (HH p c), Hc. set_solver.
    + split; [|congruence]. intros Hx. by apply attach_notin in Hx.
    + apply HH.
  - intros q. unfold fset. destruct (decide (q = p)); [apply attach_NoDup|apply (wf_nodup _ _ Hwf)].
  - apply attach_acyclic.
  - intros q c. unfold fset. case_decide; [|apply (wf_dom _ _ Hwf)]. intros. by simplify_eq.
Qed.

Lemma next_in_insert x : x ≠ r →
  next_in x (l1 ++ r :: l2) = if decide (last l1 = Some x) then Some r else next_in x (l1 ++ l2).
Proof using All.
  intros Hx. pose proof attach_NoDup as Hn. case_decide as Hl.
  - rewrite next_in_snoc_last; [done| |done]. by apply NoDup_app in Hn as (?&?&?).
  - rewrite (next_in_remove r l1 l2 Hn x Hx). by rewrite decide_False.
Qed.

Lemma prev_in_insert x : x ≠ r →
  prev_in x (l1 ++ r :: l2) = if decide (head l2 = Some x) then Some r else prev_in x (l1 ++ l2).
Proof using All.
  intros Hx. pose proof attach_NoDup as Hn. case_decide as Hl.
  - destruct l2 as [|y l2']; simplify_eq/=.
    rewrite cons_middle, app_assoc, prev_in_mid; [by rewrite last_snoc|].
    apply NoDup_app in Hn as (_ & _ & Hn). apply NoDup_cons in Hn as [_ Hn].
    by apply NoDup_cons in Hn as [? _].
  - rewrite (prev_in_remove r l1 l2 x Hn Hx). by rewrite decide_False.
Qed.

Lemma attach_relinked h' :
  (∀ x, h !! x = None → h' !! x = None) →
  (∀ x n, h !! x = Some n → ∃ n', h' !! x = Some n' ∧
     step_node n n' (if decide (x = r) then Some p else parent n)
       (if decide (x = p) then head (l1 ++ r :: l2) else firstChild n)
       (if decide (x = p) then last (l1 ++ r :: l2) else lastChild n)
       (if decide (x = r) then head l2 else if decide (last l1 = Some x) then Some r else next n)
       (if decide (x = r) then last l1 else if decide (head l2 = Some x) then Some r else prev n)) →
  relinked s' h h'.
Proof using All.
  intros Hnone Hsome. apply relinked_step; [done|].
  intros x n E. destruct (Hsome x n E) as (n' & E' & (Hpay & Hpar' & Hfc & Hlc & Hnx & Hpv)).
  exists n'. split; [done|]. destruct (wf_links _ _ Hwf x n E) as (Hpar0 & Hfc0 & Hlc0 & Hnx0 & Hpv0).
  pose proof attach_ne as Hrp.
  assert (Hin : ∀ x, x ∈ l1 ++ l2 → par s x = Some p) by
    (intros y Hy; apply (wf_ch _ _ Hwf); by rewrite Hc).
  split_and!; [done|..].
  - rewrite Hpar', Hpar0. simpl. unfold fset. by destruct (decide (x = r)).
  - rewrite Hfc, Hfc0. simpl. unfold fset. by destruct (decide (x = p)).
  - rewrite Hlc, Hlc0. simpl. unfold fset. by destruct (decide (x = p)).
  - rewrite Hnx. unfold sib_next. simpl. destruct (decide (x = r)) as [->|Hx].
    + rewrite !fset_eq. simpl. rewrite fset_eq, next_in_mid; [done|].
      by destruct (mid_notin _ _ _ attach_NoDup).
    + rewrite fset_ne, Hnx0 by done. unfold sib_next.
      destruct (par s x) as [q|] eqn:Eq; simpl; cycle 1.
      { rewrite decide_False; [done|]. intros Hl%last_Some_elem.
        by rewrite Hin in Eq by set_solver. }
      destruct (decide (q = p)) as [->|Hq].
      * rewrite fset_eq, Hc. by rewrite next_in_insert.
      * rewrite fset_ne by done. rewrite decide_False; [done|]. intros Hl%last_Some_elem.
        rewrite Hin in Eq by set_solver. congruence.
  - rewrite Hpv. unfold sib_prev. simpl. destruct (decide (x = r)) as [->|Hx].
    + rewrite !fset_eq. simpl. rewrite fset_eq, prev_in_mid; [done|].
      by destruct (mid_notin _ _ _ attach_NoDup) as (_ & ? & _).
    + rewrite fset_ne, Hpv0 by done. unfold sib_prev.
      destruct (par s x) as [q|] eqn:Eq; simpl; cycle 1.
      { rewrite decide_False; [done|]. intros Hl%head_Some_elem.
        by rewrite Hin in Eq by set_solver. }
      destruct (decide (q = p)) as [->|Hq].
      * rewrite fset_eq, Hc. by rewrite prev_in_insert.
      * rewrite fset_ne by done. rewrite decide_False; [done|]. intros Hl%head_Some_elem.
        rewrite Hin in Eq by set_solver. congruence.
Qed.
End Attach.

Lemma anc_detach s r a x : anc (detach r s) a x → anc s a x.
Proof.
  induction 1 as [|x y z Hxy _ IH]; [apply rtc_refl|].
  rewrite detach_par in Hxy. case_decide; [done|]. by eapply rtc_l.
Qed.

(** A detached node and the node it goes to, after the detaching. *)
Lemma detached_node h s r n : wf h s → par s r = None → h !! r = Some n →
  parent n = None ∧ next n = None ∧ prev n = None.
Proof.
  intros Hwf Hp E. destruct (wf_links _ _ Hwf r n E) as (-> & _ & _ & -> & ->).
  unfold sib_next, sib_prev. by rewrite Hp.
Qed.

Ltac attach_step Hrel := eexists; split; [reflexivity|]; apply Hrel.

Lemma append_link_run h s self node :
  wf h s → is_Some (h !! self) → is_Some (h !! node) → par s node = None → ¬ anc s node self →
  ∃ h', append_link self node h = Some (node, h') ∧
    relinked (attach self node (ch s self ++ [node]) s) h h'.
Proof.
  intros Hwf [sn Hsn] [nn Hnn] Hpar Hanc.
  destruct (wf_links _ _ Hwf self sn Hsn) as (_ & Hf & Hl & _ & _).
  destruct (detached_node h s node nn Hwf Hpar Hnn) as (Hnp & Hnx0 & Hpv0).
  assert (Hne : node ≠ self) by (intros ->; apply Hanc, rtc_refl).
  pose proof (attach_relinked h s node self (ch s self) [] Hwf ltac:(eauto) ltac:(eauto) Hpar
    (eq_sym (app_nil_r _)) Hanc) as Hrel.
  unfold append_link. hstep. rewrite Hl. rewrite last_snoc in Hrel.
  destruct (last (ch s self)) as [la|] eqn:Ela.
  - pose proof (last_Some_elem _ _ Ela) as Hin.
    destruct (wf_dom _ _ Hwf self la) as [_ [ln Hln]]; [by apply (wf_ch _ _ Hwf)|].
    assert (la ≠ node) by (intros ->; apply (wf_ch _ _ Hwf) in Hin; congruence).
    assert (la ≠ self) by (intros ->; apply (wf_ch _ _ Hwf) in Hin;
      by apply (acyclic_irrefl _ _ (wf_acyclic _ _ Hwf self))).
    assert (head (ch s self ++ [node]) = head (ch s self)) as Hhd by (by destruct (ch s self)).
    repeat hstep. attach_step Hrel; by_node node self ltac:(fun x => destruct (decide (x = la)) as [?|?]).
  - apply last_None in Ela as E. rewrite E in *. repeat hstep.
    attach_step Hrel; by_node node self ltac:(fun x => idtac).
Qed.

(** The shape after [append]. *)
Definition append_shape (self node : ref) (s : shape) : shape :=
  attach self node (ch (detach node s) self ++ [node]) (detach node s).

(** What holds once the node has left its old parent. *)
Section Moved.
Context (h : heap) (s : shape) (node target : ref).
Context (Hwf : wf h s) (Hnode : is_Some (h !! node)) (Htarget : is_Some (h !! target)).
Context (Hanc : ¬ anc s node target).

Lemma moved : ∃ h1, detach_node node h = Some (tt, h1) ∧ wf h1 (detach node s)
  ∧ same_payload h h1 ∧ is_Some (h1 !! node) ∧ is_Some (h1 !! target)
  ∧ par (detach node s) node = None ∧ ¬ anc (detach node s) node target.
Proof using All.
  destruct (detach_node_ok h s node Hwf Hnode) as (h1 & E1 & Hwf1 & Hp1). exists h1.
  split_and!; [done|done|done|by eapply same_payload_dom|by eapply same_payload_dom| |].
  - rewrite detach_par. by rewrite decide_True.
  - intros Ha. by apply Hanc, anc_detach with node.
Qed.
End Moved.

Lemma append_ok h s self node :
  wf h s → is_Some (h !! self) → is_Some (h !! node) → ¬ anc s node self →
  ∃ h', append self node h = Some (node, h') ∧ wf h' (append_shape self node s) ∧ same_payload h h'.
Proof.
  intros Hwf Hself Hnode Hanc.
  destruct (moved h s node self) as (h1 & E1 & Hwf1 & Hp1 & Hn1 & Hs1 & Hpar1 & Hanc1); [done..|].
  destruct (append_link_run h1 _ self node Hwf1) as (h' & E & Hr); [done..|].
  exists h'. unfold append. rewrite (SE_bind_some _ _ _ _ _ E1). split_and!; [done| |].
  - eapply relinked_wf; [|done].
    apply (attach_shape_ok h1 _ node self (ch (detach node s) self) []); try done.
    by rewrite app_nil_r.
  - etransitivity; [done|]. by eapply relinked_payload.
Qed.

(** ** [insert] *)
Section InsertLink.
Context (h : heap) (s : shape) (self node ref_node p : ref) (l1 l2 : list ref).
Context (Hwf : wf h s) (Hnode : is_Some (h !! node)).
Context (Hpar : par s node = None) (Hanc : ¬ anc s node p).
Context (Hrp : par s ref_node = Some p) (Hc : ch s p = l1 ++ ref_node :: l2).

Lemma insert_facts : ∃ rn pn nn,
  h !! ref_node = Some rn ∧ h !! p = Some pn ∧ h !! node = Some nn
  ∧ parent rn = Some p ∧ next rn = head l2 ∧ prev rn = last l1
  ∧ firstChild pn = head (l1 ++ ref_node :: l2) ∧ lastChild pn = last (l1 ++ ref_node :: l2)
  ∧ parent nn = None ∧ next nn = None ∧ prev nn = None
  ∧ node ≠ p ∧ node ≠ ref_node ∧ ref_node ≠ p ∧ (ref_node ∉ l1) ∧ (ref_node ∉ l2)
  ∧ (∀ x, x ∈ l1 ++ l2 → x ≠ node ∧ x ≠ p ∧ x ≠ ref_node ∧ is_Some (h !! x)).
Proof using All.
  destruct (child_split _ _ _ _ Hwf Hrp) as (l1' & l2' & Hc' & Hn & Hne & Hpp).
  rewrite Hc in Hpp. clear Hc' Hn.
  pose proof (wf_nodup _ _ Hwf p) as Hn. rewrite Hc in Hn.
  destruct (mid_notin _ _ _ Hn) as (Hr1 & Hr2 & Hn12).
  destruct (wf_dom _ _ Hwf p ref_node Hrp) as [[pn Epn] [rn Ern]]. destruct Hnode as [nn Enn].
  destruct (wf_links _ _ Hwf p pn Epn) as (_ & Hpf & Hpl & _ & _).
  destruct (wf_links _ _ Hwf ref_node rn Ern) as (Hrpar & _ & _ & Hrnx & Hrpv).
  destruct (detached_node h s node nn Hwf Hpar Enn) as (?&?&?).
  rewrite (sib_next_mid s ref_node p l1 l2) in Hrnx by done.
  rewrite (sib_prev_mid s ref_node p l1 l2) in Hrpv by done.
  rewrite Hc in Hpf, Hpl. exists rn, pn, nn.
  assert (node ≠ ref_node) by congruence.
  split_and!; try done; try congruence.
  - intros ->. apply Hanc, rtc_refl.
  - intros x Hx. assert (par s x = Some p) by (apply (wf_ch _ _ Hwf); rewrite Hc; set_solver).
    split_and!; [congruence|set_solver|set_solver|by apply (wf_dom _ _ Hwf p)].
Qed.

Lemma insert_before_run : ∃ h', insert_link self node ref_node true h = Some (node, h') ∧
  relinked (attach p node (l1 ++ node :: ref_node :: l2) s) h h'.
Proof using All.
  destruct insert_facts as (rn & pn & nn & Ern & Epn & Enn & Hrpar & Hrnx & Hrpv & Hpf & Hpl
    & Hnp & Hnx0 & Hpv0 & Hnp' & Hnr & Hrp' & Hr1 & Hr2 & Hsib).
  pose proof (attach_relinked h s node p l1 (ref_node :: l2) Hwf Hnode ltac:(eauto) Hpar Hc Hanc) as Hrel.
  unfold insert_link. hstep. rewrite Hrpar. cbn [default]. hstep.
  assert (last (l1 ++ node :: ref_node :: l2) = last (l1 ++ ref_node :: l2)) as Hlast
    by (rewrite !last_app_cons; done).
  rewrite Hpf, Hrpv. cbn [head] in Hrel.
  destruct (last l1) as [pv|] eqn:Epv.
  - pose proof (last_Some_elem _ _ Epv). destruct (Hsib pv) as (?&?&?&[pvn ?]); [set_solver|].
    assert (l1 ≠ []) as Hl1 by (intros ->; done).
    rewrite decide_False by (intros Heq; symmetry in Heq; rewrite head_app_mid in Heq; done).
    assert (head (l1 ++ node :: ref_node :: l2) = head (l1 ++ ref_node :: l2)) as Hhead by (by destruct l1).
    cbn [nonnull]. repeat hstep.
    attach_step Hrel; by_node node p ltac:(fun x => destruct (decide (x = pv)) as [?|?], (decide (x = ref_node)) as [?|?]).
  - apply last_None in Epv as ->. rewrite decide_True by done. repeat hstep.
    attach_step Hrel; by_node node p ltac:(fun x => destruct (decide (x = ref_node)) as [?|?]).
Qed.

Lemma insert_after_run : ∃ h', insert_link self node ref_node false h = Some (node, h') ∧
  relinked (attach p node ((l1 ++ [ref_node]) ++ node :: l2) s) h h'.
Proof using All.
  destruct insert_facts as (rn & pn & nn & Ern & Epn & Enn & Hrpar & Hrnx & Hrpv & Hpf & Hpl
    & Hnp & Hnx0 & Hpv0 & Hnp' & Hnr & Hrp' & Hr1 & Hr2 & Hsib).
  pose proof (attach_relinked h s node p (l1 ++ [ref_node]) l2 Hwf Hnode ltac:(eauto) Hpar
    ltac:(by rewrite <- app_assoc) Hanc) as Hrel.
  unfold insert_link. hstep. rewrite Hrpar. cbn [default]. hstep.
  assert (head ((l1 ++ [ref_node]) ++ node :: l2) = head (l1 ++ ref_node :: l2)) as Hhead
    by (by destruct l1).
  rewrite Hpl, Hrnx. rewrite last_snoc in Hrel.
  destruct (head l2) as [nx|] eqn:Enx.
  - pose proof (head_Some_elem _ _ Enx). destruct (Hsib nx) as (?&?&?&[nxn ?]); [set_solver|].
    assert (l2 ≠ []) as Hl2 by (intros ->; done).
    rewrite decide_False by (intros Heq; symmetry in Heq; rewrite last_app_mid in Heq; done).
    assert (last ((l1 ++ [ref_node]) ++ node :: l2) = last (l1 ++ ref_node :: l2)) as Hlast.
    { rewrite !last_app_cons. by destruct l2. }
    cbn [nonnull]. repeat hstep.
    attach_step Hrel; by_node node p ltac:(fun x => destruct (decide (x = nx)) as [?|?], (decide (x = ref_node)) as [?|?]).
  - apply head_None in Enx as ->.
    rewrite decide_True by (symmetry; by apply last_app_mid).
    rewrite last_snoc in Hrel. repeat hstep.
    attach_step Hrel; by_node node p ltac:(fun x => destruct (decide (x = ref_node)) as [?|?]).
Qed.
End InsertLink.

(** The list after inserting [node] next to [ref_node]. *)
Fixpoint insert_near (ref_node node : ref) (before : bool) (l : list ref) : list ref :=
  match l with
  | [] => []
  | y :: l' =>
      if decide (y = ref_node) then (if before then node :: y :: l' else y :: node :: l')
      else y :: insert_near ref_node node before l'
  end.

Lemma insert_near_mid r x before l1 l2 : r ∉ l1 →
  insert_near r x before (l1 ++ r :: l2) =
    if before then l1 ++ x :: r :: l2 else (l1 ++ [r]) ++ x :: l2.
Proof.
  induction l1 as [|y l1 IH]; simpl; [by rewrite decide_True; destruct before|].
  intros [??]%not_elem_of_cons. rewrite decide_False, IH by done. by destruct before.
Qed.

(** The shape after [insert], where [p] is the parent of [ref_node]. *)
Definition insert_shape (p node ref_node : ref) (before : bool) (s : shape) : shape :=
  attach p node (insert_near ref_node node before (ch (detach node s) p)) (detach node s).

Lemma insert_ok h s self node ref_node p before :
  wf h s → is_Some (h !! node) → par s ref_node = Some p → node ≠ ref_node → ¬ anc s node p →
  ∃ h', insert self node ref_node before h = Some (node, h')
    ∧ wf h' (insert_shape p node ref_node before s) ∧ same_payload h h'.
Proof.
  intros Hwf Hnode Hrp Hne Hanc.
  destruct (wf_dom _ _ Hwf p ref_node Hrp) as [Hp _].
  destruct (moved h s node p) as (h1 & E1 & Hwf1 & Hp1 & Hn1 & Hs1 & Hpar1 & Hanc1); [done..|].
  assert (Hrp1 : par (detach node s) ref_node = Some p) by
    (rewrite detach_par; by rewrite decide_False).
  destruct (child_split _ _ _ _ Hwf1 Hrp1) as (l1 & l2 & Hc & Hn & _).
  destruct (mid_notin _ _ _ Hn) as (Hr1 & _ & _).
  unfold insert. rewrite (SE_bind_some _ _ _ _ _ E1). unfold insert_shape.
  rewrite Hc, insert_near_mid by done.
  destruct before.
  - destruct (insert_before_run h1 _ self node ref_node p l1 l2 Hwf1) as (h' & E & Hr); [done..|].
    exists h'. split_and!; [done| |etransitivity; [done|by eapply relinked_payload]].
    eapply relinked_wf; [|done]. by apply (attach_shape_ok h1 _ node p l1 (ref_node :: l2)).
  - destruct (insert_after_run h1 _ self node ref_node p l1 l2 Hwf1) as (h' & E & Hr); [done..|].
    exists h'. split_and!; [done| |etransitivity; [done|by eapply relinked_payload]].
    eapply relinked_wf; [|done]. apply (attach_shape_ok h1 _ node p (l1 ++ [ref_node]) l2); try done.
    by rewrite <- app_assoc.
Qed.

