(* ===== verification/NodeMoves.v ===== *)
(** * Moving nodes: replace, wrap, unwrap

    Each method of Node.prototype that combines insert, append and remove, as
    an operation on the lists of children. *)

From S2P Require Import Prelude Node NodeFacts.

Lemma attach_ch_eq p r l s : ch (attach p r l s) p = l.
Proof. apply fset_eq. Qed.
Lemma attach_ch_ne p r l s q : q ≠ p → ch (attach p r l s) q = ch s q.
Proof. apply fset_ne. Qed.

Lemma anc_parent s a c p : par s c = Some p → anc s a p → anc s a c.
Proof. intros. by eapply rtc_l. Qed.

Lemma anc_ne_parent s a c p : par s c = Some p → a ≠ c → anc s a c → anc s a p.
Proof. intros Hc Hne Ha. inv Ha; by simplify_eq. Qed.

Lemma anc_self_parent h s c p : wf h s → par s c = Some p → ¬ anc s c p.
Proof.
  intros Hwf. revert p. induction (wf_acyclic _ _ Hwf c) as [c _ IH]. intros p Hp Ha.
  inv Ha as [|? q ? Hq Hrest].
  - by apply (acyclic_irrefl _ _ (wf_acyclic _ _ Hwf c)).
  - apply (IH p Hp q Hq). unfold anc in *. etransitivity; [exact Hrest|]. by apply rtc_once.
Qed.

Lemma detach_none s r : par s r = None → detach r s = s.
Proof. intros E. unfold detach. by rewrite E. Qed.

Lemma detach_ch_ne s r q : par s r ≠ Some q → ch (detach r s) q = ch s q.
Proof.
  unfold detach. destruct (par s r) as [p|]; [|done]. intros. simpl.
  rewrite fset_ne; [done|]. by intros ->.
Qed.

Lemma detach_ch h s r p l1 l2 : wf h s → par s r = Some p → ch s p = l1 ++ r :: l2 →
  ch (detach r s) p = l1 ++ l2.
Proof.
  intros Hwf Hp Hc. pose proof (wf_nodup _ _ Hwf p) as Hn. rewrite Hc in Hn.
  rewrite (detach_unfold s r p l1 l2) by done. simpl. by rewrite fset_eq.
Qed.

(** A child of [self] may move next to [self]. *)
Lemma child_not_above h s c self p : wf h s → par s c = Some self → par s self = Some p →
  ¬ anc s c p.
Proof.
  intros Hwf Hc Hp Ha. apply (anc_self_parent h s c self Hwf Hc). by eapply anc_parent.
Qed.

(** The state of the loop of [unwrap]: the children [m] have moved, [rs]
    are left. *)
Record unwrapping (s0 s : shape) (self p : ref) (l1 m rs l2 : list ref) : Prop := Unwrapping {
  uw_p : ch s p = l1 ++ m ++ self :: l2;
  uw_self : ch s self = rs;
  uw_rest : ∀ q, q ≠ p → q ≠ self → ch s q = ch s0 q;
  uw_par : par s self = Some p
}.

Lemma unwrap_step h s0 s self p l1 m c rs l2 : wf h s →
  unwrapping s0 s self p l1 m (c :: rs) l2 →
  ∃ h', insert self c self true h = Some (c, h') ∧ same_payload h h' ∧
    wf h' (insert_shape p c self true s) ∧
    unwrapping s0 (insert_shape p c self true s) self p l1 (m ++ [c]) rs l2.
Proof.
  intros Hwf [Hp Hself Hrest Hpar].
  assert (par s c = Some self) as Hc by (apply (wf_ch _ _ Hwf); rewrite Hself; set_solver).
  assert (c ≠ self) by (intros ->; by apply (acyclic_irrefl _ _ (wf_acyclic _ _ Hwf self))).
  assert (self ≠ p) by (intros ->; by apply (acyclic_irrefl _ _ (wf_acyclic _ _ Hwf p))).
  destruct (wf_dom _ _ Hwf self c Hc) as [_ Hcd].
  assert (¬ anc s c p) by (by eapply child_not_above).
  destruct (insert_ok h s self c self p true) as (h' & E & Hwf' & Hpay); [done..|].
  exists h'. split_and!; [done|done|done|]. unfold insert_shape.
  assert (ch (detach c s) p = ch s p) as -> by (apply detach_ch_ne; congruence).
  assert (self ∉ l1 ++ m) as Hsm.
  { pose proof (wf_nodup _ _ Hwf p) as Hn. rewrite Hp, app_assoc in Hn.
    by destruct (mid_notin _ _ _ Hn). }
  rewrite Hp, app_assoc, insert_near_mid by done. split; simpl.
  - rewrite fset_eq. by rewrite <- !app_assoc.
  - rewrite fset_ne by done. by rewrite (detach_ch h s c self [] rs).
  - intros q Hq1 Hq2. rewrite fset_ne by done. rewrite detach_ch_ne by congruence. auto.
  - rewrite fset_ne by done. rewrite detach_par. by rewrite decide_False.
Qed.

Lemma children_size h s r : wf h s → (length (ch s r) ≤ size h)%nat.
Proof.
  intros Hwf. rewrite <- size_dom.
  rewrite <- (size_list_to_set (C := gset ref)) by apply (wf_nodup _ _ Hwf).
  apply subseteq_size. intros x Hx%elem_of_list_to_set.
  apply elem_of_dom. apply (wf_ch _ _ Hwf) in Hx. by apply (wf_dom _ _ Hwf) in Hx as [_ ?].
Qed.

Lemma unwrap_loop_ok s0 self p l1 l2 rs : ∀ fuel h s m, (length rs ≤ fuel)%nat → wf h s →
  unwrapping s0 s self p l1 m rs l2 →
  ∃ h' s', unwrap_loop fuel self (head rs) h = Some (tt, h') ∧ same_payload h h' ∧ wf h' s' ∧
    unwrapping s0 s' self p l1 (m ++ rs) [] l2.
Proof.
  induction rs as [|c rs IH]; intros fuel h s m Hf Hwf Hu.
  { exists h, s. rewrite app_nil_r. by destruct fuel. }
  destruct fuel as [|fuel]; [simpl in Hf; lia|]. cbn [unwrap_loop head].
  assert (par s c = Some self) as Hc.
  { apply (wf_ch _ _ Hwf). rewrite (uw_self _ _ _ _ _ _ _ _ Hu). set_solver. }
  destruct (wf_dom _ _ Hwf self c Hc) as [_ [cn Ecn]].
  destruct (wf_links _ _ Hwf c cn Ecn) as (_ & _ & _ & Hnx & _).
  assert (next cn = head rs) as Hnx'.
  { rewrite Hnx. apply (sib_next_mid s c self [] rs); [done|apply Hu|].
    rewrite <- (app_nil_l (c :: rs)), <- (uw_self _ _ _ _ _ _ _ _ Hu). apply (wf_nodup _ _ Hwf). }
  destruct (unwrap_step h s0 s self p l1 m c rs l2 Hwf Hu) as (h1 & E1 & Hp1 & Hwf1 & Hu1).
  hstep. rewrite (SE_bind_some _ _ _ _ _ E1), Hnx'.
  destruct (IH fuel h1 _ (m ++ [c]) ltac:(simpl in Hf; lia) Hwf1 Hu1) as (h' & s' & E & Hp' & Hwf' & Hu').
  exists h', s'. rewrite <- app_assoc in Hu'. split_and!; [done|by etransitivity|done|done].
Qed.

(** [unwrap] puts the children of a node in its place, in order, and
    leaves the node alone. *)
Theorem unwrap_ok h s self p l1 l2 :
  wf h s → par s self = Some p → ch s p = l1 ++ self :: l2 →
  ∃ h' s', unwrap self h = Some (tt, h') ∧ same_payload h h' ∧ wf h' s' ∧
    ch s' p = l1 ++ ch s self ++ l2 ∧ ch s' self = [] ∧ par s' self = None ∧
    (∀ q, q ≠ p → q ≠ self → ch s' q = ch s q).
Proof.
  intros Hwf Hp Hc. destruct (wf_dom _ _ Hwf p self Hp) as [_ [n En]].
  destruct (wf_links _ _ Hwf self n En) as (_ & Hf & _).
  assert (self ≠ p) by (intros ->; by apply (acyclic_irrefl _ _ (wf_acyclic _ _ Hwf p))).
  destruct (unwrap_loop_ok s self p l1 l2 (ch s self) (size h) h s []) as
    (h1 & s1 & E1 & Hp1 & Hwf1 & Hu1); [by eapply children_size|done|by split|].
  destruct (remove_ok h1 s1 self Hwf1) as (h2 & E2 & Hwf2 & Hp2).
  { apply (same_payload_dom _ _ _ Hp1). by exists n. }
  exists h2, (detach self s1). unfold unwrap. hstep. rewrite Hf.
  rewrite SE_bind_unfold. cbn [gets]. rewrite (SE_bind_some _ _ _ _ _ E1), (SE_bind_some _ _ _ _ _ E2).
  destruct Hu1 as [Hup Hus Hur Hupar]. rewrite app_nil_l in Hup.
  split_and!; [done|by etransitivity|done| | | |].
  - rewrite app_assoc in Hup. rewrite (detach_ch _ _ _ _ _ _ Hwf1 Hupar Hup). by rewrite app_assoc.
  - rewrite detach_ch_ne; [done|]. congruence.
  - rewrite detach_par. by rewrite decide_True.
  - intros q Hq1 Hq2. rewrite detach_ch_ne by congruence. auto.
Qed.

(** [replace] puts [node] (with its subtree) at the place of [self]. *)
Theorem replace_ok h s self node p l1 l2 :
  wf h s → is_Some (h !! node) → par s self = Some p → node ≠ self → ¬ anc s node p →
  ch (detach node s) p = l1 ++ self :: l2 →
  ∃ h' s', replace self node h = Some (self, h') ∧ same_payload h h' ∧ wf h' s' ∧
    ch s' p = l1 ++ node :: l2 ∧ par s' self = None ∧ ch s' self = ch (detach node s) self ∧
    (∀ q, q ≠ p → ch s' q = ch (detach node s) q).
Proof.
  intros Hwf Hnode Hp Hne Hanc Hc.
  destruct (moved h s node p) as (h1 & E1 & Hwf1 & Hp1 & Hn1 & Hs1 & Hpar1 & Hanc1); try done.
  { by apply (wf_dom _ _ Hwf p self). }
  assert (Hsp : par (detach node s) self = Some p) by (rewrite detach_par; by rewrite decide_False).
  destruct (insert_ok h1 (detach node s) self node self p false) as (h2 & E2 & Hwf2 & Hp2); try done.
  unfold insert_shape in Hwf2. rewrite (detach_none _ _ Hpar1) in Hwf2.
  pose proof (wf_nodup _ _ Hwf1 p) as Hn. rewrite Hc in Hn.
  destruct (mid_notin _ _ _ Hn) as (Hs1' & _ & _).
  rewrite Hc, insert_near_mid in Hwf2 by done.
  set (s2 := attach p node ((l1 ++ [self]) ++ node :: l2) (detach node s)) in *.
  assert (self ≠ p) by (intros ->; by apply (acyclic_irrefl _ _ (wf_acyclic _ _ Hwf p))).
  assert (Hs2p : par s2 self = Some p) by (simpl; by rewrite fset_ne).
  assert (Hs2c : ch s2 p = l1 ++ self :: node :: l2) by (simpl; by rewrite fset_eq, <- app_assoc).
  destruct (remove_ok h2 s2 self Hwf2) as (h3 & E3 & Hwf3 & Hp3).
  { by apply (wf_dom _ _ Hwf2 p self). }
  exists h3, (detach self s2). unfold replace.
  rewrite (SE_bind_some _ _ _ _ _ E1), (SE_bind_some _ _ _ _ _ E2), (SE_bind_some _ _ _ _ _ E3).
  split_and!; [done|by do 2 (etransitivity; [done|])|done| | | |].
  - by rewrite (detach_ch _ _ _ _ _ _ Hwf2 Hs2p Hs2c).
  - rewrite detach_par. by rewrite decide_True.
  - rewrite detach_ch_ne by congruence. simpl. by rewrite fset_ne.
  - intros q Hq. rewrite detach_ch_ne by congruence. simpl. by rewrite fset_ne.
Qed.

(** [wrap] puts [wrapper] at the place of [self] and [self] at the end
    of [wrapper]. *)
Theorem wrap_ok h s self wrapper p l1 l2 :
  wf h s → is_Some (h !! wrapper) → par s self = Some p → wrapper ≠ self →
  ¬ anc s wrapper p → ¬ anc s self wrapper →
  ch (detach wrapper s) p = l1 ++ self :: l2 →
  ∃ h' s', wrap self wrapper h = Some (self, h') ∧ same_payload h h' ∧ wf h' s' ∧
    ch s' p = l1 ++ wrapper :: l2 ∧ ch s' wrapper = ch (detach wrapper s) wrapper ++ [self] ∧
    (∀ q, q ≠ p → q ≠ wrapper → ch s' q = ch (detach wrapper s) q).
Proof.
  intros Hwf Hw Hp Hne Hanc Hanc2 Hc.
  destruct (wf_dom _ _ Hwf p self Hp) as [Hpd [n En]].
  destruct (wf_links _ _ Hwf self n En) as (Hpar & _).
  destruct (insert_ok h s p wrapper self p false) as (h1 & E1 & Hwf1 & Hp1); try done.
  unfold insert_shape in Hwf1.
  destruct (moved h s wrapper p) as (h0 & E0 & Hwf0 & Hp0 & Hn0 & Hs0 & Hpar0 & Hanc0); try done.
  pose proof (wf_nodup _ _ Hwf0 p) as Hn. rewrite Hc in Hn.
  destruct (mid_notin _ _ _ Hn) as (Hs1' & _ & _).
  rewrite Hc, insert_near_mid in Hwf1 by done.
  set (s1 := attach p wrapper ((l1 ++ [self]) ++ wrapper :: l2) (detach wrapper s)) in *.
  assert (self ≠ p) by (intros ->; by apply (acyclic_irrefl _ _ (wf_acyclic _ _ Hwf p))).
  assert (wrapper ≠ p) by (intros ->; apply Hanc, rtc_refl).
  assert (Hs1p : par s1 self = Some p).
  { simpl. rewrite fset_ne by done. rewrite detach_par. by rewrite decide_False. }
  assert (Hs1c : ch s1 p = l1 ++ self :: wrapper :: l2) by (simpl; by rewrite fset_eq, <- app_assoc).
  assert (Hw1 : par s1 wrapper = Some p) by (simpl; by rewrite fset_eq).
  assert (Hanc3 : ¬ anc s1 self wrapper).
  { intros Ha. apply (anc_ne_parent _ _ _ _ Hw1) in Ha; [|done].
    by apply (anc_self_parent _ _ _ _ Hwf1 Hs1p). }
  destruct (append_ok h1 s1 wrapper self Hwf1) as (h2 & E2 & Hwf2 & Hp2); try done.
  { by apply (wf_dom _ _ Hwf1 p). } { by apply (wf_dom _ _ Hwf1 p). }
  exists h2, (append_shape wrapper self s1). unfold wrap. hstep. rewrite Hpar, Hp. cbn [nonnull].
  rewrite SE_bind_assoc, (SE_bind_some _ _ _ _ _ E1), (SE_bind_some _ _ _ _ _ E2).
  unfold append_shape in *.
  split_and!; [done|by transitivity h1|done| | |].
  - rewrite attach_ch_ne by congruence. by rewrite (detach_ch _ _ _ _ _ _ Hwf1 Hs1p Hs1c).
  - rewrite attach_ch_eq, detach_ch_ne by congruence. unfold s1. by rewrite attach_ch_ne.
  - intros q Hq1 Hq2. rewrite attach_ch_ne, detach_ch_ne by congruence. unfold s1. by rewrite attach_ch_ne.
Qed.
