(* ===== verification/NodeWalk.v ===== *)
(** * Walking the node tree

    The pointers below a node form a finite tree; [walk] visits it in
    document order, so that the loops of getAll, isEmpty and empty
    see every descendant exactly once and stop. *)

From S2P Require Import Prelude Node NodeFacts NodeMoves.

(** ** The tree below a node *)
Inductive tree := T (x : ref) (ts : list tree).

Definition root (t : tree) : ref := match t with T x _ => x end.

Section TreeInd.
Context (P : tree -> Prop) (HP : ∀ x ts, Forall P ts → P (T x ts)).
Fixpoint tree_ind' (t : tree) : P t :=
  match t with
  | T x ts => HP x ts ((fix go (ts : list tree) : Forall P ts :=
      match ts with
      | [] => Forall_nil_2 _
      | t :: ts => Forall_cons_2 _ _ _ (tree_ind' t) (go ts)
      end) ts)
  end.
End TreeInd.

Fixpoint preorder (t : tree) : list ref :=
  match t with T x ts => x :: (ts ≫= preorder) end.

Definition forest_order (ts : list tree) : list ref := ts ≫= preorder.

Inductive tree_ok (s : shape) : tree -> Prop :=
  | tree_ok_T x ts : ch s x = root <$> ts → Forall (tree_ok s) ts → tree_ok s (T x ts).

Lemma preorder_cons t : preorder t = root t :: tail (preorder t).
Proof. by destruct t. Qed.

(** Two ancestors of a node are comparable. *)
Lemma anc_linear s a b x : anc s a x → anc s b x → anc s a b ∨ anc s b a.
Proof.
  intros Ha. revert b. induction Ha as [x|x y a Hxy Ha IH]; intros b Hb; [by right|].
  inv Hb as [|? y' ? Hy' Hb'].
  - left. by eapply rtc_l.
  - simplify_eq. eauto.
Qed.

Section Trees.
Context (h : heap) (s : shape) (Hwf : wf h s).

Lemma preorder_anc t x : tree_ok s t → x ∈ preorder t → anc s (root t) x.
Proof using Hwf.
  revert x. induction t as [r ts IH] using tree_ind'. intros x Ht Hx.
  inv Ht as [? ? Hc Hts]. cbn [preorder root] in *.
  apply elem_of_cons in Hx as [->|Hx]; [apply rtc_refl|].
  apply list_elem_of_bind in Hx as (t & Hx & Ht).
  rewrite Forall_forall in IH, Hts. unfold anc.
  transitivity (root t); [by apply (IH t); auto|].
  apply rtc_once, (wf_ch _ _ Hwf). rewrite Hc. by apply list_elem_of_fmap_2.
Qed.

Lemma preorder_children t x y : tree_ok s t → x ∈ preorder t → y ∈ ch s x → y ∈ preorder t.
Proof using Hwf.
  induction t as [r ts IH] using tree_ind'. intros Ht Hx Hy.
  inv Ht as [? ? Hc Hts]. cbn [preorder] in *. rewrite Forall_forall in IH, Hts.
  apply elem_of_cons in Hx as [->|Hx]; right.
  - rewrite Hc in Hy. apply list_elem_of_fmap in Hy as (t & -> & Ht).
    apply list_elem_of_bind. exists t. rewrite preorder_cons. split; [set_solver|done].
  - apply list_elem_of_bind in Hx as (t & Hx & Ht). apply list_elem_of_bind.
    exists t. split; [|done]. by apply IH; auto.
Qed.

(** The nodes of the tree are the descendants of its root. *)
Lemma elem_of_preorder t x : tree_ok s t → x ∈ preorder t ↔ anc s (root t) x.
Proof using Hwf.
  intros Ht. split; [by apply preorder_anc|]. intros Ha. unfold anc in Ha.
  remember (root t) as r eqn:Er. induction Ha as [x|x y z Hxy Ha IH].
  - rewrite Er, preorder_cons. set_solver.
  - eapply preorder_children; [done|by apply IH|]. by apply (wf_ch _ _ Hwf).
Qed.

Lemma preorder_NoDup t : tree_ok s t → NoDup (preorder t).
Proof using Hwf.
  induction t as [r ts IH] using tree_ind'. intros Ht. inv Ht as [? ? Hc Hts].
  cbn [preorder]. rewrite Forall_forall in IH, Hts.
  assert (Hpar : ∀ t, t ∈ ts → par s (root t) = Some r).
  { intros t Ht. apply (wf_ch _ _ Hwf). rewrite Hc. by apply list_elem_of_fmap_2. }
  apply NoDup_cons. split.
  - intros (t & Hr & Ht)%list_elem_of_bind.
    apply preorder_anc in Hr; [|auto]. by eapply (anc_self_parent h s (root t) r); auto.
  - pose proof (wf_nodup _ _ Hwf r) as Hn. rewrite Hc in Hn. clear Hc.
    apply NoDup_bind; [|auto|by apply NoDup_fmap_1 in Hn].
    intros t1 t2 y H1 H2 Hy1 Hy2.
    destruct (decide (root t1 = root t2)) as [E|E].
    { clear -Hn H1 H2 E. induction ts as [|t ts IH]; [set_solver|].
      apply NoDup_cons in Hn as [Hn1 Hn]. apply elem_of_cons in H1 as [->|H1], H2 as [->|H2]; try done.
      - destruct Hn1. rewrite E. by apply list_elem_of_fmap_2.
      - destruct Hn1. rewrite <- E. by apply list_elem_of_fmap_2.
      - auto. }
    exfalso. apply preorder_anc in Hy1, Hy2; [|auto..].
    destruct (anc_linear _ _ _ _ Hy1 Hy2) as [Ha|Ha].
    + apply (anc_ne_parent s _ _ r) in Ha; [|auto|done].
      by apply (anc_self_parent h s (root t1) r); auto.
    + apply (anc_ne_parent s _ _ r) in Ha; [|auto|done].
      by apply (anc_self_parent h s (root t2) r); auto.
Qed.

Lemma anc_dom a x : is_Some (h !! x) → anc s a x → is_Some (h !! a).
Proof using Hwf.
  intros Hx. induction 1 as [|x y a Hxy _ IH]; [done|]. apply IH. by apply (wf_dom _ _ Hwf y x).
Qed.

(** Every node has a finite tree below it: a path of ancestors has no
    repetition, so it cannot grow past the number of nodes. *)
Lemma path_size (l : list ref) : NoDup l → (∀ x, x ∈ l → is_Some (h !! x)) → (length l ≤ size h)%nat.
Proof using Type.
  intros Hn Hd. rewrite <- size_dom. rewrite <- (size_list_to_set (C := gset ref)) by done.
  apply subseteq_size. intros x Hx%elem_of_list_to_set. by apply elem_of_dom, Hd.
Qed.

Lemma tree_exists_path n : ∀ r l, NoDup (r :: l) → (∀ x, x ∈ r :: l → is_Some (h !! x)) →
  (∀ a, a ∈ l → anc s a r) → (size h - length l ≤ n)%nat → ∃ t, root t = r ∧ tree_ok s t.
Proof using Hwf.
  induction n as [|n IH]; intros r l Hn Hd Ha Hl; pose proof (path_size _ Hn Hd) as Hs; simpl in Hs; [lia|].
  assert (Hch : ∀ c, c ∈ ch s r → ∃ t, root t = c ∧ tree_ok s t).
  { intros c Hc%(wf_ch _ _ Hwf). apply (IH c (r :: l)); [| | |simpl; lia].
    - apply NoDup_cons. split; [|done]. intros Hin.
      apply (anc_self_parent h s c r Hwf Hc).
      apply elem_of_cons in Hin as [->|Hin]; [apply rtc_refl|auto].
    - intros x [->|Hx]%elem_of_cons; [|auto]. by apply (wf_dom _ _ Hwf r).
    - intros a Hin. apply (anc_parent s a c r Hc).
      apply elem_of_cons in Hin as [->|Hin]; [apply rtc_refl|auto]. }
  assert (∃ ts, ch s r = root <$> ts ∧ Forall (tree_ok s) ts) as (ts & Hts & HF).
  { clear -Hch. induction (ch s r) as [|c cs IHc]; [by exists []|].
    destruct (Hch c) as (t & <- & Ht); [set_solver|].
    destruct IHc as (ts & -> & HF); [intros; apply Hch; set_solver|].
    exists (t :: ts). split; [done|by constructor]. }
  exists (T r ts). split; [done|by constructor].
Qed.

Lemma tree_exists r : is_Some (h !! r) → ∃ t, root t = r ∧ tree_ok s t.
Proof using Hwf.
  intros Hr. apply (tree_exists_path (size h) r []); [apply NoDup_singleton| |set_solver|simpl; lia].
  intros x Hx. apply list_elem_of_singleton in Hx. by subst.
Qed.
End Trees.

(** ** Where the walk goes from a node without children *)
Section Walk.
Context (h : heap) (s : shape) (Hwf : wf h s) (rt : ref).

(** [o] is what the climb from [p] finds: the next sibling of the first
    ancestor below the root that has one. *)
Inductive climb : option ref -> option ref -> Prop :=
  | climb_none : climb None None
  | climb_root : climb (Some rt) None
  | climb_sibling p x : p ≠ rt → sib_next s p = Some x → climb (Some p) (Some x)
  | climb_up p o : p ≠ rt → sib_next s p = None → climb (par s p) o → climb (Some p) o.

(** A pointer followed up to the top. *)
Inductive chain : option ref -> list ref -> Prop :=
  | chain_nil : chain None []
  | chain_cons p l : chain (par s p) l → chain (Some p) (p :: l).

Lemma chain_exists r : is_Some (h !! r) →
  ∃ l, chain (Some r) l ∧ NoDup l ∧ (∀ x, x ∈ l → anc s x r) ∧ (∀ x, x ∈ l → is_Some (h !! x)).
Proof using Hwf.
  induction (wf_acyclic _ _ Hwf r) as [r _ IH]. intros Hr.
  destruct (par s r) as [p|] eqn:Hp; cycle 1.
  { exists [r]. split_and!.
    - constructor. rewrite Hp. constructor.
    - apply NoDup_singleton.
    - intros x ->%list_elem_of_singleton. apply rtc_refl.
    - by intros x ->%list_elem_of_singleton. }
  destruct (IH p Hp) as (l & Hl & Hn & Ha & Hd); [by apply (wf_dom _ _ Hwf p r)|].
  exists (r :: l). split_and!.
  - constructor. by rewrite Hp.
  - apply NoDup_cons. split; [|done]. intros Hin. by apply (anc_self_parent h s r p), Ha.
  - intros x [->|Hx]%elem_of_cons; [apply rtc_refl|]. by eapply anc_parent, Ha.
  - intros x [->|Hx]%elem_of_cons; auto.
Qed.

Lemma walk_up_ok fuel : ∀ p o l, chain p l → (length l ≤ fuel)%nat →
  (∀ x, x ∈ l → is_Some (h !! x)) → climb p o →
  walk_up fuel false p (Some rt) h = Some (o, h).
Proof using Hwf.
  induction fuel as [|f IH]; intros p o l Hc Hl Hd Hcl.
  - inv Hc; [by inv Hcl|simpl in Hl; lia].
  - inv Hc as [|q l' Hc']; [by inv Hcl|]. cbn [walk_up].
    destruct (Hd q) as [qn Eq]; [set_solver|].
    destruct (wf_links _ _ Hwf q qn Eq) as (Hpq & _ & _ & Hnx & _).
    inv Hcl as [| |? x Hne Hs|? ? Hne Hs Hup].
    + by rewrite decide_True.
    + rewrite decide_False by congruence. hstep. by rewrite Hnx, Hs.
    + rewrite decide_False by congruence. hstep. rewrite Hnx, Hs, Hpq.
      apply (IH _ _ l'); [done|simpl in Hl; lia| |done]. intros; apply Hd; set_solver.
Qed.

Lemma walk_leaf r o : is_Some (h !! r) → ch s r = [] → climb (Some r) o →
  walk r (Some rt) false h = Some (o, h).
Proof using Hwf.
  intros Hr Hch Hcl. destruct (chain_exists r Hr) as (l & Hl & Hn & _ & Hd).
  destruct Hr as [n E]. destruct (wf_links _ _ Hwf r n E) as (Hp & Hf & _ & Hnx & _).
  unfold walk. hstep. rewrite Hf, Hch. cbn [head].
  inv Hcl as [| |? x Hne Hs|? ? Hne Hs Hup].
  - by rewrite decide_True.
  - rewrite decide_False by congruence. by rewrite Hnx, Hs.
  - rewrite decide_False by congruence. rewrite Hnx, Hs, Hp.
    rewrite SE_bind_unfold. cbn [gets]. inv Hl as [|? l' Hl'].
    eapply walk_up_ok; [done| | |done].
    + apply NoDup_cons in Hn as [_ Hn]. pose proof (path_size h l' Hn).
      assert (length l' ≤ size h)%nat; [|lia]. apply H. intros; apply Hd; set_solver.
    + intros; apply Hd; set_solver.
Qed.

Lemma walk_first r c : is_Some (h !! r) → head (ch s r) = Some c →
  walk r (Some rt) false h = Some (Some c, h).
Proof using Hwf.
  intros [n E] Hc. destruct (wf_links _ _ Hwf r n E) as (_ & Hf & _).
  unfold walk. hstep. by rewrite Hf, Hc.
Qed.

(** Walking visits the list [l] and then leads to [o]. *)
Fixpoint visits (l : list ref) (o : option ref) : Prop :=
  match l with
  | [] => True
  | x :: l' => walk x (Some rt) false h = Some (match l' with y :: _ => Some y | [] => o end, h)
               ∧ visits l' o
  end.

Lemma visits_app l1 l2 o : l2 ≠ [] → visits l1 (head l2) → visits l2 o → visits (l1 ++ l2) o.
Proof using Type.
  intros Hne. induction l1 as [|x l1 IH]; simpl; [done|]. intros [Hx H1] H2.
  split; [|auto]. rewrite Hx. destruct l1; [by destruct l2|done].
Qed.

Lemma forest_order_cons t ts : forest_order (t :: ts) = preorder t ++ forest_order ts.
Proof using Type. done. Qed.

Lemma visits_forest x ts o : ch s x = root <$> ts → Forall (tree_ok s) ts →
  (∀ t o, t ∈ ts → climb (Some (root t)) o → visits (preorder t) o) →
  (∀ t, t ∈ ts → root t ≠ rt) →
  (ts ≠ [] → climb (Some x) o ∨ (x = rt ∧ o = None)) → visits (forest_order ts) o.
Proof using Hwf.
  intros Hc Hts IH Hrt Ho.
  enough (∀ ts1 ts2, ts = ts1 ++ ts2 → visits (forest_order ts2) o) as Hall by (by apply (Hall [])).
  intros ts1 ts2. revert ts1. induction ts2 as [|t ts2 IH2]; intros ts1 E; [done|].
  assert (t ∈ ts) as Ht by (subst; set_solver).
  assert (Hnx : sib_next s (root t) = head (root <$> ts2)).
  { apply (sib_next_mid s (root t) x (root <$> ts1)).
    - apply (wf_ch _ _ Hwf). rewrite Hc. by apply list_elem_of_fmap_2.
    - by rewrite Hc, E, fmap_app.
    - pose proof (wf_nodup _ _ Hwf x) as Hn. by rewrite Hc, E, fmap_app in Hn. }
  assert (Hpar : par s (root t) = Some x).
  { apply (wf_ch _ _ Hwf). rewrite Hc. by apply list_elem_of_fmap_2. }
  rewrite forest_order_cons. destruct ts2 as [|t2 ts2].
  - cbn. rewrite app_nil_r. apply IH; [done|].
    apply climb_up; [by apply Hrt|done|]. rewrite Hpar.
    destruct (Ho ltac:(by intros ->; destruct ts1)) as [?|[-> ->]]; [done|constructor].
  - apply visits_app.
    + rewrite forest_order_cons, preorder_cons. done.
    + apply IH; [done|]. rewrite forest_order_cons, preorder_cons. cbn [app head].
      apply climb_sibling; [by apply Hrt|]. by rewrite Hnx.
    + apply (IH2 (ts1 ++ [t])). by rewrite <- app_assoc.
Qed.

Lemma visits_tree t o : tree_ok s t → anc s rt (root t) → root t ≠ rt → is_Some (h !! root t) →
  climb (Some (root t)) o → visits (preorder t) o.
Proof using Hwf.
  revert o. induction t as [x ts IH] using tree_ind'. intros o Ht Hanc Hne Hd Hcl.
  inv Ht as [? ? Hc Hts]. cbn [preorder root] in *. rewrite Forall_forall in IH.
  assert (Hchild : ∀ t, t ∈ ts → par s (root t) = Some x).
  { intros t Ht. apply (wf_ch _ _ Hwf). rewrite Hc. by apply list_elem_of_fmap_2. }
  assert (Hrt : ∀ t, t ∈ ts → root t ≠ rt).
  { intros t Ht E. apply (anc_self_parent h s rt x Hwf); [|done]. rewrite <- E. auto. }
  change (visits (x :: forest_order ts) o). destruct ts as [|t ts].
  - split; [|done]. by apply walk_leaf.
  - split.
    + rewrite (walk_first x (root t)); [|done|by rewrite Hc].
      by destruct t.
    + apply (visits_forest x); [done|done| |done|by left].
      intros t' o' Ht' Hcl'. rewrite Forall_forall in Hts. apply IH; auto.
      * by eapply anc_parent; [apply Hchild|].
      * by apply (wf_dom _ _ Hwf x), Hchild.
Qed.

(** From its first child, the walk visits the descendants of the root. *)
Lemma visits_below ts : tree_ok s (T rt ts) → visits (forest_order ts) None.
Proof using Hwf.
  intros Ht. inv Ht as [? ? Hc Hts].
  assert (Hchild : ∀ t, t ∈ ts → par s (root t) = Some rt).
  { intros t Ht. apply (wf_ch _ _ Hwf). rewrite Hc. by apply list_elem_of_fmap_2. }
  assert (Hrt : ∀ t, t ∈ ts → root t ≠ rt).
  { intros t Ht E. apply (acyclic_irrefl _ _ (wf_acyclic _ _ Hwf rt)). rewrite <- E at 1. auto. }
  apply (visits_forest rt); [done|done| |done|by right].
  intros t o Ht Hcl. rewrite Forall_forall in Hts. apply visits_tree; auto.
  - eapply anc_parent; [by apply Hchild|apply rtc_refl].
  - by apply (wf_dom _ _ Hwf rt), Hchild.
Qed.
End Walk.

(** ** The loops over the descendants *)

(** The references of [l] with the nodes they lead to. *)
Definition nodes_of (h : heap) (l : list ref) : list (ref * node) :=
  omap (λ x, (x,.) <$> h !! x) l.

(** The descendants of [r] in document order. *)
Definition descendants (s : shape) (r : ref) (l : list ref) : Prop :=
  ∃ t, root t = r ∧ tree_ok s t ∧ l = tail (preorder t).

Section Visit.
Context (h : heap) (r : ref).

Lemma walk_all_ok {A} (f : A → ref → node → A) l : ∀ fuel acc,
  visits h r l None → (∀ x, x ∈ l → is_Some (h !! x)) → (length l ≤ fuel)%nat →
  walk_all fuel r (head l) f acc h
    = Some (fold_left (λ acc p, f acc p.1 p.2) (nodes_of h l) acc, h).
Proof using Type.
  induction l as [|x l IH]; intros fuel acc Hv Hd Hf; [by destruct fuel|].
  destruct fuel as [|k]; simpl in Hf; [lia|]. destruct Hv as [Hx Hv].
  destruct (Hd x) as [xn Ex]; [set_solver|]. unfold nodes_of.
  cbn [walk_all head omap list_omap]. hstep. rewrite Ex. cbn.
  rewrite (SE_bind_some _ _ _ _ _ Hx). rewrite <- (IH k); [|done|set_solver|lia].
  by destruct l.
Qed.

Lemma isEmpty_loop_ok els l : ∀ fuel,
  visits h r l None → (∀ x, x ∈ l → is_Some (h !! x)) → (length l ≤ fuel)%nat →
  isEmpty_loop fuel r (head l) els h
    = (λ b, (b, h)) <$>
        fold_right (λ p acc, ignorable els p.2 ≫= λ b : bool, if b then acc else Some false)
          (Some true) (nodes_of h l).
Proof using Type.
  induction l as [|x l IH]; intros fuel Hv Hd Hf; [by destruct fuel|].
  destruct fuel as [|k]; simpl in Hf; [lia|]. destruct Hv as [Hx Hv].
  destruct (Hd x) as [xn Ex]; [set_solver|]. unfold nodes_of.
  cbn [isEmpty_loop head omap list_omap]. hstep. rewrite Ex. cbn [fold_right fmap option_fmap option_map].
  unfold oget. rewrite SE_bind_unfold. cbn [snd]. destruct (ignorable els xn) as [[]|]; cbn; [|done|done].
  rewrite (SE_bind_some _ _ _ _ _ Hx). etransitivity; [|apply (IH k); [done|set_solver|lia]].
  by destruct l.
Qed.
End Visit.

Section Descendants.
Context (h : heap) (s : shape) (Hwf : wf h s) (r : ref).

Lemma descendants_elem l x : descendants s r l → x ∈ l ↔ x ≠ r ∧ anc s r x.
Proof using Hwf.
  intros (t & <- & Hok & ->).
  pose proof (preorder_NoDup h s Hwf t Hok) as Hn.
  rewrite <- (elem_of_preorder h s Hwf t x Hok). revert Hn.
  rewrite preorder_cons. cbn [tail]. rewrite NoDup_cons, elem_of_cons.
  set (l := tail _). intros [Hnr _]. split; [|naive_solver].
  intros Hx. split; [|by right]. by intros ->.
Qed.

Lemma descendants_NoDup l : descendants s r l → NoDup (r :: l).
Proof using Hwf.
  intros (t & <- & Hok & ->). rewrite <- preorder_cons. by apply (preorder_NoDup h s Hwf).
Qed.
End Descendants.

Section Loops.
Context (h : heap) (s : shape) (Hwf : wf h s) (r : ref) (n : node) (Hr : h !! r = Some n).

Lemma descendants_exists : ∃ l, descendants s r l.
Proof using Hwf Hr.
  destruct (tree_exists h s Hwf r) as (t & Ht & Hok); [by eexists|]. by exists (tail (preorder t)), t.
Qed.

Lemma descendants_dom l x : descendants s r l → x ∈ l → is_Some (h !! x).
Proof using Hwf Hr.
  intros Hl [Hne Ha]%(descendants_elem h s Hwf r l x Hl). unfold anc in Ha.
  inv Ha. by eapply (wf_dom _ _ Hwf _ x).
Qed.

Lemma descendants_size l : descendants s r l → (length l < size h)%nat.
Proof using Hwf Hr.
  intros Hl. apply (path_size h (r :: l)); [by apply (descendants_NoDup h s)|].
  intros x [->|Hx]%elem_of_cons; [by eexists|by eapply descendants_dom].
Qed.

Lemma descendants_first l : descendants s r l → firstChild n = head l.
Proof using Hwf Hr.
  intros (t & <- & Hok & ->). destruct (wf_links _ _ Hwf _ _ Hr) as (_ & -> & _).
  destruct Hok as [x ts Hc _]. cbn [root] in *. rewrite Hc. by destruct ts as [|[]].
Qed.

Lemma descendants_visits l : descendants s r l → visits h r l None.
Proof using Hwf Hr.
  intros ([x ts] & <- & Hok & ->). by apply (visits_below h s Hwf x ts).
Qed.

Lemma walk_children_ok {A} (f : A → ref → node → A) l acc : descendants s r l →
  walk_children r f acc h = Some (fold_left (λ acc p, f acc p.1 p.2) (nodes_of h l) acc, h).
Proof using Hwf Hr.
  intros Hl. unfold walk_children. hstep. rewrite (descendants_first l Hl).
  apply walk_all_ok.
  - by apply descendants_visits.
  - intros x Hx. by eapply descendants_dom.
  - pose proof (descendants_size l Hl). lia.
Qed.
End Loops.

Lemma filter_true {A} (l : list A) : List.filter (λ _, true) l = l.
Proof. induction l as [|x l IH]; cbn; [done|]. by rewrite IH. Qed.

Lemma nodes_of_cons h x n l : h !! x = Some n → nodes_of h (x :: l) = (x, n) :: nodes_of h l.
Proof. intros E. unfold nodes_of. cbn. by rewrite E. Qed.

Lemma nodes_of_fst h l : (∀ x, x ∈ l → is_Some (h !! x)) → (nodes_of h l).*1 = l.
Proof.
  induction l as [|x l IH]; intros Hd; [done|]. destruct (Hd x) as [n E]; [set_solver|].
  rewrite (nodes_of_cons h x n l E). cbn. by rewrite IH by set_solver.
Qed.

Lemma fold_collect {A B} (f : A → bool) (g : A → B) (l : list A) acc :
  fold_left (λ acc x, if f x then acc ++ [g x] else acc) l acc = acc ++ (g <$> List.filter f l).
Proof.
  revert acc. induction l as [|x l IH]; intros acc; cbn; [by rewrite app_nil_r|].
  rewrite IH. destruct (f x); [|done]. cbn. by rewrite <- app_assoc.
Qed.

(** ** getAll *)

(** [getAll(name)] returns the descendants of the node that carry the name, each
    once and in document order, and changes nothing; on a well-formed tree it
    always returns. *)
Theorem getAll_ok h s self n nm : wf h s → h !! self = Some n →
  ∃ l, descendants s self l
    ∧ getAll self nm h
      = Some ((List.filter (λ p, str_eqb (name p.2) nm) (nodes_of h l)).*1, h).
Proof.
  intros Hwf Hr. destruct (descendants_exists h s Hwf self n Hr) as (l & Hl).
  exists l. split; [done|]. unfold getAll. rewrite (walk_children_ok h s Hwf self n Hr _ l _ Hl).
  by rewrite (fold_collect (λ p, str_eqb (name p.2) nm) fst).
Qed.

(** ** isEmpty *)

(** [isEmpty(elements)] is true exactly when every descendant is
    ignorable: white text, or a bogus or plain element that is not in the map and
    has neither a name nor a data-mce attribute; a comment or any other text makes it
    false, the nodes behind a decisive one are not looked at, and nothing
    changes. *)
Lemma isEmpty_spec h s self n els : wf h s → h !! self = Some n →
  ∃ l, descendants s self l
    ∧ isEmpty self els h
      = (λ b, (b, h)) <$>
          fold_right (λ p acc, ignorable els p.2 ≫= λ b : bool, if b then acc else Some false)
            (Some true) (nodes_of h l).
Proof.
  intros Hwf Hr. destruct (descendants_exists h s Hwf self n Hr) as (l & Hl).
  exists l. split; [done|]. unfold isEmpty. hstep. rewrite (descendants_first h s Hwf self n Hr l Hl).
  unfold gets. rewrite SE_bind_unfold. apply isEmpty_loop_ok.
  - by apply (descendants_visits h s Hwf self n Hr).
  - intros x Hx. by eapply (descendants_dom h s Hwf self n Hr).
  - pose proof (descendants_size h s Hwf self n Hr l Hl). lia.
Qed.

(** ** empty *)
Definition cleared (l : list ref) (r : ref) (s : shape) : shape :=
  Shape (λ x, if decide (x ∈ r :: l) then [] else ch s x)
        (λ x, if decide (x ∈ l) then None else par s x).

Lemma clear_all_ok l : ∀ h : heap, (∀ x, x ∈ l → is_Some (h !! x)) →
  ∃ h' : heap, clear_all l h = Some (tt, h')
    ∧ ∀ x, h' !! x = if decide (x ∈ l) then clear_links <$> h !! x else h !! x.
Proof.
  induction l as [|x l IH]; intros h Hd; cbn [clear_all]; [by exists h|].
  destruct (IH h) as (h1 & E1 & H1); [set_solver|].
  destruct (Hd x) as [xn Ex]; [set_solver|].
  assert (∃ n1, h1 !! x = Some n1 ∧ clear_links n1 = clear_links xn) as (n1 & En1 & Hc).
  { specialize (H1 x). rewrite Ex in H1. case_decide; by eexists. }
  exists (<[x:=clear_links n1]> h1). rewrite (SE_bind_some _ _ _ _ _ E1). unfold upd. rewrite En1.
  split; [done|]. intros y. destruct (decide (y = x)) as [->|].
  - rewrite lookup_insert_eq, decide_True by set_solver. by rewrite Ex, Hc.
  - rewrite lookup_insert_ne, H1 by done.
    destruct (decide (y ∈ l)), (decide (y ∈ x :: l)); set_solver.
Qed.

Section Cleared.
Context (h : heap) (s : shape) (Hwf : wf h s) (r : ref) (l : list ref) (Hl : descendants s r l).

(** The nodes below the root hang below it. *)
Lemma cleared_below x y : par s x = Some y → x ∈ l ↔ y ∈ r :: l.
Proof using Hwf Hl.
  intros Hp. rewrite elem_of_cons, !(descendants_elem h s Hwf r l) by done. split.
  - intros [Hx Ha]. destruct (decide (y = r)); [by left|right]. split; [done|].
    unfold anc in *. inv Ha. by simplify_eq.
  - intros Hy. assert (anc s r y) as Ha by (destruct Hy as [->|[]]; [apply rtc_refl|done]).
    split; [|by eapply anc_parent]. intros ->. by apply (anc_self_parent h s r y).
Qed.

Lemma cleared_wf (h' : heap) :
  (∀ x, is_Some (h !! x) → is_Some (h' !! x)) →
  (∀ x n, h' !! x = Some n → links_ok (cleared l r s) x n) →
  wf h' (cleared l r s).
Proof using Hwf Hl.
  intros Hd Hk. constructor; [| | | |done]; cbn.
  - intros p c. destruct (decide (p ∈ r :: l)) as [Hp|Hp].
    + split; [set_solver|]. destruct (decide (c ∈ l)) as [|Hc]; [done|].
      intros E. by rewrite (cleared_below c p E) in Hc.
    + rewrite (wf_ch _ _ Hwf). split; [|by destruct (decide _)].
      intros E. rewrite decide_False; [done|]. by rewrite (cleared_below c p E).
  - intros p. destruct (decide _); [constructor|apply (wf_nodup _ _ Hwf)].
  - intros c. induction (wf_acyclic _ _ Hwf c) as [c _ IH]. constructor. intros p Hp.
    apply IH. unfold parent_of in *. cbn in Hp. by destruct (decide _).
  - intros p c E. destruct (decide _); [done|].
    destruct (wf_dom _ _ Hwf p c E). auto.
Qed.

Lemma cleared_links x m :
  (if decide (x = r) then ∃ n, h !! r = Some n ∧ m = set_firstChild None (set_lastChild None n)
   else if decide (x ∈ l) then ∃ n, h !! x = Some n ∧ m = clear_links n
   else h !! x = Some m) → links_ok (cleared l r s) x m.
Proof using Hwf Hl.
  assert (∀ y, y ∉ l → sib_next (cleared l r s) y = sib_next s y
                     ∧ sib_prev (cleared l r s) y = sib_prev s y) as Hsib.
  { intros y Hy. unfold sib_next, sib_prev. cbn. rewrite decide_False by done.
    destruct (par s y) as [p|] eqn:E; [|done]. cbn.
    rewrite decide_False; [done|]. by rewrite <- (cleared_below y p E). }
  assert (r ∉ l) as Hr by (rewrite (descendants_elem h s Hwf r l r Hl); naive_solver).
  destruct (decide (x = r)) as [->|Hxr]; [|destruct (decide (x ∈ l)) as [Hx|Hx]].
  - intros (n & E & ->). destruct (wf_links _ _ Hwf _ _ E) as (Hp & _ & _ & Hnx & Hpv).
    unfold links_ok. destruct (Hsib r Hr) as [-> ->]. cbn [cleared ch par].
    rewrite (decide_True (P := r ∈ r :: l)) by set_solver.
    by rewrite (decide_False (P := r ∈ l)).
  - intros (n & E & ->). unfold links_ok, sib_next, sib_prev. cbn [cleared ch par].
    by rewrite (decide_True (P := x ∈ r :: l)), !(decide_True (P := x ∈ l)) by set_solver.
  - intros (Hp & Hf & Hla & Hnx & Hpv)%(wf_links _ _ Hwf). unfold links_ok.
    destruct (Hsib x Hx) as [-> ->]. cbn [cleared ch par].
    by rewrite (decide_False (P := x ∈ r :: l)), !(decide_False (P := x ∈ l)) by set_solver.
Qed.
End Cleared.

Lemma empty_run h s self n l : wf h s → h !! self = Some n → descendants s self l →
  ∃ h' : heap, empty self h = Some (self, h')
    ∧ h' !! self = Some (set_firstChild None (set_lastChild None n))
    ∧ ∀ x, x ≠ self → h' !! x = if decide (x ∈ l) then clear_links <$> h !! x else h !! x.
Proof.
  intros Hwf Hr Hl.
  assert (∀ x, x ∈ l → is_Some (h !! x)) as Hd by (intros; by eapply descendants_dom).
  destruct (clear_all_ok l h Hd) as (h1 & E1 & H1).
  assert (self ∉ l) as Hself.
  { pose proof (descendants_NoDup h s Hwf self l Hl) as Hn. by apply NoDup_cons in Hn as [? _]. }
  exists (<[self:=set_firstChild None (set_lastChild None n)]> h1).
  assert (h1 !! self = Some n) as Hs1 by (by rewrite H1, decide_False).
  split_and!; [|by rewrite lookup_insert_eq|intros; by rewrite lookup_insert_ne, H1 by done].
  unfold empty. hstep. pose proof (descendants_first h s Hwf self n Hr l Hl) as Hf.
  destruct (firstChild n) as [c|].
  - rewrite SE_bind_assoc.
    rewrite (SE_bind_some _ _ h l h).
    2: { rewrite (walk_children_ok h s Hwf self n Hr _ l _ Hl). f_equal. f_equal.
         pose proof (fold_collect (λ _ : ref * node, true) fst (nodes_of h l) []) as Hc.
         rewrite filter_true, (nodes_of_fst h l Hd) in Hc. exact Hc. }
    rewrite (SE_bind_some _ _ _ _ _ E1). by hstep.
  - destruct l; [|done]. cbn in E1. injection E1 as <-. hstep. by hstep.
Qed.

(** [empty()] leaves the node without children and every former
    descendant on its own, without parent, siblings or children; the rest of
    the tree and the data of all nodes are untouched, and the tree stays well formed. *)
Lemma empty_spec h s self n : wf h s → h !! self = Some n →
  ∃ l h', descendants s self l ∧ empty self h = Some (self, h')
    ∧ wf h' (cleared l self s) ∧ same_payload h h'.
Proof.
  intros Hwf Hr. destruct (descendants_exists h s Hwf self n Hr) as (l & Hl).
  destruct (empty_run h s self n l Hwf Hr Hl) as (h' & E & Hs & Hx).
  assert (self ∉ l) as Hself.
  { pose proof (descendants_NoDup h s Hwf self l Hl) as Hn. by apply NoDup_cons in Hn as [? _]. }
  exists l, h'. split_and!; [done|done| |].
  - apply (cleared_wf h s Hwf self l Hl).
    + intros x Hd. destruct (decide (x = self)) as [->|]; [by rewrite Hs|].
      rewrite Hx by done. case_decide; [by apply fmap_is_Some|done].
    + intros x m Hm. apply (cleared_links h s Hwf self l Hl). destruct (decide (x = self)) as [->|].
      * rewrite Hs in Hm. naive_solver.
      * rewrite Hx in Hm by done.
        case_decide; [|done]. destruct (h !! x); naive_solver.
  - intros x. destruct (decide (x = self)) as [->|]; [by rewrite Hs, Hr|].
    rewrite Hx by done. case_decide; [|done]. by destruct (h !! x).
Qed.

