(* ===== verification/NodeAttrs.v ===== *)
(** * Node attributes: the list, its map and copies

    An attribute set is kept twice: as the ordered list the serializer writes and
    as the object [attributes.map] lookups use.  [attrs_ok] says the two
    agree; [attr] and [clone] keep it for the names no object
    inherits, and an inherited name breaks it. *)

From S2P Require Import Prelude Node NodeFacts.

(** The map has the pairs of the list in its order and no name twice. *)
Definition attrs_ok (a : attrs) : Prop := amap a = alist a ∧ NoDup (Obj.keys (alist a)).

Lemma str_eqb_sym s1 s2 : str_eqb s1 s2 = str_eqb s2 s1.
Proof. unfold str_eqb. apply bool_decide_ext. naive_solver. Qed.

(** With distinct names, counting down finds the only entry. *)
Lemma remove_last_notin nm l : nm ∉ Obj.keys l → remove_last nm l = (l, false).
Proof.
  induction l as [|[k v] l IH]; cbn; [done|]. intros [Hne Hn]%not_elem_of_cons.
  rewrite IH by done. by rewrite (proj2 (str_eqb_false k nm)).
Qed.

Lemma remove_last_delete nm l : NoDup (Obj.keys l) → (remove_last nm l).1 = Obj.delete nm l.
Proof.
  induction l as [|[k v] l IH]; cbn; [done|]. intros [Hn Hd]%NoDup_cons.
  specialize (IH Hd). rewrite (str_eqb_sym nm k). destruct (str_eqb k nm) eqn:E.
  - apply str_eqb_true in E as ->. rewrite remove_last_notin in * by done. by cbn in *.
  - destruct (remove_last nm l) as [r []]; cbn in *; by subst.
Qed.

Lemma update_last_notin nm v l : nm ∉ Obj.keys l → update_last nm v l = (l, false).
Proof.
  induction l as [|[k w] l IH]; cbn; [done|]. intros [Hne Hn]%not_elem_of_cons.
  rewrite IH by done. by rewrite (proj2 (str_eqb_false k nm)).
Qed.

Lemma update_last_set nm v l : NoDup (Obj.keys l) → nm ∈ Obj.keys l →
  (update_last nm v l).1 = Obj.set nm v l.
Proof.
  induction l as [|[k w] l IH]; cbn; [set_solver|]. intros [Hn Hd]%NoDup_cons Hin.
  specialize (IH Hd). rewrite (str_eqb_sym nm k). destruct (str_eqb k nm) eqn:E.
  - apply str_eqb_true in E as ->. by rewrite update_last_notin.
  - apply str_eqb_false in E. apply elem_of_cons in Hin as [?|Hin]; [done|]. specialize (IH Hin).
    destruct (update_last nm v l) as [r []]; cbn in *; by subst.
Qed.

(** ** attr on the attribute set *)

(** What [attr] promises of an attribute set: the three forms are the lookup,
    the removal and the update of one ordered map. *)
Definition attr_spec (nm : jstr) (v : attr_arg) (l : list (jstr * jstr)) : list (jstr * jstr) * attr_res :=
  match v with
  | ArgUndefined => (l, match Obj.get nm l with Some v => ResVal v | None => ResUndefined end)
  | ArgNull => (Obj.delete nm l, ResSelf)
  | ArgVal v => (Obj.set nm v l, ResSelf)
  end.

Lemma Obj_delete_notin {V} k (l : Obj.t V) : Obj.get k l = None → Obj.delete k l = l.
Proof.
  induction l as [|[k' v] l IH]; cbn; [done|]. destruct (str_eqb k k'); [done|]. intros. by rewrite IH.
Qed.

Lemma attr_attrs_refines nm v a : attrs_ok a → Obj.is_proto nm = false →
  attr_attrs nm v a
    = (Attrs (attr_spec nm v (alist a)).1 (attr_spec nm v (alist a)).1, (attr_spec nm v (alist a)).2).
Proof.
  intros [E Hn] Hp. destruct a as [l m]; cbn in *; subst m.
  destruct v as [| |v]; cbn; unfold Obj.has; rewrite ?Hp; [done| |].
  - destruct (Obj.get nm l) eqn:G; [by rewrite remove_last_delete|].
    by rewrite Obj_delete_notin.
  - destruct (Obj.get nm l) eqn:G.
    + rewrite update_last_set; [done|done|]. apply Obj.get_elem_keys. by eexists.
    + by rewrite Obj.keys_set_new.
Qed.

Lemma attr_spec_NoDup nm v l : NoDup (Obj.keys l) → NoDup (Obj.keys (attr_spec nm v l).1).
Proof. destruct v; [done|apply Obj.keys_NoDup_delete|apply Obj.keys_NoDup_set]. Qed.

(** For a name no object inherits, [node.attr(name, value)] on an element
    whose attribute list and map agree reads, removes (null) or writes the attribute
    in both, a new one last and an old one in its place, and list and map agree
    again; nothing else of the store changes. *)
Theorem attr_ok h self n a nm v : h !! self = Some n → attributes n = Some a → attrs_ok a →
  Obj.is_proto nm = false →
  ∃ a', attr self nm v h
      = Some ((attr_spec nm v (alist a)).2, <[self := set_attributes (Some a') n]> h)
    ∧ alist a' = (attr_spec nm v (alist a)).1 ∧ attrs_ok a'.
Proof.
  intros Hs Ha Hok Hp. eexists. split_and!.
  - unfold attr. hstep. rewrite Ha, attr_attrs_refines by done. by hstep.
  - done.
  - split; [done|]. apply attr_spec_NoDup, Hok.
Qed.

(** An inherited name such as constructor is in every map, so setting it the
    first time changes the map and leaves the list, the one the serializer writes, alone. *)
Theorem attr_inherited_name (a : attrs) nm v : Obj.is_proto nm = true → attrs_ok a →
  nm ∉ Obj.keys (alist a) →
  alist (attr_attrs nm (ArgVal v) a).1 = alist a
  ∧ (attr_attrs nm ArgUndefined (attr_attrs nm (ArgVal v) a).1).2 = ResVal v.
Proof.
  intros Hp [E Hn] Hnot. cbn. unfold Obj.has. rewrite E, Obj.get_set_eq.
  rewrite (proj2 (Obj.get_None_keys _ _) Hnot), Hp. by rewrite update_last_notin.
Qed.

(** ** clone *)
Lemma fold_set_fresh {V} (l : list (jstr * V)) : ∀ acc, NoDup (Obj.keys (acc ++ l)) →
  fold_left (λ m p, Obj.set p.1 p.2 m) l acc = acc ++ l.
Proof.
  induction l as [|[k v] l IH]; intros acc Hn; cbn; [by rewrite app_nil_r|].
  assert (k ∉ Obj.keys acc) as Hk.
  { unfold Obj.keys in Hn. rewrite fmap_app in Hn. apply NoDup_app in Hn as (_ & Hd & _).
    intros Hin. by apply (Hd k Hin), list_elem_of_here. }
  rewrite Obj.keys_set_new by (by apply Obj.get_None_keys).
  rewrite IH; by rewrite <- app_assoc.
Qed.

Lemma keys_filter_NoDup {V} (f : jstr * V → bool) (l : list (jstr * V)) :
  NoDup (Obj.keys l) → NoDup (Obj.keys (List.filter f l)).
Proof.
  induction l as [|p l IH]; cbn; [done|]. intros [Hn Hd]%NoDup_cons.
  destruct (f p); [|auto]. cbn. apply NoDup_cons. split; [|auto]. intros Hin. apply Hn.
  apply list_elem_of_fmap in Hin as (q & -> & Hq). apply list_elem_of_fmap_2.
  apply list_elem_of_In, filter_In in Hq as [Hq _]. by apply list_elem_of_In.
Qed.

(** A clone is a new node on its own, without parent, siblings or
    children; it has the name, type, value and shortEnded flag of the original and its
    attributes but the ids, list and map in agreement. *)
Theorem clone_ok h self n a : h !! self = Some n → attributes n = Some a → attrs_ok a →
  ∃ c cn ca, clone self h = Some (c, <[c := cn]> h) ∧ h !! c = None
    ∧ clear_links cn = cn ∧ name cn = name n ∧ type cn = type n ∧ value cn = value n
    ∧ shortEnded cn = shortEnded n ∧ attributes cn = Some ca ∧ attrs_ok ca
    ∧ ∀ p, p ∈ alist ca ↔ p ∈ alist a ∧ p.1 ≠ js "id".
Proof.
  intros Hs Ha [E Hn]. eexists _, (clone_node n), (clone_attrs a). split_and!.
  - unfold clone. hstep. unfold alloc. reflexivity.
  - by apply not_elem_of_dom, is_fresh.
  - done.
  - done.
  - done.
  - done.
  - done.
  - unfold clone_node. by rewrite Ha.
  - split; cbn.
    + rewrite fold_set_fresh; [done|]. by apply keys_filter_NoDup.
    + by apply keys_filter_NoDup.
  - intros p. cbn. rewrite !list_elem_of_In, filter_In, negb_true_iff, str_eqb_false. done.
Qed.
