(* ===== verification/NodeSample.v ===== *)
(** * A concrete node tree

    The fragment [<p>a<b>x</b><i></i></p>] next to a loose node, on which
    the theorems about the node operations are instantiated. *)

From S2P Require Import Prelude Node NodeFacts NodeMoves NodeWalk NodeAttrs.

(** 0 is p, 1 the text a, 2 is b, 3 is i, 4 the text x, 5 a loose br. *)
Definition sample_shape : shape :=
  Shape (λ r, match r with 0 => [1; 2; 3] | 2 => [4] | _ => [] end)%nat
        (λ r, match r with 1 | 2 | 3 => Some 0 | 4 => Some 2 | _ => None end)%nat.

Definition sample_nodes : list (ref * node) :=
  [(0%nat, set_attributes (Some (Attrs [(js "id", js "p1"); (js "class", js "c")]
                                       [(js "id", js "p1"); (js "class", js "c")]))
             (new_node (js "p") (TNum 1)));
   (1%nat, set_value (Some (js "a")) (new_node (js "#text") (TNum 3)));
   (2%nat, new_node (js "b") (TNum 1));
   (3%nat, new_node (js "i") (TNum 1));
   (4%nat, set_value (Some (js "x")) (new_node (js "#text") (TNum 3)));
   (5%nat, new_node (js "br") (TNum 1))].

Definition sample_heap : heap :=
  list_to_map ((λ p, (p.1, relink_node sample_shape p.1 p.2)) <$> sample_nodes).

Lemma sample_dom r : (r < 6)%nat → is_Some (sample_heap !! r).
Proof. intros. do 6 (destruct r as [|r]; [by eexists|]). lia. Qed.

Lemma sample_par c p : par sample_shape c = Some p → (p < c ∧ c < 6)%nat.
Proof. do 6 (destruct c as [|c]; [cbn; intros; simplify_eq; lia|]). done. Qed.

Lemma sample_wf : wf sample_heap sample_shape.
Proof.
  constructor.
  - intros p c. do 6 (destruct p as [|p];
      [do 6 (destruct c as [|c]; [cbn; set_solver|]); cbn; set_solver|]).
    cbn. split; [set_solver|]. intros Hp%sample_par. lia.
  - intros p. do 6 (destruct p as [|p]; [cbn; apply (bool_decide_unpack _); by vm_compute|]). constructor.
  - intros c. induction (lt_wf c) as [c _ IH]. constructor. intros p Hp. apply IH.
    by apply sample_par in Hp as [? _].
  - intros p c Hp%sample_par. split; apply sample_dom; lia.
  - intros r n Hr. unfold sample_heap in Hr. apply elem_of_list_to_map_2 in Hr.
    apply list_elem_of_fmap in Hr as ([x m] & [= -> ->] & _). unfold links_ok. auto.
Qed.

Lemma sample_top r : par sample_shape r = None → ∀ a, anc sample_shape a r → a = r.
Proof. intros Hr a Ha. unfold anc in Ha. inv Ha; congruence. Qed.

Lemma sample_detached : detach 5%nat sample_shape = sample_shape.
Proof. done. Qed.

(** ** The theorems at this tree *)

Lemma unwrap_ok_witness : ∃ h' s', unwrap 2%nat sample_heap = Some (tt, h') ∧
  same_payload sample_heap h' ∧ wf h' s' ∧ ch s' 0%nat = [1; 4; 3]%nat
  ∧ ch s' 2%nat = [] ∧ par s' 2%nat = None
  ∧ (∀ q, q ≠ 0%nat → q ≠ 2%nat → ch s' q = ch sample_shape q).
Proof. exact (unwrap_ok _ _ 2%nat 0%nat [1%nat] [3%nat] sample_wf eq_refl eq_refl). Defined.

Lemma replace_ok_witness : ∃ h' s', replace 2%nat 5%nat sample_heap = Some (2%nat, h') ∧
  same_payload sample_heap h' ∧ wf h' s' ∧ ch s' 0%nat = [1; 5; 3]%nat ∧ par s' 2%nat = None
  ∧ ch s' 2%nat = [4]%nat
  ∧ (∀ q, q ≠ 0%nat → ch s' q = ch (detach 5%nat sample_shape) q).
Proof.
  apply (replace_ok _ _ 2%nat 5%nat 0%nat [1%nat] [3%nat] sample_wf).
  - by apply sample_dom; lia.
  - done.
  - done.
  - intros Ha. by apply sample_top in Ha.
  - done.
Defined.

Lemma wrap_ok_witness : ∃ h' s', wrap 2%nat 5%nat sample_heap = Some (2%nat, h') ∧
  same_payload sample_heap h' ∧ wf h' s' ∧ ch s' 0%nat = [1; 5; 3]%nat ∧ ch s' 5%nat = [2]%nat
  ∧ (∀ q, q ≠ 0%nat → q ≠ 5%nat → ch s' q = ch (detach 5%nat sample_shape) q).
Proof.
  apply (wrap_ok _ _ 2%nat 5%nat 0%nat [1%nat] [3%nat] sample_wf).
  - by apply sample_dom; lia.
  - done.
  - done.
  - intros Ha. by apply sample_top in Ha.
  - intros Ha. by apply sample_top in Ha.
  - done.
Defined.

Lemma getAll_ok_witness : ∃ l, descendants sample_shape 0%nat l
  ∧ getAll 0%nat (js "b") sample_heap
    = Some ((List.filter (λ p, str_eqb (name p.2) (js "b")) (nodes_of sample_heap l)).*1, sample_heap).
Proof. eapply (getAll_ok _ _ 0%nat); [exact sample_wf|reflexivity]. Defined.

Lemma sample_attrs_ok :
  attrs_ok (Attrs [(js "id", js "p1"); (js "class", js "c")] [(js "id", js "p1"); (js "class", js "c")]).
Proof. split; [done|]. apply (bool_decide_unpack _). by vm_compute. Qed.

Lemma attr_ok_witness : ∃ a' n, attr 0%nat (js "class") (ArgVal (js "d")) sample_heap
    = Some (ResSelf, <[0%nat := set_attributes (Some a') n]> sample_heap)
  ∧ alist a' = [(js "id", js "p1"); (js "class", js "d")] ∧ attrs_ok a'.
Proof.
  edestruct (attr_ok sample_heap 0%nat) as (a' & E & Ha & Hok);
    [reflexivity|reflexivity|exact sample_attrs_ok| |eexists _, _; split_and!; [exact E|exact Ha|exact Hok]].
  by vm_compute.
Defined.

Lemma attr_inherited_name_witness :
  alist (attr_attrs (js "constructor") (ArgVal (js "v")) (Attrs [] [])).1 = []
  ∧ (attr_attrs (js "constructor") ArgUndefined
       (attr_attrs (js "constructor") (ArgVal (js "v")) (Attrs [] [])).1).2 = ResVal (js "v").
Proof.
  apply (attr_inherited_name (Attrs [] []) (js "constructor") (js "v")).
  - by vm_compute.
  - split; [done|constructor].
  - set_solver.
Defined.

Lemma clone_ok_witness : ∃ c cn ca, clone 0%nat sample_heap = Some (c, <[c := cn]> sample_heap)
  ∧ sample_heap !! c = None
  ∧ clear_links cn = cn ∧ name cn = js "p" ∧ type cn = TNum 1 ∧ value cn = None
  ∧ shortEnded cn = false ∧ attributes cn = Some ca ∧ attrs_ok ca
  ∧ ∀ p, p ∈ alist ca ↔ p ∈ [(js "id", js "p1"); (js "class", js "c")] ∧ p.1 ≠ js "id".
Proof.
  exact (clone_ok sample_heap 0%nat (default (new_node [] TFun) (sample_heap !! 0%nat)) _
    eq_refl eq_refl sample_attrs_ok).
Defined.
