(* ===== verification/Writer.v ===== *)
(** * classes/html/Writer.js

    The writer collects pieces of HTML in an array.  Its settings are fixed
    when it is made; the array [html] is the state each method extends. *)

From S2P Require Import Prelude Tools Entities.

(** The settings object; [None] is an option that is not given. *)
Record settings := MkSettings {
  set_indent : bool;
  set_indent_before : jstr;
  set_indent_after : jstr;
  set_entity_encoding : jstr;
  set_entities : jstr;
  set_element_format : jstr
}.

(** The variables the constructor computes. *)
Record writer := MkWriter {
  indent : bool;
  indentBefore : Obj.t unit;
  indentAfter : Obj.t unit;
  encode : jstr -> bool -> jstr;
  htmlOutput : bool
}.

Definition comma : Z := 44.

Definition new_writer (st : settings) : writer :=
  MkWriter (set_indent st)
    (makeMap (set_indent_before st) comma []) (makeMap (set_indent_after st) comma [])
    (getEncodeFunc (if truthy (set_entity_encoding st) then set_entity_encoding st else js "raw")
       (set_entities st))
    (str_eqb (set_element_format st) (js "html")).

Definition newline : jstr := [10].

(** [if (value.length > 0 && value !== newline) html.push(newline)] with the
    last piece as [value], for a non-empty array. *)
Definition break_line (html : list jstr) : list jstr :=
  match last html with
  | Some value => if truthy value && negb (str_eqb value newline) then html ++ [newline] else html
  | None => html
  end.

Section Writer.
Context (w : writer).

(** The pieces of one attribute. *)
Definition attr_pieces (attr : jstr * jstr) : list jstr :=
  [js " "; attr.1; [61; 34]; encode w attr.2 true; [34]].

Definition start (name : jstr) (attrs : option (list (jstr * jstr))) (empty : bool)
    (html : list jstr) : list jstr :=
  let html := if indent w && Obj.has name (indentBefore w) then break_line html else html in
  let html := html ++ [js "<"; name] in
  let html := match attrs with
              | Some attrs => fold_left (λ html attr, html ++ attr_pieces attr) attrs html
              | None => html
              end in
  let html := if negb empty || htmlOutput w then html ++ [js ">"] else html ++ [js " />"] in
  if empty && indent w && Obj.has name (indentAfter w) then break_line html else html.

Definition end_ (name : jstr) (html : list jstr) : list jstr :=
  let html := html ++ [js "</"; name; js ">"] in
  if indent w && Obj.has name (indentAfter w) then break_line html else html.

Definition text (t : jstr) (raw : bool) (html : list jstr) : list jstr :=
  if truthy t then html ++ [if raw then t else encode w t false] else html.

(** An [undefined] text joins as the empty string. *)
Definition cdata (t : option jstr) (html : list jstr) : list jstr :=
  html ++ [js "<![CDATA["; default [] t; js "]]>"].

Definition comment (t : option jstr) (html : list jstr) : list jstr :=
  html ++ [js "<!--"; default [] t; js "-->"].

Definition pi (name : jstr) (t : option jstr) (html : list jstr) : list jstr :=
  let html := if truthy (default [] t) then html ++ [js "<?"; name; js " "; default [] t; js "?>"]
              else html ++ [js "<?"; name; js "?>"] in
  if indent w then html ++ [newline] else html.

Definition doctype (t : option jstr) (html : list jstr) : list jstr :=
  html ++ [js "<!DOCTYPE"; default [] t; js ">"; if indent w then newline else []].

Definition reset (html : list jstr) : list jstr := [].
End Writer.

(** [html.join('').replace(/\n$/, '')] *)
Definition getContent (html : list jstr) : jstr :=
  let s := concat html in
  match last s with
  | Some 10 => take (length s - 1) s
  | _ => s
  end.

(** ** The calls as data *)
Inductive event :=
  | EStart (name : jstr) (attrs : option (list (jstr * jstr))) (empty : bool)
  | EEnd (name : jstr)
  | EText (t : jstr) (raw : bool)
  | ECdata (t : option jstr)
  | EComment (t : option jstr)
  | EPi (name : jstr) (t : option jstr)
  | EDoctype (t : option jstr).

Definition write (w : writer) (e : event) (html : list jstr) : list jstr :=
  match e with
  | EStart name attrs empty => start w name attrs empty html
  | EEnd name => end_ w name html
  | EText t raw => text w t raw html
  | ECdata t => cdata t html
  | EComment t => comment t html
  | EPi name t => pi w name t html
  | EDoctype t => doctype w t html
  end.

Definition write_all (w : writer) (es : list event) (html : list jstr) : list jstr :=
  fold_left (λ html e, write w e html) es html.

(** ** What the pieces add up to *)

(** The text of one call without line breaks. *)
Definition plain (w : writer) (e : event) : jstr :=
  match e with
  | EStart name attrs empty =>
      js "<" ++ name ++ concat ((λ a, concat (attr_pieces w a)) <$> default [] attrs)
        ++ (if negb empty || htmlOutput w then js ">" else js " />")
  | EEnd name => js "</" ++ name ++ js ">"
  | EText t raw => if truthy t then (if raw then t else encode w t false) else []
  | ECdata t => js "<![CDATA[" ++ default [] t ++ js "]]>"
  | EComment t => js "<!--" ++ default [] t ++ js "-->"
  | EPi name t => if truthy (default [] t) then js "<?" ++ name ++ js " " ++ default [] t ++ js "?>"
                  else js "<?" ++ name ++ js "?>"
  | EDoctype t => js "<!DOCTYPE" ++ default [] t ++ js ">"
  end.

(** [balanced stack es]: the calls close every element they open, starting
    inside the elements of [stack] and ending inside the same. *)
Fixpoint balanced (stack : list jstr) (es : list event) : option (list jstr) :=
  match es with
  | [] => Some stack
  | EStart nm _ false :: es => balanced (nm :: stack) es
  | EEnd nm :: es =>
      match stack with
      | top :: stack => if str_eqb top nm then balanced stack es else None
      | [] => None
      end
  | _ :: es => balanced stack es
  end.

Lemma balanced_app es1 es2 : ∀ st, balanced st (es1 ++ es2) = balanced st es1 ≫= λ st', balanced st' es2.
Proof.
  induction es1 as [|e es1 IH]; intros st; [done|].
  destruct e as [nm ? []|nm| | | | |]; cbn; try apply IH.
  destruct st as [|top st]; [done|]. destruct (str_eqb top nm); [apply IH|done].
Qed.

(** The line breaks the settings put before and after a call. *)
Definition lines (b : bool) : jstr := if b then newline else [].

Lemma concat_break_line html : ∃ b, concat (break_line html) = concat html ++ lines b.
Proof.
  unfold break_line. destruct (last html) as [v|]; [|by exists false; rewrite app_nil_r].
  destruct (truthy v && negb (str_eqb v newline)); [exists true|by exists false; rewrite app_nil_r].
  by rewrite concat_app.
Qed.

Lemma concat_break_if (b : bool) html :
  ∃ b', concat (if b then break_line html else html) = concat html ++ lines b' ∧ (b' = true → b = true).
Proof.
  destruct b; [|exists false; by rewrite app_nil_r].
  destruct (concat_break_line html) as [b' ?]. by exists b'.
Qed.

Lemma concat_attrs w attrs : ∀ html,
  concat (fold_left (λ html attr, html ++ attr_pieces w attr) attrs html)
    = concat html ++ concat ((λ a, concat (attr_pieces w a)) <$> attrs).
Proof.
  induction attrs as [|a attrs IH]; intros html; [by rewrite app_nil_r|].
  cbn [fold_left fmap list_fmap concat]. rewrite IH, concat_app. by rewrite <- app_assoc.
Qed.

Lemma concat_start w name attrs empty html : ∃ b1 b2,
  concat (start w name attrs empty html)
    = concat html ++ lines b1 ++ plain w (EStart name attrs empty) ++ lines b2
  ∧ (b1 || b2 = true → indent w = true).
Proof.
  unfold start. destruct (concat_break_if (indent w && Obj.has name (indentBefore w)) html) as (b1 & E1 & H1).
  set (html1 := if indent w && _ then _ else html) in *.
  set (html2 := match attrs with Some _ => _ | None => _ end).
  assert (concat html2 = concat html1 ++ js "<" ++ name
            ++ concat ((λ a, concat (attr_pieces w a)) <$> default [] attrs)) as E2.
  { subst html2. destruct attrs as [attrs|]; [rewrite concat_attrs|];
    rewrite concat_app; cbn; rewrite ?app_nil_r; by rewrite <- ?app_assoc. }
  set (html3 := if negb empty || _ then _ else _).
  assert (concat html3 = concat html2 ++ (if negb empty || htmlOutput w then js ">" else js " />")) as E3.
  { subst html3. destruct (negb empty || htmlOutput w); by rewrite concat_app. }
  destruct (concat_break_if (empty && indent w && Obj.has name (indentAfter w)) html3) as (b2 & E4 & H4).
  exists b1, b2. rewrite E4, E3, E2, E1. cbn [plain]. rewrite <- !app_assoc. split; [done|].
  destruct b1, b2, (indent w), empty; naive_solver.
Qed.

(** Every call appends its text, with line breaks only when the settings ask
    for indentation. *)
Lemma concat_write w e html : ∃ b1 b2,
  concat (write w e html) = concat html ++ lines b1 ++ plain w e ++ lines b2
  ∧ (b1 || b2 = true → indent w = true).
Proof.
  destruct e as [name attrs empty|name|t raw|t|t|name t|t]; cbn [write].
  - apply concat_start.
  - unfold end_. destruct (concat_break_if (indent w && Obj.has name (indentAfter w))
      (html ++ [js "</"; name; js ">"])) as (b & E & Hb).
    exists false, b. rewrite E, concat_app. cbn [concat plain lines app]. rewrite app_nil_r, <- app_assoc.
    split; [done|]. intros. destruct (indent w); [done|naive_solver].
  - exists false, false. unfold text. cbn [plain lines app]. rewrite app_nil_r. split; [|done].
    destruct (truthy t); [|by rewrite app_nil_r]. rewrite concat_app. cbn. by rewrite app_nil_r.
  - exists false, false. unfold cdata. rewrite concat_app. cbn [concat plain lines app]. by rewrite !app_nil_r.
  - exists false, false. unfold comment. rewrite concat_app. cbn [concat plain lines app]. by rewrite !app_nil_r.
  - exists false, (indent w). unfold pi. cbn [plain lines app]. split; [|by destruct (indent w)].
    destruct (truthy _), (indent w); rewrite !concat_app; cbn [concat lines app];
      rewrite ?app_nil_r, <- ?app_assoc; cbn [app]; rewrite ?app_nil_r; try done.
    all: by rewrite <- ?app_assoc.
  - exists false, (indent w). unfold doctype. rewrite concat_app. cbn [plain lines concat app].
    split; [|by destruct (indent w)]. destruct (indent w); rewrite ?app_nil_r, <- ?app_assoc; done.
Qed.

Lemma concat_write_all w es html : indent w = false → concat (write_all w es html) = concat html ++ concat (plain w <$> es).
Proof.
  intros Hi. revert html. induction es as [|e es IH]; intros html; [by rewrite app_nil_r|].
  unfold write_all in *. cbn [fold_left fmap list_fmap concat]. rewrite IH.
  destruct (concat_write w e html) as (b1 & b2 & -> & Hb).
  destruct b1, b2; [by rewrite Hi in Hb; specialize (Hb eq_refl)..|].
  cbn [lines app]. rewrite app_nil_r. by rewrite <- app_assoc.
Qed.

(** Without indentation the content is the plain text of the calls in
    order, less one final line break. *)
Theorem getContent_plain w es : indent w = false →
  getContent (write_all w es []) = getContent [concat (plain w <$> es)].
Proof. intros Hi. unfold getContent. rewrite concat_write_all by done. cbn. by rewrite app_nil_r. Qed.
