(* ===== verification/Serializer.v ===== *)
(** * classes/html/Serializer.js

    Writing a node tree.  The schema is seen through [getElementRule], of which
    only [attributesOrder] is read; it is given as a function (None: the
    schema has no rule for the element). *)

From S2P Require Import Prelude Tools Node NodeFacts NodeWalk NodeAttrs NodeSample Writer.

(** What the serializer asks of a schema. *)
Class SerializerSchema := {
  attributesOrder : jstr -> option (list jstr)
}.

(** [handlers[node.type]]: numbers and their names are the same key. *)
Inductive handler := HText | HComment | HPi | HDoctype | HCdata | HFragment.

Definition type_key (t : ntype) : option Z :=
  match t with
  | TNum n => Some n
  | TStr s => match s with
              | [] => None
              | _ => if str_eqb s (js "3") then Some 3 else None
              end
  | TFun => None
  end.

Definition handlers (t : ntype) : option handler :=
  match type_key t with
  | Some 3 => Some HText
  | Some 8 => Some HComment
  | Some 7 => Some HPi
  | Some 10 => Some HDoctype
  | Some 4 => Some HCdata
  | Some 11 => Some HFragment
  | _ => None
  end.

(** The two loops that sort the attributes: first those the order names,
    then the others.  [sorted] is the list and its map. *)
Definition sort_ordered (order : list jstr) (m : Obj.t jstr) (sorted : attrs) : attrs :=
  fold_left (λ a attrName,
    if Obj.has attrName m then
      let attrValue := default [] (Obj.get attrName m) in
      Attrs (alist a ++ [(attrName, attrValue)]) (Obj.set attrName attrValue (amap a))
    else a) order sorted.

Definition sort_rest (l : list (jstr * jstr)) (m : Obj.t jstr) (sorted : attrs) : attrs :=
  fold_left (λ a attr,
    if Obj.has attr.1 (amap a) then a
    else
      let attrValue := default [] (Obj.get attr.1 m) in
      Attrs (alist a ++ [(attr.1, attrValue)]) (Obj.set attr.1 attrValue (amap a))) l sorted.

Section Serializer.
Context `{SerializerSchema} (w : writer) (validate : bool).

(** The attributes that are written: sorted when there are several and the
    serializer validates; a missing rule is an exception. *)
Definition sorted_attrs (nm : jstr) (a : option attrs) : option (option (list (jstr * jstr))) :=
  match a with
  | None => Some None
  | Some a =>
      if validate && (1 <? length (alist a))%nat then
        order ← attributesOrder nm;
        Some (Some (alist (sort_rest (alist a) (amap a) (sort_ordered order (amap a) (Attrs [] [])))))
      else Some (Some (alist a))
  end.

(** [walk(node)] on the node [n]; [children] is the loop over the siblings
    from its first child. *)
Definition walk_with (children : option ref -> list jstr -> HM (list jstr)) (n : node)
    (html : list jstr) : HM (list jstr) :=
  match handlers (type n) with
  | Some HText => v ← oget (value n); mret (text w v (raw n) html)
  | Some HComment => mret (comment (value n) html)
  | Some HPi => mret (pi w (name n) (value n) html)
  | Some HDoctype => mret (doctype w (value n) html)
  | Some HCdata => mret (cdata (value n) html)
  | Some HFragment => children (firstChild n) html
  | None =>
      attrs ← oget (sorted_attrs (name n) (attributes n));
      let html := start w (name n) attrs (shortEnded n) html in
      if shortEnded n then mret html
      else
        html ← children (firstChild n) html;
        mret (end_ w (name n) html)
  end.

(** [do walk(node) while ((node = node.next))] *)
Fixpoint walk_siblings (fuel : nat) (cur : option ref) (html : list jstr) : HM (list jstr) :=
  match fuel, cur with
  | _, None => mret html
  | O, Some _ => throw
  | S f, Some x =>
      n ← deref x;
      html ← walk_with (walk_siblings f) n html;
      walk_siblings f (next n) html
  end.

(** [serialize(node)] with the setting [inner]. *)
Definition serialize (inner : bool) (node : ref) : HM jstr :=
  n ← deref node;
  sz ← gets size;
  let html := reset [] in
  html ← (if bool_decide (type n = TNum 1 ∨ type n = TStr (js "1")) && negb inner
          then walk_with (walk_siblings sz) n html
          else walk_siblings sz (firstChild n) html);
  mret (getContent html).
End Serializer.

(** ** The calls a tree stands for *)
Section Events.
Context `{SerializerSchema} (validate : bool) (h : heap).

Definition events_with (children : option (list event)) (n : node) : option (list event) :=
  match handlers (type n) with
  | Some HText => (λ v, [EText v (raw n)]) <$> value n
  | Some HComment => Some [EComment (value n)]
  | Some HPi => Some [EPi (name n) (value n)]
  | Some HDoctype => Some [EDoctype (value n)]
  | Some HCdata => Some [ECdata (value n)]
  | Some HFragment => children
  | None =>
      attrs ← sorted_attrs validate (name n) (attributes n);
      if shortEnded n then Some [EStart (name n) attrs true]
      else
        es ← children;
        Some (EStart (name n) attrs false :: es ++ [EEnd (name n)])
  end.

Fixpoint events (t : tree) : option (list event) :=
  match t with
  | T x ts =>
      n ← h !! x;
      events_with ((fix forest (ts : list tree) : option (list event) :=
        match ts with
        | [] => Some []
        | t :: ts => e ← events t; es ← forest ts; Some (e ++ es)
        end) ts) n
  end.

Fixpoint forest_events (ts : list tree) : option (list event) :=
  match ts with
  | [] => Some []
  | t :: ts => e ← events t; es ← forest_events ts; Some (e ++ es)
  end.

Lemma events_T x ts n : h !! x = Some n → events (T x ts) = events_with (forest_events ts) n.
Proof. intros E. cbn [events]. rewrite E. cbn. f_equal. Qed.

(** The calls for a node whose own call is not skipped by [inner]. *)
Definition content_events (inner : bool) (t : tree) : option (list event) :=
  match t with
  | T x ts =>
      n ← h !! x;
      if bool_decide (type n = TNum 1 ∨ type n = TStr (js "1")) && negb inner
      then events_with (forest_events ts) n else forest_events ts
  end.
End Events.

(** A forest whose roots are linked as siblings, each over its children. *)
Inductive stored (h : heap) : list tree -> Prop :=
  | stored_nil : stored h []
  | stored_cons x n ts rest :
      h !! x = Some n → firstChild n = head (root <$> ts) → stored h ts →
      next n = head (root <$> rest) → stored h rest → stored h (T x ts :: rest).

Lemma stored_children h s p ts2 : wf h s → Forall (tree_ok s) ts2 →
  (∀ t, t ∈ ts2 → ∀ r ts, t = T r ts → stored h ts) →
  ∀ ts1, ch s p = root <$> (ts1 ++ ts2) → stored h ts2.
Proof.
  intros Hwf. induction ts2 as [|[x ts] ts2 IH]; intros HF Hsub ts1 Hc; [constructor|].
  assert (par s x = Some p) as Hp.
  { apply (wf_ch _ _ Hwf). rewrite Hc, fmap_app. cbn. set_solver. }
  destruct (wf_dom _ _ Hwf p x Hp) as [_ [n E]].
  destruct (wf_links _ _ Hwf x n E) as (_ & Hf & _ & Hnx & _).
  apply Forall_cons in HF as [Ht HF]. inv Ht as [? ? Hcx Hts].
  apply (stored_cons h x n); [done|by rewrite Hf, Hcx|by eapply (Hsub (T x ts)); [set_solver|]| |].
  - rewrite Hnx. apply (sib_next_mid s x p (root <$> ts1)); [done|by rewrite Hc, fmap_app|].
    pose proof (wf_nodup _ _ Hwf p) as Hn. by rewrite Hc, fmap_app in Hn.
  - apply (IH HF) with (ts1 ++ [T x ts]); [set_solver|]. by rewrite Hc, <- app_assoc.
Qed.

Lemma tree_stored h s x ts : wf h s → tree_ok s (T x ts) → stored h ts.
Proof.
  intros Hwf. remember (T x ts) as t eqn:E. revert x ts E.
  induction t as [y us IH] using tree_ind'. intros x ts [= -> ->] Ht. inv Ht as [? ? Hc HF].
  apply (stored_children h s x ts Hwf HF) with (ts1 := []); [|done].
  intros t Ht r ts' ->. rewrite Forall_forall in IH, HF. by eapply IH; [| |by apply HF].
Qed.

Lemma walk_with_ok `{SerializerSchema} w validate children kids h n html :
  (∀ html, children (firstChild n) html h = (λ es, (write_all w es html, h)) <$> kids) →
  walk_with w validate children n html h
    = (λ es, (write_all w es html, h)) <$> events_with validate kids n.
Proof.
  intros Hk. unfold walk_with, events_with. destruct (handlers (type n)) as [[]|]; try done.
  - by destruct (value n).
  - rewrite SE_bind_unfold. unfold oget. destruct (sorted_attrs _ _ _) as [attrs|]; [|done].
    cbn. destruct (shortEnded n); [done|]. rewrite SE_bind_unfold, Hk.
    destruct kids as [es|]; [|done]. cbn. unfold write_all. cbn. by rewrite fold_left_app.
Qed.

(** The loop over the siblings makes the calls of the forest; the fuel is
    the number of nodes it holds. *)
Lemma walk_siblings_ok `{SerializerSchema} w validate h : ∀ fuel ts html,
  stored h ts → (length (forest_order ts) ≤ fuel)%nat →
  walk_siblings w validate fuel (head (root <$> ts)) html h
    = (λ es, (write_all w es html, h)) <$> forest_events validate h ts.
Proof.
  induction fuel as [|f IH]; intros ts html Hs Hl; (destruct Hs as [|x n ts rest E Hf Hs Hnx Hr]; [done|]).
  { cbn in Hl. lia. }
  rewrite forest_order_cons in Hl. cbn [preorder] in Hl. rewrite length_app in Hl. cbn [length] in Hl.
  fold (forest_order ts) in Hl.
  assert (∀ html, walk_siblings w validate f (firstChild n) html h
    = (λ es, (write_all w es html, h)) <$> forest_events validate h ts) as IHc.
  { intros. rewrite Hf. apply IH; [done|lia]. }
  assert (∀ html, walk_siblings w validate f (next n) html h
    = (λ es, (write_all w es html, h)) <$> forest_events validate h rest) as IHr.
  { intros. rewrite Hnx. apply IH; [done|lia]. }
  assert (∀ html, walk_with w validate (walk_siblings w validate f) n html h
    = (λ es, (write_all w es html, h)) <$> events validate h (T x ts)) as Hw.
  { intros html'. rewrite (events_T _ _ x ts n E). by apply walk_with_ok. }
  cbn [walk_siblings head fmap list_fmap root]. rewrite (deref_bind h x n) by done.
  rewrite SE_bind_unfold, Hw. cbn [forest_events]. destruct (events validate h (T x ts)) as [e|]; [|done].
  cbn. rewrite IHr. destruct (forest_events validate h rest); [|done]. cbn. unfold write_all.
  by rewrite fold_left_app.
Qed.

(** ** Sorting the attributes loses none *)

(** The attributes the order names, in its order, and the others. *)
Definition named_first (order : list jstr) (l : list (jstr * jstr)) : list (jstr * jstr) :=
  omap (λ k, (k,.) <$> Obj.get k l) order.
Definition others (order : list jstr) (l : list (jstr * jstr)) : list (jstr * jstr) :=
  filter (λ p, p.1 ∉ order) l.

Lemma others_cons order k v l :
  others order ((k, v) :: l) = if decide (k ∉ order) then (k, v) :: others order l else others order l.
Proof. unfold others. by rewrite filter_cons. Qed.

Lemma sort_ordered_ok l order : ∀ acc, Forall (λ k, Obj.is_proto k = false) order → NoDup order →
  (∀ k, k ∈ order → k ∉ Obj.keys acc) →
  sort_ordered order l (Attrs acc acc)
    = Attrs (acc ++ named_first order l) (acc ++ named_first order l).
Proof.
  induction order as [|k order IH]; intros acc Hp Hn Hd; cbn; [by rewrite app_nil_r|].
  apply Forall_cons in Hp as [Hk Hp]. apply NoDup_cons in Hn as [Hkn Hn].
  unfold sort_ordered in *. cbn [fold_left]. unfold Obj.has.
  destruct (Obj.get k l) as [v|] eqn:E; cbn; [|rewrite Hk].
  - rewrite Obj.keys_set_new by (apply Obj.get_None_keys, Hd; set_solver).
    rewrite IH; [by rewrite <- app_assoc|done|done|].
    intros k' Hk'. unfold Obj.keys. rewrite fmap_app. cbn.
    assert (k' ≠ k) by (by intros ->). assert (k' ∉ Obj.keys acc) by (apply Hd; set_solver).
    unfold Obj.keys in *. set_solver.
  - rewrite IH; [done|done|done|]. intros; apply Hd; set_solver.
Qed.

Lemma filter_ext_in {A} (P Q : A → Prop) `{!∀ x, Decision (P x), !∀ x, Decision (Q x)} (l : list A) :
  (∀ x, x ∈ l → P x ↔ Q x) → filter P l = filter Q l.
Proof.
  induction l as [|x l IH]; intros Hx; [done|]. rewrite !filter_cons, IH by set_solver.
  apply decide_ext, Hx. set_solver.
Qed.

Lemma sort_rest_ok m l : ∀ acc, Forall (λ p, Obj.is_proto p.1 = false) l → NoDup (Obj.keys l) →
  (∀ k v, (k, v) ∈ l → Obj.get k m = Some v) →
  sort_rest l m (Attrs acc acc)
    = Attrs (acc ++ others (Obj.keys acc) l) (acc ++ others (Obj.keys acc) l).
Proof.
  induction l as [|[k v] l IH]; intros acc Hp Hn Hm; [cbn; by rewrite app_nil_r|].
  apply Forall_cons in Hp as [Hk Hp].
  change (Obj.keys ((k, v) :: l)) with (k :: Obj.keys l) in Hn. apply NoDup_cons in Hn as [Hkn Hn].
  assert (∀ k v, (k, v) ∈ l → Obj.get k m = Some v) as Hm' by (intros; apply Hm; set_solver).
  assert (sort_rest ((k, v) :: l) m (Attrs acc acc)
    = sort_rest l m (if Obj.has k acc then Attrs acc acc
                     else Attrs (acc ++ [(k, v)]) (Obj.set k v acc))) as ->.
  { unfold sort_rest. cbn [fold_left fst amap alist]. by rewrite (Hm k v) by set_solver. }
  rewrite others_cons. unfold Obj.has. cbn [fst] in *. rewrite Hk.
  destruct (Obj.get k acc) as [u|] eqn:E.
  - rewrite decide_False by (intros Hx; apply Hx, Obj.get_elem_keys; by eexists). by apply IH.
  - rewrite decide_True by (by apply Obj.get_None_keys).
    rewrite Obj.keys_set_new by done. rewrite IH by done. rewrite <- app_assoc. cbn [app].
    assert (others (Obj.keys (acc ++ [(k, v)])) l = others (Obj.keys acc) l) as ->; [|done].
    unfold others. apply filter_ext_in. intros [k' v'] Hin. cbn [fst].
    unfold Obj.keys. rewrite fmap_app. cbn [fmap list_fmap fst].
    assert (k' ≠ k) by (intros ->; apply Hkn; by apply (list_elem_of_fmap_2 fst) in Hin).
    rewrite elem_of_app, list_elem_of_singleton. naive_solver.
Qed.

Lemma named_first_keys order l k : k ∈ Obj.keys (named_first order l) ↔ k ∈ order ∧ k ∈ Obj.keys l.
Proof.
  unfold named_first, Obj.keys. rewrite list_elem_of_fmap. split.
  - intros ([k' v] & -> & Hin). apply list_elem_of_omap in Hin as (k1 & Hk1 & E).
    destruct (Obj.get k1 l) as [u|] eqn:G; [|done]. cbn in E. simplify_eq. split; [done|].
    apply Obj.get_elem_keys. by eexists.
  - intros [Ho Hl]. apply Obj.get_elem_keys in Hl as [v G]. exists (k, v). split; [done|].
    apply list_elem_of_omap. exists k. by rewrite G.
Qed.

Lemma named_first_perm order l : NoDup order → NoDup (Obj.keys l) →
  named_first order l ≡ₚ filter (λ p, p.1 ∈ order) l.
Proof.
  intros Ho Hl.
  assert (NoDup (named_first order l)) as Hn1.
  { clear Hl. unfold named_first. induction order as [|k order IH]; cbn; [constructor|].
    apply NoDup_cons in Ho as [Hk Ho]. destruct (Obj.get k l); cbn; [|by apply IH].
    apply NoDup_cons. split; [|by apply IH]. intros Hin. apply list_elem_of_omap in Hin as (k' & Hk' & E).
    by destruct (Obj.get k' l); cbn in E; simplify_eq. }
  apply NoDup_Permutation; [done|by apply list.NoDup_filter, (NoDup_fmap_1 fst)|].
  intros [k v]. rewrite list_elem_of_filter. cbn. unfold named_first. rewrite list_elem_of_omap. split.
  - intros (k' & Hk' & E). destruct (Obj.get k' l) as [u|] eqn:G; cbn in E; simplify_eq.
    split; [done|by apply Obj.get_Some_elem].
  - intros [Hk Hin]. exists k. by rewrite (Obj.get_elem_NoDup k v l).
Qed.

(** The sorted attributes are those the rule orders, in that order, then
    the others in their own order: a permutation, so that none is lost, doubled or changed. *)
Theorem sorted_attrs_ok `{SerializerSchema} nm a order out : attrs_ok a →
  Forall (λ p, Obj.is_proto p.1 = false) (alist a) →
  attributesOrder nm = Some order → NoDup order → Forall (λ k, Obj.is_proto k = false) order →
  (1 < length (alist a))%nat → sorted_attrs true nm (Some a) = Some (Some out) →
  out = named_first order (alist a) ++ others order (alist a) ∧ out ≡ₚ alist a.
Proof.
  intros [Em Hn] Hpa Ho Hno Hpo Hlen Hout. unfold sorted_attrs in Hout.
  rewrite (proj2 (Nat.ltb_lt _ _) Hlen), Ho in Hout. cbn in Hout. simplify_eq.
  rewrite Em. rewrite sort_ordered_ok; [cbn [app]|done|done|set_solver].
  rewrite sort_rest_ok; [cbn [alist]|done|done|by intros; apply Obj.get_elem_NoDup].
  assert (others (Obj.keys (named_first order (alist a))) (alist a) = others order (alist a)) as ->.
  { unfold others. apply filter_ext_in. intros [k v] Hin. cbn.
    rewrite named_first_keys. apply (list_elem_of_fmap_2 fst) in Hin. naive_solver. }
  split; [done|]. rewrite named_first_perm by done. unfold others.
  apply (filter_app_complement (λ p, p.1 ∈ order)).
Qed.

(** ** The tags balance *)

Lemma balanced_with `{SerializerSchema} validate kids n es :
  (∀ es, kids = Some es → ∀ st, balanced st es = Some st) →
  events_with validate kids n = Some es → ∀ st, balanced st es = Some st.
Proof.
  intros Hk E st. unfold events_with in E.
  destruct (handlers (type n)) as [[]|]; simplify_eq/=; try done.
  - destruct (value n); simplify_eq/=. done.
  - by apply Hk.
  - destruct (sorted_attrs _ _ _) as [a|]; [|done]. cbn in E.
    destruct (shortEnded n); simplify_eq/=; [done|].
    destruct kids as [ks|]; [|done]. simplify_eq/=. rewrite balanced_app, (Hk ks) by done. cbn.
    by rewrite (proj2 (str_eqb_true _ _)).
Qed.

Lemma balanced_events `{SerializerSchema} validate h t : ∀ es,
  events validate h t = Some es → ∀ st, balanced st es = Some st.
Proof.
  induction t as [x ts IH] using tree_ind'. intros es E.
  destruct (h !! x) as [n|] eqn:Ex; [|by cbn in E; rewrite Ex in E].
  rewrite (events_T _ _ _ _ n Ex) in E. eapply balanced_with; [|exact E]. clear E es.
  induction IH as [|t ts Ht _ IHts]; intros es E; [by simplify_eq/=|].
  cbn in E. destruct (events validate h t) as [e1|]; [|done].
  cbn in E. destruct (forest_events validate h ts) as [e2|]; [|done].
  simplify_eq/=. intros st. rewrite balanced_app, (Ht _ eq_refl). cbn. by apply IHts.
Qed.

Lemma content_balanced `{SerializerSchema} validate h inner t es :
  content_events validate h inner t = Some es → balanced [] es = Some [].
Proof.
  destruct t as [x ts]. cbn. destruct (h !! x) as [n|] eqn:Ex; [|done]. cbn.
  assert (∀ es, forest_events validate h ts = Some es → ∀ st, balanced st es = Some st) as Hk.
  { induction ts as [|t ts IH]; intros es' E; [by simplify_eq/=|].
    cbn in E. destruct (events validate h t) as [e1|] eqn:E1; [|done].
    cbn in E. destruct (forest_events validate h ts) as [e2|]; [|done].
    simplify_eq/=. intros st. rewrite balanced_app, (balanced_events _ _ _ _ E1). cbn. by apply IH. }
  destruct (bool_decide _ && negb inner); intros E; [by eapply balanced_with|by apply Hk].
Qed.

(** C27: On a well-formed tree [serialize] returns, changes nothing, and what
    it returns is the content of the writer after the calls of the tree in document order; it fails
    only where a text node has no value or the schema no rule.  The calls are balanced: every element
    it opens is closed again in the right order, and it closes no other. *)
Theorem serialize_ok `{SerializerSchema} w validate inner h s r n : wf h s → h !! r = Some n →
  ∃ t, root t = r ∧ tree_ok s t ∧
    serialize w validate inner r h
      = (λ es, (getContent (write_all w es []), h)) <$> content_events validate h inner t
    ∧ ∀ es, content_events validate h inner t = Some es → balanced [] es = Some [].
Proof.
  intros Hwf E. destruct (tree_exists h s Hwf r) as ([x ts] & Hroot & Ht); [by eexists|].
  exists (T x ts). split_and!; [done|done| |intros es; apply content_balanced]. cbn in Hroot. subst x.
  pose proof (tree_stored h s r ts Hwf Ht) as Hst.
  pose proof (descendants_size h s Hwf r n E (forest_order ts) ltac:(by exists (T r ts))) as Hsz.
  assert (∀ html, walk_siblings w validate (size h) (firstChild n) html h
    = (λ es, (write_all w es html, h)) <$> forest_events validate h ts) as Hk.
  { intros html. destruct (wf_links _ _ Hwf r n E) as (_ & -> & _). inv Ht as [? ? Hc _]. rewrite Hc.
    apply walk_siblings_ok; [done|lia]. }
  unfold serialize. rewrite (deref_bind h r n) by done. cbn [content_events]. rewrite E.
  unfold gets. rewrite SE_bind_unfold. cbn [mbind option_bind option_map].
  destruct (bool_decide (type n = TNum 1 ∨ _) && negb inner).
  - rewrite SE_bind_unfold, (walk_with_ok _ _ _ _ _ _ _ Hk). by destruct (events_with _ _ _).
  - rewrite SE_bind_unfold, Hk. by destruct (forest_events _ _ _).
Qed.

(** ** Instances *)
Definition sample_schema : SerializerSchema :=
  {| attributesOrder := λ _, Some [js "class"; js "style"; js "id"] |}.
Definition sample_writer : writer :=
  new_writer (MkSettings false [] [] [] [] []).

Example sample_serialize :
  fst <$> serialize (H := sample_schema) sample_writer true false 0%nat sample_heap
    = Some (js "<p class=" ++ [34] ++ js "c" ++ [34] ++ js " id=" ++ [34] ++ js "p1" ++ [34]
              ++ js ">a<b>x</b><i></i></p>").
Proof. vm_compute. reflexivity. Qed.

Lemma getContent_plain_witness :
  getContent (write_all sample_writer [EStart (js "b") None false; EText (js "<") false; EEnd (js "b")] [])
    = js "<b>&lt;</b>".
Proof. rewrite getContent_plain; by vm_compute. Defined.

Lemma serialize_ok_witness : ∃ t, root t = 0%nat ∧ tree_ok sample_shape t ∧
  serialize (H := sample_schema) sample_writer true false 0%nat sample_heap
    = (λ es, (getContent (write_all sample_writer es []), sample_heap))
        <$> content_events (H := sample_schema) true sample_heap false t
  ∧ ∀ es, content_events (H := sample_schema) true sample_heap false t = Some es → balanced [] es = Some [].
Proof.
  exact (serialize_ok (H := sample_schema) _ _ _ _ _ 0%nat
    (default (new_node [] TFun) (sample_heap !! 0%nat)) sample_wf eq_refl).
Defined.

Lemma sorted_attrs_ok_witness :
  let l := [(js "id", js "p1"); (js "class", js "c")] in
  let out := [(js "class", js "c"); (js "id", js "p1")] in
  out = named_first [js "class"; js "style"; js "id"] l ++ others [js "class"; js "style"; js "id"] l
  ∧ out ≡ₚ l.
Proof.
  apply (sorted_attrs_ok (H := sample_schema) (js "p") (Attrs _ _) [js "class"; js "style"; js "id"] _
    sample_attrs_ok);
    first [by vm_compute | by repeat constructor | cbn; lia | apply (bool_decide_unpack _); by vm_compute].
Defined.
