(* ===== verification/UndoManager.v ===== *)
(** * classes/UndoManager.js

    The undo history of an editor.  The editor itself (its document, its
    selection) is an interface, of which the raw path of [Editor.setContent]
    and [Editor.getContent] (classes/Editor.js) is one implementation; the events
    the manager fires are recorded in a
    log, and the event system decides which of them are prevented. *)

From S2P Require Import Prelude Regexp Tools Entities.

(** ** The editor *)
Class Editor (E B : Type) := {
  ed_getContent : E -> jstr;               (** raw content, no events *)
  ed_setContent : jstr -> E -> E;          (** format raw *)
  ed_getBookmark : E -> B;
  ed_moveToBookmark : option B -> E -> E
}.

(** What the code relies on: what is read after raw content was set depends
    on that content only ([settle]: the editor pads what is empty and trims
    the rest, and the browser writes it its own way), and moving the selection does not
    change it. *)
Class EditorLaws (E B : Type) `{Editor E B} (settle : jstr -> jstr) := {
  ed_get_set : ∀ c e, ed_getContent (ed_setContent c e) = settle c;
  ed_get_move : ∀ b e, ed_getContent (ed_moveToBookmark b e) = ed_getContent e
}.

(** ** The raw content of Editor.js *)

(** [dom.createHTML(name, attrs, html)] with the own keys of [attrs] in
    order; [None] stands for null, and for an [html] that is not given. *)
Definition createHTML (name : jstr) (attrs : list (jstr * option jstr)) (html : option jstr) : jstr :=
  let outHtml := fold_left (λ out '(key, v),
      match v with
      | Some v => out ++ js " " ++ key ++ [61; 34] ++ encodeAllRaw v ++ [34]
      | None => out
      end) attrs ([60] ++ name) in
  match html with
  | Some html => outHtml ++ [62] ++ html ++ js "</" ++ name ++ [62]
  | None => outHtml ++ js " />"
  end.

Section RawContent.
(** The setting forced_root_block (when it is not empty) with its attributes,
    what [schema.isValidChild] says of it in the body, the version of Internet
    Explorer if it is one, what the listeners of BeforeSetContent make of the
    content, and the browser: the [innerHTML] the body has
    after a text was assigned to it and the listeners of SetContent ran. *)
Context (forced_root_block : option jstr) (forced_root_block_attrs : list (jstr * option jstr)).
Context (valid_root : jstr -> bool) (ie : option Z) (BeforeSetContent : jstr -> jstr) (innerHTML : jstr -> jstr).

Definition old_ie : bool := match ie with Some v => v <? 11 | None => false end.
Definition pads_br : bool := match ie with Some v => v <? 11 | None => true end.
Definition bogus_br : jstr := js "<br data-mce-bogus=" ++ [34] ++ js "1" ++ [34; 62].

(** The text [setContent(content, {format: 'raw'})] assigns to the body. *)
Definition raw_html (content : jstr) : jstr :=
  let content := BeforeSetContent content in
  if forallb is_space content then
    match forced_root_block with
    | Some name =>
        if valid_root name then
          createHTML name forced_root_block_attrs (Some (if old_ie then [] else bogus_br))
        else if pads_br then bogus_br else content
    | None => if pads_br then bogus_br else content
    end
  else trim content.

(** [getContent({format: 'raw', no_events: 1})] *)
Definition raw_content (body : jstr) : jstr := trim body.

(** The editor as its body; the selection is a parameter that leaves it
    alone. *)
Definition body_editor (B : Type) (getBookmark : jstr -> B) : Editor jstr B :=
  {| ed_getContent := raw_content;
     ed_setContent := λ c _, innerHTML (raw_html c);
     ed_getBookmark := getBookmark;
     ed_moveToBookmark := λ _ e, e |}.

(** What is read back of a text. *)
Definition read_back (c : jstr) : jstr := raw_content (innerHTML (raw_html c)).

Lemma body_editor_laws B getBookmark :
  EditorLaws (H := body_editor B getBookmark) jstr B read_back.
Proof. by split. Defined.
End RawContent.

Inductive undo_event := BeforeAddUndo | AddUndo | Change | UndoEv | RedoEv | ClearUndos | TypingUndo | NodeChange.

(** ** trimContentRegExp *)
Definition quote : Z := 34.
Definition not_unit (c : Z) : cset := λ x, negb (x =? c).

(** The three alternatives, flags g and i. *)
Definition trimContentRegExp : re :=
  RAlt
    (RSeq (RStrI (js "<span")) (RSeq (RPlus (RSet (not_unit 62)))
      (RSeq (RStrI (js "data-mce-bogus")) (RSeq (RPlus (RSet (not_unit 62)))
        (RSeq (RChar 62) (RSeq (RPlus (RSet (λ c, (c =? 0x200B) || (c =? 0xFEFF))))
          (RStrI (js "</span>"))))))))
    (RAlt
      (RSeq (RStrI (js "<div")) (RSeq (RPlus (RSet (not_unit 62)))
        (RSeq (RStrI (js "data-mce-bogus")) (RSeq (RPlus (RSet (not_unit 62)))
          (RStrI (js "></div>"))))))
      (RSeq (ROpt (RSet is_space)) (RSeq (RStrI (js "data-mce-selected="))
        (RSeq (RChar quote) (RSeq (RPlus (RSet (not_unit quote))) (RChar quote)))))).

(** ** State *)
Section UndoManager.
Context {E B : Type} `{Editor E B}.

Record level := MkLevel {
  content : jstr;
  bookmark : B;
  lv_beforeBookmark : option B
}.

Record ust := MkUst {
  index : nat;
  data : list level;
  beforeBookmark : option B;
  isFirstTypedCharacter : bool;
  lock : bool;
  typing : bool;
  isNotDirty : bool;
  ed : E;
  log : list undo_event
}.

Definition set_index v s := MkUst v (data s) (beforeBookmark s) (isFirstTypedCharacter s) (lock s) (typing s) (isNotDirty s) (ed s) (log s).
Definition set_data v s := MkUst (index s) v (beforeBookmark s) (isFirstTypedCharacter s) (lock s) (typing s) (isNotDirty s) (ed s) (log s).
Definition set_beforeBookmark v s := MkUst (index s) (data s) v (isFirstTypedCharacter s) (lock s) (typing s) (isNotDirty s) (ed s) (log s).
Definition set_isFirst v s := MkUst (index s) (data s) (beforeBookmark s) v (lock s) (typing s) (isNotDirty s) (ed s) (log s).
Definition set_lock v s := MkUst (index s) (data s) (beforeBookmark s) (isFirstTypedCharacter s) v (typing s) (isNotDirty s) (ed s) (log s).
Definition set_typing v s := MkUst (index s) (data s) (beforeBookmark s) (isFirstTypedCharacter s) (lock s) v (isNotDirty s) (ed s) (log s).
Definition set_isNotDirty v s := MkUst (index s) (data s) (beforeBookmark s) (isFirstTypedCharacter s) (lock s) (typing s) v (ed s) (log s).
Definition set_ed v s := MkUst (index s) (data s) (beforeBookmark s) (isFirstTypedCharacter s) (lock s) (typing s) (isNotDirty s) v (log s).
Definition set_log v s := MkUst (index s) (data s) (beforeBookmark s) (isFirstTypedCharacter s) (lock s) (typing s) (isNotDirty s) (ed s) v.

(** The editor setting custom_undo_redo_levels (0 when not given), the
    platform flag Env.mac, and which events some listener prevents. *)
Context (custom_undo_redo_levels : nat) (mac : bool) (isDefaultPrevented : undo_event -> jstr -> bool).

(** [editor.fire(ev)]; the manager itself listens to AddUndo, Undo, Redo and
    ClearUndos and calls [editor.nodeChanged()]. *)
Definition nodeChanged (s : ust) : ust := set_log (log s ++ [NodeChange]) s.

Definition fire (ev : undo_event) (c : jstr) (s : ust) : ust :=
  let s := set_log (log s ++ [ev]) s in
  match ev with
  | AddUndo | UndoEv | RedoEv | ClearUndos => if isDefaultPrevented ev c then s else nodeChanged s
  | _ => s
  end.

(** The trimmed contents of the editor. *)
Definition trim_content (c : jstr) : jstr := trim (replace_all trimContentRegExp (λ _, []) c).
Definition getContent (s : ust) : jstr := trim_content (ed_getContent (ed s)).

(** ** Operations *)
Definition init : E -> ust := λ e, MkUst 0 [] None false false false false e [].

Definition beforeChange (s : ust) : ust :=
  if lock s then s else set_beforeBookmark (Some (ed_getBookmark (ed s))) s.

(** [add()]: the part after the level is known to be needed. *)
Definition set_before (b : option B) (l : level) : level := MkLevel (content l) (bookmark l) b.

(** [if (custom_undo_redo_levels) if (data.length > ...)]: the oldest level
    is dropped and the index put past the end. *)
Definition compress (s : ust) : ust :=
  if (negb (Nat.eqb custom_undo_redo_levels 0)) && (custom_undo_redo_levels <? length (data s))%nat then
    let d := tail (data s) in set_index (length d) (set_data d s)
  else s.

(** [if (index < data.length - 1) data.length = index + 1] *)
Definition crop (s : ust) : ust :=
  if (S (index s) <? length (data s))%nat then set_data (take (S (index s)) (data s)) s else s.

Definition push_level (c : jstr) (s : ust) : ust :=
  let s := set_data (alter (set_before (beforeBookmark s)) (index s) (data s)) s in
  let s := compress s in
  let l := MkLevel c (ed_getBookmark (ed s)) None in
  let s := crop s in
  let s := set_data (data s ++ [l]) s in
  let s := set_index (length (data s) - 1)%nat s in
  let s := fire AddUndo c s in
  if (0 <? index s)%nat then set_isNotDirty false (fire Change c s) else s.

Definition add (s : ust) : ust :=
  let c := getContent s in
  if lock s then s
  else
    let s := fire BeforeAddUndo c s in
    if isDefaultPrevented BeforeAddUndo c then s
    else match data s !! index s with
         | Some lastLevel => if str_eqb (content lastLevel) c then s else push_level c s
         | None => push_level c s
         end.

Definition addNonTypingUndoLevel (s : ust) : ust := add (set_typing false s).

(** The editor shows the level: its content and the bookmark. *)
Definition show (c : jstr) (b : option B) (s : ust) : ust :=
  set_ed (ed_moveToBookmark b (ed_setContent c (ed s))) s.

Definition undo (s : ust) : ust * option level :=
  let s := if typing s then set_typing false (add s) else s in
  match index s with
  | O => (s, None)
  | S i =>
      match data s !! i with
      | None => (set_index i s, None) (** unreachable: [level.content] would throw *)
      | Some l =>
          let s := set_index i s in
          let s := if Nat.eqb i 0 then set_isNotDirty true s else s in
          (fire UndoEv (content l) (show (content l) (lv_beforeBookmark l) s), Some l)
      end
  end.

Definition redo (s : ust) : ust * option level :=
  if (S (index s) <? length (data s))%nat then
    match data s !! S (index s) with
    | None => (s, None)
    | Some l =>
        let s := set_index (S (index s)) s in
        (fire RedoEv (content l) (show (content l) (Some (bookmark l)) s), Some l)
    end
  else (s, None).

Definition clear (s : ust) : ust :=
  fire ClearUndos [] (set_typing false (set_index 0 (set_data [] s))).

Definition hasUndo (s : ust) : bool :=
  (0 <? index s)%nat
  || (typing s && match head (data s) with
                  | Some l => negb (str_eqb (getContent s) (content l))
                  | None => false
                  end).

Definition hasRedo (s : ust) : bool := (S (index s) <? length (data s))%nat && negb (typing s).

(** [transact(callback)]; a callback that throws ([true]) leaves the lock set. *)
Definition transact (callback : ust -> ust * bool) (s : ust) : ust * bool :=
  let s := set_lock true (beforeChange s) in
  let '(s, threw) := callback s in
  if threw then (s, true) else (add (set_lock false s), false).

(** ** Event listeners *)
Definition is_undo_cmd (cmd : jstr) : bool :=
  str_eqb cmd (js "Undo") || str_eqb cmd (js "Redo") || str_eqb cmd (js "mceRepaint").

Definition on_BeforeExecCommand (cmd : jstr) (s : ust) : ust :=
  if is_undo_cmd cmd then s else beforeChange s.
Definition on_ExecCommand (cmd : jstr) (s : ust) : ust := if is_undo_cmd cmd then s else add s.
Definition on_focusout (removed : bool) (s : ust) : ust :=
  if negb removed && typing s then addNonTypingUndoLevel s else s.

Definition is_nav_key (k : Z) : bool := between 33 36 k || between 37 40 k || (k =? 45).

Definition on_KeyUp (keyCode : Z) (ctrlKey : bool) (s : ust) : ust :=
  let s := if is_nav_key keyCode || (keyCode =? 13) || ctrlKey
           then nodeChanged (addNonTypingUndoLevel s) else s in
  let s := if (keyCode =? 46) || (keyCode =? 8) || (mac && ((keyCode =? 91) || (keyCode =? 93)))
           then nodeChanged s else s in
  if isFirstTypedCharacter s && typing s then
    let s :=
      if isNotDirty s then
        let s := set_isNotDirty match head (data s) with
                                | None => true
                                | Some l => str_eqb (getContent s) (content l)
                                end s in
        if isNotDirty s then s else fire Change [] s
      else s in
    nodeChanged (set_isFirst false (fire TypingUndo [] s))
  else s.

Definition on_KeyDown (keyCode : Z) (s : ust) : ust :=
  if is_nav_key keyCode then (if typing s then addNonTypingUndoLevel s else s)
  else if ((keyCode <? 16) || (20 <? keyCode)) && negb (keyCode =? 224) && negb (keyCode =? 91)
          && negb (typing s)
       then set_isFirst true (add (set_typing true (beforeChange s)))
       else s.

Definition on_MouseDown (s : ust) : ust := if typing s then addNonTypingUndoLevel s else s.
Definition on_MouseUp (prevented : bool) (s : ust) : ust := if prevented then s else nodeChanged s.

(** ** Reachable states *)

(** One step of the manager; the user may change the document at any time,
    and a transaction opens and closes in separate steps, so that nested and
    failing ones are covered. *)
Inductive step : ust -> ust -> Prop :=
  | step_edit e s : step s (set_ed e s)
  | step_beforeChange s : step s (beforeChange s)
  | step_add s : step s (add s)
  | step_undo s : step s (undo s).1
  | step_redo s : step s (redo s).1
  | step_clear s : step s (clear s)
  | step_transact_open s : step s (set_lock true (beforeChange s))
  | step_transact_close s : step s (add (set_lock false s))
  | step_save s : step s (addNonTypingUndoLevel s)
  | step_before_command cmd s : step s (on_BeforeExecCommand cmd s)
  | step_command cmd s : step s (on_ExecCommand cmd s)
  | step_focusout r s : step s (on_focusout r s)
  | step_KeyUp k c s : step s (on_KeyUp k c s)
  | step_KeyDown k s : step s (on_KeyDown k s)
  | step_MouseDown s : step s (on_MouseDown s)
  | step_MouseUp p s : step s (on_MouseUp p s).

Definition reachable (s : ust) : Prop := ∃ e, rtc step (init e) s.

(** The index is that of a level, and the history is no longer than the
    setting allows (one more than it says). *)
Definition history_ok (s : ust) : Prop :=
  (index s < length (data s) ∨ data s = [] ∧ index s = 0)%nat
  ∧ (custom_undo_redo_levels ≠ 0 → length (data s) ≤ S custom_undo_redo_levels)%nat.

(** Only the history matters for it. *)
Definition same_history (s s' : ust) : Prop := index s' = index s ∧ data s' = data s.

Lemma same_history_ok s s' : same_history s s' → history_ok s → history_ok s'.
Proof. intros [E1 E2]. unfold history_ok. by rewrite E1, E2. Qed.

Lemma fire_history ev c s : same_history s (fire ev c s).
Proof. by destruct ev; cbn; try destruct (isDefaultPrevented _ c). Qed.

Lemma crop_data s : data (crop s) = take (S (index s)) (data s) ∧ index (crop s) = index s.
Proof.
  unfold crop. destruct (Nat.ltb_spec (S (index s)) (length (data s))); [done|].
  split; [|done]. by rewrite take_ge.
Qed.

(** The history after a level was pushed. *)
Lemma push_level_data c s :
  let d := alter (set_before (beforeBookmark s)) (index s) (data s) in
  let s1 := compress (set_data d s) in
  data (push_level c s) = take (S (index s1)) (data s1) ++ [MkLevel c (ed_getBookmark (ed s)) None]
  ∧ index (push_level c s) = (length (data (push_level c s)) - 1)%nat.
Proof.
  cbn zeta. unfold push_level. cbn zeta.
  set (s1 := compress _). destruct (crop_data s1) as [Hd Hi].
  assert (ed s1 = ed s) as Hed by (subst s1; unfold compress; by destruct (_ && _)).
  rewrite Hed. set (s2 := set_data (data (crop s1) ++ _) _).
  set (s3 := set_index (length (data s2) - 1)%nat s2).
  destruct (fire_history AddUndo c s3) as [F1 F2].
  destruct (0 <? index _)%nat; cbn [set_isNotDirty data index];
    [destruct (fire_history Change c (fire AddUndo c s3)) as [G1 G2]; rewrite G1, G2|];
    rewrite F1, F2; subst s3 s2; cbn [set_index set_data data index]; by rewrite Hd.
Qed.

Lemma push_level_ok c s : history_ok s → history_ok (push_level c s).
Proof.
  intros [Hi Hl]. destruct (push_level_data c s) as [Ed Ei]. cbn zeta in *.
  unfold history_ok. rewrite Ei, Ed. rewrite length_app, length_take. cbn [length].
  split; [lia|]. intros Hc. specialize (Hl Hc).
  set (d := alter _ _ (data s)) in *.
  assert (length d = length (data s)) as Hd by apply length_alter.
  unfold compress. rewrite (proj2 (Nat.eqb_neq _ 0) Hc). cbn [negb andb set_data data index].
  destruct (Nat.ltb_spec custom_undo_redo_levels (length d));
    cbn [data set_index set_data index]; [|lia].
  assert (length (tail d) = length d - 1)%nat by (destruct d; cbn; lia). lia.
Qed.

Lemma add_ok s : history_ok s → history_ok (add s).
Proof.
  intros Hs. unfold add. destruct (lock s); [done|].
  assert (history_ok (fire BeforeAddUndo (getContent s) s)) as Hf
    by (eapply same_history_ok; [apply fire_history|done]).
  destruct (isDefaultPrevented BeforeAddUndo _); [done|].
  destruct (_ !! _) as [l|]; [destruct (str_eqb _ _)|]; auto using push_level_ok.
Qed.

Lemma beforeChange_history s : same_history s (beforeChange s).
Proof. unfold beforeChange. by destruct (lock s). Qed.

Lemma undo_ok s : history_ok s → history_ok (undo s).1.
Proof.
  intros Hs. unfold undo. set (s1 := if typing s then _ else s).
  assert (history_ok s1) as [Hi Hl] by (subst s1; destruct (typing s); [by apply add_ok|done]).
  destruct (index s1) as [|i] eqn:Ei; [by split; cbn [fst]; rewrite ?Ei|].
  assert (history_ok (set_index i s1)) as Hok.
  { split; cbn [set_index index data]; [|done]. destruct Hi as [?|[_ ?]]; [left; lia|done]. }
  destruct (data s1 !! i) as [l|]; [|done].
  eapply same_history_ok; [apply fire_history|]. unfold show.
  destruct (Nat.eqb i 0); done.
Qed.

Lemma redo_ok s : history_ok s → history_ok (redo s).1.
Proof.
  intros [Hi Hl]. unfold redo.
  destruct (Nat.ltb_spec (S (index s)) (length (data s))) as [Hlt|]; [|done].
  destruct (_ !! _); [|done]. cbn [fst]. eapply same_history_ok; [apply fire_history|].
  split; cbn; [by left|done].
Qed.

Lemma KeyUp_ok k c s : history_ok s → history_ok (on_KeyUp k c s).
Proof.
  intros Hs. unfold on_KeyUp.
  set (s1 := if is_nav_key k || _ || _ then _ else s).
  assert (history_ok s1) as H1.
  { subst s1. destruct (is_nav_key k || (k =? 13) || c); [|done]. by apply (add_ok (set_typing false s)). }
  set (s2 := if (k =? 46) || _ || _ then _ else s1).
  assert (history_ok s2) as H2 by (subst s2; destruct ((k =? 46) || _ || _); exact H1).
  destruct (isFirstTypedCharacter s2 && typing s2); [|done].
  destruct (isNotDirty s2); [|done]. by destruct (head _) as [l|]; [destruct (str_eqb _ _)|].
Qed.

Lemma step_ok s s' : step s s' → history_ok s → history_ok s'.
Proof.
  intros Hst Hs. destruct Hst.
  - done.
  - eapply same_history_ok; [apply beforeChange_history|done].
  - by apply add_ok.
  - by apply undo_ok.
  - by apply redo_ok.
  - eapply same_history_ok; [apply fire_history|]. split; cbn; [by right|lia].
  - eapply (same_history_ok (beforeChange s)); [done|].
    eapply same_history_ok; [apply beforeChange_history|done].
  - by apply add_ok.
  - by apply add_ok.
  - unfold on_BeforeExecCommand. destruct (is_undo_cmd cmd); [done|].
    eapply same_history_ok; [apply beforeChange_history|done].
  - unfold on_ExecCommand. destruct (is_undo_cmd cmd); [done|by apply add_ok].
  - unfold on_focusout. destruct (_ && _); [by apply add_ok|done].
  - by apply KeyUp_ok.
  - unfold on_KeyDown. destruct (is_nav_key k); [destruct (typing s); [by apply add_ok|done]|].
    destruct (_ && _); [|done]. apply (add_ok (set_typing true (beforeChange s))).
    eapply (same_history_ok (beforeChange s)); [done|].
    eapply same_history_ok; [apply beforeChange_history|done].
  - unfold on_MouseDown. destruct (typing s); [by apply add_ok|done].
  - by destruct p.
Qed.

(** C29: Whatever the user and the editor do, in any order, the current index
    is that of a stored level (or the history is empty), and the history holds at most one
    level more than the setting. *)
Theorem reachable_history_ok s : reachable s → history_ok s.
Proof.
  intros [e Hr]. assert (history_ok (init e)) as H0 by (split; cbn; [by right|lia]).
  revert H0. induction Hr as [|s1 s2 s3 H12 _ IH]; [done|]. eauto using step_ok.
Qed.

(** ** The history a user sees *)

(** The contents before the current one, the current one, those that can be
    redone, and what the document shows. *)
Record hist := Hist {
  past : list jstr;
  present : option jstr;
  future : list jstr;
  cur : jstr
}.

Definition abs (s : ust) : hist :=
  let cs := content <$> data s in
  Hist (take (index s) cs) (cs !! index s) (drop (S (index s)) cs) (getContent s).

Inductive op := OpEdit (e : E) | OpAdd | OpUndo | OpRedo | OpClear.

Definition run_op (o : op) (s : ust) : ust :=
  match o with
  | OpEdit e => set_ed e s
  | OpAdd => add s
  | OpUndo => (undo s).1
  | OpRedo => (redo s).1
  | OpClear => clear s
  end.

(** Adding forgets the future, undoing moves the present there, redoing
    brings it back; the document follows, as the editor reads it back
    ([settle]). *)
Definition spec_op (settle : jstr -> jstr) (o : op) (h : hist) : hist :=
  match o with
  | OpEdit e => Hist (past h) (present h) (future h) (trim_content (ed_getContent e))
  | OpAdd =>
      if bool_decide (present h = Some (cur h)) then h
      else Hist (past h ++ option_list (present h)) (Some (cur h)) [] (cur h)
  | OpUndo =>
      match last (past h) with
      | Some c => Hist (take (length (past h) - 1) (past h)) (Some c)
                       (option_list (present h) ++ future h) (trim_content (settle c))
      | None => h
      end
  | OpRedo =>
      match future h with
      | c :: f => Hist (past h ++ option_list (present h)) (Some c) f (trim_content (settle c))
      | [] => h
      end
  | OpClear => Hist [] None [] (cur h)
  end.

Definition run_ops (os : list op) (s : ust) : ust := fold_left (λ s o, run_op o s) os s.
Definition spec_ops (settle : jstr -> jstr) (os : list op) (h : hist) : hist :=
  fold_left (λ h o, spec_op settle o h) os h.

(** Between commands: nobody types and no transaction is open. *)
Definition quiet (s : ust) : Prop := typing s = false ∧ lock s = false.

(** What [abs] and [quiet] look at. *)
Lemma fire_same ev c s :
  data (fire ev c s) = data s ∧ index (fire ev c s) = index s ∧ ed (fire ev c s) = ed s
  ∧ typing (fire ev c s) = typing s ∧ lock (fire ev c s) = lock s.
Proof. by destruct ev; cbn; try destruct (isDefaultPrevented _ c). Qed.

Lemma abs_ext s s' : data s' = data s → index s' = index s → getContent s' = getContent s → abs s' = abs s.
Proof. intros E1 E2 E3. unfold abs. by rewrite E1, E2, E3. Qed.

Lemma abs_fire ev c s : abs (fire ev c s) = abs s ∧ (quiet s → quiet (fire ev c s)).
Proof.
  destruct (fire_same ev c s) as (E1 & E2 & E3 & E4 & E5). split.
  - apply abs_ext; [done|done|]. unfold getContent. by rewrite E3.
  - unfold quiet. by rewrite E4, E5.
Qed.

Lemma alter_contents i b (d : list level) : content <$> alter (set_before b) i d = content <$> d.
Proof. revert i. induction d as [|l d IH]; intros [|i]; cbn; [done..|]. by rewrite IH. Qed.

Section Refinement.
Context (settle : jstr -> jstr) {HL : EditorLaws E B settle}.
Context (Hc : custom_undo_redo_levels = 0%nat) (Hprev : ∀ ev c, isDefaultPrevented ev c = false).

Lemma compress_none s : compress s = s.
Proof using Hc. unfold compress. by rewrite Hc. Qed.

Lemma push_level_abs c s : history_ok s → quiet s → getContent s = c →
  abs (push_level c s) = Hist (take (S (index s)) (content <$> data s)) (Some c) [] c
  ∧ quiet (push_level c s).
Proof using Hc.
  intros [Hi _] Hq Hcur. destruct (push_level_data c s) as [Ed Ei]. cbn zeta in *.
  rewrite compress_none in Ed. cbn [set_data data index] in Ed.
  assert (getContent (push_level c s) = c ∧ quiet (push_level c s)) as [Hg Hq'].
  { unfold push_level. cbn zeta. rewrite compress_none. set (s1 := crop _).
    assert (ed s1 = ed s ∧ quiet s1) as [He Hq1] by (subst s1; unfold crop; by destruct (Nat.ltb _ _)).
    set (s2 := set_index _ _). destruct (fire_same AddUndo c s2) as (_ & _ & F3 & F4 & F5).
    assert (ed s2 = ed s1 ∧ typing s2 = typing s1 ∧ lock s2 = lock s1) as (G1 & G2 & G3) by done.
    destruct Hq1 as [Q1 Q2].
    destruct (0 <? index _)%nat.
    - set (s3 := fire AddUndo c s2) in *. destruct (fire_same Change c s3) as (_ & _ & K3 & K4 & K5).
      unfold getContent, quiet. cbn [set_isNotDirty ed typing lock].
      rewrite K3, K4, K5, F3, F4, F5, G1, G2, G3, He. by split.
    - unfold getContent, quiet. rewrite F3, F4, F5, G1, G2, G3, He. by split. }
  split; [|done]. unfold abs. rewrite Hg, Ei, Ed. rewrite length_app. cbn [length].
  rewrite Nat.add_sub, fmap_app, fmap_take, alter_contents. cbn [fmap list_fmap content].
  set (cs := content <$> data s). rewrite length_take, length_alter.
  assert (length (take (S (index s)) cs) = S (index s) `min` length (data s))%nat as Hl
    by (rewrite length_take; subst cs; by rewrite length_fmap).
  rewrite <- Hl. rewrite take_app_length, drop_ge by (rewrite length_app; cbn; lia).
  f_equal. by rewrite list_lookup_middle.
Qed.

Lemma add_refines s : history_ok s → quiet s → abs (add s) = spec_op settle OpAdd (abs s) ∧ quiet (add s).
Proof using Hc Hprev.
  intros Hok Hq. unfold add. destruct Hq as [Ht Hl]. rewrite Hl, Hprev.
  set (c := getContent s). destruct (abs_fire BeforeAddUndo c s) as [Ha Hq].
  specialize (Hq (conj Ht Hl)). set (s1 := fire BeforeAddUndo c s) in *.
  assert (history_ok s1) as Hok1 by (eapply same_history_ok; [apply fire_history|done]).
  assert (getContent s1 = c) as Hg by done.
  destruct (data s1 !! index s1) as [l|] eqn:El.
  - assert (present (abs s) = Some (content l)) as Hp.
    { rewrite <- Ha. cbn [abs present]. by rewrite list_lookup_fmap, El. }
    cbn [spec_op]. rewrite Hp. change (cur (abs s)) with c. unfold str_eqb.
    destruct (decide (content l = c)) as [E1|E1].
    + rewrite !bool_decide_true by congruence. done.
    + rewrite !bool_decide_false by congruence.
      destruct (push_level_abs c s1 Hok1 Hq Hg) as [-> ?]. split; [|done].
      rewrite <- Ha. cbn [abs past present]. rewrite <- (take_S_r _ _ (content l)); [done|].
      by rewrite list_lookup_fmap, El.
  - assert (data s1 = [] ∧ index s1 = 0%nat) as [Ed Ei].
    { destruct Hok1 as [[Hi|?] _]; [|done]. apply lookup_lt_is_Some in Hi as [? ?]. congruence. }
    destruct (push_level_abs c s1 Hok1 Hq Hg) as [-> ?]. split; [|done].
    cbn [spec_op]. rewrite <- Ha. unfold abs. rewrite Ed, Ei. cbn. done.
Qed.

Lemma show_content c b s : getContent (show c b s) = trim_content (settle c).
Proof using HL. unfold getContent, show. cbn. by rewrite ed_get_move, (ed_get_set (settle := settle)). Qed.

Lemma undo_refines s : history_ok s → quiet s →
  abs (undo s).1 = spec_op settle OpUndo (abs s) ∧ quiet (undo s).1.
Proof using All.
  intros [Hi _] [Ht Hl]. unfold undo. rewrite Ht. cbn [spec_op abs past].
  destruct (index s) as [|i] eqn:Ei; [done|].
  destruct Hi as [Hi|[_ ?]]; [|done].
  destruct (lookup_lt_is_Some_2 (data s) i) as [l El]; [lia|]. rewrite El. cbn [fst].
  assert ((content <$> data s) !! i = Some (content l)) as Ec by (by rewrite list_lookup_fmap, El).
  rewrite (take_S_r _ _ _ Ec), last_snoc.
  set (s1 := if Nat.eqb i 0 then _ else _).
  assert (data s1 = data s ∧ index s1 = i ∧ quiet s1) as (E1 & E2 & Q1)
    by (subst s1; by destruct (Nat.eqb i 0)).
  destruct (abs_fire UndoEv (content l) (show (content l) (lv_beforeBookmark l) s1)) as [-> Hq].
  split; [|by apply Hq].
  unfold abs. rewrite show_content. unfold show. cbn [set_ed data index]. rewrite E1, E2, Ec.
  rewrite length_app. cbn [length]. rewrite Nat.add_sub, take_app_length.
  f_equal. destruct (lookup_lt_is_Some_2 (data s) (S i)) as [m Em]; [lia|].
  cbn [abs present future]. rewrite Ei, list_lookup_fmap, Em. cbn [option_list fmap option_fmap option_map app].
  apply drop_S. by rewrite list_lookup_fmap, Em.
Qed.

Lemma redo_refines s : history_ok s → quiet s →
  abs (redo s).1 = spec_op settle OpRedo (abs s) ∧ quiet (redo s).1.
Proof using All.
  intros [Hi _] [Ht Hl]. unfold redo. cbn [spec_op abs future].
  destruct (Nat.ltb_spec (S (index s)) (length (data s))) as [Hlt|Hge].
  - destruct (lookup_lt_is_Some_2 (data s) (S (index s))) as [l El]; [lia|].
    destruct (lookup_lt_is_Some_2 (data s) (index s)) as [m Em]; [lia|]. rewrite El. cbn [fst].
    assert ((content <$> data s) !! S (index s) = Some (content l)) as Ec by (by rewrite list_lookup_fmap, El).
    assert ((content <$> data s) !! index s = Some (content m)) as Ec' by (by rewrite list_lookup_fmap, Em).
    rewrite (drop_S _ _ _ Ec).
    set (s1 := set_index (S (index s)) s).
    destruct (abs_fire RedoEv (content l) (show (content l) (Some (bookmark l)) s1)) as [-> Hq].
    split; [|by apply Hq]. unfold abs. rewrite show_content. unfold show. cbn [set_ed set_index data index s1].
    rewrite Ec, Ec'. by rewrite (take_S_r _ _ _ Ec').
  - rewrite drop_ge by (rewrite length_fmap; lia). done.
Qed.

Lemma op_refines o s : history_ok s → quiet s →
  abs (run_op o s) = spec_op settle o (abs s) ∧ history_ok (run_op o s) ∧ quiet (run_op o s).
Proof using All.
  intros Hok Hq. assert (history_ok (run_op o s)) as Hok'.
  { destruct o; cbn [run_op]; [done|by apply add_ok|by apply undo_ok|by apply redo_ok|].
    apply (step_ok s); [constructor|done]. }
  destruct o; cbn [run_op] in *.
  - done.
  - by destruct (add_refines s Hok Hq).
  - by destruct (undo_refines s Hok Hq).
  - by destruct (redo_refines s Hok Hq).
  - split; [|split; [done|]].
    + unfold clear. destruct (abs_fire ClearUndos [] (set_typing false (set_index 0%nat (set_data [] s)))) as [-> _].
      done.
    + unfold clear. destruct (abs_fire ClearUndos [] (set_typing false (set_index 0%nat (set_data [] s)))) as [_ Hq'].
      apply Hq'. by destruct Hq.
Qed.

(** C28: Without a level limit the manager implements the history a user sees: any
    sequence of edits, added levels, undos, redos and clears that starts between
    commands leads to the same past, present and future as on the abstract history, when no
    listener prevents an event. After an undo or redo the document is
    that level as the editor reads it back once it was set: [settle] is any
    function, for Editor.js its padding of empty content and its
    trimming, followed by what the browser makes of the text. *)
Theorem history_refines os s : history_ok s → quiet s →
  abs (run_ops os s) = spec_ops settle os (abs s).
Proof using All.
  revert s. induction os as [|o os IH]; intros s Hok Hq; [done|].
  unfold run_ops, spec_ops in *. cbn [fold_left].
  destruct (op_refines o s Hok Hq) as (E1 & Hok' & Hq'). by rewrite IH, E1.
Qed.
End Refinement.

(** ** The level limit *)

(** C30: When the history is over the limit, between commands and where the new content differs from the current level, adding a level drops the oldest
    one and appends the new one, wherever the index was: levels that were undone stay in
    front of the new one, and the next undo shows the last of them. *)
Theorem add_over_limit s c : quiet s → history_ok s →
  (∀ c, isDefaultPrevented BeforeAddUndo c = false) →
  custom_undo_redo_levels ≠ 0%nat → (custom_undo_redo_levels < length (data s))%nat →
  getContent s = c → present (abs s) ≠ Some c →
  content <$> data (add s) = tail (content <$> data s) ++ [c]
  ∧ index (add s) = (length (data s) - 1)%nat.
Proof.
  intros [Ht Hl] Hok Hp Hc0 Hlim Hcur Hpres. unfold add. rewrite Hl, Hp, Hcur.
  set (s1 := fire BeforeAddUndo c s).
  assert (data s1 = data s ∧ index s1 = index s) as [E1 E2] by done.
  assert (∀ (P : ust → Prop), P (push_level c s1) →
    P match data s1 !! index s1 with
      | Some lastLevel => if str_eqb (content lastLevel) c then s1 else push_level c s1
      | None => push_level c s1
      end) as Hcase.
  { intros P HP. rewrite E1, E2. cbn [present abs] in Hpres. rewrite list_lookup_fmap in Hpres.
    destruct (data s !! index s) as [l|]; [|done]. cbn in Hpres.
    unfold str_eqb. by rewrite bool_decide_false by congruence. }
  apply Hcase. destruct (push_level_data c s1) as [Ed Ei]. cbn zeta in *. rewrite Ei, Ed.
  set (d := alter _ _ (data s1)).
  assert (length d = length (data s)) as Hd by (subst d; by rewrite length_alter, E1).
  assert (content <$> d = content <$> data s) as Hcd by (subst d; by rewrite alter_contents, E1).
  unfold compress. rewrite (proj2 (Nat.eqb_neq _ 0) Hc0). cbn [negb andb set_data data index].
  rewrite (proj2 (Nat.ltb_lt _ _)) by (by rewrite Hd). cbn [set_index set_data data index].
  rewrite take_ge by lia. rewrite length_app, fmap_app. cbn [length fmap list_fmap content].
  rewrite <- Hcd, <- Hd. destruct d as [|l d]; cbn; [cbn in Hd; lia|]. split; [done|lia].
Qed.
End UndoManager.
Arguments level B : clear implicits.
Arguments ust E B : clear implicits.

(** ** Instances: an editor that is its content *)
Definition text_editor : Editor jstr unit :=
  {| ed_getContent := λ e, e; ed_setContent := λ c _, c; ed_getBookmark := λ _, tt;
     ed_moveToBookmark := λ _ e, e |}.

(** The editor of Editor.js with the default root block, in a browser that
    keeps the text. *)
Definition p_readback : jstr -> jstr := read_back (Some (js "p")) [] (λ _, true) None (λ c, c) (λ h, h).
Definition p_editor : Editor jstr unit :=
  body_editor (Some (js "p")) [] (λ _, true) None (λ c, c) (λ h, h) unit (λ _, tt).
Definition padded : jstr := js "<p><br data-mce-bogus=" ++ [34] ++ js "1" ++ [34] ++ js "></p>".

Abbreviation no_one := (λ (_ : undo_event) (_ : jstr), false).
Abbreviation lv s := (MkLevel (js s) tt None).

Example trim_content_example :
  trim_content (js " <p data-mce-selected=" ++ [34] ++ js "1" ++ [34] ++ js ">x</p> ") = js "<p>x</p>".
Proof. vm_compute. reflexivity. Qed.

Lemma reachable_history_ok_witness :
  history_ok 2 (undo (H := text_editor) 2 no_one
    (add (H := text_editor) 2 no_one (set_ed (js "b")
      (add (H := text_editor) 2 no_one (init (js "a")))))).1.
Proof.
  apply (reachable_history_ok (H := text_editor) 2 false no_one). exists (js "a").
  eapply rtc_r; [eapply rtc_r; [eapply rtc_r; [eapply rtc_r; [apply rtc_refl|apply step_add]|
    apply step_edit]|apply step_add]|apply step_undo].
Defined.

(** Four levels under a limit of three, two of them undone. *)
Definition over_limit : ust jstr unit :=
  MkUst 1 [lv "a"; lv "b"; lv "c"; lv "d"] None false false false false (js "x") [].

Lemma add_over_limit_witness :
  content <$> data (add (H := text_editor) 3 no_one over_limit) = js <$> ["b"; "c"; "d"; "x"]%string
  ∧ index (add (H := text_editor) 3 no_one over_limit) = 3%nat.
Proof.
  apply (add_over_limit (H := text_editor) 3 no_one over_limit (js "x")).
  - by split.
  - split; cbn; [left|]; lia.
  - done.
  - done.
  - cbn. lia.
  - by vm_compute.
  - by vm_compute.
Defined.

(** Two levels, the first empty; it is padded when it is shown again. *)
Lemma history_refines_witness :
  abs (H := p_editor) (run_ops (H := p_editor) 0 no_one
      [OpAdd; OpEdit (js "b"); OpAdd; OpUndo] (init []))
    = Hist [] (Some []) [js "b"] padded
  ∧ abs (H := p_editor) (run_ops (H := p_editor) 0 no_one
      [OpAdd; OpEdit (js "b"); OpAdd; OpUndo; OpRedo] (init []))
    = Hist [[]] (Some (js "b")) [] (js "b").
Proof.
  pose proof (body_editor_laws (Some (js "p")) [] (λ _, true) None (λ c, c) (λ h, h) unit (λ _, tt)) as HL.
  split; rewrite (history_refines (H := p_editor) 0 false no_one p_readback (HL := HL)); try done;
    try (split; cbn; [by right|lia]); by vm_compute.
Defined.

(** Undoing to an empty level shows it padded: the next command, which changes
    nothing, adds a level for that, and what could be redone is lost. *)
Example undo_to_empty_loses_redo :
  let s := run_ops (H := p_editor) 0 no_one
      [OpAdd; OpEdit (js "b"); OpAdd; OpUndo; OpAdd] (init []) in
  abs (H := p_editor) s = Hist [[]] (Some padded) [] padded
  ∧ hasRedo s = false.
Proof. by vm_compute. Qed.
