(* ===== verification/JSON.v ===== *)
(** * classes/util/JSON.js

    Writing a value as a JavaScript literal and reading it back.  [parse]
    evaluates the text; the evaluator is modelled on the literals the language has for
    these values: quoted strings with their escapes, decimal integers, names,
    array and object literals. *)

From S2P Require Import Prelude Regexp NodeAttrs.

(** Numbers are integers, below 2^53 in absolute value where they are
    written; a function is its source text, and an object its own enumerable
    properties in the order [for in] gives them. *)
Inductive json :=
  | JNull
  | JUndefined
  | JBool (b : bool)
  | JNum (n : Z)
  | JStr (s : jstr)
  | JFun (src : jstr)
  | JArr (l : list json)
  | JObj (ps : Obj.t json).

Section JsonInd.
Context (P : json -> Prop).
Context (Hnull : P JNull) (Hundef : P JUndefined) (Hbool : ∀ b, P (JBool b)) (Hnum : ∀ n, P (JNum n))
  (Hstr : ∀ s, P (JStr s)) (Hfun : ∀ s, P (JFun s)) (Harr : ∀ l, Forall P l → P (JArr l))
  (Hobj : ∀ ps, Forall (λ p, P p.2) ps → P (JObj ps)).

Fixpoint json_ind' (v : json) : P v :=
  match v with
  | JNull => Hnull
  | JUndefined => Hundef
  | JBool b => Hbool b
  | JNum n => Hnum n
  | JStr s => Hstr s
  | JFun s => Hfun s
  | JArr l => Harr l ((fix go (l : list json) : Forall P l :=
      match l with [] => Forall_nil_2 _ | v :: l => Forall_cons_2 _ _ _ (json_ind' v) (go l) end) l)
  | JObj ps => Hobj ps ((fix go (ps : list (jstr * json)) : Forall (λ p, P p.2) ps :=
      match ps with
      | [] => Forall_nil_2 _
      | p :: ps => Forall_cons_2 _ _ _ (json_ind' p.2) (go ps)
      end) ps)
  end.
End JsonInd.

(** ** serialize *)

(** The table of the short escapes: each special unit before its letter. *)
Definition escapes : jstr := [8; 98; 9; 116; 10; 110; 12; 102; 13; 114; 34; 34; 39; 39; 92; 92].

Definition special (c : Z) : bool :=
  between 0x80 0xFFFF c || between 0 0x1f c || (c =? 34) || (c =? 39) || (c =? 92).

Definition hex4 (c : Z) : jstr :=
  let a := num_to_string 16 c in drop (length a) (js "0000") ++ a.

Definition escape (quote : Z) (c : Z) : jstr :=
  if (quote =? 34) && (c =? 39) then [c]
  else match index_of_unit c escapes with
       | Some i => [92; default 0 (escapes !! S i)]
       | None => [92; 117] ++ hex4 c
       end.

Definition serialize_str (quote : Z) (s : jstr) : jstr :=
  [quote] ++ replace_all (RSet special) (λ m, mjoin (escape quote <$> m_text m)) s ++ [quote].

Definition z_to_string (n : Z) : jstr :=
  if n <? 0 then js "-" ++ num_to_string 10 (- n) else num_to_string 10 n.

Definition is_function (v : json) : bool := match v with JFun _ => true | _ => false end.

(** [o.hasOwnProperty(name)] for a name of [o]: the inherited function is
    true there; an own property of that name is called in its place, which throws when it is no
    function. *)
Section Serialize.
(** What a function with this source returns for an argument, as a truth
    value; [None] when it throws. *)
Context (call : jstr -> jstr -> option bool).

Definition hasOwnProperty (ps : Obj.t json) (name : jstr) : option bool :=
  match Obj.get (js "hasOwnProperty") ps with
  | None => Some true
  | Some (JFun src) => call src name
  | Some _ => None
  end.

(** [quote] is the one unit of the quote string; [None] is an exception. *)
Fixpoint serialize (quote : Z) (o : json) : option jstr :=
  match o with
  | JNull => Some (js "null")
  | JStr s => Some (serialize_str quote s)
  | JArr l =>
      st ← fold_left (λ st x, st ← st; t ← serialize quote x;
               Some (S st.1, st.2 ++ (if (0 <? st.1)%nat then js "," else []) ++ t))
             l (Some (0%nat, js "["));
      Some (st.2 ++ js "]")
  | JObj ps =>
      v ← fold_left (λ v p, v ← v; own ← hasOwnProperty ps p.1;
            if own : bool then
              if is_function p.2 then Some v
              else t ← serialize quote p.2;
                   Some (v ++ (if (1 <? length v)%nat then js "," ++ [quote] else [quote]) ++ p.1 ++ [quote]
                           ++ js ":" ++ t)
            else Some v) ps (Some (js "{"));
      Some (v ++ js "}")
  | JUndefined => Some (js "undefined")
  | JBool b => Some (if b then js "true" else js "false")
  | JNum n => Some (z_to_string n)
  | JFun s => Some s
  end.
End Serialize.

(** No object here has a function of its own named hasOwnProperty. *)
Definition no_call : jstr -> jstr -> option bool := λ _ _, None.

(** ** parse *)
Definition hex_val (a b c d : Z) : option Z :=
  a ← unit_digit a; b ← unit_digit b; c ← unit_digit c; d ← unit_digit d;
  if (a <? 16) && (b <? 16) && (c <? 16) && (d <? 16)
  then Some (((a * 16 + b) * 16 + c) * 16 + d) else None.

Definition single_escape (e : Z) : Z :=
  if e =? 98 then 8 else if e =? 116 then 9 else if e =? 110 then 10
  else if e =? 102 then 12 else if e =? 114 then 13 else if e =? 118 then 11 else e.

(** A string literal after its opening quote. *)
Fixpoint read_str (quote : Z) (acc s : jstr) : option (jstr * jstr) :=
  match s with
  | [] => None
  | c :: s =>
      if c =? quote then Some (acc, s)
      else if c =? 92 then
        match s with
        | [] => None
        | e :: s =>
            if e =? 117 then
              match s with
              | a :: b :: c :: d :: s => x ← hex_val a b c d; read_str quote (acc ++ [x]) s
              | _ => None
              end
            else read_str quote (acc ++ [single_escape e]) s
        end
      else if (c =? 10) || (c =? 13) || (c =? 0x2028) || (c =? 0x2029) then None
      else read_str quote (acc ++ [c]) s
  end.

Fixpoint take_digits (acc : Z) (s : jstr) : Z * jstr :=
  match s with
  | c :: s' => if is_digit c then take_digits (acc * 10 + (c - 48)) s' else (acc, s)
  | [] => (acc, [])
  end.

Definition read_num (s : jstr) : option (json * jstr) :=
  match s with
  | c :: s' =>
      if c =? 45 then
        match s' with
        | d :: _ => if is_digit d then let '(n, r) := take_digits 0 s' in Some (JNum (- n), r) else None
        | [] => None
        end
      else if is_digit c then let '(n, r) := take_digits 0 s in Some (JNum n, r) else None
  | [] => None
  end.

Definition names : list (jstr * json) :=
  [(js "null", JNull); (js "undefined", JUndefined); (js "true", JBool true); (js "false", JBool false)].

Definition read_name (s : jstr) : option (json * jstr) :=
  match List.find (λ p, starts_with p.1 s) names with
  | Some (k, v) => Some (v, drop (length k) s)
  | None => None
  end.

(** A property of an object literal; __proto__ sets the prototype and is
    no own property. *)
Definition add_member (k : jstr) (v : json) (ps : Obj.t json) : Obj.t json :=
  if str_eqb k (js "__proto__") then ps else Obj.set k v ps.

(** [s] without its first unit when that is [c]. *)
Definition skip (c : Z) (s : jstr) : option jstr :=
  match s with x :: s' => if x =? c then Some s' else None | [] => None end.

Fixpoint read_value (fuel : nat) (s : jstr) : option (json * jstr) :=
  match fuel with
  | O => None
  | S f =>
      match s with
      | [] => None
      | c :: r =>
          if (c =? 34) || (c =? 39) then (λ p, (JStr p.1, p.2)) <$> read_str c [] r
          else if c =? 91 then
            match skip 93 r with
            | Some r => Some (JArr [], r)
            | None => read_elems f [] r
            end
          else if c =? 123 then
            match skip 125 r with
            | Some r => Some (JObj [], r)
            | None => read_members f [] r
            end
          else match read_name s with Some x => Some x | None => read_num s end
      end
  end
with read_elems (fuel : nat) (acc : list json) (s : jstr) : option (json * jstr) :=
  match fuel with
  | O => None
  | S f =>
      p ← read_value f s;
      match skip 44 p.2 with
      | Some r => read_elems f (acc ++ [p.1]) r
      | None => (λ r, (JArr (acc ++ [p.1]), r)) <$> skip 93 p.2
      end
  end
with read_members (fuel : nat) (acc : Obj.t json) (s : jstr) : option (json * jstr) :=
  match fuel with
  | O => None
  | S f =>
      match s with
      | [] => None
      | q :: s =>
          if (q =? 34) || (q =? 39) then
            k ← read_str q [] s;
            r ← skip 58 k.2;
            p ← read_value f r;
            match skip 44 p.2 with
            | Some r => read_members f (add_member k.1 p.1 acc) r
            | None => (λ r, (JObj (add_member k.1 p.1 acc), r)) <$> skip 125 p.2
            end
          else None
      end
  end.

(** [parse(text)]: undefined when the text is no literal. *)
Definition parse (text : jstr) : option json :=
  match read_value (length text) text with
  | Some (v, []) => Some v
  | _ => None
  end.

Example serialize_example :
  serialize no_call 34 (JObj [(js "a", JArr [JNum (-12); JStr [34; 39; 10; 233]; JNull]); (js "f", JFun (js "x"));
                      (js "b", JBool true)])
    = Some (js "{" ++ [34] ++ js "a" ++ [34] ++ js ":[-12," ++ [34; 92; 34; 39] ++ js "\n\u00e9" ++ [34]
        ++ js ",null]," ++ [34] ++ js "b" ++ [34] ++ js ":true}").
Proof. vm_compute. reflexivity. Qed.

Example parse_example :
  serialize no_call 34 (JArr [JNum (-12); JStr [34; 39; 10; 233]; JObj []]) ≫= parse
    = Some (JArr [JNum (-12); JStr [34; 39; 10; 233]; JObj []]).
Proof. vm_compute. reflexivity. Qed.

(** An object with a property named hasOwnProperty is not written: the call
    of what is no function throws. *)
Example serialize_own_name_throws :
  serialize no_call 34 (JObj [(js "a", JNull); (js "hasOwnProperty", JBool true)]) = None.
Proof. vm_compute. reflexivity. Qed.

(** ** Round trip *)

(** The values whose literal is read back: no function, integers a number
    holds exactly, code units, distinct property names that need no escape (they are written
    as they are) and neither name the prototype nor hide hasOwnProperty. *)
Definition plain_name (quote : Z) (k : jstr) : Prop :=
  k ≠ js "__proto__" ∧ k ≠ js "hasOwnProperty" ∧ Forall (λ c, c ≠ quote ∧ c ≠ 92 ∧ c ≠ 10 ∧ c ≠ 13 ∧ c ≠ 0x2028 ∧ c ≠ 0x2029) k.

Inductive literal (quote : Z) : json -> Prop :=
  | lit_null : literal quote JNull
  | lit_undefined : literal quote JUndefined
  | lit_bool b : literal quote (JBool b)
  | lit_num n : Z.abs n < 2 ^ 53 → literal quote (JNum n)
  | lit_str s : Forall is_unit s → literal quote (JStr s)
  | lit_arr l : Forall (literal quote) l → literal quote (JArr l)
  | lit_obj ps : NoDup (Obj.keys ps) → Forall (plain_name quote) (Obj.keys ps) →
      Forall (λ p, literal quote p.2) ps → literal quote (JObj ps).

Definition is_quote (q : Z) : Prop := q = 34 ∨ q = 39.

(** *** Strings *)
Lemma digits_rev_length k : ∀ fuel n, 0 <= n < 16 ^ Z.of_nat (S k) →
  (length (digits_rev fuel 16 n) ≤ S k)%nat.
Proof.
  induction k as [|k IH]; intros [|f] n Hn; cbn [digits_rev length]; try lia;
    destruct (Z.ltb_spec n 16); cbn [length]; try lia.
  apply le_n_S, IH. rewrite (Nat2Z.inj_succ (S k)), Z.pow_succ_r in Hn by lia.
  split; [apply Z.div_pos; lia|]. apply Z.div_lt_upper_bound; lia.
Qed.

(** The padded digits are four, and read as the number. *)
Lemma hex4_val n : is_unit n → ∃ a b c d, hex4 n = [a; b; c; d] ∧ hex_val a b c d = Some n.
Proof.
  intros Hn. unfold is_unit in Hn. unfold hex4.
  pose proof (num_to_string_units 16 ltac:(lia) n ltac:(lia)) as HF.
  pose proof (read_num_to_string 16 ltac:(lia) n [] ltac:(lia)) as Hr. rewrite app_nil_r in Hr.
  assert (length (num_to_string 16 n) ≤ 4)%nat as Hl.
  { unfold num_to_string. rewrite length_reverse. apply (digits_rev_length 3). lia. }
  destruct (num_to_string_cons 16 ltac:(lia) n ltac:(lia)) as (d0 & s0 & E & _).
  destruct (num_to_string 16 n) as [|x1 [|x2 [|x3 [|x4 [|x5 l]]]]]; [done|..|cbn in Hl; lia];
    rewrite ?Forall_cons in HF; destruct_and? HF;
    repeat match goal with H : ∃ d, _ |- _ => destruct H as (? & -> & ?) end;
    change (js "0000") with [48; 48; 48; 48]; cbn [length drop app] in *; eexists _, _, _, _; (split; [reflexivity|]);
    unfold hex_val; cbn [read_digits] in Hr; rewrite ?unit_digit_unit in * by lia;
    change (unit_digit 48) with (Some 0); cbn [mbind option_bind] in *;
    repeat match goal with
      | H : 0 <= ?d < 16 |- _ => rewrite (proj2 (Z.ltb_lt d 16)) in * by lia; revert H
      end; intros; cbn [andb Z.ltb Z.compare]; f_equal; lia.
Qed.

Lemma read_hex q acc n t : is_unit n → q ≠ 92 →
  read_str q acc ([92; 117] ++ hex4 n ++ t) = read_str q (acc ++ [n]) t.
Proof.
  intros Hn Hq. destruct (hex4_val n Hn) as (a & b & c & d & -> & Hv). cbn [app read_str].
  rewrite (proj2 (Z.eqb_neq 92 q)) by done. change (92 =? 92) with true. cbn.
  by rewrite Hv.
Qed.

Lemma read_escape q acc c t : is_quote q → is_unit c → special c = true →
  read_str q acc (escape q c ++ t) = read_str q (acc ++ [c]) t.
Proof.
  intros Hq Hc Hs. unfold escape.
  destruct (decide (c ∈ [8; 9; 10; 12; 13; 34; 39; 92])) as [Hin|Hin].
  - repeat (apply elem_of_cons in Hin as [->|Hin]; [by destruct Hq as [-> | ->]|]). by apply elem_of_nil in Hin.
  - rewrite !not_elem_of_cons in Hin. destruct Hin as (H8&H9&H10&H12&H13&H34&H39&H92&_).
    rewrite (proj2 (Z.eqb_neq c 39)), andb_false_r by done.
    assert (index_of_unit c escapes = None) as ->.
    { unfold special, between in Hs. unfold escapes. cbn [index_of_unit].
      repeat (rewrite (proj2 (Z.eqb_neq _ c)) by lia). done. }
    rewrite <- app_assoc. apply read_hex; [done|]. destruct Hq; lia.
Qed.

Lemma read_serialize_str q s t : is_quote q → Forall is_unit s →
  ∀ acc, read_str q acc (replace_all (RSet special) (λ m, mjoin (escape q <$> m_text m)) s ++ q :: t)
    = Some (acc ++ s, t).
Proof.
  intros Hq Hs. rewrite (replace_all_set special (λ x, mjoin (escape q <$> x))).
  induction Hs as [|c s Hc Hs IH]; intros acc.
  - cbn. rewrite Z.eqb_refl, app_nil_r. done.
  - cbn [fmap list_fmap mjoin list_join]. destruct (special c) eqn:E.
    + cbn [fmap list_fmap mjoin list_join]. rewrite app_nil_r, <- app_assoc, read_escape by done.
      rewrite IH, <- app_assoc. done.
    + unfold special, between in E. cbn [app read_str].
      rewrite (proj2 (Z.eqb_neq c q)) by (destruct Hq; lia).
      rewrite (proj2 (Z.eqb_neq c 92)) by lia.
      rewrite !(proj2 (Z.eqb_neq c _)) by (unfold is_unit in Hc; lia). cbn.
      by rewrite IH, <- app_assoc.
Qed.

Lemma read_plain_name q k t : q ≠ 92 → plain_name q k → ∀ acc, read_str q acc (k ++ q :: t) = Some (acc ++ k, t).
Proof.
  intros Hq [_ [_ Hk]]. induction Hk as [|c k (H1&H2&H3&H4&H5&H6) _ IH]; intros acc; cbn [app read_str].
  - by rewrite Z.eqb_refl, app_nil_r.
  - rewrite !(proj2 (Z.eqb_neq c _)) by done. cbn. by rewrite IH, <- app_assoc.
Qed.

(** *** Numbers *)
Definition stops (t : jstr) : Prop := match t with c :: _ => is_digit c = false | [] => True end.

Lemma take_digits_read s t : Forall (λ c, is_digit c = true) s → stops t →
  ∀ acc, take_digits acc (s ++ t) = (read_digits 10 acc s, t).
Proof.
  intros Hs Ht. induction Hs as [|c s Hc _ IH]; intros acc; cbn [app take_digits].
  - destruct t as [|c t]; [done|]. cbn in *. by rewrite Ht.
  - rewrite Hc, IH. cbn. unfold is_digit in Hc. unfold unit_digit. rewrite Hc.
    unfold between in Hc. rewrite (proj2 (Z.ltb_lt _ _)) by lia. done.
Qed.

Lemma num_digits n : 0 <= n → Forall (λ c, is_digit c = true) (num_to_string 10 n).
Proof.
  intros Hn. eapply Forall_impl; [by apply num_to_string_units; lia|].
  intros c (d & -> & Hd). unfold is_digit, between, digit_unit.
  rewrite (proj2 (Z.ltb_lt d 10)) by lia. lia.
Qed.

Lemma take_digits_num n t : 0 <= n → stops t → take_digits 0 (num_to_string 10 n ++ t) = (n, t).
Proof.
  intros Hn Ht. rewrite take_digits_read by auto using num_digits.
  pose proof (read_num_to_string 10 ltac:(lia) n [] Hn) as E. rewrite app_nil_r in E. by rewrite E.
Qed.

Lemma z_to_string_head n : ∃ c s, z_to_string n = c :: s ∧ (c = 45 ∨ is_digit c = true).
Proof.
  unfold z_to_string. destruct (Z.ltb_spec n 0); [eauto|].
  destruct (num_to_string_cons 10 ltac:(lia) n ltac:(lia)) as (d & s & E & _).
  exists (digit_unit d), s. split; [done|right]. pose proof (num_digits n ltac:(lia)) as HF.
  rewrite E in HF. by inv HF.
Qed.

Lemma read_num_ok n t : stops t → read_num (z_to_string n ++ t) = Some (JNum n, t).
Proof.
  intros Ht. unfold z_to_string. destruct (Z.ltb_spec n 0) as [Hn|Hn].
  - destruct (num_to_string_cons 10 ltac:(lia) (- n) ltac:(lia)) as (d & s & E & _).
    pose proof (take_digits_num (- n) t ltac:(lia) Ht) as Et.
    pose proof (num_digits (- n) ltac:(lia)) as HF.
    rewrite E in *. inv HF as [|? ? Hd _]. change (js "-") with [45].
    cbn [app read_num] in Et |- *. change (45 =? 45) with true. cbv iota. rewrite Hd, Et.
    by rewrite Z.opp_involutive.
  - destruct (num_to_string_cons 10 ltac:(lia) n ltac:(lia)) as (d & s & E & _).
    pose proof (take_digits_num n t ltac:(lia) Ht) as Et.
    pose proof (num_digits n ltac:(lia)) as HF. rewrite E in *. inv HF as [|? ? Hd _].
    cbn [app read_num] in *. rewrite Hd. rewrite (proj2 (Z.eqb_neq _ 45)); [by rewrite Et|].
    unfold is_digit, between in Hd. lia.
Qed.

(** *** Values *)

(** The fuel a value needs. *)
Fixpoint need (v : json) : nat :=
  match v with
  | JArr l => S (sum_list_with (λ x, S (need x)) l)
  | JObj ps => S (sum_list_with (λ p, S (need p.2)) ps)
  | _ => 1
  end.

(** The text of a literal, written down directly. *)
Fixpoint literal_text (q : Z) (v : json) : jstr :=
  match v with
  | JNull => js "null"
  | JUndefined => js "undefined"
  | JBool b => if b then js "true" else js "false"
  | JNum n => z_to_string n
  | JStr s => serialize_str q s
  | JFun s => s
  | JArr [] => js "[]"
  | JArr (x :: l) => js "[" ++ literal_text q x ++ mjoin ((λ x, js "," ++ literal_text q x) <$> l) ++ js "]"
  | JObj [] => js "{}"
  | JObj (p :: ps) =>
      let member := λ p : jstr * json, [q] ++ p.1 ++ [q] ++ js ":" ++ literal_text q p.2 in
      js "{" ++ member p ++ mjoin ((λ p, js "," ++ member p) <$> ps) ++ js "}"
  end.

Definition elems_text (q : Z) (l : list json) : jstr := mjoin ((λ x, js "," ++ literal_text q x) <$> l).
Definition member_text (q : Z) (p : jstr * json) : jstr :=
  [q] ++ p.1 ++ [q] ++ js ":" ++ literal_text q p.2.
Definition members_text (q : Z) (ps : Obj.t json) : jstr :=
  mjoin ((λ p, js "," ++ member_text q p) <$> ps).

Lemma literal_arr q x l :
  literal_text q (JArr (x :: l)) = js "[" ++ literal_text q x ++ elems_text q l ++ js "]".
Proof. done. Qed.

Lemma literal_obj q p ps :
  literal_text q (JObj (p :: ps)) = js "{" ++ member_text q p ++ members_text q ps ++ js "}".
Proof. done. Qed.

(** The first unit of a literal tells the reader what it is. *)
Lemma serialize_head q v : is_quote q → literal q v →
  ∃ c s, literal_text q v = c :: s ∧ c ≠ 93 ∧ c ≠ 44 ∧ c ≠ 125 ∧ (1 ≤ length (literal_text q v))%nat.
Proof.
  intros Hq Hv. inv Hv; try (eexists _, _; split_and!; [reflexivity|..]; cbn; lia || done).
  - destruct b; eexists _, _; split_and!; [reflexivity|..]; cbn; lia || done.
  - cbn [literal_text]. destruct (z_to_string_head n) as (c & s & -> & Hc). exists c, s.
    unfold is_digit, between in Hc. split_and!; [done|lia|lia|lia|cbn; lia].
  - eexists _, _. split_and!; [reflexivity|..]; [destruct Hq; lia..|cbn; lia].
  - destruct l as [|x l]; [|rewrite literal_arr]; eexists _, _; split_and!; [reflexivity|..]; cbn; lia || done.
  - destruct ps as [|p ps]; [|rewrite literal_obj]; eexists _, _; split_and!; [reflexivity|..]; cbn; lia || done.
Qed.

Lemma literal_not_function q v : literal q v → is_function v = false.
Proof. by intros []. Qed.

Lemma skip_eq c s : skip c (c :: s) = Some s.
Proof. cbn. by rewrite Z.eqb_refl. Qed.
Lemma skip_ne c x s : x ≠ c → skip c (x :: s) = None.
Proof. intros. cbn. by rewrite (proj2 (Z.eqb_neq x c)). Qed.

Definition readable (q : Z) (v : json) : Prop :=
  ∀ fuel t, (need v ≤ fuel)%nat → stops t → read_value fuel (literal_text q v ++ t) = Some (v, t).

Lemma read_elems_ok q l : is_quote q → Forall (literal q) l → Forall (readable q) l →
  ∀ x acc fuel t, readable q x → (sum_list_with (λ x, S (need x)) (x :: l) ≤ fuel)%nat →
  read_elems fuel acc (literal_text q x ++ elems_text q l ++ js "]" ++ t)
    = Some (JArr (acc ++ x :: l), t).
Proof.
  intros Hq Hl Hr. induction Hr as [|y l Hy Hr IH]; intros x acc fuel t Hx Hf; cbn in Hf;
    (destruct fuel as [|f]; [lia|]); cbn [read_elems].
  - rewrite Hx; [|lia|done]. done.
  - apply Forall_cons in Hl as [_ Hl].
    change (elems_text q (y :: l)) with ((44 :: literal_text q y) ++ elems_text q l).
    rewrite <- app_assoc. cbn [app].
    rewrite Hx; [|lia|done]. cbn [mbind option_bind fst snd].
    rewrite skip_eq. rewrite (IH Hl y (acc ++ [x]) f t Hy) by (cbn; lia).
    by rewrite <- app_assoc.
Qed.

Lemma add_member_new k v (ps : Obj.t json) : k ≠ js "__proto__" → k ∉ Obj.keys ps → add_member k v ps = ps ++ [(k, v)].
Proof.
  intros Hk Hn. unfold add_member. rewrite (proj2 (str_eqb_false _ _)) by done.
  by apply Obj.keys_set_new, Obj.get_None_keys.
Qed.

Lemma read_members_ok q ps : is_quote q → Forall (plain_name q) (Obj.keys ps) →
  Forall (λ p, readable q p.2) ps →
  ∀ p acc fuel t, plain_name q p.1 → readable q p.2 → NoDup (Obj.keys (acc ++ p :: ps)) →
  (sum_list_with (λ p, S (need p.2)) (p :: ps) ≤ fuel)%nat →
  read_members fuel acc (member_text q p ++ members_text q ps ++ js "}" ++ t)
    = Some (JObj (acc ++ p :: ps), t).
Proof.
  intros Hq Hn Hr. induction Hr as [|p2 ps Hp2 Hr IH]; intros [k v] acc fuel t Hk Hv Hd Hf; cbn in Hf;
    (destruct fuel as [|f]; [lia|]); unfold member_text; cbn [fst snd] in *.
  all: assert (k ∉ Obj.keys acc) as Hka by
    (unfold Obj.keys in Hd; rewrite fmap_app in Hd; apply NoDup_app in Hd as (_ & Hdd & _);
     intros Hin; by apply (Hdd k Hin), list_elem_of_here).
  all: assert (((q =? 34) || (q =? 39)) = true) as Hqb by (by destruct Hq as [-> | ->]).
  all: cbn [read_members app]; rewrite Hqb, <- !app_assoc; cbn [app];
    rewrite read_plain_name by (done || destruct Hq; lia);
    cbn [mbind option_bind fst snd app]; change (js ":") with [58]; cbn [app]; rewrite skip_eq;
    cbn [mbind option_bind].
  - change (members_text q [] ++ js "}" ++ t) with (125 :: t).
    rewrite Hv; [|lia|done]. cbn [mbind option_bind fst snd].
    rewrite skip_ne by done. rewrite skip_eq. cbn [fmap option_fmap option_map].
    rewrite add_member_new; [done|apply Hk|done].
  - change (Obj.keys (p2 :: ps)) with (p2.1 :: Obj.keys ps) in Hn. apply Forall_cons in Hn as [Hp2n Hn].
    change (members_text q (p2 :: ps)) with ((44 :: member_text q p2) ++ members_text q ps).
    rewrite <- app_assoc. cbn [app].
    rewrite Hv; [|lia|done]. cbn [mbind option_bind fst snd].
    rewrite skip_eq, add_member_new; [|apply Hk|done].
    rewrite (IH Hn p2 (acc ++ [(k, v)]) f t Hp2n Hp2); [by rewrite <- app_assoc| |cbn; lia].
    by rewrite <- app_assoc.
Qed.

Lemma read_name_digit c s : c = 45 ∨ is_digit c = true → read_name (c :: s) = None.
Proof.
  intros Hc. unfold is_digit, between in Hc. unfold read_name, names. cbn [List.find fst].
  change (js "null") with [110; 117; 108; 108]. change (js "true") with [116; 114; 117; 101].
  change (js "undefined") with [117; 110; 100; 101; 102; 105; 110; 101; 100].
  change (js "false") with [102; 97; 108; 115; 101]. cbn [starts_with].
  rewrite (proj2 (Z.eqb_neq 110 c)), (proj2 (Z.eqb_neq 116 c)), (proj2 (Z.eqb_neq 117 c)),
    (proj2 (Z.eqb_neq 102 c)) by lia.
  done.
Qed.

Lemma value_readable q v : is_quote q → literal q v → readable q v.
Proof.
  intros Hq. induction v as [| |b|n|s|s|l IH|ps IH] using json_ind'; intros Hv fuel t Hf Ht;
    (destruct fuel as [|f]; [cbn in Hf; lia|]).
  - done.
  - done.
  - by destruct b.
  - cbn [literal_text]. pose proof (read_num_ok n t Ht) as Hn.
    destruct (z_to_string_head n) as (c & s & E & Hc). rewrite E in *. cbn [app read_value] in *.
    rewrite (read_name_digit c (s ++ t) Hc), Hn. unfold is_digit, between in Hc.
    by rewrite !(proj2 (Z.eqb_neq c _)) by lia.
  - inv Hv. cbn [literal_text]. unfold serialize_str. cbn [app read_value].
    assert (((q =? 34) || (q =? 39)) = true) as -> by (by destruct Hq as [-> | ->]).
    rewrite <- app_assoc. cbn [app]. by rewrite read_serialize_str.
  - inv Hv.
  - inv Hv as [| | | | |? Hl|]. destruct l as [|x l]; [done|].
    assert (Forall (readable q) (x :: l)) as Hr.
    { rewrite Forall_forall in *. auto. }
    apply Forall_cons in Hr as [Hx Hr]. apply Forall_cons in Hl as [Hlx Hl].
    rewrite literal_arr. destruct (serialize_head q x Hq Hlx) as (c & s & E & Hc & _).
    rewrite <- !app_assoc. change (js "[" ++ ?x) with (91 :: x). cbn [read_value].
    change ((91 =? 34) || (91 =? 39)) with false. change (91 =? 91) with true. cbv iota.
    rewrite E at 1. cbn [app]. rewrite skip_ne by done.
    cbn [need] in Hf. rewrite (read_elems_ok q l Hq Hl Hr x []); [done|done|lia].
  - inv Hv as [| | | | | |? Hd Hn Hl]. destruct ps as [|p ps]; [done|].
    assert (Forall (λ p, readable q p.2) (p :: ps)) as Hr.
    { apply Forall_forall. intros y Hy. rewrite Forall_forall in IH, Hl. apply IH; [done|]. by apply Hl. }
    apply Forall_cons in Hr as [Hx Hr].
    rewrite literal_obj.
    rewrite <- !app_assoc. change (js "{" ++ ?x) with (123 :: x). cbn [read_value].
    change ((123 =? 34) || (123 =? 39)) with false. change (123 =? 91) with false.
    change (123 =? 123) with true. cbv iota.
    unfold member_text at 1. cbn [app]. rewrite skip_ne by (destruct Hq; lia).
    change (Obj.keys (p :: ps)) with (p.1 :: Obj.keys ps) in Hn. apply Forall_cons in Hn as [Hpn Hn].
    cbn [need] in Hf. rewrite (read_members_ok q ps Hq Hn Hr p []); [done|done|done|done|lia].
Qed.

(** The text of a value has at least as many units as it needs fuel. *)
Lemma need_length q v : is_quote q → literal q v → (need v ≤ length (literal_text q v))%nat.
Proof.
  intros Hq. induction v as [| |b|n|s|s|l IH|ps IH] using json_ind'; intros Hv.
  1-6: destruct (serialize_head q _ Hq Hv) as (_ & _ & _ & _ & _ & _ & H); cbn [need]; lia.
  - inv Hv as [| | | | |? Hl|]. destruct l as [|x l]; [cbn; lia|].
    rewrite literal_arr. cbn [need]. rewrite !length_app.
    assert (∀ l, Forall (literal q) l → Forall (λ v, literal q v → (need v ≤ length (literal_text q v))%nat) l →
      (sum_list_with (λ x, S (need x)) l ≤ length (elems_text q l))%nat) as Hs.
    { clear. intros l. induction l as [|x l IH]; intros Hl Hi; [cbn; lia|].
      apply Forall_cons in Hl as [Hx Hl], Hi as [Hix Hi]. specialize (IH Hl Hi). specialize (Hix Hx).
      change (elems_text q (x :: l)) with ((44 :: literal_text q x) ++ elems_text q l).
      rewrite length_app. cbn. lia. }
    apply Forall_cons in Hl as [Hx Hl], IH as [IHx IH]. specialize (Hs l Hl IH). specialize (IHx Hx).
    cbn. lia.
  - inv Hv as [| | | | | |? Hd Hn Hl]. destruct ps as [|p ps]; [cbn; lia|].
    rewrite literal_obj.
    cbn [need]. rewrite !length_app. clear Hd Hn.
    assert (∀ ps : Obj.t json, Forall (λ p, literal q p.2) ps →
      Forall (λ p, literal q p.2 → (need p.2 ≤ length (literal_text q p.2))%nat) ps →
      (sum_list_with (λ p, S (need p.2)) ps ≤ length (members_text q ps))%nat) as Hs.
    { clear. intros ps. induction ps as [|p ps IH]; intros Hl Hi; [cbn; lia|].
      apply Forall_cons in Hl as [Hx Hl], Hi as [Hix Hi]. specialize (IH Hl Hi). specialize (Hix Hx).
      change (members_text q (p :: ps)) with ((44 :: member_text q p) ++ members_text q ps).
      rewrite length_app. cbn. unfold member_text. cbn. rewrite !length_app. cbn. lia. }
    apply Forall_cons in Hl as [Hx Hl], IH as [IHx IH]. specialize (Hs ps Hl IH). specialize (IHx Hx).
    cbn. unfold member_text. cbn. rewrite !length_app. cbn. lia.
Qed.

(** *** What serialize writes *)
Section Written.
Context (call : jstr -> jstr -> option bool) (q : Z).

Definition written (v : json) : Prop := serialize call q v = Some (literal_text q v).

Lemma written_elems l : Forall written l → ∀ i v, (0 < i)%nat →
  ∃ n, fold_left (λ st x, st ← st; t ← serialize call q x;
               Some (S st.1, st.2 ++ (if (0 <? st.1)%nat then js "," else []) ++ t)) l (Some (i, v))
    = Some (n, v ++ elems_text q l).
Proof.
  induction 1 as [|x l Hx _ IH]; intros i v Hi; [exists i; by rewrite app_nil_r|].
  cbn [fold_left mbind option_bind fst snd]. rewrite Hx. cbn [mbind option_bind].
  rewrite (proj2 (Nat.ltb_lt 0 i)) by done. destruct (IH (S i) (v ++ js "," ++ literal_text q x)) as [n ->]; [lia|].
  exists n. by rewrite <- !app_assoc.
Qed.

Definition put_member (own : Obj.t json) (v : option jstr) (p : jstr * json) : option jstr :=
  v ← v; b ← hasOwnProperty call own p.1;
  if b : bool then
    if is_function p.2 then Some v
    else t ← serialize call q p.2;
         Some (v ++ (if (1 <? length v)%nat then js "," ++ [q] else [q]) ++ p.1 ++ [q] ++ js ":" ++ t)
  else Some v.

Lemma put_plain own v p : js "hasOwnProperty" ∉ Obj.keys own → literal q p.2 → written p.2 →
  put_member own (Some v) p = Some (v ++ (if (1 <? length v)%nat then js "," else []) ++ member_text q p).
Proof.
  intros Hn Hp Hw. unfold put_member, hasOwnProperty. apply Obj.get_None_keys in Hn. rewrite Hn. cbn [mbind option_bind].
  rewrite (literal_not_function _ _ Hp), Hw. cbn [mbind option_bind]. by destruct (_ <? _)%nat.
Qed.

Lemma written_members own ps : js "hasOwnProperty" ∉ Obj.keys own →
  Forall (λ p, literal q p.2) ps → Forall (λ p, written p.2) ps → ∀ v, (1 < length v)%nat →
  fold_left (put_member own) ps (Some v) = Some (v ++ members_text q ps).
Proof.
  intros Hn Hl. induction Hl as [|p ps Hp _ IH]; intros Hw v Hv; [by rewrite app_nil_r|].
  apply Forall_cons in Hw as [Hwp Hw]. cbn [fold_left]. rewrite put_plain by done.
  rewrite (proj2 (Nat.ltb_lt 1 _)), IH by (done || rewrite !length_app; lia). by rewrite <- !app_assoc.
Qed.

Lemma serialize_literal v : literal q v → written v.
Proof.
  induction v as [| | | | | |l IH|ps IH] using json_ind'; intros Hv; try done; unfold written; cbn [serialize].
  - inv Hv as [| | | | |? Hl|]. destruct l as [|x l]; [done|].
    assert (Forall written (x :: l)) as [Hx Hw]%Forall_cons by (rewrite Forall_forall in *; auto).
    cbn [fold_left mbind option_bind fst snd]. rewrite Hx. cbn [mbind option_bind].
    destruct (written_elems l Hw 1%nat (js "[" ++ [] ++ literal_text q x)) as [n E]; [lia|].
    change (0 <? 0)%nat with false. cbv iota. rewrite E. cbn [mbind option_bind snd]. by rewrite literal_arr, <- !app_assoc.
  - inv Hv as [| | | | | |? Hd Hn Hl]. change (fold_left _ ps _) with (fold_left (put_member ps) ps (Some (js "{"))).
    assert (Forall (λ p, written p.2) ps) as Hw
      by (rewrite Forall_forall in *; intros p Hp; apply IH; [done|]; by apply Hl).
    assert (js "hasOwnProperty" ∉ Obj.keys ps) as Ho.
    { intros Hin. rewrite Forall_forall in Hn. by destruct (Hn _ Hin) as (_ & ? & _). }
    assert (fold_left (put_member ps) ps (Some (js "{")) ≫= (λ v, Some (v ++ js "}"))
      = Some (literal_text q (JObj ps))) as ->; [|done].
    generalize dependent Ho. generalize ps at 1 2 as own. intros own Ho. destruct Hl as [|p l Hp Hl]; [done|].
    apply Forall_cons in Hw as [Hwp Hw]. cbn [fold_left]. rewrite put_plain by done.
    rewrite written_members; [|done..|cbn; lia]. cbn [mbind option_bind].
    by rewrite literal_obj, <- !app_assoc.
Qed.
End Written.

(** C35: [serialize] returns, and evaluating what it writes gives the value back, for null,
    undefined, booleans, integers below 2^53 in absolute value, any string of code units, and
    arrays and objects of these, with double or single quotes. The names of an
    object's properties are distinct, need no escape (no quote, backslash or line end)
    and are neither __proto__ nor hasOwnProperty. *)
Theorem parse_serialize call quote v : is_quote quote → literal quote v →
  serialize call quote v ≫= parse = Some v.
Proof.
  intros Hq Hv. rewrite (serialize_literal call quote v Hv). cbn [mbind option_bind]. unfold parse.
  pose proof (value_readable quote v Hq Hv (length (literal_text quote v)) []) as Hr.
  rewrite app_nil_r in Hr. rewrite Hr; [done|by apply need_length|done].
Qed.

Lemma parse_serialize_witness :
  serialize no_call 34 (JObj [(js "a", JArr [JNum (-12); JStr [34; 39; 10; 233]; JNull]); (js "b", JBool true)])
    ≫= parse
    = Some (JObj [(js "a", JArr [JNum (-12); JStr [34; 39; 10; 233]; JNull]); (js "b", JBool true)]).
Proof.
  apply parse_serialize; [by left|]. constructor.
  - apply (bool_decide_unpack _). by vm_compute.
  - repeat constructor; done.
  - repeat constructor; done.
Defined.

(** Property names are written as they are: a quote in one ends the literal
    early, and the object is not read back. *)
Example serialize_name_not_escaped :
  serialize no_call 34 (JObj [([97; 34], JNull)]) ≫= parse = None.
Proof. vm_compute. reflexivity. Qed.
