(* ===== verification/LocalStorage.v ===== *)
(** * classes/util/LocalStorage.js

    The storage for browsers without localStorage: the items are kept as one
    string in the user data of an element, each key and value after its length in radix 32. *)

From S2P Require Import Prelude NodeAttrs.

Definition comma : Z := 44.

(** ** State

    [items] maps a key to its value ([None]: null, which only broken data
    gives); [keys] and [length] are undefined until the first update;
    [attribute] is the user data of the element, [persisted] what a later page loads. *)
Record storage := MkStorage {
  items : Obj.t (option jstr);
  keys : option (list jstr);
  len : option nat;
  attribute : jstr;
  persisted : jstr
}.

(** An assignment [items[key] = value]; the prototype is no property. *)
Definition put {V} (key : jstr) (v : V) (o : Obj.t V) : Obj.t V :=
  if str_eqb key (js "__proto__") then o else Obj.set key v o.

Definition updateKeys (s : storage) : storage :=
  let ks := Obj.keys (items s) in
  MkStorage (items s) (Some ks) (Some (length ks)) (attribute s) (persisted s).

(** ** load *)

(** [data.indexOf(',', pos)]; negative positions count as 0. *)
Definition index_comma (data : jstr) (pos : Z) : option Z :=
  let p := Z.to_nat pos in
  (λ i, Z.of_nat (p + i)) <$> index_of_unit comma (drop p data).

(** [data.substring(a, b)] *)
Definition substring (data : jstr) (a b : Z) : jstr :=
  let n := Z.of_nat (length data) in
  let a := Z.max 0 (Z.min n a) in
  let b := Z.max 0 (Z.min n b) in
  let lo := Z.min a b in
  let hi := Z.max a b in
  take (Z.to_nat (hi - lo)) (drop (Z.to_nat lo) data).

(** [next(end)]: the value (None: null) and the new position. *)
Definition next (data : jstr) (pos : Z) (end_ : option Z) : option jstr * Z :=
  let nextPos := match end_ with
                 | Some e => Some (pos + e)
                 | None => index_comma data pos
                 end in
  match nextPos with
  | None => (None, pos)
  | Some p => if (p =? -1) || (Z.of_nat (length data) <? p) then (None, pos)
              else (Some (substring data pos p), p + 1)
  end.

(** [parseInt(offset, 32) || 0] *)
Definition offset_of (offset : jstr) : Z := default 0 (parse_int 32 offset).

(** The loop of [load]; [None] when the fuel runs out, which only broken
    data with negative lengths can cause. *)
Fixpoint load_loop (fuel : nat) (data : jstr) (pos : Z) (its : Obj.t (option jstr)) :
    option (Obj.t (option jstr)) :=
  match fuel with
  | O => None
  | S f =>
      match next data pos None with
      | (None, _) => Some its
      | (Some offset, pos) =>
          match next data pos (Some (offset_of offset)) with
          | (None, pos) => Some its
          | (Some key, pos) =>
              match next data pos None with
              | (None, _) => Some its
              | (Some offset, pos) =>
                  let '(value, pos) := next data pos (Some (offset_of offset)) in
                  load_loop f data pos (if truthy key then put key value its else its)
              end
          end
      end
  end.

Section LocalStorage.
Context (hasOldIEDataSupport : bool).

(** Loading the page: [persisted] is what earlier pages saved. *)
Definition load (persisted : jstr) : option storage :=
  if hasOldIEDataSupport then
    its ← load_loop (S (length persisted)) persisted 0 [];
    Some (updateKeys (MkStorage its None None persisted persisted))
  else Some (MkStorage [] None None [] persisted).

(** ** save *)
Definition save_item (data : jstr) (key value : jstr) : jstr :=
  data ++ (if truthy data then [comma] else [])
    ++ num_to_string 32 (Z.of_nat (length key)) ++ [comma] ++ key ++ [comma]
    ++ num_to_string 32 (Z.of_nat (length value)) ++ [comma] ++ value.

(** [for (key in items)]; a null value throws. *)
Fixpoint save_data (its : Obj.t (option jstr)) (data : jstr) : option jstr :=
  match its with
  | [] => Some data
  | (key, Some value) :: its => save_data its (save_item data key value)
  | (_, None) :: _ => None
  end.

(** [save()]; [disk_full]: the element refuses to save, which is ignored. *)
Definition save (disk_full : bool) (s : storage) : option storage :=
  if hasOldIEDataSupport then
    data ← save_data (items s) [];
    Some (updateKeys (MkStorage (items s) (keys s) (len s) data (if disk_full then persisted s else data)))
  else Some s.

(** ** The interface *)
Inductive item := ItemNull | ItemVal (v : jstr) | ItemInherited.

Definition key (index : nat) (s : storage) : option (option jstr) :=
  ks ← keys s; Some (ks !! index).

Definition getItem (k : jstr) (s : storage) : item :=
  match Obj.get k (items s) with
  | Some (Some v) => ItemVal v
  | Some None => ItemNull
  | None => if Obj.is_proto k then ItemInherited else ItemNull
  end.

Definition with_items (its : Obj.t (option jstr)) (s : storage) : storage :=
  MkStorage its (keys s) (len s) (attribute s) (persisted s).

Definition setItem (full : bool) (k v : jstr) (s : storage) : option storage :=
  save full (with_items (put k (Some v) (items s)) s).
Definition removeItem (full : bool) (k : jstr) (s : storage) : option storage :=
  save full (with_items (Obj.delete k (items s)) s).
Definition clear (full : bool) (s : storage) : option storage := save full (with_items [] s).
End LocalStorage.

Example save_example :
  save_data [(js "key1", Some (js "value1")); (js "key2", Some (js "value2"))] []
    = Some (js "4,key1,6,value1,4,key2,6,value2").
Proof. vm_compute. reflexivity. Qed.

Example load_example :
  load_loop 40 (js "4,key1,6,value1,4,key2,6,value2") 0 []
    = Some [(js "key1", Some (js "value1")); (js "key2", Some (js "value2"))].
Proof. vm_compute. reflexivity. Qed.

(** A negative length moves the position back: the loop never ends. *)
Example load_diverges : load_loop 1000 (js "1,a,1,b,1,k,-c,v") 0 [] = None.
Proof. vm_compute. reflexivity. Qed.

(** ** Reading what was written *)

(** The text of the items, each followed by a comma. *)
Definition item_text (p : jstr * jstr) : jstr :=
  num_to_string 32 (Z.of_nat (length p.1)) ++ [comma] ++ p.1 ++ [comma]
    ++ num_to_string 32 (Z.of_nat (length p.2)) ++ [comma] ++ p.2.

Definition items_text (ps : list (jstr * jstr)) : jstr := join [comma] (item_text <$> ps).

Definition values (ps : list (jstr * jstr)) : Obj.t (option jstr) := (λ p, (p.1, Some p.2)) <$> ps.

Lemma item_text_truthy p t : truthy (item_text p ++ t) = true.
Proof.
  unfold item_text. destruct (num_to_string_cons 32 ltac:(lia) (Z.of_nat (length p.1)) ltac:(lia)) as (d & s & -> & _).
  done.
Qed.

Lemma join_cons sep p ps : join sep (p :: ps) = p ++ mjoin ((λ q, sep ++ q) <$> ps).
Proof.
  revert p. induction ps as [|q ps IH]; intros p; cbn [fmap list_fmap mjoin list_join]; [by rewrite app_nil_r|].
  change (join sep (p :: q :: ps)) with (p ++ sep ++ join sep (q :: ps)). by rewrite IH, <- app_assoc.
Qed.

Lemma save_data_from ps : ∀ data, truthy data = true →
  save_data (values ps) data = Some (data ++ mjoin ((λ q, [comma] ++ q) <$> (item_text <$> ps))).
Proof.
  induction ps as [|[k v] ps IH]; intros data Hd; [by cbn; rewrite app_nil_r|].
  change (save_data (values ((k, v) :: ps)) data) with (save_data (values ps) (save_item data k v)).
  assert (save_item data k v = data ++ [comma] ++ item_text (k, v)) as -> by (unfold save_item; by rewrite Hd).
  rewrite IH by (by destruct data). cbn [fmap list_fmap mjoin list_join]. by rewrite <- !app_assoc.
Qed.

Lemma save_data_ok ps : save_data (values ps) [] = Some (items_text ps).
Proof.
  destruct ps as [|[k v] ps]; [done|]. cbn [values fmap list_fmap save_data fst snd].
  change (save_item [] k v) with (item_text (k, v)).
  pose proof (item_text_truthy (k, v) []) as Ht. rewrite app_nil_r in Ht.
  rewrite save_data_from by done. unfold items_text. cbn [fmap list_fmap]. by rewrite join_cons.
Qed.

(** *** Positions *)
Lemma index_of_unit_app c s t : c ∉ s → index_of_unit c (s ++ c :: t) = Some (length s).
Proof.
  induction s as [|x s IH]; intros Hn; cbn; [by rewrite Z.eqb_refl|].
  apply not_elem_of_cons in Hn as [Hx Hn]. rewrite (proj2 (Z.eqb_neq x c)), IH by congruence. done.
Qed.

Lemma index_of_unit_none c s : c ∉ s → index_of_unit c s = None.
Proof.
  induction s as [|x s IH]; intros Hn; cbn; [done|].
  apply not_elem_of_cons in Hn as [Hx Hn]. by rewrite (proj2 (Z.eqb_neq x c)), IH by congruence.
Qed.

Lemma length_no_comma n : comma ∉ num_to_string 32 (Z.of_nat n).
Proof.
  intros Hin. pose proof (num_to_string_units 32 ltac:(lia) (Z.of_nat n) ltac:(lia)) as HF.
  rewrite Forall_forall in HF. destruct (HF _ Hin) as (d & Hd & Hr).
  pose proof (digit_unit_cases d ltac:(lia)). unfold comma in Hd. lia.
Qed.

Lemma offset_of_length n : offset_of (num_to_string 32 (Z.of_nat n)) = Z.of_nat n.
Proof. unfold offset_of. by rewrite parse_num_to_string by lia. Qed.

(** [pos] is behind [a] in the data. *)
Lemma substring_mid a b c : substring (a ++ b ++ c) (Z.of_nat (length a)) (Z.of_nat (length a + length b)) = b.
Proof.
  unfold substring. rewrite !length_app.
  rewrite (Z.min_r _ (Z.of_nat (length a))), (Z.min_r _ (Z.of_nat (length a + length b))) by lia.
  rewrite !(Z.max_r 0) by lia. rewrite Z.min_l, Z.max_r by lia.
  rewrite Nat2Z.id, drop_app_length.
  replace (Z.to_nat _) with (length b) by lia. by rewrite take_app_length.
Qed.

Lemma next_offset a n t :
  next (a ++ num_to_string 32 (Z.of_nat n) ++ comma :: t) (Z.of_nat (length a)) None
    = (Some (num_to_string 32 (Z.of_nat n)), Z.of_nat (length (a ++ num_to_string 32 (Z.of_nat n) ++ [comma]))).
Proof.
  set (d := num_to_string 32 (Z.of_nat n)).
  unfold next, index_comma. rewrite Nat2Z.id, drop_app_length, index_of_unit_app by apply length_no_comma.
  cbn [fmap option_fmap option_map].
  rewrite (proj2 (Z.eqb_neq _ (-1))), (proj2 (Z.ltb_ge _ _)) by (rewrite ?length_app; cbn; lia).
  cbn [orb]. rewrite substring_mid. f_equal. rewrite !length_app. cbn. lia.
Qed.

(** The last value ends with the data, the others before a comma. *)
Lemma next_value a b c :
  next (a ++ b ++ c) (Z.of_nat (length a)) (Some (Z.of_nat (length b)))
    = (Some b, Z.of_nat (length a + length b) + 1).
Proof.
  unfold next. rewrite <- Nat2Z.inj_add.
  rewrite (proj2 (Z.eqb_neq _ (-1))), (proj2 (Z.ltb_ge _ _)) by (rewrite ?length_app; lia).
  cbn [orb]. by rewrite substring_mid.
Qed.

Lemma next_end data : next data (Z.of_nat (length data) + 1) None = (None, Z.of_nat (length data) + 1).
Proof. unfold next, index_comma. rewrite drop_ge by lia. done. Qed.

(** One turn of the loop reads one item. *)
Lemma load_item f a k v t its :
  load_loop (S f) (a ++ item_text (k, v) ++ t) (Z.of_nat (length a)) its
    = load_loop f (a ++ item_text (k, v) ++ t) (Z.of_nat (length (a ++ item_text (k, v))) + 1)
        (if truthy k then put k (Some v) its else its).
Proof.
  set (dk := num_to_string 32 (Z.of_nat (length k))). set (dv := num_to_string 32 (Z.of_nat (length v))).
  set (data := a ++ item_text (k, v) ++ t). cbn [load_loop].
  assert (data = a ++ dk ++ comma :: (k ++ [comma] ++ dv ++ [comma] ++ v ++ t)) as E1.
  { subst data. unfold item_text. cbn [fst snd]. fold dk dv. by repeat (rewrite <- !app_assoc; cbn [app]). }
  assert (data = (a ++ dk ++ [comma]) ++ k ++ (comma :: dv ++ [comma] ++ v ++ t)) as E2.
  { rewrite E1. by repeat (rewrite <- !app_assoc; cbn [app]). }
  assert (data = (a ++ dk ++ [comma] ++ k ++ [comma]) ++ dv ++ comma :: (v ++ t)) as E3.
  { rewrite E1. by repeat (rewrite <- !app_assoc; cbn [app]). }
  assert (data = (a ++ dk ++ [comma] ++ k ++ [comma] ++ dv ++ [comma]) ++ v ++ t) as E4.
  { rewrite E1. by repeat (rewrite <- !app_assoc; cbn [app]). }
  assert (next data (Z.of_nat (length a)) None
    = (Some dk, Z.of_nat (length (a ++ dk ++ [comma])))) as N1 by (rewrite E1; apply next_offset).
  assert (next data (Z.of_nat (length (a ++ dk ++ [comma]))) (Some (Z.of_nat (length k)))
    = (Some k, Z.of_nat (length (a ++ dk ++ [comma] ++ k ++ [comma])))) as N2.
  { rewrite E2, next_value. f_equal. rewrite !length_app. cbn. lia. }
  assert (next data (Z.of_nat (length (a ++ dk ++ [comma] ++ k ++ [comma]))) None
    = (Some dv, Z.of_nat (length (a ++ dk ++ [comma] ++ k ++ [comma] ++ dv ++ [comma])))) as N3.
  { rewrite E3. unfold dv at 1. rewrite next_offset. fold dv. f_equal. rewrite !length_app. cbn. lia. }
  assert (next data (Z.of_nat (length (a ++ dk ++ [comma] ++ k ++ [comma] ++ dv ++ [comma]))) (Some (Z.of_nat (length v)))
    = (Some v, Z.of_nat (length (a ++ item_text (k, v))) + 1)) as N4.
  { rewrite E4, next_value. f_equal. unfold item_text. cbn [fst snd]. fold dk dv. rewrite !length_app. cbn. lia. }
  pose proof (offset_of_length (length k) : offset_of dk = _) as O1.
  pose proof (offset_of_length (length v) : offset_of dv = _) as O2.
  rewrite N1. cbv iota beta. rewrite O1, N2. cbv iota beta.
  rewrite N3. cbv iota beta. by rewrite O2, N4.
Qed.

Lemma load_items ps : ∀ a fuel its, Forall (λ p, truthy p.1 = true) ps → (length ps < fuel)%nat →
  load_loop fuel (a ++ items_text ps) (if bool_decide (ps = []) then Z.of_nat (length a) + 1 else Z.of_nat (length a)) its
    = Some (fold_left (λ its p, put p.1 (Some p.2) its) ps its).
Proof.
  induction ps as [|[k v] ps IH]; intros a fuel its Hk Hf; (destruct fuel as [|f]; [cbn in Hf; lia|]).
  - cbn [items_text fmap list_fmap join]. rewrite app_nil_r. cbn [load_loop].
    rewrite bool_decide_true by done. by rewrite next_end.
  - apply Forall_cons in Hk as [Hk1 Hk]. cbn [fst] in Hk1. rewrite bool_decide_false by done.
    destruct ps as [|p2 ps].
    + unfold items_text. cbn [fmap list_fmap join].
      pose proof (load_item f a k v [] its) as E. rewrite app_nil_r, Hk1 in E. rewrite E. clear E.
      specialize (IH (a ++ item_text (k, v)) f (put k (Some v) its) Hk ltac:(cbn in *; lia)).
      cbn [items_text fmap list_fmap join] in IH. rewrite app_nil_r, bool_decide_true in IH by done.
      exact IH.
    + assert (items_text ((k, v) :: p2 :: ps) = item_text (k, v) ++ [comma] ++ items_text (p2 :: ps)) as E by done.
      rewrite E, load_item, Hk1.
      specialize (IH (a ++ item_text (k, v) ++ [comma]) f (put k (Some v) its) Hk ltac:(cbn in *; lia)).
      rewrite bool_decide_false in IH by done. rewrite <- !app_assoc in IH.
      replace (length (a ++ item_text (k, v) ++ [comma])) with (length (a ++ item_text (k, v)) + 1)%nat in IH
        by (rewrite !length_app; cbn; lia).
      rewrite Nat2Z.inj_add in IH. exact IH.
Qed.

(** ** Sessions *)

(** Distinct keys, none empty, none the prototype: the items a save keeps. *)
Definition storable (ps : Obj.t jstr) : Prop :=
  NoDup (Obj.keys ps) ∧ Forall (λ k, truthy k = true ∧ k ≠ js "__proto__") (Obj.keys ps).

Lemma put_set {V} k (v : V) o : k ≠ js "__proto__" → put k v o = Obj.set k v o.
Proof. intros. unfold put. by rewrite (proj2 (str_eqb_false _ _)). Qed.

Lemma fold_put ps : ∀ acc, storable (acc ++ ps) →
  fold_left (λ its p, put p.1 (Some p.2) its) ps (values acc) = values (acc ++ ps).
Proof.
  induction ps as [|[k v] ps IH]; intros acc Hs; [by rewrite app_nil_r|].
  cbn [fold_left fst snd]. pose proof Hs as [Hn Hk]. unfold Obj.keys in Hn, Hk. rewrite fmap_app in Hn, Hk.
  cbn [fmap list_fmap fst] in Hn, Hk. apply NoDup_app in Hn as (_ & Hd & _).
  apply Forall_app in Hk as [_ [[_ Hp] _]%Forall_cons].
  assert (put k (Some v) (values acc) = values (acc ++ [(k, v)])) as ->.
  { rewrite put_set by done. rewrite Obj.keys_set_new; [unfold values; by rewrite fmap_app|].
    apply Obj.get_None_keys. intros Hin. apply (Hd k); [|by apply list_elem_of_here].
    unfold values, Obj.keys in Hin. by rewrite <- list_fmap_compose in Hin. }
  rewrite IH; by rewrite <- app_assoc.
Qed.

Lemma commas_length (qs : list jstr) : (length qs ≤ length (mjoin ((λ q, [comma] ++ q) <$> qs)))%nat.
Proof.
  induction qs as [|q qs IH]; [cbn; lia|]. cbn [fmap list_fmap mjoin list_join length].
  rewrite !length_app. cbn [length Nat.add]. apply le_n_S. etransitivity; [exact IH|apply Nat.le_add_l].
Qed.

(** Loading what [save] wrote gives the items back, whatever units the
    keys and values hold (commas and digits included), as long as no key is empty. *)
Theorem load_save ps : storable ps →
  ∃ data s, save_data (values ps) [] = Some data ∧ load true data = Some s ∧ items s = values ps.
Proof.
  intros Hs. exists (items_text ps), (updateKeys (MkStorage (values ps) None None (items_text ps) (items_text ps))).
  split_and!; [apply save_data_ok| |].
  - unfold load. destruct Hs as [Hn Hk].
    assert (length ps < S (length (items_text ps)))%nat as Hl.
    { clear. apply Nat.lt_succ_r. induction ps as [|p ps IH]; [done|].
      unfold items_text in *. cbn [fmap list_fmap]. rewrite join_cons, length_app.
      assert (1 ≤ length (item_text p))%nat.
      { pose proof (item_text_truthy p []) as Ht. rewrite app_nil_r in Ht. destruct (item_text p); [done|cbn; lia]. }
      pose proof (commas_length (item_text <$> ps)) as Hc. rewrite length_fmap in Hc. cbn [length]. lia. }
    pose proof (load_items ps [] (S (length (items_text ps))) []) as E.
    assert (Forall (λ p, truthy p.1 = true) ps) as Ht.
    { unfold Obj.keys in Hk. rewrite Forall_fmap in Hk. eapply Forall_impl; [exact Hk|]. by intros ? []. }
    specialize (E Ht Hl). cbn [app length] in E.
    pose proof (fold_put ps [] (conj Hn Hk)) as Ef. cbn [values fmap list_fmap app] in Ef. rewrite Ef in E.
    destruct (bool_decide (ps = [])) eqn:Eb.
    + apply bool_decide_eq_true in Eb. subst ps. reflexivity.
    + change (Z.of_nat 0) with 0 in E. rewrite E. reflexivity.
  - done.
Qed.

Inductive op := SetItem (k v : jstr) | RemoveItem (k : jstr) | Clear.

Definition run_op (o : op) (s : storage) : option storage :=
  match o with
  | SetItem k v => setItem true false k v s
  | RemoveItem k => removeItem true false k s
  | Clear => clear true false s
  end.

Definition spec_op (o : op) (m : Obj.t jstr) : Obj.t jstr :=
  match o with
  | SetItem k v => put k v m
  | RemoveItem k => Obj.delete k m
  | Clear => []
  end.

Definition op_ok (o : op) : Prop := match o with SetItem k _ => truthy k = true | _ => True end.

(** The page holds the items [m], and so does what it saved. *)
Definition holds (m : Obj.t jstr) (s : storage) : Prop :=
  storable m ∧ items s = values m ∧ persisted s = items_text m
  ∧ keys s = Some (Obj.keys m) ∧ len s = Some (length m).

Lemma values_keys m : Obj.keys (values m) = Obj.keys m.
Proof. unfold values, Obj.keys. by rewrite <- list_fmap_compose. Qed.

Lemma save_holds m s : storable m → items s = values m → ∃ s', save true false s = Some s' ∧ holds m s'.
Proof.
  intros Hm E. unfold save. rewrite E, save_data_ok. cbn [mbind option_bind]. eexists; split; [done|].
  split_and!; cbn [updateKeys items keys len persisted]; [done|done|done|by rewrite values_keys|].
  rewrite values_keys. unfold Obj.keys. by rewrite length_fmap.
Qed.

Lemma values_set k v m : Obj.set k (Some v) (values m) = values (Obj.set k v m).
Proof.
  induction m as [|[k' v'] m IH]; [done|]. cbn [values fmap list_fmap Obj.set fst snd].
  destruct (str_eqb k k'); [done|]. cbn. f_equal. exact IH.
Qed.

Lemma values_delete k m : Obj.delete k (values m) = values (Obj.delete k m).
Proof.
  induction m as [|[k' v'] m IH]; [done|]. cbn [values fmap list_fmap Obj.delete fst snd].
  destruct (str_eqb k k'); [exact IH|]. cbn. f_equal. exact IH.
Qed.

Lemma values_put k v m : put k (Some v) (values m) = values (put k v m).
Proof. unfold put. destruct (str_eqb _ _); [done|apply values_set]. Qed.

Lemma storable_put k v m : truthy k = true → storable m → storable (put k v m).
Proof.
  intros Hk [Hn Hs]. unfold put. destruct (str_eqb k (js "__proto__")) eqn:E; [done|].
  apply str_eqb_false in E. split; [by apply Obj.keys_NoDup_set|].
  apply Forall_forall. intros k' Hk'. rewrite Forall_forall in Hs.
  destruct (Obj.get k m) eqn:Eg.
  - rewrite Obj.keys_set_old in Hk' by (by eexists). auto.
  - rewrite Obj.keys_set_new in Hk' by done. unfold Obj.keys in Hk'. rewrite fmap_app in Hk'.
    apply elem_of_app in Hk' as [?|Hk']; [auto|]. apply list_elem_of_singleton in Hk'. cbn in Hk'. by subst.
Qed.

Lemma storable_delete k m : storable m → storable (Obj.delete k m).
Proof.
  intros [Hn Hs]. split; [by apply Obj.keys_NoDup_delete|].
  apply Forall_forall. intros k' Hk'%Obj.keys_delete_elem. rewrite Forall_forall in Hs. by apply (Hs k'), Hk'.
Qed.

Lemma run_op_holds o m s : op_ok o → holds m s → ∃ s', run_op o s = Some s' ∧ holds (spec_op o m) s'.
Proof.
  intros Ho (Hm & Hi & _). destruct o as [k v|k|]; cbn [run_op spec_op]; apply save_holds; cbn [with_items items].
  - by apply storable_put.
  - by rewrite Hi, values_put.
  - by apply storable_delete.
  - by rewrite Hi, values_delete.
  - split; constructor.
  - done.
Qed.

Definition run_ops (os : list op) (s : storage) : option storage :=
  fold_left (λ s o, s ≫= run_op o) os (Some s).
Definition spec_ops (os : list op) (m : Obj.t jstr) : Obj.t jstr := fold_left (λ m o, spec_op o m) os m.

Lemma run_ops_holds os : ∀ m s, Forall op_ok os → holds m s →
  ∃ s', run_ops os s = Some s' ∧ holds (spec_ops os m) s'.
Proof.
  induction os as [|o os IH]; intros m s Hos Hs; [by exists s|].
  apply Forall_cons in Hos as [Ho Hos]. destruct (run_op_holds o m s Ho Hs) as (s1 & E1 & H1).
  destruct (IH _ _ Hos H1) as (s2 & E2 & H2). exists s2. split; [|done].
  unfold run_ops in *. cbn [fold_left mbind option_bind]. by rewrite E1.
Qed.

(** C34: A session is a map that survives the page: after any sequence of setItem (with a
    non-empty key), removeItem and clear, starting from saved items with keys neither empty nor __proto__, the storage holds what
    the same operations do to a map (nothing is put under __proto__), its keys and length follow, and a
    page loaded afterwards reads the same items. *)
Theorem session_reload m os : storable m → Forall op_ok os →
  ∃ s0 s s', load true (items_text m) = Some s0 ∧ run_ops os s0 = Some s
    ∧ items s = values (spec_ops os m)
    ∧ keys s = Some (Obj.keys (spec_ops os m)) ∧ len s = Some (length (spec_ops os m))
    ∧ load true (persisted s) = Some s' ∧ items s' = items s ∧ ∀ k, getItem k s' = getItem k s.
Proof.
  intros Hm Hos. destruct (load_save m Hm) as (data & s0 & Ed & E0 & Hi).
  rewrite save_data_ok in Ed. injection Ed as <-.
  assert (holds m s0) as Hh0.
  { revert E0. unfold load. destruct (load_loop _ _ _ _) as [its|]; cbn [mbind option_bind]; [|done]. intros [= <-]. cbn in Hi. subst its.
    split_and!; cbn [updateKeys items keys len persisted]; [done|done|done|by rewrite values_keys|].
    rewrite values_keys. unfold Obj.keys. by rewrite length_fmap. }
  destruct (run_ops_holds os m s0 Hos Hh0) as (s & E & (Hst & Hit & Hp & Hk & Hl)).
  destruct (load_save _ Hst) as (data & s' & Ed & E' & Hi'). rewrite save_data_ok in Ed. injection Ed as <-.
  exists s0, s, s'. split_and!; try done.
  - by rewrite Hp.
  - by rewrite Hi', Hit.
  - intros k. unfold getItem. by rewrite Hi', Hit.
Qed.

Lemma load_save_witness : ∃ data s,
  save_data (values [(js "a,1", js "x,,2"); (js "b", [])]) [] = Some data ∧ load true data = Some s
  ∧ items s = values [(js "a,1", js "x,,2"); (js "b", [])].
Proof.
  apply load_save. split; [apply (bool_decide_unpack _); by vm_compute|].
  repeat constructor; by vm_compute.
Defined.

Lemma session_reload_witness : ∃ s0 s s', load true (items_text [(js "k", js "1")]) = Some s0
  ∧ run_ops [SetItem (js "b") (js "2"); RemoveItem (js "k")] s0 = Some s
  ∧ items s = values [(js "b", js "2")]
  ∧ keys s = Some [js "b"] ∧ len s = Some 1%nat
  ∧ load true (persisted s) = Some s' ∧ items s' = items s ∧ ∀ k, getItem k s' = getItem k s.
Proof.
  apply (session_reload [(js "k", js "1")] [SetItem (js "b") (js "2"); RemoveItem (js "k")]).
  - split; [apply (bool_decide_unpack _); by vm_compute|]. repeat constructor; by vm_compute.
  - repeat constructor.
Defined.

(** An item with the empty key is written but not read back. *)
Theorem empty_key_lost v : ∃ data s,
  save_data (values [([], v)]) [] = Some data ∧ load true data = Some s ∧ items s = [].
Proof.
  exists (items_text [([], v)]). eexists. split_and!; [apply save_data_ok| |].
  - pose proof (load_item (length (items_text [([], v)])) [] [] v [] []) as E.
    rewrite app_nil_r in E. cbn [app truthy length Z.of_nat] in E.
    change (items_text [([], v)]) with (item_text ([], v)) in *.
    change (Z.of_nat 0) with 0 in E. unfold load. rewrite E. pose proof (item_text_truthy ([], v) []) as Ht. rewrite app_nil_r in Ht.
    destruct (length (item_text ([], v))) as [|n] eqn:El; [by destruct (item_text ([], v))|].
    cbn [load_loop]. rewrite <- El, next_end. reflexivity.
  - done.
Qed.
