(* ===== verification/URI.v ===== *)
(** * classes/util/URI.js

    Parsing addresses and converting between relative and absolute ones.  A
    field of a parsed address is [None] when it is undefined; [None] as the result of
    an operation is an exception. *)

From S2P Require Import Prelude Regexp Tools.

(** ** Data *)
Record uri := MkURI {
  source : option jstr;
  protocol : option jstr;
  authority : option jstr;
  userInfo : option jstr;
  user : option jstr;
  password : option jstr;
  host : option jstr;
  port : option jstr;
  relative : option jstr;
  path : option jstr;
  directory : option jstr;
  file : option jstr;
  query : option jstr;
  anchor : option jstr
}.

Definition otruthy (o : option jstr) : bool := match o with Some s => truthy s | None => false end.

Definition slash : Z := 47.

(** ** Paths *)

(** [s.lastIndexOf('/')] *)
Fixpoint last_slash (s : jstr) : option nat :=
  match s with
  | [] => None
  | x :: s' => match last_slash s' with
               | Some i => Some (S i)
               | None => if x =? slash then Some 0%nat else None
               end
  end.

(** One more than the first index at which the longer list is past the other's end or differs from
    it; 0 when the loop finds none. *)
Fixpoint break_from (i : nat) (long short : list jstr) : nat :=
  match long, short with
  | [], _ => 0
  | _ :: _, [] => S i
  | x :: xs, y :: ys => if str_eqb x y then break_from (S i) xs ys else S i
  end.

Definition breakPoint (base items : list jstr) : nat :=
  if (length items <=? length base)%nat then break_from 0 base items else break_from 0 items base.

(** The items from [breakPoint - 1] on; the element at -1 is undefined and
    printed as such. *)
Definition items_from (bp : nat) (items : list jstr) : jstr :=
  join [slash] (match bp with O => js "undefined" :: items | S k => drop k items end).

Definition ups (n : nat) : jstr := mjoin (replicate n (js "../")).

Definition toRelPath (base path : jstr) : jstr :=
  let base := split_unit slash (take (default 0%nat (last_slash base)) base) in
  let items := split_unit slash path in
  let bp := breakPoint base items in
  if Nat.eqb bp 1 then path
  else ups (S (length base) - bp) ++ items_from bp items.

(** The loop over the chunks from the last: the parents still to skip and the
    chunks kept, in the order they are pushed. *)
Fixpoint merge (rpath : list jstr) (nb : nat) (o : list jstr) : nat * list jstr :=
  match rpath with
  | [] => (nb, o)
  | p :: rpath =>
      if negb (truthy p) || str_eqb p (js ".") then merge rpath nb o
      else if str_eqb p (js "..") then merge rpath (S nb) o
      else match nb with
           | S nb => merge rpath nb o
           | O => merge rpath 0 (o ++ [p])
           end
  end.

Definition ends_slash (s : jstr) : bool := bool_decide (last s = Some slash).

Definition toAbsPath (base path : jstr) : jstr :=
  let tr := ends_slash path in
  let base := List.filter truthy (split_unit slash base) in
  let '(nb, o) := merge (reverse (split_unit slash path)) 0 [] in
  let outPath :=
    if (length base <=? nb)%nat then join [slash] (reverse o)
    else join [slash] (take (length base - nb) base) ++ [slash] ++ join [slash] (reverse o) in
  let outPath := if bool_decide (head outPath = Some slash) then outPath else slash :: outPath in
  if tr && negb (ends_slash outPath) then outPath ++ [slash] else outPath.

(** ** Regular expressions *)

Definition appRegExp : re :=
  RSeq RBol (RSeq (RGroup 1 (RPlus (RSet word_dash))) (RSeq (RChar 58)
    (RGroup 2 (RSeq (RSet (none_of "/")) (RSet (none_of "/")))))).
Definition anchorRegExp : re := RSeq RBol (RSeq (RStar true (RSet is_space)) (RChar 35)).
Definition hasHostRegExp : re :=
  RSeq RBol (RSeq (RStar true (RSet word_dash)) (RSeq (ROpt (RChar 58)) (RStr (js "//")))).

(** The groups: 1 protocol, 2 authority, 3 userInfo, 4 user, 5 password, 6
    host, 7 port, 8 relative, 9 path, 10 directory, 11 file, 12 query, 13 anchor. *)
Definition protocolPart : re :=
  ROpt (RSeq (RNotAhead (RSeq (RPlus (RSet (none_of ":@"))) (RSeq (RChar 58)
               (RSeq (RStar true (RSet (none_of ":@/"))) (RChar 64)))))
    (RSeq (RGroup 1 (RPlus (RSet (none_of ":/?#.")))) (RChar 58))).
(** An optional group that would match nothing stays undefined: before an at
    sign group 3 is skipped. *)
Definition authorityPart : re :=
  RGroup 2
    (RSeq (ROpt (RSeq (ROpt (RSeq (RNotAhead (RChar 64)) (RGroup 3
             (RSeq (RGroup 4 (RStar true (RSet (none_of ":@/"))))
               (RSeq (ROpt (RChar 58)) (RGroup 5 (RStar true (RSet (none_of ":@/"))))))))) (RChar 64)))
      (RSeq (RGroup 6 (RStar true (RSet (none_of ":/?#"))))
        (ROpt (RSeq (RChar 58) (RGroup 7 (RStar true (RSet is_digit))))))).
Definition directoryPart : re :=
  RGroup 10 (RSeq (RChar slash)
    (RSeq (RStar true (RSeq (RSet (none_of "?#"))
       (RNotAhead (RSeq (RStar true (RSet (none_of "?#/"))) (RSeq (RChar 46)
          (RSeq (RPlus (RSet (none_of "?#/."))) (RAlt (RSet (any_of "?#")) REol)))))))
      (ROpt (RChar slash)))).
Definition urlRegExp : re :=
  RSeq RBol (RSeq protocolPart (RSeq (ROpt (RStr (js "//"))) (RSeq authorityPart
    (RGroup 8
      (RSeq (RGroup 9 (RSeq (ROpt directoryPart) (RGroup 11 (RStar true (RSet (none_of "?#/"))))))
        (RSeq (ROpt (RSeq (RChar 63) (RGroup 12 (RStar true (RSet (none_of "#"))))))
          (ROpt (RSeq (RChar 35) (RGroup 13 (RStar true (RSet dot))))))))))).

Definition encode_at (url : jstr) : jstr := replace_all (RStr (js "@@")) (λ _, js "(mce_at)") url.
Definition decode_at (part : jstr) : jstr := replace_all (RStr (js "(mce_at)")) (λ _, js "@@") part.

(** ** The constructor *)
Definition only_source (url : jstr) : uri :=
  MkURI (Some url) None None None None None None None None None None None None None.

Definition or_else (o o' : option jstr) : option jstr := if otruthy o then o else o'.

(** [settings.base_uri.protocol || 'http'] *)
Definition protocol_or_http (base : option uri) : jstr :=
  default (js "http") (or_else (base ≫= protocol) (Some (js "http"))).

Definition starts_slash (url : jstr) : bool := starts_with [slash] url.

(** The rules that give a relative address a host; reading a property of a
    missing base throws. *)
Definition with_host (url : jstr) (base_uri : option uri) (isProtocolRelative : bool) : option jstr :=
  let url := if starts_slash url && negb isProtocolRelative
             then protocol_or_http base_uri ++ js "://mce_host" ++ url else url in
  if test hasHostRegExp url then Some url
  else
    b ← base_uri;
    base_url ← path b;
    Some (if bool_decide (protocol b = Some []) then js "//mce_host" ++ toAbsPath base_url url
          else protocol_or_http base_uri ++ js "://mce_host" ++ toAbsPath base_url url).

Definition part (m : mres) (i : nat) : option jstr := decode_at <$> group i m.

Definition parse_url (url : jstr) : option uri :=
  m ← exec urlRegExp (encode_at url);
  Some (MkURI (Some (decode_at (m_text m))) (part m 1) (part m 2) (part m 3) (part m 4) (part m 5)
    (part m 6) (part m 7) (part m 8) (part m 9) (part m 10) (part m 11) (part m 12) (part m 13)).

Definition set_protocol v u := MkURI (source u) v (authority u) (userInfo u) (user u) (password u) (host u) (port u) (relative u) (path u) (directory u) (file u) (query u) (anchor u).
Definition set_source v u := MkURI v (protocol u) (authority u) (userInfo u) (user u) (password u) (host u) (port u) (relative u) (path u) (directory u) (file u) (query u) (anchor u).

(** What a base address adds to the parsed one. *)
Definition inherit (b u : uri) : uri :=
  let is_mce h := bool_decide (h = Some (js "mce_host")) in
  MkURI (Some []) (or_else (protocol u) (protocol b)) (authority u) (or_else (userInfo u) (userInfo b))
    (user u) (password u)
    (if negb (otruthy (host u)) || is_mce (host u) then host b else host u)
    (if negb (otruthy (port u)) && is_mce (host u) then port b else port u)
    (relative u) (path u) (directory u) (file u) (query u) (anchor u).

(** [new URI(url, {base_uri})] *)
Definition new_URI (url : jstr) (base_uri : option uri) : option uri :=
  let url := trim url in
  if test appRegExp url || test anchorRegExp url then Some (only_source url)
  else
    let isProtocolRelative := starts_with (js "//") url in
    url ← with_host url base_uri isProtocolRelative;
    u ← parse_url url;
    let u := match base_uri with Some b => inherit b u | None => u end in
    Some (if isProtocolRelative then set_protocol (Some []) u else u).

(** ** The methods *)

(** [getURI(noProtoHost)]: the text and the object, whose source is kept. *)
Definition getURI (noProtoHost : bool) (u : uri) : jstr * uri :=
  if negb (otruthy (source u)) || noProtoHost then
    let opt (before : jstr) (o : option jstr) (after : jstr) :=
      if otruthy o then before ++ default [] o ++ after else [] in
    let s := (if noProtoHost then []
              else (if otruthy (protocol u) then default [] (protocol u) ++ js "://" else js "//")
                     ++ opt [] (userInfo u) (js "@") ++ opt [] (host u) [] ++ opt (js ":") (port u) [])
             ++ opt [] (path u) [] ++ opt (js "?") (query u) [] ++ opt (js "#") (anchor u) [] in
    (s, set_source (Some s) u)
  else (default [] (source u), u).

Definition setPathRegExp : re :=
  RSeq RBol (RSeq (RGroup 1 (RStar false (RSet dot))) (RSeq (ROpt (RChar slash))
    (RSeq (ROpt (RGroup 2 (RPlus (RSet is_word)))) REol))).

Definition setPath (p : jstr) (u : uri) : option uri :=
  m ← exec setPathRegExp p;
  Some (getURI false (MkURI (Some []) (protocol u) (authority u) (userInfo u) (user u) (password u) (host u)
    (port u) (relative u) (Some (m_text m)) (group 1 m) (group 2 m) (query u) (anchor u))).2.

Definition toRelative (uri_text : jstr) (self : uri) : option (jstr * uri) :=
  if str_eqb uri_text (js "./") then Some (uri_text, self)
  else
    u ← new_URI uri_text (Some self);
    if (negb (bool_decide (host u = Some (js "mce_host"))) && negb (bool_decide (host self = host u)) && otruthy (host u))
       || negb (bool_decide (port self = port u))
       || (negb (bool_decide (protocol self = protocol u)) && negb (bool_decide (protocol u = Some [])))
    then Some ((getURI false u).1, self)
    else
      let '(tu, self) := getURI false self in
      let '(uu, u) := getURI false u in
      if str_eqb tu uu || (ends_slash tu && str_eqb (take (length tu - 1) tu) uu) then Some (tu, self)
      else
        p1 ← path self; p2 ← path u;
        Some (toRelPath p1 p2
                ++ (if otruthy (query u) then js "?" ++ default [] (query u) else [])
                ++ (if otruthy (anchor u) then js "#" ++ default [] (anchor u) else []), self).

Definition toAbsolute (uri_text : jstr) (noHost : bool) (self : uri) : option jstr :=
  u ← new_URI uri_text (Some self);
  Some (getURI (bool_decide (host self = host u) && bool_decide (protocol self = protocol u) && noHost) u).1.

Example new_URI_example :
  (λ u, (protocol u, userInfo u, host u, port u, (path u, directory u, file u), (query u, anchor u)))
    <$> new_URI (js "http://u:p@www.site.com:8080/dir/x/file.html?a=1#top") None
  = Some (Some (js "http"), Some (js "u:p"), Some (js "www.site.com"), Some (js "8080"),
          (Some (js "/dir/x/file.html"), Some (js "/dir/x/"), Some (js "file.html")), (Some (js "a=1"), Some (js "top"))).
Proof. vm_compute. reflexivity. Qed.

Example relative_example :
  (b ← new_URI (js "http://site.com/dir1/dir2/") None;
   r ← toRelative (js "http://site.com/dir1/dir3/file.html?q") b;
   a ← toAbsolute r.1 false b;
   Some (r.1, a))
  = Some (js "../dir3/file.html?q", js "http://site.com/dir1/dir3/file.html?q").
Proof. vm_compute. reflexivity. Qed.

(** ** Splitting and joining *)
Definition no_slash (s : jstr) : Prop := slash ∉ s.

Lemma last_slash_app s t : no_slash t → last_slash (s ++ slash :: t) = Some (length s).
Proof.
  intros Ht. assert (last_slash t = None) as Hn.
  { clear s. unfold no_slash in Ht. induction t as [|x t IH]; [done|].
    apply not_elem_of_cons in Ht as [Hx Ht]. cbn. rewrite IH by done. by rewrite (proj2 (Z.eqb_neq x slash)). }
  induction s as [|x s IH]; cbn; [by rewrite Hn|]. by rewrite IH.
Qed.

Lemma join_snoc ps q : ps ≠ [] → join [slash] (ps ++ [q]) = join [slash] ps ++ slash :: q.
Proof.
  induction ps as [|p ps IH]; [done|]. intros _. destruct ps as [|p' ps]; [done|].
  change (join [slash] ((p :: p' :: ps) ++ [q])) with (p ++ slash :: join [slash] ((p' :: ps) ++ [q])).
  rewrite IH by done. change (join [slash] (p :: p' :: ps)) with (p ++ slash :: join [slash] (p' :: ps)).
  by rewrite <- app_assoc.
Qed.

(** A proper name of a directory or file. *)
Definition clean (s : jstr) : Prop := no_slash s ∧ s ≠ [] ∧ s ≠ js "." ∧ s ≠ js "..".

Lemma clean_no_slash ps : Forall clean ps → Forall no_slash ps.
Proof. intros H. eapply Forall_impl; [exact H|]. by intros ? []. Qed.

(** The path of the items, from the root. *)
Definition abs_path (ps : list jstr) : jstr := join [slash] ([] :: ps).

(** ** toAbsPath *)
Lemma merge_ups rest : ∀ n nb o, merge (replicate n (js "..") ++ rest) nb o = merge rest (n + nb) o.
Proof.
  induction n as [|n IH]; intros nb o; [done|]. cbn [replicate app merge].
  change (negb (truthy (js "..")) || str_eqb (js "..") (js ".")) with false.
  change (str_eqb (js "..") (js "..")) with true. cbv iota. rewrite IH. f_equal. lia.
Qed.

Lemma merge_clean ps rest : Forall clean ps → ∀ o, merge (ps ++ rest) 0 o = merge rest 0 (o ++ ps).
Proof.
  induction 1 as [|p ps (Hs & Hne & Hd & Hdd) _ IH]; intros o; [by rewrite app_nil_r|]. cbn [app merge].
  assert (truthy p = true) as -> by (by destruct p).
  unfold str_eqb. rewrite !bool_decide_false by done. cbn. rewrite IH. by rewrite <- app_assoc.
Qed.

Lemma merge_empty rest nb o : merge ([] :: rest) nb o = merge rest nb o.
Proof. done. Qed.

Lemma merge_o_clean rpath : ∀ nb o, Forall clean o → Forall no_slash rpath → Forall clean (merge rpath nb o).2.
Proof.
  induction rpath as [|p rpath IH]; intros nb o Ho Hr; [done|]. apply Forall_cons in Hr as [Hp Hr].
  cbn [merge]. destruct (truthy p) eqn:Et; cbn [negb orb]; [|by apply IH].
  unfold str_eqb. case_bool_decide; [by apply IH|]. case_bool_decide; [by apply IH|].
  destruct nb; [|by apply IH]. apply IH; [|done]. apply Forall_app; split; [done|].
  repeat constructor; try done. by intros ->.
Qed.

Lemma split_pieces s : Forall no_slash (split_unit slash s).
Proof.
  induction s as [|x s IH]; cbn; [by repeat constructor; apply not_elem_of_nil|].
  destruct (Z.eqb_spec x slash); [constructor; [by apply not_elem_of_nil|done]|].
  destruct (split_unit slash s) as [|p ps]; [repeat constructor|].
  - unfold no_slash. rewrite list_elem_of_singleton. congruence.
  - apply Forall_cons in IH as [Hp IH]. constructor; [|done]. unfold no_slash in *. set_solver.
Qed.

Lemma ends_slash_app s t : t ≠ [] → ends_slash (s ++ t) = ends_slash t.
Proof. intros Ht. unfold ends_slash. rewrite last_app. by destruct (last t) eqn:E; [|apply last_None in E]. Qed.

Lemma join_clean_ends ps : ps ≠ [] → Forall clean ps → ends_slash (join [slash] ps) = false.
Proof.
  intros Hne Hc. destruct ps as [|q ps] using rev_ind; [done|]. clear IHps.
  apply Forall_app in Hc as [_ Hq]. apply Forall_cons in Hq as [(Hs & Hq & _) _].
  assert (ends_slash q = false) as Hf.
  { unfold ends_slash. rewrite bool_decide_false; [done|]. intros (l & ->)%last_Some. apply Hs. set_solver. }
  destruct ps as [|p ps]; [done|]. rewrite join_snoc by done.
  change (slash :: q) with ([slash] ++ q). rewrite app_assoc. by rewrite ends_slash_app.
Qed.

Lemma join_cut ps x l : ps ≠ [] →
  join [slash] (ps ++ x :: l) = join [slash] ps ++ [slash] ++ join [slash] (x :: l).
Proof.
  intros Hps. revert x. induction l as [|y l IH] using rev_ind; intros x.
  - by rewrite join_snoc.
  - change (x :: l ++ [y]) with ((x :: l) ++ [y]). rewrite app_assoc, join_snoc by (by destruct ps).
    rewrite IH, (join_snoc (x :: l)) by done. by rewrite <- !app_assoc.
Qed.

Lemma join_clean_head ps : Forall clean ps → head (join [slash] ps) ≠ Some slash.
Proof.
  destruct 1 as [|p ps (Hs & Hp & _) _]; [done|]. destruct p as [|c p]; [done|].
  assert (head (join [slash] ((c :: p) :: ps)) = Some c) as -> by (by destruct ps).
  intros [= ->]. apply Hs. set_solver.
Qed.

(** C36: Whatever the relative path (any number of parents, dots, empty parts), the
    result is an absolute path of proper names: it never climbs above the root and holds no dot or empty part, if
    the base has none. *)
Theorem toAbsPath_normal base path : Forall clean (List.filter truthy (split_unit slash base)) →
  ∃ ps tr, toAbsPath base path = slash :: join [slash] ps ++ (if (tr : bool) then [slash] else [])
    ∧ Forall clean ps.
Proof.
  intros Hb. unfold toAbsPath. set (bs := List.filter _ _) in *.
  pose proof (merge_o_clean (reverse (split_unit slash path)) 0 [] ltac:(constructor)
    ltac:(by apply Forall_reverse, split_pieces)) as Ho.
  destruct (merge _ 0 []) as [nb o]. cbn [snd] in Ho. apply Forall_reverse in Ho.
  set (out := if (length bs <=? nb)%nat then _ else _).
  assert (∃ ps tr, out = join [slash] ps ++ (if (tr : bool) then [slash] else []) ∧ Forall clean ps
            ∧ (tr = true → ps ≠ [])) as (ps & tr & Eo & Hps & Hps').
  { subst out. destruct (Nat.leb_spec (length bs) nb) as [|Hlt].
    - exists (reverse o), false. by rewrite app_nil_r.
    - set (bt := take (length bs - nb) bs).
      assert (bt ≠ []) as Hbt by (intros E%(f_equal length); subst bt; rewrite length_take in E; cbn in E; lia).
      assert (Forall clean bt) as Hc by (by apply Forall_take).
      destruct (reverse o) as [|x l] eqn:Er.
      + exists bt, true. done.
      + exists (bt ++ x :: l), false. split_and!; [|by apply Forall_app|done].
        rewrite app_nil_r. by rewrite join_cut. }
  rewrite Eo. destruct ps as [|p ps].
  { destruct tr; [by specialize (Hps' eq_refl)|]. exists [], false. split; [|done]. cbn.
    by destruct (ends_slash path). }
  rewrite bool_decide_false.
  2: { pose proof (join_clean_head _ Hps) as Hh. destruct (join [slash] (p :: ps)) eqn:Ej; [|done].
       apply Forall_cons in Hps as [(_ & Hp & _) _]. destruct p; [done|]. by destruct ps. }
  destruct tr.
  - exists (p :: ps), true. split; [|done].
    rewrite app_comm_cons, ends_slash_app by done. by rewrite andb_false_r.
  - rewrite app_nil_r. destruct (ends_slash path && negb (ends_slash (slash :: join [slash] (p :: ps)))) eqn:Et.
    + by exists (p :: ps), true.
    + exists (p :: ps), false. by rewrite app_nil_r.
Qed.

(** ** toRelPath *)
Lemma abs_path_cons p ps : abs_path (p :: ps) = slash :: join [slash] (p :: ps).
Proof. done. Qed.

Lemma split_abs_path ps : Forall clean ps → split_unit slash (abs_path ps) = [] :: ps.
Proof.
  intros H. apply split_unit_join; [done|]. constructor; [by apply not_elem_of_nil|by apply clean_no_slash].
Qed.

(** The directory of a file below [ps]. *)
Lemma base_dirs ps f : Forall clean ps → no_slash f →
  split_unit slash (take (default 0%nat (last_slash (abs_path ps ++ slash :: f))) (abs_path ps ++ slash :: f))
    = [] :: ps.
Proof. intros Hp Hf. rewrite last_slash_app by done. change (default 0%nat (Some ?n)) with n.
  by rewrite take_app_length, split_abs_path. Qed.

Lemma break_from_diff C : ∀ i x xs ys, head ys ≠ Some x →
  break_from i (C ++ x :: xs) (C ++ ys) = S (i + length C).
Proof.
  induction C as [|c C IH]; intros i x xs ys Hy.
  - destruct ys as [|y ys]; cbn [app break_from length]; [lia|].
    unfold str_eqb. rewrite bool_decide_false by (intros ->; done). lia.
  - cbn [app break_from]. unfold str_eqb. rewrite bool_decide_true by done. rewrite IH by done. cbn. lia.
Qed.

Lemma break_from_same ps : ∀ i, break_from i ps ps = 0%nat.
Proof.
  induction ps as [|p ps IH]; intros i; [done|]. cbn. unfold str_eqb. by rewrite bool_decide_true.
Qed.

Lemma ups_join n ps : ps ≠ [] → ups n ++ join [slash] ps = join [slash] (replicate n (js "..") ++ ps).
Proof.
  intros Hps. induction n as [|n IH]; [done|]. cbn [replicate app].
  assert (replicate n (js "..") ++ ps ≠ []) as Hne by (by destruct n).
  destruct (replicate n (js "..") ++ ps) as [|q qs] eqn:E; [done|].
  change (join [slash] (js ".." :: q :: qs)) with (js "../" ++ join [slash] (q :: qs)).
  rewrite <- IH. unfold ups. cbn [replicate mjoin list_join]. by rewrite <- app_assoc.
Qed.

Lemma filter_clean ps : Forall clean ps → List.filter truthy ps = ps.
Proof.
  induction 1 as [|p ps (_ & Hp & _) _ IH]; [done|]. destruct p; [done|]. cbn. by rewrite IH.
Qed.

Section RelPath.
Context (C B' : list jstr) (x : jstr) (P' : list jstr).
Abbreviation B := (C ++ B').
Abbreviation P := (C ++ x :: P').
Context (HB : Forall clean B) (HP : Forall clean P) (Hdiff : head B' ≠ Some x).

Lemma breakPoint_diff : breakPoint ([] :: B) ([] :: P) = S (S (length C)).
Proof using All.
  unfold breakPoint. destruct (Nat.leb_spec (length ([] :: P)) (length ([] :: B))) as [Hl|Hl].
  - destruct B' as [|y B'']; cbn [length] in Hl; rewrite !length_app in Hl; cbn in Hl; [lia|].
    apply (break_from_diff ([] :: C) 0). cbn. intros [= ->]. by apply Hdiff.
  - apply (break_from_diff ([] :: C) 0). done.
Qed.

Lemma toRelPath_diff f : no_slash f →
  toRelPath (abs_path B ++ slash :: f) (abs_path P) = ups (length B') ++ join [slash] (x :: P').
Proof using All.
  intros Hf. unfold toRelPath. rewrite base_dirs, split_abs_path, breakPoint_diff by done.
  cbn [Nat.eqb]. unfold items_from. f_equal.
  - f_equal. cbn [length]. rewrite length_app. lia.
  - cbn [drop]. by rewrite drop_app_length.
Qed.

Lemma base_filter : List.filter truthy (split_unit slash (abs_path B ++ [slash])) = B.
Proof using HB.
  assert (abs_path B ++ [slash] = join [slash] (([] :: B) ++ [[]])) as -> by (by rewrite join_snoc).
  rewrite split_unit_join; [|done|].
  - cbn [app List.filter truthy]. rewrite List.filter_app. cbn. rewrite app_nil_r.
    by apply filter_clean.
  - apply Forall_app. split; [|repeat constructor; by apply not_elem_of_nil].
    constructor; [by apply not_elem_of_nil|by apply clean_no_slash].
Qed.

Lemma toAbsPath_rel :
  toAbsPath (abs_path B ++ [slash]) (ups (length B') ++ join [slash] (x :: P')) = abs_path P.
Proof using All.
  assert (Forall clean (x :: P')) as HxP by (by apply Forall_app in HP as [_ ?]).
  unfold toAbsPath. rewrite base_filter.
  rewrite (ends_slash_app (ups _)), join_clean_ends by (done || by apply Forall_cons in HxP as [(_ & ? & _) _]; destruct x, P').
  rewrite ups_join by done.
  rewrite split_unit_join; [|by destruct (length B')|].
  2: { apply Forall_app. split; [|by apply clean_no_slash]. apply Forall_replicate.
       unfold no_slash. cbn. rewrite !not_elem_of_cons. split_and!; try done. by apply not_elem_of_nil. }
  rewrite reverse_app, reverse_replicate, merge_clean by (by apply Forall_reverse).
  rewrite <- (app_nil_r (replicate _ _)), merge_ups. cbn [merge app]. rewrite reverse_involutive, Nat.add_0_r.
  cbn [andb]. rewrite length_app.
  set (out := if (length C + length B' <=? length B')%nat then _ else _).
  assert (out = join [slash] P) as ->.
  { subst out. destruct C as [|c C']; cbn [length].
    - by rewrite (proj2 (Nat.leb_le _ _)).
    - rewrite (proj2 (Nat.leb_gt _ _)) by lia.
      replace (S (length C') + length B' - length B')%nat with (length (c :: C')) by (cbn; lia).
      rewrite take_app_length. symmetry. by apply (join_cut (c :: C')). }
  assert (P ≠ []) as HPn by (by destruct C).
  rewrite bool_decide_false by (by apply join_clean_head).
  unfold abs_path. by destruct P.
Qed.
End RelPath.

Lemma split_common (B P : list jstr) : ¬ (∃ R, B = P ++ R) →
  ∃ C B' x P', B = C ++ B' ∧ P = C ++ x :: P' ∧ head B' ≠ Some x.
Proof.
  revert P. induction B as [|b B IH]; intros P HP.
  - destruct P as [|p P]; [destruct HP; by exists []|]. by exists [], [], p, P.
  - destruct P as [|p P]; [destruct HP; by exists (b :: B)|]. destruct (decide (b = p)) as [->|Hne].
    + destruct (IH P) as (C & B' & x & P' & -> & -> & Hd); [intros (R & ->); apply HP; by exists R|].
      by exists (p :: C), B', x, P'.
    + exists [], (b :: B), p, P. split_and!; [done..|]. cbn. congruence.
Qed.

(** C37: Converting an absolute path to one relative to a base file and resolving
    the result against the base's directory gives the path back, for all
    paths of proper names, provided that the path is not the directory of the base or one above it. *)
Theorem toRelPath_toAbsPath (B P : list jstr) (f : jstr) :
  Forall clean B → Forall clean P → no_slash f → ¬ (∃ R, B = P ++ R) →
  toAbsPath (abs_path B ++ [slash]) (toRelPath (abs_path B ++ slash :: f) (abs_path P)) = abs_path P.
Proof.
  intros HB HP Hf Hn. destruct (split_common _ _ Hn) as (C & B' & x & P' & -> & -> & Hd).
  rewrite toRelPath_diff by done. by apply toAbsPath_rel.
Qed.

(** When the path is the directory of the base file itself, the loop finds no
    break point, the out-of-range item -1 is read and the result climbs above the root and holds the text
    "undefined" instead of an empty relative path. *)
Theorem toRelPath_same_dir (B : list jstr) (f : jstr) : Forall clean B → no_slash f →
  toRelPath (abs_path B ++ slash :: f) (abs_path B)
    = ups (length B + 2) ++ js "undefined" ++ [slash] ++ abs_path B.
Proof.
  intros HB Hf. unfold toRelPath. rewrite base_dirs, split_abs_path by done.
  assert (breakPoint ([] :: B) ([] :: B) = 0%nat) as ->.
  { unfold breakPoint. by rewrite Nat.leb_refl, break_from_same. }
  cbn [Nat.eqb]. f_equal. f_equal. cbn [length]. lia.
Qed.

#[export] Instance clean_dec s : Decision (clean s).
Proof. unfold clean, no_slash. apply _. Defined.

Lemma toAbsPath_normal_witness :
  Forall clean (List.filter truthy (split_unit slash (js "/a/b/")))
  ∧ toAbsPath (js "/a/b/") (js "../.././c//../d/") = js "/d/"
  ∧ ∃ ps tr, toAbsPath (js "/a/b/") (js "../.././c//../d/")
      = slash :: join [slash] ps ++ (if (tr : bool) then [slash] else []) ∧ Forall clean ps.
Proof.
  assert (Forall clean (List.filter truthy (split_unit slash (js "/a/b/")))) as H
    by (refine (bool_decide_unpack _ _); vm_compute; exact I).
  split; [exact H|]. split; [vm_compute; reflexivity|].
  exact (toAbsPath_normal (js "/a/b/") (js "../.././c//../d/") H).
Defined.

Lemma toRelPath_toAbsPath_witness :
  toRelPath (js "/a/b/c/f.html") (js "/a/d/e.html") = js "../../d/e.html"
  ∧ toAbsPath (js "/a/b/c/") (js "../../d/e.html") = js "/a/d/e.html".
Proof.
  split; [vm_compute; reflexivity|].
  refine (toRelPath_toAbsPath [js "a"; js "b"; js "c"] [js "a"; js "d"; js "e.html"] (js "f.html") _ _ _ _).
  - refine (bool_decide_unpack _ _); vm_compute; exact I.
  - refine (bool_decide_unpack _ _); vm_compute; exact I.
  - unfold no_slash. refine (bool_decide_unpack _ _); vm_compute; exact I.
  - intros (R & E). discriminate E.
Defined.

Lemma toRelPath_same_dir_witness :
  toRelPath (js "/a/b/c") (js "/a/b") = js "../../../../undefined//a/b".
Proof.
  refine (toRelPath_same_dir [js "a"; js "b"] (js "c") _ _).
  - refine (bool_decide_unpack _ _); vm_compute; exact I.
  - unfold no_slash. refine (bool_decide_unpack _ _); vm_compute; exact I.
Defined.
