(* ===== verification/Observable.v ===== *)
(** * classes/util/Observable.js

    Event binding.  The handler arrays are shared objects: a handler may bind and
    unbind while its event fires, and the running loop sees it.  What a handler does is
    a parameter, a function on the world and the event. *)

From S2P Require Import Prelude Tools NodeAttrs.

(** ** Data *)
Inductive cb := CbFn (id : nat) | CbReturnFalse.

#[export] Instance cb_eq_dec : EqDecision cb.
Proof. solve_decision. Defined.

Record event := MkEvent {
  type : jstr;
  target : option nat;
  defaultPrevented : bool;
  propagationStopped : bool;
  immediateStopped : bool
}.

(** An object with the mixin: its [__bindings] (names to arrays), whether it
    has bindNative and unbindNative, what was bound natively, and [parent()]. *)
Record obs := MkObs {
  bindings : option (Obj.t nat);
  hasNative : bool;
  natives : list jstr;
  parent : option nat
}.

(** An element of a handler array is [None] where the array was extended past its end. *)
Record world := MkWorld {
  objs : list obs;
  arrays : list (list (option cb))
}.

Definition nativeEvents : Obj.t unit :=
  makeMap (js ("focusin focusout click dblclick mousedown mouseup mousemove mouseover beforepaste paste cut copy selectionchange" ++
    " mouseout mouseenter mouseleave keydown keypress keyup contextmenu dragstart dragend dragover draggesture dragdrop drop drag")) 32 [].

Definition set_type v e := MkEvent v (target e) (defaultPrevented e) (propagationStopped e) (immediateStopped e).
Definition set_target v e := MkEvent (type e) v (defaultPrevented e) (propagationStopped e) (immediateStopped e).
(** The methods [fire] adds to the event. *)
Definition preventDefault e := MkEvent (type e) (target e) true (propagationStopped e) (immediateStopped e).
Definition stopPropagation e := MkEvent (type e) (target e) (defaultPrevented e) true (immediateStopped e).
Definition stopImmediatePropagation e := MkEvent (type e) (target e) (defaultPrevented e) (propagationStopped e) true.

Definition new_event : event := MkEvent [] None false false false.

Definition set_bindings b o := MkObs b (hasNative o) (natives o) (parent o).
Definition set_natives n o := MkObs (bindings o) (hasNative o) n (parent o).

Definition upd_obj (i : nat) (f : obs -> obs) (w : world) : world := MkWorld (alter f i (objs w)) (arrays w).
Definition upd_array (a : nat) (f : list (option cb) -> list (option cb)) (w : world) : world :=
  MkWorld (objs w) (alter f a (arrays w)).
Definition get_array (a : nat) (w : world) : list (option cb) := default [] (arrays w !! a).

(** [bindings[name]]: an array, nothing, or the member of an inherited name, which has
    no method push and no elements. *)
Inductive found := FArray (a : nat) | FNothing | FInherited.
Definition find_handlers (name : jstr) (b : Obj.t nat) : found :=
  match Obj.get name b with
  | Some a => FArray a
  | None => if Obj.is_proto name then FInherited else FNothing
  end.

(** ** on *)
Definition on1 (self : nat) (callback : cb) (name : jstr) (w : world) : option world :=
  o ← objs w !! self;
  let b := default [] (bindings o) in
  let w := upd_obj self (set_bindings (Some b)) w in
  match find_handlers name b with
  | FArray a => Some (upd_array a (λ hs, hs ++ [Some callback]) w)
  | FInherited => None
  | FNothing =>
      let a := length (arrays w) in
      let w := MkWorld (objs w) (arrays w ++ [[Some callback]]) in
      let w := upd_obj self (set_bindings (Some (Obj.set name a b))) w in
      Some (if hasNative o && Obj.has name nativeEvents
            then upd_obj self (λ o, set_natives (natives o ++ [name]) o) w else w)
  end.

Definition names_of (name : jstr) : list jstr := split_unit 32 (to_lower name).

(** [on(name, callback)]: the names are bound from the last to the first. *)
Definition on (self : nat) (name : jstr) (callback : option cb) (w : world) : option world :=
  match callback with
  | None => Some w
  | Some c => fold_right (λ name w, w ≫= on1 self c name) (Some w) (names_of name)
  end.

(** ** off *)

(** The loop [while (hi--)] with splice removes every occurrence. *)
Definition remove_cb (c : cb) (hs : list (option cb)) : list (option cb) := filter (λ h, h ≠ Some c) hs.

Definition off_handlers (self : nat) (callback : option cb) (name : jstr) (a : nat) (w : world) : option world :=
  let w := upd_array a (λ hs, match callback with
                              | None => []
                              | Some CbReturnFalse => hs (** a closure nobody else holds *)
                              | Some c => remove_cb c hs
                              end) w in
  o ← objs w !! self;
  Some (if negb (0 <? length (get_array a w))%nat && hasNative o && Obj.has name nativeEvents
        then upd_obj self (λ o, set_natives (filter (λ n, n ≠ name) (natives o))
                (set_bindings ((Obj.delete name) <$> bindings o) o)) w
        else w).

(** One name of [off(name, callback)]; [inr]: the function returns. The empty name
    empties the array of that very name once per binding. *)
Definition off1 (self : nat) (callback : option cb) (name : jstr) (w : world) : option (world + world) :=
  o ← objs w !! self;
  match bindings o with
  | None => Some (inl w)
  | Some b =>
      if negb (truthy name) then
        match b, Obj.get [] b with
        | [], _ => Some (inr w)
        | _, Some a => Some (inr (upd_array a (λ _, []) w))
        | _, None => None
        end
      else match find_handlers name b with
           | FArray a => inl <$> off_handlers self callback name a w
           | FNothing => Some (inl w)
           | FInherited => None
           end
  end.

Fixpoint off_names (self : nat) (callback : option cb) (names : list jstr) (w : world) : option (world + world) :=
  match names with
  | [] => Some (inl w)
  | name :: names =>
      r ← off_names self callback names w;
      match r with
      | inl w => off1 self callback name w
      | inr w => Some (inr w)
      end
  end.

Definition off (self : nat) (name : option jstr) (callback : option cb) (w : world) : option world :=
  o ← objs w !! self;
  match bindings o with
  | None => Some w
  | Some b =>
      match name with
      | Some nm =>
          if truthy nm then (λ r, match r with inl w => w | inr w => w end) <$> off_names self callback (names_of nm) w
          else Some (upd_obj self (λ o, set_bindings (Some []) (if hasNative o then set_natives [] o else o)) w)
      | None => Some (upd_obj self (λ o, set_bindings (Some []) (if hasNative o then set_natives [] o else o)) w)
      end
  end.

Definition hasEventListeners (self : nat) (name : jstr) (w : world) : bool :=
  match objs w !! self with
  | None => false
  | Some o =>
      match bindings o with
      | None => false
      | Some b => match find_handlers (to_lower name) b with
                  | FArray a => (0 <? length (get_array a w))%nat
                  | FNothing => false
                  | FInherited => true
                  end
      end
  end.

(** ** fire *)
Section Fire.
(** A handler: the world and the event after it, and whether it returned [false]; [None]: it threw. *)
Context (env : nat -> nat -> world -> event -> option (world * event * bool)).

Definition call (self : nat) (c : cb) (w : world) (e : event) : option (world * event * bool) :=
  match c with
  | CbFn id => env id self w e
  | CbReturnFalse => Some (w, e, true)
  end.

(** [handlers[i] = callback = handlers[i]]: past the end the array grows. *)
Definition touch (i : nat) (hs : list (option cb)) : list (option cb) :=
  if (i <? length hs)%nat then hs else hs ++ replicate (S i - length hs) None.

(** The loop from [i], [k] turns left; the flag is set when a handler
    returned false. *)
Fixpoint run_handlers (k : nat) (self a i : nat) (w : world) (e : event) : option (world * event * bool) :=
  match k with
  | O => Some (w, e, false)
  | S k =>
      let w := upd_array a (touch i) w in
      if immediateStopped e then Some (w, e, false)
      else
        match mjoin (get_array a w !! i) with
        | None => None (** undefined has no method call *)
        | Some c =>
            '(w, e, r) ← call self c w e;
            if (r : bool) then Some (w, preventDefault e, true) else run_handlers k self a (S i) w e
        end
  end.

(** [fire(name, args, false)] *)
Definition fire_local (self : nat) (name : jstr) (e : event) (w : world) : option (world * event * bool) :=
  let name := to_lower name in
  let e := set_type name e in
  let e := match target e with None => set_target (Some self) e | Some _ => e end in
  o ← objs w !! self;
  match bindings o with
  | None => Some (w, e, false)
  | Some b =>
      match find_handlers name b with
      | FArray a => run_handlers (length (get_array a w)) self a 0 w e
      | FNothing => Some (w, e, false)
      | FInherited => None
      end
  end.

(** [while (parent && !args.isPropagationStopped())] *)
Fixpoint bubble_up (fuel : nat) (p : option nat) (name : jstr) (w : world) (e : event) : option (world * event) :=
  match fuel, p with
  | _, None => Some (w, e)
  | O, Some _ => None
  | S f, Some p =>
      if propagationStopped e then Some (w, e)
      else
        '(w, e, _) ← fire_local p name e w;
        o ← objs w !! p;
        bubble_up f (parent o) name w e
  end.

Definition fire (self : nat) (name : jstr) (args : option event) (bubble : bool) (w : world) : option (world * event) :=
  '(w, e, returned) ← fire_local self name (default new_event args) w;
  if (returned : bool) || negb bubble then Some (w, e)
  else
    o ← objs w !! self;
    bubble_up (length (objs w)) (parent o) (to_lower name) w e.
End Fire.

(** ** What the handlers of a name are *)
Definition obj_bindings (self : nat) (w : world) : Obj.t nat := default [] (objs w !! self ≫= bindings).

Definition handlers_of (self : nat) (name : jstr) (w : world) : list (option cb) :=
  match find_handlers name (obj_bindings self w) with
  | FArray a => get_array a w
  | _ => []
  end.

(** The arrays of the bindings exist and no two names or objects share one. *)
Definition world_ok (w : world) : Prop :=
  (∀ i o n a, objs w !! i = Some o → Obj.get n (default [] (bindings o)) = Some a → (a < length (arrays w))%nat)
  ∧ (∀ i j o o' n n' a, objs w !! i = Some o → objs w !! j = Some o' →
       Obj.get n (default [] (bindings o)) = Some a → Obj.get n' (default [] (bindings o')) = Some a → i = j ∧ n = n').

Lemma get_array_alter a b f w : (a < length (arrays w))%nat →
  get_array b (upd_array a f w) = if decide (a = b) then f (get_array a w) else get_array b w.
Proof.
  intros Hl. unfold get_array, upd_array. cbn. case_decide as E.
  - subst b. rewrite list_lookup_alter_eq. by destruct (lookup_lt_is_Some_2 (arrays w) a Hl) as [x ->].
  - by rewrite list_lookup_alter_ne.
Qed.

(** ** Firing over handlers that stay *)
Section Stable.
Context (env : nat -> nat -> world -> event -> option (world * event * bool)).

(** The handlers do not touch the handler arrays. *)
Context (Hstable : ∀ id self w e w' e' r, env id self w e = Some (w', e', r) → arrays w' = arrays w).

(** The handlers in order, until one returns false (which prevents the
    default) or the event is stopped. *)
Fixpoint spec_run (cs : list cb) (self : nat) (w : world) (e : event) : option (world * event * bool) :=
  match cs with
  | [] => Some (w, e, false)
  | c :: cs =>
      if immediateStopped e then Some (w, e, false)
      else
        '(w, e, r) ← call env self c w e;
        if (r : bool) then Some (w, preventDefault e, true) else spec_run cs self w e
  end.

Lemma upd_array_touch a i w : (i < length (get_array a w))%nat → upd_array a (touch i) w = w.
Proof.
  intros Hi. unfold upd_array. destruct w as [os ars]. cbn. f_equal.
  apply list_eq. intros b. destruct (decide (a = b)) as [->|].
  - rewrite list_lookup_alter_eq. unfold get_array in Hi. cbn in Hi.
    destruct (ars !! b) as [hs|]; [|done]. cbn in *. unfold touch. by rewrite (proj2 (Nat.ltb_lt _ _)).
  - by rewrite list_lookup_alter_ne.
Qed.

Lemma call_stable self c w e w' e' r : call env self c w e = Some (w', e', r) → arrays w' = arrays w.
Proof using Hstable. destruct c; cbn; [apply Hstable|]. intros; by simplify_eq. Qed.

Lemma run_handlers_ok self a cs : ∀ done_ w e,
  get_array a w = (Some <$> done_) ++ (Some <$> cs) →
  run_handlers env (length cs) self a (length done_) w e = spec_run cs self w e.
Proof using Hstable.
  induction cs as [|c cs IH]; intros done_ w e Ha; [done|]. cbn [length run_handlers spec_run].
  rewrite upd_array_touch by (rewrite Ha, length_app, !length_fmap; cbn; lia).
  destruct (immediateStopped e); [done|].
  assert (mjoin (get_array a w !! length done_) = Some c) as ->.
  { rewrite Ha, lookup_app_r by (by rewrite length_fmap). by rewrite length_fmap, Nat.sub_diag. }
  destruct (call env self c w e) as [[[w' e'] r]|] eqn:Ec; [|done]. cbn.
  destruct r; [done|]. specialize (IH (done_ ++ [c]) w' e').
  rewrite length_app in IH. cbn in IH. rewrite Nat.add_1_r in IH. apply IH.
  unfold get_array in *. rewrite (call_stable _ _ _ _ _ _ _ Ec), Ha. by rewrite fmap_app, <- app_assoc.
Qed.

(** When the handlers of a name leave the bindings alone, firing runs
    them once each in the order they were bound, until one returns false or stops the event. *)
Theorem fire_local_in_order self name e w o b cs : objs w !! self = Some o → bindings o = Some b →
  Obj.is_proto (to_lower name) = false → handlers_of self (to_lower name) w = Some <$> cs →
  fire_local env self name e w
    = spec_run cs self w (let e := set_type (to_lower name) e in
                          match target e with None => set_target (Some self) e | Some _ => e end).
Proof using Hstable.
  intros Ho Hb Hp Hh. unfold handlers_of, obj_bindings in Hh. rewrite Ho in Hh. cbn [mbind option_bind] in Hh.
  rewrite Hb in Hh. change (default [] (Some b)) with b in Hh.
  unfold fire_local. rewrite Ho. cbn [mbind option_bind]. rewrite Hb.
  unfold find_handlers in *. rewrite Hp in *.
  destruct (Obj.get (to_lower name) b) as [a|].
  - pose proof (run_handlers_ok self a cs [] w) as Hr. cbn [length fmap list_fmap app] in Hr.
    rewrite <- Hh in Hr. rewrite Hh. rewrite length_fmap. by rewrite Hr.
  - by destruct cs.
Qed.
End Stable.

(** ** Binding and unbinding *)
Lemma list_lookup_alter_Some {A} (f : A → A) (i : nat) (l : list A) x : l !! i = Some x → alter f i l !! i = Some (f x).
Proof. intros E. by rewrite list_lookup_alter_eq, E. Qed.

Lemma handlers_of_unfold i n w o b : objs w !! i = Some o → default [] (bindings o) = b →
  handlers_of i n w = match find_handlers n b with FArray a => get_array a w | _ => [] end.
Proof. intros E1 E2. unfold handlers_of, obj_bindings. rewrite E1. cbn [mbind option_bind]. by rewrite E2. Qed.

Lemma handlers_of_new self name w o b : objs w !! self = Some o → default [] (bindings o) = b →
  Obj.get name b = None → Obj.is_proto name = false → handlers_of self name w = [].
Proof.
  intros Ho Hb Hg Hp. rewrite (handlers_of_unfold self name w o b) by done.
  unfold find_handlers. by rewrite Hg, Hp.
Qed.

Lemma handlers_ext w1 w2 : arrays w2 = arrays w1 →
  (∀ i, (bindings <$> objs w2 !! i) = (bindings <$> objs w1 !! i)) →
  ∀ i n, handlers_of i n w2 = handlers_of i n w1.
Proof.
  intros E1 E2 i n. unfold handlers_of, obj_bindings. specialize (E2 i). unfold get_array. rewrite E1.
  destruct (objs w2 !! i), (objs w1 !! i); try done. cbn in E2. simplify_eq. cbn. by rewrite E2.
Qed.

(** What [on1] promises, for a name that had no array of handlers and for one that had. *)
Definition bound (self : nat) (c : cb) (name : jstr) (w : world) : Prop :=
  ∃ w', on1 self c name w = Some w'
    ∧ handlers_of self name w' = handlers_of self name w ++ [Some c]
    ∧ ∀ self' name', self' ≠ self ∨ name' ≠ name → handlers_of self' name' w' = handlers_of self' name' w.

Section On1.
Context (self : nat) (c : cb) (name : jstr) (w : world) (o : obs).
Context (Ho : objs w !! self = Some o) (Hw : world_ok w) (Hp : Obj.is_proto name = false).
Abbreviation b := (default [] (bindings o)).

(** The world with a new array for the name. *)
Abbreviation with_array := (upd_obj self (set_bindings (Some (Obj.set name (length (arrays w)) b)))
  (MkWorld (objs w) (arrays w ++ [[Some c]]))).

Lemma with_array_here n : handlers_of self n with_array =
  match find_handlers n (Obj.set name (length (arrays w)) b) with FArray a => get_array a with_array | _ => [] end.
Proof using Ho.
  by rewrite (handlers_of_unfold self n with_array _ (Obj.set name (length (arrays w)) b)
    (list_lookup_alter_Some _ _ _ _ Ho) eq_refl).
Qed.

Lemma with_array_other self' name' : self' ≠ self ∨ name' ≠ name →
  handlers_of self' name' with_array = handlers_of self' name' w.
Proof using Ho Hw.
  destruct Hw as [Hlt _]. intros Hne. destruct (decide (self' = self)) as [->|Hs].
  - destruct Hne as [|Hne]; [done|]. rewrite with_array_here, (handlers_of_unfold self name' w o b) by done.
    unfold find_handlers. rewrite Obj.get_set_ne by congruence.
    destruct (Obj.get name' b) as [a'|] eqn:E'; [|by destruct (Obj.is_proto name')].
    unfold get_array. cbn [upd_obj arrays]. rewrite lookup_app_l by (by eapply Hlt). done.
  - unfold handlers_of. assert (obj_bindings self' with_array = obj_bindings self' w) as ->.
    { unfold obj_bindings. cbn [upd_obj objs]. by rewrite list_lookup_alter_ne. }
    unfold find_handlers, obj_bindings. destruct (objs w !! self') as [o'|] eqn:E'; [|by cbn; destruct (Obj.is_proto name')].
    cbn [mbind option_bind].
    destruct (Obj.get name' (default [] (bindings o'))) as [a'|] eqn:Ea'; [|by destruct (Obj.is_proto name')].
    unfold get_array. cbn. rewrite lookup_app_l by (by eapply Hlt). done.
Qed.

Lemma on1_new : Obj.get name b = None → bound self c name w.
Proof using Ho Hw Hp.
  intros Ea. unfold bound, on1. rewrite Ho. cbn [mbind option_bind]. unfold find_handlers. rewrite Hp, Ea.
  eexists. split; [reflexivity|]. set (w2 := if hasNative o && _ then _ else _).
  assert (∀ i n, handlers_of i n w2 = handlers_of i n with_array) as E2.
  { subst w2. destruct (hasNative o && _); apply handlers_ext; try done; intros i; cbn;
      (destruct (decide (i = self)) as [->|];
       [by rewrite !list_lookup_alter_eq, Ho|by rewrite !list_lookup_alter_ne by done]). }
  split; [|intros self' name' Hne; by rewrite E2, with_array_other].
  rewrite E2, with_array_here, (handlers_of_new self name w o b) by done.
  unfold find_handlers. rewrite Obj.get_set_eq. unfold get_array. cbn [upd_obj arrays].
  by rewrite list_lookup_middle.
Qed.

Lemma on1_old a : Obj.get name b = Some a → bound self c name w.
Proof using Ho Hw Hp.
  destruct Hw as [Hlt Hinj]. intros Ea. unfold bound, on1. rewrite Ho. cbn [mbind option_bind].
  unfold find_handlers. rewrite Hp, Ea. eexists. split; [reflexivity|].
  set (w1 := upd_obj self (set_bindings (Some b)) w).
  assert (a < length (arrays w1))%nat as Hla by (by eapply (Hlt self)).
  assert (∀ i, obj_bindings i w1 = obj_bindings i w) as Eb.
  { intros i. unfold obj_bindings, w1. cbn. destruct (decide (i = self)) as [->|];
      [by rewrite list_lookup_alter_eq, Ho|by rewrite list_lookup_alter_ne]. }
  assert (∀ i n, handlers_of i n (upd_array a (λ hs, hs ++ [Some c]) w1)
    = match find_handlers n (obj_bindings i w) with
      | FArray a' => if decide (a = a') then get_array a w ++ [Some c] else get_array a' w
      | _ => []
      end) as Hh.
  { intros i n. rewrite <- Eb. unfold handlers_of.
    change (obj_bindings i (upd_array a (λ hs, hs ++ [Some c]) w1)) with (obj_bindings i w1).
    destruct (find_handlers n _) as [a'| |]; [|done..]. by rewrite get_array_alter. }
  assert (obj_bindings self w = b) as Eself by (unfold obj_bindings; by rewrite Ho).
  split; [rewrite Hh; unfold handlers_of, find_handlers; by rewrite Eself, Ea, decide_True|].
  intros self' name' Hne. rewrite Hh. unfold handlers_of, find_handlers, obj_bindings.
  destruct (objs w !! self') as [o'|] eqn:E'; [|by cbn; destruct (Obj.is_proto name')]. cbn [mbind option_bind].
  destruct (Obj.get name' (default [] (bindings o'))) as [a'|] eqn:Ea'; [|by destruct (Obj.is_proto name')].
  rewrite decide_False; [done|]. intros <-. destruct (Hinj self self' o o' name name' a) as [-> ->]; try done. naive_solver.
Qed.
End On1.

(** Binding a handler puts it behind those already bound to that name of that
    object; no other name or object sees it. *)
Theorem on1_ok self c name w o : objs w !! self = Some o → world_ok w → Obj.is_proto name = false →
  ∃ w', on1 self c name w = Some w'
    ∧ handlers_of self name w' = handlers_of self name w ++ [Some c]
    ∧ ∀ self' name', self' ≠ self ∨ name' ≠ name → handlers_of self' name' w' = handlers_of self' name' w.
Proof.
  intros Ho Hw Hp. destruct (Obj.get name (default [] (bindings o))) as [a|] eqn:E.
  - by apply (on1_old self c name w o Ho Hw Hp a).
  - by apply (on1_new self c name w o).
Qed.

(** ** A handler that unbinds itself *)

(** Handler 0 unbinds itself from the event it handles. *)
Definition once_env (id self : nat) (w : world) (e : event) : option (world * event * bool) :=
  match id with
  | O => (λ w, (w, e, false)) <$> off self (Some (type e)) (Some (CbFn 0)) w
  | _ => Some (w, e, false)
  end.

Definition two_handlers : world :=
  MkWorld [MkObs (Some [(js "click", 0%nat)]) false [] None] [[Some (CbFn 0); Some (CbFn 1)]].

(** A handler that unbinds itself breaks the firing: the array got shorter than the loop
    expects, and calling what lies behind its end throws. *)
Theorem self_removal_throws :
  fire once_env 0 (js "click") None true two_handlers = None
  ∧ (λ w, handlers_of 0 (js "click") w) <$> off 0 (Some (js "click")) (Some (CbFn 0)) two_handlers
      = Some [Some (CbFn 1)].
Proof. split; by vm_compute. Qed.

(** Three nested objects; the handler of the middle one returns false. *)
Definition nested : world :=
  MkWorld [MkObs None false [] (Some 1%nat); MkObs (Some [(js "click", 0%nat)]) false [] (Some 2%nat);
           MkObs (Some [(js "click", 1%nat)]) false [] None]
    [[Some CbReturnFalse]; [Some (CbFn 5)]].

(** Handler 5 stops the propagation, to be seen in the event. *)
Definition mark_env (id self : nat) (w : world) (e : event) : option (world * event * bool) :=
  Some (w, stopPropagation e, false).

(** Returning false from a handler of a parent prevents the default but does not stop the
    event: it still bubbles to the next parent. *)
Theorem false_does_not_stop_bubbling :
  (λ r, (defaultPrevented r.2, propagationStopped r.2)) <$> fire mark_env 0 (js "click") None true nested
    = Some (true, true).
Proof. by vm_compute. Qed.

Lemma fire_local_in_order_witness :
  fire_local mark_env 0 (js "Click") new_event two_handlers
    = spec_run mark_env [CbFn 0; CbFn 1] 0 two_handlers (set_target (Some 0%nat) (set_type (js "click") new_event)).
Proof.
  apply (fire_local_in_order mark_env) with (o := MkObs (Some [(js "click", 0%nat)]) false [] None)
    (b := [(js "click", 0%nat)]); try by vm_compute.
  intros id self w e w' e' r. unfold mark_env. intros; by simplify_eq.
Defined.

Lemma on1_ok_witness : ∃ w', on1 0 (CbFn 2) (js "click") two_handlers = Some w'
  ∧ handlers_of 0 (js "click") w' = [Some (CbFn 0); Some (CbFn 1)] ++ [Some (CbFn 2)]
  ∧ ∀ self' name', self' ≠ 0%nat ∨ name' ≠ js "click" →
      handlers_of self' name' w' = handlers_of self' name' two_handlers.
Proof.
  apply (on1_ok 0 (CbFn 2) (js "click") two_handlers (MkObs (Some [(js "click", 0%nat)]) false [] None)); [done| |by vm_compute].
  split.
  - intros [|[|i]] o n a; cbn; [|done..]. intros [= <-]. cbn. unfold str_eqb.
    case_bool_decide; intros; simplify_eq. lia.
  - intros [|i] [|j] o o' n n' a; cbn; [|done..]. intros [= <-] [= <-]. cbn. unfold str_eqb.
    repeat case_bool_decide; intros; simplify_eq; done.
Defined.
