(* ===== verification/ScriptLoader.v ===== *)
(** * classes/dom/ScriptLoader.js and classes/AddOnManager.js

    Loading scripts one queue at a time, and plugins with their dependencies
    on top of it.  Callbacks may call back into the loader while it iterates over
    its own arrays, and an exception abandons whatever is running, so the two
    are a machine: a world, a stack of tasks, and one step per statement that
    matters.  A script that finishes loading is an outside event. *)

From S2P Require Import Prelude Tools.

(** ** Data *)

(** The object [{prefix, resource, suffix}]; an undefined part prints as its name. *)
Record urlobj := UrlObj { prefix : option jstr; resource : jstr; suffix : option jstr }.
Inductive url_arg := UStr (s : jstr) | UObj (o : urlobj).

(** A callback: a function of the page, or [loadDependencies] of [load(n, u, cb)]. *)
Inductive callback := CbUser (id : nat) | CbDeps (n : jstr) (u : url_arg) (cb : option nat).

#[export] Instance urlobj_eq_dec : EqDecision urlobj.
Proof. solve_decision. Defined.
#[export] Instance url_arg_eq_dec : EqDecision url_arg.
Proof. solve_decision. Defined.
#[export] Instance callback_eq_dec : EqDecision callback.
Proof. solve_decision. Defined.

(** The calls a page can make. *)
Inductive cmd :=
  | CAdd (url : jstr) (cb : option callback)
  | CLoadQueue (cb : option callback)
  | CLoadScripts (arr : nat) (cb : option callback)
  | CMarkDone (url : jstr)
  | CPluginAdd (id : jstr) (deps : list url_arg)
  | CPluginLoad (n : jstr) (u : url_arg) (cb : option nat).

Definition QUEUED : Z := 0.
Definition LOADING : Z := 1.
Definition LOADED : Z := 2.

(** [arrays]: the arrays of urls; number 0 is [queue], the others the page
    made.  [started], [calls]: every script element created and every page callback
    run, in order (the observable history). *)
Record world := MkWorld {
  states : Obj.t Z;
  arrays : list (list jstr);
  scriptLoadedCallbacks : Obj.t (list callback);
  queueLoadedCallbacks : list (option callback);
  loading : Z;
  pending : list (jstr * nat);
  urls : Obj.t jstr;
  lookup : Obj.t (list url_arg);
  started : list jstr;
  calls : list nat
}.

Definition set_states v w := MkWorld v (arrays w) (scriptLoadedCallbacks w) (queueLoadedCallbacks w) (loading w) (pending w) (urls w) (lookup w) (started w) (calls w).
Definition set_arrays v w := MkWorld (states w) v (scriptLoadedCallbacks w) (queueLoadedCallbacks w) (loading w) (pending w) (urls w) (lookup w) (started w) (calls w).
Definition set_urlCbs v w := MkWorld (states w) (arrays w) v (queueLoadedCallbacks w) (loading w) (pending w) (urls w) (lookup w) (started w) (calls w).
Definition set_queueCbs v w := MkWorld (states w) (arrays w) (scriptLoadedCallbacks w) v (loading w) (pending w) (urls w) (lookup w) (started w) (calls w).
Definition set_urls v w := MkWorld (states w) (arrays w) (scriptLoadedCallbacks w) (queueLoadedCallbacks w) (loading w) (pending w) v (lookup w) (started w) (calls w).
Definition set_lookup v w := MkWorld (states w) (arrays w) (scriptLoadedCallbacks w) (queueLoadedCallbacks w) (loading w) (pending w) (urls w) v (started w) (calls w).
Definition set_calls v w := MkWorld (states w) (arrays w) (scriptLoadedCallbacks w) (queueLoadedCallbacks w) (loading w) (pending w) (urls w) (lookup w) (started w) v.

Definition init (arrs : list (list jstr)) : world :=
  MkWorld [] ([] :: arrs) [] [] 0 [] [] [] [] [].

(** ** Tasks *)
Inductive task :=
  | TCmd (c : cmd)
  | TCall (cb : option callback)
  | TUrlEach (url : jstr) (cbs : list callback)   (** each(scriptLoadedCallbacks[url], ...) *)
  | TUrlClear (url : jstr)
  | TLoad (arr : nat)                              (** the inner loadScripts() of loadScripts(arr) *)
  | TLoadEach (urls : list jstr) (arr : nat)       (** each(loadingScripts, ...) *)
  | TQueue                                         (** if (!loading) ... *)
  | TQueueEach (n l : nat)                         (** each(queueLoadedCallbacks, ...) from n to l *)
  | TQueueClear
  | TDeps (u : url_arg) (deps : list url_arg).     (** each(dependencies, ...) *)

(** ** Statements *)
Definition str_or_undefined (o : option jstr) : jstr := default (js "undefined") o.

(** [add(url, callback)]; an inherited name is never queued, and has no
    array to push a callback to. *)
Definition add (url : jstr) (cb : option callback) (w : world) : option world :=
  let w := if Obj.has url (states w) then w
           else set_states (Obj.set url QUEUED (states w))
                  (set_arrays (alter (λ q, q ++ [url]) 0%nat (arrays w)) w) in
  match cb with
  | None => Some w
  | Some cb =>
      match Obj.get url (scriptLoadedCallbacks w) with
      | Some cbs => Some (set_urlCbs (Obj.set url (cbs ++ [cb]) (scriptLoadedCallbacks w)) w)
      | None => if Obj.is_proto url then None
                else Some (set_urlCbs (Obj.set url [cb] (scriptLoadedCallbacks w)) w)
      end
  end.

Definition isDone (url : jstr) (w : world) : bool := bool_decide (Obj.get url (states w) = Some LOADED).
Definition markDone (url : jstr) (w : world) : world := set_states (Obj.set url LOADED (states w)) w.

(** Creating the script element of [loadScript(url, ...)]. *)
Definition start_script (url : jstr) (arr : nat) (w : world) : world :=
  MkWorld (Obj.set url LOADING (states w)) (arrays w) (scriptLoadedCallbacks w) (queueLoadedCallbacks w)
    (loading w + 1) (pending w ++ [(url, arr)]) (urls w) (lookup w) (started w ++ [url]) (calls w).

(** ** AddOnManager *)
Definition get (name : jstr) (w : world) : option (list url_arg) := Obj.get name (lookup w).
Definition dependencies (name : jstr) (w : world) : list url_arg := default [] (Obj.get name (lookup w)).

Definition createUrl (baseUrl dep : url_arg) : urlobj :=
  match dep with
  | UObj o => o
  | UStr d => match baseUrl with
              | UObj b => UrlObj (prefix b) d (suffix b)
              | UStr _ => UrlObj None d None
              end
  end.

(** [url.indexOf('://') == -1] *)
Definition has_scheme (url : jstr) : bool := if index_of (js "://") url is Some _ then true else false.

(** [url.substring(0, url.lastIndexOf('/'))] *)
Fixpoint last_index_of (c : Z) (s : jstr) : option nat :=
  match s with
  | [] => None
  | x :: s' => match last_index_of c s' with
               | Some i => Some (S i)
               | None => if x =? c then Some 0%nat else None
               end
  end.
Definition dirname (url : jstr) : jstr := take (default 0%nat (last_index_of 47 url)) url.

Definition full_url (baseURL : jstr) (u : url_arg) : jstr :=
  let url := match u with
             | UObj o => str_or_undefined (prefix o) ++ resource o ++ str_or_undefined (suffix o)
             | UStr s => s
             end in
  if negb (bool_decide (index_of_unit 47 url = Some 0%nat)) && negb (has_scheme url)
  then baseURL ++ [47] ++ url else url.

(** [addComponents(pluginName, scripts)]: the calls it makes. *)
Definition addComponents (pluginName : jstr) (scripts : list jstr) (w : world) : list cmd :=
  (λ script, CAdd (str_or_undefined (Obj.get pluginName (urls w)) ++ [47] ++ script) None) <$> scripts.

(** The test [new RegExp('([, ]|\b)' + language + '([, ]|\b)').test(languages)] for a language code
    without special characters: an occurrence between separators or word boundaries. *)
Definition edge (p n : option Z) : bool :=
  match p, n with
  | Some p, Some n => (p =? 44) || (p =? 32) || negb (Bool.eqb (is_word p) (is_word n))
  | Some p, None => (p =? 44) || (p =? 32) || is_word p
  | None, Some n => is_word n
  | None, None => false
  end.

Fixpoint language_in (language : jstr) (p : option Z) (s : jstr) : bool :=
  (starts_with language s
   && edge p (head s)
   && edge (head (drop (length language) s)) (last language))
  || match s with
     | [] => false
     | c :: s' => language_in language (Some c) s'
     end.

(** [requireLangPack(name, languages)] with the language settings of the manager. *)
Definition requireLangPack (language : jstr) (languageLoad : bool) (name : jstr)
    (languages : option jstr) (w : world) : list cmd :=
  if truthy language && languageLoad then
    match languages with
    | Some ls => if truthy ls && negb (language_in language None ls) then []
                 else [CAdd (str_or_undefined (Obj.get name (urls w)) ++ js "/langs/" ++ language ++ js ".js") None]
    | None => [CAdd (str_or_undefined (Obj.get name (urls w)) ++ js "/langs/" ++ language ++ js ".js") None]
    end
  else [].

Example language_in_example :
  language_in (js "sv") None (js "en,sv,de") = true ∧ language_in (js "sv") None (js "en,sv_SE") = false.
Proof. split; by vm_compute. Qed.

Section Machine.
(** The base URL, and what each page callback calls. *)
Context (baseURL : jstr) (env : nat -> list cmd).

(** [load(n, u, cb)] of the manager: the tasks it leaves. *)
Definition plugin_load (n : jstr) (u : url_arg) (cb : option nat) (w : world) : option (list task * world) :=
  if match Obj.get n (urls w) with Some d => truthy d | None => Obj.is_proto n end then Some ([], w)
  else
    let url := full_url baseURL u in
    let w := set_urls (Obj.set n (dirname url) (urls w)) w in
    if Obj.has n (lookup w) then Some ([TCall (Some (CbDeps n u cb))], w)
    else Some ([TCmd (CAdd url (Some (CbDeps n u cb)))], w).

Definition exec_cmd (c : cmd) (w : world) : option (list task * world) :=
  match c with
  | CAdd url cb => (λ w, ([], w)) <$> add url cb w
  | CLoadQueue cb => Some ([TCmd (CLoadScripts 0 cb)], w)
  | CLoadScripts arr cb => Some ([TLoad arr], set_queueCbs (queueLoadedCallbacks w ++ [cb]) w)
  | CMarkDone url => Some ([], markDone url w)
  | CPluginAdd id deps => Some ([], set_lookup (Obj.set id deps (lookup w)) w)
  | CPluginLoad n u cb => plugin_load n u cb w
  end.

(** A task: the tasks it is replaced by, or an exception. *)
Definition exec (t : task) (w : world) : option (list task * world) :=
  match t with
  | TCmd c => exec_cmd c w
  | TCall None => None (** the function of the callback is undefined *)
  | TCall (Some (CbUser id)) => Some (TCmd <$> env id, set_calls (calls w ++ [id]) w)
  | TCall (Some (CbDeps n u cb)) =>
      Some (TDeps u (dependencies n w) :: (if cb is Some c then [TCall (Some (CbUser c))] else []), w)
  | TDeps u [] => Some ([], w)
  | TDeps u (dep :: deps) =>
      let newUrl := createUrl u dep in
      Some ([TCmd (CPluginLoad (resource newUrl) (UObj newUrl) None); TDeps u deps], w)
  | TUrlEach url [] => Some ([], w)
  | TUrlEach url (cb :: cbs) => Some ([TCall (Some cb); TUrlEach url cbs], w)
  | TUrlClear url => Some ([], set_urlCbs (Obj.delete url (scriptLoadedCallbacks w)) w)
  | TLoad arr =>
      Some ([TLoadEach (default [] (arrays w !! arr)) arr; TQueue], set_arrays (<[arr := []]> (arrays w)) w)
  | TLoadEach [] arr => Some ([], w)
  | TLoadEach (url :: us) arr =>
      if isDone url w then
        Some ([TUrlEach url (default [] (Obj.get url (scriptLoadedCallbacks w))); TUrlClear url; TLoadEach us arr], w)
      else if bool_decide (Obj.get url (states w) = Some LOADING) then Some ([TLoadEach us arr], w)
      else Some ([TLoadEach us arr], start_script url arr w)
  | TQueue =>
      if loading w =? 0 then Some ([TQueueEach 0 (length (queueLoadedCallbacks w)); TQueueClear], w)
      else Some ([], w)
  | TQueueEach n l =>
      if (n <? l)%nat then
        match queueLoadedCallbacks w !! n with
        | None => None (** the array was emptied meanwhile: the element is undefined *)
        | Some cb => Some ([TCall cb; TQueueEach (S n) l], w)
        end
      else Some ([], w)
  | TQueueClear => Some ([], set_queueCbs [] w)
  end.

(** The load event of a script element: its number among the pending ones. *)
Definition loaded (k : nat) (w : world) : option (list task * world) :=
  '(url, arr) ← pending w !! k;
  let w := MkWorld (Obj.set url LOADED (states w)) (arrays w) (scriptLoadedCallbacks w)
    (queueLoadedCallbacks w) (loading w - 1) (delete k (pending w)) (urls w) (lookup w) (started w) (calls w) in
  Some ([TUrlEach url (default [] (Obj.get url (scriptLoadedCallbacks w))); TUrlClear url; TLoad arr], w).

(** ** Runs *)
Definition config : Type := list task * world.

Inductive step : config -> config -> Prop :=
  | step_task t ts w ts' w' : exec t w = Some (ts', w') → step (t :: ts, w) (ts' ++ ts, w')
  | step_throw t ts w : exec t w = None → step (t :: ts, w) ([], w)
  | step_page c w : step ([], w) ([TCmd c], w)
  | step_array a w : step ([], w) ([], set_arrays (arrays w ++ [a]) w)
  | step_loaded k w ts' w' : loaded k w = Some (ts', w') → step ([], w) (ts', w').

Definition reachable (c : config) : Prop := ∃ arrs, rtc step ([], init arrs) c.

(** The same as a function: events until the fuel is gone. *)
Inductive event := EvPage (c : cmd) | EvLoaded (k : nat).

Fixpoint drive (fuel : nat) (evs : list event) (c : config) : config :=
  match fuel with
  | O => c
  | S f =>
      match c with
      | (t :: ts, w) =>
          match exec t w with
          | Some (ts', w') => drive f evs (ts' ++ ts, w')
          | None => drive f evs ([], w)
          end
      | ([], w) =>
          match evs with
          | [] => c
          | EvPage c :: evs => drive f evs ([TCmd c], w)
          | EvLoaded k :: evs =>
              match loaded k w with
              | Some c => drive f evs c
              | None => drive f evs ([], w)
              end
          end
      end
  end.

(** ** No script is loaded twice *)
Record good (w : world) : Prop := {
  good_count : loading w = Z.of_nat (length (pending w));
  good_pending : NoDup (pending w).*1;
  good_sub : ∀ url, url ∈ (pending w).*1 → url ∈ started w;
  good_started : NoDup (started w);
  good_states : ∀ url, url ∈ started w →
    Obj.get url (states w) = Some LOADING ∨ Obj.get url (states w) = Some LOADED
}.

(** A change that leaves the scripts alone and marks none as new. *)
Lemma good_same w w' : loading w' = loading w → pending w' = pending w → started w' = started w →
  (∀ url, url ∈ started w → Obj.get url (states w') = Obj.get url (states w)
                            ∨ Obj.get url (states w') = Some LOADED) →
  good w → good w'.
Proof.
  intros E1 E2 E3 E4 [H1 H2 H3 H4 H5]. constructor; rewrite ?E1, ?E2, ?E3; try done.
  intros url Hu. destruct (E4 url Hu) as [->| ->]; auto.
Qed.

Ltac same_world := solve [eapply good_same; [..|eassumption]; auto].

Lemma good_markDone url w : good w → good (markDone url w).
Proof.
  intros Hw. eapply good_same; [..|exact Hw]; [done..|].
  intros u _. cbn. rewrite Obj.get_set. case_decide; auto.
Qed.

Lemma good_add url cb w w' : add url cb w = Some w' → good w → good w'.
Proof.
  unfold add. set (w1 := if Obj.has url (states w) then _ else _). intros E Hw.
  assert (good w1) as H1.
  { subst w1. destruct (Obj.has url (states w)) eqn:Eh; [done|]. eapply good_same; [..|exact Hw]; [done..|].
    intros u Hu. cbn. left. rewrite Obj.get_set. case_decide as Hd; [|done]. subst u. exfalso.
    unfold Obj.has in Eh. by destruct (good_states w Hw url Hu) as [E'|E']; rewrite E' in Eh. }
  destruct cb as [cb|]; [|naive_solver].
  destruct (Obj.get url (scriptLoadedCallbacks w1)); [simplify_eq; same_world|].
  destruct (Obj.is_proto url); [done|]. simplify_eq. same_world.
Qed.

Lemma good_start url arr w : Obj.get url (states w) ≠ Some LOADED → Obj.get url (states w) ≠ Some LOADING →
  good w → good (start_script url arr w).
Proof.
  intros Hd Hl Hw. destruct Hw as [H1 H2 H3 H4 H5].
  assert (url ∉ started w) as Hn by (intros Hin; destruct (H5 url Hin); congruence).
  constructor; cbn.
  - rewrite length_app. cbn. lia.
  - rewrite fmap_app. apply NoDup_app. split_and!; [done| |apply NoDup_singleton].
    intros u Hu Hu'. cbn in Hu'. apply list_elem_of_singleton in Hu'. subst. auto.
  - intros u. rewrite fmap_app. cbn. set_solver.
  - apply NoDup_app. split_and!; [done| |apply NoDup_singleton].
    intros u Hu Hu'%list_elem_of_singleton. by subst.
  - intros u Hu. rewrite Obj.get_set. case_decide; [by left|]. apply H5. set_solver.
Qed.

Lemma good_exec t w ts' w' : exec t w = Some (ts', w') → good w → good w'.
Proof.
  intros E Hw. destruct t as [c|[[id|n u cb]|]|url [|cb cbs]|url|arr|[|url us] arr| |n l| |u [|dep deps]];
    cbn in E; simplify_eq/=; try done; try same_world.
  - destruct c as [url cb|cb|arr cb|url|id deps|n u cb]; cbn in E; simplify_eq; try done; try same_world.
    + destruct (add url cb w) eqn:Ea; simplify_eq/=. by eapply good_add.
    + by apply good_markDone.
    + unfold plugin_load in E. destruct (match Obj.get n (urls w) with Some _ => _ | None => _ end); [naive_solver|].
      destruct (Obj.has n _); simplify_eq; same_world.
  - unfold isDone in E. case_bool_decide as Hd; [naive_solver|].
    case_bool_decide as Hl; [naive_solver|]. simplify_eq. by apply good_start.
  - by destruct (loading w =? 0); simplify_eq.
  - by repeat case_match; simplify_eq.
Qed.

Lemma good_loaded k w ts' w' : loaded k w = Some (ts', w') → good w → good w'.
Proof.
  unfold loaded. destruct (pending w !! k) as [[url arr]|] eqn:Ek; [|done]. intros E [H1 H2 H3 H4 H5].
  simplify_eq/=. pose proof (lookup_lt_Some _ _ _ Ek) as Hlt.
  assert ((delete k (pending w)).*1 `sublist_of` (pending w).*1) as Hsub
    by (apply (_ : Proper (sublist ==> sublist) (fmap fst)), sublist_delete).
  constructor; cbn.
  - rewrite length_delete by (by eexists). lia.
  - exact (sublist_NoDup _ _ H2 Hsub).
  - intros u Hu. exact (H3 u (elem_of_sublist _ _ u Hu Hsub)).
  - done.
  - intros u Hu. rewrite Obj.get_set. case_decide; auto.
Qed.

(** C31: In every run, whatever the callbacks call and whatever they throw: no script is loaded
    twice, the counter is the number of scripts being loaded, and a script that
    was started is marked as loading or loaded. *)
Theorem reachable_good c : reachable c → good c.2.
Proof.
  intros [arrs Hr]. remember ([], init arrs) as c0 eqn:E0.
  assert (good c0.2) as H0 by (subst; constructor; cbn; try set_solver; constructor). clear E0.
  induction Hr as [c|c1 c2 c3 Hst _ IH]; [done|]. apply IH.
  destruct Hst as [t ts w ts' w' E|t ts w E|c w|a w|k w ts' w' E]; cbn in *; try done.
  - by eapply good_exec.
  - same_world.
  - by eapply good_loaded.
Qed.
End Machine.

(** ** Runs on concrete pages *)
Definition quiet_page (_ : nat) : list cmd := [].

(** A plugin with a dependency: both scripts load, the callback runs once. *)
Definition plugin_obj (n : string) : url_arg := UObj (UrlObj (Some (js "plugins/")) (js n) (Some (js ".js"))).

Example plugin_run :
  let c := drive (js "/base") quiet_page 200
    [EvPage (CPluginAdd (js "a") [UStr (js "b")]);
     EvPage (CPluginLoad (js "a") (plugin_obj "a") (Some 7%nat));
     EvPage (CLoadQueue (Some (CbUser 9))); EvLoaded 0] ([], init []) in
  c.1 = [] ∧ started c.2 = [js "/base/plugins/b.js"] ∧ calls c.2 = [7; 9]%nat.
Proof. vm_compute. repeat split. Qed.

(** A page adds a script and loads the queue; the element is created. *)
Definition one_script : config := ([TLoadEach [] 0; TQueue], start_script (js "a.js") 0
  (set_arrays [[]] (set_queueCbs [None] (set_states [(js "a.js", QUEUED)] (init []))))).

Lemma reachable_good_witness : good one_script.2.
Proof.
  apply (reachable_good (js "/base") quiet_page). exists [].
  eapply rtc_l; [exact (step_page _ _ (CAdd (js "a.js") None) _)|].
  eapply rtc_l; [by eapply step_task|].
  eapply rtc_l; [exact (step_page _ _ (CLoadQueue None) _)|].
  do 4 (eapply rtc_l; [by eapply step_task|]). apply rtc_refl.
Defined.

(** The page callback 1 adds a second script and loads the queue again with
    the callback 2. *)
Definition nested_page (id : nat) : list cmd :=
  match id with
  | 1%nat => [CAdd (js "b.js") None; CLoadQueue (Some (CbUser 2))]
  | _ => []
  end.

(** A queue callback registered from within a queue callback is dropped when the
    outer loop empties the array: both scripts load, nothing is left to do, and the second callback has not
    run. *)
Theorem nested_queue_callback_lost :
  let c := drive (js "/base") nested_page 200
    [EvPage (CAdd (js "a.js") None); EvPage (CLoadQueue (Some (CbUser 1))); EvLoaded 0; EvLoaded 0]
    ([], init []) in
  c.1 = [] ∧ pending c.2 = [] ∧ started c.2 = [js "a.js"; js "b.js"]
  ∧ queueLoadedCallbacks c.2 = [] ∧ calls c.2 = [1%nat].
Proof. vm_compute. repeat split. Qed.
