(* ===== verification/Schema.v ===== *)
(** * classes/html/Schema.js

    The table of elements, their attributes and their children, and the rule
    language that changes it.  Objects that several tables share (the children of an
    element, the lookup tables) live in a store and are named by a reference, because
    the constructor hands the cached ones out and then writes to them.  [None] is an exception. *)

From S2P Require Import Prelude Regexp Tools.

(** ** Data *)
(** An object whose values are all [{}], used as a set of names. *)
Abbreviation nameset := (Obj.t unit).
Abbreviation ref := nat.

Record attr_rule := AttrRule {
  required : bool;
  defaultValue : option jstr;
  forcedValue : option jstr;
  validValues : option nameset;
  apattern : option re
}.
Definition plain_attr : attr_rule := AttrRule false None None None None.

(** An entry of the compiled schema. *)
Record item := Item {
  i_attributes : Obj.t attr_rule;
  i_attributesOrder : list jstr;
  i_children : ref
}.

(** An element rule; the attributes are undefined in a rule copied from a
    missing one and in a function found under an inherited name. *)
Record rule := Rule {
  attributes : option (Obj.t attr_rule);
  attributesOrder : option (list jstr);
  attributePatterns : option (list attr_rule);
  attributesRequired : option (list jstr);
  attributesDefault : option (list (jstr * jstr));
  attributesForced : option (list (jstr * jstr));
  removeEmptyAttrs : bool;
  removeEmpty : bool;
  paddEmpty : bool;
  outputName : option jstr;
  pattern : option re
}.
Definition empty_rule : rule := Rule None None None None None None false false false None None.
Definition new_rule (a : Obj.t attr_rule) (o : list jstr) : rule :=
  Rule (Some a) (Some o) None None None None false false false None None.

(** What all schemas share: the objects, and [mapCache] (compiled schemas by
    type, lookup tables by option). *)
Record shared := Shared {
  store : list nameset;
  compiled : Obj.t (Obj.t item);
  tables : Obj.t ref
}.

Definition alloc (m : nameset) (sh : shared) : ref * shared :=
  (length (store sh), Shared (store sh ++ [m]) (compiled sh) (tables sh)).
Definition deref (sh : shared) (r : ref) : nameset := default [] (store sh !! r).
Definition write (r : ref) (m : nameset) (sh : shared) : shared :=
  Shared (<[r := m]> (store sh)) (compiled sh) (tables sh).
Definition cache_schema (k : jstr) (s : Obj.t item) (sh : shared) : shared :=
  Shared (store sh) (Obj.set k s (compiled sh)) (tables sh).
Definition cache_table (k : jstr) (r : ref) (sh : shared) : shared :=
  Shared (store sh) (compiled sh) (Obj.set k r (tables sh)).

(** [split(items, delim)] *)
Definition split (items : jstr) (delim : Z) : list jstr :=
  if truthy items then split_unit delim items else [].
Definition words (s : string) : list jstr := split (js s) 32.

(** ** compileSchema *)
(** The children an element is declared with: none, a list of names, or one
    of the two shared arrays. *)
Inductive kids := KNone | KNames (s : string) | KFlow | KPhrasing.
Inductive decl :=
  | Add (name attributes : string) (children : kids) (more : string)
  | AddAttrs (name attributes : string).

Record cstate := CState {
  c_items : Obj.t item;
  flowContent : list jstr;
  phrasingContent : list jstr;
  c_shared : shared
}.

Definition arrayToMap {V} (v : V) (array : list jstr) : Obj.t V :=
  fold_left (λ m k, Obj.set k v m) array [].

(** The array the children are pushed onto: a further argument ends in the shared array itself. *)
Definition children_of (c : cstate) (k : kids) (more : string) : list jstr * cstate :=
  match k with
  | KNone => (words more, c)
  | KNames s => (words s ++ words more, c)
  | KFlow => let a := flowContent c ++ words more in
             (a, CState (c_items c) a (phrasingContent c) (c_shared c))
  | KPhrasing => let a := phrasingContent c ++ words more in
             (a, CState (c_items c) (flowContent c) a (c_shared c))
  end.

Definition add_item (attributesOrder children : list jstr) (c : cstate) (name : jstr) : cstate :=
  let '(r, sh) := alloc (arrayToMap tt children) (c_shared c) in
  CState (Obj.set name (Item (arrayToMap plain_attr attributesOrder) attributesOrder r) (c_items c))
    (flowContent c) (phrasingContent c) sh.

Definition add (globalAttributes : list jstr) (name attributes : string) (k : kids) (more : string)
    (c : cstate) : cstate :=
  let '(children, c) := children_of c k more in
  fold_left (add_item (globalAttributes ++ words attributes) children) (reverse (words name)) c.

Definition add_attr (it : item) (a : jstr) : item :=
  Item (Obj.set a plain_attr (i_attributes it)) (i_attributesOrder it ++ [a]) (i_children it).

Definition addAttrs1 (attributes : list jstr) (c : option cstate) (name : jstr) : option cstate :=
  c ← c;
  it ← Obj.get name (c_items c);
  Some (CState (Obj.set name (fold_left add_attr attributes it) (c_items c))
         (flowContent c) (phrasingContent c) (c_shared c)).

Definition addAttrs (name attributes : string) (c : cstate) : option cstate :=
  fold_left (addAttrs1 (words attributes)) (reverse (words name)) (Some c).

Definition declare (globalAttributes : list jstr) (c : option cstate) (d : decl) : option cstate :=
  c ← c;
  match d with
  | Add n a k more => Some (add globalAttributes n a k more c)
  | AddAttrs n a => addAttrs n a c
  end.

Definition base_elements (html4 : bool) : list decl :=
  [Add "html" "manifest" (KNames "head body") "";
   Add "head" "" (KNames "base command link meta noscript script style title") "";
   Add "title hr noscript br" "" KNone "";
   Add "base" "href target" KNone "";
   Add "link" "href rel media hreflang type sizes hreflang" KNone "";
   Add "meta" "name http-equiv content charset" KNone "";
   Add "style" "media type scoped" KNone "";
   Add "script" "src async defer type charset" KNone "";
   Add "body" "onafterprint onbeforeprint onbeforeunload onblur onerror onfocus onhashchange onload onmessage onoffline ononline onpagehide onpageshow onpopstate onresize onscroll onstorage onunload" KFlow "";
   Add "address dt dd div caption" "" KFlow "";
   Add "h1 h2 h3 h4 h5 h6 pre p abbr code var samp kbd sub sup i b u bdo span legend em strong small s cite dfn" "" KPhrasing "";
   Add "blockquote" "cite" KFlow "";
   Add "ol" "reversed start type" (KNames "li") "";
   Add "ul" "" (KNames "li") "";
   Add "li" "value" KFlow "";
   Add "dl" "" (KNames "dt dd") "";
   Add "a" "href target rel media hreflang type" KPhrasing "";
   Add "q" "cite" KPhrasing "";
   Add "ins del" "cite datetime" KFlow "";
   Add "img" "src alt usemap ismap width height" KNone "";
   Add "iframe" "src name width height" KFlow "";
   Add "embed" "src type width height" KNone "";
   Add "object" "data type typemustmatch name usemap form width height" KFlow "param";
   Add "param" "name value" KNone "";
   Add "map" "name" KFlow "area";
   Add "area" "alt coords shape href target rel media hreflang type" KNone "";
   Add "table" "border" (if html4 then KNames "caption colgroup thead tfoot tbody tr col"
      else KNames "caption colgroup thead tfoot tbody tr") "";
   Add "colgroup" "span" (KNames "col") "";
   Add "col" "span" KNone "";
   Add "tbody thead tfoot" "" (KNames "tr") "";
   Add "tr" "" (KNames "td th") "";
   Add "td" "colspan rowspan headers" KFlow "";
   Add "th" "colspan rowspan headers scope abbr" KFlow "";
   Add "form" "accept-charset action autocomplete enctype method name novalidate target" KFlow "";
   Add "fieldset" "disabled form name" KFlow "legend";
   Add "label" "form for" KPhrasing "";
   Add "input" "accept alt autocomplete checked dirname disabled form formaction formenctype formmethod formnovalidate formtarget height list max maxlength min multiple name pattern readonly required size src step type value width" KNone "";
   Add "button" "disabled form formaction formenctype formmethod formnovalidate formtarget name type value" (if html4 then KFlow else KPhrasing) "";
   Add "select" "disabled form multiple name required size" (KNames "option optgroup") "";
   Add "optgroup" "disabled label" (KNames "option") "";
   Add "option" "disabled label selected value" KNone "";
   Add "textarea" "cols dirname disabled form maxlength name readonly required rows wrap" KNone "";
   Add "menu" "type label" KFlow "li";
   Add "noscript" "" KFlow ""].

Definition html5_elements : list decl :=
  [Add "wbr" "" KNone "";
   Add "ruby" "" KPhrasing "rt rp";
   Add "figcaption" "" KFlow "";
   Add "mark rt rp summary bdi" "" KPhrasing "";
   Add "canvas" "width height" KFlow "";
   Add "video" "src crossorigin poster preload autoplay mediagroup loop muted controls width height" KFlow "track source";
   Add "audio" "src crossorigin preload autoplay mediagroup loop muted controls" KFlow "track source";
   Add "source" "src type media" KNone "";
   Add "track" "kind src srclang label default" KNone "";
   Add "datalist" "" KPhrasing "option";
   Add "article section nav aside header footer" "" KFlow "";
   Add "hgroup" "" (KNames "h1 h2 h3 h4 h5 h6") "";
   Add "figure" "" KFlow "figcaption";
   Add "time" "datetime" KPhrasing "";
   Add "dialog" "open" KFlow "";
   Add "command" "type label icon disabled checked radiogroup command" KNone "";
   Add "output" "for form name" KPhrasing "";
   Add "progress" "value max" KPhrasing "";
   Add "meter" "value min max low high optimum" KPhrasing "";
   Add "details" "open" KFlow "summary";
   Add "keygen" "autofocus challenge disabled form keytype name" KNone ""].

Definition html4_attributes : list decl :=
  [AddAttrs "script" "language xml:space";
   AddAttrs "style" "xml:space";
   AddAttrs "object" "declare classid codebase codetype archive standby align border hspace vspace";
   AddAttrs "param" "valuetype type";
   AddAttrs "a" "charset name rev shape coords";
   AddAttrs "br" "clear";
   AddAttrs "applet" "codebase archive code object alt name width height align hspace vspace";
   AddAttrs "img" "name longdesc align border hspace vspace";
   AddAttrs "iframe" "longdesc frameborder marginwidth marginheight scrolling align";
   AddAttrs "font basefont" "size color face";
   AddAttrs "input" "usemap align";
   AddAttrs "select" "onchange";
   AddAttrs "textarea" "";
   AddAttrs "h1 h2 h3 h4 h5 h6 div p legend caption" "align";
   AddAttrs "ul" "type compact";
   AddAttrs "li" "type";
   AddAttrs "ol dl menu dir" "compact";
   AddAttrs "pre" "width xml:space";
   AddAttrs "hr" "align noshade size width";
   AddAttrs "isindex" "prompt";
   AddAttrs "table" "summary width frame rules cellspacing cellpadding align bgcolor";
   AddAttrs "col" "width align char charoff valign";
   AddAttrs "colgroup" "width align char charoff valign";
   AddAttrs "thead" "align char charoff valign";
   AddAttrs "tr" "align char charoff valign bgcolor";
   AddAttrs "th" "axis align char charoff valign nowrap bgcolor width height";
   AddAttrs "form" "accept";
   AddAttrs "td" "abbr axis scope align char charoff valign nowrap bgcolor width height";
   AddAttrs "tfoot" "align char charoff valign";
   AddAttrs "tbody" "align char charoff valign";
   AddAttrs "area" "nohref";
   AddAttrs "body" "background bgcolor text link vlink alink"].

Definition html5_attributes : list decl :=
  [AddAttrs "input button select textarea" "autofocus";
   AddAttrs "input textarea" "placeholder";
   AddAttrs "a" "download";
   AddAttrs "link script img" "crossorigin";
   AddAttrs "iframe" "srcdoc sandbox seamless allowfullscreen"].

(** The compiled schema of a type ([None]: no type given), from [mapCache] if it is there. *)
Definition globalAttributes (html4 strict : bool) : list jstr :=
  words "id accesskey class dir lang style tabindex title"
  ++ (if html4 then [] else words "contenteditable contextmenu draggable dropzone hidden spellcheck translate")
  ++ (if strict then [] else [js "xml:lang"]).

Definition blockContent (html4 : bool) : list jstr :=
  words "address blockquote div dl fieldset form h1 h2 h3 h4 h5 h6 hr menu ol p pre table ul"
  ++ (if html4 then [] else words "article aside details dialog figure header footer hgroup section nav").

Definition basePhrasingContent (html4 : bool) : list jstr :=
  words "a abbr b bdo br button cite code del dfn em embed i iframe img input ins kbd label map noscript object q s samp script select small span strong sub sup textarea u var #text #comment"
  ++ (if html4 then [] else words "audio canvas command datalist mark meter output progress time wbr video ruby bdi keygen").

Definition html4PhrasingContent : string := "acronym applet basefont big font strike tt".
Definition html4BlockContent : string := "center dir isindex noframes".

(** The HTML 4 elements, then the base ones. *)
Definition all_decls (html4 strict : bool) : list decl :=
  base_elements html4
  ++ (if html4 then [] else html5_elements)
  ++ (if strict then [] else html4_attributes)
  ++ (if html4 then [] else html5_attributes).

Definition add_html4 (globals : list jstr) (html4 : bool) (c : cstate) : cstate :=
  let phrasing := phrasingContent c ++ words html4PhrasingContent in
  let c := CState (c_items c) (flowContent c) phrasing (c_shared c) in
  let c := fold_left (λ c name, add_item globals phrasing c name) (words html4PhrasingContent) c in
  let flow := blockContent html4 ++ words html4BlockContent ++ phrasing in
  fold_left (λ c name, add_item globals flow c name) (words html4BlockContent)
    (CState (c_items c) flow phrasing (c_shared c)).

(** [delete schema[name].children[child]] *)
Definition delete_child (child : jstr) (c : cstate) (name : jstr) : cstate :=
  match Obj.get name (c_items c) with
  | Some it =>
      let r := i_children it in
      CState (c_items c) (flowContent c) (phrasingContent c)
        (write r (Obj.delete child (deref (c_shared c) r)) (c_shared c))
  | None => c
  end.

Definition compile (html4 strict : bool) (sh : shared) : option cstate :=
  let globals := globalAttributes html4 strict in
  let phrasing := basePhrasingContent html4 in
  let c := if strict then CState [] (blockContent html4 ++ phrasing) phrasing sh
           else add_html4 globals html4 (CState [] [] phrasing sh) in
  c ← fold_left (declare globals) (all_decls html4 strict) (Some c);
  let c := fold_left (λ c name, delete_child name c name) (words "a form meter progress dfn") c in
  it ← Obj.get (js "caption") (c_items c);
  Some (delete_child (js "table") c (js "caption")).

Definition type_name (type : option jstr) : jstr := default (js "undefined") type.

Definition compileSchema (type : option jstr) (sh : shared) : option (Obj.t item * shared) :=
  match Obj.get (type_name type) (compiled sh) with
  | Some s => Some (s, sh)
  | None =>
      c ← compile (bool_decide (type = Some (js "html4"))) (bool_decide (type = Some (js "html5-strict"))) sh;
      Some (c_items c, cache_schema (type_name type) (c_items c) (c_shared c))
  end.

(** ** The rule language *)
(** [/^([#+\-])?([^\[!\/]+)(?:\/([^\[!]+))?(?:(!?)\[([^\]]+)\])?$/] *)
Definition elementRuleRegExp : re :=
  RSeq RBol (RSeq (ROpt (RGroup 1 (RSet (any_of "#+-"))))
    (RSeq (RGroup 2 (RPlus (RSet (none_of "[!/"))))
      (RSeq (ROpt (RSeq (RChar 47) (RGroup 3 (RPlus (RSet (none_of "[!"))))))
        (RSeq (ROpt (RSeq (RGroup 4 (ROpt (RChar 33)))
                 (RSeq (RChar 91) (RSeq (RGroup 5 (RPlus (RSet (none_of "]")))) (RChar 93)))))
           REol)))).
(** An optional mark (exclamation or minus), an optional name that is a pair of words around two colons or a run
    without the signs [=:<], and an optional sign with the rest of the line. *)
Definition attrRuleRegExp : re :=
  RSeq RBol (RSeq (ROpt (RGroup 1 (RSet (any_of "!-"))))
    (RSeq (ROpt (RGroup 2 (RAlt
         (RSeq (RPlus (RSet is_word)) (RSeq (RStr (js "::")) (RPlus (RSet is_word))))
         (RPlus (RSet (none_of "=:<"))))))
      (RSeq (ROpt (RSeq (RGroup 3 (RSet (any_of "=:<"))) (RGroup 4 (RStar true (RSet dot)))))
         REol))).
(** [/[*?+]/] *)
Definition hasPatternsRegExp : re := RSet (any_of "*?+").

(** [patternToRegExp(str)]: a wildcard is put behind a dot; the other characters with a meaning in
    a regular expression, apart from the dot, are outside the model. *)
Fixpoint pattern_body (str : jstr) : option re :=
  match str with
  | [] => Some REol
  | c :: str =>
      r ← pattern_body str;
      if c =? 42 then Some (RSeq (RStar true (RSet dot)) r)
      else if c =? 43 then Some (RSeq (RPlus (RSet dot)) r)
      else if c =? 63 then Some (RSeq (ROpt (RSet dot)) r)
      else if c =? 46 then Some (RSeq (RSet dot) r)
      else if any_of "\^$()[]{}|/" c then None
      else Some (RSeq (RChar c) r)
  end.
Definition patternToRegExp (str : jstr) : option re := r ← pattern_body str; Some (RSeq RBol r).

(** [attrName.replace(/::/g, ':')] *)
Fixpoint one_colon (s : jstr) : jstr :=
  match s with
  | 58 :: 58 :: s' => 58 :: one_colon s'
  | c :: s' => c :: one_colon s'
  | [] => []
  end.

(** [l.splice(i, 1)]: a negative index counts from the end. *)
Definition splice1 {A} (i : Z) (l : list A) : list A :=
  let n := Z.of_nat (length l) in
  let i := Z.to_nat (if i <? 0 then Z.max 0 (n + i) else Z.min i n) in
  take i l ++ drop (S i) l.

Definition push {A} (o : option (list A)) (x : A) : option (list A) := Some (default [] o ++ [x]).

(** Writing the fields of a rule. *)
Definition set_attrs (a : Obj.t attr_rule) (o : list jstr) (r : rule) : rule :=
  Rule (Some a) (Some o) (attributePatterns r) (attributesRequired r) (attributesDefault r)
    (attributesForced r) (removeEmptyAttrs r) (removeEmpty r) (paddEmpty r) (outputName r) (pattern r).
Definition set_patterns (ps : option (list attr_rule)) (r : rule) : rule :=
  Rule (attributes r) (attributesOrder r) ps (attributesRequired r) (attributesDefault r)
    (attributesForced r) (removeEmptyAttrs r) (removeEmpty r) (paddEmpty r) (outputName r) (pattern r).
Definition set_required (q : option (list jstr)) (r : rule) : rule :=
  Rule (attributes r) (attributesOrder r) (attributePatterns r) q (attributesDefault r)
    (attributesForced r) (removeEmptyAttrs r) (removeEmpty r) (paddEmpty r) (outputName r) (pattern r).
Definition set_default (d : option (list (jstr * jstr))) (r : rule) : rule :=
  Rule (attributes r) (attributesOrder r) (attributePatterns r) (attributesRequired r) d
    (attributesForced r) (removeEmptyAttrs r) (removeEmpty r) (paddEmpty r) (outputName r) (pattern r).
Definition set_forced (f : option (list (jstr * jstr))) (r : rule) : rule :=
  Rule (attributes r) (attributesOrder r) (attributePatterns r) (attributesRequired r)
    (attributesDefault r) f (removeEmptyAttrs r) (removeEmpty r) (paddEmpty r) (outputName r) (pattern r).
Definition set_flags (ra re_ pe : bool) (r : rule) : rule :=
  Rule (attributes r) (attributesOrder r) (attributePatterns r) (attributesRequired r)
    (attributesDefault r) (attributesForced r) ra re_ pe (outputName r) (pattern r).
Definition set_outputName (o : option jstr) (r : rule) : rule :=
  Rule (attributes r) (attributesOrder r) (attributePatterns r) (attributesRequired r)
    (attributesDefault r) (attributesForced r) (removeEmptyAttrs r) (removeEmpty r) (paddEmpty r) o (pattern r).
Definition set_pattern (p : option re) (r : rule) : rule :=
  Rule (attributes r) (attributesOrder r) (attributePatterns r) (attributesRequired r)
    (attributesDefault r) (attributesForced r) (removeEmptyAttrs r) (removeEmpty r) (paddEmpty r)
    (outputName r) p.

Definition r_attrs (r : rule) : Obj.t attr_rule := default [] (attributes r).
Definition r_order (r : rule) : list jstr := default [] (attributesOrder r).

(** What the part behind the name of an attribute changes. *)
Definition attr_value (prefix : option jstr) (value attrName : jstr) (ar : attr_rule * rule) : attr_rule * rule :=
  let '(a, r) := ar in
  match prefix with
  | Some [61] => (AttrRule (required a) (Some value) (forcedValue a) (validValues a) (apattern a),
                  set_default (push (attributesDefault r) (attrName, value)) r)
  | Some [58] => (AttrRule (required a) (defaultValue a) (Some value) (validValues a) (apattern a),
                  set_forced (push (attributesForced r) (attrName, value)) r)
  | Some [60] => (AttrRule (required a) (defaultValue a) (forcedValue a)
                    (Some (makeMap value 63 [])) (apattern a), r)
  | _ => (a, r)
  end.

(** Where the attribute goes: a pattern into its list, a name into the map
    and, when it is new there, into the order. *)
Definition store_attr (attrName : jstr) (a : attr_rule) (r : rule) : option rule :=
  if test hasPatternsRegExp attrName then
    p ← patternToRegExp attrName;
    Some (set_patterns (push (attributePatterns r)
      (AttrRule (required a) (defaultValue a) (forcedValue a) (validValues a) (Some p))) r)
  else
    Some (set_attrs (Obj.set attrName a (r_attrs r))
      (if Obj.has attrName (r_attrs r) then r_order r else r_order r ++ [attrName]) r).

(** One attribute of a rule. *)
Definition attr_step (r : rule) (attrData : jstr) : option rule :=
  match exec attrRuleRegExp attrData with
  | None => Some r
  | Some m =>
      raw ← group 2 m;
      let attrName := one_colon raw in
      let attrType := group 1 m in
      let '(a, r) := if bool_decide (attrType = Some [33])
        then (AttrRule true None None None None, set_required (push (attributesRequired r) attrName) r)
        else (plain_attr, r) in
      if bool_decide (attrType = Some [45]) then
        Some (set_attrs (Obj.delete attrName (r_attrs r))
          (splice1 (inArray (r_order r) attrName) (r_order r)) r)
      else
        let '(a, r) := attr_value (group 3 m) (default [] (group 4 m)) attrName (a, r) in
        store_attr attrName a r
  end.

(** The rules of one schema object: [elements], [patternElements], and the
    attributes of the global rule while rules are added. *)
Record rules := Rules {
  elements : Obj.t rule;
  patternElements : list rule;
  globals : option (Obj.t attr_rule * list jstr)
}.

Definition element_start (g : option (Obj.t attr_rule * list jstr)) (m : mres) : rule :=
  let prefix := group 1 m in
  let r := match g with
           | Some (ga, go) => new_rule (fold_left (λ a p, Obj.set p.1 p.2 a) ga []) go
           | None => new_rule [] []
           end in
  set_flags (bool_decide (group 4 m = Some [33])) (bool_decide (prefix = Some [45]))
    (bool_decide (prefix = Some [35])) r.

Definition add_rule (rs : option rules) (text : jstr) : option rules :=
  rs ← rs;
  match exec elementRuleRegExp text with
  | None => Some rs
  | Some m =>
      let elementName := default [] (group 2 m) in
      let outputName := group 3 m in
      r ← fold_left (λ r a, r ← r; attr_step r a)
            (match group 5 m with Some d => split d 124 | None => [] end)
            (Some (element_start (globals rs) m));
      let g := match globals rs with
               | Some g => Some g
               | None => if str_eqb elementName (js "@") then Some (r_attrs r, r_order r) else None
               end in
      let r := match outputName with Some _ => set_outputName (Some elementName) r | None => r end in
      if test hasPatternsRegExp elementName then
        p ← patternToRegExp elementName;
        let r := set_pattern (Some p) r in
        Some (Rules (match outputName with Some o => Obj.set o r (elements rs) | None => elements rs end)
                (patternElements rs ++ [r]) g)
      else
        Some (Rules (Obj.set elementName r
                (match outputName with Some o => Obj.set o r (elements rs) | None => elements rs end))
                (patternElements rs) g)
  end.

Definition run_rules (texts : list jstr) (rs : rules) : option rules := fold_left add_rule texts (Some rs).

(** ** The schema object *)
Record settings := Settings {
  s_schema : option jstr;
  verify_html : bool;
  valid_elements : jstr;
  valid_styles : option (Obj.t jstr);
  lookup_tables : Obj.t jstr;
  special : jstr;
  custom_elements : jstr;
  valid_children : jstr;
  extended_valid_elements : jstr;
  invalid_elements : jstr
}.
Definition no_settings : settings := Settings None true [] None [] [] [] [] [] [].

Record schema := Schema {
  s_elements : Obj.t rule;
  s_patterns : list rule;
  children : Obj.t ref;
  validStyles : option (Obj.t (list jstr));
  whiteSpaceElementsMap : ref;
  selfClosingElementsMap : ref;
  shortEndedElementsMap : ref;
  boolAttrMap : ref;
  nonEmptyElementsMap : ref;
  textBlockElementsMap : ref;
  blockElementsMap : ref;
  customElementsMap : Obj.t jstr;
  specialElements : Obj.t re;
  schemaItems : Obj.t item
}.

Definition with_rules (rs : rules) (s : schema) : schema :=
  Schema (elements rs) (patternElements rs) (children s) (validStyles s) (whiteSpaceElementsMap s)
    (selfClosingElementsMap s) (shortEndedElementsMap s) (boolAttrMap s) (nonEmptyElementsMap s)
    (textBlockElementsMap s) (blockElementsMap s) (customElementsMap s) (specialElements s) (schemaItems s).
Definition with_elements (e : Obj.t rule) (s : schema) : schema :=
  with_rules (Rules e (s_patterns s) None) s.
Definition with_children (c : Obj.t ref) (s : schema) : schema :=
  Schema (s_elements s) (s_patterns s) c (validStyles s) (whiteSpaceElementsMap s)
    (selfClosingElementsMap s) (shortEndedElementsMap s) (boolAttrMap s) (nonEmptyElementsMap s)
    (textBlockElementsMap s) (blockElementsMap s) (customElementsMap s) (specialElements s) (schemaItems s).
Definition with_customs (c : Obj.t jstr) (s : schema) : schema :=
  Schema (s_elements s) (s_patterns s) (children s) (validStyles s) (whiteSpaceElementsMap s)
    (selfClosingElementsMap s) (shortEndedElementsMap s) (boolAttrMap s) (nonEmptyElementsMap s)
    (textBlockElementsMap s) (blockElementsMap s) c (specialElements s) (schemaItems s).

(** [createLookupTable(option, default_value, extendWith)] *)
Definition createLookupTable (st : settings) (option_ : string) (default_value : string)
    (extendWith : option ref) (sh : shared) : ref * shared :=
  match Obj.get (js option_) (lookup_tables st) with
  | Some (c :: v) =>
      let value := c :: v in
      alloc (makeMap value 44 (makeMap (to_upper value) 32 [])) sh
  | _ =>
      match Obj.get (js option_) (tables sh) with
      | Some r => (r, sh)
      | None =>
          let value := makeMap (js default_value) 32 (makeMap (to_upper (js default_value)) 32 []) in
          let value := match extendWith with Some r => extend value (deref sh r) | None => value end in
          let '(r, sh) := alloc value sh in
          (r, cache_table (js option_) r sh)
      end
  end.

(** The end tag of a special element, in any case; the name is taken literally. *)
Definition end_tag (name : jstr) : re :=
  RSeq (RStrI (js "</" ++ name)) (RSeq (RStar true (RSet (none_of ">"))) (RChar 62)).

(** [addValidElements(valid_elements)] *)
Definition addValidElements (text : jstr) (s : schema) : option schema :=
  match text with
  | [] => Some s
  | _ =>
      let g := match Obj.get (js "@") (s_elements s) with
               | Some r => Some (r_attrs r, r_order r)
               | None => None
               end in
      rs ← run_rules (split text 44) (Rules (s_elements s) (s_patterns s) g);
      Some (with_rules rs s)
  end.

Definition items_children (items : Obj.t item) (c : Obj.t ref) : Obj.t ref :=
  fold_left (λ c p, Obj.set p.1 (i_children p.2) c) items c.

(** [setValidElements(valid_elements)] *)
Definition setValidElements (text : jstr) (s : schema) : option schema :=
  s ← addValidElements text (with_rules (Rules [] [] None) s);
  Some (with_children (items_children (schemaItems s) (children s)) s).

(** An optional tilde and a name that is the rest of the line. *)
Definition customElementRegExp : re :=
  RSeq RBol (RSeq (ROpt (RGroup 1 (RChar 126))) (RSeq (RGroup 2 (RPlus (RSet dot))) REol)).

(** [addCustomElements(custom_elements)]: an inline element is a clone of
    span, another one of div; the children are the clone's own object. *)
Definition extend_children (cloneName name : jstr) (sh : shared) (p : jstr * ref) : shared :=
  let m := deref sh p.2 in
  if Obj.has cloneName m then write p.2 (Obj.set name tt m) sh else sh.

Definition add_custom (st : option (schema * shared)) (text : jstr) : option (schema * shared) :=
  '(s, sh) ← st;
  m ← exec customElementRegExp text;
  let inline := bool_decide (group 1 m = Some (js "~")) in
  let name := default [] (group 2 m) in
  let cloneName := js (if inline then "span" else "div") in
  r ← Obj.get cloneName (children s);
  let s := with_customs (Obj.set name cloneName (customElementsMap s))
             (with_children (Obj.set name r (children s)) s) in
  let sh := if inline then sh
            else write (blockElementsMap s)
              (Obj.set name tt (Obj.set (to_upper name) tt (deref sh (blockElementsMap s)))) sh in
  let s := if Obj.has name (s_elements s) then s
           else with_elements (Obj.set name
                  (let r := default empty_rule (Obj.get cloneName (s_elements s)) in
                   set_flags false false (paddEmpty r) r) (s_elements s)) s in
  Some (s, fold_left (extend_children cloneName name) (children s) sh).

Definition addCustomElements (text : jstr) (s : schema) (sh : shared) : option (schema * shared) :=
  fold_left add_custom (split text 44) (Some (s, sh)).

(** [/^([+\-]?)(\w+)\[([^\]]+)\]$/] *)
Definition childRuleRegExp : re :=
  RSeq RBol (RSeq (RGroup 1 (ROpt (RSet (any_of "+-"))))
    (RSeq (RGroup 2 (RPlus (RSet is_word)))
      (RSeq (RChar 91) (RSeq (RGroup 3 (RPlus (RSet (none_of "]")))) (RSeq (RChar 93) REol))))).

(** One child rule: the parent's object is changed in place, or replaced by
    a fresh one when the rule has no sign. *)
Definition change_child (minus : bool) (m : nameset) (child : jstr) : nameset :=
  if minus then Obj.delete child m else Obj.set child tt m.

Definition add_child_rule (st : option (schema * shared)) (text : jstr) : option (schema * shared) :=
  '(s, sh) ← st;
  match exec childRuleRegExp text with
  | None => Some (s, sh)
  | Some m =>
      let prefix := default [] (group 1 m) in
      let name := default [] (group 2 m) in
      let '(s, sh) := if truthy prefix then (s, sh)
        else let '(r, sh) := alloc [(js "#comment", tt)] sh in
             (with_children (Obj.set name r (children s)) s, sh) in
      r ← Obj.get name (children s);
      Some (s, write r (fold_left (change_child (str_eqb prefix (js "-")))
                         (split (default [] (group 3 m)) 124) (deref sh r)) sh)
  end.

Definition addValidChildren (text : jstr) (s : schema) (sh : shared) : option (schema * shared) :=
  fold_left add_child_rule (split text 44) (Some (s, sh)).

(** [getElementRule(name)]: the exact rule, else the last pattern that
    matches; an inherited name finds a function, which has no attributes. *)
Fixpoint last_match (ps : list rule) (name : jstr) : option rule :=
  match ps with
  | [] => None
  | p :: ps => match last_match ps name with
               | Some r => Some r
               | None => match pattern p with
                         | Some re => if test re name then Some p else None
                         | None => None
                         end
               end
  end.

Definition getElementRule (s : schema) (name : jstr) : option rule :=
  match Obj.get name (s_elements s) with
  | Some r => Some r
  | None => if Obj.is_proto name then Some empty_rule else last_match (s_patterns s) name
  end.

(** The rules a schema has when no valid elements are given. *)
Definition default_elements (items : Obj.t item) : Obj.t rule :=
  fold_left (λ e p, Obj.set p.1 (new_rule (i_attributes p.2) (i_attributesOrder p.2)) e) items [].

(** [elements[name]] changed in place; a missing one is an exception. *)
Definition update_rule (f : rule -> rule) (e : option (Obj.t rule)) (name : jstr) : option (Obj.t rule) :=
  e ← e; r ← Obj.get name e; Some (Obj.set name (f r) e).
Definition update_if (f : rule -> rule) (e : option (Obj.t rule)) (name : jstr) : option (Obj.t rule) :=
  e ← e; match Obj.get name e with Some r => Some (Obj.set name (f r) e) | None => Some e end.

Definition default_rules (type : option jstr) (items : Obj.t item) : option (Obj.t rule) :=
  let e := Some (default_elements items) in
  let e := if bool_decide (type = Some (js "html5")) then e
           else update_rule (set_outputName (Some (js "em")))
                  (update_rule (set_outputName (Some (js "strong"))) e (js "b")) (js "i") in
  let e := update_rule (set_default (Some [(js "alt", [])])) e (js "img") in
  let e := fold_left (update_if (λ r, set_flags (removeEmptyAttrs r) true (paddEmpty r) r))
             (words "ol ul sub sup blockquote span font a table tbody tr strong em b i") e in
  let e := fold_left (update_rule (λ r, set_flags (removeEmptyAttrs r) (removeEmpty r) true r))
             (words "p h1 h2 h3 h4 h5 h6 th td pre div address caption") e in
  fold_left (update_rule (λ r, set_flags true (removeEmpty r) (paddEmpty r) r)) (words "span") e.

(** The lookup tables, in the order they are made. *)
Definition make_tables (st : settings) (items : Obj.t item) (sh : shared) : schema * shared :=
  let '(ws, sh) := createLookupTable st "whitespace_elements"
    "pre script noscript style textarea video audio iframe object" None sh in
  let '(sc, sh) := createLookupTable st "self_closing_elements"
    "colgroup dd dt li option p td tfoot th thead tr" None sh in
  let '(se, sh) := createLookupTable st "short_ended_elements"
    "area base basefont br col frame hr img input isindex link meta param embed source wbr track" None sh in
  let '(ba, sh) := createLookupTable st "boolean_attributes"
    "checked compact declare defer disabled ismap multiple nohref noresize noshade nowrap readonly selected autoplay loop controls" None sh in
  let '(ne, sh) := createLookupTable st "non_empty_elements"
    "td th iframe video audio object script" (Some se) sh in
  let '(tb, sh) := createLookupTable st "text_block_elements"
    "h1 h2 h3 h4 h5 h6 p div address pre form blockquote center dir fieldset header footer article section hgroup aside nav figure" None sh in
  let '(be, sh) := createLookupTable st "block_elements"
    "hr table tbody thead tfoot th tr td li ol ul caption dl dt dd noscript menu isindex samp option datalist select optgroup" (Some tb) sh in
  let specials := fold_left (λ m name, Obj.set name (end_tag name) m)
    (split_unit 32 (match special st with [] => js "script noscript style textarea" | s => s end)) [] in
  let styles := (λ vs : Obj.t jstr, List.map (λ p, (p.1, explode p.2 44)) vs) <$> valid_styles st in
  (Schema [] [] [] styles ws sc se ba ne tb be [] specials items, sh).

(** The constructor. *)
Definition new_Schema (st : settings) (sh : shared) : option (schema * shared) :=
  '(items, sh) ← compileSchema (s_schema st) sh;
  let valid := if verify_html st then valid_elements st else js "*[*]" in
  let '(s, sh) := make_tables st items sh in
  s ← match valid with
      | [] => e ← default_rules (s_schema st) items;
              Some (with_children (items_children items []) (with_elements e s))
      | _ => setValidElements valid s
      end;
  '(s, sh) ← addCustomElements (custom_elements st) s sh;
  '(s, sh) ← addValidChildren (valid_children st) s sh;
  s ← addValidElements (extended_valid_elements st) s;
  '(s, sh) ← addValidChildren (js "+ol[ul|ol],+ul[ul|ol]") s sh;
  let s := with_elements (fold_left (λ e item, Obj.delete item e)
             (explode (invalid_elements st) 44) (s_elements s)) s in
  s ← match getElementRule s (js "span") with
      | Some _ => Some s
      | None => addValidElements (js "span[!data-mce-type|*]") s
      end;
  Some (s, sh).

(** [isValidChild(name, child)] *)
Definition isValidChild (s : schema) (sh : shared) (name child : jstr) : bool :=
  match Obj.get name (children s) with
  | Some r => Obj.has child (deref sh r)
  | None => Obj.is_proto name && Obj.is_proto child
  end.

(** [isValid(name, attr)]; the patterns are tried on the element's name. *)
Definition isValid (s : schema) (name : jstr) (attr : option jstr) : option bool :=
  match getElementRule s name with
  | None => Some false
  | Some r =>
      match attr with
      | Some (c :: a) =>
          at_ ← attributes r;
          Some (Obj.has (c :: a) at_
            || existsb (λ p, match apattern p with Some re => test re name | None => false end)
                 (default [] (attributePatterns r)))
      | _ => Some true
      end
  end.

Definition no_cache : shared := Shared [] [] [].

(** ** The rule language, printed

    A rule as it is meant, its text, and what it means without any regular expression. *)
Record attr_src := AttrSrc {
  a_mark : option bool;
  a_name : jstr;
  a_value : option (Z * jstr)
}.
Record rule_src := RuleSrc {
  r_mark : option Z;
  r_name : jstr;
  r_output : option jstr;
  r_bang : bool;
  r_list : list attr_src
}.

Definition show_attr (a : attr_src) : jstr :=
  match a_mark a with Some true => js "!" | Some false => js "-" | None => [] end
  ++ a_name a ++ match a_value a with Some (sign, v) => sign :: v | None => [] end.

Definition show_rule (r : rule_src) : jstr :=
  match r_mark r with Some m => [m] | None => [] end ++ r_name r
  ++ match r_output r with Some o => 47 :: o | None => [] end
  ++ match r_list r with
     | [] => []
     | l => (if r_bang r then js "!" else []) ++ 91 :: join [124] (show_attr <$> l) ++ [93]
     end.

(** Texts the two expressions take apart again. *)
Definition attr_ok (a : attr_src) : Prop :=
  a_name a ≠ [] ∧ forallb (none_of "=:<|]") (a_name a) = true ∧ stops (any_of "!-") (a_name a) = true
  ∧ match a_value a with
    | Some (sign, v) => (sign = 61 ∨ sign = 58 ∨ sign = 60) ∧ forallb dot v = true
        ∧ forallb (none_of "|]") v = true ∧ stops (Z.eqb 58) v = true
    | None => True
    end.
Definition rule_ok (r : rule_src) : Prop :=
  match r_mark r with Some m => any_of "#+-" m = true | None => True end
  ∧ r_name r ≠ [] ∧ forallb (none_of "[!/") (r_name r) = true ∧ stops (any_of "#+-") (r_name r) = true
  ∧ match r_output r with Some o => o ≠ [] ∧ forallb (none_of "[!") o = true | None => True end
  ∧ (r_list r = [] → r_bang r = false) ∧ Forall attr_ok (r_list r).

Definition deny (name : jstr) (r : rule) : rule :=
  set_attrs (Obj.delete name (r_attrs r)) (splice1 (inArray (r_order r) name) (r_order r)) r.

Definition attr_meaning (r : rule) (a : attr_src) : option rule :=
  match a_mark a with
  | Some false => Some (deny (a_name a) r)
  | m =>
      let '(x, r) := match m with
                     | Some true => (AttrRule true None None None None,
                                     set_required (push (attributesRequired r) (a_name a)) r)
                     | _ => (plain_attr, r)
                     end in
      let '(x, r) := match a_value a with
                     | Some (sign, v) => attr_value (Some [sign]) v (a_name a) (x, r)
                     | None => (x, r)
                     end in
      store_attr (a_name a) x r
  end.

Lemma one_colon_id s : forallb (none_of "=:<|]") s = true → one_colon s = s.
Proof.
  induction s as [|c s IH]; [done|]. intros [Hc Hs]%andb_true_iff. cbn [one_colon].
  assert (c ≠ 58) by (intros ->; done). rewrite (IH Hs).
  destruct c as [|p|]; try done. repeat (destruct p as [p|p|]; try done).
Qed.

(** A name without a colon is not read as a pair of words. *)
Lemma refuses_pair name t :
  forallb (none_of "=:<|]") name = true → stops is_word t = true →
  match t with 58 :: t' => stops (Z.eqb 58) t' = true | _ => True end →
  refuses (RSeq (RPlus (RSet is_word)) (RSeq (RStr (js "::")) (RPlus (RSet is_word)))) (name ++ t).
Proof.
  intros Hn Hw Ht. apply refuses_plus. intros u v E Hu. change (RStr (js "::")) with (RSeq (RChar 58) (RChar 58)).
  assert (stops (Z.eqb 58) v = true ∨ ∃ t', v = 58 :: t' ∧ stops (Z.eqb 58) t' = true) as Hv.
  { revert name E Hn. induction u as [|a u IH]; intros name E Hn.
    - cbn [app] in E. subst v. destruct name as [|b name]; cbn [app stops].
      + destruct t as [|d t]; [by left|]. destruct (decide (58 = d)) as [<-|]; [right; eauto|].
        left. unfold stops. by rewrite (proj2 (Z.eqb_neq 58 d)).
      + left. apply andb_true_iff in Hn as [Hb _]. destruct (decide (58 = b)) as [<-|]; [done|].
        unfold stops. by rewrite (proj2 (Z.eqb_neq 58 b)).
    - apply andb_true_iff in Hu as [Ha Hu]. destruct name as [|b name].
      + cbn in E. subst t. cbn in Hw. by rewrite Ha in Hw.
      + injection E as <- E. apply andb_true_iff in Hn as [_ Hn]. by apply (IH Hu name). }
  destruct Hv as [Hv|(t' & -> & Hv)]; [by apply refuses_seq, refuses_seq, refuses_char|].
  intros p cs k. rewrite !mtch_seq. unfold RChar at 1. rewrite mtch_set_cons. cbn [Z.eqb Pos.eqb].
  destruct t' as [|d t']; [done|]. unfold RChar. rewrite mtch_set_cons. unfold stops in Hv. apply negb_true_iff in Hv. by rewrite Hv.
Qed.

Definition mark_text (m : option bool) : jstr :=
  match m with Some true => js "!" | Some false => js "-" | None => [] end.

(** The captures of a printed attribute. *)
Definition attr_caps (a : attr_src) : list (nat * jstr) :=
  let cs := match a_mark a with Some _ => capture 1 (mark_text (a_mark a)) [] | None => [] end in
  let cs := capture 2 (a_name a) cs in
  match a_value a with Some (sign, v) => capture 4 v (capture 3 [sign] cs) | None => cs end.

Lemma stops_app f u t : u ≠ [] → stops f (u ++ t) = stops f u.
Proof. by destruct u. Qed.

Lemma exec_attr a : attr_ok a → exec attrRuleRegExp (show_attr a) = Some (MR 0 (show_attr a) [] (attr_caps a)).
Proof.
  intros (Hne & Hn & Hs & Hv). unfold attrRuleRegExp. rewrite <- (app_nil_r (show_attr a)) at 1.
  apply exec_reads. unfold show_attr. fold (mark_text (a_mark a)).
  set (tail := match a_value a with Some _ => _ | None => _ end).
  assert (stops (none_of "=:<") tail = true ∧ stops is_word tail = true
    ∧ match tail with 58 :: t' => stops (Z.eqb 58) t' = true | _ => True end) as (Ht1 & Ht2 & Ht3).
  { subst tail. destruct (a_value a) as [[sign v]|]; [|done]. by destruct Hv as ([-> | [-> | ->]] & _ & _ & Hv). }
  pose proof (none_of_sub "=:<|]" "=:<" _ eq_refl Hn) as Hn'.
  assert (reads (ROpt (RGroup 1 (RSet (any_of "!-")))) (mark_text (a_mark a)) (a_name a ++ tail) []
    match a_mark a with Some _ => capture 1 (mark_text (a_mark a)) [] | None => [] end) as Hmark.
  { destruct (a_mark a) as [[]|]; cbn [mark_text].
    1,2: by apply reads_alt_l, reads_group, reads_set.
    apply reads_opt_none, refuses_group, refuses_set. by rewrite stops_app. }
  eapply reads_seq; [by rewrite app_nil_r|].
  eapply reads_seq.
  { apply reads_alt_l, reads_group. apply reads_alt_r.
    - rewrite app_nil_r. by apply refuses_pair.
    - apply reads_plus; [done|done|by rewrite app_nil_r]. }
  rewrite <- (app_nil_r tail). eapply reads_seq; [|apply reads_eol].
  subst tail. destruct (a_value a) as [[sign v]|] eqn:Ev.
  - destruct Hv as (Hsign & Hd & _ & _). unfold attr_caps. rewrite Ev.
    apply reads_alt_l. eapply (reads_seq _ _ [sign] v).
    + apply reads_group, reads_set. by destruct Hsign as [-> | [-> | ->]].
    + apply reads_group, reads_star; done.
  - unfold attr_caps. rewrite Ev. apply reads_opt_none. by apply refuses_seq, refuses_group, refuses_set.
Qed.

Lemma attr_step_shown r a : attr_ok a → attr_step r (show_attr a) = attr_meaning r a.
Proof.
  intros Ha. unfold attr_step. rewrite exec_attr by done. destruct Ha as (_ & Hn & _ & Hv).
  pose proof (one_colon_id _ Hn) as Ho. unfold attr_meaning, deny.
  destruct a as [mark name value]. cbn [a_mark a_name a_value] in *.
  destruct mark as [[]|], value as [[sign v]|]; unfold group, attr_caps, capture;
    cbn -[one_colon store_attr attr_value splice1 inArray r_attrs r_order set_attrs set_required push]; rewrite Ho;
    reflexivity.
Qed.

(** ** A whole rule *)
Definition rule_caps (r : rule_src) : list (nat * jstr) :=
  let cs := match r_mark r with Some m => capture 1 [m] [] | None => [] end in
  let cs := capture 2 (r_name r) cs in
  let cs := match r_output r with Some o => capture 3 o cs | None => cs end in
  match r_list r with
  | [] => cs
  | l => capture 5 (join [124] (show_attr <$> l)) (capture 4 (if r_bang r then js "!" else []) cs)
  end.

Lemma show_attr_avoids a : attr_ok a →
  forallb (none_of "|]") (show_attr a) = true ∧ show_attr a ≠ [].
Proof.
  intros (Hne & Hn & _ & Hv). unfold show_attr. fold (mark_text (a_mark a)). split.
  - rewrite !forallb_app. rewrite (none_of_sub "=:<|]" "|]" _ eq_refl Hn).
    assert (forallb (none_of "|]") (mark_text (a_mark a)) = true) as -> by (by destruct (a_mark a) as [[]|]).
    cbn [andb]. destruct (a_value a) as [[sign v]|]; [|done]. destruct Hv as (Hs & _ & Hv & _).
    cbn [forallb]. rewrite Hv. by destruct Hs as [-> | [-> | ->]].
  - intros E%app_eq_nil. destruct E as [_ E%app_eq_nil]. by destruct E as [E _].
Qed.

Lemma join_forallb f sep ps : forallb f sep = true → Forall (λ p, forallb f p = true) ps →
  forallb f (join sep ps) = true.
Proof.
  intros Hsep. induction 1 as [|p ps Hp Hps IH]; [done|]. destruct ps as [|q ps]; [done|].
  change (join sep (p :: q :: ps)) with (p ++ sep ++ join sep (q :: ps)). by rewrite !forallb_app, Hp, Hsep, IH.
Qed.

Lemma join_not_nil sep p ps : p ≠ [] → join sep (p :: ps) ≠ [].
Proof. intros Hp. destruct ps; [done|]. cbn. by destruct p. Qed.

Definition rule_list_text (r : rule_src) : jstr :=
  match r_list r with
  | [] => []
  | l => (if r_bang r then js "!" else []) ++ 91 :: join [124] (show_attr <$> l) ++ [93]
  end.

Lemma reads_bang (b : bool) t cs : stops (Z.eqb 33) t = true →
  reads (RGroup 4 (ROpt (RChar 33))) (if b then js "!" else []) t cs (capture 4 (if b then js "!" else []) cs).
Proof.
  intros Ht. apply reads_group. destruct b; [apply reads_alt_l, reads_char|]. by apply reads_opt_none, refuses_char.
Qed.

Lemma reads_rule_list r cs : rule_ok r →
  reads (RSeq (ROpt (RSeq (RGroup 4 (ROpt (RChar 33)))
                 (RSeq (RChar 91) (RSeq (RGroup 5 (RPlus (RSet (none_of "]")))) (RChar 93))))) REol)
    (rule_list_text r) [] cs
    (match r_list r with
     | [] => cs
     | l => capture 5 (join [124] (show_attr <$> l)) (capture 4 (if r_bang r then js "!" else []) cs)
     end).
Proof.
  intros (_ & _ & _ & _ & _ & Hbang & Hl). unfold rule_list_text.
  destruct (r_list r) as [|a l] eqn:El.
  - eapply (reads_seq _ _ [] []); [|apply reads_eol]. apply reads_opt_none.
    intros p cs' k. reflexivity.
  - rewrite <- (app_nil_r (_ ++ _)). eapply reads_seq; [|apply reads_eol]. apply reads_alt_l.
    eapply reads_seq; [by apply reads_bang|].
    eapply (reads_seq _ _ [91]); [apply reads_char|].
    eapply reads_seq; [|apply reads_char]. apply reads_group, reads_plus; [| |done].
    + rewrite fmap_cons. apply join_not_nil. apply Forall_cons in Hl as [Ha _]. by apply show_attr_avoids.
    + apply join_forallb; [done|]. apply Forall_fmap. eapply Forall_impl; [exact Hl|]. intros b Hb. cbn.
      apply (none_of_sub "|]"); [done|]. by apply show_attr_avoids.
Qed.

Lemma exec_rule r : rule_ok r →
  exec elementRuleRegExp (show_rule r) = Some (MR 0 (show_rule r) [] (rule_caps r)).
Proof.
  intros Hr. pose proof Hr as (Hm & Hne & Hn & Hs & Ho & _ & _).
  unfold elementRuleRegExp. rewrite <- (app_nil_r (show_rule r)) at 1. apply exec_reads.
  unfold show_rule. fold (rule_list_text r).
  assert (∀ f, f 33 = false → f 91 = false → stops f (rule_list_text r) = true) as Hstop.
  { intros f H1 H2. unfold rule_list_text. destruct (r_list r); [done|]. destruct (r_bang r);
      [change (negb (f 33) = true); by rewrite H1|change (negb (f 91) = true); by rewrite H2]. }
  apply (reads_seq _ _ _ _ _ _ (match r_mark r with Some m => capture 1 [m] [] | None => [] end)).
  { destruct (r_mark r) as [m|].
    - by apply reads_alt_l, reads_group, reads_set.
    - apply reads_opt_none, refuses_group, refuses_set. rewrite app_nil_r. by rewrite stops_app. }
  eapply reads_seq.
  { apply reads_group, reads_plus; [done|done|]. rewrite app_nil_r. destruct (r_output r); [done|]. by apply Hstop. }
  unfold rule_caps. set (cs := capture 2 _ _).
  apply (reads_seq _ _ _ _ _ _ (match r_output r with Some o => capture 3 o cs | None => cs end));
    [|by apply reads_rule_list].
  destruct (r_output r) as [o|].
  - destruct Ho as [Ho1 Ho2]. apply reads_alt_l. eapply (reads_seq _ _ [47]); [apply reads_char|].
    apply reads_group, reads_plus; [done|done|]. rewrite app_nil_r. by apply Hstop.
  - apply reads_opt_none, refuses_seq, refuses_char. rewrite app_nil_r. by apply Hstop.
Qed.

(** What a rule means, read off its parts. *)
Definition global_rule (s : schema) : option (Obj.t attr_rule * list jstr) :=
  match Obj.get (js "@") (s_elements s) with
  | Some r => Some (r_attrs r, r_order r)
  | None => None
  end.

Definition rule_start (g : option (Obj.t attr_rule * list jstr)) (r : rule_src) : rule :=
  set_flags (r_bang r) (bool_decide (r_mark r = Some 45)) (bool_decide (r_mark r = Some 35))
    match g with
    | Some (ga, go) => new_rule (fold_left (λ a p, Obj.set p.1 p.2 a) ga []) go
    | None => new_rule [] []
    end.

Definition name_rule (r : rule_src) (x : rule) (rs : rules) (g : option (Obj.t attr_rule * list jstr)) : option rules :=
  let x := match r_output r with Some _ => set_outputName (Some (r_name r)) x | None => x end in
  let renamed x := match r_output r with Some o => Obj.set o x (elements rs) | None => elements rs end in
  if existsb (any_of "*?+") (r_name r) then
    p ← patternToRegExp (r_name r);
    let x := set_pattern (Some p) x in
    Some (Rules (renamed x) (patternElements rs ++ [x]) g)
  else Some (Rules (Obj.set (r_name r) x (renamed x)) (patternElements rs) g).

Definition rule_meaning (rs : option rules) (r : rule_src) : option rules :=
  rs ← rs;
  x ← fold_left (λ x a, x ← x; attr_meaning x a) (r_list r) (Some (rule_start (globals rs) r));
  name_rule r x rs
    (match globals rs with
     | Some g => Some g
     | None => if str_eqb (r_name r) (js "@") then Some (r_attrs x, r_order x) else None
     end).

Lemma test_set f s : test (RSet f) s = existsb f s.
Proof.
  unfold test, exec. generalize 0%nat as p. induction s as [|c s IH]; intros p; [done|].
  cbn [exec_from existsb]. unfold match_here. rewrite mtch_set_cons. destruct (f c); [done|]. apply IH.
Qed.

Lemma rule_groups r :
  (λ m, (group 1 m, group 2 m, group 3 m)) (MR 0 (show_rule r) [] (rule_caps r))
    = ((λ m, [m]) <$> r_mark r, Some (r_name r), r_output r)
  ∧ group 5 (MR 0 (show_rule r) [] (rule_caps r)) = match r_list r with [] => None | l => Some (join [124] (show_attr <$> l)) end
  ∧ group 4 (MR 0 (show_rule r) [] (rule_caps r)) = match r_list r with [] => None | _ => Some (if r_bang r then js "!" else []) end.
Proof.
  destruct r as [mark name out bang l]. unfold rule_caps, group. cbn [r_mark r_name r_output r_bang r_list m_caps].
  destruct mark, out, l; done.
Qed.

Lemma fold_attrs_shown l : ∀ x, Forall attr_ok l →
  fold_left (λ r a, r ← r; attr_step r a) (show_attr <$> l) x
    = fold_left (λ x a, x ← x; attr_meaning x a) l x.
Proof.
  induction l as [|a l IH]; intros x Hl; [done|]. apply Forall_cons in Hl as [Ha Hl].
  rewrite fmap_cons. cbn [fold_left]. rewrite IH by done. destruct x as [x|]; [|done].
  cbn. by rewrite attr_step_shown.
Qed.

Lemma attr_data r : rule_ok r →
  match group 5 (MR 0 (show_rule r) [] (rule_caps r)) with Some d => split d 124 | None => [] end
    = show_attr <$> r_list r.
Proof.
  intros (_ & _ & _ & _ & _ & _ & Hl). destruct (rule_groups r) as (_ & -> & _).
  destruct (r_list r) as [|a l] eqn:E; [done|]. unfold split.
  assert (Forall (λ p, p ≠ [] ∧ 124 ∉ p) (show_attr <$> a :: l)) as Hp.
  { apply Forall_fmap. eapply Forall_impl; [exact Hl|]. intros b [Hb Hb']%show_attr_avoids. split; [done|].
    rewrite forallb_forall in Hb. intros Hin%list_elem_of_In. by specialize (Hb _ Hin). }
  assert (truthy (join [124] (show_attr <$> a :: l)) = true) as ->.
  { rewrite fmap_cons in *. apply Forall_cons in Hp as [[Hp _] _].
    pose proof (join_not_nil [124] _ (show_attr <$> l) Hp) as Hj. by destruct (join _ _). }
  apply split_unit_join; [done|]. eapply Forall_impl; [exact Hp|]. by intros p [_ ?].
Qed.

Lemma add_rule_shown rs r : rule_ok r → add_rule rs (show_rule r) = rule_meaning rs r.
Proof.
  intros Hr. destruct rs as [rs|]; [|done]. unfold add_rule, rule_meaning. cbn [mbind option_bind].
  rewrite exec_rule by done. rewrite attr_data by done. rewrite fold_attrs_shown by apply Hr.
  destruct (rule_groups r) as ([= H1 H2 H3] & _ & H4). unfold element_start. rewrite H1, H2, H3, H4.
  assert (bool_decide (match r_list r with [] => None | _ => Some (if r_bang r then js "!" else []) end = Some [33])
          = r_bang r) as ->.
  { destruct Hr as (_ & _ & _ & _ & _ & Hb & _). destruct (r_list r); [by rewrite Hb|]. by destruct (r_bang r). }
  assert (∀ m, bool_decide (((λ m, [m]) <$> r_mark r) = Some [m]) = bool_decide (r_mark r = Some m)) as Hm.
  { intros m. apply bool_decide_ext. destruct (r_mark r); cbn; split; congruence. }
  rewrite !Hm. unfold name_rule. rewrite <- test_set. done.
Qed.

(** The text of a list of element rules (marks, output names, attributes with
    their marks, default, forced and valid values) makes exactly the changes the rules mean: the two regular
    expressions take every rule and every attribute apart as it was written. *)
Theorem addValidElements_shown (l : list rule_src) (s : schema) :
  l ≠ [] → Forall rule_ok l → Forall (λ r, 44 ∉ show_rule r) l →
  addValidElements (join [44] (show_rule <$> l)) s =
    rs ← fold_left rule_meaning l (Some (Rules (s_elements s) (s_patterns s) (global_rule s)));
    Some (with_rules rs s).
Proof.
  intros Hne Hl Hc.
  assert (show_rule <$> l ≠ [] ∧ truthy (join [44] (show_rule <$> l)) = true) as [Hne' Ht].
  { destruct l as [|r l]; [done|]. apply Forall_cons in Hl as [(_ & Hn & _) _]. rewrite fmap_cons. split; [done|].
    assert (show_rule r ≠ []) as Hr.
    { unfold show_rule. intros [_ [E _]%app_eq_nil]%app_eq_nil. done. }
    pose proof (join_not_nil [44] _ (show_rule <$> l) Hr) as Hj. by destruct (join _ _). }
  unfold addValidElements. destruct (join [44] (show_rule <$> l)) as [|c t] eqn:E; [done|].
  rewrite <- E in *. unfold split. rewrite Ht, split_unit_join; [|done|by apply Forall_fmap].
  unfold run_rules, global_rule. f_equal. generalize (Some (Rules (s_elements s) (s_patterns s)
    match Obj.get (js "@") (s_elements s) with Some r => Some (r_attrs r, r_order r) | None => None end)) as rs.
  clear -Hl. induction Hl as [|r l Hr Hl IH]; intros rs; [done|].
  rewrite fmap_cons. cbn [fold_left]. by rewrite add_rule_shown.
Qed.

Definition sample_rules : list rule_src :=
  [RuleSrc None (js "@") None false [AttrSrc None (js "id") None; AttrSrc None (js "class") None];
   RuleSrc (Some 35) (js "p") None true
     [AttrSrc (Some true) (js "align") (Some (61, js "left")); AttrSrc (Some false) (js "class") None;
      AttrSrc None (js "title") (Some (60, js "a?b")); AttrSrc None (js "data-*") None];
   RuleSrc (Some 45) (js "b") (Some (js "strong")) false []].

Lemma sample_rules_ok : Forall rule_ok sample_rules.
Proof.
  unfold rule_ok, attr_ok.
  repeat first [apply Forall_nil_2 | apply Forall_cons_2 | split]; cbn; try done; auto.
Qed.

Lemma addValidElements_shown_witness :
  join [44] (show_rule <$> sample_rules) = js "@[id|class],#p![!align=left|-class|title<a?b|data-*],-b/strong"
  ∧ ∀ s, addValidElements (js "@[id|class],#p![!align=left|-class|title<a?b|data-*],-b/strong") s =
      rs ← fold_left rule_meaning sample_rules (Some (Rules (s_elements s) (s_patterns s) (global_rule s)));
      Some (with_rules rs s).
Proof.
  split; [vm_compute; reflexivity|]. intros s.
  refine (addValidElements_shown sample_rules s _ _ _).
  - discriminate.
  - exact sample_rules_ok.
  - refine (bool_decide_unpack _ _). vm_compute. exact I.
Defined.

(** ** Denying an attribute *)
Lemma inArray_from_notin (l : list jstr) v : ∀ i, v ∉ l → inArray_from i l v = -1.
Proof.
  induction l as [|x l IH]; intros i; [done|]. intros [Hx Hl]%not_elem_of_cons. cbn.
  rewrite bool_decide_false by congruence. by apply IH.
Qed.

Lemma splice1_last {A} (l : list A) x : splice1 (-1) (l ++ [x]) = l.
Proof.
  unfold splice1. rewrite length_app. cbn [length Z.ltb Z.compare].
  replace (Z.to_nat (Z.max 0 (Z.of_nat (length l + 1) + -1))) with (length l) by lia.
  rewrite take_app_length. rewrite drop_ge; [by rewrite app_nil_r|]. rewrite length_app. cbn. lia.
Qed.

(** C40: Denying an attribute the element does not have (a minus in front of a name that
    is not in its order) takes the last attribute out of the order, because the index -1 is spliced; that
    attribute stays allowed but is no longer in the order. *)
Theorem deny_missing_attribute (r : rule) (name : jstr) (o : list jstr) (x : jstr) :
  attr_ok (AttrSrc (Some false) name None) →
  attributesOrder r = Some (o ++ [x]) → name ∉ o ++ [x] → name ≠ x →
  ∃ r', attr_step r (js "-" ++ name) = Some r' ∧ attributesOrder r' = Some o
        ∧ Obj.get x (r_attrs r') = Obj.get x (r_attrs r).
Proof.
  intros Ha Ho Hn Hx. exists (deny name r).
  assert (js "-" ++ name = show_attr (AttrSrc (Some false) name None)) as ->.
  { unfold show_attr. cbn [a_mark a_name a_value]. by rewrite app_nil_r. }
  rewrite attr_step_shown by done. split; [done|]. unfold deny, r_order. cbn [set_attrs attributesOrder].
  rewrite Ho. cbn [default id from_option]. unfold inArray. rewrite inArray_from_notin by done.
  rewrite splice1_last. split; [done|]. unfold r_attrs at 1. cbn. by apply Obj.get_delete_ne.
Qed.

Lemma deny_missing_attribute_witness :
  attr_ok (AttrSrc (Some false) (js "style") None)
  ∧ ∃ r', attr_step (new_rule [(js "id", plain_attr); (js "class", plain_attr)] [js "id"; js "class"]) (js "-style") = Some r'
      ∧ attributesOrder r' = Some [js "id"] ∧ Obj.get (js "class") (r_attrs r') = Some plain_attr.
Proof.
  assert (attr_ok (AttrSrc (Some false) (js "style") None)) as Ha by (repeat split; done).
  split; [exact Ha|].
  refine (deny_missing_attribute (new_rule [(js "id", plain_attr); (js "class", plain_attr)] [js "id"; js "class"])
    (js "style") [js "id"] (js "class") Ha eq_refl _ _).
  - refine (bool_decide_unpack _ _). vm_compute. exact I.
  - discriminate.
Defined.

(** ** Valid children *)
Definition show_children (sign name : jstr) (cs : list jstr) : jstr := sign ++ name ++ 91 :: join [124] cs ++ [93].

Definition children_text_ok (sign name : jstr) (cs : list jstr) : Prop :=
  (sign = js "+" ∨ sign = js "-" ∨ sign = []) ∧ name ≠ [] ∧ forallb is_word name = true
  ∧ cs ≠ [] ∧ Forall (λ c, c ≠ [] ∧ forallb (none_of "|]") c = true) cs.

Lemma is_word_not (c : Z) (s : string) : is_word c = true → forallb (λ d, negb (is_word d)) (js s) = true →
  any_of s c = false.
Proof.
  intros Hc Hs. apply not_true_iff_false. intros (d & Hd & ->%Z.eqb_eq)%existsb_exists.
  rewrite forallb_forall in Hs. specialize (Hs d Hd). by rewrite Hc in Hs.
Qed.

Lemma exec_children sign name cs : children_text_ok sign name cs →
  exec childRuleRegExp (show_children sign name cs)
  = Some (MR 0 (show_children sign name cs) []
      (capture 3 (join [124] cs) (capture 2 name (capture 1 sign [])))).
Proof.
  intros (Hsign & Hne & Hw & Hcs & Hc). unfold childRuleRegExp.
  rewrite <- (app_nil_r (show_children sign name cs)) at 1. apply exec_reads. unfold show_children.
  eapply reads_seq.
  { apply reads_group. destruct Hsign as [-> | [-> | ->]].
    1,2: by apply reads_alt_l, reads_set.
    apply reads_opt_none, refuses_set. destruct name as [|c name]; [done|]. cbn in Hw. cbn -[any_of].
    apply andb_true_iff in Hw as [Hc' _]. by rewrite is_word_not. }
  eapply reads_seq; [by apply reads_group, reads_plus|].
  eapply (reads_seq _ _ [91]); [apply reads_char|].
  eapply reads_seq; [|eapply (reads_seq _ _ [93] []); [apply reads_char|apply reads_eol]].
  apply reads_group, reads_plus; [| |done].
  - destruct cs as [|c cs]; [done|]. apply Forall_cons in Hc as [[Hc _] _]. by apply join_not_nil.
  - apply join_forallb; [done|]. eapply Forall_impl; [exact Hc|]. intros d [_ Hd]. by apply (none_of_sub "|]").
Qed.

Lemma split_children cs : cs ≠ [] → Forall (λ c, c ≠ [] ∧ forallb (none_of "|]") c = true) cs →
  split (join [124] cs) 124 = cs.
Proof.
  intros Hne Hc. unfold split.
  assert (truthy (join [124] cs) = true) as ->.
  { destruct cs as [|c cs]; [done|]. apply Forall_cons in Hc as [[Hc _] _].
    pose proof (join_not_nil [124] c cs Hc). by destruct (join _ _). }
  apply split_unit_join; [done|]. eapply Forall_impl; [exact Hc|]. intros c [_ Hb].
  rewrite forallb_forall in Hb. intros Hin%list_elem_of_In. by specialize (Hb _ Hin).
Qed.

Lemma change_child_get minus cs : ∀ m c,
  Obj.get c (fold_left (change_child minus) cs m)
  = if decide (c ∈ cs) then (if minus then None else Some tt) else Obj.get c m.
Proof.
  induction cs as [|d cs IH]; intros m c; cbn [fold_left]; [by rewrite decide_False by apply not_elem_of_nil|].
  rewrite IH. destruct (decide (c ∈ cs)) as [Hin|Hin]; [by rewrite decide_True by set_solver|].
  unfold change_child. destruct (decide (c = d)) as [->|Hne].
  - rewrite decide_True by set_solver. destruct minus; [apply Obj.get_delete_eq|apply Obj.get_set_eq].
  - rewrite decide_False by set_solver. destruct minus; [by apply Obj.get_delete_ne|by apply Obj.get_set_ne].
Qed.

(** The references in a schema and in the shared objects are allocated. *)
Definition refs_ok (c : Obj.t ref) (sh : shared) : Prop := Forall (λ p, (p.2 < length (store sh))%nat) c.

Lemma refs_ok_get c sh n r : refs_ok c sh → Obj.get n c = Some r → (r < length (store sh))%nat.
Proof. unfold refs_ok. rewrite Forall_forall. intros H E%Obj.get_Some_elem. by apply (H (n, r)). Qed.

(** A child rule changes the answers of [isValidChild] for exactly the listed
    children, under the named parent and under every other element that shares its object of children (custom
    elements do); a plus allows them, a minus forbids them, and nothing else changes. *)
Theorem addValidChildren_ok (s : schema) (sh : shared) (sign name : jstr) (cs : list jstr) (r : ref) :
  children_text_ok sign name cs → sign ≠ [] → 44 ∉ show_children sign name cs →
  refs_ok (children s) sh → Obj.get name (children s) = Some r →
  ∃ sh', addValidChildren (show_children sign name cs) s sh = Some (s, sh')
    ∧ refs_ok (children s) sh'
    ∧ ∀ n c, Obj.is_proto c = false →
        isValidChild s sh' n c =
          if bool_decide (Obj.get n (children s) = Some r) && bool_decide (c ∈ cs)
          then str_eqb sign (js "+") else isValidChild s sh n c.
Proof.
  intros Hok Hsign Hcomma Hrefs Hr.
  assert (split (show_children sign name cs) 44 = [show_children sign name cs]) as Hsplit.
  { unfold split. rewrite split_unit_none by done. unfold show_children. by destruct sign. }
  unfold addValidChildren. rewrite Hsplit. cbn [fold_left]. unfold add_child_rule. cbn [mbind option_bind].
  rewrite exec_children by done. destruct Hok as (Hs & _ & _ & Hne & Hcs).
  set (m := MR _ _ _ _).
  assert (group 1 m = Some sign ∧ group 2 m = Some name ∧ group 3 m = Some (join [124] cs)) as (-> & -> & ->) by done.
  change (default [] (Some ?x)) with x. assert (truthy sign = true) as -> by (by destruct sign).
  rewrite Hr, split_children by done. eexists. split; [done|]. split.
  - unfold refs_ok, write. cbn. by rewrite length_insert.
  - intros n c Hp. unfold isValidChild. destruct (Obj.get n (children s)) as [r'|] eqn:En.
    2: by rewrite bool_decide_false.
    pose proof (refs_ok_get _ _ _ _ Hrefs En). pose proof (refs_ok_get _ _ _ _ Hrefs Hr).
    unfold deref, write. cbn [store]. destruct (decide (r' = r)) as [->|Hr'].
    + rewrite bool_decide_true by done. rewrite list_lookup_insert_eq by done. cbn [default id andb].
      unfold Obj.has. rewrite change_child_get, Hp. case_bool_decide as Hc.
      * rewrite decide_True by done. destruct Hs as [-> | [-> | ->]]; done.
      * by rewrite decide_False.
    + rewrite bool_decide_false by congruence. by rewrite list_lookup_insert_ne by done.
Qed.

(** ** Whole schemas *)
Definition with_valid_children (text : string) : settings :=
  Settings None true [] None [] [] [] (js text) [] [].

Definition made (o : option (schema * shared)) : schema * shared :=
  default (Schema [] [] [] None 0 0 0 0 0 0 0 [] [] [], no_cache) o.

(** The schema without settings, made first. *)
Definition default_schema : schema * shared := made (new_Schema no_settings no_cache).

Definition p_children : ref :=
  Eval vm_compute in default 0%nat (Obj.get (js "p") (children default_schema.1)).

Lemma addValidChildren_ok_witness :
  Obj.get (js "p") (children default_schema.1) ≠ None
  ∧ ∃ sh', addValidChildren (js "-p[b|i]") default_schema.1 default_schema.2 = Some (default_schema.1, sh')
    ∧ isValidChild default_schema.1 sh' (js "p") (js "b") = false
    ∧ isValidChild default_schema.1 sh' (js "p") (js "u") = true.
Proof.
  assert (Obj.get (js "p") (children default_schema.1) = Some p_children) as Hr by (vm_compute; reflexivity).
  split; [rewrite Hr; discriminate|].
  assert (children_text_ok (js "-") (js "p") [js "b"; js "i"]) as Ht.
  { split; [right; left; reflexivity|]. split; [discriminate|]. split; [reflexivity|]. split; [discriminate|].
    refine (bool_decide_unpack _ _). vm_compute. exact I. }
  destruct (addValidChildren_ok default_schema.1 default_schema.2 (js "-") (js "p") [js "b"; js "i"] p_children) as (sh' & H1 & _ & H2).
  - exact Ht.
  - discriminate.
  - refine (bool_decide_unpack _ _). vm_compute. exact I.
  - refine (bool_decide_unpack _ _). vm_compute. exact I.
  - exact Hr.
  - exists sh'. split; [exact H1|]. split.
    + rewrite H2 by reflexivity. vm_compute. reflexivity.
    + rewrite H2 by reflexivity. vm_compute. reflexivity.
Defined.

(** A schema's changes leak into every later schema of the same type: the
    children objects it changes are the cached ones, so after making a schema that forbids b inside p, a schema
    without settings forbids it too, which it does not when it is made first. *)
Theorem valid_children_leak :
  isValidChild default_schema.1 default_schema.2 (js "p") (js "b") = true
  ∧ ('(s1, sh1) ← new_Schema (with_valid_children "-p[b]") no_cache;
     '(s2, sh2) ← new_Schema no_settings sh1;
     Some (isValidChild s2 sh2 (js "p") (js "b"))) = Some false.
Proof. split; vm_compute; reflexivity. Qed.

(** Extra children are pushed onto the shared array itself, so every element
    declared after object with flow content also accepts param (td does), while those declared before do not
    (div does not). *)
Theorem flow_content_polluted :
  isValidChild default_schema.1 default_schema.2 (js "td") (js "param") = true
  ∧ isValidChild default_schema.1 default_schema.2 (js "td") (js "area") = true
  ∧ isValidChild default_schema.1 default_schema.2 (js "div") (js "param") = false.
Proof. vm_compute. repeat split. Qed.

(** Attribute patterns are tried on the name of the element: for two attributes
    the rule does not list, [isValid] gives the same answer, whatever the patterns. *)
Theorem isValid_ignores_attribute (s : schema) (name a b : jstr) (r : rule) :
  getElementRule s name = Some r → a ≠ [] → b ≠ [] →
  Obj.has a (r_attrs r) = false → Obj.has b (r_attrs r) = false →
  isValid s name (Some a) = isValid s name (Some b).
Proof.
  intros Hr Ha Hb Ea Eb. unfold isValid. rewrite Hr. destruct a as [|x a]; [done|]. destruct b as [|y b]; [done|].
  unfold r_attrs in *. destruct (attributes r) as [at_|]; [|done]. cbn [default id from_option] in *.
  cbn. by rewrite Ea, Eb.
Qed.

Definition data_schema : schema * shared :=
  made (new_Schema (Settings None true (js "i[data-*]") None [] [] [] [] [] []) no_cache).

Lemma isValid_ignores_attribute_witness :
  isValid data_schema.1 (js "i") (Some (js "data-x")) = Some false
  ∧ isValid data_schema.1 (js "i") (Some (js "data-x")) = isValid data_schema.1 (js "i") (Some (js "onclick")).
Proof.
  split; [vm_compute; reflexivity|].
  apply (isValid_ignores_attribute data_schema.1 (js "i") (js "data-x") (js "onclick")
    (default empty_rule (getElementRule data_schema.1 (js "i")))); [vm_compute; reflexivity|discriminate|discriminate|..];
    vm_compute; reflexivity.
Defined.
