(* ===== verification/SaxParser.v ===== *)
(** * classes/html/SaxParser.js

    The tokenizer: a string of HTML becomes a sequence of handler calls,
    checked against a schema.  The calls are collected in order; [None] is an exception. *)

From S2P Require Import Prelude Regexp Tools Entities Writer Schema.

(** ** decodeURIComponent and unescape

    The two decoders of the language the URL filter uses. *)
Definition hex_digit (c : Z) : option Z :=
  d ← unit_digit c; if d <? 16 then Some d else None.

(** The octet of [%XX] at the start of the text, and the rest. *)
Definition read_octet (s : jstr) : option (Z * jstr) :=
  match s with
  | 37 :: a :: b :: s => x ← hex_digit a; y ← hex_digit b; Some (16 * x + y, s)
  | _ => None
  end.

(** [n] continuation octets, six bits each. *)
Fixpoint read_tail (n : nat) (v : Z) (s : jstr) : option (Z * jstr) :=
  match n with
  | O => Some (v, s)
  | S n => '(b, s) ← read_octet s; if between 128 191 b then read_tail n (64 * v + (b - 128)) s else None
  end.

(** One escaped character: its UTF-8 octets must be well formed. *)
Definition read_escaped (s : jstr) : option (jstr * jstr) :=
  '(b, s) ← read_octet s;
  if b <? 128 then Some ([b], s)
  else
    '(n, v, low) ← if between 194 223 b then Some (1%nat, b - 192, 128)
                   else if between 224 239 b then Some (2%nat, b - 224, 2048)
                   else if between 240 244 b then Some (3%nat, b - 240, 65536)
                   else None;
    '(v, s) ← read_tail n v s;
    if (v <? low) || between 55296 57343 v || (1114111 <? v) then None
    else if v <? 65536 then Some ([v], s)
    else Some ([55296 + (v - 65536) / 1024; 56320 + (v - 65536) mod 1024], s).

Fixpoint decodeURI_from (fuel : nat) (s : jstr) : option jstr :=
  match fuel, s with
  | _, [] => Some []
  | O, _ => None
  | S n, c :: s' =>
      if c =? 37 then '(u, s) ← read_escaped s; t ← decodeURI_from n s; Some (u ++ t)
      else t ← decodeURI_from n s'; Some (c :: t)
  end.
Definition decodeURIComponent (s : jstr) : option jstr := decodeURI_from (length s) s.

Definition read_unicode (s : jstr) : option (Z * jstr) :=
  match s with
  | 37 :: 117 :: a :: b :: c :: d :: s =>
      a ← hex_digit a; b ← hex_digit b; c ← hex_digit c; d ← hex_digit d;
      Some (16 * (16 * (16 * a + b) + c) + d, s)
  | _ => None
  end.

Fixpoint unescape_from (fuel : nat) (s : jstr) : jstr :=
  match fuel, s with
  | S n, c :: s' =>
      match read_unicode s with
      | Some (u, s) => u :: unescape_from n s
      | None => match read_octet s with
                | Some (u, s) => u :: unescape_from n s
                | None => c :: unescape_from n s'
                end
      end
  | _, _ => []
  end.
Definition unescape (s : jstr) : jstr := unescape_from (length s) s.

Example decode_ok : decodeURIComponent (js "a%C3%A9%F0%9D%92%9C%41") = Some [97; 233; 55349; 56476; 65].
Proof. reflexivity. Qed.
Example decode_bad : (decodeURIComponent (js "%E0%80%80"), decodeURIComponent (js "%4"), unescape (js "%u0041%4%41"))
  = (None, None, js "A%4A").
Proof. reflexivity. Qed.

(** ** Regular expressions *)
Definition any : cset := λ _, true.

(** The groups: 1 comment, 2 cdata, 3 doctype, 4 and 5 the name and the text of a processing
    instruction, 6 end tag, 7 and 8 the name and the attributes of a start tag. *)
Definition commentPart : re :=
  RSeq (RStr (js "!--")) (RSeq (RGroup 1 (RStar false (RSet any))) (RStr (js "-->"))).
Definition cdataPart : re :=
  RSeq (RStr (js "![CDATA[")) (RSeq (RGroup 2 (RStar false (RSet any))) (RStr (js "]]>"))).
Definition doctypePart : re :=
  RSeq (RStr (js "!DOCTYPE")) (RSeq (RGroup 3 (RStar false (RSet any))) (RChar 62)).
Definition piPart : re :=
  RSeq (RChar 63) (RSeq (RGroup 4 (RPlus (RSet (λ c, negb (is_space c) && none_of "/<>" c))))
    (RSeq (ROpt (RChar 32)) (RSeq (RGroup 5 (RStar false (RSet any)))
      (RSeq (RSet (any_of "?/")) (RChar 62))))).
Definition endPart : re := RSeq (RChar 47) (RSeq (RGroup 6 (RPlus (RSet (none_of ">")))) (RChar 62)).
Definition name_unit : cset := λ c, between 65 90 c || between 97 122 c || is_digit c || any_of "-:." c.
Definition dquote : Z := 34.
Definition quoted (q : Z) : re := RSeq (RChar q) (RSeq (RStar true (RSet (λ c, negb (c =? q)))) (RChar q)).
Definition attribsPart : re :=
  RSeq (RPlus (RSet is_space)) (RSeq (RPlus (RSet (λ c, none_of "'>" c && negb (c =? dquote))))
    (RAlt (quoted dquote) (RAlt (quoted 39) (RStar true (RSet (none_of ">")))))).
Definition startPart : re :=
  RSeq (RGroup 7 (RPlus (RSet name_unit)))
    (RSeq (RGroup 8 (RAlt (RStar true attribsPart) (RAlt (RChar 47) (RPlus (RSet is_space))))) (RChar 62)).
Definition tokenRegExp : re :=
  RSeq (RChar 60)
    (RAlt commentPart (RAlt cdataPart (RAlt doctypePart (RAlt piPart (RAlt endPart startPart))))).

(** A name and, after an equals sign, the value: 2 in double quotes, 3 in single
    quotes, 4 without. *)
Definition attrRegExp : re :=
  RSeq (RGroup 1 (RPlus (RSet (λ c, is_word c || any_of ":-" c))))
    (ROpt (RSeq (RStar true (RSet is_space)) (RSeq (RChar 61) (RSeq (RStar true (RSet is_space))
      (RAlt (RSeq (RChar dquote) (RSeq (RGroup 2 (RStar true (RSet (λ c, negb (c =? dquote))))) (RChar dquote)))
        (RAlt (RSeq (RChar 39) (RSeq (RGroup 3 (RStar true (RSet (none_of "'")))) (RChar 39)))
              (RGroup 4 (RPlus (RSet (λ c, negb (is_space c) && none_of ">" c))))))))) ).

Definition trimRegExp : re := RPlus (RSet (λ c, is_space c || between 0 31 c)).
Definition scriptUriRegExp : re := RSeq (RAlt (RStrI (js "java")) (RStrI (js "vb"))) (RStrI (js "script:")).

(** ** The parser *)
(** What the parser asks of a schema. *)
Class ParserSchema := {
  shortEndedElements : nameset;
  selfClosingElements : nameset;
  boolAttrs : nameset;
  specialElements : Obj.t re;
  elementRule : jstr -> option rule
}.

(** The schema object of the library. *)
Definition schema_parser (s : schema) (sh : shared) : ParserSchema := {|
  shortEndedElements := deref sh (shortEndedElementsMap s);
  selfClosingElements := deref sh (selfClosingElementsMap s);
  boolAttrs := deref sh (boolAttrMap s);
  specialElements := Schema.specialElements s;
  elementRule := getElementRule s
|}.

Record settings := Settings {
  validate : bool;
  remove_internals : bool;
  fix_self_closing : bool;
  allow_script_urls : bool;
  allow_conditional_comments : bool;
  self_closing_elements : option nameset
}.

(** An open element, and whether its start was reported. *)
Abbreviation entry := (jstr * bool)%type.

(** The variables that live through the loop; the stack has its top first.
    [attribsValue] and [isInternalElement] keep the values of an earlier tag when a tag does not set them. *)
Record sax := Sax {
  stack : list entry;
  isInternalElement : bool;
  attribsValue : option jstr;
  idCount : Z;
  out : list event
}.
Definition init : sax := Sax [] false None 0 [].

Definition emit (es : list event) (st : sax) : sax :=
  Sax (stack st) (isInternalElement st) (attribsValue st) (idCount st) (out st ++ es).
Definition set_stack (s : list entry) (st : sax) : sax :=
  Sax s (isInternalElement st) (attribsValue st) (idCount st) (out st).
Definition set_attribs (b : bool) (a : option jstr) (st : sax) : sax :=
  Sax (stack st) b a (idCount st) (out st).
Definition set_count (n : Z) (st : sax) : sax :=
  Sax (stack st) (isInternalElement st) (attribsValue st) n (out st).

(** The calls that close some entries, the top one first. *)
Definition closing (es : list entry) : list event := (λ e, EEnd e.1) <$> List.filter snd es.

(** The entries up to and with the topmost one of that name, and those below it. *)
Fixpoint cut_stack (name : jstr) (s : list entry) : option (list entry * list entry) :=
  match s with
  | [] => None
  | e :: s => if str_eqb e.1 name then Some ([e], s)
              else '(up, s) ← cut_stack name s; Some (e :: up, s)
  end.

Definition processEndTag (name : jstr) (st : sax) : sax :=
  match cut_stack name (stack st) with
  | Some (up, s) => set_stack s (emit (closing up) st)
  | None => st
  end.

(** The list of attributes and its map. *)
Abbreviation attr_list := (list (jstr * jstr) * Obj.t jstr)%type.
Definition push_attr (name value : jstr) (l : attr_list) : attr_list :=
  (l.1 ++ [(name, value)], Obj.set name value l.2).

(** [matches[n]], undefined or empty counting as absent. *)
Definition group_text (n : nat) (m : mres) : option jstr :=
  match group n m with Some (c :: t) => Some (c :: t) | _ => None end.

Definition lower_name (value : jstr) : jstr :=
  match to_lower value with c :: v => if c =? 58 then v else c :: v | [] => [] end.

Section Parser.
Context (nativeDecode : jstr -> jstr) `{ParserSchema} (cfg : settings).

Definition decode : jstr -> jstr := Entities.decode nativeDecode.

(** The last pattern that matches the name. *)
Fixpoint pattern_rule (ps : list attr_rule) (name : jstr) : option attr_rule :=
  match ps with
  | [] => None
  | p :: ps => match pattern_rule ps name with
               | Some r => Some r
               | None => match apattern p with
                         | Some re => if test re name then Some p else None
                         | None => None
                         end
               end
  end.

(** [validAttributesMap[name]], then the patterns; an inherited method
    counts as a rule without conditions. *)
Definition attr_rule_of (r : rule) (name : jstr) : option (option attr_rule) :=
  at_ ← attributes r;
  Some match Obj.get name at_ with
       | Some a => Some a
       | None => if Obj.is_proto name then Some plain_attr
                 else pattern_rule (default [] (attributePatterns r)) name
       end.

Definition attr_allowed (r : rule) (name value : jstr) : option bool :=
  a ← attr_rule_of r name;
  Some match a with
       | None => false
       | Some a => match validValues a with Some vs => Obj.has value vs | None => true end
       end.

Definition filteredUrlAttrs : nameset := makeMap (js "src,href") 44 [].

(** The address, without white space and controls, decoded. *)
Definition script_url (value : jstr) : bool :=
  let uri := replace_all trimRegExp (λ _, []) value in
  match decodeURIComponent uri with
  | Some uri => test scriptUriRegExp uri
  | None => test scriptUriRegExp (unescape uri)
  end.

Definition blocked (name value : jstr) : bool :=
  Obj.has name filteredUrlAttrs && negb (allow_script_urls cfg) && script_url value.

Definition first_text (l : list (option jstr)) : jstr :=
  default [] (List.find truthy (default [] <$> l)).

(** [parseAttribute(match, name, value, val2, val3)]; [r] is the rule when
    the attributes are validated. *)
Definition parseAttribute (r : option rule) (l : option attr_list) (m : mres) : option attr_list :=
  l ← l;
  let name := to_lower (default [] (group 1 m)) in
  let value := if Obj.has name boolAttrs then name
               else decode (first_text [group 2 m; group 3 m; group 4 m]) in
  ok ← match r with
       | Some r => if starts_with (js "data-") name then Some true else attr_allowed r name value
       | None => Some true
       end;
  if negb ok || blocked name value then Some l else Some (push_attr name value l).

(** The value of a forced or default attribute; a unique id is counted. *)
Definition uid_value (value : jstr) (n : Z) : jstr * Z :=
  if str_eqb value (js "{$uid}") then (js "mce_" ++ num_to_string 10 n, n + 1) else (value, n).

Definition force_attr (ln : attr_list * Z) (a : jstr * jstr) : attr_list * Z :=
  let '(v, n) := uid_value a.2 ln.2 in (push_attr a.1 v ln.1, n).
Definition default_attr (ln : attr_list * Z) (a : jstr * jstr) : attr_list * Z :=
  if Obj.has a.1 ln.1.2 then ln else force_attr ln a.

(** What validation adds to the attributes, and whether the element stays. *)
Definition process_attrs (r : rule) (l : attr_list) (n : Z) : attr_list * Z * bool :=
  let ok := negb (removeEmptyAttrs r && negb (0 <? Z.of_nat (length l.1))) in
  let '(l, n) := fold_left force_attr (reverse (default [] (attributesForced r))) (l, n) in
  let '(l, n) := fold_left default_attr (reverse (default [] (attributesDefault r))) (l, n) in
  let ok := ok && match attributesRequired r with
                  | Some req => existsb (λ a, Obj.has a l.2) req
                  | None => true
                  end in
  (l, n, ok && negb (truthy (default [] (Obj.get (js "data-mce-bogus") l.2)))).

Definition contains (p s : jstr) : bool := if index_of p s is Some _ then true else false.

Definition selfClosing : nameset := default selfClosingElements (self_closing_elements cfg).

(** A tag that closes an open element of its own kind first. *)
Definition close_same (value : jstr) (st : sax) : sax :=
  match stack st with
  | e :: _ => if fix_self_closing cfg && Obj.has value selfClosing && str_eqb e.1 value
              then processEndTag value st else st
  | [] => st
  end.

(** Whether the attributes of the current element are validated. *)
Definition validating (st : sax) : bool := validate cfg && negb (isInternalElement st).

Definition parse_attributes (r : option rule) (attribs : option jstr) : option attr_list :=
  match attribs with
  | Some a => fold_left (parseAttribute r) (all_matches attrRegExp a) (Some ([], []))
  | None => Some ([], [])
  end.

(** The element with its attributes: the state, and whether the element is valid. *)
Definition open_element (value : jstr) (r : option rule) (attribs : option jstr) (st : sax) : option (bool * sax) :=
  let internal := match attribs with
                  | Some a => contains (js "data-mce-type") a
                  | None => isInternalElement st
                  end in
  let valid := negb (bool_decide (is_Some attribs) && internal && remove_internals cfg) in
  let st := set_attribs internal attribs st in
  l ← parse_attributes (if validating st then r else None) attribs;
  let '(l, n, ok) := match r with
                     | Some r => if validating st then process_attrs r l (idCount st) else (l, idCount st, true)
                     | None => (l, idCount st, true)
                     end in
  let st := set_count n st in
  if valid && ok
  then Some (true, emit [EStart value (Some l.1) (Obj.has value shortEndedElements)] st)
  else Some (false, st).

Definition start_tag (value : jstr) (m : mres) (st : sax) : option (bool * sax) :=
  let st := close_same value st in
  if validate cfg then
    match elementRule value with
    | Some r => open_element value (Some r) (group_text 8 m) st
    | None => Some (false, st)
    end
  else open_element value None (group_text 8 m) st.

(** Whether the attributes of the last validated tag end with a slash that is their first one. *)
Definition slash_ended (st : sax) : bool :=
  match attribsValue st with
  | Some a => match index_of_unit 47 a with
              | Some i => Nat.eqb i (length a - 1)
              | None => false
              end
  | None => false
  end.

Definition push_element (value : jstr) (valid : bool) (st : sax) : sax :=
  if Obj.has value shortEndedElements then st
  else if slash_ended st then (if valid then emit [EEnd value] st else st)
  else set_stack ((value, valid) :: stack st) st.

(** The text of a special element up to its end tag; where reading goes on. *)
Definition raw_element (endRegExp : re) (value : jstr) (valid : bool) (p : nat) (s : jstr) (st : sax)
    : nat * jstr * sax :=
  let '(text, p, s) := match exec_from endRegExp p s with
                       | Some m => (take (m_index m - p) s, (m_index m + length (m_text m))%nat, m_after m)
                       | None => (s, (p + length s)%nat, [])
                       end in
  (p, s, if valid then emit ((if truthy text then [EText text true] else []) ++ [EEnd value]) st else st).

(** One start tag: the state after it, and where reading goes on; the method
    found under an inherited name is no regular expression. *)
Definition on_start (value : jstr) (m : mres) (st : sax) : option (nat * jstr * sax) :=
  '(valid, st) ← start_tag value m st;
  let p := (m_index m + length (m_text m))%nat in
  match Obj.get value specialElements with
  | Some r => Some (raw_element r value valid p (m_after m) st)
  | None => if Obj.is_proto value then None else Some (p, m_after m, push_element value valid st)
  end.

Definition comment_text (value : jstr) : jstr :=
  let value := if starts_with (js ">") value then 32 :: value else value in
  if negb (allow_conditional_comments cfg) && starts_with (js "[if") value then 32 :: value else value.

(** One token. *)
Definition on_token (m : mres) (st : sax) : option (nat * jstr * sax) :=
  let next st := Some ((m_index m + length (m_text m))%nat, m_after m, st) in
  match group_text 6 m with
  | Some value => next (processEndTag (lower_name value) st)
  | None =>
  match group_text 7 m with
  | Some value => on_start (lower_name value) m st
  | None =>
  match group_text 1 m with
  | Some value => next (emit [EComment (Some (comment_text value))] st)
  | None =>
  match group_text 2 m with
  | Some value => next (emit [ECdata (Some value)] st)
  | None =>
  match group_text 3 m with
  | Some value => next (emit [EDoctype (Some value)] st)
  | None =>
  match group_text 4 m with
  | Some value => next (emit [EPi value (Some (default [] (group 5 m)))] st)
  | None => next st
  end end end end end end.

Definition text_before (text : jstr) (st : sax) : sax :=
  match text with [] => st | _ => emit [EText (decode text) false] st end.

(** The loop, from position [p] with the text [s] left; every token
    takes at least one unit, so the length of the text bounds the rounds. *)
Fixpoint tokens (fuel : nat) (p : nat) (s : jstr) (st : sax) : option sax :=
  match fuel with
  | O => None
  | S n =>
      match exec_from tokenRegExp p s with
      | None => Some (text_before s st)
      | Some m =>
          '(p', s', st) ← on_token m (text_before (take (m_index m - p) s) st);
          tokens n p' s' st
      end
  end.

Definition parse (html : jstr) : option (list event) :=
  st ← tokens (S (length html)) 0 html init;
  Some (out st ++ closing (stack st)).
End Parser.

Definition cfg0 : settings := Settings true false true false false None.

(** ** Tokens *)
Lemma token_nonempty p s m : exec_from tokenRegExp p s = Some m → ∃ t, m_text m = 60 :: t.
Proof.
  revert p. induction s as [|c s IH]; intros p; cbn [exec_from].
  - done.
  - destruct (match_here tokenRegExp p (c :: s)) as [m'|] eqn:E; [|apply IH].
    intros [= ->]. unfold match_here, tokenRegExp in E.
    rewrite mtch_seq in E. unfold RChar at 1 in E. rewrite mtch_set_cons in E.
    destruct (Z.eqb_spec 60 c) as [<-|]; [|done].
    destruct (mtch _ _ _) as [st|] eqn:Em; [|done]. injection E as <-.
    apply mtch_sound in Em as (st' & (q & Hr & Hp) & [= ->]). cbn [pos rest] in *. cbn [m_text].
    rewrite Hp. replace (S p + length q - p)%nat with (S (length q)) by lia. cbn [take]. eauto.
Qed.

Lemma exec_after p r s m : exec_from r p s = Some m →
  ∃ pre, s = pre ++ m_text m ++ m_after m ∧ take (m_index m - p) s = pre.
Proof.
  intros (pre & E & Hi)%exec_from_split. exists pre. split; [done|].
  rewrite Hi, E. replace (p + length pre - p)%nat with (length pre) by lia. by rewrite take_app_length.
Qed.

Section Facts.
Context (nativeDecode : jstr -> jstr) `{ParserSchema} (cfg : settings).
Abbreviation on_token := (on_token nativeDecode cfg).
Abbreviation tokens := (tokens nativeDecode cfg).
Abbreviation parse := (parse nativeDecode cfg).

(** After a token reading goes on at a later point of the same text. *)
Lemma raw_element_after r v b p s st : ∃ u, s = u ++ (raw_element r v b p s st).1.2.
Proof.
  unfold raw_element. destruct (exec_from r p s) as [m|] eqn:E; cbn.
  - apply exec_after in E as (pre & E & _). exists (pre ++ m_text m). by rewrite <- app_assoc.
  - exists s. by rewrite app_nil_r.
Qed.

Lemma on_token_after m st p' s' st' : on_token m st = Some (p', s', st') → ∃ u, m_after m = u ++ s'.
Proof.
  unfold SaxParser.on_token. intros E.
  repeat (destruct (group_text _ m); [try (simplify_eq; by exists [])|]); [|simplify_eq; by exists []].
  unfold on_start in E. destruct (start_tag _ _ _ _ _) as [[valid st1]|]; [|done]. cbn in E.
  destruct (Obj.get _ specialElements) as [r|].
  - destruct (raw_element_after r (lower_name l) valid (m_index m + length (m_text m))%nat (m_after m) st1) as [u Hu].
    destruct (raw_element _ _ _ _ _ _) as [[p1 s1] st2]. simplify_eq/=. by exists u.
  - destruct (Obj.is_proto _); [done|]. simplify_eq. by exists [].
Qed.


(** An invariant of the states is kept by the whole loop when the tokens and
    the text between them keep it; every token is matched in a piece of the text. *)
Lemma tokens_inv (html : jstr) (I : sax -> Prop) :
  (∀ p s m st p' s' st', factor s html → exec_from tokenRegExp p s = Some m → I st →
     on_token m st = Some (p', s', st') → I st') →
  (∀ t st, I st → I (text_before nativeDecode t st)) →
  ∀ n p s st st', factor s html → I st → tokens n p s st = Some st' → I st'.
Proof.
  intros Htok Htext. induction n as [|n IH]; intros p s st st' Hs HI E; [done|]. cbn [SaxParser.tokens] in E.
  destruct (exec_from tokenRegExp p s) as [m|] eqn:Em; [|simplify_eq; by apply Htext].
  destruct (on_token m _) as [[[p1 s1] st1]|] eqn:Et; [|done]. cbn in E.
  pose proof (on_token_after _ _ _ _ _ Et) as [u Hu]. pose proof (exec_after _ _ _ _ Em) as (pre & Es & _).
  apply (IH p1 s1 st1 st'); [|by eapply Htok, Et; [| |apply Htext]|done].
  eapply factor_trans; [|exact Hs]. rewrite Es, Hu. exists (pre ++ m_text m ++ u), []. by rewrite app_nil_r, <- !app_assoc.
Qed.

(** A call that neither opens nor closes an element. *)
Definition inert (e : event) : Prop := match e with EStart _ _ _ | EEnd _ => False | _ => True end.

Lemma on_token_cases m st p' s' st' : on_token m st = Some (p', s', st') →
  st' = st ∨ (∃ name, st' = processEndTag name st) ∨ (∃ e, inert e ∧ st' = emit [e] st)
  ∨ ∃ v, group_text 7 m = Some v ∧ on_start nativeDecode cfg (lower_name v) m st = Some (p', s', st').
Proof.
  unfold SaxParser.on_token. intros E.
  destruct (group_text 6 m); [simplify_eq; eauto|].
  destruct (group_text 7 m); [by eauto 10|].
  repeat (destruct (group_text _ m);
    [simplify_eq; right; right; left; eexists; split; [|done]; done|]).
  simplify_eq. by left.
Qed.

(** What a start tag leaves: the calls of an element it closed, and its own if it is valid. *)
Lemma close_same_cases value st : close_same cfg value st = st ∨ close_same cfg value st = processEndTag value st.
Proof. unfold close_same. destruct (stack st); [by left|]. case_match; [by right|by left]. Qed.

Lemma open_element_out value r attribs st valid st' :
  open_element nativeDecode cfg value r attribs st = Some (valid, st') →
  stack st' = stack st ∧ ∃ l, out st' = out st ++
    (if valid then [EStart value (Some l) (Obj.has value shortEndedElements)] else []).
Proof.
  unfold open_element. destruct (parse_attributes _ _ _ _) as [l|]; [|done]. cbn [mbind option_bind].
  destruct (match r with Some _ => _ | None => _ end) as [[l' n] ok].
  destruct (_ && ok); intros [= <- <-]; cbn; (split; [done|]); exists l'.1; [done|by rewrite app_nil_r].
Qed.

Lemma start_tag_out value m st valid st' :
  start_tag nativeDecode cfg value m st = Some (valid, st') →
  stack st' = stack (close_same cfg value st)
  ∧ ∃ l, out st' = out (close_same cfg value st) ++
    (if valid then [EStart value (Some l) (Obj.has value shortEndedElements)] else []).
Proof.
  unfold start_tag. destruct (validate cfg).
  - destruct (elementRule value); [apply open_element_out|].
    intros [= <- <-]. split; [done|]. exists []. by rewrite app_nil_r.
  - apply open_element_out.
Qed.

(** ** The calls are nested *)
Definition open_names (s : list entry) : list jstr := fst <$> List.filter snd s.

Definition nested (st : sax) : Prop := balanced [] (out st) = Some (open_names (stack st)).

Lemma balanced_closing up s : balanced (open_names (up ++ s)) (closing up) = Some (open_names s).
Proof.
  unfold open_names, closing. induction up as [|[n v] up IH]; [done|]. cbn. destruct v; [|exact IH].
  cbn. rewrite (proj2 (str_eqb_true _ _)) by done. exact IH.
Qed.

Lemma cut_stack_app name s up s' : cut_stack name s = Some (up, s') → s = up ++ s'.
Proof.
  revert up. induction s as [|e s IH]; intros up; [done|]. cbn. destruct (str_eqb e.1 name).
  - by intros [= <- <-].
  - destruct (cut_stack name s) as [[up' s1]|]; [|done]. intros [= <- <-]. cbn. by rewrite (IH up').
Qed.

Lemma nested_processEndTag name st : nested st → nested (processEndTag name st).
Proof.
  unfold nested, processEndTag. intros Hn. destruct (cut_stack name (stack st)) as [[up s]|] eqn:E; [|done].
  apply cut_stack_app in E. cbn. rewrite balanced_app, Hn, E. cbn. apply balanced_closing.
Qed.

Lemma nested_inert e st : inert e → nested st → nested (emit [e] st).
Proof. unfold nested. cbn. intros He Hn. rewrite balanced_app, Hn. by destruct e. Qed.

Lemma nested_text t st : nested st → nested (text_before nativeDecode t st).
Proof. intros Hn. destruct t; [done|]. by apply nested_inert. Qed.

Lemma nested_close_same value st : nested st → nested (close_same cfg value st).
Proof. destruct (close_same_cases value st) as [-> | ->]; [done|]. apply nested_processEndTag. Qed.

(** After the start call of an element that is not yet on the stack. *)
Definition half_open (value : jstr) (valid : bool) (st : sax) : Prop :=
  balanced [] (out st) = Some ((if valid && negb (Obj.has value shortEndedElements) then [value] else [])
                               ++ open_names (stack st)).

Lemma start_tag_half value m st valid st' : nested st →
  start_tag nativeDecode cfg value m st = Some (valid, st') → half_open value valid st'.
Proof.
  intros Hn%(nested_close_same value) E%start_tag_out. destruct E as (Es & l & Eo).
  unfold half_open. rewrite Eo, Es, balanced_app, Hn. cbn.
  destruct valid; [|done]. cbn. by destruct (Obj.has _ _).
Qed.

Lemma push_element_nested value valid st : half_open value valid st → nested (push_element value valid st).
Proof.
  unfold half_open, nested, push_element. intros Hh. destruct (Obj.has value shortEndedElements).
  - by rewrite andb_false_r in Hh.
  - rewrite andb_true_r in Hh. destruct (slash_ended st); [|by destruct valid].
    destruct valid; [|done]. cbn. rewrite balanced_app, Hh. cbn. by rewrite (proj2 (str_eqb_true _ _)).
Qed.

Lemma raw_element_nested r value valid p s st : Obj.has value shortEndedElements = false →
  half_open value valid st → nested (raw_element r value valid p s st).2.
Proof.
  unfold half_open, nested, raw_element. intros -> Hh. rewrite andb_true_r in Hh.
  destruct (match exec_from r p s with Some _ => _ | None => _ end) as [[t p'] s']. cbn [snd].
  destruct valid; [|done]. cbn. rewrite balanced_app, Hh. cbn. rewrite balanced_app.
  destruct (truthy t); cbn; by rewrite (proj2 (str_eqb_true _ _)).
Qed.

Context (Hspecial : ∀ v r, Obj.get v specialElements = Some r → Obj.has v shortEndedElements = false).

Lemma on_token_nested m st p' s' st' : nested st → on_token m st = Some (p', s', st') → nested st'.
Proof using Hspecial.
  intros Hn E%on_token_cases. destruct E as [-> | [(name & ->)|[(e & He & ->)|(v & _ & E)]]].
  - done.
  - by apply nested_processEndTag.
  - by apply nested_inert.
  - unfold on_start in E. destruct (start_tag _ _ _ _ _) as [[valid st1]|] eqn:Es; [|done]. cbn in E.
    apply start_tag_half in Es; [|done]. destruct (Obj.get _ specialElements) as [r|] eqn:Er.
    + injection E as E. pose proof (raw_element_nested r _ valid (m_index m + length (m_text m)) (m_after m) _
        (Hspecial _ _ Er) Es) as Hr. by rewrite E in Hr.
    + destruct (Obj.is_proto _); [done|]. simplify_eq. by apply push_element_nested.
Qed.
End Facts.

(** C7: Whatever the HTML, the schema and the settings, the calls the parser makes
    are nested: every end call closes the element opened last, and at the end no element is open; the
    only condition is that no element with raw text is declared as one without an end tag. *)
Theorem parse_balanced (nativeDecode : jstr -> jstr) `{ParserSchema} (cfg : settings) (html : jstr) (es : list event) :
  (∀ v r, Obj.get v specialElements = Some r → Obj.has v shortEndedElements = false) →
  parse nativeDecode cfg html = Some es → balanced [] es = Some [].
Proof.
  intros Hs. unfold parse. destruct (tokens _ _ _ _ _ _) as [st|] eqn:E; [|done]. intros [= <-].
  assert (nested st) as Hn.
  { eapply (tokens_inv nativeDecode cfg html nested); [| |apply factor_refl| |exact E]; [| |done].
    - intros. by eapply on_token_nested.
    - intros. by apply nested_text. }
  rewrite balanced_app, Hn. cbn. rewrite <- (app_nil_r (stack st)) at 1. apply balanced_closing.
Qed.

(** ** The attributes that reach the handlers *)
Section Attributes.
Context (nativeDecode : jstr -> jstr) `{ParserSchema} (cfg : settings).

(** The attribute has a forced or a default value in the rule. *)
Definition declared (r : rule) (name : jstr) : Prop :=
  name ∈ (default [] (attributesForced r) ++ default [] (attributesDefault r)).*1.

Definition permitted (r : rule) (name value : jstr) : Prop :=
  starts_with (js "data-") name = true ∨ attr_allowed r name value = Some true.

(** An attribute the document gave passed the filters; [r] is the rule it was checked against. *)
Definition attr_good (r : option rule) (a : jstr * jstr) : Prop :=
  (∃ r', r = Some r' ∧ declared r' a.1)
  ∨ (blocked cfg a.1 a.2 = false ∧ ∀ r', r = Some r' → permitted r' a.1 a.2).

Lemma parseAttribute_good r l m l' : parseAttribute nativeDecode cfg r l m = Some l' →
  ∃ l0, l = Some l0 ∧ (Forall (attr_good r) l0.1 → Forall (attr_good r) l'.1).
Proof.
  unfold parseAttribute. destruct l as [l|]; [|done]. cbn [mbind option_bind].
  set (nm := to_lower _). set (v := if Obj.has nm boolAttrs then _ else _). intros E. exists l. split; [done|].
  destruct (match r with Some _ => _ | None => _ end) as [ok|] eqn:Eok; [|done]. cbn [mbind option_bind] in E.
  destruct (negb ok || blocked cfg nm v) eqn:Eb; injection E as <-; [done|].
  apply orb_false_iff in Eb as [Eo Eb]. apply negb_false_iff in Eo. subst ok. intros Hl.
  unfold push_attr. cbn [fst]. apply Forall_app; split; [done|]. apply Forall_singleton. right. split; [done|].
  intros r' ->. unfold permitted. cbn [fst snd].
  destruct (starts_with (js "data-") nm) eqn:Ed; [by left|right]. exact Eok.
Qed.

Lemma parse_attributes_good r attribs l :
  parse_attributes nativeDecode cfg r attribs = Some l → Forall (attr_good r) l.1.
Proof.
  unfold parse_attributes. destruct attribs as [a|]; [|by intros [= <-]].
  assert (∀ ms l0, (∀ x, l0 = Some x → Forall (attr_good r) x.1) →
    fold_left (parseAttribute nativeDecode cfg r) ms l0 = Some l → Forall (attr_good r) l.1) as Hf; [|apply Hf].
  - induction ms as [|m ms IH]; intros l0 Hl0 E; [by apply Hl0|]. cbn in E. eapply IH, E.
    intros x Hx. apply parseAttribute_good in Hx as (l1 & -> & Hx). by apply Hx, Hl0.
  - intros x [= <-]. done.
Qed.

Lemma force_attr_good r (ln : attr_list * Z) a :
  declared r a.1 → Forall (attr_good (Some r)) ln.1.1 → Forall (attr_good (Some r)) (force_attr ln a).1.1.
Proof.
  intros Hd Hl. unfold force_attr. destruct (uid_value a.2 ln.2) as [v n]. cbn.
  apply Forall_app; split; [done|]. apply Forall_singleton. left. by exists r.
Qed.

Lemma fold_force_good r (f : attr_list * Z → jstr * jstr → attr_list * Z) :
  (∀ ln a, f ln a = ln ∨ f ln a = force_attr ln a) →
  ∀ l ln, Forall (λ a, declared r a.1) l → Forall (attr_good (Some r)) ln.1.1 →
    Forall (attr_good (Some r)) (fold_left f l ln).1.1.
Proof.
  intros Hf. induction l as [|a l IH]; intros ln Hd Hl; [done|]. apply Forall_cons in Hd as [Ha Hd]. cbn.
  apply IH; [done|]. destruct (Hf ln a) as [-> | ->]; [done|]. by apply force_attr_good.
Qed.

Lemma process_attrs_good r l n :
  Forall (attr_good (Some r)) l.1 → Forall (attr_good (Some r)) (process_attrs r l n).1.1.1.
Proof.
  intros Hl. unfold process_attrs.
  pose proof (fold_force_good r force_attr ltac:(by right) (reverse (default [] (attributesForced r))) (l, n)) as H1.
  destruct (fold_left force_attr _ _) as [l1 n1].
  pose proof (fold_force_good r default_attr) as H2.
  specialize (H2 ltac:(intros ln a; unfold default_attr; case_match; auto) (reverse (default [] (attributesDefault r))) (l1, n1)).
  destruct (fold_left default_attr _ _) as [l2 n2]. cbn in *.
  apply H2; [|apply H1; [|done]]; apply Forall_reverse, Forall_forall; intros a Ha; unfold declared;
    rewrite fmap_app; set_solver.
Qed.

(** What the start call of a tag carries; [strict]: its attributes were validated. *)
Definition start_good (strict : bool) (e : event) : Prop :=
  match e with
  | EStart tag (Some l) _ =>
      (validate cfg = true → is_Some (elementRule tag))
      ∧ ∃ r, (∀ r', r = Some r' → elementRule tag = Some r') ∧ (strict = true → is_Some r) ∧ Forall (attr_good r) l
  | _ => True
  end.

Definition state_good (strict : bool) (st : sax) : Prop :=
  Forall (start_good strict) (out st) ∧ (strict = true → isInternalElement st = false).

Lemma state_good_emit strict es st : Forall (start_good strict) es → state_good strict st → state_good strict (emit es st).
Proof. intros He [Ho Hi]. split; [|done]. cbn. by apply Forall_app. Qed.

Lemma state_good_end strict name st : state_good strict st → state_good strict (processEndTag name st).
Proof.
  intros Hst. unfold processEndTag. destruct (cut_stack name (stack st)) as [[up s]|]; [|done].
  change (state_good strict (emit (closing up) st)). apply state_good_emit; [|done].
  unfold closing. apply Forall_fmap, Forall_forall. done.
Qed.

Lemma open_element_good strict value r attribs st valid st' :
  (validate cfg = true → is_Some (elementRule value)) →
  (∀ r', r = Some r' → elementRule value = Some r') →
  (strict = true → validate cfg = true ∧ is_Some r
     ∧ ∀ a, attribs = Some a → contains (js "data-mce-type") a = false) →
  state_good strict st →
  open_element nativeDecode cfg value r attribs st = Some (valid, st') → state_good strict st'.
Proof.
  intros Hrule Hr Hs [Ho Hi]. unfold open_element.
  set (internal := match attribs with Some _ => _ | None => _ end).
  set (st1 := set_attribs internal attribs st).
  assert (strict = true → isInternalElement st1 = false) as Hi1.
  { intros E. destruct (Hs E) as (_ & _ & Ha). subst st1 internal. cbn. destruct attribs; [by apply Ha|by apply Hi]. }
  destruct (parse_attributes _ _ _ attribs) as [l|] eqn:El; [|done]. cbn [mbind option_bind].
  apply parse_attributes_good in El.
  set (res := match r with Some _ => _ | None => _ end).
  assert (Forall (attr_good (if validating cfg st1 then r else None)) res.1.1.1) as Hres.
  { subst res. destruct r as [r|]; [|by destruct (validating cfg st1)].
    destruct (validating cfg st1); [by apply process_attrs_good|done]. }
  destruct res as [[l' n] ok]. cbn [fst] in Hres. intros E.
  assert (start_good strict (EStart value (Some l'.1) (Obj.has value shortEndedElements))) as He.
  { split; [done|]. exists (if validating cfg st1 then r else None). split_and!; [intros r'; destruct (validating cfg st1); [apply Hr|done]| |done].
    intros Est. destruct (Hs Est) as (Hv & Hr' & _). unfold validating. by rewrite Hv, (Hi1 Est). }
  destruct (_ && ok); injection E as _ <-; split; try done. cbn. apply Forall_app; split; [done|]. by apply Forall_singleton.
Qed.

Lemma starts_with_app k s t : starts_with k s = true → starts_with k (s ++ t) = true.
Proof.
  revert s. induction k as [|c k IH]; intros [|d s]; try done. cbn. intros [-> Hs]%andb_true_iff. by apply IH.
Qed.

Lemma contains_cons k c s : contains k s = true → contains k (c :: s) = true.
Proof.
  unfold contains. cbn [index_of]. destruct (starts_with k (c :: s)); [done|]. by destruct (index_of k s).
Qed.

Lemma contains_app_l k s t : contains k s = true → contains k (s ++ t) = true.
Proof.
  induction s as [|c s IH]; intros Hs.
  - destruct k; [by destruct t|done].
  - cbn [app]. unfold contains in Hs. cbn [index_of] in Hs. destruct (starts_with k (c :: s)) eqn:E.
    + unfold contains. apply (starts_with_app _ _ t) in E. cbn [index_of]. cbn [app] in E. by rewrite E.
    + apply contains_cons, IH. unfold contains. by destruct (index_of k s).
Qed.

Lemma contains_factor k u s : factor u s → contains k s = false → contains k u = false.
Proof.
  intros (a & b & ->) Hs. apply not_true_iff_false. intros Hu%(contains_app_l _ _ b).
  apply not_true_iff_false in Hs. apply Hs. clear Hs. induction a as [|c a IH]; [done|]. by apply contains_cons.
Qed.

Lemma group_text_factor r p s m n u : exec_from r p s = Some m → group_text n m = Some u → factor u s.
Proof.
  intros Hm Hu. apply (group_factor r p s m n u); [done|]. unfold group_text in Hu.
  destruct (group n m) as [[|c t]|]; [done| |done]. exact Hu.
Qed.

(** The attributes of every tag are validated when the parser validates and no
    tag of the document can be an internal one. *)
Definition all_validated (html : jstr) : bool := validate cfg && negb (contains (js "data-mce-type") html).

Lemma on_start_good html p s m v st p' s' st' :
  factor s html → exec_from tokenRegExp p s = Some m →
  on_start nativeDecode cfg v m st = Some (p', s', st') →
  state_good (all_validated html) st → state_good (all_validated html) st'.
Proof.
  intros Hf Hm E Hst. unfold on_start in E.
  destruct (start_tag nativeDecode cfg v m st) as [[valid st1]|] eqn:Es; [|done]. cbn in E.
  assert (state_good (all_validated html) (close_same cfg v st)) as Hc.
  { destruct (close_same_cases cfg v st) as [-> | ->]; [done|]. by apply state_good_end. }
  assert (state_good (all_validated html) st1) as H1.
  { unfold start_tag in Es. destruct (validate cfg) eqn:Ev.
    - destruct (elementRule v) as [r|] eqn:Er; [|by injection Es as _ <-].
      eapply open_element_good, Es; [by rewrite Er|by intros r' [= <-]| |done]. intros Hs. split_and!; [done|done|].
      intros a Ha%(group_text_factor _ _ _ _ _ _ Hm). unfold all_validated in Hs.
      apply andb_true_iff in Hs as [_ Hs]. apply negb_true_iff in Hs.
      eapply contains_factor; [|exact Hs]. by eapply factor_trans.
    - eapply open_element_good, Es; [by rewrite Ev|done| |done]. unfold all_validated. by rewrite Ev. }
  destruct (Obj.get v specialElements) as [r|].
  - injection E as E. unfold raw_element in E.
    destruct (match exec_from r _ _ with Some _ => _ | None => _ end) as [[t q] s1]. injection E as _ _ <-.
    destruct valid; [|done]. apply state_good_emit; [|done]. by destruct (truthy t); repeat constructor.
  - destruct (Obj.is_proto v); [done|]. injection E as _ _ <-. unfold push_element.
    destruct (Obj.has v shortEndedElements); [done|]. destruct (slash_ended st1); [|done].
    destruct valid; [|done]. by apply state_good_emit; [repeat constructor|].
Qed.

Lemma parse_good html es : parse nativeDecode cfg html = Some es → Forall (start_good (all_validated html)) es.
Proof.
  unfold parse. destruct (tokens _ _ _ _ _ _) as [st|] eqn:E; [|done]. intros [= <-].
  assert (state_good (all_validated html) st) as [Ho _].
  { eapply (tokens_inv nativeDecode cfg html (state_good (all_validated html))); [| |apply factor_refl| |exact E].
    - intros p s m st0 p' s' st' Hf Hm Hst Et%on_token_cases.
      destruct Et as [-> |[(name & ->)|[(e & He & ->)|(v & _ & Es)]]].
      + done.
      + by apply state_good_end.
      + apply state_good_emit; [|done]. apply Forall_singleton. by destruct e.
      + by eapply on_start_good.
    - intros t st0 Hst. destruct t; [done|]. apply state_good_emit; [|done]. by apply Forall_singleton.
    - by split. }
  apply Forall_app; split; [done|]. unfold closing. apply Forall_fmap, Forall_forall. done.
Qed.
End Attributes.

(** C25: Unless script addresses are allowed, no start call hands on an address
    attribute (src or href) of the document whose value, with white space and controls removed and decoded, is
    a script address: such a value can only be one the schema itself forces or gives by default. *)
Theorem parse_no_script_urls (nativeDecode : jstr -> jstr) `{ParserSchema} (cfg : settings) (html tag name value : jstr)
    (es : list event) (l : list (jstr * jstr)) (b : bool) :
  parse nativeDecode cfg html = Some es → allow_script_urls cfg = false →
  EStart tag (Some l) b ∈ es → (name, value) ∈ l → name = js "src" ∨ name = js "href" →
  script_url value = false ∨ ∃ r, elementRule tag = Some r ∧ declared r name.
Proof.
  intros Hp Ha He Hl Hn. apply parse_good in Hp. rewrite Forall_forall in Hp.
  destruct (Hp _ He) as (_ & r & Hr & _ & Hg). rewrite Forall_forall in Hg.
  destruct (Hg _ Hl) as [(r' & -> & Hd)|[Hb _]]; [right; by eauto|left].
  unfold blocked in Hb. cbn [fst snd] in Hb. rewrite Ha in Hb.
  assert (Obj.has name filteredUrlAttrs = true) as Hh by (by destruct Hn as [-> | ->]). by rewrite Hh in Hb.
Qed.

(** C26: When the parser validates, every start call is for an element the schema has a rule for; and in a document that does not
    name the internal type data-mce-type, which exempts a tag from validation, each of its attributes is a data attribute, one
    the rule allows with that value, or one the rule forces or gives by default. *)
Theorem parse_valid (nativeDecode : jstr -> jstr) `{ParserSchema} (cfg : settings) (html tag : jstr)
    (es : list event) (l : list (jstr * jstr)) (b : bool) :
  parse nativeDecode cfg html = Some es → validate cfg = true → EStart tag (Some l) b ∈ es →
  ∃ r, elementRule tag = Some r ∧ (contains (js "data-mce-type") html = false →
    ∀ name value, (name, value) ∈ l →
      starts_with (js "data-") name = true ∨ attr_allowed r name value = Some true ∨ declared r name).
Proof.
  intros Hp Hv He. apply parse_good in Hp. rewrite Forall_forall in Hp.
  destruct (Hp _ He) as (Hrule & r & Hr & Hs & Hg). destruct (Hrule Hv) as [r' Er']. exists r'. split; [done|].
  intros Hc name value Hin. unfold all_validated in Hs. rewrite Hv, Hc in Hs. destruct (Hs eq_refl) as [r0 ->].
  rewrite (Hr r0 eq_refl) in Er'. injection Er' as ->. rewrite Forall_forall in Hg.
  destruct (Hg _ Hin) as [(r'' & [= <-] & Hd)|[_ Hp']]; [by right; right|]. destruct (Hp' r' eq_refl) as [?|?]; [by left|by right; left].
Qed.

(** ** The parser ends and returns *)
Section Total.
Context (nativeDecode : jstr -> jstr) `{ParserSchema} (cfg : settings).

(** No name every object inherits occurs in the text. *)
Definition no_inherited_names (html : jstr) : bool :=
  forallb (λ k, negb (contains k (to_lower html))) Obj.proto_names.

Lemma factor_contains k s : factor k s → contains k s = true.
Proof.
  intros (a & b & ->). destruct (contains k (a ++ k ++ b)) eqn:E; [done|].
  assert (contains k k = true) as Hk.
  { unfold contains. destruct k as [|c k]; [done|]. cbn [index_of].
    assert (starts_with (c :: k) (c :: k) = true) as ->; [|done].
    generalize (c :: k). induction l as [|d l IH]; [done|]. cbn. by rewrite Z.eqb_refl. }
  assert (contains k k = false) as Hf by (eapply contains_factor; [|exact E]; by exists a, b). congruence.
Qed.

Lemma lower_name_factor v html : factor v html → factor (lower_name v) (to_lower html).
Proof.
  intros (a & b & ->). unfold lower_name, to_lower. rewrite !fmap_app.
  assert (factor match lower_unit <$> v with c :: v' => if c =? 58 then v' else c :: v' | [] => [] end
    (lower_unit <$> v)) as Hf.
  { destruct (lower_unit <$> v) as [|c t]; [apply factor_refl|].
    destruct (c =? 58); [exists [c], []; by rewrite app_nil_r|apply factor_refl]. }
  eapply factor_trans; [exact Hf|]. by exists (lower_unit <$> a), (lower_unit <$> b).
Qed.

Lemma not_inherited html v : no_inherited_names html = true → factor v html → Obj.is_proto (lower_name v) = false.
Proof.
  unfold no_inherited_names. rewrite forallb_forall. intros Hn Hf%lower_name_factor%factor_contains.
  unfold Obj.is_proto. apply bool_decide_eq_false. intros Hin%list_elem_of_In.
  specialize (Hn _ Hin). by rewrite Hf in Hn.
Qed.

Context (Hrules : ∀ v r, Obj.is_proto v = false → elementRule v = Some r → is_Some (attributes r)).

Lemma parse_attributes_total r attribs : (∀ r', r = Some r' → is_Some (attributes r')) →
  is_Some (parse_attributes nativeDecode cfg r attribs).
Proof using Type.
  intros Hr. unfold parse_attributes. destruct attribs as [a|]; [|done].
  generalize (@nil (jstr * jstr), @nil (jstr * jstr)) as l.
  induction (all_matches attrRegExp a) as [|m ms IH]; intros l; [done|]. cbn [fold_left].
  assert (∃ l', parseAttribute nativeDecode cfg r (Some l) m = Some l') as [l' ->]; [|apply IH].
  unfold parseAttribute. cbn [mbind option_bind]. destruct r as [r|]; [|by cbn; case_match; eauto].
  destruct (starts_with _ _); [by cbn; case_match; eauto|].
  unfold attr_allowed, attr_rule_of. destruct (Hr r eq_refl) as [at_ ->]. cbn. case_match; eauto.
Qed.

Lemma open_element_total v r attribs st : (∀ r', r = Some r' → is_Some (attributes r')) →
  is_Some (open_element nativeDecode cfg v r attribs st).
Proof using Type.
  intros Hr. unfold open_element. set (st1 := set_attribs _ _ _).
  destruct (parse_attributes_total (if validating cfg st1 then r else None) attribs) as [l ->].
  { intros r'. destruct (validating cfg st1); [apply Hr|done]. }
  cbn [mbind option_bind]. destruct (match r with Some _ => _ | None => _ end) as [[l' n] ok]. case_match; done.
Qed.

Lemma on_token_total html p s m st : no_inherited_names html = true → factor s html →
  exec_from tokenRegExp p s = Some m → is_Some (on_token nativeDecode cfg m st).
Proof using Hrules.
  intros Hn Hf Hm. unfold on_token.
  destruct (group_text 6 m); [done|]. destruct (group_text 7 m) as [v|] eqn:Ev; [|by repeat case_match].
  assert (Obj.is_proto (lower_name v) = false) as Hv.
  { eapply not_inherited; [done|]. eapply factor_trans; [|exact Hf]. by eapply group_text_factor. }
  unfold on_start. assert (is_Some (start_tag nativeDecode cfg (lower_name v) m st)) as [[valid st1] ->].
  { unfold start_tag. destruct (validate cfg); [|by apply open_element_total].
    destruct (elementRule (lower_name v)) as [r|] eqn:Er; [|done].
    apply open_element_total. intros r' [= <-]. by eapply Hrules. }
  cbn [mbind option_bind]. destruct (Obj.get _ _); [done|]. by rewrite Hv.
Qed.

Lemma tokens_total html : no_inherited_names html = true →
  ∀ n p s st, (length s < n)%nat → factor s html → is_Some (tokens nativeDecode cfg n p s st).
Proof using Hrules.
  intros Hn. induction n as [|n IH]; intros p s st Hl Hf; [lia|]. cbn [tokens].
  destruct (exec_from tokenRegExp p s) as [m|] eqn:Em; [|done].
  edestruct on_token_total as [[[p' s'] st'] Et]; [done|exact Hf|exact Em|]. rewrite Et. cbn [mbind option_bind].
  apply on_token_after in Et as [u Hu]. destruct (token_nonempty _ _ _ Em) as [t Ht].
  apply exec_after in Em as (pre & Es & _). rewrite Ht, Hu in Es. apply IH.
  - rewrite Es, !length_app in Hl. cbn [length] in Hl. lia.
  - eapply factor_trans; [|exact Hf]. rewrite Es. exists (pre ++ (60 :: t) ++ u), [].
    by rewrite app_nil_r, <- !app_assoc.
Qed.
End Total.

(** C10: The parser returns for every document, however malformed, in which no name
    inherited by all objects occurs: the loop ends, because every token is at least one unit long, and
    no step throws when the rules of the schema have attributes. *)
Theorem parse_total (nativeDecode : jstr -> jstr) `{ParserSchema} (cfg : settings) (html : jstr) :
  (∀ v r, Obj.is_proto v = false → elementRule v = Some r → is_Some (attributes r)) →
  no_inherited_names html = true → is_Some (parse nativeDecode cfg html).
Proof.
  intros Hr Hn. unfold parse.
  destruct (tokens_total nativeDecode cfg Hr html Hn (S (length html)) 0 html init) as [st ->];
    [lia|apply factor_refl|done].
Qed.

(** ** The default schema *)
Definition sample_parser : ParserSchema := schema_parser default_schema.1 default_schema.2.
Definition no_entities : jstr -> jstr := λ x, x.
Definition sample_html : jstr :=
  js "a<p id=x onclick=1><b>y</p>z<li>1<li>2<br/><script>if(a<b)</script><!--c--><img src='java script:a'>".

Definition sample_parse (html : string) : option (list event) :=
  parse no_entities (H := sample_parser) cfg0 (js html).

(** No raw-text element of the schema is an empty one. *)
Definition specials_decided (P : ParserSchema) : bool :=
  forallb (λ p, negb (Obj.has p.1 (@shortEndedElements P))) (@specialElements P).

Lemma specials_ok (P : ParserSchema) : specials_decided P = true →
  ∀ v r, Obj.get v (@specialElements P) = Some r → Obj.has v (@shortEndedElements P) = false.
Proof.
  unfold specials_decided. rewrite forallb_forall. intros Hs v r E%Obj.get_Some_elem%list_elem_of_In.
  apply negb_true_iff. exact (Hs (v, r) E).
Qed.

Definition rules_decided (s : schema) : bool :=
  forallb (λ p, if attributes p.2 is Some _ then true else false) (s_elements s)
  && forallb (λ r, if attributes r is Some _ then true else false) (s_patterns s).

Lemma last_match_elem ps v r : last_match ps v = Some r → r ∈ ps.
Proof.
  induction ps as [|p ps IH]; [done|]. cbn. destruct (last_match ps v) as [r'|].
  - intros [= ->]. right. by apply IH.
  - destruct (pattern p); [|done]. destruct (test _ _); [|done]. intros [= ->]. by left.
Qed.

Lemma rules_ok s sh : rules_decided s = true →
  ∀ v r, Obj.is_proto v = false → @elementRule (schema_parser s sh) v = Some r → is_Some (attributes r).
Proof.
  unfold rules_decided. rewrite andb_true_iff, !forallb_forall. intros [He Hp] v r Hv E.
  cbn in E. unfold getElementRule in E. rewrite Hv in E.
  destruct (Obj.get v (s_elements s)) as [r'|] eqn:Eg.
  - injection E as ->. apply Obj.get_Some_elem, list_elem_of_In in Eg. specialize (He _ Eg). cbn in He.
    by destruct (attributes r).
  - apply last_match_elem, list_elem_of_In in E. specialize (Hp _ E). by destruct (attributes r).
Qed.

Definition sample_events : list event :=
  Eval vm_compute in default [] (parse no_entities (H := sample_parser) cfg0 sample_html).

Lemma sample_parsed : parse no_entities (H := sample_parser) cfg0 sample_html = Some sample_events.
Proof. vm_compute. reflexivity. Qed.

Lemma parse_balanced_witness : length sample_events = 19%nat ∧ balanced [] sample_events = Some [].
Proof.
  split; [reflexivity|].
  apply (@parse_balanced no_entities sample_parser cfg0 sample_html sample_events); [|exact sample_parsed].
  apply specials_ok. vm_compute. reflexivity.
Defined.

Lemma parse_total_witness : is_Some (parse no_entities (H := sample_parser) cfg0 sample_html).
Proof.
  apply (@parse_total no_entities sample_parser cfg0 sample_html).
  - apply rules_ok. vm_compute. reflexivity.
  - vm_compute. reflexivity.
Defined.

(** The start call of the first paragraph of the sample: the event attribute is gone. *)
Definition p_start : event := EStart (js "p") (Some [(js "id", js "x")]) false.

Lemma p_start_in : p_start ∈ sample_events.
Proof. vm_compute. right. left. Qed.

Lemma parse_valid_witness :
  ∃ r, @elementRule sample_parser (js "p") = Some r
    ∧ ∀ name value, (name, value) ∈ [(js "id", js "x")] →
        starts_with (js "data-") name = true ∨ attr_allowed r name value = Some true ∨ declared r name.
Proof.
  destruct (@parse_valid no_entities sample_parser cfg0 sample_html (js "p") sample_events [(js "id", js "x")] false
    sample_parsed eq_refl p_start_in) as (r & Er & Hl).
  exists r. split; [exact Er|]. apply Hl. vm_compute. reflexivity.
Defined.

Definition link_html : jstr := js "<a href=' page.html'>x</a>".
Definition link_events : list event :=
  Eval vm_compute in default [] (parse no_entities (H := sample_parser) cfg0 link_html).

Lemma parse_no_script_urls_witness :
  script_url (js "java	scr%69pt:x") = true
  ∧ (script_url (js " page.html") = false
     ∨ ∃ r, @elementRule sample_parser (js "a") = Some r ∧ declared r (js "href")).
Proof.
  split; [vm_compute; reflexivity|].
  apply (@parse_no_script_urls no_entities sample_parser cfg0 link_html (js "a") (js "href") (js " page.html")
    link_events [(js "href", js " page.html")] false).
  - vm_compute. reflexivity.
  - reflexivity.
  - vm_compute. left.
  - left.
  - right. reflexivity.
Defined.

(** ** Variables that outlive a tag *)
(** The mark of an internal element is not cleared by a tag without attributes: the
    default schema drops a span without attributes, but keeps it after any element with an internal type,
    because its validation is skipped. *)
Theorem internal_mark_outlives_tag :
  sample_parse "<span>t</span>" = Some [EText (js "t") false]
  ∧ sample_parse "<b data-mce-type='x'>u</b><span>t</span>"
    = Some [EStart (js "b") (Some [(js "data-mce-type", js "x")]) false; EText (js "u") false; EEnd (js "b");
            EStart (js "span") (Some []) false; EText (js "t") false; EEnd (js "span")].
Proof. split; vm_compute; reflexivity. Qed.

(** A tag counts as closing itself only when the first slash of its attributes is
    their last unit: with a slash inside an attribute value the element stays open and takes in what follows. *)
Theorem slash_in_value_keeps_open :
  sample_parse "<p title='ab'/>x"
    = Some [EStart (js "p") (Some [(js "title", js "ab")]) false; EEnd (js "p"); EText (js "x") false]
  ∧ sample_parse "<p title='a/b'/>x"
    = Some [EStart (js "p") (Some [(js "title", js "a/b")]) false; EText (js "x") false; EEnd (js "p")].
Proof. split; vm_compute; reflexivity. Qed.

(** The name constructor, which every object inherits, passes every lookup of the
    schema and is then taken for a regular expression: a document with such an element makes the parser throw. *)
Theorem inherited_name_throws : sample_parse "a<constructor>b" = None ∧ is_Some (sample_parse "a<construct>b").
Proof. split; [vm_compute; reflexivity|]. vm_compute. eexists. reflexivity. Qed.
