(* ===== verification/DomParser.v ===== *)
(** * classes/html/DomParser.js

    The handlers that build a node tree from the calls of the tokenizer, the repair of
    invalid children, the root blocks and the filters.  The state holds the store of
    nodes and the variables the handlers share; [None] is an exception. *)

From S2P Require Import Prelude Regexp Tools Schema SaxParser Writer Node.

(** ** Data *)
(** What the parser asks of a schema, besides what the tokenizer does. *)
Class DomSchema := {
  sax_schema :: ParserSchema;
  d_block : nameset;
  d_nonEmpty : nameset;
  d_textBlock : nameset;
  d_whiteSpace : nameset;
  d_children : jstr -> option nameset
}.

(** The schema object of the library; an inherited name finds a function. *)
Definition schema_dom (s : schema) (sh : shared) : DomSchema := {|
  sax_schema := schema_parser s sh;
  d_block := Schema.deref sh (blockElementsMap s);
  d_nonEmpty := Schema.deref sh (nonEmptyElementsMap s);
  d_textBlock := Schema.deref sh (textBlockElementsMap s);
  d_whiteSpace := Schema.deref sh (whiteSpaceElementsMap s);
  d_children := λ name,
    match Obj.get name (children s) with
    | Some r => Some (Schema.deref sh r)
    | None => if Obj.is_proto name then Some [] else None
    end
|}.

(** A filter: one of the two the parser adds itself, or one of the caller's. *)
Inductive filter := FTrailingBr | FNamedAnchor | FUser (n : nat).

Record settings := Settings {
  validate : bool;
  root_name : jstr;
  allow_script_urls : bool;
  allow_conditional_comments : bool;
  forced_root_block : option jstr;
  forced_root_block_attrs : list (jstr * attr_arg);
  remove_trailing_brs : bool;
  allow_html_in_named_anchor : bool
}.

Record args := Args {
  context : option jstr;
  arg_root_block : option (option jstr);
  isRootContent : bool
}.

(** The filters of a parser. *)
Record filters := Filters {
  nodeFilters : Obj.t (list filter);
  attributeFilters : list (jstr * list filter)
}.

(** The variables of one run; [cur] is the variable [node].  [listLevels] holds the property [_listLevel]
    that a caller's filter, the one of the paste plug-in, puts on nodes; the parser does not look at it. *)
Record dst := Dst {
  d_heap : heap;
  cur : option Node.ref;
  inPre : bool;
  invalidChildren : list Node.ref;
  matchedNodes : Obj.t (list Node.ref);
  matchedAttributes : Obj.t (list Node.ref);
  listLevels : gmap Node.ref Z
}.
Abbreviation DM := (SE dst).

Definition with_heap (h : heap) (d : dst) : dst :=
  Dst h (cur d) (inPre d) (invalidChildren d) (matchedNodes d) (matchedAttributes d) (listLevels d).
Definition set_cur (c : option Node.ref) (d : dst) : dst :=
  Dst (d_heap d) c (inPre d) (invalidChildren d) (matchedNodes d) (matchedAttributes d) (listLevels d).
Definition set_inPre (b : bool) (d : dst) : dst :=
  Dst (d_heap d) (cur d) b (invalidChildren d) (matchedNodes d) (matchedAttributes d) (listLevels d).
Definition add_invalid (r : Node.ref) (d : dst) : dst :=
  Dst (d_heap d) (cur d) (inPre d) (invalidChildren d ++ [r]) (matchedNodes d) (matchedAttributes d) (listLevels d).
Definition set_matched (m : Obj.t (list Node.ref)) (d : dst) : dst :=
  Dst (d_heap d) (cur d) (inPre d) (invalidChildren d) m (matchedAttributes d) (listLevels d).
Definition set_matchedAttributes (m : Obj.t (list Node.ref)) (d : dst) : dst :=
  Dst (d_heap d) (cur d) (inPre d) (invalidChildren d) (matchedNodes d) m (listLevels d).

(** A step on the store. *)
Definition lift {A} (m : HM A) : DM A := λ d, (λ p, (p.1, with_heap p.2 d)) <$> m (d_heap d).
Definition field {A} (r : Node.ref) (f : node -> A) : DM A := lift (n ← Node.deref r; mret (f n)).
Definition current : DM Node.ref := λ d, (λ r, (r, d)) <$> cur d.
Definition nodes_count : DM nat := λ d, Some (size (d_heap d), d).

Definition set_name (nm : jstr) (n : node) : node :=
  MkNode nm (type n) (Node.attributes n) (value n) (shortEnded n) (raw n) (fixed n)
    (parent n) (firstChild n) (lastChild n) (next n) (prev n).
Definition set_raw (b : bool) (n : node) : node :=
  MkNode (Node.name n) (type n) (Node.attributes n) (value n) (shortEnded n) b (fixed n)
    (parent n) (firstChild n) (lastChild n) (next n) (prev n).
Definition set_fixed (b : bool) (n : node) : node :=
  MkNode (Node.name n) (type n) (Node.attributes n) (value n) (shortEnded n) (raw n) b
    (parent n) (firstChild n) (lastChild n) (next n) (prev n).

(** [list.push(node)] on the array at that key, made when it is missing; the
    method found under an inherited name has no [push]. *)
Definition push_at (k : jstr) (r : Node.ref) (m : Obj.t (list Node.ref)) : option (Obj.t (list Node.ref)) :=
  match Obj.get k m with
  | Some l => Some (Obj.set k (l ++ [r]) m)
  | None => if Obj.is_proto k then None else Some (Obj.set k [r] m)
  end.

Definition push_matched (k : jstr) (r : Node.ref) : DM unit :=
  m ← gets matchedNodes; m ← oget (push_at k r m); modify (set_matched m).
Definition push_matched_attribute (k : jstr) (r : Node.ref) : DM unit :=
  m ← gets matchedAttributes; m ← oget (push_at k r m); modify (set_matchedAttributes m).

(** ** White space *)
Definition trim_start (t : jstr) : jstr := trim_left_by is_wsp t.
Definition trim_end (t : jstr) : jstr := trim_right_by is_wsp t.
(** [text.replace(/[ \t\r\n]+/g, ' ')] *)
Definition collapse (t : jstr) : jstr := replace_all (RPlus (RSet is_wsp)) (λ _, [32]) t.
Definition all_space (t : jstr) : bool := truthy t && forallb is_wsp t.

Definition is_text (n : node) : bool := bool_decide (type n = TNum 3).
(** [node.value], where a method of it is called at once. *)
Definition text_value (r : Node.ref) : DM jstr := v ← field r value; oget v.

Section DomParser.
Context `{DomSchema} (cfg : settings) (fs : filters).

Definition blockElements : nameset := extend (makeMap (js "script,style,head,html,body,title,meta,param") 44 []) d_block.

Definition isValidChild (name child : jstr) : bool :=
  match d_children name with Some m => Obj.has child m | None => false end.

(** [validate ? schema.getElementRule(name) : {}] *)
Definition rule_of (name : jstr) : option rule :=
  if validate cfg then elementRule name else Some empty_rule.

(** [createNode(name, type)] *)
Definition createNode (name : jstr) (type : ntype) : DM Node.ref :=
  r ← lift (alloc (new_node name type));
  (if Obj.has name (nodeFilters fs) then push_matched name r else mret tt);;
  mret r.

Definition set_value_of (r : Node.ref) (v : jstr) : DM unit := lift (upd r (set_value (Some v))).

(** [node.append(createNode(name, type)).value = text] *)
Definition append_new (name : jstr) (type : ntype) (text : option jstr) : DM Node.ref :=
  p ← current;
  r ← createNode name type;
  lift (append p r);;
  lift (upd r (set_value text));;
  mret r.

(** The loop over the text nodes before a node: trimmed at the end, or
    removed when nothing is left. *)
Fixpoint trim_before (fuel : nat) (textNode : option Node.ref) : DM unit :=
  match fuel, textNode with
  | _, None => mret tt
  | O, Some _ => throw
  | S n, Some r =>
      b ← field r is_text;
      if (b : bool) then
        v ← text_value r;
        sibling ← field r prev;
        (if truthy (trim_end v) then set_value_of r (trim_end v) else lift (remove r);; mret tt);;
        trim_before n sibling
      else mret tt
  end.

Definition removeWhitespaceBefore (r : Node.ref) : DM unit :=
  t ← field r prev; n ← nodes_count; trim_before n t.

(** ** The handlers *)
Definition on_cdata (text : option jstr) : DM unit := append_new (js "#cdata") (TNum 4) text;; mret tt.
Definition on_comment (text : option jstr) : DM unit := append_new (js "#comment") (TNum 8) text;; mret tt.
Definition on_pi (name : jstr) (text : option jstr) : DM unit :=
  append_new name (TNum 7) text;; c ← current; removeWhitespaceBefore c.
Definition on_doctype (text : option jstr) : DM unit :=
  append_new (js "#doctype") (TNum 10) text;; c ← current; removeWhitespaceBefore c.

Definition after_block (p : Node.ref) : DM bool :=
  l ← field p lastChild;
  match l with
  | Some l => nm ← field l Node.name; mret (Obj.has nm blockElements)
  | None => mret false
  end.

Definition on_text (text : jstr) (is_raw : bool) : DM unit :=
  p ← current;
  pre ← gets inPre;
  text ← (if (pre : bool) then mret text
          else b ← after_block p; mret (if (b : bool) then trim_start (collapse text) else collapse text));
  match text with
  | [] => mret tt
  | _ =>
      r ← createNode (js "#text") (TNum 3);
      lift (upd r (set_raw is_raw));;
      lift (append p r);;
      set_value_of r text
  end.

Definition attrs_of (l : list (jstr * jstr)) : attrs := Attrs l (fold_left (λ m p, Obj.set p.1 p.2 m) l []).

(** The attribute filters an element takes part in. *)
Fixpoint match_attributes (names : list jstr) (m : Obj.t jstr) (r : Node.ref) : DM unit :=
  match names with
  | [] => mret tt
  | nm :: names => (if Obj.has nm m then push_matched_attribute nm r else mret tt);; match_attributes names m r
  end.

Definition filter_names : list jstr := (attributeFilters fs).*1.

(** An element that may not be a child of its parent; unknown ones are left alone. *)
Definition is_invalid_child (parent_name name : jstr) : bool :=
  match d_children parent_name, d_children name with
  | Some m, Some _ => negb (Obj.has name m)
  | _, _ => false
  end.

Definition on_start (name : jstr) (l : list (jstr * jstr)) (is_empty : bool) : DM unit :=
  match rule_of name with
  | None => mret tt
  | Some rl =>
      let nm := match outputName rl with Some (c :: o) => c :: o | _ => name end in
      r ← createNode nm (TNum 1);
      lift (upd r (set_attributes (Some (attrs_of l))));;
      lift (upd r (set_shortEnded is_empty));;
      p ← current;
      lift (append p r);;
      pn ← field p Node.name;
      modify (λ d, if is_invalid_child pn nm then add_invalid r d else d);;
      match_attributes (reverse filter_names) (amap (attrs_of l)) r;;
      (if Obj.has name blockElements then removeWhitespaceBefore r else mret tt);;
      (if is_empty then mret tt else modify (set_cur (Some r)));;
      modify (λ d, if negb (inPre d) && Obj.has name d_whiteSpace then set_inPre true d else d)
  end.

(** Pure white space siblings of a removed text node, on either side. *)
Fixpoint drop_space (fuel : nat) (fwd : bool) (textNode : option Node.ref) : DM unit :=
  match fuel, textNode with
  | _, None => mret tt
  | O, Some _ => throw
  | S n, Some r =>
      b ← field r is_text;
      if (b : bool) then
        v ← text_value r;
        sibling ← field r (if fwd then next else prev);
        (if negb (truthy v) || all_space v then lift (remove r);; mret tt else mret tt);;
        drop_space n fwd sibling
      else mret tt
  end.

(** The white space at one end of the current element. *)
Definition trim_side (fwd : bool) (node : Node.ref) : DM unit :=
  t ← field node (if fwd then firstChild else lastChild);
  match t with
  | None => mret tt
  | Some r =>
      b ← field r is_text;
      if (b : bool) then
        v ← text_value r;
        let text := if fwd then trim_start v else trim_end v in
        if truthy text then set_value_of r text
        else
          sibling ← field r (if fwd then next else prev);
          lift (remove r);;
          n ← nodes_count;
          drop_space n fwd sibling
      else mret tt
  end.

Definition nbsp : jstr := [160].

(** An empty element is padded, or removed unless it is named: then the parent becomes the current node. *)
Definition on_empty (rl : rule) (node : Node.ref) : DM unit :=
  p ← field node parent;
  e ← (if removeEmpty rl || paddEmpty rl then lift (isEmpty node d_nonEmpty) else mret false);
  if (e : bool) then
    if paddEmpty rl then
      lift (empty node);;
      t ← lift (alloc (new_node (js "#text") (TStr (js "3"))));
      lift (append node t);;
      set_value_of t nbsp;;
      modify (set_cur p)
    else
      a ← field node Node.attributes;
      a ← oget a;
      if map_truthy (js "name") (amap a) || map_truthy (js "id") (amap a) then modify (set_cur p)
      else lift (empty node);; lift (remove node);; modify (set_cur p)
  else modify (set_cur p).

Definition on_end (name : jstr) : DM unit :=
  match rule_of name with
  | None => mret tt
  | Some rl =>
      node ← current;
      pre ← gets inPre;
      (if Obj.has name blockElements && negb pre then trim_side true node;; trim_side false node else mret tt);;
      modify (λ d, if inPre d && Obj.has name d_whiteSpace then set_inPre false d else d);;
      on_empty rl node
  end.

Definition handle (e : event) : DM unit :=
  match e with
  | EStart name l b => on_start name (default [] l) b
  | EEnd name => on_end name
  | EText t r => on_text t r
  | ECdata t => on_cdata t
  | EComment t => on_comment t
  | EPi name t => on_pi name t
  | EDoctype t => on_doctype t
  end.

Fixpoint handle_all (es : list event) : DM unit :=
  match es with [] => mret tt | e :: es => handle e;; handle_all es end.

(** ** Repairing invalid children *)
(** [self.filterNode(node)]: the element filters look the undefined variable
    [name] up; of the attribute filters the last comes first. *)
Definition match_attribute_filters (m : option (Obj.t jstr)) (r : Node.ref) : DM unit :=
  match attributeFilters fs with
  | [] => mret tt
  | _ => m ← oget m; match_attributes (reverse filter_names) m r
  end.

Definition filterNode (r : Node.ref) : DM Node.ref :=
  let undefined := js "undefined" in
  (if Obj.has undefined (nodeFilters fs) then push_matched undefined r else mret tt);;
  a ← field r attributes;
  match_attribute_filters (amap <$> a) r;;
  mret r.

Definition nonSplitableElements : nameset := makeMap (js "tr,td,th,tbody,thead,tfoot,table") 44 [].

(** The text blocks after a text block in a list item become items after
    it; [next] is read after the sibling moved. *)
Fixpoint move_blocks (fuel : nat) (item : Node.ref) (sibling : option Node.ref) : DM unit :=
  match fuel, sibling with
  | _, None => mret tt
  | O, Some _ => throw
  | S n, Some b =>
      nm ← field b name;
      if Obj.has nm d_textBlock then
        lift (upd b (λ n, set_fixed true (set_name (js "li") n)));;
        lift (insert item b item false);;
        nx ← field b next;
        move_blocks n item nx
      else mret tt
  end.

(** The ancestors from the node up to the first that can be its parent or
    must not be split: that one, and those below it, the lowest first. *)
Fixpoint find_parents (fuel : nat) (nm : jstr) (p : option Node.ref) : DM (option Node.ref * list Node.ref) :=
  match fuel, p with
  | _, None => mret (None, [])
  | O, Some _ => throw
  | S n, Some r =>
      pn ← field r name;
      if isValidChild pn nm || Obj.has pn nonSplitableElements then mret (Some r, [])
      else
        up ← field r parent;
        res ← find_parents n nm up;
        mret (res.1, r :: res.2)
  end.

(** The children in front of [stop] move to [target]. *)
Fixpoint move_left (fuel : nat) (target : Node.ref) (childNode : option Node.ref) (stop : Node.ref) : DM unit :=
  match fuel, childNode with
  | _, None => mret tt
  | O, Some _ => throw
  | S n, Some c =>
      if decide (c = stop) then mret tt
      else
        nx ← field c next;
        lift (append target c);;
        move_left n target nx stop
  end.

(** Cloning the parents from the outermost down, with what is on the left of the node. *)
Fixpoint split_left (currentNode : Node.ref) (parents : list Node.ref) : DM unit :=
  match parents with
  | [] => mret tt
  | p :: rest =>
      match rest with
      | [] => mret tt
      | q :: _ =>
          cn ← field currentNode name;
          pn ← field p name;
          tempNode ← (if isValidChild cn pn then
                        t ← lift (clone p); t ← filterNode t; lift (append currentNode t);; mret t
                      else mret currentNode);
          n ← nodes_count;
          c ← field p firstChild;
          move_left n tempNode c q;;
          split_left tempNode rest
      end
  end.

(** The node found a parent above: what is left of it is split off. *)
Definition split_parents (node parent_ top : Node.ref) (parents : list Node.ref) : DM unit :=
  newParent ← lift (clone top);
  newParent ← filterNode newParent;
  split_left newParent parents;;
  e ← lift (isEmpty newParent d_nonEmpty);
  (if (e : bool) then lift (insert parent_ node top true);; mret tt
   else lift (insert parent_ newParent top true);; lift (insert parent_ node newParent false);; mret tt);;
  e ← lift (isEmpty top d_nonEmpty);
  f ← field top firstChild;
  l ← field top lastChild;
  b ← (if (e : bool) then mret true
       else if decide (f = l) then f ← oget f; nm ← field f name; mret (str_eqb nm (js "br"))
       else mret false);
  if (b : bool) then lift (empty top);; lift (remove top);; mret tt else mret tt.

(** No parent above takes the node: a list item joins a list beside it or
    gets one, another node a div, or it is removed or unwrapped. *)
Definition is_list (o : option Node.ref) : DM bool :=
  match o with
  | Some r => nm ← field r name; mret (str_eqb nm (js "ul"))
  | None => mret false
  end.

Definition wrap_in (node : Node.ref) (name : string) : DM unit :=
  w ← lift (alloc (new_node (js name) (TNum 1)));
  w ← filterNode w;
  lift (wrap node w);; mret tt.

Definition wrap_item (node : Node.ref) : DM unit :=
  pv ← field node prev;
  b ← is_list pv;
  if (b : bool) then s ← oget pv; lift (append s node);; mret tt
  else
    nx ← field node next;
    b ← is_list nx;
    if (b : bool) then
      s ← oget nx;
      f ← field s firstChild;
      f ← oget f;
      lift (insert s node f true);; mret tt
    else wrap_in node "ul".

Definition wrap_other (node : Node.ref) (pn nm : jstr) : DM unit :=
  if isValidChild pn (js "div") && isValidChild (js "div") nm then wrap_in node "div"
  else if str_eqb nm (js "style") || str_eqb nm (js "script") then lift (empty node);; lift (remove node);; mret tt
  else lift (unwrap node).

Definition fix_one (node : Node.ref) : DM unit :=
  p ← field node parent;
  fx ← field node fixed;
  match p with
  | None => mret tt
  | Some p =>
      if (fx : bool) then mret tt
      else
        nm ← field node name;
        pn ← field p name;
        n ← nodes_count;
        if Obj.has nm d_textBlock && str_eqb pn (js "li") then
          nx ← field node next;
          move_blocks n p nx;;
          lift (unwrap node)
        else
          res ← find_parents n nm (Some p);
          match res.1, last res.2 with
          | Some parent_, Some top => split_parents node parent_ top (reverse (node :: res.2))
          | _, _ => if str_eqb nm (js "li") then wrap_item node else wrap_other node pn nm
          end
  end.

Fixpoint fixInvalidChildren (nodes : list Node.ref) : DM unit :=
  match nodes with [] => mret tt | r :: nodes => fix_one r;; fixInvalidChildren nodes end.

(** ** Root blocks *)
Definition trim_text (fwd : bool) (o : option Node.ref) : DM unit :=
  match o with
  | None => mret tt
  | Some r =>
      n ← field r type;
      if bool_decide (n = TNum 3) || bool_decide (n = TStr (js "3")) then
        v ← text_value r;
        set_value_of r (if fwd then trim_start v else trim_end v)
      else mret tt
  end.

Definition trim_block (rootBlockNode : option Node.ref) : DM unit :=
  match rootBlockNode with
  | None => mret tt
  | Some b =>
      f ← field b firstChild;
      trim_text true f;;
      l ← field b lastChild;
      trim_text false l
  end.

(** A node that goes into a root block: text, or an inline element that is
    not an internal one. *)
Definition needs_block (r : Node.ref) : DM bool :=
  ty ← field r type;
  if bool_decide (ty = TNum 3) || bool_decide (ty = TStr (js "3")) then mret true
  else if bool_decide (ty = TNum 1) then
    nm ← field r name;
    if str_eqb nm (js "p") || Obj.has nm blockElements then mret false
    else
      t ← lift (attr r (js "data-mce-type") ArgUndefined);
      mret match t with ResVal v => negb (truthy v) | ResUndefined => true | _ => false end
  else mret false.

Fixpoint block_loop (fuel : nat) (root : Node.ref) (block_name : jstr) (node rootBlockNode : option Node.ref) : DM unit :=
  match fuel, node with
  | _, None => trim_block rootBlockNode
  | O, Some _ => throw
  | S n, Some r =>
      nx ← field r next;
      b ← needs_block r;
      if (b : bool) then
        match rootBlockNode with
        | None =>
            k ← createNode block_name (TNum 1);
            lift (attr_items k (forced_root_block_attrs cfg));;
            lift (insert root k r false);;
            lift (append k r);;
            block_loop n root block_name nx (Some k)
        | Some k => lift (append k r);; block_loop n root block_name nx (Some k)
        end
      else trim_block rootBlockNode;; block_loop n root block_name nx None
  end.

Definition addRootBlocks (root : Node.ref) (block_name : jstr) : DM unit :=
  nm ← field root name;
  if isValidChild nm (to_lower block_name) then
    f ← field root firstChild;
    n ← nodes_count;
    block_loop n root block_name f None
  else mret tt.

(** ** Filters *)
(** Whether only line breaks and bookmarks are in front of a trailing br:
    another br there keeps it. *)
Fixpoint br_before (fuel : nat) (pv : option Node.ref) : DM bool :=
  match fuel, pv with
  | _, None => mret false
  | O, Some _ => throw
  | S n, Some r =>
      nm ← field r name;
      bookmark ← (if str_eqb nm (js "span") then
                    t ← lift (attr r (js "data-mce-type") ArgUndefined);
                    mret match t with ResVal v => str_eqb v (js "bookmark") | _ => false end
                  else mret false);
      if negb bookmark && negb (str_eqb nm (js "br")) then mret false
      else if negb bookmark then mret true
      else nx ← field r prev; br_before n nx
  end.

(** From an only child up through only children; true when a block is
    reached that way. *)
Fixpoint only_child_block (fuel : nat) (blocks : nameset) (lastParent : Node.ref) (p : option Node.ref) : DM bool :=
  match fuel, p with
  | _, None => mret false
  | O, Some _ => throw
  | S n, Some q =>
      f ← field q firstChild;
      l ← field q lastChild;
      if decide (f = Some lastParent ∧ l = Some lastParent) then
        nm ← field q name;
        if Obj.has nm blocks then mret true
        else up ← field q parent; only_child_block n blocks q up
      else mret false
  end.

Definition after_br_removed (p : Node.ref) : DM unit :=
  e ← lift (isEmpty p d_nonEmpty);
  nm ← field p name;
  match (if (e : bool) then elementRule nm else None) with
  | Some rl =>
      if removeEmpty rl then lift (remove p);; mret tt
      else if paddEmpty rl then
        lift (empty p);;
        t ← lift (alloc (new_node (js "#text") (TNum 3)));
        lift (append p t);;
        set_value_of t nbsp
      else mret tt
  | None => mret tt
  end.

Definition br_filter1 (r : Node.ref) : DM unit :=
  let blocks := Obj.set (js "body") tt (extend [] d_block) in
  p ← field r parent;
  q ← oget p;
  pn ← field q name;
  l ← field q lastChild;
  n ← nodes_count;
  if Obj.has pn blocks && bool_decide (l = Some r) then
    pv ← field r prev;
    b ← br_before n pv;
    if (b : bool) then mret tt else lift (remove r);; after_br_removed q
  else
    b ← only_child_block n blocks r p;
    if (b : bool) then
      t ← lift (alloc (new_node (js "#text") (TNum 3)));
      set_value_of t nbsp;;
      lift (replace r t);; mret tt
    else mret tt.

(** The children of a named anchor move behind it, the last one first. *)
Fixpoint move_out (fuel : nat) (p node sibling : Node.ref) : DM unit :=
  match fuel with
  | O => throw
  | S n =>
      pv ← field sibling prev;
      lift (insert p sibling node false);;
      match pv with Some s => move_out n p node s | None => mret tt end
  end.

Definition anchor_filter1 (r : Node.ref) : DM unit :=
  nm ← field r name;
  f ← field r firstChild;
  h ← lift (attr r (js "href") ArgUndefined);
  let has_href := match h with ResVal v => truthy v | ResUndefined => false | _ => true end in
  if str_eqb nm (js "a") && negb (bool_decide (f = None)) && negb has_href then
    p ← field r parent;
    p ← oget p;
    l ← field r lastChild;
    l ← oget l;
    n ← nodes_count;
    move_out n p r l
  else mret tt.

Fixpoint for_all (f : Node.ref -> DM unit) (nodes : list Node.ref) : DM unit :=
  match nodes with [] => mret tt | r :: nodes => f r;; for_all f nodes end.

(** The callers' filters are a parameter; the parser's own ones are above. *)
Context (user_filter : nat -> list Node.ref -> jstr -> DM unit).

Definition run_filter (f : filter) (nodes : list Node.ref) (name : jstr) : DM unit :=
  match f with
  | FTrailingBr => for_all br_filter1 nodes
  | FNamedAnchor => for_all anchor_filter1 (reverse nodes)
  | FUser n => user_filter n nodes name
  end.

Fixpoint run_list (l : list filter) (nodes : list Node.ref) (name : jstr) : DM unit :=
  match l with [] => mret tt | f :: l => run_filter f nodes name;; run_list l nodes name end.

(** The nodes that still have a parent. *)
Fixpoint attached (nodes : list Node.ref) : DM (list Node.ref) :=
  match nodes with
  | [] => mret []
  | r :: nodes => p ← field r parent; rest ← attached nodes; mret (match p with Some _ => r :: rest | None => rest end)
  end.

Fixpoint run_node_filters (matched : Obj.t (list Node.ref)) : DM unit :=
  match matched with
  | [] => mret tt
  | (nm, nodes) :: matched =>
      nodes ← attached nodes;
      l ← oget (Obj.get nm (nodeFilters fs));
      run_list l nodes nm;;
      run_node_filters matched
  end.

Fixpoint run_attribute_filters (l : list (jstr * list filter)) (matched : Obj.t (list Node.ref)) : DM unit :=
  match l with
  | [] => mret tt
  | (nm, callbacks) :: l =>
      match Obj.get nm matched with
      | Some nodes => nodes ← attached nodes; run_list callbacks nodes nm
      | None => mret tt
      end;;
      run_attribute_filters l matched
  end.

(** ** parse *)
(** The tokenizer's own settings: p and li are left to the repair. *)
Definition cloneAndExcludeBlocks (input : nameset) : nameset :=
  List.filter (λ p, negb (str_eqb p.1 (js "li")) && negb (str_eqb p.1 (js "p"))) input.

Definition sax_settings : SaxParser.settings :=
  SaxParser.Settings (validate cfg) false true (allow_script_urls cfg) (allow_conditional_comments cfg)
    (Some (cloneAndExcludeBlocks selfClosingElements)).

Definition root_block (a : args) : jstr :=
  default [] (match arg_root_block a with Some b => b | None => forced_root_block cfg end).

(** The store of a run starts with the root alone. *)
Definition start_state (a : args) : Node.ref * dst :=
  let root_nm := match context a with Some (c :: t) => c :: t
                 | _ => match root_name cfg with [] => js "body" | nm => nm end end in
  let r := fresh (∅ : gset Node.ref) in
  (r, Dst {[r := new_node root_nm (TNum 11)]} (Some r) false [] [] [] ∅).

Definition has_context (a : args) : bool := match context a with Some (_ :: _) => true | _ => false end.

(** The run after the handlers: repair or report, root blocks, filters; the
    result tells whether the content is invalid. *)
Definition finish (a : args) (root : Node.ref) : DM bool :=
  invalid ← gets invalidChildren;
  let bad := validate cfg && match invalid with [] => false | _ => true end in
  (if bad && negb (has_context a) then fixInvalidChildren invalid else mret tt);;
  nm ← field root name;
  (if truthy (root_block a) && (str_eqb nm (js "body") || isRootContent a)
   then addRootBlocks root (root_block a) else mret tt);;
  let is_invalid := bad && has_context a in
  (if is_invalid then mret tt
   else
     m ← gets matchedNodes;
     run_node_filters m;;
     m ← gets matchedAttributes;
     run_attribute_filters (attributeFilters fs) m);;
  mret is_invalid.

Definition parse (nativeDecode : jstr -> jstr) (html : jstr) (a : args) : option (Node.ref * bool * dst) :=
  es ← SaxParser.parse nativeDecode sax_settings html;
  let '(root, d) := start_state a in
  '(_, d) ← handle_all es d;
  '(b, d) ← finish a root d;
  Some (root, b, d).
End DomParser.

(** ** Registering filters *)
Definition push_filter (f : filter) (k : jstr) (m : Obj.t (list filter)) : Obj.t (list filter) :=
  Obj.set k (default [] (Obj.get k m) ++ [f]) m.

Definition addNodeFilter (name : jstr) (f : filter) (fs : filters) : filters :=
  Filters (fold_left (λ m nm, push_filter f nm m) (explode name 44) (nodeFilters fs)) (attributeFilters fs).

Fixpoint add_callback (nm : jstr) (f : filter) (l : list (jstr * list filter)) : list (jstr * list filter) :=
  match l with
  | [] => [(nm, [f])]
  | (k, fs) :: l => if str_eqb k nm then (k, fs ++ [f]) :: l else (k, fs) :: add_callback nm f l
  end.

Definition addAttributeFilter (name : jstr) (f : filter) (fs : filters) : filters :=
  Filters (nodeFilters fs) (fold_left (λ l nm, add_callback nm f l) (explode name 44) (attributeFilters fs)).

(** The constructor. *)
Definition new_DomParser (cfg : settings) : filters :=
  let fs := Filters [] [] in
  let fs := if remove_trailing_brs cfg then addNodeFilter (js "br") FTrailingBr fs else fs in
  if allow_html_in_named_anchor cfg then fs else addAttributeFilter (js "id,name") FNamedAnchor fs.
