(* ===== verification/DomFacts.v ===== *)
(** * The tree the parser builds

    The handlers keep the store of nodes a well-formed tree: the current
    node is always on a path of open elements that ends in the root, one element for each
    open call of the tokenizer, and no handler dereferences a missing node. *)

From S2P Require Import Prelude Regexp Schema SaxParser Writer Node NodeFacts NodeMoves NodeWalk DomParser.

(** ** New nodes and written fields *)
Lemma insert_dom (h : heap) r n x : is_Some (h !! x) → is_Some (<[r := n]> h !! x).
Proof. destruct (decide (r = x)) as [->|]; simplify_map_eq; eauto. Qed.

Lemma alloc_wf h s n : wf h s → clear_links n = n →
  ∃ r, alloc n h = Some (r, <[r := n]> h) ∧ h !! r = None ∧ par s r = None ∧ ch s r = []
    ∧ wf (<[r := n]> h) s.
Proof.
  intros Hwf Hn. unfold alloc. generalize (is_fresh (dom h)). generalize (fresh (dom h)). intros r Hr%not_elem_of_dom.
  assert (par s r = None) as Hp.
  { destruct (par s r) eqn:E; [|done]. apply (wf_dom _ _ Hwf) in E as [_ [? ?]]. congruence. }
  assert (ch s r = []) as Hc.
  { destruct (ch s r) as [|c l] eqn:E; [done|]. assert (c ∈ ch s r) as Hc by (rewrite E; left).
    apply (wf_ch _ _ Hwf), (wf_dom _ _ Hwf) in Hc as [[? ?] _]. congruence. }
  exists r. split_and!; [reflexivity|assumption..|]. constructor; try apply Hwf.
  - intros p c E. apply (wf_dom _ _ Hwf) in E as [? ?]. auto using insert_dom.
  - intros x m. destruct (decide (x = r)) as [->|Hx].
    + rewrite lookup_insert_eq. intros [= <-]. unfold links_ok, sib_next, sib_prev. rewrite Hp, Hc, <- Hn. done.
    + rewrite lookup_insert_ne by done. apply (wf_links _ _ Hwf).
Qed.

(** A write to a field that is no link, nor the type or the name. *)
Definition keeps_links (f : node -> node) : Prop :=
  ∀ n, parent (f n) = parent n ∧ firstChild (f n) = firstChild n ∧ lastChild (f n) = lastChild n
    ∧ next (f n) = next n ∧ prev (f n) = prev n ∧ type (f n) = type n ∧ Node.name (f n) = Node.name n.

Lemma upd_wf h s r n f : wf h s → h !! r = Some n → keeps_links f →
  upd r f h = Some (tt, <[r := f n]> h) ∧ wf (<[r := f n]> h) s.
Proof.
  intros Hwf Hr Hf. split; [unfold upd; by rewrite Hr|]. constructor; try apply Hwf.
  - intros p c E. apply (wf_dom _ _ Hwf) in E as [? ?]. auto using insert_dom.
  - intros x m. destruct (decide (x = r)) as [->|Hx].
    + rewrite lookup_insert_eq. intros [= <-]. destruct (wf_links _ _ Hwf r n Hr) as (H1 & H2 & H3 & H4 & H5).
      destruct (Hf n) as (E1 & E2 & E3 & E4 & E5 & _). unfold links_ok. by rewrite E1, E2, E3, E4, E5.
    + rewrite lookup_insert_ne by done. apply (wf_links _ _ Hwf).
Qed.

(** Elements have attributes and texts have a value. *)
Definition node_ok (n : node) : Prop :=
  (type n = TNum 1 → is_Some (attributes n)) ∧ (type n = TNum 3 → is_Some (value n)).
Lemma payload_node_ok n n' : payload n = payload n' → node_ok n → node_ok n'.
Proof. destruct n, n'. unfold payload, clear_links, node_ok. cbn. by intros [=] [? ?]; subst. Qed.
Lemma payload_name n n' : payload n = payload n' → Node.name n = Node.name n'.
Proof. destruct n, n'. unfold payload, clear_links. cbn. by intros [=]. Qed.
Lemma payload_type n n' : payload n = payload n' → type n = type n'.
Proof. destruct n, n'. unfold payload, clear_links. cbn. by intros [=]. Qed.

Lemma same_payload_lookup h h' x n' : same_payload h h' → h' !! x = Some n' →
  ∃ n, h !! x = Some n ∧ payload n = payload n'.
Proof. intros E Hx. specialize (E x). rewrite Hx in E. destruct (h !! x) as [n|]; [|done]. cbn in E. exists n. by split; [|congruence]. Qed.

(** ** Paths of open elements *)
Fixpoint open_path (s : shape) (l : list Node.ref) : Prop :=
  match l with
  | [] => False
  | x :: l => match l with [] => par s x = None | y :: _ => par s x = Some y ∧ open_path s l end
  end.

(** Elements above the root, which is a fragment; none is a text. *)
Fixpoint path_types (h : heap) (l : list Node.ref) : Prop :=
  match l with
  | [] => True
  | x :: l => match l with
              | [] => type <$> h !! x = Some (TNum 11)
              | _ => type <$> h !! x = Some (TNum 1) ∧ path_types h l
              end
  end.

Lemma open_path_ext s s' l : (∀ x, x ∈ l → par s' x = par s x) → open_path s l → open_path s' l.
Proof.
  induction l as [|x l IH]; [done|]. intros E. cbn. destruct l as [|y l].
  - by rewrite E by left.
  - rewrite E by left. intros [? ?]. split; [done|]. apply IH; [|done]. intros z Hz. apply E. by right.
Qed.

Lemma path_types_ext h h' l : (∀ x, x ∈ l → type <$> h' !! x = type <$> h !! x) → path_types h l → path_types h' l.
Proof.
  induction l as [|x l IH]; [done|]. intros E. cbn. destruct l as [|y l].
  - by rewrite E by left.
  - rewrite E by left. intros [? ?]. split; [done|]. apply IH; [|done]. intros z Hz. apply E. by right.
Qed.

Lemma path_not_text h l x : path_types h l → x ∈ l → type <$> h !! x ≠ Some (TNum 3).
Proof.
  induction l as [|y l IH]; intros Ht Hx; [by apply not_elem_of_nil in Hx|]. cbn in Ht. destruct l as [|z l].
  - apply list_elem_of_singleton in Hx as ->. by rewrite Ht.
  - destruct Ht as [Ht Hl]. apply elem_of_cons in Hx as [->|Hx]; [by rewrite Ht|by apply IH].
Qed.

Lemma path_dom h l x : path_types h l → x ∈ l → is_Some (h !! x).
Proof.
  induction l as [|y l IH]; intros Ht Hx; [by apply not_elem_of_nil in Hx|]. cbn in Ht. destruct l as [|z l].
  - apply list_elem_of_singleton in Hx as ->. by destruct (h !! y).
  - destruct Ht as [Ht Hl]. apply elem_of_cons in Hx as [->|Hx]; [by destruct (h !! y)|by apply IH].
Qed.

Lemma path_anc s x l y : open_path s (x :: l) → y ∈ x :: l → anc s y x.
Proof.
  revert x. induction l as [|z l IH]; intros x Hp Hy.
  - apply list_elem_of_singleton in Hy as ->. apply rtc_refl.
  - destruct Hp as [Hx Hp]. apply elem_of_cons in Hy as [->|Hy]; [apply rtc_refl|].
    eapply anc_parent; [done|]. by apply IH.
Qed.

Lemma path_not_below h s x l y : wf h s → open_path s (x :: l) → y ∈ x :: l → y ≠ x → ¬ anc s x y.
Proof.
  intros Hwf Hp Hy Hne Ha. pose proof (path_anc s x l y Hp Hy) as Hb.
  unfold anc in Ha. inv Ha as [|? z ? Hz Hz'].
  apply (anc_self_parent h s y z Hwf Hz). unfold anc in *. by etransitivity.
Qed.

Lemma path_head_notin h s x l : wf h s → open_path s (x :: l) → x ∉ l.
Proof.
  intros Hwf Hp Hx. destruct l as [|y l]; [by apply not_elem_of_nil in Hx|]. destruct Hp as [Hy Hp].
  apply (anc_self_parent h s x y Hwf Hy). by apply (path_anc s y l).
Qed.

Lemma open_path_parent s x l : open_path s (x :: l) → par s x = head l.
Proof. by destruct l as [|y l]; [|intros [? _]]. Qed.

Lemma open_path_tail s x y l : open_path s (x :: y :: l) → open_path s (y :: l).
Proof. by intros [_ ?]. Qed.

Lemma path_types_tail h x y l : path_types h (x :: y :: l) → path_types h (y :: l).
Proof. by intros [_ ?]. Qed.

(** ** What the handlers keep *)
Section Good.
Context `{DomSchema}.

(** Every element below one that does not take it is in [bad]. *)
Definition reported (bad : list Node.ref) (h : heap) (s : shape) : Prop :=
  ∀ x p n pn, par s x = Some p → h !! x = Some n → h !! p = Some pn → type n = TNum 1 →
    is_invalid_child (Node.name pn) (Node.name n) = true → x ∈ bad.

(** A well-formed store with a path of open elements; the nodes of [new] are
    not yet filled in. *)
Record good (new bad : list Node.ref) (h : heap) (s : shape) (chain : list Node.ref) : Prop := Good {
  g_wf : wf h s;
  g_ok : ∀ x n, h !! x = Some n → x ∉ new → node_ok n;
  g_path : open_path s chain;
  g_types : path_types h chain;
  g_bad : reported bad h s
}.

Lemma same_payload_types h h' l : same_payload h h' → path_types h l → path_types h' l.
Proof.
  intros E. apply path_types_ext. intros x _. specialize (E x).
  destruct (h !! x) as [n|], (h' !! x) as [n'|]; try done. cbn in *. f_equal. apply payload_type. congruence.
Qed.

(** The tree changes, the data of the nodes does not. *)
Lemma good_relink new bad h s chain h' s' chain' :
  good new bad h s chain → same_payload h h' → wf h' s' → open_path s' chain' → path_types h chain' →
  (∀ x p, par s' x = Some p → par s x = Some p ∨ x ∈ bad ∨ type <$> h !! x ≠ Some (TNum 1)) →
  good new bad h' s' chain'.
Proof.
  intros [Hwf Hok _ _ Hbad] E Hwf' Hp Ht Hpar. constructor; [done| |done|by eapply same_payload_types|].
  - intros x n' Hx Hn. destruct (same_payload_lookup _ _ _ _ E Hx) as (n & Hxn & Hpl).
    eapply payload_node_ok; [done|]. by eapply Hok.
  - intros x p n' pn' Hxp Hx Hpp Hty Hinv.
    destruct (same_payload_lookup _ _ _ _ E Hx) as (n & Hxn & Hpl).
    destruct (same_payload_lookup _ _ _ _ E Hpp) as (pn & Hpn & Hpl').
    destruct (Hpar _ _ Hxp) as [Hs|[Hs|Hs]]; [|done|].
    + apply (Hbad x p n pn Hs Hxn Hpn); [by rewrite (payload_type _ _ Hpl)|].
      by rewrite (payload_name _ _ Hpl), (payload_name _ _ Hpl').
    + rewrite Hxn in Hs. cbn in Hs. by rewrite (payload_type _ _ Hpl), Hty in Hs.
Qed.

Lemma good_bad new bad bad' h s chain : (∀ x, x ∈ bad → x ∈ bad') → good new bad h s chain → good new bad' h s chain.
Proof. intros Hb []. constructor; try done. intros x p n pn ?????. eauto. Qed.

Lemma good_tail new bad h s x y l : good new bad h s (x :: y :: l) → good new bad h s (y :: l).
Proof. intros []. constructor; eauto using open_path_tail, path_types_tail. Qed.

Lemma good_alloc new bad h s chain n : good new bad h s chain → clear_links n = n →
  ∃ r, alloc n h = Some (r, <[r := n]> h) ∧ h !! r = None ∧ par s r = None ∧ ch s r = []
    ∧ good (r :: new) bad (<[r := n]> h) s chain.
Proof.
  intros [Hwf Hok Hp Ht Hb] Hn. destruct (alloc_wf h s n Hwf Hn) as (r & E & Hr & Hpr & Hcr & Hwf').
  exists r. split_and!; try done. constructor; try done.
  - intros x m. destruct (decide (x = r)) as [->|]; [set_solver|]. rewrite lookup_insert_ne by done.
    intros Hx Hm. apply (Hok x m Hx). set_solver.
  - eapply path_types_ext; [|exact Ht]. intros x Hx. rewrite lookup_insert_ne; [done|].
    intros ->. destruct (path_dom _ _ _ Ht Hx). congruence.
  - intros x p m pm Hxp Hx Hpm. destruct (wf_dom _ _ Hwf p x Hxp) as [[? ?] [? ?]].
    rewrite lookup_insert_ne in Hx, Hpm by congruence. by apply (Hb x p).
Qed.

Lemma good_upd new new' bad h s chain r n f : good new bad h s chain → h !! r = Some n → keeps_links f →
  (∀ x, x ∈ new → x ∉ new' → x = r) → (r ∉ new' → node_ok (f n)) →
  upd r f h = Some (tt, <[r := f n]> h) ∧ good new' bad (<[r := f n]> h) s chain.
Proof.
  intros [Hwf Hok Hp Ht Hb] Hr Hf Hnew Hnok. destruct (upd_wf h s r n f Hwf Hr Hf) as [E Hwf'].
  split; [done|]. destruct (Hf n) as (_ & _ & _ & _ & _ & Hty & Hnm). constructor; try done.
  - intros x m. destruct (decide (x = r)) as [->|Hx].
    + rewrite lookup_insert_eq. intros [= <-]. done.
    + rewrite lookup_insert_ne by done. intros Hm Hxn. apply (Hok x m Hm). intros Hi. by apply Hx, Hnew.
  - eapply path_types_ext; [|exact Ht]. intros x Hx. destruct (decide (x = r)) as [->|].
    + rewrite lookup_insert_eq, Hr. cbn. by rewrite Hty.
    + by rewrite lookup_insert_ne.
  - assert (∀ x m, <[r := f n]> h !! x = Some m → ∃ m', h !! x = Some m' ∧ type m = type m' ∧ Node.name m = Node.name m') as Hl.
    { intros x m. destruct (decide (x = r)) as [->|].
      - rewrite lookup_insert_eq. intros [= <-]. eauto.
      - rewrite lookup_insert_ne by done. eauto. }
    intros x p m pm Hxp (m' & Hx & Et & En)%Hl (pm' & Hpm & _ & En')%Hl Hm. rewrite En, En'.
    apply (Hb x p m' pm'); congruence.
Qed.
End Good.

(** ** Siblings ahead *)
(** The siblings still to visit under [p], forwards or backwards. *)
Definition ahead (fwd : bool) (s : shape) (p : Node.ref) (todo : list Node.ref) : Prop :=
  ∃ done, ch s p = if fwd then done ++ todo else reverse todo ++ done.

Section Ahead.
Context (h : heap) (s : shape) (Hwf : wf h s).

Lemma ahead_step fwd p r todo n : ahead fwd s p (r :: todo) → h !! r = Some n →
  par s r = Some p ∧ (if fwd then next else prev) n = head todo
  ∧ ahead fwd s p todo ∧ ahead fwd (detach r s) p todo.
Proof using Hwf.
  intros [done Hc] Hr. destruct (wf_links _ _ Hwf r n Hr) as (_ & _ & _ & Hnx & Hpv).
  assert (par s r = Some p) as Hp.
  { apply (wf_ch _ _ Hwf). rewrite Hc. destruct fwd; [set_solver|]. rewrite reverse_cons. set_solver. }
  pose proof (wf_nodup _ _ Hwf p) as Hn. rewrite Hc in Hn. destruct fwd.
  - split_and!; [done| | |].
    + by rewrite Hnx, (sib_next_mid s r p done todo).
    + exists (done ++ [r]). by rewrite <- app_assoc.
    + exists done. by apply (detach_ch h s r p).
  - rewrite reverse_cons, <- app_assoc in Hc, Hn. split_and!; [done| | |].
    + by rewrite Hpv, (sib_prev_mid s r p (reverse todo) done), last_reverse.
    + by exists ([r] ++ done).
    + exists done. by apply (detach_ch h s r p).
Qed.

Lemma ahead_dom fwd p todo x : ahead fwd s p todo → x ∈ todo → is_Some (h !! x).
Proof using Hwf.
  intros [done Hc] Hx. apply (wf_dom _ _ Hwf p x), (wf_ch _ _ Hwf). rewrite Hc.
  destruct fwd; [set_solver|]. apply elem_of_app. left. by apply elem_of_reverse.
Qed.

Lemma ahead_size fwd p todo : ahead fwd s p todo → (length todo ≤ size h)%nat.
Proof using Hwf.
  intros [done Hc]. pose proof (children_size h s p Hwf) as Hs. rewrite Hc in Hs.
  destruct fwd; rewrite length_app, ?length_reverse in Hs; lia.
Qed.

(** All children, from either end. *)
Lemma ahead_children fwd p n : h !! p = Some n →
  ∃ todo, ahead fwd s p todo ∧ (if fwd then firstChild else lastChild) n = head todo.
Proof using Hwf.
  intros Hp. destruct (wf_links _ _ Hwf p n Hp) as (_ & Hf & Hl & _). destruct fwd.
  - exists (ch s p). split; [by exists []|done].
  - exists (reverse (ch s p)). rewrite head_reverse. split; [|done]. exists []. by rewrite reverse_involutive, app_nil_r.
Qed.

(** What is in front of a node. *)
Lemma ahead_before r n : h !! r = Some n → ∃ p todo, ahead false s p todo ∧ prev n = head todo.
Proof using Hwf.
  intros Hr. destruct (wf_links _ _ Hwf r n Hr) as (_ & _ & _ & _ & Hpv).
  destruct (par s r) as [p|] eqn:Hp.
  - destruct (child_split h s p r Hwf Hp) as (l1 & l2 & Hc & Hn & _). exists p, (reverse l1).
    rewrite head_reverse, Hpv, (sib_prev_mid s r p l1 l2) by done. split; [|done].
    exists (r :: l2). by rewrite reverse_involutive.
  - exists r, []. split; [by exists (ch s r)|]. rewrite Hpv. unfold sib_prev. by rewrite Hp.
Qed.
End Ahead.

(** ** Steps on the state *)
Lemma with_heap_same d : with_heap (d_heap d) d = d.
Proof. by destruct d. Qed.

Lemma wp_lift {A} (m : HM A) d x h' (post : A -> dst -> Prop) :
  m (d_heap d) = Some (x, h') → post x (with_heap h' d) → wp (lift m) d post.
Proof. intros E Hp. exists x, (with_heap h' d). split; [|done]. unfold lift. by rewrite E. Qed.

Lemma wp_field {A} r (f : node -> A) n d (post : A -> dst -> Prop) :
  d_heap d !! r = Some n → post (f n) d → wp (field r f) d post.
Proof.
  intros E Hp. unfold field. eapply wp_lift; [by rewrite (deref_bind _ r n)|]. by rewrite with_heap_same.
Qed.

Lemma wp_current r d (post : Node.ref -> dst -> Prop) : cur d = Some r → post r d → wp current d post.
Proof. intros E Hp. exists r, d. split; [|done]. unfold current. by rewrite E. Qed.

Lemma wp_count d (post : nat -> dst -> Prop) : post (size (d_heap d)) d → wp nodes_count d post.
Proof. intros Hp. by exists (size (d_heap d)), d. Qed.

Lemma wp_seq {S A B} (m : SE S A) (f : A -> SE S B) s (P : A -> S -> Prop) post :
  wp m s P → (∀ x s', P x s' → wp (f x) s' post) → wp (m ≫= f) s post.
Proof. intros Hm Hf. apply wp_bind. by eapply wp_mono. Qed.

Section Steps.
Context `{DomSchema}.

(** The store is good and the current node is [c]; besides those of [bad] all
    misplaced elements are on the list to repair. *)
Definition st_ok (new bad chain : list Node.ref) (c : option Node.ref) (d : dst) : Prop :=
  cur d = c ∧ ∃ s, good new (bad ++ invalidChildren d) (d_heap d) s chain.

Lemma value_known h s bad chain r n : good [] bad h s chain → h !! r = Some n → is_text n = true → is_Some (value n).
Proof.
  intros Hg Hr Ht. apply bool_decide_eq_true in Ht. eapply (g_ok _ _ _ _ _ Hg r n Hr); [set_solver|done].
Qed.

Lemma text_not_open new bad h s chain r n : good new bad h s chain → h !! r = Some n → is_text n = true → r ∉ chain.
Proof.
  intros Hg Hr Ht Hin. apply (path_not_text _ _ _ (g_types _ _ _ _ _ Hg) Hin). rewrite Hr.
  apply bool_decide_eq_true in Ht. cbn. by rewrite Ht.
Qed.

(** A node outside the path leaves. *)
Lemma good_remove new bad h s chain r : good new bad h s chain → is_Some (h !! r) → r ∉ chain →
  ∃ h', remove r h = Some (r, h') ∧ good new bad h' (detach r s) chain.
Proof.
  intros Hg Hr Hc. destruct (remove_ok h s r (g_wf _ _ _ _ _ Hg) Hr) as (h' & E & Hwf & Hp).
  exists h'. split; [done|]. eapply good_relink; [exact Hg|done|done| |apply Hg|].
  - eapply open_path_ext; [|apply Hg]. intros x Hx. rewrite detach_par, decide_False; [done|by intros ->].
  - intros x p. rewrite detach_par. case_decide; [done|]. by left.
Qed.

Lemma good_set_value bad h s chain r n v : good [] bad h s chain → h !! r = Some n →
  upd r (set_value (Some v)) h = Some (tt, <[r := set_value (Some v) n]> h)
  ∧ good [] bad (<[r := set_value (Some v) n]> h) s chain.
Proof.
  intros Hg Hr. eapply good_upd; [done|done| |set_solver|]; [done|].
  intros _. destruct (g_ok _ _ _ _ _ Hg r n Hr) as [? ?]; [set_solver|]. split; [done|]. by eexists.
Qed.

Lemma wp_text_value r n v d (post : jstr -> dst -> Prop) :
  d_heap d !! r = Some n → value n = Some v → post v d → wp (text_value r) d post.
Proof. intros Hr Hv Hp. apply wp_bind. eapply wp_field; [done|]. by eapply wp_oget. Qed.

(** Each loop over the siblings ahead ends and keeps the state. *)
Lemma trim_before_ok chain c p todo : ∀ fuel d s, cur d = c → good [] (invalidChildren d) (d_heap d) s chain →
  ahead false s p todo → (length todo ≤ fuel)%nat →
  wp (trim_before fuel (head todo)) d (λ _ d', st_ok [] [] chain c d').
Proof.
  induction todo as [|r todo IH]; intros fuel d s Hc Hg Ha Hf.
  - destruct fuel; apply wp_ret; (split; [done|]); by exists s.
  - destruct fuel as [|fuel]; cbn in Hf; [lia|]. cbn [head trim_before].
    destruct (ahead_dom _ _ (g_wf _ _ _ _ _ Hg) _ _ _ r Ha) as [n Hr]; [by left|].
    destruct (ahead_step _ _ (g_wf _ _ _ _ _ Hg) false p r todo n Ha Hr) as (_ & Hpv & Ha1 & Ha2).
    apply wp_bind. eapply wp_field; [done|]. destruct (is_text n) eqn:Et.
    2: { apply wp_ret. split; [done|]. by exists s. }
    destruct (value_known _ _ _ _ _ _ Hg Hr Et) as [v Hv].
    apply wp_bind. eapply wp_text_value; [done..|]. apply wp_bind. eapply wp_field; [done|]. rewrite Hpv.
    apply wp_bind. destruct (truthy (trim_end v)).
    + destruct (good_set_value _ _ _ _ r n (trim_end v) Hg Hr) as [E Hg'].
      eapply wp_lift; [exact E|]. eapply (IH fuel _ s); [done|exact Hg'|done|lia].
    + destruct (good_remove _ _ _ _ _ r Hg) as (h' & E & Hg'); [by eexists|by eapply text_not_open|].
      apply wp_bind. eapply wp_lift; [exact E|]. apply wp_ret.
      eapply (IH fuel _ (detach r s)); [done|exact Hg'|done|lia].
Qed.

Lemma drop_space_ok fwd chain c p todo : ∀ fuel d s, cur d = c → good [] (invalidChildren d) (d_heap d) s chain →
  ahead fwd s p todo → (length todo ≤ fuel)%nat →
  wp (drop_space fuel fwd (head todo)) d (λ _ d', st_ok [] [] chain c d').
Proof.
  induction todo as [|r todo IH]; intros fuel d s Hc Hg Ha Hf.
  - destruct fuel; apply wp_ret; (split; [done|]); by exists s.
  - destruct fuel as [|fuel]; cbn in Hf; [lia|]. cbn [head drop_space].
    destruct (ahead_dom _ _ (g_wf _ _ _ _ _ Hg) _ _ _ r Ha) as [n Hr]; [by left|].
    destruct (ahead_step _ _ (g_wf _ _ _ _ _ Hg) fwd p r todo n Ha Hr) as (_ & Hnx & Ha1 & Ha2).
    apply wp_bind. eapply wp_field; [done|]. destruct (is_text n) eqn:Et.
    2: { apply wp_ret. split; [done|]. by exists s. }
    destruct (value_known _ _ _ _ _ _ Hg Hr Et) as [v Hv].
    apply wp_bind. eapply wp_text_value; [done..|]. apply wp_bind. eapply wp_field; [done|]. rewrite Hnx.
    apply wp_bind. destruct (negb (truthy v) || all_space v).
    + destruct (good_remove _ _ _ _ _ r Hg) as (h' & E & Hg'); [by eexists|by eapply text_not_open|].
      apply wp_bind. eapply wp_lift; [exact E|]. apply wp_ret.
      eapply (IH fuel _ (detach r s)); [done|exact Hg'|done|lia].
    + apply wp_ret. eapply (IH fuel _ s); [done|exact Hg|done|lia].
Qed.

Lemma removeWhitespaceBefore_ok chain c d r : st_ok [] [] chain c d → is_Some (d_heap d !! r) →
  wp (removeWhitespaceBefore r) d (λ _ d', st_ok [] [] chain c d').
Proof.
  intros (Hc & s & Hg) [n Hr]. destruct (ahead_before _ _ (g_wf _ _ _ _ _ Hg) r n Hr) as (p & todo & Ha & Hpv).
  unfold removeWhitespaceBefore. apply wp_bind. eapply wp_field; [done|]. apply wp_bind, wp_count. rewrite Hpv.
  eapply (trim_before_ok chain c p todo _ _ s); [done|exact Hg|done|].
  by eapply ahead_size; [apply Hg|].
Qed.

Lemma trim_side_ok fwd chain c d r : st_ok [] [] chain c d → is_Some (d_heap d !! r) →
  wp (trim_side fwd r) d (λ _ d', st_ok [] [] chain c d').
Proof.
  intros (Hc & s & Hg) [n Hr].
  destruct (ahead_children _ _ (g_wf _ _ _ _ _ Hg) fwd r n Hr) as (todo & Ha & Hfc).
  unfold trim_side. apply wp_bind. eapply wp_field; [done|]. rewrite Hfc. destruct todo as [|x todo].
  { apply wp_ret. split; [done|]. by exists s. }
  cbn [head]. destruct (ahead_dom _ _ (g_wf _ _ _ _ _ Hg) _ _ _ x Ha) as [m Hx]; [by left|].
  destruct (ahead_step _ _ (g_wf _ _ _ _ _ Hg) fwd r x todo m Ha Hx) as (_ & Hnx & _ & Ha2).
  apply wp_bind. eapply wp_field; [done|]. destruct (is_text m) eqn:Et.
  2: { apply wp_ret. split; [done|]. by exists s. }
  destruct (value_known _ _ _ _ _ _ Hg Hx Et) as [v Hv].
  apply wp_bind. eapply wp_text_value; [done..|].
  destruct (truthy _).
  - destruct (good_set_value _ _ _ _ x m (if fwd then trim_start v else trim_end v) Hg Hx) as [E Hg'].
    eapply wp_lift; [exact E|]. split; [done|]. by exists s.
  - destruct (good_remove _ _ _ _ _ x Hg) as (h' & E & Hg'); [by eexists|by eapply text_not_open|].
    apply wp_bind. eapply wp_field; [done|]. rewrite Hnx. apply wp_bind. eapply wp_lift; [exact E|].
    apply wp_bind, wp_count. eapply (drop_space_ok fwd chain c r todo _ _ (detach x s)); [done|exact Hg'|done|].
    by eapply ahead_size; [apply Hg'|].
Qed.
End Steps.

(** ** The handlers *)
Section Handlers.
Context `{DomSchema} (cfg : settings) (fs : filters).

(** No name an object inherits is filtered, opened or written for an element. *)
Definition filters_ok : Prop := Forall (λ k, Obj.is_proto k = false) (filter_names fs).
Definition event_ok (e : event) : Prop :=
  match e with
  | EStart name _ _ => Obj.is_proto name = false
      ∧ ∀ rl o, rule_of cfg name = Some rl → outputName rl = Some o → Obj.is_proto o = false
  | EPi name _ => Obj.is_proto name = false
  | _ => True
  end.

Lemma push_at_some k r m : Obj.is_proto k = false → is_Some (push_at k r m).
Proof. intros Hk. unfold push_at. rewrite Hk. by destruct (Obj.get k m). Qed.

(** Only the lists of matched nodes differ. *)
Definition same_but_matched (d d' : dst) : Prop :=
  d_heap d' = d_heap d ∧ cur d' = cur d ∧ inPre d' = inPre d ∧ invalidChildren d' = invalidChildren d.

Lemma push_matched_ok k r d : Obj.is_proto k = false → wp (push_matched k r) d (λ _ d', same_but_matched d d').
Proof.
  intros Hk. unfold push_matched. apply wp_bind, wp_gets. destruct (push_at_some k r (matchedNodes d) Hk) as [m E].
  apply wp_bind. eapply wp_oget; [done|]. by apply wp_modify.
Qed.

Lemma match_attributes_ok names m r : Forall (λ k, Obj.is_proto k = false) names → ∀ d,
  wp (match_attributes names m r) d (λ _ d', same_but_matched d d').
Proof.
  induction 1 as [|k names Hk _ IH]; intros d; [by apply wp_ret|]. cbn [match_attributes].
  eapply (wp_seq _ _ _ (λ _ d', same_but_matched d d')).
  - destruct (Obj.has k m); [|by apply wp_ret]. unfold push_matched_attribute. apply wp_bind, wp_gets.
    destruct (push_at_some k r (matchedAttributes d) Hk) as [m' E].
    apply wp_bind. eapply wp_oget; [done|]. by apply wp_modify.
  - intros _ d1 (E1 & E2 & E3 & E4). eapply wp_mono; [|apply IH].
    intros _ d2 (F1 & F2 & F3 & F4). unfold same_but_matched. by rewrite F1, F2, F3, F4.
Qed.

Lemma createNode_ok nm ty new bad s chain d : Obj.is_proto nm = false → good new bad (d_heap d) s chain →
  wp (createNode fs nm ty) d (λ r d', d_heap d !! r = None ∧ par s r = None ∧ ch s r = []
    ∧ d_heap d' = <[r := new_node nm ty]> (d_heap d) ∧ good (r :: new) bad (d_heap d') s chain
    ∧ cur d' = cur d ∧ invalidChildren d' = invalidChildren d).
Proof.
  intros Hnm Hg. destruct (good_alloc new bad (d_heap d) s chain (new_node nm ty) Hg) as (r & E & Hr & Hp & Hc & Hg').
  { done. }
  unfold createNode. apply wp_bind. eapply wp_lift; [exact E|].
  eapply (wp_seq _ _ _ (λ _ d', same_but_matched (with_heap (<[r := new_node nm ty]> (d_heap d)) d) d')).
  - destruct (Obj.has nm (nodeFilters fs)); [by apply push_matched_ok|by apply wp_ret].
  - intros _ d' (E1 & E2 & _ & E4). apply wp_ret. cbn in E1, E2, E4. by rewrite E1, E2, E4.
Qed.

Lemma no_children_not_above h s r p : wf h s → ch s r = [] → r ≠ p → ¬ anc s r p.
Proof.
  intros Hwf Hc Hne Ha. unfold anc in Ha. apply rtc_inv_r in Ha as [->|(y & _ & Hy)]; [done|].
  apply (wf_ch _ _ Hwf) in Hy. rewrite Hc in Hy. set_solver.
Qed.

(** A new node goes to the end of an open element. *)
Lemma good_append new bad h s chain p r : good new bad h s chain → p ∈ chain → is_Some (h !! r) → r ∉ chain →
  par s r = None → ch s r = [] → r ∈ bad ∨ type <$> h !! r ≠ Some (TNum 1) →
  ∃ h', append p r h = Some (r, h') ∧ same_payload h h'
    ∧ good new bad h' (attach p r (ch s p ++ [r]) s) chain.
Proof.
  intros Hg Hp Hr Hrc Hpr Hcr Hb. pose proof (path_dom _ _ _ (g_types _ _ _ _ _ Hg) Hp) as Hpd.
  destruct (append_ok h s p r (g_wf _ _ _ _ _ Hg) Hpd Hr) as (h' & E & Hwf & Hpl).
  { eapply no_children_not_above; [apply Hg|done|]. by intros ->. }
  unfold append_shape in Hwf. rewrite detach_none in Hwf by done.
  exists h'. split_and!; [done|done|]. eapply good_relink; [exact Hg|done|done| |apply Hg|].
  - eapply open_path_ext; [|apply Hg]. intros x Hx. cbn. rewrite fset_ne; [done|]. by intros ->.
  - intros x q. cbn. unfold fset. case_decide; [subst; by right|]. by left.
Qed.

(** The node a node handler adds at the end of the current one: [append_new]
    and the text handler without the writing of the value. *)
Lemma append_new_ok nm ty text c chain d : Obj.is_proto nm = false → ty ≠ TNum 1 → ty ≠ TNum 3 →
  st_ok [] [] (c :: chain) (Some c) d →
  wp (append_new fs nm ty text) d (λ _ d', st_ok [] [] (c :: chain) (Some c) d').
Proof.
  intros Hnm H1 H3 (Hc & s & Hg). unfold append_new. apply wp_bind. eapply wp_current; [done|].
  eapply wp_seq; [by eapply createNode_ok|]. intros r d1 (Hr & Hp & Hch & Eh & Hg1 & Ec & Ei).
  assert (r ∉ c :: chain) as Hrc by (intros Hin; destruct (path_dom _ _ _ (g_types _ _ _ _ _ Hg) Hin); congruence).
  assert (d_heap d1 !! r = Some (new_node nm ty)) as Hr1 by (by rewrite Eh, lookup_insert_eq).
  destruct (good_append _ _ _ _ _ c r Hg1) as (h2 & E2 & Hpl & Hg2); [by left|by eexists|done..| |].
  { right. rewrite Hr1. cbn. congruence. }
  apply wp_bind. eapply wp_lift; [exact E2|].
  destruct (same_payload_lookup h2 (d_heap d1) r _ (symmetry Hpl) Hr1) as (n2 & Hr2 & Hn2).
  destruct (good_upd _ [] _ _ _ _ r n2 (set_value text) Hg2 Hr2) as [E3 Hg3];
    [done|set_solver| |].
  { intros _. pose proof (payload_type _ _ Hn2) as Et. cbn in Et. split; cbn; congruence. }
  apply wp_bind. eapply wp_lift; [exact E3|]. apply wp_ret. split; [cbn; congruence|].
  exists (attach c r (ch s c ++ [r]) s). cbn. by rewrite Ei.
Qed.

Lemma after_block_ok p d s new bad chain : good new bad (d_heap d) s chain → is_Some (d_heap d !! p) →
  wp (after_block p) d (λ _ d', d' = d).
Proof.
  intros Hg [n Hp]. unfold after_block. apply wp_bind. eapply wp_field; [done|].
  destruct (lastChild n) as [l|] eqn:El; [|by apply wp_ret].
  destruct (wf_links _ _ (g_wf _ _ _ _ _ Hg) p n Hp) as (_ & _ & Hl & _). rewrite El in Hl.
  symmetry in Hl. apply last_Some_elem, (wf_ch _ _ (g_wf _ _ _ _ _ Hg)), (wf_dom _ _ (g_wf _ _ _ _ _ Hg)) in Hl as [_ [m Hm]].
  apply wp_bind. eapply wp_field; [done|]. by apply wp_ret.
Qed.

Lemma on_text_ok t raw c chain d : st_ok [] [] (c :: chain) (Some c) d →
  wp (on_text fs t raw) d (λ _ d', st_ok [] [] (c :: chain) (Some c) d').
Proof.
  intros (Hc & s & Hg). unfold on_text. apply wp_bind. eapply wp_current; [done|]. apply wp_bind, wp_gets.
  pose proof (path_dom _ _ _ (g_types _ _ _ _ _ Hg) (list_elem_of_here c chain)) as Hcd.
  eapply (wp_seq _ _ _ (λ _ d', d' = d)).
  { destruct (inPre d); [by apply wp_ret|]. eapply wp_seq; [by eapply after_block_ok|]. intros b ? ->. by apply wp_ret. }
  intros [|u t'] ? ->; [apply wp_ret; split; [done|by exists s]|]. generalize (u :: t'). clear t u t'. intros t.
  eapply wp_seq; [by apply createNode_ok|]. intros r d1 (Hr & Hp & Hch & Eh & Hg1 & Ec & Ei).
  assert (r ∉ c :: chain) as Hrc by (intros Hin; destruct (path_dom _ _ _ (g_types _ _ _ _ _ Hg) Hin); congruence).
  assert (d_heap d1 !! r = Some (new_node (js "#text") (TNum 3))) as Hr1 by (by rewrite Eh, lookup_insert_eq).
  destruct (good_upd _ [r] _ _ _ _ r _ (set_raw raw) Hg1 Hr1) as [E2 Hg2]; [done|set_solver|set_solver|].
  apply wp_bind. eapply wp_lift; [exact E2|].
  set (h2 := <[r := _]> (d_heap d1)) in *.
  assert (h2 !! r = Some (set_raw raw (new_node (js "#text") (TNum 3)))) as Hr2 by apply lookup_insert_eq.
  destruct (good_append _ _ _ _ _ c r Hg2) as (h3 & E3 & Hpl & Hg3); [by left|by eexists|done..| |].
  { right. by rewrite Hr2. }
  apply wp_bind. eapply wp_lift; [exact E3|].
  destruct (same_payload_lookup h3 h2 r _ (symmetry Hpl) Hr2) as (n3 & Hr3 & Hn3).
  destruct (good_upd _ [] _ _ _ _ r n3 (set_value (Some t)) Hg3 Hr3) as [E4 Hg4]; [done|set_solver| |].
  { intros _. pose proof (payload_type _ _ Hn3) as Et. cbn in Et. split; cbn; [congruence|by eexists]. }
  eapply wp_lift; [exact E4|]. split; [cbn; congruence|].
  exists (attach c r (ch s c ++ [r]) s). cbn. by rewrite Ei.
Qed.

(** The state between two calls: the current element is the last opened one. *)
Definition inv (chain : list Node.ref) (d : dst) : Prop := st_ok [] [] chain (head chain) d.

Lemma good_drop new bad h s chain r : good new (r :: bad) h s chain →
  (∀ p n pn, par s r = Some p → h !! r = Some n → h !! p = Some pn →
     is_invalid_child (Node.name pn) (Node.name n) = false) → good new bad h s chain.
Proof.
  intros [Hwf Hok Hp Ht Hb] Hr. constructor; try done. intros x p n pn Hx Hn Hpn Hty Hi.
  destruct (elem_of_cons bad x r) as [He _]. destruct (He (Hb x p n pn Hx Hn Hpn Hty Hi)) as [->|]; [|done].
  by rewrite (Hr p n pn) in Hi.
Qed.

Lemma good_push new bad h s c chain r : good new bad h s (c :: chain) → par s r = Some c →
  type <$> h !! r = Some (TNum 1) → good new bad h s (r :: c :: chain).
Proof. intros [] Hp Ht. by constructor. Qed.

(** The new element of a start call, at the end of the current one and on the
    list to repair if it may not be there. *)
Lemma start_element_ok nm l b c chain d (k : Node.ref -> DM unit) post : Obj.is_proto nm = false →
  st_ok [] [] (c :: chain) (Some c) d →
  (∀ r d', st_ok [] [] (r :: c :: chain) (Some c) d' → wp (k r) d' post) →
  wp (r ← createNode fs nm (TNum 1);
      lift (upd r (set_attributes (Some (attrs_of l))));;
      lift (upd r (set_shortEnded b));;
      p ← current;
      lift (append p r);;
      pn ← field p Node.name;
      modify (λ d, if is_invalid_child pn nm then add_invalid r d else d);;
      k r) d post.
Proof.
  intros Hnm (Hc & s & Hg) Hk. eapply wp_seq; [by apply createNode_ok|]. intros r d1 (Hr & Hp & Hch & Eh & Hg1 & Ec & Ei).
  assert (r ∉ c :: chain) as Hrc by (intros Hin; destruct (path_dom _ _ _ (g_types _ _ _ _ _ Hg) Hin); congruence).
  assert (d_heap d1 !! r = Some (new_node nm (TNum 1))) as Hr1 by (by rewrite Eh, lookup_insert_eq).
  destruct (good_upd _ [] _ _ _ _ r _ (set_attributes (Some (attrs_of l))) Hg1 Hr1) as [E2 Hg2];
    [done|set_solver|by split; [eexists|]|].
  apply wp_bind. eapply wp_lift; [exact E2|]. set (h2 := <[r := _]> (d_heap d1)) in *.
  set (n2 := set_attributes _ _) in *. assert (h2 !! r = Some n2) as Hr2 by apply lookup_insert_eq.
  destruct (good_upd _ [] _ _ _ _ r _ (set_shortEnded b) Hg2 Hr2) as [E3 Hg3]; [done|set_solver|by split; [eexists|]|].
  apply wp_bind. eapply wp_lift; [exact E3|]. set (h3 := <[r := _]> h2) in *.
  set (n3 := set_shortEnded b n2) in *. assert (h3 !! r = Some n3) as Hr3 by apply lookup_insert_eq.
  apply wp_bind. eapply (wp_current c); [cbn; congruence|]. set (bad := [] ++ invalidChildren d) in *.
  destruct (good_append [] (r :: bad) h3 s (c :: chain) c r) as (h4 & E4 & Hpl & Hg4);
    [|by left|by eexists|done..|by left; left|].
  { eapply good_bad, Hg3. intros x. by right. }
  apply wp_bind. eapply wp_lift; [exact E4|].
  destruct (path_dom _ _ c (g_types _ _ _ _ _ Hg4)) as [cn Hcn]; [by left|].
  destruct (same_payload_lookup h4 h3 r _ (symmetry Hpl) Hr3) as (n4 & Hr4 & Hn4).
  apply wp_bind. eapply wp_field; [exact Hcn|]. apply wp_bind, wp_modify. apply Hk.
  assert (good [] (r :: bad) h4 (attach c r (ch s c ++ [r]) s) (r :: c :: chain)) as Hg5.
  { apply good_push; [done|by cbn; rewrite fset_eq|]. rewrite Hr4. cbn. by rewrite (payload_type _ _ Hn4). }
  destruct (is_invalid_child _ _) eqn:Einv.
  - split; [cbn; congruence|]. exists (attach c r (ch s c ++ [r]) s). eapply good_bad, Hg5.
    cbn. rewrite Ei. intros x. rewrite elem_of_cons, elem_of_app, list_elem_of_singleton. tauto.
  - split; [cbn; congruence|]. exists (attach c r (ch s c ++ [r]) s). eapply good_drop; [cbn; rewrite Ei; exact Hg5|].
    intros p n pn. cbn. rewrite fset_eq. intros [= <-] Hn Hpn. rewrite Hn in Hr4. rewrite Hpn in Hcn.
    injection Hr4 as ->. injection Hcn as ->.
    rewrite (payload_name _ _ Hn4). exact Einv.
Qed.

Definition opens (name : jstr) : bool := match rule_of cfg name with Some _ => true | None => false end.

Lemma on_start_ok name l b c chain d : event_ok (EStart name l b) → filters_ok → inv (c :: chain) d →
  wp (on_start cfg fs name (default [] l) b) d (λ _ d', ∃ up, inv (up ++ c :: chain) d'
    ∧ length up = if opens name && negb b then 1%nat else 0%nat).
Proof.
  intros [Hn Ho] Hf Hi. unfold on_start, opens. destruct (rule_of cfg name) as [rl|] eqn:Er.
  2: { apply wp_ret. by exists []. }
  specialize (Ho rl). set (nm := match outputName rl with Some (_ :: _) => _ | _ => name end).
  assert (Obj.is_proto nm = false) as Hnm.
  { subst nm. destruct (outputName rl) as [[|u o]|]; [done| |done]. by apply Ho. }
  clearbody nm. eapply (start_element_ok nm (default [] l) b c chain d); [done|done|]. clear d Hi. intros r d Hi.
  eapply wp_seq; [by apply match_attributes_ok, Forall_reverse|]. intros _ d1 (E1 & E2 & _ & E4).
  assert (st_ok [] [] (r :: c :: chain) (Some c) d1) as Hi1 by (unfold st_ok; rewrite E1, E2, E4; exact Hi).
  eapply (wp_seq _ _ _ (λ _ d', st_ok [] [] (r :: c :: chain) (Some c) d')).
  { destruct (Obj.has name blockElements); [|by apply wp_ret]. apply removeWhitespaceBefore_ok; [done|].
    destruct Hi1 as (_ & s & Hg). eapply path_dom; [apply Hg|by left]. }
  intros _ d2 (Hc & s & Hg).
  eapply (wp_seq _ _ _ (λ _ d', ∃ up, inv (up ++ c :: chain) d' ∧ length up = if negb b then 1%nat else 0%nat)).
  { destruct b.
    - apply wp_ret. exists []. split; [|done]. split; [done|]. exists s. by eapply good_tail.
    - apply wp_modify. exists [r]. split; [|done]. split; [done|]. by exists s. }
  intros _ d' (up & (Hu & s' & Hg') & Hl). apply wp_modify. exists up. split; [|done].
  destruct (_ && _); (split; [exact Hu|exists s'; exact Hg']).
Qed.

(** Emptying the current element keeps the path above it. *)
Lemma good_empty new bad h s r chain : good new bad h s (r :: chain) →
  ∃ h' s', empty r h = Some (r, h') ∧ same_payload h h' ∧ good new bad h' s' (r :: chain)
    ∧ ch s' r = [] ∧ par s' r = par s r.
Proof.
  intros Hg. pose proof (g_wf _ _ _ _ _ Hg) as Hwf. pose proof (g_path _ _ _ _ _ Hg) as Hp.
  destruct (path_dom _ _ r (g_types _ _ _ _ _ Hg)) as [n Hr]; [by left|].
  destruct (empty_spec h s r n Hwf Hr) as (l & h' & Hl & E & Hwf' & Hpl).
  assert (∀ x, x ∈ r :: chain → x ∉ l) as Hnl.
  { intros x Hx Hin. apply (descendants_elem h s Hwf r l x Hl) in Hin as [Hne Ha].
    by apply (path_not_below h s r chain x Hwf Hp Hx). }
  exists h', (cleared l r s). split_and!; [done|done| | |].
  - eapply good_relink; [exact Hg|done|done| |apply Hg|].
    + eapply open_path_ext; [|exact Hp]. intros x Hx%Hnl. cbn. by rewrite decide_False.
    + intros x p. cbn. case_decide; [done|]. by left.
  - cbn. rewrite decide_True; [done|by left].
  - cbn. rewrite decide_False; [done|]. apply Hnl. by left.
Qed.

Lemma isEmpty_total new bad h s chain r els : good new bad h s chain → new = [] → is_Some (h !! r) →
  ∃ b, isEmpty r els h = Some (b, h).
Proof.
  intros Hg -> [n Hr]. destruct (isEmpty_spec h s r n els (g_wf _ _ _ _ _ Hg) Hr) as (l & _ & ->).
  assert (∃ b, fold_right (λ p acc, ignorable els p.2 ≫= λ b : bool, if b then acc else Some false)
    (Some true) (nodes_of h l) = Some b) as [b ->]; [|by exists b].
  assert (Forall (λ p, is_Some (ignorable els p.2)) (nodes_of h l)) as Hl.
  { apply Forall_forall. intros [x m] (y & _ & Hm)%list_elem_of_omap. apply fmap_Some in Hm as (m' & Hm & [= -> ->]).
    destruct (g_ok _ _ _ _ _ Hg y m' Hm) as [Ha _]; [set_solver|]. cbn. unfold ignorable.
    destruct (decide (type m' = TNum 1)) as [Ht|]; [|by repeat case_match].
    destruct (Ha Ht) as [a ->]. by repeat case_match. }
  induction Hl as [|p l' [b Hb] _ [c Hc]]; [by exists true|]. cbn. rewrite Hb. cbn. destruct b; eauto.
Qed.

Lemma on_empty_ok rl r p chain d : st_ok [] [] (r :: p :: chain) (Some r) d →
  wp (on_empty rl r) d (λ _ d', inv (p :: chain) d').
Proof.
  intros (Hc & s & Hg). destruct (path_dom _ _ r (g_types _ _ _ _ _ Hg)) as [n Hr]; [by left|].
  assert (parent n = Some p) as Hp.
  { destruct (wf_links _ _ (g_wf _ _ _ _ _ Hg) r n Hr) as (-> & _). by apply (open_path_parent s r (p :: chain)), Hg. }
  assert (∀ d' s', invalidChildren d' = invalidChildren d → good [] (invalidChildren d) (d_heap d') s' (r :: p :: chain) →
    wp (modify (set_cur (Some p))) d' (λ _ d', inv (p :: chain) d')) as Hend.
  { intros d' s' Ei Hg'. apply wp_modify. split; [done|]. exists s'. cbn. rewrite Ei. by eapply good_tail. }
  unfold on_empty. apply wp_bind. eapply wp_field; [exact Hr|]. rewrite Hp.
  eapply (wp_seq _ _ _ (λ _ d', d' = d)).
  { destruct (_ || _); [|by apply wp_ret].
    destruct (isEmpty_total _ _ _ _ _ r d_nonEmpty Hg) as [b E]; [done|by eexists|].
    eapply wp_lift; [exact E|]. apply with_heap_same. }
  intros [] ? ->; [|by eapply Hend]. destruct (paddEmpty rl).
  - destruct (good_empty _ _ _ _ _ _ Hg) as (h1 & s1 & E1 & Hpl1 & Hg1 & Hch1 & Hp1).
    apply wp_bind. eapply wp_lift; [exact E1|].
    destruct (good_alloc _ _ _ _ _ (new_node (js "#text") (TStr (js "3"))) Hg1) as (t & E2 & Ht & Hpt & Hct & Hg2); [done|].
    apply wp_bind. eapply wp_lift; [exact E2|]. set (h2 := <[t := _]> h1) in *.
    assert (h2 !! t = Some (new_node (js "#text") (TStr (js "3")))) as Ht2 by apply lookup_insert_eq.
    assert (t ∉ r :: p :: chain) as Hnt by (intros Hin; destruct (path_dom _ _ _ (g_types _ _ _ _ _ Hg1) Hin); congruence).
    destruct (good_append _ _ _ _ _ r t Hg2) as (h3 & E3 & Hpl3 & Hg3); [by left|by eexists|done..|by right; rewrite Ht2|].
    apply wp_bind. eapply wp_lift; [exact E3|].
    destruct (same_payload_lookup h3 h2 t _ (symmetry Hpl3) Ht2) as (m & Hm & Hm').
    destruct (good_upd _ [] _ _ _ _ t m (set_value (Some nbsp)) Hg3 Hm) as [E4 Hg4]; [done|set_solver| |].
    { intros _. pose proof (payload_type _ _ Hm') as Et. cbn in Et. split; cbn; [congruence|by eexists]. }
    apply wp_bind. eapply wp_lift; [exact E4|]. by eapply Hend.
  - apply wp_bind. eapply wp_field; [exact Hr|].
    destruct (g_ok _ _ _ _ _ Hg r n Hr) as [[a Ha] _]; [set_solver| |].
    { destruct (g_types _ _ _ _ _ Hg) as [Ht _]. rewrite Hr in Ht. cbn in Ht. congruence. }
    rewrite Ha. apply wp_bind. eapply wp_oget; [done|]. destruct (_ || _); [by eapply Hend|].
    destruct (good_empty _ _ _ _ _ _ Hg) as (h1 & s1 & E1 & Hpl1 & Hg1 & Hch1 & Hp1).
    apply wp_bind. eapply wp_lift; [exact E1|].
    pose proof (path_head_notin _ _ _ _ (g_wf _ _ _ _ _ Hg1) (g_path _ _ _ _ _ Hg1)) as Hrn.
    apply good_tail in Hg1. destruct (good_remove _ _ _ _ _ r Hg1) as (h2 & E2 & Hg2); [|done|].
    { apply (same_payload_dom _ _ r Hpl1). by eexists. }
    apply wp_bind. eapply wp_lift; [exact E2|]. apply wp_modify. split; [done|]. by exists (detach r s1).
Qed.

Lemma on_end_ok name r p chain d : opens name = true → inv (r :: p :: chain) d →
  wp (on_end cfg name) d (λ _ d', inv (p :: chain) d').
Proof.
  unfold on_end, opens. destruct (rule_of cfg name) as [rl|]; [|done]. intros _ Hi.
  assert (∀ d, st_ok [] [] (r :: p :: chain) (Some r) d → is_Some (d_heap d !! r)) as Hdom.
  { intros d' (_ & s & Hg). eapply path_dom; [apply Hg|by left]. }
  apply wp_bind. eapply wp_current; [apply Hi|]. apply wp_bind, wp_gets.
  eapply (wp_seq _ _ _ (λ _ d', st_ok [] [] (r :: p :: chain) (Some r) d')).
  { destruct (_ && _); [|by apply wp_ret]. eapply wp_seq; [apply (trim_side_ok true (r :: p :: chain) (Some r)); [done|by apply Hdom]|].
    intros [] d' Hi'. apply trim_side_ok; [done|by apply Hdom]. }
  intros [] d' Hi'. apply wp_bind, wp_modify. apply on_empty_ok.
  generalize (inPre d' && Obj.has name d_whiteSpace). intros w. destruct w; exact Hi'.
Qed.

Lemma on_end_skip name d : opens name = false → on_end cfg name d = Some (tt, d).
Proof. unfold on_end, opens. by destruct (rule_of cfg name). Qed.

(** The open names that have an element of their own. *)
Definition depth (names : list jstr) : nat := length (List.filter opens names).

(** One call: the names open after it, and the elements. *)
Lemma handle_ok e chain names names' d : filters_ok → event_ok e →
  balanced names [e] = Some names' → inv chain d → length chain = S (depth names) →
  wp (handle cfg fs e) d (λ _ d', ∃ chain', inv chain' d' ∧ length chain' = S (depth names') ∧ last chain' = last chain).
Proof.
  intros Hf He Hb Hi Hl. destruct chain as [|c chain]; [done|].
  assert (∀ d', inv (c :: chain) d' → names' = names →
    ∃ chain', inv chain' d' ∧ length chain' = S (depth names') ∧ last chain' = last (c :: chain)) as Hsame.
  { intros d' Hd ->. by exists (c :: chain). }
  destruct e as [name l b|name|t raw|t|t|name t|t]; cbn [handle].
  - eapply wp_mono; [|by eapply on_start_ok]. intros _ d' (up & Hd & Hu). exists (up ++ c :: chain).
    split_and!; [done| |rewrite last_app; destruct (last (c :: chain)) eqn:Ela; [done|by apply last_None in Ela]].
    rewrite length_app, Hu, Hl. unfold depth. destruct b; cbn in Hb; injection Hb as <-; cbn.
    + by rewrite andb_false_r.
    + destruct (opens name); cbn; lia.
  - cbn in Hb. destruct names as [|top names]; [done|]. destruct (str_eqb top name) eqn:Et; [|done].
    apply str_eqb_true in Et as ->. injection Hb as <-. unfold depth in Hl. cbn in Hl.
    destruct (opens name) eqn:Eo.
    + cbn in Hl. destruct chain as [|p chain]; [done|].
      eapply wp_mono; [|by eapply on_end_ok]. intros [] d' Hd. exists (p :: chain).
      split_and!; [done|cbn in *; unfold depth; lia|done].
    + exists tt, d. split; [by apply on_end_skip|]. by exists (c :: chain).
  - eapply wp_mono; [|by apply on_text_ok]. intros [] d' Hd. apply Hsame; [done|]. cbn in Hb. congruence.
  - eapply wp_seq; [by apply append_new_ok|]. intros r' d' Hd. apply wp_ret, Hsame; [done|]. cbn in Hb. congruence.
  - eapply wp_seq; [by apply append_new_ok|]. intros r' d' Hd. apply wp_ret, Hsame; [done|]. cbn in Hb. congruence.
  - eapply wp_seq; [by apply append_new_ok|]. intros r' d' Hd. apply wp_bind. eapply wp_current; [apply Hd|].
    eapply wp_mono; [|apply removeWhitespaceBefore_ok; [exact Hd|]].
    + intros [] d2 Hd2. apply Hsame; [done|]. cbn in Hb. congruence.
    + destruct Hd as (_ & s & Hg). eapply path_dom; [apply Hg|by left].
  - eapply wp_seq; [by apply append_new_ok|]. intros r' d' Hd. apply wp_bind. eapply wp_current; [apply Hd|].
    eapply wp_mono; [|apply removeWhitespaceBefore_ok; [exact Hd|]].
    + intros [] d2 Hd2. apply Hsame; [done|]. cbn in Hb. congruence.
    + destruct Hd as (_ & s & Hg). eapply path_dom; [apply Hg|by left].
Qed.

Lemma handle_all_ok es : ∀ chain names names' d, filters_ok → Forall event_ok es →
  balanced names es = Some names' → inv chain d → length chain = S (depth names) →
  wp (handle_all cfg fs es) d (λ _ d', ∃ chain', inv chain' d' ∧ length chain' = S (depth names') ∧ last chain' = last chain).
Proof.
  induction es as [|e es IH]; intros chain names names' d Hf He Hb Hi Hl.
  - apply wp_ret. cbn in Hb. injection Hb as <-. by exists chain.
  - apply Forall_cons in He as [He Hes]. change (e :: es) with ([e] ++ es) in Hb. rewrite balanced_app in Hb.
    destruct (balanced names [e]) as [n1|] eqn:E1; [|done]. cbn in Hb.
    cbn [handle_all]. eapply wp_seq; [by eapply handle_ok|]. intros _ d1 (chain1 & Hi1 & Hl1 & Ha1).
    eapply wp_mono; [|by eapply (IH chain1 n1)]. intros _ d2 (chain2 & Hi2 & Hl2 & Ha2). exists chain2.
    split_and!; [done|done|]. by rewrite Ha2.
Qed.
End Handlers.

(** ** From a document to the tree *)
(** The store of a run at the start. *)
Lemma start_inv `{DomSchema} cfg a : ∃ root d, start_state cfg a = (root, d) ∧ inv [root] d.
Proof.
  unfold start_state. set (nm := match context a with Some (_ :: _) => _ | _ => _ end). clearbody nm.
  eexists _, _. split; [reflexivity|]. set (r := fresh _). clearbody r. split; [done|].
  exists (Shape (λ _, []) (λ _, None)). cbn [d_heap invalidChildren app]. constructor.
  - constructor; cbn.
    + intros p c. split; [by intros ?%elem_of_nil|done].
    + intros p. constructor.
    + intros c. by constructor.
    + done.
    + intros x n [<- <-]%lookup_singleton_Some. done.
  - intros x n [<- <-]%lookup_singleton_Some _. by split.
  - done.
  - cbn. by rewrite lookup_singleton_eq.
  - by intros.
Qed.

(** The names of the calls do not come from every object. *)
Definition name_plain (e : event) : Prop :=
  match e with EStart name _ _ | EPi name _ => Obj.is_proto name = false | _ => True end.

(** No inherited name occurs in the document, in its own case or in lower case. *)
Definition plain_document (html : jstr) : bool :=
  no_inherited_names html && forallb (λ k, negb (contains k html)) Obj.proto_names.

Lemma plain_factor html v : plain_document html = true → factor v html → Obj.is_proto v = false.
Proof.
  unfold plain_document. intros [_ Hn]%andb_true_iff Hf%factor_contains. rewrite forallb_forall in Hn.
  unfold Obj.is_proto. apply bool_decide_eq_false. intros Hin%list_elem_of_In.
  specialize (Hn _ Hin). by rewrite Hf in Hn.
Qed.

Section Names.
Context (nativeDecode : jstr -> jstr) `{ParserSchema} (cfg : SaxParser.settings) (html : jstr).
Context (Hplain : plain_document html = true).

Definition names_plain (st : sax) : Prop := Forall name_plain (out st).

Lemma names_emit es st : Forall name_plain es → names_plain st → names_plain (emit es st).
Proof using Type. intros He Hs. by apply Forall_app. Qed.

Lemma closing_plain up : Forall name_plain (closing up).
Proof using Type. unfold closing. apply Forall_fmap, Forall_forall. done. Qed.

Lemma names_end name st : names_plain st → names_plain (processEndTag name st).
Proof using Type.
  intros Hs. unfold processEndTag. destruct (cut_stack name (stack st)) as [[up s]|]; [|done].
  change (names_plain (emit (closing up) st)). apply names_emit; [apply closing_plain|done].
Qed.

Lemma names_start value m st p s st' : Obj.is_proto value = false → names_plain st →
  SaxParser.on_start nativeDecode cfg value m st = Some (p, s, st') → names_plain st'.
Proof using Type.
  intros Hv Hs. unfold SaxParser.on_start. destruct (start_tag _ _ _ _ _) as [[valid st1]|] eqn:E; [|done]. cbn.
  assert (names_plain st1) as H1.
  { apply start_tag_out in E as (_ & l & Eo). unfold names_plain. rewrite Eo. apply Forall_app. split.
    - destruct (close_same_cases cfg value st) as [-> | ->]; [done|]. by apply names_end.
    - destruct valid; [by apply Forall_singleton|done]. }
  destruct (Obj.get value specialElements) as [r|].
  - intros [= E']. unfold raw_element in E'.
    destruct (match exec_from r _ _ with Some _ => _ | None => _ end) as [[t q] s1]. injection E' as _ _ <-.
    destruct valid; [|done]. apply names_emit; [|done]. by destruct (truthy t); repeat constructor.
  - rewrite Hv. intros [= _ _ <-]. unfold push_element. destruct (Obj.has _ _); [done|].
    destruct (slash_ended st1); [|done]. destruct valid; [|done]. by apply names_emit; [repeat constructor|].
Qed.

Lemma names_token s p m st p' s' st' : factor s html → exec_from tokenRegExp p s = Some m → names_plain st →
  on_token nativeDecode cfg m st = Some (p', s', st') → names_plain st'.
Proof using Hplain.
  intros Hf Hm Hs. unfold on_token.
  assert (∀ n u, group_text n m = Some u → factor u html) as Hg.
  { intros n u Hu%(group_text_factor _ _ _ _ _ _ Hm). by eapply factor_trans. }
  destruct (group_text 6 m) as [v|]; [intros [= _ _ <-]; by apply names_end|].
  destruct (group_text 7 m) as [v|] eqn:E7.
  { apply names_start; [|done]. eapply not_inherited, Hg; [|done].
    unfold plain_document in Hplain. by apply andb_true_iff in Hplain as [? _]. }
  destruct (group_text 1 m); [intros [= _ _ <-]; apply names_emit; [by repeat constructor|done]|].
  destruct (group_text 2 m); [intros [= _ _ <-]; apply names_emit; [by repeat constructor|done]|].
  destruct (group_text 3 m); [intros [= _ _ <-]; apply names_emit; [by repeat constructor|done]|].
  destruct (group_text 4 m) as [v|] eqn:E4; intros [= _ _ <-]; [|done].
  apply names_emit; [|done]. apply Forall_singleton. cbn. by eapply plain_factor, Hg.
Qed.

(** What the tokenizer hands to the handlers, when it has what it relies on. *)
Lemma document_events :
  (∀ v r, Obj.is_proto v = false → elementRule v = Some r → is_Some (Schema.attributes r)) →
  (∀ v r, Obj.get v specialElements = Some r → Obj.has v shortEndedElements = false) →
  ∃ es, SaxParser.parse nativeDecode cfg html = Some es ∧ balanced [] es = Some [] ∧ Forall name_plain es.
Proof using Hplain.
  intros Hr Hsp. unfold SaxParser.parse.
  destruct (tokens_total nativeDecode cfg Hr html) with (S (length html)) 0%nat html init as [st E];
    [by apply andb_true_iff in Hplain as [? _]|lia|apply factor_refl|]. rewrite E.
  assert (names_plain st ∧ nested st) as [Hn Hne].
  { eapply (tokens_inv nativeDecode cfg html (λ st, names_plain st ∧ nested st)); [| |apply factor_refl| |exact E].
    - intros p s m st0 p' s' st' Hf Hm [] Et. split; [by eapply names_token|by eapply on_token_nested].
    - intros t st0 []. split; [|by apply nested_text]. destruct t; [done|]. by apply names_emit; [repeat constructor|].
    - split; [by apply Forall_nil|reflexivity]. }
  eexists. split; [reflexivity|]. split; [|by apply Forall_app; split; [|apply closing_plain]].
  rewrite balanced_app, Hne. cbn. rewrite <- (app_nil_r (stack st)) at 1. apply balanced_closing.
Qed.
End Names.

(** What the builder relies on of a schema: every rule has attributes and no
    inherited output name, and no raw-text element is an empty one. *)
Definition schema_ok `{DomSchema} : Prop :=
  (∀ v r, Obj.is_proto v = false → elementRule v = Some r →
     is_Some (Schema.attributes r) ∧ ∀ o, outputName r = Some o → Obj.is_proto o = false)
  ∧ (∀ v r, Obj.get v specialElements = Some r → Obj.has v shortEndedElements = false).

(** C6: Every document without inherited names is read and built to its end: no handler throws,
    every element opened is left again so that the root is the current node, the pointers of the store are those
    of a tree with the root on top, and every element below a parent that may not have it is on the list to repair. *)
Theorem document_built `{DomSchema} (nativeDecode : jstr -> jstr) (cfg : settings) (fs : filters) (html : jstr) (a : args) :
  schema_ok → filters_ok fs → plain_document html = true →
  ∃ es root d d' s, SaxParser.parse nativeDecode (sax_settings cfg) html = Some es
    ∧ start_state cfg a = (root, d) ∧ handle_all cfg fs es d = Some (tt, d')
    ∧ cur d' = Some root ∧ wf (d_heap d') s ∧ par s root = None
    ∧ reported (invalidChildren d') (d_heap d') s.
Proof.
  intros [Hr Hsp] Hf Hp. destruct (start_inv cfg a) as (root & d & Ed & Hi).
  destruct (document_events nativeDecode (sax_settings cfg) html Hp) as (es & E & Hb & Hn);
    [by intros v r Hv Hvr; apply (Hr v r)|done|].
  assert (Forall (event_ok cfg) es) as He.
  { eapply Forall_impl; [exact Hn|]. intros [name l b| | | | |name t|] He; [|exact I|exact I|exact I|exact I|exact He|exact I].
    split; [exact He|]. intros rl o. unfold rule_of. destruct (validate cfg); [|by intros [= <-]]. intros Hrl. by apply (Hr name). }
  destruct (handle_all_ok cfg fs es [root] [] [] d Hf He Hb Hi eq_refl) as ([] & d' & Ed' & chain & Hi' & Hl & Hla).
  exists es, root, d, d'. destruct chain as [|c [|? ?]]; [discriminate Hl| |discriminate Hl]. cbn in Hla. injection Hla as ->.
  destruct Hi' as (Hc & s & Hg). exists s.
  split; [exact E|]. split; [exact Ed|]. split; [exact Ed'|]. split; [exact Hc|]. split; [apply Hg|].
  split; [apply Hg|]. apply (g_bad _ _ _ _ _ Hg).
Qed.

Definition sample_dom : DomSchema := schema_dom default_schema.1 default_schema.2.
Definition sample_settings : settings := Settings true [] false false None [] true false.
Definition sample_args : args := Args None None false.

Definition dom_rules_decided (s : schema) : bool :=
  forallb (λ r, (if Schema.attributes r is Some _ then true else false)
                && (if outputName r is Some o then negb (Obj.is_proto o) else true))
    ((s_elements s).*2 ++ s_patterns s).

Lemma dom_rules s sh : dom_rules_decided s = true → specials_decided (schema_parser s sh) = true →
  @schema_ok (schema_dom s sh).
Proof.
  intros Hd Hs. split; [|by apply specials_ok].
  unfold dom_rules_decided in Hd. rewrite forallb_forall in Hd. intros v r Hv E. cbn in E.
  assert (r ∈ (s_elements s).*2 ++ s_patterns s) as Hin.
  { unfold getElementRule in E. rewrite Hv in E. apply elem_of_app.
    destruct (Obj.get v (s_elements s)) as [r'|] eqn:Eg.
    - left. injection E as ->. apply Obj.get_Some_elem in Eg. by apply (list_elem_of_fmap_2 snd) in Eg.
    - right. by apply last_match_elem in E. }
  apply list_elem_of_In, Hd, andb_true_iff in Hin as [Ha Ho]. split; [by destruct (Schema.attributes r)|].
  intros o Eo. rewrite Eo in Ho. by apply negb_true_iff in Ho.
Qed.

Lemma document_built_witness : ∃ es root d d' s,
  SaxParser.parse no_entities (H := @sax_schema sample_dom) (sax_settings sample_settings (H := sample_dom)) sample_html = Some es
    ∧ start_state sample_settings sample_args = (root, d)
    ∧ handle_all sample_settings (new_DomParser sample_settings) (H := sample_dom) es d = Some (tt, d')
    ∧ cur d' = Some root ∧ wf (d_heap d') s ∧ par s root = None
    ∧ @reported sample_dom (invalidChildren d') (d_heap d') s.
Proof.
  apply (@document_built sample_dom no_entities sample_settings (new_DomParser sample_settings) sample_html sample_args).
  - apply dom_rules; vm_compute; reflexivity.
  - refine (bool_decide_unpack _ _). vm_compute. exact I.
  - vm_compute. reflexivity.
Defined.
