(* ===== verification/RoundTrip.v ===== *)
(** * Written documents read back

    The writer and the tokenizer together: what [html/Writer.js] makes of a sequence of calls,
    [html/SaxParser.js] turns into the same calls again. *)

From S2P Require Import Prelude Regexp Tools Entities Writer Schema SaxParser.

(** ** Encoders that can be undone

    What the writer and the tokenizer need of an encoder. *)
Class Codec (nativeDecode : jstr -> jstr) (enc : jstr -> bool -> jstr) : Prop := {
  codec_decode t attr : Entities.decode nativeDecode (enc t attr) = t;
  codec_safe t attr : Forall (safe_unit attr) (enc t attr)
}.

#[export] Instance raw_codec nd : Codec nd encodeRaw.
Proof. split; [apply raw_decoded|apply raw_safe]. Qed.
#[export] Instance named_codec nd : Codec nd (λ t attr, encodeNamed t attr namedEntities).
Proof. split; [apply named_decoded|apply named_safe]. Qed.

(** ** More rules for reading *)
Lemma refuses_str w s : starts_with w s = false → refuses (RStr w) s.
Proof.
  revert s. induction w as [|a w IH]; intros s Hs; [done|]. destruct s as [|b s].
  { destruct w; intros p cs k; by cbn. }
  cbn [starts_with] in Hs. destruct w as [|a' w].
  - rewrite andb_true_r in Hs. apply refuses_char. cbn. by rewrite Hs.
  - intros p cs k. change (RStr (a :: a' :: w)) with (RSeq (RChar a) (RStr (a' :: w))).
    rewrite mtch_seq. unfold RChar. rewrite mtch_set_cons. destruct (Z.eqb_spec a b) as [->|]; [|done].
    by apply IH.
Qed.

(** A star of an expression without groups over several pieces. *)
Fixpoint pieces (a : re) (cs : list (nat * jstr)) (l : list jstr) (t : jstr) : Prop :=
  match l with
  | [] => refuses a t
  | u :: l => u ≠ [] ∧ reads a u (concat l ++ t) cs cs ∧ pieces a cs l t
  end.

Lemma reads_pieces a cs l t : groups a = [] → pieces a cs l t → reads (RStar true a) (concat l) t cs cs.
Proof.
  intros Ha Hl p k x Hk. cbn [mtch]. rewrite Ha. assert (∀ n l p, (length (concat l ++ t) ≤ n)%nat → pieces a cs l t →
    k (MS t (p + length (concat l))%nat cs) = Some x →
    star_loop (mtch a) [] true n (MS (concat l ++ t) p cs) k = Some x) as H; [|by apply H].
  clear p l Hl Hk. induction n as [|n IH]; intros l p Hn Hl Hk.
  { destruct l as [|u l]; [|destruct Hl as (Hu & _); destruct u; [done|]; cbn [concat] in Hn; rewrite !length_app in Hn; cbn [length] in Hn; lia].
    cbn in *. by rewrite Nat.add_0_r in Hk. }
  cbn [star_loop]. rewrite reset_caps_nil. destruct l as [|u l].
  { cbn in *. by rewrite Hl, Nat.add_0_r in *. }
  destruct Hl as (Hu & Hr & Hl). cbn [concat]. rewrite <- app_assoc. erewrite (Hr p); [done|].
  cbn [pos]. destruct u as [|c u]; [done|]. rewrite (proj2 (Nat.eqb_neq _ _)) by (cbn; lia).
  apply IH; [|done|].
  - cbn [concat] in Hn. rewrite !length_app in *. cbn [length] in Hn. lia.
  - rewrite <- Nat.add_assoc, <- length_app. exact Hk.
Qed.

(** A lazy run up to the first place where the rest can go on. *)
Lemma lazy_run cs k x s : ∀ u n q, (length (u ++ s) ≤ n)%nat →
  (∀ a c d, u = a ++ c :: d → k (MS (c :: d ++ s) (q + length a)%nat cs) = None) →
  k (MS s (q + length u)%nat cs) = Some x →
  star_loop (mtch (RSet any)) [] false n (MS (u ++ s) q cs) k = Some x.
Proof.
  induction u as [|c u IH]; intros n q Hn Hk Hx.
  - cbn in Hx. rewrite Nat.add_0_r in Hx. destruct n; cbn; by rewrite Hx.
  - destruct n as [|n]; [cbn in Hn; lia|]. cbn [star_loop app]. specialize (Hk []) as Hk0. cbn in Hk0. rewrite Nat.add_0_r in Hk0.
    rewrite (Hk0 c u eq_refl). rewrite reset_caps_nil, mtch_set_cons. cbn [any pos].
    rewrite (proj2 (Nat.eqb_neq _ _)) by lia. apply IH.
    + cbn in Hn. lia.
    + intros a d e ->. rewrite Nat.add_succ_l, <- Nat.add_succ_r. by apply (Hk (c :: a)).
    + rewrite Nat.add_succ_l, <- Nat.add_succ_r. exact Hx.
Qed.

(** No suffix of [u] (before [v]) starts with what [f] looks for. *)
Fixpoint late (f : jstr -> bool) (u v : jstr) : bool :=
  match u with [] => true | _ :: u' => negb (f (u ++ v)) && late f u' v end.

Lemma late_split f a c d v : late f (a ++ c :: d) v = true → f (c :: d ++ v) = false.
Proof.
  induction a as [|b a IH]; cbn; intros [Hn Hl]%andb_true_iff; [by apply negb_true_iff|by apply IH].
Qed.

Lemma reads_lazy n b (f : jstr -> bool) u v t cs cs' : (∀ s, f s = false → refuses b s) → late f u (v ++ t) = true →
  reads b v t (capture n u cs) cs' →
  reads (RSeq (RGroup n (RStar false (RSet any))) b) (u ++ v) t cs cs'.
Proof.
  intros Hf Hl Hb p k x Hk. rewrite mtch_seq, mtch_group. cbn [mtch groups rest pos]. rewrite <- app_assoc.
  apply lazy_run; [done| |].
  - intros a c d ->. apply Hf. by eapply late_split.
  - cbn [rest pos caps]. replace (p + length u - p)%nat with (length u) by lia. rewrite take_app_length.
    apply Hb. by rewrite <- Nat.add_assoc, <- length_app.
Qed.

Lemma late_app f u v t : (∀ a c d, u = a ++ c :: d → f (c :: d ++ v ++ t) = f (c :: d ++ v)) →
  late f u v = true → late f u (v ++ t) = true.
Proof.
  induction u as [|c u IH]; intros Hf Hl; [done|]. cbn [late] in *. apply andb_true_iff in Hl as [Hc Hl].
  specialize (Hf [] c u eq_refl) as Hf0. cbn [app] in *. rewrite Hf0, Hc. apply IH; [|done].
  intros a b d ->. by apply (Hf (c :: a)).
Qed.

Lemma starts_with_long p s t : (length p ≤ length s)%nat → starts_with p (s ++ t) = starts_with p s.
Proof.
  revert s. induction p as [|a p IH]; intros s Hs; [done|]. destruct s as [|b s]; [cbn in Hs; lia|].
  cbn in *. rewrite IH by lia. done.
Qed.

Lemma late_text p u t : late (starts_with p) u p = true → late (starts_with p) u (p ++ t) = true.
Proof.
  apply late_app. intros a c d _. change (c :: d ++ p ++ t) with ((c :: d) ++ p ++ t). rewrite (app_assoc (c :: d) p t).
  change (c :: d ++ p) with ((c :: d) ++ p). apply starts_with_long. rewrite length_app. lia.
Qed.

Lemma capture_nil n u : capture n u [] = [(n, u)].
Proof. done. Qed.

(** ** Calls that can be read back *)
Section RoundTrip.
Context (nativeDecode : jstr -> jstr) `{ParserSchema} (cfg : SaxParser.settings) (w : writer) `{!Codec nativeDecode (encode w)}.

(** The name of an element: signs of names in lower case; not one whose text is read differently, not inherited. *)
Definition plain_tag (n : jstr) : Prop :=
  n ≠ [] ∧ forallb name_unit n = true ∧ lower_name n = n ∧ Obj.get n specialElements = None ∧ Obj.is_proto n = false.

Definition attr_unit : cset := λ c, is_word c || any_of ":-" c.

(** An attribute; a boolean one has its name as value, and no address is a script. *)
Definition plain_attr (a : jstr * jstr) : Prop :=
  a.1 ≠ [] ∧ forallb attr_unit a.1 = true ∧ to_lower a.1 = a.1
  ∧ (Obj.has a.1 boolAttrs = true → a.2 = a.1) ∧ blocked cfg a.1 a.2 = false.

Definition attr_text (a : jstr * jstr) : jstr := concat (attr_pieces w a).
Definition attrs_text (l : list (jstr * jstr)) : jstr := concat (attr_text <$> l).

(** The attributes as the parser stores them. *)
Definition stored (l : list (jstr * jstr)) : attr_list := fold_left (λ s a, push_attr a.1 a.2 s) l ([], []).

(** A validating parser has a rule for the element, which allows the attributes and adds none. *)
Definition accepted (n : jstr) (l : list (jstr * jstr)) : Prop :=
  validate cfg = true → ∃ r, elementRule n = Some r
    ∧ Forall (λ a, starts_with (js "data-") a.1 = true ∨ attr_allowed r a.1 a.2 = Some true) l
    ∧ ∀ k, process_attrs r (stored l) k = (stored l, k, true).

Definition pi_unit : cset := λ c, negb (is_space c) && none_of "/<>" c.
Definition pi_close (s : jstr) : bool := match s with c :: d :: _ => any_of "?/" c && (d =? 62) | _ => false end.

Definition plain_event (e : event) : Prop :=
  match e with
  | EStart n attrs empty => ∃ l, attrs = Some l ∧ plain_tag n ∧ Forall plain_attr l ∧ accepted n l
      ∧ contains (js "data-mce-type") (attrs_text l ++ js " /") = false ∧ Obj.has n shortEndedElements = empty
  | EEnd n => plain_tag n
  | EText t raw => raw = false ∧ t ≠ []
  | EComment t => ∃ u, t = Some u ∧ u ≠ [] ∧ comment_text cfg u = u ∧ late (starts_with (js "-->")) u (js "-->") = true
  | ECdata t => ∃ u, t = Some u ∧ u ≠ [] ∧ late (starts_with (js "]]>")) u (js "]]>") = true
  | EDoctype t => ∃ u, t = Some u ∧ u ≠ [] ∧ forallb (λ c, negb (c =? 62)) u = true
  | EPi n t => ∃ u, t = Some u ∧ n ≠ [] ∧ forallb pi_unit n = true ∧ u ≠ [] ∧ late pi_close u (js "?>") = true
  end.

(** ** What the expression captures of each call *)
(** The slash of an empty element, after its attributes. *)
Definition slash (empty : bool) : jstr := if negb empty || htmlOutput w then [] else js " /".

Definition token_caps (e : event) : list (nat * jstr) :=
  match e with
  | EStart n attrs empty => [(8%nat, attrs_text (default [] attrs) ++ slash empty); (7%nat, n)]
  | EEnd n => [(6%nat, n)]
  | EText _ _ => []
  | EComment t => [(1%nat, default [] t)]
  | ECdata t => [(2%nat, default [] t)]
  | EDoctype t => [(3%nat, default [] t)]
  | EPi n t => [(5%nat, default [] t); (4%nat, n)]
  end.

Lemma reads_lazy_str n p u t cs : late (starts_with p) u p = true →
  reads (RSeq (RGroup n (RStar false (RSet any))) (RStr p)) (u ++ p) t cs (capture n u cs).
Proof. intros Hl. eapply reads_lazy; [apply refuses_str|by apply late_text|apply reads_str]. Qed.

Lemma reads_comment u t : late (starts_with (js "-->")) u (js "-->") = true →
  reads tokenRegExp (js "<!--" ++ u ++ js "-->") t [] [(1%nat, u)].
Proof.
  intros Hl. apply (reads_seq (RChar 60) _ (js "<") (js "!--" ++ u ++ js "-->") t [] []); [apply reads_char|].
  apply reads_alt_l. eapply reads_seq; [apply reads_str|]. by apply reads_lazy_str.
Qed.

Lemma reads_cdata u t : late (starts_with (js "]]>")) u (js "]]>") = true →
  reads tokenRegExp (js "<![CDATA[" ++ u ++ js "]]>") t [] [(2%nat, u)].
Proof.
  intros Hl. apply (reads_seq (RChar 60) _ (js "<") (js "![CDATA[" ++ u ++ js "]]>") t [] []); [apply reads_char|].
  apply reads_alt_r; [by apply refuses_seq, refuses_str|]. apply reads_alt_l.
  eapply reads_seq; [apply reads_str|]. by apply reads_lazy_str.
Qed.

Lemma reads_doctype u t : forallb (λ c, negb (c =? 62)) u = true →
  reads tokenRegExp (js "<!DOCTYPE" ++ u ++ js ">") t [] [(3%nat, u)].
Proof.
  intros Hu. apply (reads_seq (RChar 60) _ (js "<") (js "!DOCTYPE" ++ u ++ js ">") t [] []); [apply reads_char|].
  do 2 (apply reads_alt_r; [by apply refuses_seq, refuses_str|]). apply reads_alt_l.
  eapply reads_seq; [apply reads_str|]. eapply reads_lazy with (f := λ s, negb (stops (Z.eqb 62) s)).
  - intros s Hs. apply refuses_char. by apply negb_false_iff in Hs.
  - induction u as [|c u IH]; [done|]. cbn [forallb late app stops] in *. apply andb_true_iff in Hu as [Hc Hu].
    rewrite IH, (Z.eqb_sym 62 c), Hc by done. done.
  - apply reads_char.
Qed.

Lemma reads_pi n u t : n ≠ [] → forallb pi_unit n = true → late pi_close u (js "?>") = true →
  reads tokenRegExp (js "<?" ++ n ++ js " " ++ u ++ js "?>") t [] [(5%nat, u); (4%nat, n)].
Proof.
  intros Hne Hn Hl. apply (reads_seq (RChar 60) _ (js "<") (js "?" ++ n ++ js " " ++ u ++ js "?>") t [] []); [apply reads_char|].
  do 3 (apply reads_alt_r; [by apply refuses_seq, refuses_str|]). apply reads_alt_l.
  eapply reads_seq; [apply reads_char|]. eapply reads_seq; [apply reads_group, reads_plus; done|].
  eapply reads_seq; [apply reads_alt_l, reads_char|]. apply reads_lazy with (f := pi_close).
  - intros s Hs p cs k. rewrite mtch_seq. destruct s as [|c s]; [done|]. rewrite mtch_set_cons.
    destruct (any_of "?/" c) eqn:E; [|done]. destruct s as [|d s]; [done|]. unfold RChar. rewrite mtch_set_cons.
    cbn [pi_close] in Hs. rewrite E in Hs. cbn [andb] in Hs. by rewrite Z.eqb_sym, Hs.
  - apply late_app; [|done]. intros a c d _. destruct d; done.
  - apply (reads_seq _ _ (js "?") (js ">") t _ (capture 5 u (capture 4 n []))); [by apply reads_set|apply reads_char].
Qed.
(** ** Tags *)
Lemma tag_unit_inv c : name_unit c = true → c ≠ 33 ∧ c ≠ 47 ∧ c ≠ 63 ∧ c ≠ 62 ∧ c ≠ 60.
Proof. intros Hc. split_and!; intros ->; by vm_compute in Hc. Qed.

Lemma attr_unit_inv c : attr_unit c = true → is_space c = false ∧ (none_of "'>" c && negb (c =? dquote) = true).
Proof.
  intros Hc. unfold attr_unit, is_word, any_of, between in Hc.
  change (js ":-") with [58; 45] in Hc. cbn [existsb] in Hc. split.
  - unfold is_space, between. lia.
  - unfold none_of, dquote. change (js "'>") with [39; 62]. cbn [existsb]. lia.
Qed.

Lemma reads_end n t : n ≠ [] → forallb name_unit n = true → reads tokenRegExp (js "</" ++ n ++ js ">") t [] [(6%nat, n)].
Proof.
  intros Hne Hn. rewrite <- (capture_nil 6 n). apply (reads_seq (RChar 60) _ (js "<") (js "/" ++ n ++ js ">") t [] []); [apply reads_char|].
  do 3 (apply reads_alt_r; [by apply refuses_seq, refuses_str|]). apply reads_alt_r; [by apply refuses_seq, refuses_char|].
  apply reads_alt_l. eapply reads_seq; [apply reads_char|]. eapply reads_seq; [|apply reads_char].
  apply reads_group, reads_plus; [done| |done]. revert Hn. apply forallb_imp.
  intros c (_ & _ & _ & Hc & _)%tag_unit_inv. unfold none_of. cbn. rewrite orb_false_r. by apply negb_true_iff, Z.eqb_neq.
Qed.

Lemma safe_attr t : forallb (λ c, negb (c =? dquote)) (encode w t true) = true.
Proof using Codec0.
  pose proof (codec_safe t true) as Hs. rewrite Forall_forall in Hs. apply forallb_forall. intros c Hc.
  apply list_elem_of_In in Hc. destruct (Hs c Hc) as (_ & _ & Hq). apply negb_true_iff, Z.eqb_neq. by apply Hq.
Qed.

Lemma reads_attr a t cs : plain_attr a → reads attribsPart (attr_text a) t cs cs.
Proof using Codec0.
  intros (Hne & Ha & _). unfold attr_text. change (concat (attr_pieces w a)) with (js " " ++ a.1 ++ [61; 34] ++ encode w a.2 true ++ [34]).
  assert (forallb (λ c, none_of "'>" c && negb (c =? dquote)) (a.1 ++ [61]) = true) as Hset.
  { rewrite forallb_app. assert (forallb (λ c, none_of "'>" c && negb (c =? dquote)) a.1 = true) as ->; [|done].
    revert Ha. apply forallb_imp. by intros c [_ Hc]%attr_unit_inv. }
  change (js " " ++ a.1 ++ [61; 34] ++ encode w a.2 true ++ [34]) with (js " " ++ a.1 ++ [61] ++ ([34] ++ encode w a.2 true ++ [34])).
  rewrite (app_assoc a.1). eapply reads_seq.
  { apply reads_plus; [done..|]. destruct a.1 as [|c n]; [done|]. cbn in Ha. apply andb_true_iff in Ha as [Hc _].
    apply attr_unit_inv in Hc as [Hc _]. cbn [app stops]. by rewrite Hc. }
  eapply reads_seq; [apply reads_plus; [by destruct a.1|done|done]|]. apply reads_alt_l.
  eapply reads_seq; [apply reads_char|]. eapply reads_seq; [|apply reads_char]. apply reads_star; [apply safe_attr|done].
Qed.
Lemma reads_slash t cs : reads attribsPart (js " /") (62 :: t) cs cs.
Proof.
  apply (reads_seq _ _ (js " ") (js "/") _ cs cs); [by apply reads_plus|].
  apply (reads_seq _ _ (js "/") [] _ cs cs); [by apply reads_plus|].
  do 2 (apply reads_alt_r; [by apply refuses_seq, refuses_char|]). by apply reads_star.
Qed.

Definition slash_pieces (empty : bool) : list jstr := if negb empty || htmlOutput w then [] else [js " /"].

Lemma attribs_pieces cs l empty t : Forall plain_attr l → pieces attribsPart cs ((attr_text <$> l) ++ slash_pieces empty) (62 :: t).
Proof using Codec0.
  intros Hl. assert (∀ s, pieces attribsPart cs (slash_pieces empty) (62 :: s)) as Hs.
  { intros s. assert (refuses attribsPart (62 :: s)) by (by apply refuses_seq, refuses_seq, refuses_set).
    unfold slash_pieces. destruct (negb empty || htmlOutput w); [done|]. split_and!; [done| |done]. apply reads_slash. }
  induction Hl as [|a l Ha Hl IH]; [apply Hs|]. split_and!; [done| |exact IH]. by apply reads_attr.
Qed.

Lemma attribs_concat l empty : concat ((attr_text <$> l) ++ slash_pieces empty) = attrs_text l ++ slash empty.
Proof. rewrite concat_app. unfold slash_pieces, slash, attrs_text. by destruct (negb empty || htmlOutput w). Qed.

Lemma stops_attribs l empty t : stops name_unit (attrs_text l ++ slash empty ++ js ">" ++ t) = true.
Proof. destruct l as [|a l]; [|done]. unfold slash. by destruct (negb empty || htmlOutput w). Qed.

Lemma reads_start n l empty t : n ≠ [] → forallb name_unit n = true → Forall plain_attr l →
  reads tokenRegExp (js "<" ++ n ++ (attrs_text l ++ slash empty) ++ js ">") t [] [(8%nat, attrs_text l ++ slash empty); (7%nat, n)].
Proof using Codec0.
  intros Hne Hn Hl. assert (∃ c m, n = c :: m ∧ c ≠ 33 ∧ c ≠ 47 ∧ c ≠ 63) as (c & m & En & H33 & H47 & H63).
  { destruct n as [|c m]; [done|]. cbn in Hn. apply andb_true_iff in Hn as [Hc _]. apply tag_unit_inv in Hc as (? & ? & ? & _). eauto 10. }
  assert (∀ p v, starts_with (33 :: p) (n ++ v) = false) as H0.
  { intros p v. rewrite En. cbn [app starts_with]. by rewrite (proj2 (Z.eqb_neq _ _)). }
  eapply reads_seq; [apply reads_char|].
  do 3 (apply reads_alt_r; [rewrite <- (app_assoc n); apply refuses_seq, refuses_str, H0|]).
  do 2 (apply reads_alt_r; [rewrite En; apply refuses_seq, refuses_char; cbn [app stops]; by apply negb_true_iff, Z.eqb_neq|]).
  eapply reads_seq; [apply reads_group, reads_plus; [done..|]|].
  { rewrite <- !app_assoc. apply stops_attribs. }
  eapply reads_seq; [|apply reads_char]. rewrite <- attribs_concat.
  apply (reads_group 8 _ _ _ [(7%nat, n)] [(7%nat, n)]). apply reads_alt_l.
  apply reads_pieces; [done|]. by apply attribs_pieces.
Qed.
(** ** Attributes *)
Lemma reads_attribute a t : plain_attr a →
  reads attrRegExp (a.1 ++ [61; 34] ++ encode w a.2 true ++ [34]) t [] [(2%nat, encode w a.2 true); (1%nat, a.1)].
Proof using Codec0.
  intros (Hne & Ha & _). eapply reads_seq; [by apply reads_group, reads_plus|]. apply reads_alt_l.
  apply (reads_seq _ _ [] ([61] ++ [34] ++ encode w a.2 true ++ [34]) _ _ [(1%nat, a.1)]); [by apply reads_star|].
  eapply reads_seq; [apply reads_char|]. apply (reads_seq _ _ [] ([34] ++ encode w a.2 true ++ [34]) _ _ [(1%nat, a.1)]); [by apply reads_star|].
  apply reads_alt_l. eapply reads_seq; [apply reads_char|]. eapply reads_seq; [|apply reads_char].
  apply (reads_group 2 _ _ _ [(1%nat, a.1)] [(1%nat, a.1)]), reads_star; [apply safe_attr|done].
Qed.

Definition attr_ok (r : option rule) (a : jstr * jstr) : Prop :=
  ∀ r', r = Some r' → starts_with (js "data-") a.1 = true ∨ attr_allowed r' a.1 a.2 = Some true.

Lemma parse_one r a p u t acc : plain_attr a → attr_ok r a →
  parseAttribute nativeDecode cfg r (Some acc) (MR p u t [(2%nat, encode w a.2 true); (1%nat, a.1)]) = Some (push_attr a.1 a.2 acc).
Proof using Codec0.
  intros (_ & _ & Hlow & Hbool & Hb) Hr. unfold parseAttribute, group. cbv zeta.
  cbn [cap_get m_caps List.find fst snd Nat.eqb fmap option_fmap option_map default from_option mbind option_bind]. unfold id. rewrite Hlow.
  assert ((if Obj.has a.1 boolAttrs then a.1
    else decode nativeDecode (first_text [Some (encode w a.2 true); None; None])) = a.2) as ->.
  { destruct (Obj.has a.1 boolAttrs) eqn:E; [by rewrite Hbool|].
    assert (first_text [Some (encode w a.2 true); None; None] = encode w a.2 true) as -> by by destruct (encode w a.2 true).
    apply codec_decode. }
  assert (∀ ok : option bool, ok = Some true → (ok ≫= λ ok, if negb ok || blocked cfg a.1 a.2 then Some acc else Some (push_attr a.1 a.2 acc))
    = Some (push_attr a.1 a.2 acc)) as Hok by (intros ok ->; cbn; by rewrite Hb).
  apply Hok. destruct r as [r|]; [|done]. destruct (Hr r eq_refl) as [->|E]; [done|]. by destruct (starts_with _ _).
Qed.

Lemma skip_space n p s : all_matches_from (S n) attrRegExp p (32 :: s) = all_matches_from n attrRegExp (S p) s.
Proof.
  cbn [all_matches_from]. unfold match_here. assert (refuses attrRegExp (32 :: s)) as Hr; [|by rewrite Hr].
  by apply refuses_seq, refuses_group, refuses_seq, refuses_set.
Qed.

Lemma parse_list r l empty : Forall plain_attr l → Forall (attr_ok r) l → ∀ n p acc, (length (attrs_text l ++ slash empty) < n)%nat →
  fold_left (parseAttribute nativeDecode cfg r) (all_matches_from n attrRegExp p (attrs_text l ++ slash empty)) (Some acc)
    = Some (fold_left (λ s a, push_attr a.1 a.2 s) l acc).
Proof using Codec0.
  intros Hl. induction Hl as [|a l Ha Hl IH]; intros Hr n p acc Hn.
  { cbn [attrs_text fmap list_fmap concat app fold_left] in *. unfold slash in *. destruct (negb empty || htmlOutput w).
    - by destruct n.
    - destruct n as [|[|[|n]]]; cbn in Hn; try lia. done. }
  apply Forall_cons in Hr as [Hra Hr].
  assert (attrs_text (a :: l) ++ slash empty = 32 :: (a.1 ++ [61; 34] ++ encode w a.2 true ++ [34]) ++ attrs_text l ++ slash empty) as Et.
  { unfold attrs_text. cbn [fmap list_fmap concat]. unfold attr_text at 1. cbn [concat attr_pieces app js]. rewrite <- !app_assoc.
    cbn [app]. by rewrite <- !app_assoc. }
  rewrite Et in *. set (u := a.1 ++ _) in *. cbn [length] in Hn. rewrite !length_app in Hn.
  destruct n as [|n]; [lia|]. rewrite skip_space. destruct n as [|n]; [lia|]. cbn [all_matches_from].
  assert (match_here attrRegExp (S p) (u ++ attrs_text l ++ slash empty) =
    Some (MR (S p) u (attrs_text l ++ slash empty) [(2%nat, encode w a.2 true); (1%nat, a.1)])) as ->.
  { unfold match_here. rewrite (reads_attribute a _ Ha (S p) Some _ eq_refl). cbn [pos rest caps].
    by rewrite Nat.add_comm, Nat.add_sub, take_app_length. }
  cbn [m_text m_after fold_left]. rewrite parse_one by done. assert (length u ≠ 0%nat) as Hu by (unfold u; rewrite !length_app; cbn; lia).
  rewrite (proj2 (Nat.eqb_neq _ _) Hu). apply IH; [done|]. rewrite length_app. lia.
Qed.

Lemma parse_attribs r l empty m : group 8 m = Some (attrs_text l ++ slash empty) →
  Forall plain_attr l → Forall (attr_ok r) l → parse_attributes nativeDecode cfg r (group_text 8 m) = Some (stored l).
Proof using Codec0.
  intros Eg Hl Hr. unfold group_text. rewrite Eg.
  pose proof (parse_list r l empty Hl Hr (S (length (attrs_text l ++ slash empty))) 0 ([], []) ltac:(lia)) as H0.
  destruct (attrs_text l ++ slash empty) as [|c s]; exact H0.
Qed.
(** ** Tokens *)
Lemma stored_list l : (stored l).1 = l.
Proof.
  unfold stored. assert (∀ acc : attr_list, (fold_left (λ s a, push_attr a.1 a.2 s) l acc).1 = acc.1 ++ l) as H0; [|apply H0].
  induction l as [|a l IH]; intros acc; cbn; [by rewrite app_nil_r|]. rewrite IH. cbn. rewrite <- app_assoc. by destruct a.
Qed.

(** The parser is inside the elements [names]. *)
Record inside (names : list jstr) (st : sax) : Prop := {
  in_stack : stack st = (λ n, (n, true)) <$> names;
  in_internal : isInternalElement st = false
}.

(** An element that would close the one it stands in. *)
Definition closes_same (n : jstr) (names : list jstr) : bool :=
  match names with top :: _ => fix_self_closing cfg && Obj.has n (selfClosing cfg) && str_eqb top n | [] => false end.

Lemma close_same_plain n names st : inside names st → closes_same n names = false → close_same cfg n st = st.
Proof.
  intros [Hs _] Hc. unfold close_same. rewrite Hs. destruct names as [|top names]; [done|]. cbn in *. by rewrite Hc.
Qed.

Lemma no_internal l empty : contains (js "data-mce-type") (attrs_text l ++ js " /") = false →
  contains (js "data-mce-type") (attrs_text l ++ slash empty) = false.
Proof.
  intros Hc. unfold slash. destruct (negb empty || htmlOutput w); [|done]. rewrite app_nil_r.
  apply not_true_iff_false. intros Ht. by rewrite (contains_app_l _ _ (js " /") Ht) in Hc.
Qed.

Lemma open_plain n l empty m names st : group 8 m = Some (attrs_text l ++ slash empty) → inside names st →
  Forall plain_attr l → accepted n l → contains (js "data-mce-type") (attrs_text l ++ js " /") = false →
  closes_same n names = false →
  start_tag nativeDecode cfg n m st =
    Some (true, emit [EStart n (Some l) (Obj.has n shortEndedElements)] (set_attribs false (group_text 8 m) st)).
Proof using Codec0.
  intros Hg Hin Hl Hacc Hc Hs. unfold start_tag. rewrite (close_same_plain n names) by done.
  assert (∀ r, (validate cfg = true → Forall (attr_ok r) l ∧ ∀ r', r = Some r' → ∀ k, process_attrs r' (stored l) k = (stored l, k, true)) →
    open_element nativeDecode cfg n r (group_text 8 m) st =
      Some (true, emit [EStart n (Some l) (Obj.has n shortEndedElements)] (set_attribs false (group_text 8 m) st))) as Hopen.
  { intros r Hr. unfold open_element.
    assert (match group_text 8 m with Some a => contains (js "data-mce-type") a | None => isInternalElement st end = false) as ->.
    { unfold group_text. rewrite Hg. destruct (attrs_text l ++ slash empty) as [|c v] eqn:E; [apply Hin|].
      rewrite <- E. by apply no_internal. }
    cbv zeta. assert (validating cfg (set_attribs false (group_text 8 m) st) = validate cfg) as -> by apply andb_true_r.
    assert (Forall (attr_ok (if validate cfg then r else None)) l) as Hok.
    { destruct (validate cfg); [by apply Hr|]. apply Forall_true. intros a r' [=]. }
    rewrite (parse_attribs _ l empty m Hg Hl Hok). cbn [mbind option_bind].
    assert (match r with Some r => if validate cfg then process_attrs r (stored l)
        (idCount (set_attribs false (group_text 8 m) st)) else (stored l, idCount (set_attribs false (group_text 8 m) st), true)
      | None => (stored l, idCount (set_attribs false (group_text 8 m) st), true) end = (stored l, idCount st, true)) as ->.
    { destruct r as [r|]; [|done]. destruct (validate cfg) eqn:Ev; [|done]. by apply Hr. }
    rewrite andb_false_r. cbn [andb negb]. rewrite stored_list. by destruct st. }
  destruct (validate cfg) eqn:Ev.
  - destruct (Hacc Ev) as (r & -> & Hall & Hproc). apply Hopen. intros _. split; [|by intros r' [= <-]].
    eapply Forall_impl; [exact Hall|]. by intros a Ha r' [= <-].
  - by apply Hopen.
Qed.
Lemma index_of_unit_lookup c s i : index_of_unit c s = Some i → s !! i = Some c.
Proof.
  revert i. induction s as [|x s IH]; intros i; cbn; [done|]. destruct (Z.eqb_spec x c) as [->|]; [by intros [= <-]|].
  destruct (index_of_unit c s) as [j|]; [|done]. intros [= <-]. by apply IH.
Qed.

(** Written attributes end with a quote. *)
Lemma attrs_text_end a l : ∃ s, attrs_text (a :: l) = s ++ [34].
Proof.
  revert a. induction l as [|b l IH]; intros a.
  - exists (js " " ++ a.1 ++ [61; 34] ++ encode w a.2 true). unfold attrs_text. cbn [fmap list_fmap concat]. unfold attr_text.
    cbn [attr_pieces concat]. by rewrite !app_nil_r, <- !app_assoc.
  - destruct (IH b) as [s Hs]. exists (attr_text a ++ s). rewrite <- app_assoc, <- Hs. done.
Qed.

Lemma slash_ended_plain n l m st : group 8 m = Some (attrs_text l ++ slash false) → attribsValue st = group_text 8 m →
  push_element n true st = if Obj.has n shortEndedElements then st else set_stack ((n, true) :: stack st) st.
Proof.
  intros Hg Ha. unfold push_element. destruct (Obj.has n shortEndedElements); [done|].
  assert (slash_ended st = false) as ->; [|done]. unfold slash_ended, group_text in *. rewrite Ha, Hg.
  cbn [slash negb orb]. rewrite app_nil_r. destruct l as [|a l]; [done|]. destruct (attrs_text_end a l) as [s ->].
  destruct (s ++ [34]) as [|c t] eqn:E; [by destruct s|]. rewrite <- E. destruct (index_of_unit 47 (s ++ [34])) as [i|] eqn:Ei; [|done].
  apply index_of_unit_lookup in Ei. rewrite length_app. cbn [length]. apply Nat.eqb_neq. intros ->.
  rewrite Nat.add_sub, lookup_app_r, Nat.sub_diag in Ei by done. done.
Qed.

(** What a call needs of the open elements, and the elements that are open after it. *)
Definition ready (e : event) (names : list jstr) : bool :=
  match e with
  | EStart n _ _ => negb (closes_same n names)
  | EEnd n => bool_decide (head names = Some n)
  | EText _ _ => false
  | _ => true
  end.
Definition moved (e : event) (names : list jstr) : list jstr :=
  match e with EStart n _ false => n :: names | EEnd _ => tail names | _ => names end.

Definition reported (e : event) (names : list jstr) (st : sax) (m : mres) (r : option (nat * jstr * sax)) : Prop :=
  ∃ st', r = Some ((m_index m + length (m_text m))%nat, m_after m, st') ∧ out st' = out st ++ [e] ∧ inside (moved e names) st'.

Lemma start_reported n l empty names st m : plain_event (EStart n (Some l) empty) → m_caps m = token_caps (EStart n (Some l) empty) →
  inside names st → closes_same n names = false →
  reported (EStart n (Some l) empty) names st m (on_start nativeDecode cfg n m st).
Proof using Codec0.
  intros (l' & [= <-] & (Hne & _ & _ & Hsp & Hpr) & Hl & Hacc & Hc & Hshort) Hm Hin Hs.
  assert (group 8 m = Some (attrs_text l ++ slash empty)) as Hg by (unfold group; by rewrite Hm).
  unfold on_start. rewrite (open_plain n l empty m names) by done. cbn [mbind option_bind]. rewrite Hsp, Hpr.
  eexists. split; [done|]. destruct empty.
  - unfold push_element. rewrite Hshort. split; [done|]. split; [apply Hin|done].
  - rewrite (slash_ended_plain n l m) by done. rewrite Hshort. split; [done|]. split; [|done].
    cbn. f_equal. apply Hin.
Qed.

Lemma end_reported n names st m : inside (n :: names) st → lower_name n = n →
  reported (EEnd n) (n :: names) st m (Some ((m_index m + length (m_text m))%nat, m_after m, processEndTag (lower_name n) st)).
Proof.
  intros [Hs Hi] ->. eexists. split; [done|]. unfold processEndTag. rewrite Hs. cbn [fmap list_fmap cut_stack fst].
  unfold str_eqb. rewrite bool_decide_true by done. split; [done|]. split; [done|exact Hi].
Qed.

Lemma emit_reported e names st m : moved e names = names → inside names st →
  reported e names st m (Some ((m_index m + length (m_text m))%nat, m_after m, emit [e] st)).
Proof. intros Hm [Hs Hi]. eexists. split; [done|]. rewrite Hm. done. Qed.

Lemma group_texts m e n : m_caps m = token_caps e → group_text n m = match cap_get n (token_caps e) with Some (c :: t) => Some (c :: t) | _ => None end.
Proof. intros E. unfold group_text, group. by rewrite E. Qed.

Lemma token_reported e names st m : plain_event e → ready e names = true → m_caps m = token_caps e → inside names st →
  reported e names st m (on_token nativeDecode cfg m st).
Proof using Codec0.
  intros He Hr Hm Hin. unfold on_token. rewrite !(group_texts m e) by done.
  destruct e as [n attrs empty|n|t raw|t|t|n t|t]; cbn [token_caps cap_get List.find fst snd Nat.eqb fmap option_fmap option_map ready] in *.
  - pose proof He as (l & -> & (Hne & _ & Hlow & _) & _). destruct n as [|c n]; [done|]. rewrite Hlow.
    apply start_reported; [done..|]. by apply negb_true_iff.
  - destruct He as (Hne & _ & Hlow & _). apply bool_decide_eq_true in Hr. destruct names as [|n' names]; [done|].
    injection Hr as ->. destruct n as [|c n]; [done|]. by apply end_reported.
  - done.
  - destruct He as (u & -> & Hu & _). destruct u as [|c u]; [done|]. by apply emit_reported.
  - destruct He as (u & -> & Hu & Hc & _). destruct u as [|c u]; [done|]. cbn [default from_option id]. unfold id.
    rewrite Hc. by apply emit_reported.
  - destruct He as (u & -> & Hn & _ & Hu & _). destruct n as [|c n]; [done|]. unfold group. rewrite Hm. by apply emit_reported.
  - destruct He as (u & -> & Hu & _). destruct u as [|c u]; [done|]. by apply emit_reported.
Qed.
Lemma event_read e t : plain_event e → (∀ u raw, e ≠ EText u raw) → reads tokenRegExp (plain w e) t [] (token_caps e).
Proof using Codec0.
  intros He Ht. destruct e as [n attrs empty|n|u raw|u|u|n u|u]; cbn [plain token_caps].
  - destruct He as (l & -> & (Hne & Hn & _) & Hl & _). cbn [default from_option id]. unfold id.
    assert ((if negb empty || htmlOutput w then js ">" else js " />") = slash empty ++ js ">") as -> by (unfold slash; by destruct (_ || _)).
    pose proof (reads_start n l empty t Hne Hn Hl) as Hs. by rewrite <- app_assoc in Hs.
  - destruct He as (Hne & Hn & _). by apply reads_end.
  - by destruct (Ht u raw).
  - destruct He as (v & -> & _ & Hl). by apply reads_cdata.
  - destruct He as (v & -> & _ & _ & Hl). by apply reads_comment.
  - destruct He as (v & -> & Hne & Hn & Hv & Hl). destruct v as [|c v]; [done|]. by apply reads_pi.
  - destruct He as (v & -> & _ & Hv). by apply reads_doctype.
Qed.

(** ** The whole document *)
(** The calls close what they open, no text follows a text, and no element would close the one it stands in. *)
Fixpoint readable (names : list jstr) (es : list event) : bool :=
  match es with
  | [] => match names with [] => true | _ => false end
  | EText t raw :: es => match es with EText _ _ :: _ => false | _ => readable names es end
  | e :: es => ready e names && readable (moved e names) es
  end.

Abbreviation written es := (concat (plain w <$> es)).
Definition no_tag (u : jstr) : Prop := Forall (λ c, c ≠ 60) u.

Lemma exec_skip u s : no_tag u → ∀ p, exec_from tokenRegExp p (u ++ s) = exec_from tokenRegExp (p + length u) s.
Proof.
  induction 1 as [|c u Hc Hu IH]; intros p; cbn [app length]; [by rewrite Nat.add_0_r|]. cbn [exec_from].
  assert (refuses tokenRegExp (c :: u ++ s)) as Hr.
  { apply refuses_seq, refuses_char. cbn [stops]. apply negb_true_iff, Z.eqb_neq. congruence. }
  unfold match_here at 1. rewrite Hr, IH. by rewrite Nat.add_succ_r.
Qed.

Lemma text_inside u names st : inside names st → inside names (text_before nativeDecode u st).
Proof. intros [Hs Hi]. by destruct u. Qed.

Lemma encoded_no_tag t : no_tag (encode w t false).
Proof using Codec0. eapply Forall_impl; [apply (codec_safe t false)|]. by intros c (Hc & _). Qed.

Lemma text_out t st : t ≠ [] → out (text_before nativeDecode (encode w t false) st) = out st ++ [EText t false].
Proof using Codec0.
  intros Ht. pose proof (codec_decode t false) as Hd. unfold text_before. destruct (encode w t false) as [|c v] eqn:E.
  - destruct Ht. rewrite <- Hd. reflexivity.
  - unfold SaxParser.decode. rewrite Hd. done.
Qed.

(** One round of the loop: the text before a call, and the call. *)
Lemma token_round e t u names st p fuel : plain_event e → (∀ t raw, e ≠ EText t raw) → no_tag u → inside names st → ready e names = true →
  ∃ p' st', tokens nativeDecode cfg (S fuel) p (u ++ plain w e ++ t) st = tokens nativeDecode cfg fuel p' t st'
    ∧ out st' = out (text_before nativeDecode u st) ++ [e] ∧ inside (moved e names) st'.
Proof using Codec0.
  intros Hp Hnt Hu Hin Hr. cbn [tokens]. rewrite exec_skip by done.
  assert (match_here tokenRegExp (p + length u) (plain w e ++ t) = Some (MR (p + length u) (plain w e) t (token_caps e))) as Hmatch.
  { unfold match_here. rewrite (event_read e t Hp Hnt (p + length u)%nat Some _ eq_refl). cbn [pos rest caps].
    by rewrite (Nat.add_comm (p + length u)), Nat.add_sub, take_app_length. }
  assert (exec_from tokenRegExp (p + length u) (plain w e ++ t) = Some (MR (p + length u) (plain w e) t (token_caps e))) as ->
    by (destruct (plain w e ++ t); cbn [exec_from]; by rewrite Hmatch).
  cbn [m_index]. rewrite (Nat.add_comm p), Nat.add_sub, take_app_length.
  destruct (token_reported e names (text_before nativeDecode u st) (MR (length u + p) (plain w e) t (token_caps e)))
    as (st1 & E1 & Eo & Hin1); [done..|by apply text_inside|].
  rewrite E1. cbn [mbind option_bind m_after]. by eexists _, st1.
Qed.

Lemma call_nonempty e : plain_event e → (∀ t raw, e ≠ EText t raw) → plain w e ≠ [].
Proof.
  intros _ Hnt E. destruct e as [| |t raw| | |n v|]; try done; [by destruct (Hnt t raw)|]. cbn in E. by destruct (truthy _).
Qed.

Lemma tokens_written es : ∀ u names st p fuel, (length (u ++ written es) < fuel)%nat → Forall plain_event es →
  no_tag u → (u = [] ∨ ∀ t raw es', es ≠ EText t raw :: es') → inside names st → readable names es = true →
  ∃ st', tokens nativeDecode cfg fuel p (u ++ written es) st = Some st'
    ∧ out st' = out (text_before nativeDecode u st) ++ es ∧ stack st' = [].
Proof using Codec0.
  induction es as [|e es IH]; intros u names st p fuel Hf He Hu Ht Hin Hr; (destruct fuel as [|fuel]; [lia|]).
  { cbn [fmap list_fmap concat tokens readable] in *. destruct names; [|done]. rewrite exec_skip by done. cbn [exec_from].
    eexists. split; [done|]. rewrite !app_nil_r. split; [done|].
    by destruct (text_inside u [] st Hin) as [-> _]. }
  apply Forall_cons in He as [Hp He].
  assert ((∃ t raw, e = EText t raw) ∨ (∀ t raw, e ≠ EText t raw)) as [(t & raw & ->)|Hnt] by (destruct e; eauto).
  - destruct Ht as [-> | Ht]; [|by destruct (Ht t raw es)]. destruct Hp as [-> Hne].
    cbn [fmap list_fmap concat plain app] in *. destruct t as [|c t]; [done|]. cbn [truthy] in *.
    destruct (IH (encode w (c :: t) false) names st p (S fuel) Hf He) as (st' & E & Eo & Es).
    + apply encoded_no_tag.
    + right. intros t' raw' es' ->. done.
    + done.
    + cbn in Hr. by destruct es as [|[] es].
    + exists st'. rewrite E, Eo, text_out by done. split_and!; [done| |done]. by rewrite <- app_assoc.
  - assert (ready e names = true ∧ readable (moved e names) es = true) as [Hrd Hrs].
    { apply andb_true_iff. destruct e; try done. by destruct (Hnt t raw). }
    pose proof (call_nonempty e Hp Hnt) as Hlen. cbn [fmap list_fmap concat] in *.
    destruct (token_round e (written es) u names st p fuel) as (p' & st1 & -> & Eo & Hin1); [done..|].
    destruct (IH [] (moved e names) st1 p' fuel) as (st' & E & Eo' & Es); [|done|by constructor|by left|done..|].
    + rewrite !length_app in Hf. destruct (plain w e); [done|]. cbn [length app] in *. lia.
    + exists st'. cbn [app] in E. rewrite E, Eo'. cbn [text_before]. rewrite Eo. split_and!; [done| |done]. by rewrite <- app_assoc.
Qed.

(** C1: What the writer makes of a sequence of calls, the tokenizer turns into the same calls again, when the writer does not
    indent and the text does not end with a line feed (the writer takes that off), in any document whose
    calls are nested, whose names are plain and whose texts cannot be mistaken for something else: with any encoder that the decoder
    undoes, any texts and attribute values, and a validating parser as well as one that does not validate. *)
Theorem parse_written es : indent w = false → Forall plain_event es → readable [] es = true → last (written es) ≠ Some 10 →
  parse nativeDecode cfg (getContent (write_all w es [])) = Some es.
Proof using Codec0.
  intros Hi He Hr Hn. assert (getContent (write_all w es []) = written es) as ->.
  { unfold getContent. rewrite concat_write_all by done. cbn [concat app]. repeat case_match; simplify_eq; done. }
  destruct (tokens_written es [] [] init 0 (S (length (written es)))) as (st & E & Eo & Es); try done.
  - apply Nat.lt_succ_diag_r.
  - by constructor.
  - by left.
  - unfold parse. cbn [app] in E. rewrite E. cbn. rewrite Eo, Es. cbn. by rewrite app_nil_r.
Qed.
End RoundTrip.

(** ** A document *)
Definition sample_writer : writer := new_writer (MkSettings false [] [] (js "named") [] (js "xhtml")).
Definition strict : SaxParser.settings := SaxParser.Settings true true true false false None.

#[local] Instance sample_writer_codec nd : Codec nd (encode sample_writer).
Proof. exact (named_codec nd). Qed.

Definition sample_calls : list event :=
  [EDoctype (Some (js " html")); EPi (js "xml") (Some (js "version"));
   EStart (js "p") (Some [(js "title", [34; 60; 233; 62; 38]); (js "id", js "x/")]) false;
   EText (js "1 < 2 & 3") false; EStart (js "br") (Some []) true; EStart (js "b") (Some []) false; EText [55357; 56832] false; EEnd (js "b");
   EComment (Some (js " -- ")); EEnd (js "p"); EStart (js "img") (Some [(js "src", js "a.png"); (js "alt", [])]) true;
   ECdata (Some (js "]]]"))].

Definition sample_written : jstr := Eval vm_compute in getContent (write_all sample_writer sample_calls []).

(** Facts that evaluation decides. *)
Ltac by_eval := first [discriminate | vm_compute; reflexivity].

Ltac by_rule := eexists; split; [vm_compute; reflexivity|split; [by_eval|intros k; vm_compute; reflexivity]].

Section Witness.
#[local] Existing Instance sample_parser.

Lemma sample_tags : Forall (λ n, plain_tag (js n)) ["p"; "br"; "b"; "img"]%string.
Proof. repeat (apply Forall_cons; split; [split_and!; by_eval|]). by apply Forall_nil. Qed.

Definition plain_attrb (a : jstr * jstr) : bool :=
  bool_decide (a.1 ≠ [] ∧ forallb attr_unit a.1 = true ∧ to_lower a.1 = a.1 ∧ (Obj.has a.1 boolAttrs = true → a.2 = a.1)
    ∧ blocked strict a.1 a.2 = false).

(** A start tag whose attributes the schema lists and that gets no others. *)
Lemma sample_start n l empty : plain_tag n → forallb plain_attrb l = true →
  (∃ r, elementRule n = Some r ∧ forallb (λ a, bool_decide (attr_allowed r a.1 a.2 = Some true)) l = true
    ∧ ∀ k, process_attrs r (stored l) k = (stored l, k, true)) →
  contains (js "data-mce-type") (attrs_text sample_writer l ++ js " /") = false → Obj.has n shortEndedElements = empty →
  plain_event strict sample_writer (EStart n (Some l) empty).
Proof.
  intros Hn Hl (r & Er & Ha & Hp) Hc Hs. exists l. split; [reflexivity|]. split; [exact Hn|]. split.
  { apply Forall_forall. intros a Hin. rewrite forallb_forall in Hl. apply list_elem_of_In, Hl in Hin. by apply bool_decide_eq_true in Hin. }
  split; [|split; [exact Hc|exact Hs]]. intros _. exists r. split; [exact Er|]. split; [|exact Hp].
  apply Forall_forall. intros a Hin. right. rewrite forallb_forall in Ha. apply list_elem_of_In, Ha in Hin. by apply bool_decide_eq_true in Hin.
Qed.

Lemma sample_plain_events : Forall (plain_event strict sample_writer) sample_calls.
Proof.
  pose proof sample_tags as Ht. rewrite !Forall_cons in Ht. destruct Ht as (Hp & Hbr & Hb & Himg & _).
  unfold sample_calls. constructor; [|constructor; [|constructor; [|constructor; [|constructor; [|constructor; [|constructor; [|constructor;
    [|constructor; [|constructor; [|constructor; [|constructor; [|constructor]]]]]]]]]]]].
  - eexists. split_and!; by_eval.
  - eexists. split_and!; by_eval.
  - apply sample_start; [exact Hp|by_eval|by_rule|by_eval|by_eval].
  - split; by_eval.
  - apply sample_start; [exact Hbr|by_eval|by_rule|by_eval|by_eval].
  - apply sample_start; [exact Hb|by_eval|by_rule|by_eval|by_eval].
  - split; by_eval.
  - exact Hb.
  - eexists. split_and!; by_eval.
  - exact Hp.
  - apply sample_start; [exact Himg|by_eval|by_rule|by_eval|by_eval].
  - eexists. split_and!; by_eval.
Qed.

Lemma parse_written_witness : parse no_entities strict sample_written = Some sample_calls.
Proof.
  apply (parse_written no_entities strict sample_writer sample_calls); [reflexivity|apply sample_plain_events|vm_compute; reflexivity|].
  vm_compute. discriminate.
Defined.
End Witness.
