(* ===== verification/Styles.v ===== *)
(** * classes/html/Styles.js

    Parsing and printing of style attributes.  A style object is an [Obj.t]; the converter of
    addresses is a pure function of the settings. *)

From S2P Require Import Prelude Regexp Tools.

(** ** The expressions *)
Definition spaces : re := RStar true (RSet is_space).
Definition number_group (n : nat) : re := RGroup n (RPlus (RSet is_digit)).

(** [/rgb\s*\(\s*([0-9]+)\s*,\s*([0-9]+)\s*,\s*([0-9]+)\s*\)/gi] *)
Definition rgbRegExp : re :=
  RSeq (RStrI (js "rgb")) (RSeq spaces (RSeq (RChar 40) (RSeq spaces (RSeq (number_group 1) (RSeq spaces
  (RSeq (RChar 44) (RSeq spaces (RSeq (number_group 2) (RSeq spaces
  (RSeq (RChar 44) (RSeq spaces (RSeq (number_group 3) (RSeq spaces (RChar 41)))))))))))))).

(** One form of the address: the opening sign, the content, the closing sign. *)
Definition quoted (q : Z) (n : nat) : re :=
  RSeq (RChar q) (RSeq (RGroup n (RPlus (RSet (λ c, negb (c =? q))))) (RChar q)).
Definition in_parens (r : re) : re := RSeq (RChar 40) (RSeq spaces (RSeq r (RSeq spaces (RChar 41)))).
Definition bare (n : nat) : re := RGroup n (RPlus (RSet (λ c, negb ((c =? 41) || is_space c)))).

Definition urlOrStrRegExp : re :=
  RAlt (RSeq (RStrI (js "url"))
          (RAlt (in_parens (quoted 34 1)) (RAlt (in_parens (quoted 39 2)) (in_parens (bare 3)))))
       (RAlt (quoted 39 4) (quoted 34 5)).

(** [/\s*([^:]+):\s*([^;]+);?/g] *)
Definition styleRegExp : re :=
  RSeq spaces (RSeq (RGroup 1 (RPlus (RSet (λ c, negb (c =? 58)))))
    (RSeq (RChar 58) (RSeq spaces (RSeq (RGroup 2 (RPlus (RSet (λ c, negb (c =? 59))))) (ROpt (RChar 59)))))).

Definition trimRightRegExp : re := RSeq (RPlus (RSet is_space)) REol.

Definition controls : cset := between 0 31.
(** [/\\[\'\'\';:\uFEFF]/g], with a double quote first *)
Definition escape_sign : cset := λ c, existsb (Z.eqb c) [34; 39; 59; 58; 65279].
Definition escapeRegExp : re := RSeq (RChar 92) (RSet escape_sign).
Definition stringRegExp : re := RAlt (quoted 34 0) (quoted 39 0).
Definition delimiter : cset := λ c, (c =? 59) || (c =? 58).
Definition encodedRegExp : re := RSeq (RChar 65279) (RSet is_digit).
Definition slashRegExp : re := RSeq (RChar 92) (RGroup 1 (RSet (λ c, existsb (Z.eqb c) [39; 34; 59; 58]))).
Definition scriptRegExp : re := RSeq (RAlt (RStrI (js "java")) (RStrI (js "vb"))) (RStrI (js "script:")).
Definition expressionRegExp : re := RSeq (RStr (js "expression")) (RSeq spaces (RChar 40)).

(** ** Encoding of delimiters *)
Definition invisibleChar : jstr := [65279].

(** The signs with a backslash, the delimiters, and the invisible character itself. *)
Definition encodingItems : list jstr :=
  split_unit 32 ([92; 34; 32; 92; 39; 32; 92; 59; 32; 92; 58; 32; 59; 32; 58; 32] ++ invisibleChar).

Definition encodingLookup : Obj.t jstr :=
  fold_left (λ o p,
    let code := invisibleChar ++ num_to_string 10 (Z.of_nat p.1) in
    Obj.set code p.2 (Obj.set p.2 code o)) (imap pair encodingItems) [].

(** [encodingLookup[str]] as a replacement text. *)
Definition encode (str : jstr) : jstr := default (js "undefined") (Obj.get str encodingLookup).

(** The text with the delimiters of escapes and strings encoded, and whether there were any. *)
Definition encode_escapes (css : jstr) : jstr * bool :=
  (replace_all escapeRegExp (λ m, encode (m_text m)) css,
   bool_decide (all_matches escapeRegExp css ≠ [])).

Definition encode_strings (css : jstr) : jstr * bool :=
  (replace_all stringRegExp (λ m, replace_all (RSet delimiter) (λ d, encode (m_text d)) (m_text m)) css,
   existsb (λ m, test (RSet delimiter) (m_text m)) (all_matches stringRegExp css)).

Definition decode (isEncoded : bool) (str : jstr) (keep_slashes : bool) : jstr :=
  let str := if isEncoded then replace_all encodedRegExp (λ m, encode (m_text m)) str else str in
  if keep_slashes then str else replace_all slashRegExp (λ m, default [] (group 1 m)) str.

(** ** Colors *)
Definition hex (val : jstr) : jstr :=
  let val := match parse_int 10 val with Some n => num_to_string 16 n | None => js "NaN" end in
  if (1 <? length val)%nat then val else 48 :: val.

Definition hex_color (m : mres) : jstr :=
  35 :: hex (default [] (group 1 m)) ++ hex (default [] (group 2 m)) ++ hex (default [] (group 3 m)).
Definition toHex (color : jstr) : jstr := replace_all rgbRegExp hex_color color.

(** ** Box styles *)
Abbreviation styles_t := (Obj.t jstr).

(** [styles[k]] when it is truthy. *)
Definition style (k : jstr) (s : styles_t) : option jstr :=
  match Obj.get k s with Some (c :: v) => Some (c :: v) | _ => None end.

(** [i--] from [i] on while the neighbours are equal; [-1] is none. *)
Fixpoint last_diff (i : nat) (box : list jstr) : Z :=
  match i with
  | O => -1
  | S i => if bool_decide (box !! i = box !! S i) then last_diff i box else Z.of_nat i
  end.

Definition side_names (prefix suffix : jstr) : list jstr :=
  (λ side, prefix ++ js side ++ suffix) <$> ["-top"; "-right"; "-bottom"; "-left"]%string.

Definition compress (prefix suffix : jstr) (noJoin : bool) (s : styles_t) : styles_t :=
  match mapM (λ k, style k s) (side_names prefix suffix) with
  | None => s
  | Some box =>
      let i := last_diff (length box - 1) box in
      if (-1 <? i) && noJoin then s
      else
        let s := Obj.set (prefix ++ suffix) (if i =? -1 then default [] (head box) else join (js " ") box) s in
        fold_left (λ s k, Obj.delete k s) (side_names prefix suffix) s
  end.

(** The test and the styles after it. *)
Definition canCompress (key : jstr) (s : styles_t) : bool * styles_t :=
  match style key s with
  | None => (false, s)
  | Some v =>
      let ps := split_unit 32 v in
      let p := default [] (head ps) in
      if forallb (λ q, str_eqb q p) ps then (true, Obj.set key p s) else (false, s)
  end.

Definition compress2 (target a b c : jstr) (s : styles_t) : styles_t :=
  let '(ok, s) := canCompress a s in
  if negb ok then s
  else
    let '(ok, s) := canCompress b s in
    if negb ok then s
    else
      let '(ok, s) := canCompress c s in
      if negb ok then s
      else
        let get k := default (js "undefined") (Obj.get k s) in
        Obj.delete c (Obj.delete b (Obj.delete a (Obj.set target (get a ++ js " " ++ get b ++ js " " ++ get c) s))).

Definition drop_style (k v : jstr) (s : styles_t) : styles_t :=
  if bool_decide (Obj.get k s = Some v) then Obj.delete k s else s.

Definition compress_all (s : styles_t) : styles_t :=
  let s := compress (js "border") [] true s in
  let s := compress (js "border") (js "-width") false s in
  let s := compress (js "border") (js "-color") false s in
  let s := compress (js "border") (js "-style") false s in
  let s := compress (js "padding") [] false s in
  let s := compress (js "margin") [] false s in
  let s := compress2 (js "border") (js "border-width") (js "border-style") (js "border-color") s in
  let s := drop_style (js "border") (js "medium none") s in
  drop_style (js "border-image") (js "none") s.

(** ** parse *)
Record settings := Settings { allow_script_urls : bool; url_converter : option (jstr -> jstr) }.

Section Parse.
Context (cfg : settings).

Definition escape_quote (s : jstr) : jstr := replace_all (RChar 39) (λ _, [92; 39]) s.

(** [a || b] of captures. *)
Definition or_group (a b : option jstr) : option jstr := match a with Some (_ :: _) => a | _ => b end.

Definition script_url (url : jstr) : bool :=
  test scriptRegExp (replace_first (RPlus (RSet is_space)) (λ _, []) url).

Definition processUrl (isEncoded : bool) (m : mres) : jstr :=
  match or_group (group 4 m) (group 5 m) with
  | Some (c :: str) => [39] ++ escape_quote (decode isEncoded (c :: str) false) ++ [39]
  | _ =>
      let url := decode isEncoded (default [] (or_group (or_group (group 1 m) (group 2 m)) (group 3 m))) false in
      if negb (allow_script_urls cfg) && script_url url then []
      else
        let url := match url_converter cfg with Some f => f url | None => url end in
        js "url('" ++ escape_quote url ++ js "')"
  end.

Definition trim_right (s : jstr) : jstr := replace_first trimRightRegExp (λ _, []) s.

(** The value that is stored under the name. *)
Definition convert_value (isEncoded : bool) (name value : jstr) : jstr :=
  let value :=
    if str_eqb name (js "font-weight") && str_eqb value (js "700") then js "bold"
    else if str_eqb name (js "color") || str_eqb name (js "background-color") then to_lower value
    else value in
  let value := toHex value in
  let value := replace_all urlOrStrRegExp (processUrl isEncoded) value in
  if isEncoded then decode isEncoded value true else value.

(** Assigning a text to __proto__ does nothing. *)
Definition set_style (name value : jstr) (s : styles_t) : styles_t :=
  if str_eqb name (js "__proto__") then s else Obj.set name value s.

Definition parse_style (isEncoded : bool) (m : mres) (s : styles_t) : styles_t :=
  let name := to_lower (trim_right (default [] (group 1 m))) in
  let value := trim_right (default [] (group 2 m)) in
  if truthy name && truthy value then
    if negb (allow_script_urls cfg) && (str_eqb name (js "behavior") || test expressionRegExp value) then s
    else set_style name (convert_value isEncoded name value) s
  else s.

(** The loop over the matches; [None] when the rounds are used up. *)
Fixpoint parse_loop (rounds : nat) (isEncoded : bool) (p : nat) (css : jstr) (s : styles_t) : option styles_t :=
  match rounds with
  | O => None
  | S rounds =>
      match exec_from styleRegExp p css with
      | None => Some s
      | Some m => parse_loop rounds isEncoded (m_index m + length (m_text m)) (m_after m) (parse_style isEncoded m s)
      end
  end.

Definition parse (css : jstr) : option styles_t :=
  if truthy css then
    let css := replace_all (RSet controls) (λ _, []) css in
    let '(css, e1) := encode_escapes css in
    let '(css, e2) := encode_strings css in
    compress_all <$> parse_loop (S (length css)) (e1 || e2) 0 css []
  else Some [].
End Parse.

(** ** serialize *)
Definition print_style (css name : jstr) (value : option jstr) : jstr :=
  match value with
  | Some (c :: v) => css ++ (if truthy css then js " " else []) ++ name ++ js ": " ++ (c :: v) ++ js ";"
  | _ => css
  end.

Definition serializeStyles (schema_styles : Obj.t (list jstr)) (styles : styles_t) (name : jstr) (css : jstr) : jstr :=
  match Obj.get name schema_styles with
  | Some styleList => fold_left (λ css n, print_style css n (Obj.get n styles)) styleList css
  | None => css
  end.

Definition serialize (schema_styles : option (Obj.t (list jstr))) (styles : styles_t) (element_name : jstr) : jstr :=
  match schema_styles with
  | Some l =>
      if truthy element_name then serializeStyles l styles element_name (serializeStyles l styles (js "*") [])
      else fold_left (λ css p, print_style css p.1 (Some p.2)) styles []
  | None => fold_left (λ css p, print_style css p.1 (Some p.2)) styles []
  end.
