(* ===== verification/StylesFacts.v ===== *)
(** * What parsing and printing of styles do

    Round trip, termination, the meaning of the box styles, and a text that gets past the filter. *)

From S2P Require Import Prelude Regexp Tools Styles.

(** ** Expressions that take at least some units *)
Fixpoint min_len (r : re) : nat :=
  match r with
  | RSet _ => 1
  | RSeq a b => min_len a + min_len b
  | RAlt a b => Nat.min (min_len a) (min_len b)
  | RGroup _ a => min_len a
  | _ => 0
  end.

Lemma mtch_min r : ∀ st k x, mtch r st k = Some x → ∃ st', (pos st + min_len r ≤ pos st')%nat ∧ k st' = Some x.
Proof.
  induction r as [|f|a IHa b IHb|a IHa b IHb|g a IHa|n a IHa|a IHa| |]; intros st k x H.
  - exists st. split; [cbn; lia|done].
  - destruct st as [[|c s] p cs]; [done|]. cbn in *. destruct (f c); [|done]. eexists. split; [|exact H]. cbn. lia.
  - cbn in H. apply IHa in H as (s1 & H1 & H). apply IHb in H as (s2 & H2 & H). exists s2. cbn. split; [lia|done].
  - cbn in *. destruct (mtch a st k) eqn:E; simplify_eq;
      [apply IHa in E as (s1 & H1 & H)|apply IHb in H as (s1 & H1 & H)]; (exists s1; split; [lia|done]).
  - apply mtch_sound in H as (st' & (p & _ & Hp) & H). exists st'. cbn. split; [lia|done].
  - cbn in H. apply IHa in H as (s1 & H1 & H). eexists. split; [|exact H]. cbn. lia.
  - apply mtch_sound in H as (st' & (p & _ & Hp) & H). exists st'. cbn. split; [lia|done].
  - apply mtch_sound in H as (st' & (p & _ & Hp) & H). exists st'. cbn. split; [lia|done].
  - apply mtch_sound in H as (st' & (p & _ & Hp) & H). exists st'. cbn. split; [lia|done].
Qed.

Lemma exec_min r : ∀ s p m, exec_from r p s = Some m → (length (m_after m) + min_len r ≤ length s)%nat.
Proof.
  assert (∀ p s m, match_here r p s = Some m → (length (m_after m) + min_len r ≤ length s)%nat) as Hh.
  { intros p s m. unfold match_here. destruct (mtch r _ _) as [st|] eqn:E; [|done]. intros [= <-].
    pose proof E as E2. apply mtch_min in E as (st' & Hp & [= ->]). apply mtch_sound in E2 as (st' & (u & Hr & Hu) & [= ->]).
    cbn in *. rewrite Hr, length_app. lia. }
  induction s as [|c s IH]; intros p m; cbn [exec_from]; destruct (match_here r p _) eqn:E; intros H; simplify_eq;
    try by eapply Hh. apply IH in H. cbn. lia.
Qed.

(** ** trim_right *)
Lemma exec_trim s : ∀ p, exec_from trimRightRegExp p s =
  let t := trim_right_by is_space s in
  if decide (t = s) then None else Some (MR (p + length t) (drop (length t) s) [] []).
Proof.
  induction s as [|c s IH]; intros p; [done|]. cbn [exec_from]. cbv zeta. rewrite trim_right_by_cons.
  unfold match_here, trimRightRegExp, RPlus. autorewrite with mtch. destruct (is_space c) eqn:Ec; cbn [andb].
  - rewrite greedy_run_end. destruct (forallb is_space s) eqn:Es.
    + rewrite decide_False by done. cbn [pos rest caps length drop]. rewrite Nat.add_0_r.
      replace (S p + length s - p)%nat with (length (c :: s)) by (cbn; lia). by rewrite firstn_all.
    + cbn iota. rewrite IH. cbv zeta. destruct (decide (trim_right_by is_space s = s)) as [E|E].
      * by rewrite decide_True by congruence.
      * rewrite decide_False by congruence. cbn. by rewrite Nat.add_succ_r.
  - rewrite IH. cbv zeta. destruct (decide (trim_right_by is_space s = s)) as [E|E].
    + by rewrite decide_True by congruence.
    + rewrite decide_False by congruence. cbn. by rewrite Nat.add_succ_r.
Qed.

Lemma trim_right_prefix f s : trim_right_by f s `prefix_of` s.
Proof.
  induction s as [|c s IH]; [done|]. rewrite trim_right_by_cons. destruct (_ && _); [apply prefix_nil|by apply prefix_cons].
Qed.

Lemma trim_right_spec s : trim_right s = trim_right_by is_space s.
Proof.
  unfold trim_right, replace_first, exec. rewrite exec_trim. cbv zeta. destruct (decide _) as [E|E]; [done|].
  cbn [m_index m_after]. rewrite Nat.add_0_l, app_nil_r. destruct (trim_right_prefix is_space s) as [u Hu].
  rewrite Hu at 2. by rewrite take_app_length.
Qed.

(** Trimming a text without white space at its end. *)
Lemma trim_right_end s c : is_space c = false → trim_right (s ++ [c]) = s ++ [c].
Proof. intros Hc. rewrite trim_right_spec. unfold trim_right_by. rewrite reverse_snoc. cbn [drop_while]. by rewrite Hc, reverse_cons, reverse_involutive. Qed.

(** ** parse returns *)
(** Parsing ends for every text: each round takes at least three units, so one more round than units is enough. *)
Theorem styles_parse_total cfg css : is_Some (parse cfg css).
Proof.
  unfold parse. destruct (truthy css); [|by eexists]. destruct (encode_escapes _) as [css1 e1]. destruct (encode_strings css1) as [css2 e2].
  rewrite fmap_is_Some. assert (∀ n p s css, (length css < n)%nat → is_Some (parse_loop cfg n (e1 || e2) p css s)) as H; [|apply H; lia].
  induction n as [|n IH]; intros p s c Hn; [lia|]. cbn [parse_loop].
  destruct (exec_from styleRegExp p c) as [m|] eqn:E; [|by eexists]. apply IH. apply exec_min in E. cbn in E. lia.
Qed.

(** ** Plain text is left alone *)
Lemma exec_from_here r p s m : match_here r p s = Some m → exec_from r p s = Some m.
Proof. intros E. destruct s; cbn [exec_from]; by rewrite E. Qed.

Lemma refuses_here r p s : refuses r s → match_here r p s = None.
Proof. intros H. unfold match_here. by rewrite H. Qed.

Lemma replace_refused r f s : (∀ t, t `suffix_of` s → refuses r t) → replace_all r f s = s.
Proof.
  unfold replace_all. generalize (S (length s)) as n, 0%nat as p. intros n. revert s.
  induction n as [|n IH]; intros s p H; [done|]. cbn [replace_all_from]. rewrite refuses_here by by apply H.
  destruct s as [|c s]; [done|]. rewrite IH; [done|]. intros t Ht. by apply H, suffix_cons_r.
Qed.

Lemma all_matches_refused r s : (∀ t, t `suffix_of` s → refuses r t) → all_matches r s = [].
Proof.
  unfold all_matches. generalize (S (length s)) as n, 0%nat as p. intros n. revert s.
  induction n as [|n IH]; intros s p H; [done|]. cbn [all_matches_from]. rewrite refuses_here by by apply H.
  destruct s as [|c s]; [done|]. apply IH. intros t Ht. by apply H, suffix_cons_r.
Qed.

(** A text without the first unit of an expression. *)
Lemma stops_suffix f t s : forallb (λ c, negb (f c)) s = true → t `suffix_of` s → stops f t = true.
Proof.
  intros Hs [u ->]. rewrite forallb_app in Hs. apply andb_true_iff in Hs as [_ Hs]. destruct t as [|c t]; [done|].
  cbn in Hs. by apply andb_true_iff in Hs as [Hs _].
Qed.

(** No control character, no quote, backslash or colon, no semicolon. *)
Definition plain_unit : cset := λ c, negb (controls c || existsb (Z.eqb c) [34; 39; 92; 58; 59]).
Definition plain (s : jstr) : Prop := forallb plain_unit s = true.

(** A text of plain units and delimiters. *)
Definition unescaped : cset := λ c, negb (controls c || existsb (Z.eqb c) [34; 39; 92]).

Lemma plain_unescaped s : plain s → forallb unescaped s = true.
Proof.
  apply forallb_imp. intros c. unfold plain_unit, unescaped. rewrite !negb_true_iff, !orb_false_iff. cbn.
  rewrite !orb_false_iff. tauto.
Qed.

Lemma not_controls css : forallb unescaped css = true → replace_all (RSet controls) (λ _, []) css = css.
Proof.
  intros H. apply replace_refused. intros t Ht. apply refuses_set. eapply stops_suffix; [|exact Ht]. revert H. apply forallb_imp.
  intros c. unfold unescaped. rewrite !negb_true_iff, !orb_false_iff. tauto.
Qed.

Lemma stops_unescaped q css t : q = 34 ∨ q = 39 ∨ q = 92 → forallb unescaped css = true → t `suffix_of` css → stops (Z.eqb q) t = true.
Proof.
  intros Hq H Ht. eapply stops_suffix; [|exact Ht]. revert H. apply forallb_imp. intros c. unfold unescaped.
  rewrite !negb_true_iff, !orb_false_iff. cbn. rewrite !orb_false_iff, !Z.eqb_neq. intros. lia.
Qed.

Lemma not_escaped css : forallb unescaped css = true → encode_escapes css = (css, false).
Proof.
  intros H. assert (∀ t, t `suffix_of` css → refuses escapeRegExp t) as Hr.
  { intros t Ht. apply refuses_seq, refuses_char. eapply stops_unescaped; eauto. }
  unfold encode_escapes. by rewrite replace_refused, all_matches_refused.
Qed.

Lemma no_strings css : forallb unescaped css = true → encode_strings css = (css, false).
Proof.
  intros H. assert (∀ t, t `suffix_of` css → refuses stringRegExp t) as Hr.
  { intros t Ht. apply refuses_alt; apply refuses_seq, refuses_char; eapply stops_unescaped; eauto. }
  unfold encode_strings. by rewrite replace_refused, all_matches_refused.
Qed.

(** ** The reference text of a list of styles *)
Fixpoint style_text (lead : jstr) (o : styles_t) : jstr :=
  match o with
  | [] => []
  | (n, v) :: o => lead ++ n ++ js ": " ++ v ++ js ";" ++ style_text (js " ") o
  end.

Definition filled (p : jstr * jstr) : bool := truthy p.2.

Lemma print_styles o css : fold_left (λ css p, print_style css p.1 (Some p.2)) o css =
  css ++ style_text (if truthy css then js " " else []) (List.filter filled o).
Proof.
  revert css. induction o as [|[n v] o IH]; intros css; cbn [fold_left List.filter]; [by rewrite app_nil_r|].
  rewrite IH. destruct v as [|c v]; cbn [print_style filled truthy snd fst style_text]; [done|].
  rewrite <- !app_assoc. destruct css as [|d css]; [by destruct n|]. cbn. by do 2 f_equal.
Qed.

Lemma print_list styles names css : fold_left (λ css n, print_style css n (Obj.get n styles)) names css =
  fold_left (λ css p, print_style css p.1 (Some p.2)) (omap (λ n, pair n <$> Obj.get n styles) names) css.
Proof.
  revert css. induction names as [|n names IH]; intros css; cbn; [done|]. rewrite IH. by destruct (Obj.get n styles).
Qed.

(** The styles that are printed: all of them, or those the schema lists for all elements and for the element. *)
Definition printed (schema_styles : option (Obj.t (list jstr))) (styles : styles_t) (element_name : jstr) : styles_t :=
  match schema_styles with
  | Some l =>
      if truthy element_name then
        omap (λ n, pair n <$> Obj.get n styles) (default [] (Obj.get (js "*") l) ++ default [] (Obj.get element_name l))
      else styles
  | None => styles
  end.

(** serialize prints exactly the styles that are not empty, each as name, colon, value and semicolon, with a space
    between them: all in the order of the object or, for an element of a schema with styles, those listed for all elements and
    then those listed for the element. *)
Theorem serialize_shown l styles el : serialize l styles el = style_text [] (List.filter filled (printed l styles el)).
Proof.
  unfold serialize, printed. destruct l as [l|]; [|apply print_styles]. destruct (truthy el); [|apply print_styles].
  assert (∀ n css, serializeStyles l styles n css = fold_left (λ css p, print_style css p.1 (Some p.2))
    (omap (λ n, pair n <$> Obj.get n styles) (default [] (Obj.get n l))) css) as E.
  { intros n css. unfold serializeStyles. destruct (Obj.get n l); [apply print_list|done]. }
  rewrite !E, <- fold_left_app, <- omap_app. apply print_styles.
Qed.

(** ** Reading printed styles back *)
(** A name in lower case without white space; a value that neither starts nor ends with white space. *)
Definition name_unit : cset := λ c, plain_unit c && negb (is_space c) && (lower_unit c =? c).
Definition plain_name (n : jstr) : Prop := n ≠ [] ∧ forallb name_unit n = true ∧ n ≠ js "__proto__".
Definition plain_value (v : jstr) : Prop :=
  plain v ∧ (∃ c w, v = c :: w ∧ is_space c = false) ∧ (∃ w c, v = w ++ [c] ∧ is_space c = false).
(** Not one of the styles that run scripts. *)
Definition harmless (cfg : settings) (p : jstr * jstr) : Prop :=
  allow_script_urls cfg = false → p.1 ≠ js "behavior" ∧ test expressionRegExp p.2 = false.

Lemma name_unit_inv c : name_unit c = true → plain_unit c = true ∧ is_space c = false ∧ lower_unit c = c.
Proof. unfold name_unit. rewrite !andb_true_iff, negb_true_iff, Z.eqb_eq. tauto. Qed.

Lemma plain_unit_inv c : plain_unit c = true → c ≠ 58 ∧ c ≠ 59.
Proof. unfold plain_unit. rewrite negb_true_iff, orb_false_iff. cbn. rewrite !orb_false_iff, !Z.eqb_neq. tauto. Qed.

Lemma lower_name n : forallb name_unit n = true → to_lower n = n.
Proof.
  induction n as [|c n IH]; [done|]. cbn. intros [(_ & _ & Hc)%name_unit_inv Hn]%andb_true_iff. unfold to_lower in *.
  by rewrite Hc, IH.
Qed.

Lemma trim_name n : plain_name n → trim_right n = n.
Proof.
  intros (Hne & Hn & _). induction n as [|c n IH] using rev_ind; [done|].
  rewrite forallb_app in Hn. apply andb_true_iff in Hn as [_ Hn]. cbn in Hn. rewrite andb_true_r in Hn.
  apply trim_right_end. by apply name_unit_inv in Hn as (_ & Hs & _).
Qed.

Lemma trim_value v : plain_value v → trim_right v = v.
Proof. intros (_ & _ & w & c & -> & Hc). by apply trim_right_end. Qed.

Lemma match_reads r u t p cs : reads r u t [] cs → match_here r p (u ++ t) = Some (MR p u t cs).
Proof.
  intros Hr. unfold match_here. rewrite (Hr p Some _ eq_refl). cbn [pos rest caps].
  by rewrite Nat.add_comm, Nat.add_sub, take_app_length.
Qed.

(** One style is one match. *)
Lemma match_style lead n v t p : lead = [] ∨ lead = js " " → plain_name n → plain_value v →
  match_here styleRegExp p (lead ++ n ++ js ": " ++ v ++ js ";" ++ t) =
    Some (MR p (lead ++ n ++ js ": " ++ v ++ js ";") t [(2%nat, v); (1%nat, n)]).
Proof.
  intros Hlead (Hne & Hn & _) (Hv & (c & w & Ev & Hc) & _).
  assert (forallb is_space lead = true ∧ stops is_space (n ++ js ": " ++ v ++ js ";" ++ t) = true) as [Hl Hs].
  { split; [by destruct Hlead as [-> | ->]|]. destruct n as [|a n]; [done|]. cbn in *. apply andb_true_iff in Hn as [Ha _].
    apply name_unit_inv in Ha as (_ & -> & _). done. }
  assert (reads styleRegExp (lead ++ n ++ js ":" ++ js " " ++ v ++ js ";") t [] [(2%nat, v); (1%nat, n)]) as Hr.
  { unfold styleRegExp. rewrite <- (app_nil_r (js ";")) in *.
    eapply reads_seq; [apply reads_star; [done|]|]; [by rewrite <- !app_assoc|].
    eapply reads_seq; [apply reads_group, reads_plus; [done| |done]|].
    { revert Hn. apply forallb_imp. intros x (Hx & _)%name_unit_inv. apply plain_unit_inv in Hx as [Hx _]. by apply negb_true_iff, Z.eqb_neq. }
    eapply reads_seq; [apply reads_char|]. eapply reads_seq; [apply reads_star; [done|]|].
    { rewrite Ev. cbn. by rewrite Hc. }
    eapply reads_seq; [apply reads_group, reads_plus; [by rewrite Ev| |done]|].
    { revert Hv. apply forallb_imp. intros x [_ Hx]%plain_unit_inv. by apply negb_true_iff, Z.eqb_neq. }
    rewrite app_nil_r. apply reads_alt_l, reads_char. }
  apply (match_reads _ _ _ p) in Hr. rewrite <- !app_assoc in Hr. exact Hr.
Qed.

Definition plain_styles (o : styles_t) : Prop := NoDup (Obj.keys o) ∧ Forall (λ p, plain_name p.1 ∧ plain_value p.2) o.

Definition convert_style (cfg : settings) (p : jstr * jstr) : jstr * jstr := (p.1, convert_value cfg false p.1 p.2).

Lemma parse_style_eq cfg n v p u t s : plain_name n → plain_value v → harmless cfg (n, v) →
  parse_style cfg false (MR p u t [(2%nat, v); (1%nat, n)]) s = Obj.set n (convert_value cfg false n v) s.
Proof.
  intros Hn Hv Hh. unfold parse_style, group. cbv zeta. cbn [group cap_get m_caps List.find fst snd Nat.eqb fmap option_fmap option_map default from_option id]. unfold id.
  rewrite trim_name, trim_value by done. pose proof Hn as (Hne & Hu & Hproto). pose proof Hv as (_ & (c & w & Ew & _) & _).
  rewrite lower_name by done. assert (truthy n && truthy v = true) as -> by (rewrite Ew; by destruct n).
  assert (negb (allow_script_urls cfg) && (str_eqb n (js "behavior") || test expressionRegExp v) = false) as ->.
  { destruct (allow_script_urls cfg) eqn:Ea; [done|]. destruct (Hh Ea) as [Hb Hx]. cbn in *. rewrite Hx, orb_false_r.
    by apply bool_decide_eq_false. }
  unfold set_style, str_eqb. by rewrite bool_decide_false.
Qed.

Lemma parse_loop_text cfg o : ∀ lead rounds p s, (length o < rounds)%nat → lead = [] ∨ lead = js " " →
  Forall (λ p, plain_name p.1 ∧ plain_value p.2) o → Forall (harmless cfg) o →
  NoDup (Obj.keys (s ++ o)) →
  parse_loop cfg rounds false p (style_text lead o) s = Some (s ++ (convert_style cfg <$> o)).
Proof.
  induction o as [|[n v] o IH]; intros lead rounds p s Hr Hl Hp Hh Hd; (destruct rounds as [|rounds]; [lia|]).
  { cbn. by rewrite app_nil_r. }
  apply Forall_cons in Hp as [[Hn Hv] Hp]. apply Forall_cons in Hh as [Hnv Hh]. cbn [fst snd] in *.
  cbn [parse_loop style_text]. rewrite (exec_from_here _ _ _ _ (match_style lead n v _ p Hl Hn Hv)). cbn [m_index m_text m_after].
  rewrite parse_style_eq by done. rewrite Obj.keys_set_new.
  2:{ apply Obj.get_None_keys. unfold Obj.keys in *. rewrite fmap_app in Hd. apply NoDup_app in Hd as (_ & Hd & _).
      intros Hin. apply (Hd n Hin). cbn. by left. }
  rewrite IH; [by rewrite <- app_assoc|cbn in Hr; lia|by right|done..|].
  unfold Obj.keys in *. by rewrite !fmap_app, <- app_assoc in *.
Qed.

Lemma style_text_unescaped lead o : forallb unescaped lead = true → Forall (λ p, plain_name p.1 ∧ plain_value p.2) o →
  forallb unescaped (style_text lead o) = true.
Proof.
  intros Hl Ho. revert lead Hl. induction Ho as [|[n v] o [(_ & Hn & _) (Hv & _)] Ho IH]; intros lead Hl; [done|].
  cbn [style_text fst snd] in *. rewrite !forallb_app, Hl. assert (forallb unescaped n = true) as ->.
  { apply plain_unescaped. revert Hn. apply forallb_imp. intros c (Hc & _)%name_unit_inv. done. }
  rewrite (plain_unescaped v Hv), IH by done. done.
Qed.

Lemma style_text_length lead o : (length o ≤ length (style_text lead o))%nat.
Proof.
  revert lead. induction o as [|[n v] o IH]; intros lead; cbn [style_text]; [done|]. rewrite !length_app. specialize (IH (js " ")).
  change (length (js ";")) with 1%nat. cbn [length]. lia.
Qed.

(** C38: Reading printed styles back: for styles with plain names and values, none of which can run a script, parsing what
    serialize prints gives the same styles in the same order, each value converted and then box styles joined. *)
Theorem styles_parse_serialize cfg o : plain_styles o → Forall (harmless cfg) o →
  parse cfg (serialize None o []) = Some (compress_all (convert_style cfg <$> o)).
Proof.
  intros [Hd Hp] Hh. rewrite serialize_shown. cbn [printed].
  assert (List.filter filled o = o) as ->.
  { clear Hd Hh. induction Hp as [|[n v] o [_ (_ & (c & w & E & _) & _)] Hp IH]; [done|]. cbn in *. rewrite E. cbn. by rewrite IH. }
  unfold parse. destruct o as [|q o]; [done|]. set (l := q :: o) in *.
  assert (truthy (style_text [] l) = true) as -> by (destruct q as [[|a n] v]; [by destruct (Forall_inv Hp) as [[? _] _]|done]).
  pose proof (style_text_unescaped [] l eq_refl Hp) as Hu. rewrite not_controls, not_escaped by done. rewrite no_strings by done.
  cbn [orb]. rewrite parse_loop_text; [done| |by left|done..]. pose proof (style_text_length [] l). lia.
Qed.

(** ** Box styles *)
(** The four values of a box style in the order top, right, bottom, left: one to four words, as in CSS 2.1, 8.3. *)
Definition box_words (v : jstr) : list jstr :=
  match split_unit 32 v with
  | [a] => [a; a; a; a]
  | [a; b] => [a; b; a; b]
  | [a; b; c] => [a; b; c; b]
  | l => l
  end.

(** What the styles say of one side, read in order: the last of its own style and its part of the box style
    counts. A border as a whole is the same for all sides. *)
Definition of_box (whole : bool) (v : jstr) (i : nat) : option jstr := if whole then Some v else box_words v !! i.
Definition declare (side box : jstr) (whole : bool) (i : nat) (said : option jstr) (p : jstr * jstr) : option jstr :=
  if bool_decide (p.1 = side) then Some p.2
  else if bool_decide (p.1 = box) then match of_box whole p.2 i with Some v => Some v | None => said end
  else said.
Definition box_side (prefix suffix : jstr) (whole : bool) (s : styles_t) (i : nat) : option jstr :=
  side ← side_names prefix suffix !! i;
  fold_left (declare side (prefix ++ suffix) whole i) s None.

(** The box style, if it is there, comes before the sides. *)
Definition box_first (prefix suffix : jstr) (s : styles_t) : Prop :=
  ∀ i j k v w, k ∈ side_names prefix suffix → s !! i = Some (k, v) → s !! j = Some (prefix ++ suffix, w) → (j < i)%nat.

Definition word (v : jstr) : Prop := forallb (λ c, negb (c =? 32)) v = true.

Lemma split_word v : word v → split_unit 32 v = [v].
Proof.
  induction v as [|c v IH]; [done|]. unfold word. cbn. intros [Hc Hv]%andb_true_iff. apply negb_true_iff in Hc. rewrite Hc.
  by rewrite IH.
Qed.

Lemma split_word_app v t : word v → split_unit 32 (v ++ 32 :: t) = v :: split_unit 32 t.
Proof.
  induction v as [|c v IH]; [done|]. unfold word. cbn. intros [Hc Hv]%andb_true_iff. apply negb_true_iff in Hc. rewrite Hc.
  by rewrite IH.
Qed.

Lemma last_diff_four a b c d : last_diff 3 [a; b; c; d] = -1 → a = b ∧ b = c ∧ c = d.
Proof. cbn. repeat (case_bool_decide as E; [injection E as ->|done]). done. Qed.

Lemma side_names_box prefix suffix : prefix ++ suffix ∉ side_names prefix suffix.
Proof.
  intros (side & E & Hin)%list_elem_of_fmap. apply (f_equal length) in E. rewrite !length_app in E.
  assert (js side ≠ []) by (intros E'; rewrite E' in *; set_solver). destruct (js side); [done|]. cbn in E. lia.
Qed.

Lemma side_names_NoDup prefix suffix : NoDup (side_names prefix suffix).
Proof.
  apply NoDup_fmap_2_strong; [|by apply (bool_decide_unpack _)]. intros a b Ha Hb E%(inj (app prefix)).
  apply (inj (λ l, l ++ suffix)) in E. set_solver.
Qed.

Lemma get_deletes {V} k l (s : Obj.t V) : Obj.get k (fold_left (λ s k, Obj.delete k s) l s) = if decide (k ∈ l) then None else Obj.get k s.
Proof.
  revert s. induction l as [|k' l IH]; intros s; cbn; [done|]. rewrite IH. destruct (decide (k = k')) as [->|Hne].
  - rewrite Obj.get_delete_eq. rewrite (decide_True (P := k' ∈ k' :: l)) by by left. by destruct (decide _).
  - rewrite Obj.get_delete_ne by done. destruct (decide (k ∈ l)).
    + by rewrite decide_True by by right.
    + rewrite decide_False; [done|]. by intros [?|?]%elem_of_cons.
Qed.

(** Then a side's own style counts before the box style. *)
Lemma box_side_get prefix suffix whole s i side : side_names prefix suffix !! i = Some side →
  NoDup (Obj.keys s) → box_first prefix suffix s →
  box_side prefix suffix whole s i = match Obj.get side s with
                                     | Some v => Some v
                                     | None => v ← Obj.get (prefix ++ suffix) s; of_box whole v i
                                     end.
Proof.
  intros Ei. unfold box_side. rewrite Ei. cbn [mbind option_bind]. apply list_elem_of_lookup_2 in Ei.
  assert (prefix ++ suffix ≠ side) as Hne by (intros E; apply (side_names_box prefix suffix); by rewrite E).
  induction s as [|[k v] s IH] using rev_ind; intros Hd Hb; [done|].
  assert ((k ∉ Obj.keys s) ∧ NoDup (Obj.keys s)) as [Hk Hd'].
  { unfold Obj.keys in *. rewrite fmap_app in Hd. apply NoDup_app in Hd as (Hd & Hx & _). split; [|done].
    intros Hin. apply (Hx k Hin). by left. }
  assert (box_first prefix suffix s) as Hb'.
  { intros a b k' v' w' Hk' Ha Hw'. eapply (Hb a b); [exact Hk'|by eapply lookup_app_l_Some..]. }
  rewrite fold_left_app. cbn [fold_left]. rewrite (IH Hd' Hb'). apply Obj.get_None_keys in Hk.
  rewrite <- (Obj.keys_set_new k v s Hk), !Obj.get_set. unfold declare. cbn [fst snd].
  destruct (decide (k = side)) as [->|Hks]; [by rewrite bool_decide_true|]. rewrite bool_decide_false by done.
  destruct (decide (k = prefix ++ suffix)) as [->|Hkb]; [|by rewrite bool_decide_false]. rewrite bool_decide_true by done.
  assert (Obj.get side s = None) as ->.
  { apply Obj.get_None_keys. intros Hin. apply list_elem_of_fmap in Hin as ([k v'] & E & Hin). apply list_elem_of_lookup_1 in Hin as [a Ha]. cbn in E. subst k. cbn in Ei.
    pose proof (lookup_lt_Some _ _ _ Ha). assert (length s < a)%nat; [|lia].
    eapply Hb; [exact Ei|by eapply lookup_app_l_Some|by apply list_lookup_middle]. }
  rewrite Hk. cbn. by destruct (of_box whole v i).
Qed.

Lemma style_get k s v : style k s = Some v → Obj.get k s = Some v.
Proof. unfold style. by destruct (Obj.get k s) as [[|]|]. Qed.

(** Either nothing changes, or the four sides become one style that says the same. *)
Lemma compress_cases prefix suffix noJoin s : compress prefix suffix noJoin s = s ∨
  ∃ box v, Forall2 (λ k w, Obj.get k s = Some w) (side_names prefix suffix) box
    ∧ compress prefix suffix noJoin s = fold_left (λ s k, Obj.delete k s) (side_names prefix suffix) (Obj.set (prefix ++ suffix) v s)
    ∧ ((noJoin = false ∧ v = join (js " ") box) ∨ ∃ w, v = w ∧ box = [w; w; w; w]).
Proof.
  unfold compress. destruct (mapM _ _) as [box|] eqn:E; [|by left].
  apply mapM_Some in E. assert (Forall2 (λ k w, Obj.get k s = Some w) (side_names prefix suffix) box) as Hb.
  { eapply Forall2_impl; [exact E|]. intros k w. apply style_get. }
  assert (∃ a b c d, box = [a; b; c; d]) as (a & b & c & d & ->).
  { apply Forall2_length in Hb. cbn in Hb. destruct box as [|a [|b [|c [|d [|]]]]]; try done. eauto. }
  cbv zeta. cbn [length Nat.sub]. destruct (Z.eqb_spec (last_diff 3 [a; b; c; d]) (-1)) as [Hi|Hi].
  - apply last_diff_four in Hi as Heq. destruct Heq as (-> & -> & ->). rewrite Hi. cbn [Z.ltb Z.compare andb].
    right. exists [d; d; d; d], d. split_and!; [done|done|]. right. by exists d.
  - destruct ((-1 <? last_diff 3 [a; b; c; d]) && noJoin) eqn:En; [by left|]. right. eexists _, _. split_and!; [exact Hb|done|].
    left. split; [|done]. destruct noJoin; [|done]. rewrite andb_true_r in En. apply Z.ltb_ge in En.
    assert (-1 ≤ last_diff 3 [a; b; c; d]); [|lia]. clear. cbn. repeat case_bool_decide; lia.
Qed.

Lemma keys_deletes {V} l (s : Obj.t V) : NoDup (Obj.keys s) → NoDup (Obj.keys (fold_left (λ s k, Obj.delete k s) l s)).
Proof. revert s. induction l as [|k l IH]; intros s Hs; [done|]. by apply IH, Obj.keys_NoDup_delete. Qed.

Lemma box_first_deletes prefix suffix (s : styles_t) :
  box_first prefix suffix (fold_left (λ s k, Obj.delete k s) (side_names prefix suffix) s).
Proof.
  intros i j k v w Hk Hi%list_elem_of_lookup_2 _. exfalso.
  assert (Obj.get k (fold_left (λ s k, Obj.delete k s) (side_names prefix suffix) s) = None) as Hn
    by (rewrite get_deletes; by rewrite decide_True).
  apply Obj.get_None_keys in Hn. apply Hn. by apply (list_elem_of_fmap_2 fst _ (k, v)).
Qed.


(** ** Witnesses *)
Definition strict_settings : settings := Settings false None.
Definition sample_styles : styles_t :=
  [(js "padding-top", js "1px"); (js "padding-right", js "2px"); (js "padding-bottom", js "1px"); (js "padding-left", js "3px");
   (js "color", js "RED"); (js "background", js "rgb(1, 22 ,255) none")].

Lemma plain_style_ok n v : bool_decide (n ≠ [] ∧ forallb name_unit n = true ∧ n ≠ js "__proto__" ∧ forallb plain_unit v = true)
    && match v with c :: _ => negb (is_space c) | [] => false end && match last v with Some c => negb (is_space c) | None => false end = true →
  plain_name n ∧ plain_value v.
Proof.
  rewrite !andb_true_iff, bool_decide_eq_true. intros [[(? & ? & ? & Hv) Hc] Hl]. split; [done|]. split_and!; [done| |].
  - destruct v as [|c w]; [done|]. apply negb_true_iff in Hc. by exists c, w.
  - destruct (last v) as [c|] eqn:E; [|done]. apply negb_true_iff in Hl. apply last_Some in E as [w ->]. by exists w, c.
Qed.

Lemma sample_plain : plain_styles sample_styles ∧ Forall (harmless strict_settings) sample_styles.
Proof.
  split; [split; [by apply (bool_decide_unpack _)|]|];
    repeat (apply Forall_cons; split; [by apply plain_style_ok || (intros _; split; [done|reflexivity])|]); by apply Forall_nil.
Qed.

Lemma styles_parse_serialize_witness : parse strict_settings (serialize None sample_styles []) =
  Some [(js "color", js "red"); (js "background", js "#0116ff none"); (js "padding", js "1px 2px 1px 3px")].
Proof. rewrite (styles_parse_serialize strict_settings sample_styles (proj1 sample_plain) (proj2 sample_plain)). vm_compute. reflexivity. Defined.


(** A box style after its sides overrides them all; joining the sides puts their value in its place. *)
Definition overridden : styles_t :=
  [(js "padding-top", js "1px"); (js "padding-right", js "1px"); (js "padding-bottom", js "1px"); (js "padding-left", js "1px");
   (js "padding", js "5px")].
Example joining_loses_override :
  box_side (js "padding") [] false overridden 0 = Some (js "5px")
  ∧ box_side (js "padding") [] false (compress (js "padding") [] false overridden) 0 = Some (js "1px")
  ∧ parse strict_settings (js "padding-top:1px; padding-right:1px; padding-bottom:1px; padding-left:1px; padding:5px")
    = Some [(js "padding", js "1px")].
Proof. vm_compute. repeat split. Qed.

(** A text that gets past the filter of scripts: the address that is taken out of the value stood between the two halves
    of a call the filter had looked for. *)
Theorem expression_bypass : parse strict_settings (js "width: expressionurl(javascript:x)(alert(1))") =
  Some [(js "width", js "expression(alert(1))")] ∧ parse strict_settings (js "width: expression(alert(1))") = Some [].
Proof. split; vm_compute; reflexivity. Qed.

(** The filter knows the word in lower case only, and an escaped invisible character becomes a word. *)
Lemma expression_case : parse strict_settings (js "a: Expression(1)") = Some [(js "a", js "Expression(1)")].
Proof. vm_compute. reflexivity. Qed.
Lemma escaped_invisible : parse strict_settings (js "a: " ++ [92; 65279]) = Some [(js "a", js "undefined")].
Proof. vm_compute. reflexivity. Qed.
