(* ===== verification/TableGrid.v ===== *)
(** * plugins/table/classes/TableGrid.js

    The grid of a table with row and column spans, and the operations of the
    table plug-in on it.  The document part is a store of cells under rows under sections; a
    table inside a cell is outside of the model.  The cells of the grid are objects of their own, compared by
    identity; [None] as the result of a step is an exception. *)

From S2P Require Import Prelude Tools.

(** ** Data *)
Inductive part := Thead | Tbody | Tfoot.
#[export] Instance part_eq_dec : EqDecision part.
Proof. solve_decision. Defined.

(** What is inside a cell. *)
Inductive dnode :=
  | DText (s : jstr)
  | DElem (nodeName : jstr) (attrs : list (jstr * jstr)) (childNodes : list dnode)
  | DOther (s : jstr).

(** A td or th; [c_selected]: its class holds mce-item-selected. *)
Record cell := Cell {
  c_name : jstr;
  c_rowspan : option jstr;
  c_colspan : option jstr;
  c_selected : bool;
  c_attrs : list (jstr * jstr);
  c_children : list dnode
}.

Record row := Row { r_id : nat; r_attrs : list (jstr * jstr); r_cells : list nat }.

(** The table, and the rows that exist outside of it; a row has the same [r_id] for life. *)
Record table := Table {
  sections : list (part * list row);
  loose_rows : list row;
  cells : gmap nat cell;
  next_id : nat
}.

(** A number; [None] is NaN. *)
Abbreviation num := (option Z).

(** An object of the grid: [g_key] tells it from all others. *)
Record gcell := GCell {
  g_key : nat * nat * nat;
  g_part : part;
  g_real : bool;
  g_elm : nat;
  g_rowspan : num;
  g_colspan : num
}.

(** An array with holes. *)
Abbreviation sparse A := (list (option A)).
Abbreviation grid_t := (sparse (sparse gcell)).

Inductive caret_t := CaretNone | CaretCell (elm : nat) | CaretTable.

Record st := St {
  tbl : table;
  removed : bool;
  grid : grid_t;
  gen : nat;
  selectedCell : option gcell;
  startPos : option (nat * nat);
  endPos : option (nat * nat);
  caret : caret_t
}.
Abbreviation TM := (SE st).

Definition set_tbl t s := St t (removed s) (grid s) (gen s) (selectedCell s) (startPos s) (endPos s) (caret s).
Definition set_removed s := St (tbl s) true (grid s) (gen s) (selectedCell s) (startPos s) (endPos s) (caret s).
Definition set_grid g s := St (tbl s) (removed s) g (S (gen s)) (selectedCell s) (startPos s) (endPos s) (caret s).
Definition set_selectedCell c s := St (tbl s) (removed s) (grid s) (gen s) c (startPos s) (endPos s) (caret s).
Definition set_startPos p s := St (tbl s) (removed s) (grid s) (gen s) (selectedCell s) p (endPos s) (caret s).
Definition set_endPos p s := St (tbl s) (removed s) (grid s) (gen s) (selectedCell s) (startPos s) p (caret s).
Definition set_caret c s := St (tbl s) (removed s) (grid s) (gen s) (selectedCell s) (startPos s) (endPos s) c.

Definition set_rowspan v c := Cell (c_name c) v (c_colspan c) (c_selected c) (c_attrs c) (c_children c).
Definition set_colspan v c := Cell (c_name c) (c_rowspan c) v (c_selected c) (c_attrs c) (c_children c).
Definition set_selected b c := Cell (c_name c) (c_rowspan c) (c_colspan c) b (c_attrs c) (c_children c).
Definition set_children l c := Cell (c_name c) (c_rowspan c) (c_colspan c) (c_selected c) (c_attrs c) l.
Definition set_cells l r := Row (r_id r) (r_attrs r) l.
Definition with_cells m t := Table (sections t) (loose_rows t) m (next_id t).
Definition with_rows l d t := Table l d (cells t) (next_id t).
Definition with_next n t := Table (sections t) (loose_rows t) (cells t) n.

(** ** Arrays *)
(** [a[i]]: a hole reads as undefined. *)
Definition get_at {A} (i : nat) (a : sparse A) : option A := mjoin (a !! i).

Fixpoint set_at {A} (i : nat) (v : A) (a : sparse A) : sparse A :=
  match i, a with
  | O, [] => [Some v]
  | O, _ :: a => Some v :: a
  | S i, [] => None :: set_at i v []
  | S i, x :: a => x :: set_at i v a
  end.

(** How many entries come before the first hole. *)
Fixpoint leading {A} (a : sparse A) : nat :=
  match a with Some _ :: a => S (leading a) | _ => 0 end.

(** ** The document *)
Definition rows_of (p : part) (t : table) : list row :=
  concat (snd <$> List.filter (λ s, bool_decide (s.1 = p)) (sections t)).

(** [table.rows]: the header rows, the body rows, the footer rows. *)
Definition table_rows (t : table) : list row := rows_of Thead t ++ rows_of Tbody t ++ rows_of Tfoot t.
Definition all_rows (t : table) : list row := concat (snd <$> sections t).

Definition every_row (t : table) : list row := all_rows t ++ loose_rows t.

Definition find_row (id : nat) (t : table) : option row := List.find (λ r, Nat.eqb (r_id r) id) (every_row t).

(** [cell.parentNode] *)
Definition row_of (elm : nat) (t : table) : option row :=
  List.find (λ r, bool_decide (elm ∈ r_cells r)) (every_row t).

Definition map_sections (f : list row -> list row) (l : list (part * list row)) : list (part * list row) :=
  (λ s, (s.1, f s.2)) <$> l.
Definition map_each (f : row -> row) (t : table) : table :=
  with_rows (map_sections (fmap f) (sections t)) (f <$> loose_rows t) t.

(** [dom.remove(cell)], [dom.insertAfter(new, cell)] and [insertBefore] in its row. *)
Definition remove_cell (elm : nat) : table -> table :=
  map_each (λ r, set_cells (List.filter (λ c, negb (Nat.eqb c elm)) (r_cells r)) r).

Fixpoint put_near (after : bool) (new elm : nat) (l : list nat) : list nat :=
  match l with
  | [] => []
  | c :: l => if Nat.eqb c elm then (if after then c :: new :: l else new :: c :: l)
              else c :: put_near after new elm l
  end.

Definition put_cell (after : bool) (new elm : nat) : table -> table :=
  map_each (λ r, set_cells (put_near after new elm (r_cells r)) r).

(** Rows that satisfy [f] leave the table. *)
Definition detach_rows (f : row -> bool) (t : table) : table :=
  with_rows (map_sections (List.filter (λ r, negb (f r))) (sections t)) (loose_rows t ++ List.filter f (all_rows t)) t.
Definition remove_row (id : nat) : table -> table := detach_rows (λ r, Nat.eqb (r_id r) id).

Fixpoint put_row_near (after : bool) (new : row) (id : nat) (l : list row) : list row :=
  match l with
  | [] => []
  | r :: l => if Nat.eqb (r_id r) id then (if after then r :: new :: l else new :: r :: l)
              else r :: put_row_near after new id l
  end.

(** [dom.insertAfter(row, target)] or [insertBefore] of a row of the document. *)
Definition put_row (after : bool) (new : row) (target : nat) (t : table) : table :=
  if Nat.eqb (r_id new) target then t
  else
    let others := List.filter (λ r, negb (Nat.eqb (r_id r) (r_id new))) in
    with_rows (map_sections (λ l, put_row_near after new target (others l)) (sections t)) (others (loose_rows t)) t.

(** [dom.getNext(tr, 'tr')]: the next row of the same section. *)
Fixpoint next_row (id : nat) (l : list row) : option row :=
  match l with
  | [] => None
  | r :: l => if Nat.eqb (r_id r) id then head l else next_row id l
  end.
Definition getNext (id : nat) (t : table) : option row :=
  head (omap (λ s, next_row id s.2) (sections t)).

(** ** Spans *)
Definition show_num (n : num) : jstr :=
  match n with
  | None => js "NaN"
  | Some n => if n <? 0 then js "-" ++ num_to_string 10 (- n) else num_to_string 10 n
  end.

Inductive span := RowSpan | ColSpan.
Definition getAttribute (td : cell) (name : span) : option jstr :=
  match name with RowSpan => c_rowspan td | ColSpan => c_colspan td end.

(** [parseInt(td.getAttribute(name) || 1, 10)] *)
Definition getSpanVal (td : cell) (name : span) : num :=
  match getAttribute td name with
  | Some (c :: v) => parse_int 10 (c :: v)
  | _ => Some 1
  end.

Definition set_span (name : span) (val : num) (td : cell) : cell :=
  let v := if decide (val = Some 1) then None else Some (show_num val) in
  match name with RowSpan => set_rowspan v td | ColSpan => set_colspan v td end.

(** Arithmetic and comparison of numbers. *)
Definition add (n : num) (k : Z) : num := (λ n, n + k) <$> n.
Definition gt (n : num) (k : Z) : bool := match n with Some n => k <? n | None => false end.
Definition le (n : num) (k : Z) : bool := match n with Some n => n <=? k | None => false end.
(** The rounds of a loop that counts up to it. *)
Definition rounds (n : num) : nat := match n with Some n => Z.to_nat n | None => 0 end.

(** ** buildGrid *)
Section Build.
Context (gen_ : nat) (cs : gmap nat cell) (p : part).

Definition row_at (y : nat) (g : grid_t) : sparse gcell := default [] (get_at y g).

(** The columns of one cell in one row, and its rows. *)
Definition fill_row (y x y2 : nat) (elm : nat) (rowspan colspan : num) (row : sparse gcell) : sparse gcell :=
  fold_left (λ row x2, set_at x2
    (GCell (gen_, y2, x2) p (Nat.eqb y2 y && Nat.eqb x2 x) elm rowspan colspan) row) (seq x (rounds colspan)) row.

Definition place (y x : nat) (elm : nat) (rowspan colspan : num) (g : grid_t) : grid_t :=
  fold_left (λ g y2, set_at y2 (fill_row y x y2 elm rowspan colspan (row_at y2 g)) g) (seq y (rounds rowspan)) g.

(** The first free column from [x] on. *)
Definition free_from (x : nat) (row : sparse gcell) : nat := (x + leading (drop x row))%nat.

Fixpoint build_row (y x : nat) (l : list nat) (g : grid_t) : option grid_t :=
  match l with
  | [] => Some g
  | elm :: l =>
      td ← cs !! elm;
      build_row y (S x) l
        (place y (free_from x (row_at y g)) elm (getSpanVal td RowSpan) (getSpanVal td ColSpan) g)
  end.

Fixpoint build_rows (y : nat) (rs : list row) (g : grid_t) : option grid_t :=
  match rs with
  | [] => Some g
  | r :: rs => g ← build_row y 0 (r_cells r) g; build_rows (S y) rs g
  end.
End Build.

Definition build (gen_ : nat) (t : table) : option grid_t :=
  g ← build_rows gen_ (cells t) Thead 0 (rows_of Thead t) [];
  let y := length (rows_of Thead t) in
  g ← build_rows gen_ (cells t) Tbody y (rows_of Tbody t) g;
  let y := (y + length (rows_of Tbody t))%nat in
  build_rows gen_ (cells t) Tfoot y (rows_of Tfoot t) g.

Definition buildGrid : TM unit :=
  t ← gets tbl; n ← gets gen; g ← oget (build n t); modify (set_grid g).

(** ** Reading the grid *)
Definition at_ (y x : nat) (g : grid_t) : option gcell := get_at y g ≫= get_at x.

Definition getCell (x y : Z) : TM (option gcell) :=
  g ← gets grid; mret (if (x <? 0) || (y <? 0) then None else at_ (Z.to_nat y) (Z.to_nat x) g).

(** [grid[y][x].elm] *)
Definition elm_at (y x : nat) : TM nat :=
  g ← gets grid; row ← oget (get_at y g); c ← oget (get_at x row); mret (g_elm c).

Definition the_cell (elm : nat) : TM cell := t ← gets tbl; oget (cells t !! elm).
Definition upd_tbl (f : table -> table) : TM unit := modify (λ s, set_tbl (f (tbl s)) s).
Definition upd_cell (elm : nat) (f : cell -> cell) : TM unit := upd_tbl (λ t, with_cells (alter f elm (cells t)) t).
Definition setSpanVal (elm : nat) (name : span) (val : num) : TM unit := upd_cell elm (set_span name val).

Definition is_selected (s : st) (c : option gcell) : bool :=
  match c with
  | None => false
  | Some c => match cells (tbl s) !! g_elm c with Some td => c_selected td | None => false end
              || match selectedCell s with Some k => bool_decide (g_key c = g_key k) | None => false end
  end.
Definition isCellSelected (c : option gcell) : TM bool := λ s, Some (is_selected s c, s).

(** All entries of the grid, row by row. *)
Definition entries (g : grid_t) : list (nat * nat * option gcell) :=
  concat (imap (λ y row, imap (λ x c, (y, x, c)) (default [] row)) g).

(** The first slot, in rows, of the element: [(x, y)]; a hole on the way is an exception. *)
Fixpoint find_pos (elm : nat) (l : list (nat * nat * option gcell)) : option (option (nat * nat)) :=
  match l with
  | [] => Some None
  | (y, x, c) :: l => c ← c; if Nat.eqb (g_elm c) elm then Some (Some (x, y)) else find_pos elm l
  end.

Definition getPos (elm : nat) : TM (option (nat * nat)) := g ← gets grid; oget (find_pos elm (entries g)).

Fixpoint for_each {A} (f : A -> TM unit) (l : list A) : TM unit :=
  match l with [] => mret tt | x :: l => f x;; for_each f l end.

Fixpoint times (n : nat) (m : TM unit) : TM unit :=
  match n with O => mret tt | S n => m;; times n m end.

(** The rows with a selected cell. *)
Fixpoint selects (s : st) (l : list nat) : option bool :=
  match l with
  | [] => Some false
  | c :: l =>
      td ← cells (tbl s) !! c;
      if c_selected td then Some true
      else k ← selectedCell s; if Nat.eqb c (g_elm k) then Some true else selects s l
  end.

Fixpoint selected_of (s : st) (rs : list row) : option (list nat) :=
  match rs with
  | [] => Some []
  | r :: rs => b ← selects s (r_cells r); rest ← selected_of s rs; Some (if (b : bool) then r_id r :: rest else rest)
  end.

Definition getSelectedRows : TM (list nat) := λ s, (λ l, (l, s)) <$> selected_of s (table_rows (tbl s)).

Definition deleteTable : TM unit := modify (λ s, set_removed (set_caret CaretTable s)).

(** ** Cloning cells *)
(** The settings: false, or a text (empty when not given), and what the browser
    answers for the property [colSpan] of a cell with that attribute. *)
Class Config := {
  ie : bool;
  table_clone_elements : option jstr;
  colSpan_of : option jstr -> Z
}.

Definition without_id (l : list (jstr * jstr)) : list (jstr * jstr) :=
  List.filter (λ p, negb (str_eqb p.1 (js "id"))) l.

(** [s.split(/[ ,]/)] *)
Definition split_names (s : jstr) : list jstr := concat (split_unit 44 <$> split_unit 32 s).

Section Clone.
Context `{Config}.

Definition cloneFormats : Obj.t unit :=
  match table_clone_elements with
  | None => []
  | Some v => makeMap_list (split_names (to_upper (match v with
      | [] => js "strong em b i span font h1 h2 h3 h4 h5 h6 p div" | _ => v end))) []
  end.

(** [Tools.walk]: for each text that is reached the elements of
    [cloneFormats] around it; the callback stops at a text, but only among its siblings.
    The first non-empty answer is kept. *)
Fixpoint formats_in (path : list (jstr * list (jstr * jstr))) (n : dnode) : list (jstr * list (jstr * jstr)) :=
  match n with
  | DText _ => List.filter (λ e, Obj.has e.1 cloneFormats) path
  | DElem nm a l =>
      (fix walk (l : list dnode) :=
         match l with
         | [] => []
         | n :: l =>
             match formats_in (path ++ [(nm, a)]) n with
             | [] => match n with DText _ => [] | _ => walk l end
             | r => r
             end
         end) l
  | DOther _ => []
  end.

Fixpoint walk_formats (l : list dnode) : list (jstr * list (jstr * jstr)) :=
  match l with
  | [] => []
  | n :: l => match formats_in [] n with
              | [] => match n with DText _ => [] | _ => walk_formats l end
              | r => r
              end
  end.

Definition bogus_br : dnode := DElem (js "BR") [(js "data-mce-bogus", js "1")] [].

(** The clones of the formats, one in the other, with something in the inner one. *)
Fixpoint nest (l : list (jstr * list (jstr * jstr))) : list dnode :=
  match l with
  | [] => [if ie then DText [160] else bogus_br]
  | (nm, a) :: l => [DElem nm (without_id a) (nest l)]
  end.

Definition clone_of (td : cell) : cell :=
  Cell (c_name td) None None (c_selected td) (without_id (c_attrs td))
    (match walk_formats (c_children td) with
     | [] => if ie then [] else [bogus_br]
     | l => nest l
     end).

Definition new_cell (td : cell) : TM nat :=
  t ← gets tbl;
  modify (set_tbl (with_next (S (next_id t)) (with_cells (<[next_id t := td]> (cells t)) t)));;
  mret (next_id t).

Definition cloneCell (elm : nat) : TM nat := td ← the_cell elm; new_cell (clone_of td).

(** [parent.insertBefore(new, cell)] or [dom.insertAfter(new, cell)], with the parent of the cell. *)
Definition insert_clone (after : bool) (elm : nat) : TM unit :=
  new ← cloneCell elm;
  t ← gets tbl;
  _ ← oget (row_of elm t);
  upd_tbl (put_cell after new elm).

(** ** cleanup *)
Definition has_cells (r : row) : bool := match r_cells r with [] => false | _ => true end.
Definition has_rows (s : part * list row) : bool := match s.2 with [] => false | _ => true end.

(** [Math.min(n - 1, k)] as an index; [-1] is none. *)
Definition clamp (n k : nat) : option nat := match n with O => None | S n => Some (Nat.min n k) end.

Definition cleanup : TM unit :=
  upd_tbl (detach_rows (λ r, negb (has_cells r)));;
  t ← gets tbl;
  match all_rows t with
  | [] => modify (λ s, set_removed (set_caret CaretTable s))
  | _ =>
      upd_tbl (λ t, with_rows (List.filter has_rows (sections t)) (loose_rows t) t);;
      buildGrid;;
      g ← gets grid;
      p ← gets startPos;
      p ← oget p;
      match clamp (length g) p.2 ≫= λ y, get_at y g with
      | None => mret tt
      | Some row =>
          c ← oget (clamp (length row) p.1 ≫= λ x, get_at x row);
          modify (set_caret (CaretCell (g_elm c)))
      end
  end.

(** ** fillLeftDown *)
(** The loop to the left for a cell of that row; the row's first cell
    stands in when there is none. *)
Fixpoint fill_left (tr : nat) (y : nat) (x2 : nat) (cols : nat) : TM unit :=
  cell ← elm_at y x2;
  t ← gets tbl;
  if bool_decide (r_id <$> row_of cell t = Some tr) then times cols (insert_clone true cell)
  else match x2 with
       | S x2 => fill_left tr y x2 cols
       | O =>
           times cols (t ← gets tbl;
                       r ← oget (find_row tr t);
                       c ← oget (head (r_cells r));
                       insert_clone false c)
       end.

Fixpoint fill_down (tr : option nat) (x y r : nat) (rows cols : nat) : TM unit :=
  match rows with
  | O => mret tt
  | S rows =>
      t ← gets tbl;
      match (match tr with Some tr => getNext tr t | None => None end) with
      | Some next => fill_left (r_id next) (y + r) x cols;; fill_down (Some (r_id next)) x y (S r) rows cols
      | None => fill_down None x y (S r) rows cols
      end
  end.

Definition fillLeftDown (x y : nat) (rows cols : num) : TM unit :=
  c ← elm_at y x;
  t ← gets tbl;
  fill_down (r_id <$> row_of c t) x y 1 (rounds rows) (rounds cols).

(** ** split and merge *)
Definition split_cell (e : nat * nat * option gcell) : TM unit :=
  let '(y, x, c) := e in
  b ← isCellSelected c;
  if (b : bool) then
    c ← oget c;
    td ← the_cell (g_elm c);
    let colSpan := getSpanVal td ColSpan in
    let rowSpan := getSpanVal td RowSpan in
    if gt colSpan 1 || gt rowSpan 1 then
      setSpanVal (g_elm c) RowSpan (Some 1);;
      setSpanVal (g_elm c) ColSpan (Some 1);;
      times (rounds (add colSpan (-1))) (insert_clone true (g_elm c));;
      fillLeftDown x y (add rowSpan (-1)) colSpan
    else mret tt
  else mret tt.

Definition split : TM unit := g ← gets grid; for_each split_cell (entries g).

Definition is_bogus (n : dnode) : bool :=
  match n with
  | DElem nm a _ => str_eqb nm (js "BR") && match Obj.get (js "data-mce-bogus") a with Some v => truthy v | None => false end
  | _ => false
  end.

(** The bogus line breaks go, at most [n] of them. *)
Fixpoint drop_bogus (n : nat) (l : list dnode) : list dnode :=
  match l with
  | [] => []
  | d :: l => if is_bogus d then match n with S n => drop_bogus n l | O => d :: drop_bogus O l end
              else d :: drop_bogus n l
  end.

(** The contents of a cell move to the start cell, and the cell goes. *)
Definition merge_cell (startCell : nat) (p : nat * nat) : TM unit :=
  g ← gets grid;
  match at_ p.1 p.2 g with
  | None => mret tt
  | Some c =>
      if Nat.eqb (g_elm c) startCell then mret tt
      else
        td ← the_cell (g_elm c);
        match c_children td with
        | [] => mret tt
        | children =>
            upd_cell (g_elm c) (set_children []);;
            upd_cell startCell (λ s, let l := c_children s ++ children in
                                     set_children (drop_bogus (length l - 1) l) s)
        end;;
        upd_tbl (remove_cell (g_elm c))
  end.

(** The indices from [a] to [b]; negative ones are outside of every array. *)
Definition range (a b : Z) : list nat := seq (Z.to_nat a) (Z.to_nat (b + 1) - Z.to_nat a).

(** First and last selected slot, [(x, y)]. *)
Fixpoint selected_range (s : st) (l : list (nat * nat * option gcell)) (acc : option (nat * nat) * option (nat * nat)) :=
  match l with
  | [] => acc
  | (y, x, c) :: l =>
      selected_range s l (if is_selected s c then (Some (default (x, y) acc.1), Some (x, y)) else acc)
  end.

Definition merge_rect (startX startY endX endY : Z) : TM unit :=
  startCell ← getCell startX startY;
  endCell ← getCell endX endY;
  match startCell, endCell with
  | Some a, Some b =>
      if bool_decide (g_part a = g_part b) then
        split;;
        buildGrid;;
        c ← getCell startX startY;
        c ← oget c;
        setSpanVal (g_elm c) ColSpan (Some (endX - startX + 1));;
        setSpanVal (g_elm c) RowSpan (Some (endY - startY + 1));;
        for_each (merge_cell (g_elm c)) (list_prod (range startY endY) (range startX endX));;
        cleanup
      else mret tt
  | _, _ => mret tt
  end.

(** [merge(cell, cols, rows)] *)
Definition merge_size (elm : nat) (cols rows : Z) : TM unit :=
  p ← getPos elm;
  p ← oget p;
  let x := Z.of_nat p.1 in let y := Z.of_nat p.2 in
  merge_rect x y (x + (cols - 1)) (y + (rows - 1)).

(** [merge()] of the selected cells. *)
Definition merge : TM unit :=
  g ← gets grid;
  r ← (λ s, Some (selected_range s (entries g) (None, None), s));
  modify (set_startPos r.1);;
  modify (set_endPos r.2);;
  a ← oget r.1;
  b ← oget r.2;
  merge_rect (Z.of_nat a.1) (Z.of_nat a.2) (Z.of_nat b.1) (Z.of_nat b.2).

(** ** Rows and columns *)
(** The first or last selected row, and its selected cell; when looking for the
    first one row 0 does not stop the search. *)
Fixpoint scan_row (s : st) (before : bool) (y : nat) (l : sparse gcell) (acc : option (nat * row)) : option (option (nat * row)) :=
  match l with
  | [] => Some acc
  | c :: l =>
      if is_selected s c then
        c ← c;
        r ← row_of (g_elm c) (tbl s);
        if before then Some (Some (y, r)) else scan_row s before y l (Some (y, r))
      else scan_row s before y l acc
  end.

Fixpoint scan_rows (s : st) (before : bool) (y : nat) (g : grid_t) (acc : option (nat * row)) : option (option (nat * row)) :=
  match g with
  | [] => Some acc
  | row :: g =>
      acc ← scan_row s before y (default [] row) acc;
      match acc with
      | Some (S _, _) => if before then Some acc else scan_rows s before (S y) g acc
      | _ => scan_rows s before (S y) g acc
      end
  end.

(** A clone as wide as the cell. *)
Definition new_row_cell (elm : nat) : TM nat :=
  n ← cloneCell elm;
  td ← the_cell elm;
  setSpanVal n ColSpan (Some (colSpan_of (c_colspan td)));;
  mret n.

(** The cells of a new row, from column [x] on; a cell that spans the place is made longer instead. *)
Fixpoint new_row_cells (before : bool) (posY : nat) (xs : list nat) (lastCell : option nat) (newRow : list nat) : TM (list nat) :=
  match xs with
  | [] => mret newRow
  | x :: xs =>
      g ← gets grid;
      row ← oget (get_at posY g);
      match get_at x row with
      | None => new_row_cells before posY xs lastCell newRow
      | Some c =>
          if decide (Some (g_elm c) = lastCell) then new_row_cells before posY xs lastCell newRow
          else
            other ← (if before then
                       match posY with
                       | O => mret None
                       | S above => row ← oget (get_at above g); mret (g_elm <$> get_at x row)
                       end
                     else mret (Some (g_elm c)));
            rowSpan ← (match other with
                       | Some o => td ← the_cell o; mret (getSpanVal td RowSpan)
                       | None => mret (Some 1)
                       end);
            match other with
            | Some o =>
                if gt rowSpan 1 then
                  setSpanVal o RowSpan (add rowSpan 1);;
                  new_row_cells before posY xs lastCell newRow
                else
                  n ← new_row_cell (g_elm c);
                  new_row_cells before posY xs (Some (g_elm c)) (newRow ++ [n])
            | None =>
                n ← new_row_cell (g_elm c);
                new_row_cells before posY xs (Some (g_elm c)) (newRow ++ [n])
            end
      end
  end.

Definition new_id : TM nat :=
  t ← gets tbl; modify (set_tbl (with_next (S (next_id t)) t));; mret (next_id t).

Definition insertRow (before : bool) : TM unit :=
  g ← gets grid;
  pos ← (λ s, (λ p, (p, s)) <$> scan_rows s before 0 g None);
  r0 ← oget (get_at 0 g);
  match pos with
  | None => throw
  | Some (posY, rowElm) =>
      newRow ← new_row_cells before posY (seq 0 (length r0)) None [];
      match newRow with
      | [] => mret tt
      | _ => id ← new_id; upd_tbl (put_row (negb before) (Row id (without_id (r_attrs rowElm)) newRow) (r_id rowElm))
      end
  end.

(** The first or last selected column. *)
Fixpoint scan_col (s : st) (before : bool) (x : nat) (row : sparse gcell) (acc : option nat) : option nat :=
  match row with
  | [] => acc
  | c :: row => if is_selected s c then (if before then Some x else scan_col s before (S x) row (Some x))
                else scan_col s before (S x) row acc
  end.

Fixpoint scan_cols (s : st) (before : bool) (g : grid_t) (acc : option nat) : option nat :=
  match g with
  | [] => acc
  | row :: g =>
      let acc := scan_col s before 0 (default [] row) acc in
      match acc with
      | Some (S _) => if before then acc else scan_cols s before g acc
      | _ => scan_cols s before g acc
      end
  end.

Fixpoint insert_in_rows (before : bool) (posX : nat) (y : nat) (g : grid_t) (lastCell : option nat) : TM unit :=
  match g with
  | [] => mret tt
  | row :: g =>
      row ← oget row;
      match get_at posX row with
      | None => insert_in_rows before posX (S y) g lastCell
      | Some c =>
          if decide (Some (g_elm c) = lastCell) then insert_in_rows before posX (S y) g lastCell
          else
            td ← the_cell (g_elm c);
            let colSpan := getSpanVal td ColSpan in
            let rowSpan := getSpanVal td RowSpan in
            (if decide (colSpan = Some 1) then
               insert_clone (negb before) (g_elm c);;
               fillLeftDown posX y (add rowSpan (-1)) colSpan
             else setSpanVal (g_elm c) ColSpan (Some (colSpan_of (c_colspan td) + 1)));;
            insert_in_rows before posX (S y) g (Some (g_elm c))
      end
  end.

(** Without a selected cell every row is left as it is. *)
Definition insertCol (before : bool) : TM unit :=
  g ← gets grid;
  posX ← (λ s, Some (scan_cols s before g None, s));
  match posX with
  | Some posX => insert_in_rows before posX 0 g None
  | None => for_each (λ row, oget row;; mret tt) g
  end.

(** Column [x] is taken out of a row. *)
Definition delete_in_row (x : nat) (row : option (sparse gcell)) : TM unit :=
  row ← oget row;
  c ← oget (get_at x row);
  td ← the_cell (g_elm c);
  let colSpan := getSpanVal td ColSpan in
  if gt colSpan 1 then setSpanVal (g_elm c) ColSpan (add colSpan (-1))
  else upd_tbl (remove_cell (g_elm c)).

Fixpoint delete_cols (l : list (nat * nat * option gcell)) (cols : list nat) : TM unit :=
  match l with
  | [] => mret tt
  | (_, x, c) :: l =>
      b ← isCellSelected c;
      if b && bool_decide (x ∉ cols) then
        g ← gets grid;
        for_each (delete_in_row x) g;;
        delete_cols l (cols ++ [x])
      else delete_cols l cols
  end.

Definition deleteCols : TM unit := g ← gets grid; delete_cols (entries g) [];; cleanup.

(** A cell that spans further down leaves a clone in the next row. *)
Definition move_down (c : nat) : TM unit :=
  td ← the_cell c;
  let rowSpan := getSpanVal td RowSpan in
  if gt rowSpan 1 then
    setSpanVal c RowSpan (add rowSpan (-1));;
    p ← getPos c;
    p ← oget p;
    fillLeftDown p.1 p.2 (Some 1) (Some 1)
  else mret tt.

Fixpoint delete_cells (row : sparse gcell) (lastCell : option nat) : TM unit :=
  match row with
  | [] => mret tt
  | c :: row =>
      c ← oget c;
      if decide (Some (g_elm c) = lastCell) then delete_cells row lastCell
      else
        td ← the_cell (g_elm c);
        let rowSpan := getSpanVal td RowSpan in
        (if le rowSpan 1 then upd_tbl (remove_cell (g_elm c))
         else setSpanVal (g_elm c) RowSpan (add rowSpan (-1)));;
        delete_cells row (Some (g_elm c))
  end.

(** The row as it is now. *)
Definition the_row (id : nat) : TM row := t ← gets tbl; oget (find_row id t).

Definition deleteRow (id : nat) : TM unit :=
  tr ← the_row id;
  for_each move_down (r_cells tr);;
  tr ← the_row id;
  c ← oget (head (r_cells tr));
  p ← getPos c;
  p ← oget p;
  g ← gets grid;
  row ← oget (get_at p.2 g);
  delete_cells row None.

Definition deleteRows : TM unit := rows ← getSelectedRows; for_each deleteRow (reverse rows);; cleanup.

Definition cutRows : TM (list nat) :=
  rows ← getSelectedRows;
  for_each (λ id, upd_tbl (remove_row id)) rows;;
  cleanup;;
  mret rows.

(** [cloneNode(row, true)] *)
Fixpoint copy_cells (l : list nat) : TM (list nat) :=
  match l with
  | [] => mret []
  | c :: l => td ← the_cell c; n ← new_cell td; rest ← copy_cells l; mret (n :: rest)
  end.

Definition copy_row (id : nat) : TM nat :=
  r ← the_row id;
  cs ← copy_cells (r_cells r);
  n ← new_id;
  upd_tbl (λ t, with_rows (sections t) (loose_rows t ++ [Row n (without_id (r_attrs r)) cs]) t);;
  mret n.

Fixpoint copy_rows (l : list nat) : TM (list nat) :=
  match l with
  | [] => mret []
  | id :: l => n ← copy_row id; rest ← copy_rows l; mret (n :: rest)
  end.

Definition copyRows : TM (list nat) := rows ← getSelectedRows; copy_rows rows.

(** The columns of the first row of the grid with a cell of the target row (of the last row if there is none). *)
Fixpoint row_count (t : table) (target : nat) (row : sparse gcell) (n : Z) (found : bool) : option (Z * bool) :=
  match row with
  | [] => Some (n, found)
  | c :: row =>
      c ← c;
      row_count t target row (if g_real c then n + default 0 (g_colspan c) else n)
        (found || bool_decide (r_id <$> row_of (g_elm c) t = Some target))
  end.

Fixpoint target_count (t : table) (target : nat) (g : grid_t) (n : Z) : option Z :=
  match g with
  | [] => Some n
  | row :: g =>
      '(n, found) ← row_count t target (default [] row) 0 false;
      if (found : bool) then Some n else target_count t target g n
  end.

Definition append_cell (id new : nat) : table -> table :=
  map_each (λ r, if Nat.eqb (r_id r) id then set_cells (r_cells r ++ [new]) r else r).

(** [row.appendChild(cloneCell(row.cells[k]))] *)
Definition add_clone (id : nat) (k : option nat) : TM unit :=
  r ← the_row id;
  c ← oget (k ≫= λ k, r_cells r !! k);
  new ← cloneCell c;
  upd_tbl (append_cell id new).

(** [row.cells.length - 1] *)
Definition last_index (n : nat) : option nat := match n with O => None | S n => Some n end.

(** [dom.remove(row.cells[i])] for rising [i]: the list gets shorter under the index. *)
Fixpoint drop_live (id : nat) (i n : nat) : TM unit :=
  match n with
  | O => mret tt
  | S n =>
      r ← the_row id;
      match r_cells r !! i with
      | Some c => upd_tbl (remove_cell c)
      | None => mret tt
      end;;
      drop_live id (S i) n
  end.

Definition paste_row (before : bool) (target : nat) (count : Z) (id : nat) : TM unit :=
  r ← the_row id;
  let n := Z.to_nat count in
  let cellCount := length (r_cells r) in
  for_each (λ c, setSpanVal c ColSpan (Some 1);; setSpanVal c RowSpan (Some 1)) (r_cells r);;
  times (n - cellCount) (add_clone id (last_index cellCount));;
  drop_live id n (cellCount - n);;
  r ← the_row id;
  upd_tbl (put_row (negb before) r target).

(** [dom.removeClass] of all cells of the document. *)
Definition clear_selection (t : table) : table :=
  with_cells (fold_right (alter (set_selected false)) (cells t) (concat (r_cells <$> all_rows t))) t.

Definition pasteRows (rows : option (list nat)) (before : bool) : TM unit :=
  sel ← getSelectedRows;
  id ← oget (if before then head sel else last sel);
  targetRow ← the_row id;
  match rows with
  | None => mret tt
  | Some rows =>
      t ← gets tbl;
      g ← gets grid;
      n ← oget (target_count t id g (Z.of_nat (length (r_cells targetRow))));
      for_each (paste_row before id n) (if before then rows else reverse rows);;
      upd_tbl clear_selection
  end.

(** ** The selection *)
Definition setStartCell (c : nat) : TM unit := p ← getPos c; modify (set_startPos p).

(** Growing [(x, y)] to the far end of a real cell. *)
Definition grow (x y : Z) (c : gcell) (m : Z * Z) : Z * Z :=
  if g_real c then
    let colSpan := default 0 (g_colspan c) - 1 in
    let rowSpan := default 0 (g_rowspan c) - 1 in
    (if x + colSpan >? m.1 then x + colSpan else m.1, if y + rowSpan >? m.2 then y + rowSpan else m.2)
  else m.

Fixpoint findEndPos_from (s : st) (l : list (nat * nat * option gcell)) (m : Z * Z) : Z * Z :=
  match l with
  | [] => m
  | (y, x, c) :: l =>
      findEndPos_from s l
        (match c with
         | Some c' =>
             if is_selected s c then
               let x := Z.of_nat x in let y := Z.of_nat y in
               grow x y c' (if x >? m.1 then x else m.1, if y >? m.2 then y else m.2)
             else m
         | None => m
         end)
  end.

Definition findEndPos (s : st) : Z * Z := findEndPos_from s (entries (grid s)) (0, 0).

Definition slot (x y : Z) : TM gcell := c ← getCell x y; oget c.

(** The corner moves left and up over the cells that begin before it. *)
Fixpoint expand_x (ys : list nat) (startX : Z) : TM Z :=
  match ys with
  | [] => mret startX
  | y :: ys =>
      c ← slot startX (Z.of_nat y);
      expand_x ys (if g_real c then startX
                   else let k := default 0 (g_colspan c) - 1 in if startX - k <? startX then startX - k else startX)
  end.

Fixpoint expand_y (xs : list Z) (startY : Z) : TM Z :=
  match xs with
  | [] => mret startY
  | x :: xs =>
      c ← slot x startY;
      expand_y xs (if g_real c then startY
                   else let k := default 0 (g_rowspan c) - 1 in if startY - k <? startY then startY - k else startY)
  end.

(** The integers from [a] to [b]. *)
Definition zrange (a b : Z) : list Z := (λ i, a + Z.of_nat i) <$> seq 0 (Z.to_nat (b - a + 1)).

Fixpoint far_end (l : list (Z * Z)) (m : Z * Z) : TM (Z * Z) :=
  match l with
  | [] => mret m
  | (y, x) :: l => c ← slot x y; far_end l (grow x y c m)
  end.

Definition select_slot (p : Z * Z) : TM unit :=
  g ← gets grid;
  row ← oget (if p.1 <? 0 then None else get_at (Z.to_nat p.1) g);
  match (if p.2 <? 0 then None else get_at (Z.to_nat p.2) row) with
  | Some c => upd_cell (g_elm c) (set_selected true)
  | None => mret tt
  end.

Definition setEndCell (cell : nat) : TM unit :=
  p ← getPos cell;
  modify (set_endPos p);;
  a ← gets startPos;
  match a, p with
  | Some a, Some b =>
      let startX := Z.of_nat (Nat.min a.1 b.1) in let startY := Z.of_nat (Nat.min a.2 b.2) in
      let endX := Z.of_nat (Nat.max a.1 b.1) in let endY := Z.of_nat (Nat.max a.2 b.2) in
      startX ← expand_x (range startY endY) startX;
      startY ← expand_y (zrange startX endX) startY;
      m ← far_end (list_prod (zrange startY endY) (zrange startX endX)) (endX, endY);
      upd_tbl clear_selection;;
      for_each select_slot (list_prod (zrange startY m.2) (zrange startX m.1))
  | _, _ => mret tt
  end.

(** The constructor, with the cell the caret is in. *)
Definition new_TableGrid (t : table) (sel : option nat) : option st :=
  '(_, s) ← buildGrid (St t false [] 0 None None None CaretNone);
  match sel with
  | None => Some s
  | Some elm =>
      '(p, s) ← getPos elm s;
      p ← p;
      let e := findEndPos s in
      let s := set_endPos (Some (Z.to_nat e.1, Z.to_nat e.2)) (set_startPos (Some p) s) in
      Some (set_selectedCell (at_ p.2 p.1 (grid s)) s)
  end.
End Clone.
