(* ===== verification/TableFacts.v ===== *)
(** * The grid shows the table

    A layout gives each cell of a table its place and its spans.  [build] finds the
    places from the rows and the spans alone: the grid it builds shows at every slot the cell whose rectangle covers
    it, so that positions can be looked up in it. *)

From S2P Require Import Prelude Tools TableGrid.

Lemma elem_of_concat {A} (x : A) ls : x ∈ concat ls ↔ ∃ l, x ∈ l ∧ l ∈ ls.
Proof.
  rewrite list_elem_of_In, in_concat. split; intros (l & H1 & H2); exists l; by rewrite !list_elem_of_In in *.
Qed.

(** ** Arrays with holes *)
Lemma get_set_at {A} i j (v : A) a : get_at i (set_at j v a) = if decide (i = j) then Some v else get_at i a.
Proof.
  revert j a. induction i as [|i IH]; intros [|j] [|x a]; try done.
  - cbn [set_at]. unfold get_at in *. cbn. rewrite IH. unfold get_at. destruct (decide (i = j)), (decide (S i = S j)); try lia; try done.
  - cbn [set_at]. unfold get_at in *. cbn. rewrite IH. unfold get_at. destruct (decide (i = j)), (decide (S i = S j)); try lia; try done.
Qed.

Lemma get_at_nil {A} i : get_at i ([] : sparse A) = None.
Proof. done. Qed.

Lemma get_at_fill {A} (f : nat -> A) n : ∀ x row x',
  get_at x' (fold_left (λ row x2, set_at x2 (f x2) row) (seq x n) row)
    = if decide (x ≤ x' < x + n)%nat then Some (f x') else get_at x' row.
Proof.
  induction n as [|n IH]; intros x row x'; cbn [seq fold_left].
  - by rewrite decide_False by lia.
  - rewrite IH, get_set_at. repeat case_decide; try lia; by subst.
Qed.

Lemma leading_le {A} (a : sparse A) k : (∀ i, (i < k)%nat → is_Some (get_at i a)) → get_at k a = None → leading a = k.
Proof.
  revert k. induction a as [|o a IH]; intros [|k] Hs Hn.
  - done.
  - destruct (Hs 0%nat); [lia|done].
  - by destruct o.
  - destruct o as [x|]; [|destruct (Hs 0%nat) as [? Hx]; [lia|done]]. cbn. f_equal. apply IH; [|done].
    intros i Hi. apply (Hs (S i)). lia.
Qed.

Lemma get_at_drop {A} (a : sparse A) k i : get_at i (drop k a) = get_at (k + i) a.
Proof. unfold get_at. by rewrite lookup_drop. Qed.

Lemma free_from_ok (row : sparse gcell) i x : (i ≤ x)%nat → (∀ j, (i ≤ j < x)%nat → is_Some (get_at j row)) →
  get_at x row = None → free_from i row = x.
Proof.
  intros Hi Hs Hn. unfold free_from. rewrite (leading_le _ (x - i)); [lia| |].
  - intros j Hj. rewrite get_at_drop. apply Hs. lia.
  - rewrite get_at_drop. by replace (i + (x - i))%nat with x by lia.
Qed.

Lemma at_row y x g : at_ y x g = get_at x (row_at y g).
Proof. unfold at_, row_at. by destruct (get_at y g). Qed.

Section Place.
Context (gen_ : nat) (p : part).

Lemma row_at_set y' y r (g : grid_t) : row_at y' (set_at y r g) = if decide (y' = y) then r else row_at y' g.
Proof. unfold row_at. rewrite get_set_at. by case_decide. Qed.

(** Placing a cell fills its rectangle and nothing else. *)
Lemma at_place y x elm rowspan colspan y' x' : ∀ g,
  at_ y' x' (place gen_ p y x elm rowspan colspan g) =
    if decide ((y ≤ y' < y + rounds rowspan)%nat ∧ (x ≤ x' < x + rounds colspan)%nat)
    then Some (GCell (gen_, y', x') p (Nat.eqb y' y && Nat.eqb x' x) elm rowspan colspan)
    else at_ y' x' g.
Proof.
  unfold place. set (f := λ g y2, set_at y2 _ g).
  assert (∀ n y0 g, at_ y' x' (fold_left f (seq y0 n) g) =
    if decide ((y0 ≤ y' < y0 + n)%nat ∧ (x ≤ x' < x + rounds colspan)%nat)
    then Some (GCell (gen_, y', x') p (Nat.eqb y' y && Nat.eqb x' x) elm rowspan colspan) else at_ y' x' g) as H; [|apply H].
  induction n as [|n IH]; intros y0 g; cbn [seq fold_left].
  - by rewrite decide_False by lia.
  - rewrite IH. subst f. cbn beta. rewrite (at_row _ _ (set_at _ _ _)), row_at_set, (at_row _ _ g).
    destruct (decide (y' = y0)) as [->|]; [unfold fill_row; rewrite get_at_fill|]; repeat case_decide; try lia; done.
Qed.
End Place.

(** ** Layouts *)
Section Layout.
Context (cs : gmap nat cell) (rows : list (part * list nat)) (cy cx : nat -> nat).

Definition spans (c : nat) (name : span) : num := match cs !! c with Some td => getSpanVal td name | None => None end.

(** The rectangle of a cell. *)
Definition covers (c y x : nat) : Prop :=
  (cy c ≤ y < cy c + rounds (spans c RowSpan))%nat ∧ (cx c ≤ x < cx c + rounds (spans c ColSpan))%nat.

#[export] Instance covers_dec c y x : Decision (covers c y x).
Proof. unfold covers. apply _. Defined.

Definition placed (c : nat) : Prop := ∃ y p l, rows !! y = Some (p, l) ∧ c ∈ l.

(** The rectangles start in the row of their cell, from left to right; they
    are not empty, do not overlap, and leave no hole on the left of a cell. *)
Record layout : Prop := Layout {
  l_row : ∀ y p l c, rows !! y = Some (p, l) → c ∈ l → cy c = y ∧ is_Some (cs !! c);
  l_sorted : ∀ y p l i j a b, rows !! y = Some (p, l) → (i < j)%nat → l !! i = Some a → l !! j = Some b → (cx a < cx b)%nat;
  l_spans : ∀ c, placed c → (0 < rounds (spans c RowSpan))%nat ∧ (0 < rounds (spans c ColSpan))%nat;
  l_disjoint : ∀ c d y x, placed c → placed d → covers c y x → covers d y x → c = d;
  l_left : ∀ c x, placed c → (x < cx c)%nat → ∃ d, placed d ∧ covers d (cy c) x
}.

Definition part_of (c : nat) : part := default Tbody (fst <$> rows !! cy c).

(** What the grid holds at a slot the cell covers. *)
Definition slot_of (gen_ : nat) (c y x : nat) : gcell :=
  GCell (gen_, y, x) (part_of c) (Nat.eqb y (cy c) && Nat.eqb x (cx c)) c (spans c RowSpan) (spans c ColSpan).

(** The grid shows the cells of [P]. *)
Definition shows (gen_ : nat) (P : nat -> Prop) (g : grid_t) : Prop :=
  ∀ y x, (∀ c, P c → covers c y x → at_ y x g = Some (slot_of gen_ c y x))
       ∧ ((∀ c, P c → ¬ covers c y x) → at_ y x g = None).

(** The cells that are placed before those of row [y] behind [l]. *)
Definition before (y : nat) (l : list nat) (c : nat) : Prop :=
  (∃ y' p' l', (y' < y)%nat ∧ rows !! y' = Some (p', l') ∧ c ∈ l') ∨ c ∈ l.

Context (Hl : layout) (gen_ : nat).

Lemma covers_self c : placed c → covers c (cy c) (cx c).
Proof using Hl. intros [? ?]%(l_spans Hl). unfold covers. lia. Qed.

Lemma shows_ext P Q g : (∀ c, P c ↔ Q c) → shows gen_ P g → shows gen_ Q g.
Proof using Type.
  intros E H y x. destruct (H y x) as [H1 H2]. split.
  - intros c Hc. apply H1. by apply E.
  - intros Hn. apply H2. intros c Hc. by apply Hn, E.
Qed.

Section Row.
Context (y : nat) (p : part) (l1 : list nat) (c : nat) (l2 : list nat).
Context (Hy : rows !! y = Some (p, l1 ++ c :: l2)).

Lemma row_placed d : d ∈ l1 ++ c :: l2 → placed d ∧ cy d = y.
Proof using Hl Hy. intros Hd. split; [by exists y, p, (l1 ++ c :: l2)|]. by eapply (l_row Hl). Qed.

Lemma row_here : placed c ∧ cy c = y.
Proof using Hl Hy. apply row_placed. set_solver. Qed.

Lemma row_left d : d ∈ l1 → (cx d < cx c)%nat.
Proof using Hl Hy.
  intros [i Hi]%list_elem_of_lookup. eapply (l_sorted Hl y p _ i (length l1)); [done| | |].
  - by apply lookup_lt_Some in Hi.
  - by rewrite lookup_app_l by (by eapply lookup_lt_Some).
  - by rewrite list_lookup_middle.
Qed.

Lemma row_not_before : ¬ before y l1 c.
Proof using Hl Hy.
  intros [(y' & p' & l' & Hlt & Hy' & Hc)|Hc].
  - destruct (l_row Hl y' p' l' c Hy' Hc) as [E _]. destruct row_here as [_ E']. lia.
  - apply row_left in Hc. lia.
Qed.

Lemma before_placed d : before y l1 d → placed d.
Proof using Hl Hy.
  intros [(y' & p' & l' & _ & Hy' & Hc)|Hc]; [by exists y', p', l'|]. apply row_placed. set_solver.
Qed.

(** Every column left of the cell is filled by a cell that came before. *)
Lemma row_filled x : (x < cx c)%nat → ∃ d, before y l1 d ∧ covers d y x.
Proof using Hl Hy.
  intros Hx. destruct row_here as [Hc Ey]. destruct (l_left Hl c x Hc Hx) as (d & Hd & Hcov). rewrite Ey in Hcov.
  exists d. split; [|done]. destruct Hd as (y' & p' & l' & Hy' & Hd).
  destruct (l_row Hl y' p' l' d Hy' Hd) as [Ed _]. destruct (decide (y' = y)) as [->|]; cycle 1.
  { left. exists y', p', l'. split_and!; try done. destruct Hcov as [[? ?] _]. lia. }
  right. rewrite Hy in Hy'. injection Hy' as <- <-. apply elem_of_app in Hd as [|Hd]; [done|].
  destruct Hcov as [_ [? ?]]. apply elem_of_cons in Hd as [->|Hd]; [lia|].
  apply list_elem_of_lookup in Hd as [j Hj].
  assert (cx c < cx d)%nat; [|lia]. eapply (l_sorted Hl y p _ (length l1) (S (length l1) + j)); [done|lia| |].
  - by rewrite list_lookup_middle.
  - rewrite lookup_app_r by lia. by replace (S (length l1) + j - length l1)%nat with (S j) by lia.
Qed.

Lemma row_index : (length l1 ≤ cx c)%nat.
Proof using Hl Hy.
  assert (∀ i d, (l1 ++ c :: l2) !! i = Some d → (i ≤ cx d)%nat) as H.
  { induction i as [|i IH]; intros d Hd; [lia|].
    destruct (lookup_lt_is_Some_2 (l1 ++ c :: l2) i) as [e He]; [apply lookup_lt_Some in Hd; lia|].
    specialize (IH e He). pose proof (l_sorted Hl y p _ i (S i) e d Hy ltac:(lia) He Hd). lia. }
  apply H. by rewrite list_lookup_middle.
Qed.

(** The search for a free column ends at the place of the cell. *)
Lemma row_free g : shows gen_ (before y l1) g → free_from (length l1) (row_at y g) = cx c.
Proof using Hl Hy.
  intros Hg. apply free_from_ok; [apply row_index| |].
  - intros j Hj. destruct (row_filled j) as (d & Hd & Hcov); [lia|]. rewrite <- at_row.
    destruct (Hg y j) as [Hs _]. rewrite (Hs d Hd Hcov). by eexists.
  - rewrite <- at_row. apply Hg. intros d Hd Hcov. destruct row_here as [Hc Ey].
    apply row_not_before. rewrite <- (l_disjoint Hl d c y (cx c)); [done|by apply before_placed|done|done|].
    rewrite <- Ey. by apply covers_self.
Qed.

Lemma row_step g : shows gen_ (before y l1) g →
  shows gen_ (before y (l1 ++ [c])) (place gen_ p y (cx c) c (spans c RowSpan) (spans c ColSpan) g).
Proof using Hl Hy.
  intros Hg y' x'. destruct row_here as [Hc Ey]. rewrite at_place. destruct (Hg y' x') as [Hs Hn].
  assert (∀ d, before y (l1 ++ [c]) d ↔ before y l1 d ∨ d = c) as Hb.
  { intros d. unfold before. rewrite elem_of_app, list_elem_of_singleton. tauto. }
  case_decide as Hin.
  - assert (covers c y' x') as Hcov by (unfold covers; rewrite Ey; exact Hin). split.
    + intros d Hd Hcd. assert (d = c) as ->.
      { apply Hb in Hd as [Hd|Hd]; [|done]. apply (l_disjoint Hl d c y' x'); [by apply before_placed|done..]. }
      unfold slot_of, part_of. by rewrite Ey, Hy.
    + intros Hno. exfalso. apply (Hno c); [apply Hb; by right|done].
  - assert (¬ covers c y' x') as Hcov by (unfold covers; rewrite Ey; exact Hin). split.
    + intros d [Hd| ->]%Hb Hcd; [by apply Hs|done].
    + intros Hno. apply Hn. intros d Hd. apply Hno, Hb. by left.
Qed.
End Row.

Lemma build_row_shows y p l2 : ∀ l1 g, rows !! y = Some (p, l1 ++ l2) → shows gen_ (before y l1) g →
  ∃ g', build_row gen_ cs p y (length l1) l2 g = Some g' ∧ shows gen_ (before y (l1 ++ l2)) g'.
Proof using Hl.
  induction l2 as [|c l2 IH]; intros l1 g Hy Hg.
  - exists g. by rewrite app_nil_r.
  - cbn [build_row]. destruct (l_row Hl y p _ c Hy) as [_ [td Htd]]; [set_solver|]. rewrite Htd. cbn [mbind option_bind].
    rewrite (row_free y p l1 c l2 Hy g Hg).
    destruct (IH (l1 ++ [c]) (place gen_ p y (cx c) c (getSpanVal td RowSpan) (getSpanVal td ColSpan) g)) as (g' & E & Hg').
    + by rewrite <- app_assoc.
    + pose proof (row_step y p l1 c l2 Hy g Hg) as Hs. unfold spans in Hs. by rewrite Htd in Hs.
    + exists g'. rewrite length_app in E. cbn in E. rewrite Nat.add_1_r in E. by rewrite <- app_assoc in Hg'.
Qed.

Lemma build_rows_shows p rs : ∀ y g, (∀ i r, rs !! i = Some r → rows !! (y + i)%nat = Some (p, r_cells r)) →
  shows gen_ (before y []) g →
  ∃ g', build_rows gen_ cs p y rs g = Some g' ∧ shows gen_ (before (y + length rs) []) g'.
Proof using Hl.
  induction rs as [|r rs IH]; intros y g Hrs Hg.
  - exists g. by rewrite Nat.add_0_r.
  - cbn [build_rows]. pose proof (Hrs 0%nat r eq_refl) as Hy. rewrite Nat.add_0_r in Hy.
    destruct (build_row_shows y p (r_cells r) [] g Hy Hg) as (g1 & E1 & Hg1). cbn in E1. rewrite E1. cbn [mbind option_bind].
    destruct (IH (S y) g1) as (g2 & E2 & Hg2).
    + intros i r' Hi. rewrite Nat.add_succ_l, <- Nat.add_succ_r. by apply (Hrs (S i)).
    + eapply shows_ext; [|exact Hg1]. intros c. unfold before. split.
      * intros [(y' & p' & l' & Hlt & Hy' & Hc)|Hc]; left; [exists y', p', l'; split_and!; [lia|done..]|].
        exists y, p, (r_cells r). split_and!; [lia|done..].
      * intros [(y' & p' & l' & Hlt & Hy' & Hc)|Hc]; [|by apply elem_of_nil in Hc].
        destruct (decide (y' = y)) as [->|]; [right|left; exists y', p', l'; split_and!; [lia|done..]].
        rewrite Hy in Hy'. by injection Hy' as _ <-.
    + exists g2. split; [done|]. by replace (y + length (r :: rs))%nat with (S y + length rs)%nat by (cbn; lia).
Qed.
End Layout.

(** The rows of a table with their parts, in the order of the grid. *)
Definition table_layout (t : table) : list (part * list nat) :=
  ((λ r, (Thead, r_cells r)) <$> rows_of Thead t) ++ ((λ r, (Tbody, r_cells r)) <$> rows_of Tbody t)
  ++ ((λ r, (Tfoot, r_cells r)) <$> rows_of Tfoot t).

Lemma build_shows_all (t : table) (gen_ : nat) (cy cx : nat -> nat) : layout (cells t) (table_layout t) cy cx →
  ∃ g, build gen_ t = Some g ∧ ∀ y x,
    (∀ c, placed (table_layout t) c → covers (cells t) cy cx c y x →
       at_ y x g = Some (slot_of (cells t) (table_layout t) cy cx gen_ c y x))
    ∧ ((∀ c, placed (table_layout t) c → ¬ covers (cells t) cy cx c y x) → at_ y x g = None).
Proof.
  intros Hl. unfold build. set (rows := table_layout t) in *.
  assert (∀ p y rs, (∀ i, (i < length rs)%nat → rows !! (y + i)%nat = ((λ r, (p, r_cells r)) <$> rs) !! i) →
    ∀ i r, rs !! i = Some r → rows !! (y + i)%nat = Some (p, r_cells r)) as Hrs.
  { intros p y rs H i r Hi. rewrite H by (by eapply lookup_lt_Some). by rewrite list_lookup_fmap, Hi. }
  destruct (build_rows_shows (cells t) rows cy cx Hl gen_ Thead (rows_of Thead t) 0 []) as (g1 & E1 & H1).
  { apply Hrs. intros i Hi. unfold rows, table_layout. by rewrite Nat.add_0_l, lookup_app_l by (by rewrite length_fmap). }
  { intros y x. split; [|done]. intros c [(y' & p & l & ? & _)|Hc%elem_of_nil]; [lia|done]. }
  rewrite E1. cbn [mbind option_bind].
  destruct (build_rows_shows (cells t) rows cy cx Hl gen_ Tbody (rows_of Tbody t) (length (rows_of Thead t)) g1) as (g2 & E2 & H2).
  { apply Hrs. intros i Hi. unfold rows, table_layout. rewrite lookup_app_r by (rewrite length_fmap; lia).
    rewrite length_fmap, lookup_app_l by (rewrite length_fmap; lia). f_equal. lia. }
  { done. }
  rewrite E2. cbn [mbind option_bind].
  destruct (build_rows_shows (cells t) rows cy cx Hl gen_ Tfoot (rows_of Tfoot t) (length (rows_of Thead t) + length (rows_of Tbody t)) g2) as (g3 & E3 & H3).
  { apply Hrs. intros i Hi. unfold rows, table_layout. rewrite !lookup_app_r by (rewrite !length_fmap; lia).
    rewrite !length_fmap. f_equal. lia. }
  { done. }
  exists g3. split; [done|]. assert (shows (cells t) rows cy cx gen_ (placed rows) g3) as Hg; [|exact Hg].
  eapply shows_ext; [|exact H3]. intros c. unfold before, placed. split.
  - intros [(y' & p & l & _ & ? & ?)|Hc%elem_of_nil]; [by exists y', p, l|done].
  - intros (y & p & l & Hy & Hc). left. exists y, p, l. split_and!; [|done..]. apply lookup_lt_Some in Hy.
    unfold rows, table_layout in Hy. rewrite !length_app, !length_fmap in Hy. lia.
Qed.

(** ** Looking positions up *)
(** An array that ends with an entry. *)
Definition tight {A} (a : sparse A) : Prop := last a ≠ Some None.
Definition tight_rows (g : grid_t) : Prop := ∀ y row, get_at y g = Some row → tight row.

Lemma last_cons_ne {A} (x : A) l : l ≠ [] → last (x :: l) = last l.
Proof. by destruct l. Qed.

Lemma set_at_nil {A} j (v : A) a : set_at j v a ≠ [].
Proof. by destruct j, a. Qed.

Lemma set_at_tight {A} j (v : A) a : tight a → tight (set_at j v a).
Proof.
  revert a. unfold tight. induction j as [|j IH]; intros [|x a] Ha; cbn [set_at].
  - done.
  - destruct a; [done|exact Ha].
  - rewrite last_cons_ne by apply set_at_nil. by apply IH.
  - rewrite last_cons_ne by apply set_at_nil. apply IH. destruct a; [done|exact Ha].
Qed.

Lemma place_tight gen_ p y x elm rs cs g : tight_rows g → tight_rows (place gen_ p y x elm rs cs g).
Proof.
  unfold place. generalize (seq y (rounds rs)). intros l. revert g. induction l as [|y2 l IH]; intros g Hg; [done|].
  apply IH. intros y' row. rewrite get_set_at. case_decide; [|apply Hg]. intros [= <-]. subst y'.
  assert (tight (row_at y2 g)) as Ht.
  { unfold row_at. destruct (get_at y2 g) eqn:E; [by eapply Hg|done]. }
  unfold fill_row. revert Ht. generalize (row_at y2 g). induction (seq x (rounds cs)) as [|x2 xs IHx]; intros r Hr; [done|].
  by apply IHx, set_at_tight.
Qed.

Lemma build_row_tight gen_ cs p y l : ∀ x g g', build_row gen_ cs p y x l g = Some g' → tight_rows g → tight_rows g'.
Proof.
  induction l as [|c l IH]; intros x g g'; cbn [build_row]; [by intros [= <-]|].
  destruct (cs !! c) as [td|]; [|done]. cbn. intros E Hg. eapply IH; [exact E|]. by apply place_tight.
Qed.

Lemma build_rows_tight gen_ cs p rs : ∀ y g g', build_rows gen_ cs p y rs g = Some g' → tight_rows g → tight_rows g'.
Proof.
  induction rs as [|r rs IH]; intros y g g'; cbn [build_rows]; [by intros [= <-]|].
  destruct (build_row gen_ cs p y 0 (r_cells r) g) as [g1|] eqn:E1; [|done]. cbn. intros E Hg.
  eapply IH; [exact E|]. by eapply build_row_tight.
Qed.

Lemma build_tight gen_ t g : build gen_ t = Some g → tight_rows g.
Proof.
  unfold build. destruct (build_rows _ _ Thead _ _ _) as [g1|] eqn:E1; [|done]. cbn.
  destruct (build_rows _ _ Tbody _ _ _) as [g2|] eqn:E2; [|done]. cbn. intros E3.
  eapply build_rows_tight; [exact E3|]. eapply build_rows_tight; [exact E2|]. eapply build_rows_tight; [exact E1|].
  by intros y row.
Qed.

(** The entries of the grid in front of one. *)
Lemma imap_split {A B} (f : nat -> A -> B) l i x : l !! i = Some x →
  ∃ l1 l2, imap f l = l1 ++ f i x :: l2 ∧ l1 = imap f (take i l).
Proof.
  intros Hi. pose proof (imap_app f (take i l) (x :: drop (S i) l)) as E. rewrite take_drop_middle in E by done. cbn in E.
  assert (length (take i l) = i) as Hlen by (rewrite length_take; apply lookup_lt_Some in Hi; lia).
  rewrite Hlen, Nat.add_0_r in E. by eexists _, _.
Qed.

Lemma entries_split g y x row o : g !! y = Some (Some row) → row !! x = Some o →
  ∃ l1 l2, entries g = l1 ++ (y, x, o) :: l2 ∧
    ∀ y' x' o', (y', x', o') ∈ l1 → (y' < y ∨ y' = y ∧ x' < x)%nat ∧ o' = at_ y' x' g
      ∧ ∃ row', get_at y' g = Some row' ∧ row' !! x' = Some o'.
Proof.
  intros Hy Hx. unfold entries.
  destruct (imap_split (λ y row, imap (λ x c, (y, x, c)) (default [] row)) g y (Some row) Hy) as (G1 & G2 & -> & ->).
  destruct (imap_split (λ x c, (y, x, c)) (default [] (Some row)) x o Hx) as (R1 & R2 & E & ->).
  rewrite concat_app. cbn [concat]. cbv beta. rewrite E.
  eexists (concat _ ++ imap _ (take x (default [] (Some row)))), _. split; [by rewrite <- !app_assoc|].
  cbn [default from_option].
  intros y' x' o' [Hin|Hin]%elem_of_app.
  - apply elem_of_concat in Hin as (l & Hin & (y2 & r2 & -> & Hr2)%elem_of_lookup_imap_1).
    apply elem_of_lookup_imap_1 in Hin as (x2 & o2 & [= -> -> ->] & Ho2).
    apply lookup_take_Some in Hr2 as [Hr2 Hlt]. destruct r2 as [r2|]; [|done]. cbn in Ho2.
    assert (get_at y2 g = Some r2) as Hg by (unfold get_at; by rewrite Hr2).
    split_and!; [by left|unfold at_; by rewrite Hg; cbn; unfold get_at; rewrite Ho2|by exists r2].
  - apply elem_of_lookup_imap_1 in Hin as (x2 & o2 & [= -> -> ->] & Ho2).
    apply lookup_take_Some in Ho2 as [Ho2 Hlt]. change (row !! x2 = Some o2) in Ho2. assert (get_at y g = Some row) as Hg by (unfold get_at; by rewrite Hy).
    split_and!; [by right|unfold at_; by rewrite Hg; cbn; unfold get_at; rewrite Ho2|by exists row].
Qed.

Lemma find_pos_skip elm l1 l2 : (∀ e, e ∈ l1 → ∃ k, e.2 = Some k ∧ g_elm k ≠ elm) →
  find_pos elm (l1 ++ l2) = find_pos elm l2.
Proof.
  induction l1 as [|[[y x] c] l1 IH]; intros H; [done|]. cbn [app find_pos].
  destruct (H (y, x, c)) as (k & E & Hk); [by left|]. cbn in E. subst c. cbn [mbind option_bind].
  rewrite (proj2 (Nat.eqb_neq _ _) Hk). apply IH. intros e He. apply H. by right.
Qed.

(** An entry of a row of the grid in front of a filled slot of that row. *)
Lemma filled_row g y x c : tight_rows g → at_ y x g = Some c → ∃ row, g !! y = Some (Some row) ∧ row !! x = Some (Some c).
Proof.
  intros Ht Hc. unfold at_ in Hc. destruct (get_at y g) as [row|] eqn:Ey; [|done]. exists row.
  unfold get_at in *. cbn in Hc. split; [by destruct (g !! y) as [[]|]; simplify_eq/=|].
  by destruct (row !! x) as [[]|]; simplify_eq/=.
Qed.

(** A row that ends with an entry and has no hole before an entry has no hole. *)
Lemma no_hole (row : sparse gcell) x o : tight row → (∀ i j, (j < i)%nat → is_Some (get_at i row) → is_Some (get_at j row)) →
  row !! x = Some o → is_Some o.
Proof.
  intros Ht Hrow Hx. pose proof (lookup_lt_Some _ _ _ Hx) as Hlt.
  assert (is_Some (get_at x row)) as Hs; [|unfold get_at in Hs; by rewrite Hx in Hs].
  destruct (decide (x = length row - 1)%nat) as [->|].
  - unfold tight in Ht. rewrite last_lookup in Ht. unfold get_at.
    replace (length row - 1)%nat with (pred (length row)) in * by lia. rewrite Hx in *. by destruct o.
  - apply (Hrow (length row - 1)%nat); [lia|]. unfold tight in Ht. rewrite last_lookup in Ht. unfold get_at.
    replace (length row - 1)%nat with (pred (length row)) by lia.
    destruct (lookup_lt_is_Some_2 row (pred (length row))) as [[v|] Hv]; [lia|by rewrite Hv|by rewrite Hv in Ht].
Qed.

(** The cells of a table fit together and its rows have no holes. *)
Definition no_holes (t : table) (cy cx : nat -> nat) : Prop :=
  ∀ d y x x', placed (table_layout t) d → covers (cells t) cy cx d y x → (x' < x)%nat →
    ∃ e, placed (table_layout t) e ∧ covers (cells t) cy cx e y x'.

Section Lookup.
Context (t : table) (gen_ : nat) (cy cx : nat -> nat) (g : grid_t).
Context (Hg : shows (cells t) (table_layout t) cy cx gen_ (placed (table_layout t)) g) (Ht : tight_rows g).

Lemma shown y x k : at_ y x g = Some k →
  ∃ d, placed (table_layout t) d ∧ covers (cells t) cy cx d y x ∧ g_elm k = d.
Proof using Hg.
  intros Hk. destruct (Hg y x) as [Hs Hn].
  destruct (decide (Exists (λ d, covers (cells t) cy cx d y x) (concat (snd <$> table_layout t)))) as [He|He].
  - apply Exists_exists in He as (d & Hin & Hcov). exists d.
    assert (placed (table_layout t) d) as Hd.
    { apply elem_of_concat in Hin as (l & Hd & ([p l'] & -> & Hp)%list_elem_of_fmap).
      apply list_elem_of_lookup in Hp as [y' Hy']. by exists y', p, l'. }
    split_and!; [done|done|]. specialize (Hs d Hd Hcov). rewrite Hk in Hs. by injection Hs as ->.
  - rewrite Hn in Hk; [done|]. intros d (y' & p & l & Hy & Hd) Hcov. apply He, Exists_exists. exists d.
    split; [|done]. apply elem_of_concat. exists l. split; [done|].
    apply list_elem_of_fmap. exists (p, l). split; [done|]. by eapply list_elem_of_lookup_2.
Qed.

Lemma entry_filled y x o row : no_holes t cy cx → get_at y g = Some row → row !! x = Some o → is_Some o.
Proof using Hg Ht.
  intros Hno Hy. apply no_hole; [by eapply Ht|]. intros i j Hij [k Hk].
  assert (at_ y i g = Some k) as Hi by (unfold at_; by rewrite Hy).
  apply shown in Hi as (d & Hd & Hcov & _). destruct (Hno d y i j Hd Hcov Hij) as (e & He & Hcov').
  destruct (Hg y j) as [Hs _]. specialize (Hs e He Hcov'). unfold at_ in Hs. rewrite Hy in Hs. cbn in Hs. rewrite Hs. by eexists.
Qed.

Lemma find_pos_shown c : layout (cells t) (table_layout t) cy cx → no_holes t cy cx → placed (table_layout t) c →
  find_pos c (entries g) = Some (Some (cx c, cy c)).
Proof using Hg Ht.
  intros Hl Hno Hc. pose proof (covers_self _ _ _ _ Hl c Hc) as Hcov.
  destruct (Hg (cy c) (cx c)) as [Hs _]. specialize (Hs c Hc Hcov).
  destruct (filled_row g (cy c) (cx c) _ Ht Hs) as (row & Hy & Hx).
  destruct (entries_split g (cy c) (cx c) row _ Hy Hx) as (l1 & l2 & -> & Hl1). rewrite find_pos_skip.
  - cbn. by rewrite Nat.eqb_refl.
  - intros [[y' x'] o] Hin. destruct (Hl1 y' x' o Hin) as (Hlt & -> & row' & Hy' & Hx'). cbn [snd].
    destruct (entry_filled y' x' _ row' Hno Hy' Hx') as [k Hk]. exists k. split; [done|]. intros Ek.
    destruct (shown y' x' k Hk) as (d & Hd & Hcd & Ed). rewrite Ek in Ed. subst d. destruct Hcd as [[? ?] [? ?]]. lia.
Qed.
End Lookup.

(** C2: Whatever the spans of a table, as long as its cells fit together (no two overlap and no cell has
    a hole on its left), the grid built from its rows shows at each slot the cell whose rectangle covers the
    slot, marked as real in the corner where the cell begins, and nothing elsewhere; if the rows have no holes, [getPos] finds each
    cell in its corner. *)
Theorem buildGrid_ok (s : st) (cy cx : nat -> nat) : layout (cells (tbl s)) (table_layout (tbl s)) cy cx →
  ∃ g, buildGrid s = Some (tt, set_grid g s)
    ∧ (∀ y x,
        (∀ c, placed (table_layout (tbl s)) c → covers (cells (tbl s)) cy cx c y x →
           at_ y x g = Some (slot_of (cells (tbl s)) (table_layout (tbl s)) cy cx (gen s) c y x))
        ∧ ((∀ c, placed (table_layout (tbl s)) c → ¬ covers (cells (tbl s)) cy cx c y x) → at_ y x g = None))
    ∧ (no_holes (tbl s) cy cx → ∀ c, placed (table_layout (tbl s)) c →
         getPos c (set_grid g s) = Some (Some (cx c, cy c), set_grid g s)).
Proof.
  intros Hl. destruct (build_shows_all (tbl s) (gen s) cy cx Hl) as (g & E & Hg). exists g. split_and!; [|exact Hg|].
  - unfold buildGrid, gets, modify, oget, mbind, SE_bind. by rewrite E.
  - intros Hno c Hc. unfold getPos, gets, oget, mbind, SE_bind. cbn [grid set_grid].
    by rewrite (find_pos_shown (tbl s) (gen s) cy cx g Hg (build_tight _ _ _ E) c Hl Hno Hc).
Qed.

(** ** A concrete table *)
Section Check.
Context (cs : gmap nat cell) (rows : list (part * list nat)) (cy cx : nat -> nat).

Definition all_cells : list nat := concat (snd <$> rows).
Definition apart (c d : nat) : Prop :=
  (cy c + rounds (spans cs c RowSpan) ≤ cy d ∨ cy d + rounds (spans cs d RowSpan) ≤ cy c
   ∨ cx c + rounds (spans cs c ColSpan) ≤ cx d ∨ cx d + rounds (spans cs d ColSpan) ≤ cx c)%nat.

Fixpoint increasing (l : list nat) : bool :=
  match l with [] => true | c :: l => forallb (λ d, Nat.ltb (cx c) (cx d)) l && increasing l end.

(** A layout, decided. *)
Definition layout_check : bool :=
  forallb (λ p : nat * (part * list nat), bool_decide (Forall (λ c, cy c = p.1 ∧ is_Some (cs !! c)) p.2.2)
                   && increasing p.2.2) (imap pair rows)
  && bool_decide (Forall (λ c, (0 < rounds (spans cs c RowSpan))%nat ∧ (0 < rounds (spans cs c ColSpan))%nat) all_cells)
  && bool_decide (Forall (λ c, Forall (λ d, c = d ∨ apart c d) all_cells) all_cells)
  && bool_decide (Forall (λ c, Forall (λ x, Exists (λ d, covers cs cy cx d (cy c) x) all_cells) (seq 0 (cx c))) all_cells).

Lemma placed_elem c : placed rows c ↔ c ∈ all_cells.
Proof.
  unfold placed, all_cells. rewrite elem_of_concat. split.
  - intros (y & p & l & Hy & Hc). exists l. split; [done|]. apply list_elem_of_fmap. exists (p, l).
    split; [done|]. by eapply list_elem_of_lookup_2.
  - intros (l & Hc & ([p l'] & -> & Hp)%list_elem_of_fmap). apply list_elem_of_lookup in Hp as [y Hy]. by exists y, p, l'.
Qed.

Lemma increasing_lookup l i j a b : increasing l = true → (i < j)%nat → l !! i = Some a → l !! j = Some b → (cx a < cx b)%nat.
Proof.
  revert i j. induction l as [|c l IH]; intros i j Hs Hij Hi Hj; [done|].
  cbn in Hs. apply andb_true_iff in Hs as [Hall Hs]. destruct j as [|j]; [lia|]. destruct i as [|i].
  - injection Hi as ->. rewrite forallb_forall in Hall. apply Nat.ltb_lt, Hall, list_elem_of_In.
    by apply (list_elem_of_lookup_2 _ j).
  - by apply (IH i j); [|lia| |].
Qed.

Lemma layout_checked : layout_check = true → layout cs rows cy cx.
Proof.
  unfold layout_check. rewrite !andb_true_iff, !bool_decide_eq_true, forallb_forall, !Forall_forall.
  intros [[[Hrow Hsp] Hdis] Hleft].
  assert (∀ y p l, rows !! y = Some (p, l) → Forall (λ c, cy c = y ∧ is_Some (cs !! c)) l ∧ increasing l = true) as Hr.
  { intros y p l Hy. specialize (Hrow (y, (p, l))). rewrite andb_true_iff, bool_decide_eq_true in Hrow. apply Hrow.
    apply list_elem_of_In, elem_of_lookup_imap. by exists y, (p, l). }
  constructor.
  - intros y p l c Hy Hc. destruct (Hr y p l Hy) as [Hall _]. rewrite Forall_forall in Hall. by apply Hall.
  - intros y p l i j a b Hy. destruct (Hr y p l Hy) as [_ Hs]. by apply increasing_lookup.
  - intros c Hc%placed_elem. by apply Hsp.
  - intros c d y x Hc%placed_elem Hd%placed_elem Hcov Hcov'. specialize (Hdis c Hc). rewrite Forall_forall in Hdis.
    destruct (Hdis d Hd) as [|Ha]; [done|]. unfold apart, covers in *. lia.
  - intros c x Hc%placed_elem Hx. specialize (Hleft c Hc). rewrite Forall_forall in Hleft.
    destruct (proj1 (Exists_exists _ _) (Hleft x ltac:(apply elem_of_seq; lia))) as (d & Hd & Hcov).
    exists d. split; [by apply placed_elem|done].
Qed.
End Check.

(** A table of three rows; the first cell of the middle one spans two rows and two columns. *)
Definition sample_cell (rowspan colspan : option jstr) (t : string) : cell :=
  Cell (js "TD") rowspan colspan false [] [DElem (js "B") [(js "id", js "b")] [DText (js t)]].
Definition sample_cells : gmap nat cell :=
  {[0 := sample_cell None None "a"; 1 := sample_cell None None "b"; 2 := sample_cell None None "c";
    3 := sample_cell (Some (js "2")) (Some (js "2")) "d"; 4 := sample_cell None None "e"; 5 := sample_cell None None "f"]}%nat.
Definition sample_table : table :=
  Table [(Thead, [Row 0 [] [0; 1; 2]]); (Tbody, [Row 1 [] [3; 4]; Row 2 [] [5]])]%nat [] sample_cells 6.
Definition sample_state : st := St sample_table false [] 0 None None None CaretNone.
Definition sample_y (c : nat) : nat := default 0%nat ([0; 0; 0; 1; 1; 2]%nat !! c).
Definition sample_x (c : nat) : nat := default 0%nat ([0; 1; 2; 0; 2; 2]%nat !! c).

Lemma sample_layout : layout (cells sample_table) (table_layout sample_table) sample_y sample_x.
Proof. apply layout_checked. vm_compute. reflexivity. Qed.

Lemma buildGrid_ok_witness : ∃ g, buildGrid sample_state = Some (tt, set_grid g sample_state)
    ∧ (∀ y x,
        (∀ c, placed (table_layout sample_table) c → covers (cells sample_table) sample_y sample_x c y x →
           at_ y x g = Some (slot_of (cells sample_table) (table_layout sample_table) sample_y sample_x 0 c y x))
        ∧ ((∀ c, placed (table_layout sample_table) c → ¬ covers (cells sample_table) sample_y sample_x c y x) → at_ y x g = None))
    ∧ (no_holes sample_table sample_y sample_x → ∀ c, placed (table_layout sample_table) c →
         getPos c (set_grid g sample_state) = Some (Some (sample_x c, sample_y c), set_grid g sample_state)).
Proof. apply (buildGrid_ok sample_state sample_y sample_x), sample_layout. Defined.
