(* ===== verification/TableInv.v ===== *)
(** * What every operation on a table keeps

    Cells and rows are objects with one place: no operation of the grid, in any order and on any
    selection, puts a cell or a row in two places or uses one that does not exist. *)

From S2P Require Import Prelude Tools TableGrid.

(** ** Tables *)
Definition cells_in (R : list row) : list nat := concat (r_cells <$> R).

(** The cells of [L] exist, too, but are in no row yet. *)
Record ok_rows (L : list nat) (R : list row) (m : gmap nat cell) (n : nat) : Prop := OkRows {
  ok_once : NoDup (L ++ cells_in R);
  ok_ids : NoDup (r_id <$> R);
  ok_dom : ∀ c, c ∈ L ++ cells_in R → is_Some (m !! c);
  ok_cells : ∀ c, is_Some (m !! c) → (c < n)%nat;
  ok_bound : ∀ r, r ∈ R → (r_id r < n)%nat
}.
Definition ok (L : list nat) (t : table) : Prop := ok_rows L (every_row t) (cells t) (next_id t).

Lemma cells_in_app R1 R2 : cells_in (R1 ++ R2) = cells_in R1 ++ cells_in R2.
Proof. unfold cells_in. by rewrite fmap_app, concat_app. Qed.

#[export] Instance cells_in_perm : Proper ((≡ₚ) ==> (≡ₚ)) cells_in.
Proof.
  induction 1 as [|r R R' HR IH|r r' R|R1 R2 R3 H1 IH1 H2 IH2]; unfold cells_in in *; cbn.
  - done.
  - by rewrite IH.
  - by rewrite !(assoc_L (++)), (comm (++) (r_cells r')).
  - by etransitivity.
Qed.

Lemma NoDup_sub {A} (l k : list A) : l ⊆+ k → NoDup k → NoDup l.
Proof. intros (k' & ->)%submseteq_Permutation Hn. by apply NoDup_app in Hn as (? & _ & _). Qed.

(** Fewer or other orders of rows and loose cells. *)
Lemma ok_rows_sub L R m n L' R' : ok_rows L R m n → L' ++ cells_in R' ⊆+ L ++ cells_in R →
  r_id <$> R' ⊆+ r_id <$> R → ok_rows L' R' m n.
Proof.
  intros [H1 H2 H3 H4 H5] Hc Hi. constructor; try done.
  - by eapply NoDup_sub.
  - by eapply NoDup_sub.
  - intros c Hin. apply H3. by eapply elem_of_submseteq.
  - intros r Hr. assert (r_id r ∈ r_id <$> R) as (r' & E & Hr')%list_elem_of_fmap.
    { eapply elem_of_submseteq; [|exact Hi]. by apply list_elem_of_fmap_2. }
    rewrite E. by apply H5.
Qed.

Lemma all_rows_map f l : concat (snd <$> map_sections (fmap f) l) = f <$> concat (snd <$> l).
Proof. induction l as [|[p rs] l IH]; [done|]. cbn in *. by rewrite fmap_app, <- IH. Qed.

Lemma every_row_map f t : every_row (map_each f t) = f <$> every_row t.
Proof. unfold every_row, all_rows, map_each. cbn. by rewrite fmap_app, all_rows_map. Qed.

Lemma all_rows_filter f l : concat (snd <$> map_sections (List.filter f) l) = List.filter f (concat (snd <$> l)).
Proof. induction l as [|[p rs] l IH]; [done|]. cbn in *. by rewrite List.filter_app, <- IH. Qed.

Lemma filter_split {A} (f : A -> bool) l : List.filter (λ x, negb (f x)) l ++ List.filter f l ≡ₚ l.
Proof.
  induction l as [|x l IH]; [done|]. cbn. destruct (f x); cbn; [|by rewrite IH].
  by rewrite <- Permutation_middle, IH.
Qed.

Lemma every_row_detach f t : every_row (detach_rows f t) ≡ₚ every_row t.
Proof.
  unfold every_row, detach_rows, all_rows. cbn. rewrite all_rows_filter.
  rewrite (comm (++) (loose_rows t)), (assoc (++)). by rewrite filter_split.
Qed.

(** ** Cells move in and out *)
Lemma cells_in_map_sub (f : row -> row) (R : list row) : (∀ r, r_cells (f r) ⊆+ r_cells r) → cells_in (f <$> R) ⊆+ cells_in R.
Proof. intros Hf. unfold cells_in. induction R as [|r R IH]; [done|]. cbn. by apply submseteq_app. Qed.

Lemma r_id_map (f : row -> row) (R : list row) : (∀ r, r_id (f r) = r_id r) → r_id <$> (f <$> R) = r_id <$> R.
Proof. intros Hf. rewrite <- list_fmap_compose. apply list_fmap_ext. intros i r _. apply Hf. Qed.

Lemma filter_sub {A} (f : A -> bool) (l : list A) : List.filter f l ⊆+ l.
Proof. induction l as [|x l IH]; [done|]. cbn. destruct (f x); [by apply submseteq_skip|by apply submseteq_cons]. Qed.

Lemma ok_remove_cell L c t : ok L t → ok L (remove_cell c t).
Proof.
  intros Ht. unfold ok. unfold remove_cell at 1. rewrite every_row_map.
  eapply ok_rows_sub; [exact Ht| |by rewrite r_id_map].
  apply submseteq_app; [done|]. apply cells_in_map_sub. intros r. cbn. apply filter_sub.
Qed.

Lemma put_near_notin b new elm l : elm ∉ l → put_near b new elm l = l.
Proof.
  induction l as [|c l IH]; [done|]. intros [Hc Hl]%not_elem_of_cons. cbn.
  rewrite (proj2 (Nat.eqb_neq c elm)) by done. by rewrite IH.
Qed.

Lemma put_near_perm b new elm l : elm ∈ l → put_near b new elm l ≡ₚ new :: l.
Proof.
  induction l as [|c l IH]; [by intros ?%elem_of_nil|]. intros Hin. cbn. destruct (Nat.eqb_spec c elm) as [->|Hne].
  - destruct b; [apply perm_swap|done].
  - apply elem_of_cons in Hin as [|Hin]; [congruence|]. rewrite IH by done. apply perm_swap.
Qed.

Lemma cells_in_cons r R : cells_in (r :: R) = r_cells r ++ cells_in R.
Proof. done. Qed.

(** A map that adds a cell to at most one row. *)
Lemma ok_add L new f t : (∀ r, r_id (f r) = r_id r) →
  (cells_in (f <$> every_row t) ≡ₚ cells_in (every_row t) ∨ cells_in (f <$> every_row t) ≡ₚ new :: cells_in (every_row t)) →
  ok (new :: L) t → ok L (map_each f t).
Proof.
  intros Hf Hc Ht. unfold ok. rewrite every_row_map. eapply ok_rows_sub; [exact Ht| |by rewrite r_id_map].
  destruct Hc as [-> | ->].
  - cbn. by apply submseteq_cons.
  - by rewrite <- Permutation_middle.
Qed.

Lemma put_cell_cells b new elm R : NoDup (cells_in R) →
  let f := λ r, set_cells (put_near b new elm (r_cells r)) r in
  cells_in (f <$> R) ≡ₚ cells_in R ∨ cells_in (f <$> R) ≡ₚ new :: cells_in R.
Proof.
  intros Hn f. induction R as [|r R IH]; [by left|]. cbn [fmap list_fmap]. rewrite !cells_in_cons in *.
  apply NoDup_app in Hn as (_ & Hd & Hn). cbn [f r_cells set_cells]. destruct (decide (elm ∈ r_cells r)) as [Hin|Hin].
  - right. rewrite put_near_perm by done. cbn. f_equiv. f_equiv.
    assert (f <$> R = R) as ->; [|done]. specialize (Hd elm Hin). clear -Hd.
    induction R as [|r' R IH]; [done|]. rewrite cells_in_cons, not_elem_of_app in Hd. cbn. f_equal; [|apply IH, Hd].
    unfold f, set_cells. rewrite put_near_notin by apply Hd. by destruct r'.
  - rewrite put_near_notin by done. destruct (IH Hn) as [-> | ->]; [by left|right]. by rewrite Permutation_middle.
Qed.

Lemma ok_put_cell L b new elm t : ok (new :: L) t → ok L (put_cell b new elm t).
Proof.
  intros Ht. apply (ok_add L new); [done| |done]. apply put_cell_cells.
  destruct Ht as [Hn _ _ _ _]. cbn in Hn. apply NoDup_cons in Hn as [_ Hn]. by apply NoDup_app in Hn as (_ & _ & Hn).
Qed.

Lemma append_cell_cells id new R : NoDup (r_id <$> R) →
  let f := λ r, if Nat.eqb (r_id r) id then set_cells (r_cells r ++ [new]) r else r in
  cells_in (f <$> R) ≡ₚ cells_in R ∨ cells_in (f <$> R) ≡ₚ new :: cells_in R.
Proof.
  intros Hn f. induction R as [|r R IH]; [by left|]. cbn [fmap list_fmap]. rewrite !cells_in_cons in *.
  cbn in Hn. apply NoDup_cons in Hn as [Hr Hn]. destruct (Nat.eqb_spec (r_id r) id) as [<-|Hne].
  - right. assert (f r = set_cells (r_cells r ++ [new]) r) as -> by (unfold f; by rewrite Nat.eqb_refl). cbn [r_cells set_cells].
    assert (f <$> R = R) as ->; [|rewrite <- app_assoc; cbn [app]; by rewrite <- Permutation_middle].
    clear -Hr. induction R as [|r' R IH]; [done|]. cbn in Hr. apply not_elem_of_cons in Hr as [? Hr]. cbn. f_equal; [|by apply IH].
    unfold f. by rewrite (proj2 (Nat.eqb_neq _ _)) by done.
  - assert (f r = r) as -> by (unfold f; by rewrite (proj2 (Nat.eqb_neq _ _)) by done).
    destruct (IH Hn) as [-> | ->]; [by left|right]. by rewrite Permutation_middle.
Qed.

Lemma ok_append_cell L id new t : ok (new :: L) t → ok L (append_cell id new t).
Proof.
  intros Ht. apply (ok_add L new); [| |done].
  - intros r. by destruct (Nat.eqb (r_id r) id).
  - apply append_cell_cells. apply Ht.
Qed.

Lemma ok_detach L f t : ok L t → ok L (detach_rows f t).
Proof.
  intros Ht. unfold ok. cbn [cells next_id detach_rows with_rows].
  eapply ok_rows_sub; [exact Ht| |]; by rewrite every_row_detach.
Qed.

(** ** Rows move *)
Section PutRow.
Context (after : bool) (new : row) (target : nat).
Abbreviation others := (List.filter (λ r, negb (Nat.eqb (r_id r) (r_id new)))).

Lemma put_row_near_notin l : target ∉ r_id <$> l → put_row_near after new target l = l.
Proof.
  induction l as [|r l IH]; [done|]. cbn. intros [Hr Hl]%not_elem_of_cons.
  rewrite (proj2 (Nat.eqb_neq _ _)) by done. by rewrite IH.
Qed.

Lemma put_row_near_perm l : target ∈ r_id <$> l → put_row_near after new target l ≡ₚ new :: l.
Proof.
  induction l as [|r l IH]; [by intros ?%elem_of_nil|]. cbn. intros Hin. destruct (Nat.eqb_spec (r_id r) target) as [He|Hne].
  - destruct after; [apply perm_swap|done].
  - apply elem_of_cons in Hin as [|Hin]; [congruence|]. rewrite IH by done. apply perm_swap.
Qed.

Lemma put_rows_perm l : NoDup (r_id <$> concat (snd <$> l)) →
  let l' := map_sections (λ l, put_row_near after new target (others l)) l in
  concat (snd <$> l') ≡ₚ others (concat (snd <$> l)) ∨ concat (snd <$> l') ≡ₚ new :: others (concat (snd <$> l)).
Proof.
  induction l as [|[p R] l IH]; intros Hn; [by left|]. cbn in *. rewrite fmap_app in Hn.
  apply NoDup_app in Hn as (_ & Hd & Hn). rewrite List.filter_app.
  destruct (decide (target ∈ r_id <$> others R)) as [Hin|Hin].
  - right. rewrite put_row_near_perm by done. cbn. f_equiv. f_equiv.
    assert (target ∉ r_id <$> concat (snd <$> l)) as Hl.
    { apply Hd. apply list_elem_of_fmap in Hin as (r & -> & Hr). apply list_elem_of_fmap_2.
      apply list_elem_of_In, filter_In in Hr as [Hr _]. by apply list_elem_of_In. }
    clear -Hl. induction l as [|[p R] l IH]; [done|]. cbn in *. rewrite fmap_app, not_elem_of_app in Hl.
    rewrite List.filter_app, put_row_near_notin.
    + f_equiv. apply IH, Hl.
    + intros (r & -> & Hr)%list_elem_of_fmap. apply list_elem_of_In, filter_In in Hr as [Hr _].
      apply (proj1 Hl), list_elem_of_fmap_2. by apply list_elem_of_In.
  - rewrite put_row_near_notin by done. destruct (IH Hn) as [-> | ->]; [by left|right]. by rewrite Permutation_middle.
Qed.

Lemma every_row_put t : NoDup (r_id <$> every_row t) → r_id new ≠ target →
  every_row (put_row after new target t) ≡ₚ others (every_row t)
  ∨ every_row (put_row after new target t) ≡ₚ new :: others (every_row t).
Proof.
  intros Hn Hne. unfold put_row. rewrite (proj2 (Nat.eqb_neq _ _)) by done. unfold every_row, all_rows in *. cbn.
  rewrite fmap_app in Hn. apply NoDup_app in Hn as (Hn & _ & _). rewrite List.filter_app.
  destruct (put_rows_perm _ Hn) as [-> | ->]; [by left|by right].
Qed.

Lemma others_in R : NoDup (r_id <$> R) → new ∈ R → R ≡ₚ new :: others R.
Proof using Type.
  induction R as [|r R IH]; intros Hn Hin; [by apply elem_of_nil in Hin|]. cbn in Hn. apply NoDup_cons in Hn as [Hr Hn]. cbn.
  apply elem_of_cons in Hin as [<-|Hin].
  - rewrite Nat.eqb_refl. cbn. f_equiv. clear IH Hn. induction R as [|r' R IH]; [done|]. cbn in *.
    apply not_elem_of_cons in Hr as [Hne Hr]. rewrite (proj2 (Nat.eqb_neq _ _)) by done. cbn. f_equiv. by apply IH.
  - assert (r_id new ∈ r_id <$> R) by by apply list_elem_of_fmap_2.
    rewrite (proj2 (Nat.eqb_neq (r_id r) (r_id new))) by (intros E; by rewrite E in Hr). cbn.
    rewrite (IH Hn Hin) at 1. apply perm_swap.
Qed.

Lemma others_notin R : r_id new ∉ r_id <$> R → others R = R.
Proof using Type.
  induction R as [|r R IH]; [done|]. cbn. intros [Hne Hr]%not_elem_of_cons.
  rewrite (proj2 (Nat.eqb_neq _ _)) by done. cbn. by rewrite IH.
Qed.

(** A row that exists moves, and a new one comes in. *)
Lemma ok_move_row L t : ok L t → new ∈ every_row t → ok L (put_row after new target t).
Proof.
  intros Ht Hin. destruct (decide (r_id new = target)) as [<-|Hne].
  { unfold put_row. by rewrite Nat.eqb_refl. }
  assert (∀ R, R ≡ₚ others (every_row t) ∨ R ≡ₚ new :: others (every_row t) → R ⊆+ every_row t) as Hsub.
  { intros R [-> | ->]; [apply filter_sub|]. rewrite <- others_in; [done|apply Ht|done]. }
  pose proof (Hsub _ (every_row_put t (ok_ids _ _ _ _ Ht) Hne)) as (R & HR)%submseteq_Permutation.
  assert (cells (put_row after new target t) = cells t ∧ next_id (put_row after new target t) = next_id t) as [E1 E2]
    by (unfold put_row; by destruct (Nat.eqb _ _)).
  unfold ok. rewrite E1, E2. eapply ok_rows_sub; [exact Ht| |].
  - rewrite HR, cells_in_app, (assoc (++)). by apply submseteq_inserts_r.
  - rewrite HR, fmap_app. by apply submseteq_inserts_r.
Qed.

Lemma ok_new_row L t : ok (r_cells new ++ L) t → r_id new ∉ r_id <$> every_row t → (r_id new < next_id t)%nat →
  ok L (put_row after new target t).
Proof.
  intros Ht Hid Hlt. assert (ok L t) as Hlt'.
  { eapply ok_rows_sub; [exact Ht| |done]. rewrite <- (assoc (++)). by apply submseteq_inserts_l. }
  destruct (decide (r_id new = target)) as [<-|Hne].
  { unfold put_row. by rewrite Nat.eqb_refl. }
  pose proof (every_row_put t (ok_ids _ _ _ _ Ht) Hne) as Hp. rewrite others_notin in Hp by done.
  assert (cells (put_row after new target t) = cells t ∧ next_id (put_row after new target t) = next_id t) as [E1 E2]
    by (unfold put_row; by destruct (Nat.eqb _ _)).
  unfold ok. rewrite E1, E2. destruct Hp as [Hp|Hp].
  - eapply ok_rows_sub; [exact Hlt'| |]; by rewrite Hp.
  - eapply (ok_rows_sub L (new :: every_row t)); [|by rewrite Hp..]. destruct Ht as [H1 H2 H3 H4 H5].
    assert (L ++ cells_in (new :: every_row t) ≡ₚ (r_cells new ++ L) ++ cells_in (every_row t)) as Hc.
    { rewrite cells_in_cons, (assoc (++)). by rewrite (comm (++) L). }
    constructor.
    + by rewrite Hc.
    + cbn. by constructor.
    + intros c. rewrite Hc. apply H3.
    + done.
    + intros r [->|Hr]%elem_of_cons; [done|by apply H5].
Qed.
End PutRow.

(** ** Steps that keep the table in order *)
Definition keeps {A} (m : TM A) : Prop := ∀ L s x s', ok L (tbl s) → m s = Some (x, s') → ok L (tbl s').

Create HintDb keep.

Lemma keeps_ret {A} (x : A) : keeps (mret x).
Proof. by intros L s y s' Ht [= _ <-]. Qed.

Lemma keeps_bind {A B} (m : TM A) (f : A -> TM B) : keeps m → (∀ x, keeps (f x)) → keeps (m ≫= f).
Proof.
  intros Hm Hf L s y s' Ht. rewrite SE_bind_unfold. destruct (m s) as [[x s1]|] eqn:E; [|done].
  intros E2. eapply Hf; [|exact E2]. by eapply Hm.
Qed.

(** A step that leaves the table alone. *)
Lemma keeps_same {A} (m : TM A) : (∀ s x s', m s = Some (x, s') → tbl s' = tbl s) → keeps m.
Proof. intros Hm L s x s' Ht E. by rewrite (Hm _ _ _ E). Qed.

Lemma keeps_gets {A} (f : st -> A) : keeps (gets f).
Proof. apply keeps_same. by intros s x s' [= _ <-]. Qed.
Lemma keeps_oget {A} (o : option A) : keeps (oget o).
Proof. apply keeps_same. intros s x s' E. unfold oget in E. destruct o; [by injection E as _ <-|done]. Qed.
Lemma keeps_throw {A} : keeps (throw : TM A).
Proof. by intros L s x s' _ E. Qed.
Lemma keeps_modify f : (∀ s, tbl (f s) = tbl s) → keeps (modify f).
Proof. intros Hf. apply keeps_same. intros s x s' [= _ <-]. apply Hf. Qed.
Lemma keeps_upd f : (∀ L t, ok L t → ok L (f t)) → keeps (upd_tbl f).
Proof. intros Hf L s x s' Ht [= _ <-]. by apply Hf. Qed.

#[export] Hint Resolve keeps_ret keeps_gets keeps_oget keeps_throw : keep.
#[export] Hint Extern 1 (keeps (modify _)) => apply keeps_modify; done : keep.

(** Both branches of a choice, and every step of a sequence. *)
Ltac keep_step :=
  match goal with
  | |- keeps (match ?x with _ => _ end) => destruct x
  | |- keeps (_ ≫= _) => apply keeps_bind; [|intros ?]
  | |- keeps (let _ := _ in _) => cbv zeta
  | |- keeps _ => solve [auto with keep]
  end.
Ltac keep_basic := repeat keep_step.

Lemma keeps_for_each {A} (f : A -> TM unit) l : (∀ x, keeps (f x)) → keeps (for_each f l).
Proof. intros Hf. induction l as [|x l IH]; cbn; keep_basic. Qed.
Lemma keeps_times n m : keeps m → keeps (times n m).
Proof. intros Hm. induction n as [|n IH]; cbn; keep_basic. Qed.

Ltac keep :=
  repeat first [ keep_step
               | match goal with
                 | |- keeps (for_each _ _) => apply keeps_for_each; intros ?
                 | |- keeps (times _ _) => apply keeps_times
                 end ].

Lemma ok_alter L f c t : ok L t → ok L (with_cells (alter f c (cells t)) t).
Proof.
  intros [H1 H2 H3 H4 H5]. constructor; try done; cbn.
  - intros c' Hc. rewrite lookup_alter_is_Some. by apply H3.
  - intros c'. rewrite lookup_alter_is_Some. apply H4.
Qed.

Lemma keeps_upd_cell c f : keeps (upd_cell c f).
Proof. apply keeps_upd. intros L t. apply ok_alter. Qed.
Lemma keeps_setSpanVal c n v : keeps (setSpanVal c n v).
Proof. apply keeps_upd_cell. Qed.
Lemma keeps_the_cell c : keeps (the_cell c).
Proof. unfold the_cell. keep. Qed.
Lemma keeps_the_row id : keeps (the_row id).
Proof. unfold the_row. keep. Qed.
Lemma keeps_buildGrid : keeps buildGrid.
Proof. unfold buildGrid. keep. Qed.
Lemma keeps_getCell x y : keeps (getCell x y).
Proof. unfold getCell. keep. Qed.
Lemma keeps_elm_at x y : keeps (elm_at x y).
Proof. unfold elm_at. keep. Qed.
Lemma keeps_getPos c : keeps (getPos c).
Proof. unfold getPos. keep. Qed.
Lemma keeps_isCellSelected c : keeps (isCellSelected c).
Proof. apply keeps_same. by intros s x s' [= _ <-]. Qed.
Lemma keeps_remove_cell c : keeps (upd_tbl (remove_cell c)).
Proof. apply keeps_upd. intros L t. apply ok_remove_cell. Qed.
Lemma keeps_detach f : keeps (upd_tbl (detach_rows f)).
Proof. apply keeps_upd. intros L t. apply ok_detach. Qed.
#[export] Hint Resolve keeps_upd_cell keeps_setSpanVal keeps_the_cell keeps_the_row keeps_buildGrid keeps_getCell
  keeps_elm_at keeps_getPos keeps_isCellSelected keeps_remove_cell keeps_detach : keep.

(** ** New cells *)
Section Ops.
Context `{Config}.

(** A new cell is loose. *)
Lemma new_cell_ok td L s c s' : ok L (tbl s) → new_cell td s = Some (c, s') → ok (c :: L) (tbl s').
Proof.
  intros [H1 H2 H3 H4 H5] [= <- <-]. constructor; cbn.
  - constructor; [|done]. intros Hin%H3. apply H4 in Hin. lia.
  - done.
  - intros c [->|Hin]%elem_of_cons; [by rewrite lookup_insert_eq|]. destruct (decide (c = next_id (tbl s))) as [->|].
    + by rewrite lookup_insert_eq.
    + rewrite lookup_insert_ne by done. by apply H3.
  - intros c. destruct (decide (c = next_id (tbl s))) as [->|]; [lia|]. rewrite lookup_insert_ne by done.
    intros Hc%H4. lia.
  - intros r Hr%H5. lia.
Qed.

Lemma cloneCell_ok e L s c s' : ok L (tbl s) → cloneCell e s = Some (c, s') → ok (c :: L) (tbl s').
Proof.
  intros Ht. unfold cloneCell. rewrite SE_bind_unfold. destruct (the_cell e s) as [[td s1]|] eqn:E; [|done].
  apply new_cell_ok. by eapply keeps_the_cell.
Qed.

Lemma keeps_insert_clone b e : keeps (insert_clone b e).
Proof.
  intros L s x s' Ht. unfold insert_clone. rewrite SE_bind_unfold.
  destruct (cloneCell e s) as [[c s1]|] eqn:E; [|done]. apply (cloneCell_ok e L) in E; [|done].
  unfold gets, oget, upd_tbl, modify, mbind, SE_bind. destruct (row_of e (tbl s1)); [|done]. intros [= _ <-].
  by apply ok_put_cell.
Qed.

Lemma keeps_add_clone id k : keeps (add_clone id k).
Proof.
  intros L s x s' Ht. unfold add_clone. rewrite SE_bind_unfold.
  destruct (the_row id s) as [[r s1]|] eqn:E1; [|done]. apply (keeps_the_row _ L) in E1; [|done].
  rewrite SE_bind_unfold. destruct (oget _ s1) as [[c s2]|] eqn:E2; [|done]. apply (keeps_oget _ L) in E2; [|done].
  rewrite SE_bind_unfold. destruct (cloneCell c s2) as [[n s3]|] eqn:E3; [|done]. apply (cloneCell_ok c L) in E3; [|done].
  intros [= _ <-]. by apply ok_append_cell.
Qed.
#[local] Hint Resolve keeps_insert_clone keeps_add_clone : keep.

Lemma keeps_fill_left tr y x2 cols : keeps (fill_left tr y x2 cols).
Proof. induction x2 as [|x2 IH]; cbn [fill_left]; keep. Qed.
#[local] Hint Resolve keeps_fill_left : keep.
Lemma keeps_fill_down x y cols rows : ∀ tr r, keeps (fill_down tr x y r rows cols).
Proof. induction rows as [|rows IH]; intros tr r; cbn [fill_down]; keep. Qed.
#[local] Hint Resolve keeps_fill_down : keep.
Lemma keeps_fillLeftDown x y rows cols : keeps (fillLeftDown x y rows cols).
Proof. unfold fillLeftDown. keep. Qed.
#[local] Hint Resolve keeps_fillLeftDown : keep.

Lemma has_rows_rows l : concat (snd <$> List.filter has_rows l) = concat (snd <$> l).
Proof. induction l as [|[p [|r rs]] l IH]; cbn; [done|done|]. by rewrite <- IH. Qed.

Lemma ok_has_rows L t : ok L t → ok L (with_rows (List.filter has_rows (sections t)) (loose_rows t) t).
Proof. unfold ok, every_row, all_rows. cbn. by rewrite has_rows_rows. Qed.

Lemma keeps_cleanup : keeps cleanup.
Proof. unfold cleanup. keep; apply keeps_upd, ok_has_rows. Qed.
#[local] Hint Resolve keeps_cleanup : keep.

Lemma keeps_split_cell e : keeps (split_cell e).
Proof. unfold split_cell. keep. Qed.
#[local] Hint Resolve keeps_split_cell : keep.
Lemma keeps_split : keeps split.
Proof. unfold split. keep. Qed.
Lemma keeps_merge_cell c p : keeps (merge_cell c p).
Proof. unfold merge_cell. keep. Qed.
#[local] Hint Resolve keeps_split keeps_merge_cell : keep.
Lemma keeps_merge_rect a b c d : keeps (merge_rect a b c d).
Proof. unfold merge_rect. keep. Qed.
#[local] Hint Resolve keeps_merge_rect : keep.
Lemma keeps_merge_size e c r : keeps (merge_size e c r).
Proof. unfold merge_size. keep. Qed.
Lemma keeps_read {A} (f : st -> A) : keeps (λ s, Some (f s, s)).
Proof. apply keeps_same. by intros s x s' [= _ <-]. Qed.
Lemma keeps_merge : keeps merge.
Proof. unfold merge. keep. apply keeps_read. Qed.

(** ** Rows and columns *)
Lemma keeps_insert_in_rows b x g : ∀ y l, keeps (insert_in_rows b x y g l).
Proof. induction g as [|row g IH]; intros y l; cbn [insert_in_rows]; keep. Qed.
#[local] Hint Resolve keeps_insert_in_rows : keep.
Lemma keeps_insertCol b : keeps (insertCol b).
Proof. unfold insertCol. keep. apply keeps_read. Qed.
Lemma keeps_delete_in_row x row : keeps (delete_in_row x row).
Proof. unfold delete_in_row. keep. Qed.
#[local] Hint Resolve keeps_delete_in_row : keep.
Lemma keeps_delete_cols l : ∀ cols, keeps (delete_cols l cols).
Proof. induction l as [|[[y x] c] l IH]; intros cols; cbn [delete_cols]; keep. Qed.
#[local] Hint Resolve keeps_delete_cols : keep.
Lemma keeps_deleteCols : keeps deleteCols.
Proof. unfold deleteCols. keep. Qed.
Lemma keeps_move_down c : keeps (move_down c).
Proof. unfold move_down. keep. Qed.
Lemma keeps_delete_cells row : ∀ l, keeps (delete_cells row l).
Proof. induction row as [|c row IH]; intros l; cbn [delete_cells]; keep. Qed.
#[local] Hint Resolve keeps_move_down keeps_delete_cells : keep.
Lemma keeps_deleteRow id : keeps (deleteRow id).
Proof. unfold deleteRow. keep. Qed.
#[local] Hint Resolve keeps_deleteRow : keep.
Lemma keeps_getSelectedRows : keeps getSelectedRows.
Proof. apply keeps_same. intros s x s' E. unfold getSelectedRows in E. destruct (selected_of _ _); [by injection E as _ <-|done]. Qed.
#[local] Hint Resolve keeps_getSelectedRows : keep.
Lemma keeps_deleteRows : keeps deleteRows.
Proof. unfold deleteRows. keep. Qed.
Lemma keeps_cutRows : keeps cutRows.
Proof. unfold cutRows, remove_row. keep. Qed.
#[local] Hint Resolve keeps_merge_size keeps_merge keeps_insertCol keeps_deleteCols keeps_deleteRows : keep.

Lemma bind_inv {A B} (m : TM A) (f : A -> TM B) s y s' : (m ≫= f) s = Some (y, s') →
  ∃ x s1, m s = Some (x, s1) ∧ f x s1 = Some (y, s').
Proof. rewrite SE_bind_unfold. destruct (m s) as [[x s1]|]; [|done]. eauto. Qed.

Lemma new_row_cell_ok e L s c s' : ok L (tbl s) → new_row_cell e s = Some (c, s') → ok (c :: L) (tbl s').
Proof.
  intros Ht (c1 & s1 & E1 & (td & s2 & E2 & (u & s3 & E3 & E4)%bind_inv)%bind_inv)%bind_inv.
  injection E4 as <- <-. eapply keeps_setSpanVal; [|exact E3]. eapply keeps_the_cell; [|exact E2]. by eapply cloneCell_ok.
Qed.

(** The cells of the new row are loose until the row is in the table. *)
Definition makes_cells (L : list nat) (newRow : list nat) (m : TM (list nat)) : Prop :=
  ∀ s r s', ok (newRow ++ L) (tbl s) → m s = Some (r, s') → ok (r ++ L) (tbl s').

Lemma makes_bind {A} L nr (m : TM A) f : keeps m → (∀ x, makes_cells L nr (f x)) → makes_cells L nr (m ≫= f).
Proof. intros Hm Hf s r s' Ht (x & s1 & E1 & E2)%bind_inv. eapply Hf; [|exact E2]. by eapply Hm. Qed.

Lemma makes_cell L nr e f : (∀ n, makes_cells L (nr ++ [n]) (f n)) → makes_cells L nr (new_row_cell e ≫= f).
Proof.
  intros Hf s r s' Ht (n & s1 & E1 & E2)%bind_inv. eapply Hf; [|exact E2].
  apply (new_row_cell_ok e (nr ++ L)) in E1; [|done]. unfold ok in *. eapply ok_rows_sub; [exact E1| |done].
  rewrite <- (Permutation_cons_append nr n). done.
Qed.

Lemma new_row_cells_ok b posY xs L : ∀ lastCell nr, makes_cells L nr (new_row_cells b posY xs lastCell nr).
Proof.
  induction xs as [|x xs IH]; intros lastCell nr; cbn [new_row_cells].
  { by intros s r s' Ht [= <- <-]. }
  apply makes_bind; [keep|intros g]. apply makes_bind; [keep|intros row]. destruct (get_at x row) as [c|]; [|apply IH].
  destruct (decide _); [apply IH|]. apply makes_bind; [keep|intros other]. apply makes_bind; [keep|intros rowSpan].
  destruct other as [o|]; [|apply makes_cell; intros ?; apply IH].
  destruct (gt rowSpan 1); [|apply makes_cell; intros ?; apply IH]. apply makes_bind; [keep|]. intros _. apply IH.
Qed.

Lemma new_id_ok L s n s' : ok L (tbl s) → new_id s = Some (n, s') →
  ok L (tbl s') ∧ every_row (tbl s') = every_row (tbl s) ∧ (n ∉ r_id <$> every_row (tbl s')) ∧ (n < next_id (tbl s'))%nat.
Proof.
  intros Ht [= <- <-]. cbn. assert (next_id (tbl s) ∉ r_id <$> every_row (tbl s)) as Hn.
  { intros (r & E & Hr%(ok_bound _ _ _ _ Ht))%list_elem_of_fmap. lia. }
  split_and!; [|done|exact Hn|lia]. destruct Ht as [H1 H2 H3 H4 H5]. constructor; try done.
  - intros c Hc%H4. cbn. lia.
  - intros r Hr%H5. cbn. lia.
Qed.

Lemma keeps_insertRow b : keeps (insertRow b).
Proof.
  intros L s x s' Ht. unfold insertRow. intros (g & s1 & E1 & (pos & s2 & E2 & (r0 & s3 & E3 & E)%bind_inv)%bind_inv)%bind_inv.
  apply (keeps_gets _ L) in E1; [|done].
  assert (tbl s2 = tbl s1) as Es. { cbv beta in E2. destruct (scan_rows s1 b 0 g None); [by injection E2 as _ <-|done]. }
  rewrite <- Es in E1. apply (keeps_oget _ L) in E3; [|done]. destruct pos as [[posY rowElm]|]; [|done].
  apply bind_inv in E as (nr & s4 & E4 & E). apply (new_row_cells_ok b posY _ L _ []) in E4; [|done].
  destruct nr as [|n nr]; [by injection E as _ <-|].
  apply bind_inv in E as (id & s5 & E5 & E). apply (new_id_ok ((n :: nr) ++ L)) in E5 as (H5 & _ & Hid & Hlt); [|done].
  injection E as _ <-. cbn [tbl set_tbl]. by apply ok_new_row.
Qed.

Lemma copy_cells_ok l : ∀ L s r s', ok L (tbl s) → copy_cells l s = Some (r, s') → ok (r ++ L) (tbl s').
Proof.
  induction l as [|c l IH]; intros L s r s' Ht; cbn [copy_cells]; [by intros [= <- <-]|].
  intros (td & s1 & E1 & (n & s2 & E2 & (rest & s3 & E3 & E4)%bind_inv)%bind_inv)%bind_inv. injection E4 as <- <-.
  apply (keeps_the_cell _ L) in E1; [|done]. apply (new_cell_ok td L) in E2; [|done]. apply (IH (n :: L)) in E3; [|done].
  unfold ok. eapply ok_rows_sub; [exact E3| |done]. cbn. by rewrite <- Permutation_middle.
Qed.

Lemma keeps_copy_row id : keeps (copy_row id).
Proof.
  intros L s x s' Ht. unfold copy_row.
  intros (r & s1 & E1 & (cs & s2 & E2 & (n & s3 & E3 & E)%bind_inv)%bind_inv)%bind_inv.
  apply (keeps_the_row _ L) in E1; [|done]. apply (copy_cells_ok _ L) in E2; [|done].
  apply (new_id_ok (cs ++ L)) in E3 as (H3 & _ & Hid & Hlt); [|done].
  apply bind_inv in E as (u & s4 & [= _ <-] & [= _ <-]). cbn [tbl set_tbl]. unfold ok, every_row, all_rows. cbn.
  rewrite (assoc (++)). fold (all_rows (tbl s3)). fold (every_row (tbl s3)). destruct H3 as [H1 H2 H3 H4 H5].
  assert (L ++ cells_in (every_row (tbl s3) ++ [Row n (without_id (r_attrs r)) cs])
    ≡ₚ (cs ++ L) ++ cells_in (every_row (tbl s3))) as Hc.
  { rewrite cells_in_app. unfold cells_in at 2. cbn. rewrite app_nil_r. rewrite (comm (++) _ cs), (assoc (++)).
    by rewrite (comm (++) L). }
  constructor.
  - by rewrite Hc.
  - rewrite fmap_app. apply NoDup_app. split_and!; [done| |by repeat constructor; set_solver].
    intros i Hi Hn%list_elem_of_singleton. by subst.
  - intros c. rewrite Hc. apply H3.
  - done.
  - intros r' [Hr'| ->%list_elem_of_singleton]%elem_of_app; [by apply H5|done].
Qed.
#[local] Hint Resolve keeps_copy_row : keep.

Lemma keeps_copy_rows l : keeps (copy_rows l).
Proof. induction l as [|id l IH]; cbn [copy_rows]; keep. Qed.
#[local] Hint Resolve keeps_copy_rows : keep.
Lemma keeps_copyRows : keeps copyRows.
Proof. unfold copyRows. keep. Qed.

Lemma keeps_drop_live id n : ∀ i, keeps (drop_live id i n).
Proof. induction n as [|n IH]; intros i; cbn [drop_live]; keep. Qed.
#[local] Hint Resolve keeps_drop_live : keep.

Lemma find_row_elem id t r : find_row id t = Some r → r ∈ every_row t.
Proof. intros [H1 _]%find_some. by apply list_elem_of_In. Qed.

Lemma keeps_paste_row b target n id : keeps (paste_row b target n id).
Proof.
  unfold paste_row. apply keeps_bind; [keep|intros r]. cbv zeta. do 3 (apply keeps_bind; [keep|intros ?]).
  intros L s y s' Ht (r' & s1 & (t & s2 & [= <- <-] & E1)%bind_inv & E)%bind_inv.
  unfold oget in E1. destruct (find_row id (tbl s)) as [r2|] eqn:Ef; [|done]. injection E1 as <- <-. injection E as _ <-.
  cbn [tbl set_tbl]. apply ok_move_row; [done|by eapply find_row_elem].
Qed.
#[local] Hint Resolve keeps_paste_row : keep.

Lemma ok_clear L t : ok L t → ok L (clear_selection t).
Proof.
  unfold clear_selection. generalize (concat (r_cells <$> all_rows t)). intros l Ht. induction l as [|c l IH]; [done|].
  exact (ok_alter _ _ _ _ IH).
Qed.

Lemma keeps_pasteRows rows b : keeps (pasteRows rows b).
Proof. unfold pasteRows. keep; apply keeps_upd, ok_clear. Qed.

(** ** The selection *)
Lemma keeps_slot x y : keeps (slot x y).
Proof. unfold slot. keep. Qed.
#[local] Hint Resolve keeps_slot : keep.
Lemma keeps_expand_x ys : ∀ x, keeps (expand_x ys x).
Proof. induction ys as [|y ys IH]; intros x; cbn [expand_x]; keep. Qed.
Lemma keeps_expand_y xs : ∀ y, keeps (expand_y xs y).
Proof. induction xs as [|x xs IH]; intros y; cbn [expand_y]; keep. Qed.
Lemma keeps_far_end l : ∀ m, keeps (far_end l m).
Proof. induction l as [|[y x] l IH]; intros m; cbn [far_end]; keep. Qed.
Lemma keeps_select_slot p : keeps (select_slot p).
Proof. unfold select_slot. keep. Qed.
#[local] Hint Resolve keeps_expand_x keeps_expand_y keeps_far_end keeps_select_slot : keep.
Lemma keeps_setStartCell c : keeps (setStartCell c).
Proof. unfold setStartCell. keep. Qed.
Lemma keeps_setEndCell c : keeps (setEndCell c).
Proof. unfold setEndCell. keep; apply keeps_upd, ok_clear. Qed.
End Ops.

(** ** Sequences of operations *)
Inductive op :=
  | ODeleteTable | OSplit | OMerge | OMergeSize (elm : nat) (cols rows : Z) | OInsertRow (before : bool) | OInsertCol (before : bool)
  | ODeleteCols | ODeleteRows | OCutRows | OCopyRows | OPasteRows (rows : option (list nat)) (before : bool)
  | OSetStartCell (c : nat) | OSetEndCell (c : nat).

(** The methods of the object. *)
Definition run_op `{Config} (o : op) : TM unit :=
  match o with
  | ODeleteTable => deleteTable
  | OSplit => split
  | OMerge => merge
  | OMergeSize e c r => merge_size e c r
  | OInsertRow b => insertRow b
  | OInsertCol b => insertCol b
  | ODeleteCols => deleteCols
  | ODeleteRows => deleteRows
  | OCutRows => cutRows;; mret tt
  | OCopyRows => copyRows;; mret tt
  | OPasteRows rows b => pasteRows rows b
  | OSetStartCell c => setStartCell c
  | OSetEndCell c => setEndCell c
  end.

Lemma keeps_run_op `{Config} o : keeps (run_op o).
Proof.
  destruct o; cbn [run_op].
  - by apply keeps_modify.
  - apply keeps_split.
  - apply keeps_merge.
  - apply keeps_merge_size.
  - apply keeps_insertRow.
  - apply keeps_insertCol.
  - apply keeps_deleteCols.
  - apply keeps_deleteRows.
  - apply keeps_bind; [apply keeps_cutRows|intros; keep].
  - apply keeps_bind; [apply keeps_copyRows|intros; keep].
  - apply keeps_pasteRows.
  - apply keeps_setStartCell.
  - apply keeps_setEndCell.
Qed.

(** Every cell of a row is in the store, and no cell or row is in two places. *)
Definition table_ok (t : table) : Prop := ok [] t.

(** Whatever operations are carried out on a table, in any order, with any selection, any clipboard and any spans: as long
    as no exception ends one, no cell is in two rows or twice in a row, no row is twice in the table, and every cell of
    a row exists. *)
Theorem operations_keep_table `{Config} (t : table) (sel : option nat) (os : list op) (s s' : st) :
  table_ok t → new_TableGrid t sel = Some s → for_each run_op os s = Some (tt, s') → table_ok (tbl s').
Proof.
  intros Ht En. assert (table_ok (tbl s)) as Hs.
  { unfold new_TableGrid in En. destruct (buildGrid _) as [[u s1]|] eqn:E1; [|done]. cbn in En.
    apply (keeps_buildGrid []) in E1; [|done]. destruct sel as [e|]; [|by injection En as <-].
    destruct (getPos e s1) as [[p s2]|] eqn:E2; [|done]. apply (keeps_getPos e []) in E2; [|done]. cbn in En.
    destruct p as [p|]; [|done]. by injection En as <-. }
  assert (keeps (for_each run_op os)) as Hk; [|intros E; by eapply Hk].
  apply keeps_for_each. intros o. by apply keeps_run_op.
Qed.
