(* ===== verification/TableRows.v ===== *)
(** * A new row

    What insertRow does where every cell beside the place of the new row is one row high, and what it does
    to those that are higher, also when they end at that place. *)

From S2P Require Import Prelude Tools TableGrid TableFacts TableInv.

(** ** The new row as it should be *)
(** The cells of some slots, from left to right, each once. *)
Fixpoint heads (last : option nat) (l : sparse gcell) : list nat :=
  match l with
  | [] => []
  | None :: l => heads last l
  | Some c :: l => if decide (Some (g_elm c) = last) then heads last l else g_elm c :: heads (Some (g_elm c)) l
  end.

Section Rows.
Context `{Config}.

(** An empty copy, as wide as the cell. *)
Definition wide_clone (td : cell) : cell := set_span ColSpan (Some (colSpan_of (c_colspan td))) (clone_of td).

(** The table with one more cell, and with copies of the cells [l]. *)
Definition with_new (td : cell) (t : table) : table :=
  with_next (S (next_id t)) (with_cells (<[next_id t := td]> (cells t)) t).
Fixpoint add_clones (cs : gmap nat cell) (l : list nat) (t : table) : table :=
  match l with
  | [] => t
  | c :: l => add_clones cs l (match cs !! c with Some td => with_new (wide_clone td) t | None => t end)
  end.

(** The cell the code looks at at slot [x]: it makes it longer if its row span is above one. *)
Definition across (before : bool) (g : grid_t) (posY x : nat) : option nat :=
  if before then match posY with O => None | S above => g_elm <$> at_ above x g end
  else g_elm <$> at_ posY x g.

Abbreviation known cs l := (∀ c : nat, c ∈ l → is_Some ((cs : gmap nat cell) !! c)).

Lemma known_cons cs c l : known cs (c :: l) → (∃ td, cs !! c = Some td) ∧ known cs l.
Proof. intros Hl. split; [apply Hl; by left|intros; apply Hl; by right]. Qed.

Lemma next_add_clones cs l t : known cs l → next_id (add_clones cs l t) = (next_id t + length l)%nat.
Proof.
  revert t. induction l as [|c l IH]; intros t Hl; cbn; [lia|]. apply known_cons in Hl as [[td ->] Hl].
  rewrite IH by done. cbn. lia.
Qed.

Lemma add_clones_old cs l t c : (c < next_id t)%nat → cells (add_clones cs l t) !! c = cells t !! c.
Proof.
  revert t. induction l as [|c' l IH]; intros t Hc; cbn; [done|]. destruct (cs !! c') as [td|]; [|by apply IH].
  rewrite IH by (cbn; lia). cbn. by rewrite lookup_insert_ne by lia.
Qed.

Lemma add_clones_new cs l t i c td : known cs l → l !! i = Some c → cs !! c = Some td →
  cells (add_clones cs l t) !! (next_id t + i)%nat = Some (wide_clone td).
Proof.
  revert t i. induction l as [|c' l IH]; intros t i Hl Hi Htd; [done|]. cbn. apply known_cons in Hl as [[td' E] Hl].
  rewrite E. destruct i as [|i].
  - injection Hi as ->. rewrite add_clones_old by (cbn; lia). cbn. rewrite Nat.add_0_r, lookup_insert_eq. by simplify_eq.
  - specialize (IH (with_new (wide_clone td') t) i Hl Hi Htd). cbn in IH. by rewrite Nat.add_succ_r.
Qed.

Lemma rows_add_clones cs l t : sections (add_clones cs l t) = sections t ∧ loose_rows (add_clones cs l t) = loose_rows t.
Proof.
  revert t. induction l as [|c l IH]; intros t; cbn; [done|]. destruct (cs !! c) as [td|]; [|done].
  apply (IH (with_new (wide_clone td) t)).
Qed.

(** ** The loop *)
Lemma step_bind {A B} (m : TM A) (k : A -> TM B) s x s1 : m s = Some (x, s1) → (m ≫= k) s = k x s1.
Proof. intros E. by rewrite SE_bind_unfold, E. Qed.
Lemma oget_eq {A} (o : option A) x (s : st) : o = Some x → oget o s = Some (x, s).
Proof. by intros ->. Qed.

Lemma new_row_cell_eq c td s : cells (tbl s) !! c = Some td → (c < next_id (tbl s))%nat →
  new_row_cell c s = Some (next_id (tbl s), set_tbl (with_new (wide_clone td) (tbl s)) s).
Proof.
  intros Hc Hlt. unfold new_row_cell, cloneCell, the_cell, new_cell, setSpanVal, upd_cell, upd_tbl, oget, gets, modify, mret,
    mbind, SE_bind, SE_ret. cbn. rewrite Hc. cbn. rewrite lookup_insert_ne by lia. rewrite Hc. cbn.
  by rewrite alter_insert_eq.
Qed.

Section Loop.
Context (before : bool) (s0 : st) (posY : nat) (row : sparse gcell).
Abbreviation cs := (cells (tbl s0)).
Hypothesis Hrow : get_at posY (grid s0) = Some row.
Hypothesis Hknown : ∀ x c, get_at x row = Some c → is_Some (cs !! g_elm c).
Hypothesis Hold : ∀ c, is_Some (cs !! c) → (c < next_id (tbl s0))%nat.
Hypothesis Habove : before = true → ∀ y, posY = S y → is_Some (get_at y (grid s0)).

(** The states of the loop: some cells have been added. *)
Definition later (s : st) : Prop :=
  grid s = grid s0 ∧ (next_id (tbl s0) ≤ next_id (tbl s))%nat ∧ ∀ c, is_Some (cs !! c) → cells (tbl s) !! c = cs !! c.

Lemma later_new td s : later s → later (set_tbl (with_new td (tbl s)) s).
Proof.
  intros (Hg & Hn & Hc). split_and!; cbn; [done|lia|]. intros c Hin. pose proof (Hold _ Hin).
  rewrite lookup_insert_ne by lia. by apply Hc.
Qed.

Lemma new_row_cells_eq xs : ∀ last nr s, later s →
  (∀ x o, x ∈ xs → across before (grid s0) posY x = Some o → ∃ td, cs !! o = Some td ∧ gt (getSpanVal td RowSpan) 1 = false) →
  let l := heads last ((λ x, get_at x row) <$> xs) in
  new_row_cells before posY xs last nr s =
    Some (nr ++ seq (next_id (tbl s)) (length l), set_tbl (add_clones cs l (tbl s)) s).
Proof.
  induction xs as [|x xs IH]; intros last nr s Hs Hsp; cbv zeta in *; cbn [new_row_cells fmap list_fmap heads].
  { cbn. rewrite app_nil_r. by destruct s. }
  pose proof Hs as (Hg & Hn & Hc). assert (Hx := λ o, Hsp x o ltac:(by left)).
  assert (IH' := λ last nr s Hs, IH last nr s Hs (λ x o Hin, Hsp x o ltac:(by right))). clear IH Hsp.
  rewrite (step_bind _ _ s (grid s0) s) by (by rewrite <- Hg). rewrite (step_bind _ _ s row s) by by apply oget_eq.
  destruct (get_at x row) as [c|] eqn:Ex; [|by apply IH'].
  destruct (decide (Some (g_elm c) = last)) as [|Hl]; [by apply IH'|].
  rewrite (step_bind _ _ s (across before (grid s0) posY x) s).
  2:{ unfold across. destruct before; [destruct posY as [|above]; [done|]|by unfold at_; rewrite Hrow; cbn; rewrite Ex].
      destruct (Habove eq_refl above eq_refl) as [r Hr]. rewrite (step_bind _ _ s r s) by by apply oget_eq. unfold at_. by rewrite Hr. }
  destruct (Hknown x c Ex) as [td Htd]. pose proof (Hold _ (mk_is_Some _ _ Htd)) as Hlt.
  set (l := heads (Some (g_elm c)) _).
  assert ((n ← new_row_cell (g_elm c); new_row_cells before posY xs (Some (g_elm c)) (nr ++ [n])) s
    = Some (nr ++ seq (next_id (tbl s)) (S (length l)), set_tbl (add_clones cs (g_elm c :: l) (tbl s)) s)) as Hnew.
  { rewrite (step_bind _ _ s (next_id (tbl s)) (set_tbl (with_new (wide_clone td) (tbl s)) s)).
    - rewrite IH' by by apply later_new. cbn. rewrite <- app_assoc, Htd. done.
    - apply new_row_cell_eq; [by rewrite Hc by eauto|lia]. }
  destruct (across before (grid s0) posY x) as [o|] eqn:Eo; [|done].
  destruct (Hx o eq_refl) as (tdo & Hto & Hgt).
  rewrite (step_bind _ _ s (getSpanVal tdo RowSpan) s); [by rewrite Hgt|].
  rewrite (step_bind _ _ s tdo s); [done|]. unfold the_cell. rewrite (step_bind _ _ s (tbl s) s) by done.
  apply oget_eq. by rewrite Hc by eauto.
Qed.
End Loop.

Lemma heads_sub l : ∀ last c, c ∈ heads last l → ∃ e, Some e ∈ l ∧ g_elm e = c.
Proof.
  induction l as [|[e|] l IH]; intros last c Hc; cbn in Hc; [by apply elem_of_nil in Hc| |].
  - destruct (decide _); [|apply elem_of_cons in Hc as [->|Hc]; [exists e; split; [by left|done]|]];
      apply IH in Hc as (e' & ? & ?); exists e'; (split; [by right|done]).
  - apply IH in Hc as (e' & ? & ?). exists e'. split; [by right|done].
Qed.

(** ** Where the search ends *)
Definition in_table (s : st) (acc : option (nat * row)) : Prop := ∀ y r, acc = Some (y, r) → r ∈ every_row (tbl s).

Lemma scan_row_elem s b y l : ∀ acc r, in_table s acc → scan_row s b y l acc = Some r → in_table s r.
Proof.
  induction l as [|c l IH]; intros acc r Ha; cbn; [by intros [= <-]|]. destruct (is_selected s c); [|by apply IH].
  destruct c as [c|]; [cbn|done]. destruct (row_of (g_elm c) (tbl s)) as [r'|] eqn:E; [|done]. cbn.
  assert (in_table s (Some (y, r'))) as Hr.
  { intros ? ? [= <- <-]. apply find_some in E as [E _]. by apply list_elem_of_In. }
  destruct b; [by intros [= <-]|by apply IH].
Qed.

Lemma scan_rows_elem s b g : ∀ y acc r, in_table s acc → scan_rows s b y g acc = Some r → in_table s r.
Proof.
  induction g as [|row g IH]; intros y acc r Ha; cbn; [by intros [= <-]|].
  destruct (scan_row s b y (default [] row) acc) as [acc'|] eqn:E; [|done]. cbn.
  apply scan_row_elem in E; [|done]. destruct acc' as [[[|y'] r']|]; [by apply IH| |by apply IH].
  destruct b; [by intros [= <-]|by apply IH].
Qed.

Lemma put_row_fresh after new target t : (∀ r, r ∈ every_row t → r_id r ≠ r_id new) → r_id new ≠ target →
  put_row after new target t = with_rows (map_sections (put_row_near after new target) (sections t)) (loose_rows t) t.
Proof.
  intros Hr Hne. unfold put_row. rewrite (proj2 (Nat.eqb_neq _ _)) by done.
  assert (∀ l, (∀ r, r ∈ l → r_id r ≠ r_id new) → List.filter (λ r, negb (Nat.eqb (r_id r) (r_id new))) l = l) as Hf.
  { intros l Hl. apply others_notin. intros (r & E & Hin)%list_elem_of_fmap. by apply (Hl r). }
  unfold every_row, all_rows in Hr. rewrite Hf by (intros r Hin; apply Hr, elem_of_app; by right). f_equal.
  unfold map_sections. apply list_fmap_ext. intros i [p l] Hi. cbn. f_equal. rewrite Hf; [done|].
  intros r Hin. apply Hr, elem_of_app. left. apply elem_of_concat. exists l. split; [done|].
  apply list_elem_of_fmap. exists (p, l). split; [done|by eapply list_elem_of_lookup_2].
Qed.

(** ** insertRow *)
(** The search of insertRow ends at [posY], and every cell of that row, or of the row above it when the new one comes
    before, has a row span of one: the code makes every higher cell longer, whether it goes on past the place of the new row or ends there. *)
Record open_at (s : st) (before : bool) (posY : nat) (rowElm : row) (row : sparse gcell) (width : nat) : Prop := {
  open_table : table_ok (tbl s);
  open_found : scan_rows s before 0 (grid s) None = Some (Some (posY, rowElm));
  open_width : length <$> get_at 0 (grid s) = Some width;
  open_row : get_at posY (grid s) = Some row;
  open_above : before = true → ∀ y, posY = S y → is_Some (get_at y (grid s));
  open_known : ∀ x c, get_at x row = Some c → is_Some (cells (tbl s) !! g_elm c);
  open_place : ∀ x o, (x < width)%nat → across before (grid s) posY x = Some o →
    ∃ td, cells (tbl s) !! o = Some td ∧ gt (getSpanVal td RowSpan) 1 = false
}.

Lemma insertRow_eq before s posY rowElm row r0 :
  scan_rows s before 0 (grid s) None = Some (Some (posY, rowElm)) → get_at 0 (grid s) = Some r0 →
  get_at posY (grid s) = Some row → (before = true → ∀ y, posY = S y → is_Some (get_at y (grid s))) →
  (∀ x c, get_at x row = Some c → is_Some (cells (tbl s) !! g_elm c)) →
  (∀ c, is_Some (cells (tbl s) !! c) → (c < next_id (tbl s))%nat) →
  (∀ x o, (x < length r0)%nat → across before (grid s) posY x = Some o →
    ∃ td, cells (tbl s) !! o = Some td ∧ gt (getSpanVal td RowSpan) 1 = false) →
  let l := heads None ((λ x, get_at x row) <$> seq 0 (length r0)) in
  let n := next_id (tbl s) in
  insertRow before s = match l with [] => Some (tt, s) | _ => Some (tt, set_tbl
    (put_row (negb before) (Row (n + length l) (without_id (r_attrs rowElm)) (seq n (length l))) (r_id rowElm)
      (with_next (S (n + length l)) (add_clones (cells (tbl s)) l (tbl s)))) s) end.
Proof.
  intros Hf E0 Hr Ha Hk Ho Hp l n. assert (known (cells (tbl s)) l) as Hl.
  { intros c (e & He & <-)%heads_sub. apply list_elem_of_fmap in He as (x & He & _). by eapply Hk. }
  unfold insertRow. rewrite (step_bind _ _ s (grid s) s) by done.
  rewrite (step_bind _ _ s (Some (posY, rowElm)) s) by by rewrite Hf.
  rewrite (step_bind _ _ s r0 s) by by apply oget_eq.
  rewrite (step_bind _ _ s (seq n (length l)) (set_tbl (add_clones (cells (tbl s)) l (tbl s)) s)).
  2:{ apply (new_row_cells_eq before s posY row); try done. intros x o Hx. apply Hp. apply elem_of_seq in Hx. lia. }
  destruct l as [|c l'] eqn:El; [by destruct s|]. cbn [length seq].
  assert (S (length l') = length l) as -> by by rewrite El. rewrite <- El.
  rewrite (step_bind _ _ _ (n + length l)%nat
    (set_tbl (with_next (S (n + length l)) (add_clones (cells (tbl s)) l (tbl s))) s)); [done|].
  unfold new_id. rewrite (step_bind _ _ _ (add_clones (cells (tbl s)) l (tbl s)) (set_tbl (add_clones (cells (tbl s)) l (tbl s)) s)) by done.
  rewrite (next_add_clones _ l) by by rewrite El. done.
Qed.

(** C3: When the search of insertRow ends at a row and every cell of that row (for a new row before it, of the row above) has a row span of one, exactly one row is added
    (none, if the row has no cells): directly behind or before that row, with its attributes except the id; for each cell of
    the row (in the columns of the first row), in order, it has one empty cell that is as wide; all other cells and rows are as before. *)
Theorem insertRow_ok before s posY rowElm row width : open_at s before posY rowElm row width →
  let l := heads None ((λ x, get_at x row) <$> seq 0 width) in
  let n := next_id (tbl s) in
  ∃ s', insertRow before s = Some (tt, s') ∧
    if decide (l = []) then s' = s
    else
      sections (tbl s') = map_sections
        (put_row_near (negb before) (Row (n + length l) (without_id (r_attrs rowElm)) (seq n (length l))) (r_id rowElm)) (sections (tbl s))
      ∧ loose_rows (tbl s') = loose_rows (tbl s)
      ∧ (∀ c, (c < n)%nat → cells (tbl s') !! c = cells (tbl s) !! c)
      ∧ (∀ i c td, l !! i = Some c → cells (tbl s) !! c = Some td → cells (tbl s') !! (n + i)%nat = Some (wide_clone td)).
Proof.
  intros [Ht Hf Hw Hr Ha Hk Hp] l n. destruct (get_at 0 (grid s)) as [r0|] eqn:E0; [|done]. injection Hw as <-.
  assert (known (cells (tbl s)) l) as Hl.
  { intros c (e & He & <-)%heads_sub. apply list_elem_of_fmap in He as (x & He & _). by eapply Hk. }
  rewrite (insertRow_eq before s posY rowElm row r0) by (done || apply Ht). fold l n.
  destruct (decide (l = [])) as [E|E]; [exists s; by rewrite E|].
  assert (∀ r, r ∈ every_row (tbl s) → (r_id r < n)%nat) as Hb by apply Ht.
  assert (rowElm ∈ every_row (tbl s)) as Hin by by eapply (scan_rows_elem s before (grid s) 0 None).
  clearbody l. destruct l as [|c0 l0] eqn:El; [done|]. rewrite <- El in *. eexists. split; [done|]. cbn [tbl set_tbl]. destruct (rows_add_clones (cells (tbl s)) l (tbl s)) as [Es Elo].
  rewrite put_row_fresh; cbn.
  - rewrite Es, Elo. split_and!; [done..| |].
    + intros c Hc. by apply add_clones_old.
    + intros i c td Hi Htd. by eapply add_clones_new.
  - intros r Hr'. unfold every_row, all_rows in *. cbn in Hr'. rewrite Es, Elo in Hr'. apply Hb in Hr'. lia.
  - apply Hb in Hin. lia.
Qed.
End Rows.

(** ** Examples *)
#[local] Instance sample_config : Config := {|
  ie := false;
  table_clone_elements := Some [];
  colSpan_of := λ a, match a with Some v => default 1 (parse_int 10 v) | None => 1 end
|}.

Lemma table_okb (t : table) :
  bool_decide (NoDup (cells_in (every_row t)) ∧ NoDup (r_id <$> every_row t)
    ∧ Forall (λ c, is_Some (cells t !! c)) (cells_in (every_row t))
    ∧ map_Forall (λ c _, (c < next_id t)%nat) (cells t) ∧ Forall (λ r, (r_id r < next_id t)%nat) (every_row t)) = true → table_ok t.
Proof.
  rewrite bool_decide_eq_true, !Forall_forall. intros (H1 & H2 & H3 & H4 & H5). constructor; try done.
  intros c [td Hc]. by eapply H4.
Qed.

(** The sample table, and some operations on it after a click on a cell. *)
Definition opened (sel : nat) : option st := new_TableGrid sample_table (Some sel).
Definition after_ops (sel : nat) (os : list op) : option st := s ← opened sel; snd <$> for_each run_op os s.
Definition layout_after (os : option st) : option (list (list (Z * Z * Z))) :=
  s ← os; Some ((λ r, omap (λ c, td ← cells (tbl s) !! c;
    Some (Z.of_nat c, default 0 (getSpanVal td RowSpan), default 0 (getSpanVal td ColSpan))) (r_cells r)) <$> all_rows (tbl s)).

Lemma sample_table_ok : table_ok sample_table.
Proof. apply table_okb. vm_compute. reflexivity. Qed.

(** A row of five cells, and one of one. *)
Definition ragged_table : table :=
  Table [(Tbody, [Row 0 [] [0; 1; 2; 3; 4]; Row 1 [] [5]])]%nat []
    {[0 := sample_cell None None "a"; 1 := sample_cell None None "b"; 2 := sample_cell None None "c";
      3 := sample_cell None None "d"; 4 := sample_cell None None "e"; 5 := sample_cell None None "f"]}%nat 6.

(** A row behind one with a cell of two rows and two columns makes it two rows longer: one for each column. *)
Lemma insertRow_grows_twice : layout_after (after_ops 3 [OInsertRow false]) = Some
  [[(0, 1, 1); (1, 1, 1); (2, 1, 1)];
   [(3, 4, 2); (4, 1, 1)]; [(6, 1, 1)]; [(5, 1, 1)]].
Proof. vm_compute. reflexivity. Qed.

(** A row after the last one: the cell of two rows and two columns ends there, but it is made longer (twice), and the
    new row has one cell for three columns. *)
Example insertRow_grows_ended : layout_after (after_ops 5 [OInsertRow false]) = Some
  [[(0, 1, 1); (1, 1, 1); (2, 1, 1)];
   [(3, 4, 2); (4, 1, 1)]; [(5, 1, 1)]; [(6, 1, 1)]].
Proof. vm_compute. reflexivity. Qed.

(** The same before a row: the cell of the two rows above ends there. *)
Definition ended_table : table :=
  Table [(Tbody, [Row 0 [] [0; 1]; Row 1 [] [2]; Row 2 [] [3; 4]])]%nat []
    {[0 := sample_cell (Some (js "2")) None "a"; 1 := sample_cell None None "b"; 2 := sample_cell None None "c";
      3 := sample_cell None None "d"; 4 := sample_cell None None "e"]}%nat 5.
Example insertRow_before_grows_ended :
  layout_after (s ← new_TableGrid ended_table (Some 3%nat); snd <$> run_op (OInsertRow true) s) = Some
    [[(0, 3, 1); (1, 1, 1)]; [(2, 1, 1)]; [(5, 1, 1)]; [(3, 1, 1); (4, 1, 1)]].
Proof. vm_compute. reflexivity. Qed.

(** With cells of the first two rows selected, "before" is before the second row. *)
Lemma insertRow_misses_first : layout_after (after_ops 0 [OSetEndCell 3; OInsertRow true]) = Some
  [[(0, 1, 1); (1, 1, 1); (2, 1, 1)];
   [(6, 1, 2); (7, 1, 1)];
   [(3, 2, 2); (4, 1, 1)]; [(5, 1, 1)]].
Proof. vm_compute. reflexivity. Qed.

(** One column less takes a cell of two columns away: it is made narrower once for each of its rows. *)
Lemma deleteCols_takes_wide_cell : layout_after (after_ops 0 [ODeleteCols]) = Some
  [[(1, 1, 1); (2, 1, 1)]; [(4, 1, 1)]; [(5, 1, 1)]].
Proof. vm_compute. reflexivity. Qed.

(** The part of a deleted row's cell that goes on in the next row loses its columns. *)
Lemma deleteRows_narrow : layout_after (after_ops 4 [ODeleteRows]) = Some
  [[(0, 1, 1); (1, 1, 1); (2, 1, 1)]; [(6, 1, 1); (5, 1, 1)]].
Proof. vm_compute. reflexivity. Qed.

(** A pasted row of five cells keeps three where one is wanted. *)
Lemma pasteRows_keeps_cells :
  layout_after (s ← new_TableGrid ragged_table (Some 5%nat); snd <$> run_op (OPasteRows (Some [0%nat]) false) s) = Some
    [[(5, 1, 1)]; [(0, 1, 1); (2, 1, 1); (4, 1, 1)]].
Proof. vm_compute. reflexivity. Qed.

(** ** Witnesses *)
Definition sample_ops : list op :=
  [OSetStartCell 0; OSetEndCell 4; OMerge; OInsertCol true; OSplit; OInsertRow false; OCopyRows; ODeleteCols]%nat.

(** After a click on the first cell. *)
Definition first_cell_state : st := Eval vm_compute in default sample_state (opened 0).

Lemma operations_keep_table_witness : ∃ s',
  new_TableGrid sample_table (Some 0%nat) = Some first_cell_state
  ∧ for_each run_op sample_ops first_cell_state = Some (tt, s') ∧ table_ok (tbl s').
Proof.
  assert (new_TableGrid sample_table (Some 0%nat) = Some first_cell_state) as E0 by (vm_compute; reflexivity).
  assert (∃ s', for_each run_op sample_ops first_cell_state = Some (tt, s')) as [s' E] by (eexists; vm_compute; reflexivity).
  exists s'. split; [exact E0|split; [exact E|]].
  exact (operations_keep_table sample_table (Some 0%nat) sample_ops first_cell_state s' sample_table_ok E0 E).
Defined.

Definition first_row : sparse gcell := Eval vm_compute in default [] (get_at 0 (grid first_cell_state)).

Lemma insertRow_ok_witness : ∃ s', insertRow false first_cell_state = Some (tt, s')
  ∧ sections (tbl s') = map_sections (put_row_near true (Row 9 [] [6; 7; 8]%nat) 0) (sections sample_table)
  ∧ cells (tbl s') !! 7%nat = wide_clone <$> (sample_cells !! 1%nat).
Proof.
  assert (open_at first_cell_state false 0 (Row 0 [] [0; 1; 2]%nat) first_row 3) as Hopen.
  { constructor; try (vm_compute; reflexivity); [apply sample_table_ok|done|..].
    - intros x c Hx. do 3 (destruct x as [|x]; [injection Hx as <-; by eexists|]). by destruct x.
    - intros x o Hx Ho. do 3 (destruct x as [|x]; [injection Ho as <-; by eexists|]). lia. }
  destruct (insertRow_ok false first_cell_state 0 (Row 0 [] [0; 1; 2]%nat) first_row 3 Hopen) as (s' & E & Hs').
  exists s'. split; [exact E|]. rewrite decide_False in Hs' by (vm_compute; done).
  destruct Hs' as (Hs & _ & _ & Hc). split; [exact Hs|]. exact (Hc 1%nat 1%nat _ eq_refl eq_refl).
Defined.
