(* ===== verification/Dom.v ===== *)
(** * The browser's document as an interface, and classes/dom/DOMUtils.js on it

    The document is code the sources only call: the class [Dom] lists the
    attributes of a node they read, the class [DomLaws] what the DOM standard says
    of them (a finite forest whose links agree).  Everything that reads a document
    is written against the two; a table of children, checked by [table_ok], is an
    instance for concrete runs. *)

From S2P Require Import Prelude.

(** ** The interface *)

(** [depth] and [height] bound the chains of parents above a node and of
    children below it; the loops that follow them take them as fuel.
    [documentElementOf n] is [n.ownerDocument.documentElement], [None] when there is no such
    document or element.  [nodeValue] is [None] (null) for elements and documents. *)
Class Dom (node : Type) := {
  #[global] Dom_eq_dec :: EqDecision node;
  parentNode : node -> option node;
  childNodes : node -> list node;
  firstChild : node -> option node;
  lastChild : node -> option node;
  nextSibling : node -> option node;
  previousSibling : node -> option node;
  nodeType : node -> Z;
  nodeName : node -> jstr;
  nodeValue : node -> option jstr;
  attributes : node -> list (jstr * jstr);
  documentElementOf : node -> option node;
  depth : node -> nat;
  height : node -> nat
}.

Class DomLaws (node : Type) `{Dom node} : Prop := {
  child_parent n p : n ∈ childNodes p ↔ parentNode n = Some p;
  child_NoDup p : NoDup (childNodes p);
  firstChild_head p : firstChild p = head (childNodes p);
  lastChild_last p : lastChild p = last (childNodes p);
  sibling_split p l1 n l2 : childNodes p = l1 ++ n :: l2 →
    previousSibling n = last l1 ∧ nextSibling n = head l2;
  root_alone n : parentNode n = None → previousSibling n = None ∧ nextSibling n = None;
  depth_parent n p : parentNode n = Some p → (depth p < depth n)%nat;
  height_parent n p : parentNode n = Some p → (height n < height p)%nat;
  text_value n : nodeType n = 3 → is_Some (nodeValue n);
  text_leaf n : nodeType n = 3 → childNodes n = []
}.

Section Dom.
Context {node : Type} `{DomLaws node}.
Implicit Types n p c a b r : node.

(** ** Going up *)

(** The node and its ancestors, the root last. *)
Fixpoint chain (fuel : nat) n : list node :=
  n :: match fuel with
       | O => []
       | S f => match parentNode n with Some p => chain f p | None => [] end
       end.
Definition ancestors n : list node := chain (depth n) n.

Lemma up_ind (P : node -> Prop) : (∀ n, (∀ p, parentNode n = Some p → P p) → P n) → ∀ n, P n.
Proof using Type*.
  intros HP n. remember (depth n) as d eqn:Ed. revert n Ed.
  induction d as [d IH] using lt_wf_ind. intros n ->. apply HP. intros p Hp.
  exact (IH _ (depth_parent _ _ Hp) p eq_refl).
Qed.

Lemma down_ind (P : node -> Prop) : (∀ n, (∀ c, parentNode c = Some n → P c) → P n) → ∀ n, P n.
Proof using Type*.
  intros HP n. remember (height n) as d eqn:Ed. revert n Ed.
  induction d as [d IH] using lt_wf_ind. intros n ->. apply HP. intros c Hc.
  exact (IH _ (height_parent _ _ Hc) c eq_refl).
Qed.

Lemma chain_more n : ∀ f1 f2, (depth n <= f1)%nat → (depth n <= f2)%nat → chain f1 n = chain f2 n.
Proof using Type*.
  induction n as [n IH] using up_ind. intros f1 f2 Hf1 Hf2.
  destruct (parentNode n) as [p|] eqn:Ep; [|destruct f1, f2; cbn; rewrite ?Ep; done].
  pose proof (depth_parent _ _ Ep). destruct f1, f2; [lia..|]. cbn. rewrite Ep. f_equal. apply IH; auto; lia.
Qed.

Lemma ancestors_eq n : ancestors n = n :: match parentNode n with Some p => ancestors p | None => [] end.
Proof using Type*.
  unfold ancestors at 1. destruct (parentNode n) as [p|] eqn:Ep.
  - pose proof (depth_parent _ _ Ep). destruct (depth n) as [|d] eqn:Ed; [lia|]. cbn. rewrite Ep.
    f_equal. apply chain_more; lia.
  - destruct (depth n); cbn; by rewrite ?Ep.
Qed.

Lemma ancestors_self n : n ∈ ancestors n.
Proof using Type*. rewrite ancestors_eq. by left. Qed.

Lemma elem_ancestors a n : a ∈ ancestors n ↔ a = n ∨ ∃ p, parentNode n = Some p ∧ a ∈ ancestors p.
Proof using Type*. rewrite ancestors_eq at 1. rewrite elem_of_cons. destruct (parentNode n); set_solver. Qed.

Lemma ancestors_parent a n p : parentNode n = Some p → a ∈ ancestors p → a ∈ ancestors n.
Proof using Type*. intros Hp Ha. apply elem_ancestors. eauto. Qed.

Lemma ancestors_trans a b n : a ∈ ancestors b → b ∈ ancestors n → a ∈ ancestors n.
Proof using Type*.
  intros Ha. induction n as [n IH] using up_ind. rewrite (elem_ancestors b n).
  intros [->|(p & Hp & Hb)]; [done|]. eauto using ancestors_parent.
Qed.

Lemma ancestors_depth a n : a ∈ ancestors n → a = n ∨ (depth a < depth n)%nat.
Proof using Type*.
  induction n as [n IH] using up_ind. rewrite (elem_ancestors a n).
  intros [->|(p & Hp & Ha)]; [by left|right]. pose proof (depth_parent _ _ Hp).
  destruct (IH p Hp Ha) as [->|]; lia.
Qed.

Lemma ancestors_antisym a b : a ∈ ancestors b → b ∈ ancestors a → a = b.
Proof using Type*. intros H1%ancestors_depth H2%ancestors_depth. destruct H1, H2; auto; lia. Qed.

Lemma kid_not_above a c : parentNode c = Some a → c ∉ ancestors a.
Proof using Type*. intros Hc Hin%ancestors_depth. pose proof (depth_parent _ _ Hc). destruct Hin; subst; lia. Qed.

(** Of two ancestors of a node one is above the other. *)
Lemma ancestors_linear a b n : a ∈ ancestors n → b ∈ ancestors n → a ∈ ancestors b ∨ b ∈ ancestors a.
Proof using Type*.
  induction n as [n IH] using up_ind. intros Ha Hb. pose proof Ha as Ha'. pose proof Hb as Hb'.
  apply elem_ancestors in Ha' as [->|(p & Hp & Ha')]; [by right|].
  apply elem_ancestors in Hb' as [->|(p' & Hp' & Hb')]; [by left|]. simplify_eq. eauto.
Qed.

(** A proper ancestor is reached through one of its children. *)
Lemma ancestors_via_child a n : a ∈ ancestors n → a ≠ n → ∃ c, parentNode c = Some a ∧ c ∈ ancestors n.
Proof using Type*.
  induction n as [n IH] using up_ind. rewrite (elem_ancestors a n).
  intros [->|(p & Hp & Ha)] Hne; [done|]. destruct (decide (a = p)) as [->|Hne'].
  - exists n. split; [done|apply ancestors_self].
  - destruct (IH p Hp Ha Hne') as (c & Hc & Hin). eauto using ancestors_parent.
Qed.

Lemma child_of_ancestor_unique a c c' n : parentNode c = Some a → parentNode c' = Some a →
  c ∈ ancestors n → c' ∈ ancestors n → c = c'.
Proof using Type*.
  intros Hc Hc'. induction n as [n IH] using up_ind.
  pose proof (depth_parent _ _ Hc) as Hd. pose proof (depth_parent _ _ Hc') as Hd'.
  rewrite !(elem_ancestors _ n). intros [->|(p & Hp & H1)] [->|(p' & Hp' & H2)]; simplify_eq; eauto.
  - apply ancestors_depth in H2 as [->|]; lia.
  - apply ancestors_depth in H1 as [->|]; lia.
Qed.

(** The loop [while (ec.parentNode) ec = ec.parentNode]. *)
Fixpoint root_loop (fuel : nat) n : node :=
  match fuel with
  | O => n
  | S f => match parentNode n with Some p => root_loop f p | None => n end
  end.
Definition root_of n : node := root_loop (depth n) n.

Lemma root_loop_last n : ∀ f, (depth n <= f)%nat → last (ancestors n) = Some (root_loop f n).
Proof using Type*.
  induction n as [n IH] using up_ind. intros f Hf. rewrite ancestors_eq.
  destruct (parentNode n) as [p|] eqn:Ep; [|destruct f; cbn; by rewrite ?Ep].
  pose proof (depth_parent _ _ Ep). destruct f as [|f]; [lia|]. cbn [root_loop]. rewrite Ep, last_cons.
  by rewrite (IH p eq_refl f) by lia.
Qed.

Lemma root_of_last n : last (ancestors n) = Some (root_of n).
Proof using Type*. by apply root_loop_last. Qed.

Lemma root_of_parent n p : parentNode n = Some p → root_of n = root_of p.
Proof using Type*.
  intros Hp. pose proof (root_of_last n) as E. rewrite ancestors_eq, Hp, last_cons, root_of_last in E. by simplify_eq.
Qed.

Lemma root_of_ancestor a n : a ∈ ancestors n → root_of n = root_of a.
Proof using Type*.
  induction n as [n IH] using up_ind. rewrite (elem_ancestors a n).
  intros [->|(p & Hp & Ha)]; [done|]. rewrite (root_of_parent _ _ Hp). eauto.
Qed.

Lemma root_of_elem n : root_of n ∈ ancestors n.
Proof using Type*. apply last_Some_elem_of, root_of_last. Qed.

(** The loop [while (c && !stop(c)) c = c.parentNode]. *)
Fixpoint climb_loop (fuel : nat) (stop : node -> bool) n : option node :=
  if stop n then Some n
  else match fuel with
       | O => None
       | S f => match parentNode n with Some p => climb_loop f stop p | None => None end
       end.
Definition climb (stop : node -> bool) n : option node := climb_loop (depth n) stop n.

Lemma climb_loop_more stop n : ∀ f1 f2, (depth n <= f1)%nat → (depth n <= f2)%nat →
  climb_loop f1 stop n = climb_loop f2 stop n.
Proof using Type*.
  induction n as [n IH] using up_ind. intros f1 f2 Hf1 Hf2.
  destruct (parentNode n) as [p|] eqn:Ep; [|destruct f1, f2; cbn; rewrite ?Ep; done].
  pose proof (depth_parent _ _ Ep). destruct f1, f2; [lia..|]. cbn. rewrite Ep.
  rewrite (IH p eq_refl f1 f2) by lia. done.
Qed.

Lemma climb_eq stop n : climb stop n =
  if stop n then Some n else match parentNode n with Some p => climb stop p | None => None end.
Proof using Type*.
  unfold climb at 1. destruct (parentNode n) as [p|] eqn:Ep.
  - pose proof (depth_parent _ _ Ep). destruct (depth n) as [|d] eqn:Ed; [lia|]. cbn. rewrite Ep.
    by rewrite (climb_loop_more stop p d (depth p)) by lia.
  - destruct (depth n); cbn; by rewrite ?Ep.
Qed.

Lemma climb_Some stop n c : climb stop n = Some c → c ∈ ancestors n ∧ stop c = true.
Proof using Type*.
  induction n as [n IH] using up_ind. rewrite climb_eq. destruct (stop n) eqn:Es.
  - intros [= <-]. split; [apply ancestors_self|done].
  - destruct (parentNode n) as [p|] eqn:Ep; [|done]. intros [? ?]%(IH p eq_refl).
    eauto using ancestors_parent.
Qed.

Lemma climb_None stop n : climb stop n = None → ∀ a, a ∈ ancestors n → stop a = false.
Proof using Type*.
  induction n as [n IH] using up_ind. rewrite climb_eq. destruct (stop n) eqn:Es; [done|].
  intros Hc a. rewrite elem_ancestors. intros [->|(p & Hp & Ha)]; [done|]. rewrite Hp in Hc. eauto.
Qed.

(** ** DOMUtils.findCommonAncestor *)

(** The outer loop: the first of [ps], its parent, ... that the inner loop
    meets above [b]. *)
Fixpoint common_loop (fuel : nat) b (ps : node) : option node :=
  if bool_decide (climb (λ pe, bool_decide (ps = pe)) b = Some ps) then Some ps
  else match fuel with
       | O => None
       | S f => match parentNode ps with Some p => common_loop f b p | None => None end
       end.

Definition findCommonAncestor a b : option node :=
  match common_loop (depth a) b a with
  | Some ps => Some ps
  | None => documentElementOf a
  end.

Lemma climb_meets b ps : climb (λ pe, bool_decide (ps = pe)) b = Some ps ↔ ps ∈ ancestors b.
Proof using Type*.
  split; [by intros [? _]%climb_Some|]. intros Hin.
  destruct (climb _ b) as [c|] eqn:E; [apply climb_Some in E as [_ Ec]; case_bool_decide; by subst|].
  apply climb_None with (a := ps) in E; [|done]. by rewrite bool_decide_true in E.
Qed.

Lemma common_loop_ok a b f : (depth a <= f)%nat → root_of a = root_of b →
  ∃ r, common_loop f b a = Some r ∧ r ∈ ancestors a ∧ r ∈ ancestors b
       ∧ ∀ x, x ∈ ancestors a → x ∈ ancestors b → x ∈ ancestors r.
Proof using Type*.
  revert f. induction a as [a IH] using up_ind. intros f Hf Hroot. destruct f as [|f]; cbn [common_loop].
  all: case_bool_decide as Hm; rewrite climb_meets in Hm.
  - exists a. eauto using ancestors_self.
  - exfalso. destruct (parentNode a) as [p|] eqn:Ep; [pose proof (depth_parent _ _ Ep); lia|].
    apply Hm. pose proof (root_of_last a) as Hl. rewrite ancestors_eq, Ep in Hl. cbn in Hl.
    injection Hl as Hl. rewrite Hl, Hroot. apply root_of_elem.
  - exists a. eauto using ancestors_self.
  - destruct (parentNode a) as [p|] eqn:Ep.
    + pose proof (depth_parent _ _ Ep).
      destruct (IH p eq_refl f ltac:(lia)) as (r & E & Hra & Hrb & Hlow); [by rewrite <- (root_of_parent _ _ Ep)|].
      exists r. split_and!; eauto using ancestors_parent. intros x Hx Hxb.
      apply elem_ancestors in Hx as [->|(p' & ? & Hx)]; [done|]. simplify_eq. eauto.
    + exfalso. apply Hm. pose proof (root_of_last a) as Hl. rewrite ancestors_eq, Ep in Hl. cbn in Hl.
      injection Hl as Hl. rewrite Hl, Hroot. apply root_of_elem.
Qed.

(** In one tree it is the lowest node above both. *)
Lemma findCommonAncestor_ok a b : root_of a = root_of b →
  ∃ r, findCommonAncestor a b = Some r ∧ r ∈ ancestors a ∧ r ∈ ancestors b
       ∧ ∀ x, x ∈ ancestors a → x ∈ ancestors b → x ∈ ancestors r.
Proof using Type*.
  intros Hroot. destruct (common_loop_ok a b (depth a) (le_n _) Hroot) as (r & E & Hr).
  exists r. unfold findCommonAncestor. by rewrite E.
Qed.

(** ** Among the children *)
Fixpoint position (n : node) (l : list node) : nat :=
  match l with
  | [] => 0
  | x :: l => if decide (x = n) then 0 else S (position n l)
  end.

(** The number of siblings before a node, 0 for a root. *)
Definition child_index n : nat :=
  match parentNode n with Some p => position n (childNodes p) | None => 0 end.

Lemma position_split n l1 l2 : n ∉ l1 → position n (l1 ++ n :: l2) = length l1.
Proof using Type*.
  induction l1 as [|x l1 IH]; cbn; intros Hn; [by rewrite decide_True|].
  rewrite decide_False by set_solver. f_equal. apply IH. set_solver.
Qed.

Lemma kid_split n p : parentNode n = Some p → ∃ l1 l2, childNodes p = l1 ++ n :: l2 ∧ (n ∉ l1) ∧ (n ∉ l2)
  ∧ previousSibling n = last l1 ∧ nextSibling n = head l2 ∧ child_index n = length l1.
Proof using Type*.
  intros Hp. pose proof Hp as Hin. apply child_parent in Hin as (l1 & l2 & E)%list_elem_of_split.
  pose proof (child_NoDup p) as Hnd. rewrite E, NoDup_app, NoDup_cons in Hnd.
  destruct Hnd as (_ & Hdis & Hn2 & _). assert (n ∉ l1) as Hn1 by (intros Hi; apply (Hdis n Hi); left).
  destruct (sibling_split _ _ _ _ E) as [E1 E2]. exists l1, l2.
  split_and!; try done. unfold child_index. by rewrite Hp, E, position_split.
Qed.

Lemma split_parent p l1 n l2 : childNodes p = l1 ++ n :: l2 → parentNode n = Some p.
Proof using Type*. intros E. apply child_parent. rewrite E. set_solver. Qed.

Lemma split_index p l1 n l2 : childNodes p = l1 ++ n :: l2 → child_index n = length l1.
Proof using Type*.
  intros E. pose proof (split_parent _ _ _ _ E) as Hp. pose proof (child_NoDup p) as Hnd.
  rewrite E, NoDup_app in Hnd. destruct Hnd as (_ & Hdis & _). unfold child_index. rewrite Hp, E.
  apply position_split. intros Hi. apply (Hdis n Hi). left.
Qed.

Lemma child_index_inj n n' p : parentNode n = Some p → parentNode n' = Some p →
  child_index n = child_index n' → n = n'.
Proof using Type*.
  intros Hp Hp' E. destruct (kid_split _ _ Hp) as (l1 & l2 & E1 & _ & _ & _ & _ & I1).
  destruct (kid_split _ _ Hp') as (k1 & k2 & E2 & _ & _ & _ & _ & I2).
  rewrite I1, I2 in E. rewrite E1 in E2. apply app_inj_1 in E2 as [_ E2]; [by simplify_eq|done].
Qed.
End Dom.

(** ** A document given by a table

    Row [i] of the table describes the node [i]; children have larger numbers
    than their parent. *)
Record trow := TRow {
  t_type : Z; t_name : jstr; t_value : option jstr; t_attrs : list (jstr * jstr); t_kids : list nat
}.

Section Table.
Context (t : list trow).

Definition t_row (n : nat) : trow := default (TRow 0 [] None [] []) (t !! n).
Definition t_parent (n : nat) : option nat := fst <$> list_find (λ row, n ∈ t_kids row) t.
Definition t_siblings (n : nat) : list nat := match t_parent n with Some p => t_kids (t_row p) | None => [] end.

(** The siblings before, nearest first, and the siblings after. *)
Fixpoint t_around (n : nat) (before l : list nat) : list nat * list nat :=
  match l with
  | [] => ([], [])
  | x :: l => if (x =? n)%nat then (before, l) else t_around n (x :: before) l
  end.

#[local] Instance table_dom : Dom nat := {|
  parentNode := t_parent;
  childNodes n := t_kids (t_row n);
  firstChild n := head (t_kids (t_row n));
  lastChild n := last (t_kids (t_row n));
  nextSibling n := head (t_around n [] (t_siblings n)).2;
  previousSibling n := head (t_around n [] (t_siblings n)).1;
  nodeType n := t_type (t_row n);
  nodeName n := t_name (t_row n);
  nodeValue n := t_value (t_row n);
  attributes n := t_attrs (t_row n);
  documentElementOf n := if (n =? 0)%nat then None else head (t_kids (t_row 0));
  depth n := n;
  height n := (length t - n)%nat
|}.

Fixpoint rows_ok (i : nat) (rows : list trow) : bool :=
  match rows with
  | [] => true
  | row :: rows => forallb (λ c, (i <? c)%nat) (t_kids row)
                   && (negb (t_type row =? 3) || bool_decide (is_Some (t_value row) ∧ t_kids row = [])) && rows_ok (S i) rows
  end.

Definition table_ok : bool := bool_decide (NoDup (concat (t_kids <$> t))) && rows_ok 0 t.

Context (Hok : table_ok = true).

Lemma rows_ok_lt rows i j row c : rows_ok i rows = true → rows !! j = Some row → c ∈ t_kids row → (i + j < c)%nat.
Proof using Type.
  revert i j. induction rows as [|row' rows IH]; intros i j; [done|]. cbn.
  intros [[Hr _]%andb_true_iff Hrs]%andb_true_iff. destruct j as [|j]; cbn.
  - intros [= ->] Hc. rewrite forallb_forall in Hr. apply list_elem_of_In, Hr in Hc.
    apply Nat.ltb_lt in Hc. lia.
  - intros Hj Hc. pose proof (IH (S i) j Hrs Hj Hc). lia.
Qed.

Lemma t_kids_lookup p c : c ∈ t_kids (t_row p) → ∃ row, t !! p = Some row ∧ c ∈ t_kids row ∧ (p < c)%nat.
Proof using Hok.
  unfold t_row. destruct (t !! p) as [row|] eqn:E; cbn; [|by intros ?%elem_of_nil].
  intros Hc. exists row. split_and!; try done. apply andb_true_iff in Hok as [_ Hr].
  exact (rows_ok_lt _ _ _ _ _ Hr E Hc).
Qed.

Lemma concat_NoDup_at (rows : list trow) i j row row' c : NoDup (concat (t_kids <$> rows)) →
  rows !! i = Some row → rows !! j = Some row' → c ∈ t_kids row → c ∈ t_kids row' → i = j.
Proof using Type.
  revert i j. induction rows as [|r0 rows IH]; intros i j; [done|]. cbn. rewrite NoDup_app. intros (_ & Hd & Hnd).
  assert (∀ k r, rows !! k = Some r → c ∈ t_kids r → c ∈ concat (t_kids <$> rows)) as Hin.
  { intros k r Hk Hc. apply list_elem_of_In, in_concat. exists (t_kids r).
    split; apply list_elem_of_In; [|done]. apply list_elem_of_fmap. exists r. split; [done|]. by eapply list_elem_of_lookup_2. }
  destruct i as [|i], j as [|j]; cbn; intros Hi Hj Hc Hc'; simplify_eq; try done.
  - destruct (Hd c Hc). eauto.
  - destruct (Hd c Hc'). eauto.
  - f_equal. eauto.
Qed.

Lemma t_parent_ok c p : t_parent c = Some p ↔ c ∈ t_kids (t_row p).
Proof using Hok.
  unfold t_parent. split.
  - intros ([i row] & E & ->)%fmap_Some. apply list_find_Some in E as (E & Hc & _). unfold t_row. cbn. by rewrite E.
  - intros (row & E & Hc & _)%t_kids_lookup.
    destruct (list_find _ t) as [[i row']|] eqn:Ef.
    + apply list_find_Some in Ef as (Ei & Hc' & _). cbn. f_equal.
      apply andb_true_iff in Hok as [Hnd%bool_decide_eq_true_1 _]. by eapply concat_NoDup_at.
    + apply list_find_None in Ef. rewrite Forall_lookup in Ef. by destruct (Ef p row E).
Qed.

Lemma t_around_ok n l1 l2 before : n ∉ l1 → t_around n before (l1 ++ n :: l2) = (reverse l1 ++ before, l2).
Proof using Type.
  revert before. induction l1 as [|x l1 IH]; intros before Hn; cbn [app t_around]; [by rewrite Nat.eqb_refl|].
  apply not_elem_of_cons in Hn as [? Hn]. destruct (Nat.eqb_spec x n); [congruence|]. rewrite (IH _ Hn).
  by rewrite reverse_cons, <- app_assoc.
Qed.

Lemma t_kids_NoDup p : NoDup (t_kids (t_row p)).
Proof using Hok.
  unfold t_row. destruct (t !! p) as [row|] eqn:E; [|constructor]. cbn.
  apply andb_true_iff in Hok as [Hnd%bool_decide_eq_true_1 _].
  apply list_elem_of_split_length in E as (l1 & l2 & E & _). rewrite E, fmap_app, concat_app in Hnd. cbn in Hnd.
  by apply NoDup_app in Hnd as (_ & _ & [? _]%NoDup_app).
Qed.

Lemma rows_ok_text rows i j row : rows_ok i rows = true → rows !! j = Some row → t_type row = 3 →
  is_Some (t_value row) ∧ t_kids row = [].
Proof using Type.
  revert i j. induction rows as [|row' rows IH]; intros i j; [done|]. cbn.
  intros [[_ Ht]%andb_true_iff Hrs]%andb_true_iff. destruct j as [|j]; cbn; [|by eauto].
  intros [= ->] E. rewrite E in Ht. cbn in Ht. by apply bool_decide_eq_true in Ht.
Qed.

Lemma table_laws : DomLaws nat.
Proof using Hok.
  constructor; cbn.
  - intros n p. symmetry. apply t_parent_ok.
  - apply t_kids_NoDup.
  - done.
  - done.
  - intros p l1 n l2 E. assert (t_parent n = Some p) as Hp by (apply t_parent_ok; rewrite E; set_solver).
    pose proof (t_kids_NoDup p) as Hnd. rewrite E, NoDup_app in Hnd. destruct Hnd as (_ & Hd & _).
    unfold t_siblings. rewrite Hp, E, t_around_ok by (intros Hi; apply (Hd n Hi); left). cbn.
    by rewrite app_nil_r, head_reverse.
  - intros n Hn. unfold t_siblings. by rewrite Hn.
  - intros n p (row & _ & _ & ?)%t_parent_ok%t_kids_lookup. lia.
  - intros n p (row & E & _ & ?)%t_parent_ok%t_kids_lookup. apply lookup_lt_Some in E. lia.
  - intros n. unfold t_row. destruct (t !! n) as [row|] eqn:E; [cbn|done].
    apply andb_true_iff in Hok as [_ Hr]. intros Ht. by eapply rows_ok_text in Ht as [? _].
  - intros n. unfold t_row. destruct (t !! n) as [row|] eqn:E; [cbn|done].
    apply andb_true_iff in Hok as [_ Hr]. intros Ht. by eapply rows_ok_text in Ht as [_ ?].
Qed.
End Table.

Definition t_elem (name : string) (attrs : list (jstr * jstr)) (kids : list nat) : trow := TRow 1 (js name) None attrs kids.
Definition t_text (s : string) : trow := TRow 3 (js "#text") (Some (js s)) [] [].

(** [<html><body><p>ab<b>c</b></p><p>de</p></body></html>], the nodes numbered in document order
    from the document, 0. *)
Definition sample : list trow :=
  [TRow 9 (js "#document") None [] [1%nat]; t_elem "HTML" [] [2%nat]; t_elem "BODY" [] [3; 7]%nat;
   t_elem "P" [] [4; 5]%nat; t_text "ab"; t_elem "B" [] [6%nat]; t_text "c"; t_elem "P" [] [8%nat]; t_text "de"].

Lemma sample_ok : table_ok sample = true.
Proof. by vm_compute. Qed.
