(* ===== verification/TreeWalker.v ===== *)
(** * classes/dom/TreeWalker.js

    Walking the nodes of a document below a root one by one.  [order] is the
    sequence meant: document order for [next], its mirror image for [prev]. *)

From S2P Require Import Prelude Dom.

Section TreeWalker.
Context {node : Type} `{Dom node}.
Implicit Types n p c r : node.

(** ** The walker *)
Section Walk.
Context (root_node : option node).

(** The loop over the parents, from [parent] on. *)
Fixpoint parents_loop (fuel : nat) (sibling_name : node -> option node) (parent : option node) : option node :=
  match parent with
  | None => None
  | Some p =>
      if bool_decide (Some p = root_node) then None
      else match sibling_name p with
           | Some sibling => Some sibling
           | None => match fuel with
                     | O => None
                     | S f => parents_loop f sibling_name (parentNode p)
                     end
           end
  end.

Definition findSibling (o : option node) (start_name sibling_name : node -> option node) (shallow : bool) : option node :=
  match o with
  | None => None
  | Some n =>
      match (if negb shallow then start_name n else None) with
      | Some s => Some s
      | None =>
          if bool_decide (Some n = root_node) then None
          else match sibling_name n with
               | Some sibling => Some sibling
               | None => parents_loop (depth n) sibling_name (parentNode n)
               end
      end
  end.

(** [next(shallow)] and [prev(shallow)]: the node the walker is at, [None] past the end. *)
Definition next (shallow : bool) (o : option node) : option node := findSibling o firstChild nextSibling shallow.
Definition prev (shallow : bool) (o : option node) : option node := findSibling o lastChild previousSibling shallow.
End Walk.

(** ** The sequence meant *)
Fixpoint order_at (kids : node -> list node) (fuel : nat) n : list node :=
  n :: match fuel with
       | O => []
       | S f => concat (order_at kids f <$> kids n)
       end.
Definition order (kids : node -> list node) n : list node := order_at kids (height n) n.

(** Document order, and its mirror image. *)
Definition preorder n : list node := order childNodes n.
Definition mirrored n : list node := order (λ p, reverse (childNodes p)) n.

(** ** One direction *)

(** What the two directions have in common: where the walk enters a node and goes on
    from it, and the order of the children that makes. *)
Class Direction (start sib : node -> option node) (kids : node -> list node) : Prop := {
  dir_kids n c : c ∈ kids n ↔ parentNode c = Some n;
  dir_NoDup n : NoDup (kids n);
  dir_start n : start n = head (kids n);
  dir_sib n l1 c l2 : kids n = l1 ++ c :: l2 → sib c = head l2;
  dir_alone n : parentNode n = None → sib n = None
}.

Context `{!DomLaws node}.

#[export] Instance forwards : Direction firstChild nextSibling childNodes.
Proof using Type*.
  constructor; intros.
  - apply child_parent.
  - apply child_NoDup.
  - apply firstChild_head.
  - by eapply sibling_split.
  - by apply root_alone.
Qed.

#[export] Instance backwards : Direction lastChild previousSibling (λ p, reverse (childNodes p)).
Proof using Type*.
  constructor; intros.
  - rewrite elem_of_reverse. apply child_parent.
  - rewrite reverse_Permutation. apply child_NoDup.
  - rewrite lastChild_last, <- (reverse_involutive (childNodes n)), last_reverse. by rewrite reverse_involutive.
  - match goal with E : reverse _ = _ |- _ => apply (f_equal reverse) in E;
      rewrite reverse_involutive, reverse_app, reverse_cons, <- app_assoc in E;
      destruct (sibling_split _ _ _ _ E) as [-> _] end. by rewrite last_reverse.
  - by apply root_alone.
Qed.

Section Dir.
Context (start sib : node -> option node) (kids : node -> list node) `{!Direction start sib kids}.

Lemma order_at_more n : ∀ f1 f2, (height n <= f1)%nat → (height n <= f2)%nat →
  order_at kids f1 n = order_at kids f2 n.
Proof using Type*.
  induction n as [n IH] using down_ind. intros f1 f2 Hf1 Hf2.
  assert (∀ f, (height n <= S f)%nat → ∀ c, c ∈ kids n → (height c <= f)%nat) as Hk.
  { intros f Hf c Hc%dir_kids. pose proof (height_parent _ _ Hc). lia. }
  assert (∀ c, c ∈ kids n → (0 < height n)%nat) as Hpos.
  { intros c Hc%dir_kids. pose proof (height_parent _ _ Hc). lia. }
  destruct (kids n) as [|c0 cs] eqn:Ek; [destruct f1, f2; cbn; rewrite ?Ek; done|].
  pose proof (Hpos c0 ltac:(left)). destruct f1 as [|f1], f2 as [|f2]; [lia..|].
  cbn. rewrite Ek. f_equal. f_equal. apply list_fmap_ext. intros i c Hc%list_elem_of_lookup_2.
  apply IH; [by apply dir_kids; rewrite Ek| |]; eapply Hk; eauto.
Qed.

Lemma order_eq n : order kids n = n :: concat (order kids <$> kids n).
Proof using Type*.
  unfold order at 1. destruct (kids n) as [|c0 cs] eqn:Ek; [destruct (height n); cbn; by rewrite ?Ek|].
  assert (∀ c, c ∈ kids n → (height c < height n)%nat) as Hh
    by (intros c Hc%dir_kids; by apply height_parent).
  pose proof (Hh c0 ltac:(rewrite Ek; left)). destruct (height n) as [|h] eqn:En; [lia|].
  cbn [order_at]. rewrite <- Ek. f_equal. f_equal. apply list_fmap_ext. intros i c Hc%list_elem_of_lookup_2.
  apply order_at_more; pose proof (Hh c Hc); lia.
Qed.

Lemma elem_order n x : x ∈ order kids n ↔ n ∈ ancestors x.
Proof using Type*.
  revert x. induction n as [n IH] using down_ind. intros x. rewrite order_eq, elem_of_cons, list_elem_of_In, in_concat.
  split.
  - intros [->|(l & Hl & Hx)]; [apply ancestors_self|].
    apply list_elem_of_In, list_elem_of_fmap in Hl as (c & -> & Hc). apply dir_kids in Hc.
    apply list_elem_of_In, (IH c Hc) in Hx. eapply ancestors_trans; [|exact Hx].
    eauto using ancestors_parent, ancestors_self.
  - intros Hx. destruct (decide (x = n)) as [->|Hne]; [by left|right].
    destruct (ancestors_via_child n x) as (c & Hc & Hin); [done..|].
    exists (order kids c). split; [|by apply list_elem_of_In, IH].
    apply list_elem_of_In, list_elem_of_fmap. exists c. split; [done|]. by apply dir_kids.
Qed.

(** ** What the walker does *)
Section Root.
Context (r : node).

(** Where the walk goes on once the tree below [n] is done. *)
Definition after n : option node := parents_loop (Some r) (depth n) sib (Some n).

Lemma parents_loop_more n : ∀ f1 f2, (depth n <= f1)%nat → (depth n <= f2)%nat →
  parents_loop (Some r) f1 sib (Some n) = parents_loop (Some r) f2 sib (Some n).
Proof using Type*.
  induction n as [n IH] using up_ind. intros f1 f2 Hf1 Hf2.
  destruct (parentNode n) as [p|] eqn:Ep; [|destruct f1 as [|[]], f2 as [|[]]; cbn; rewrite ?Ep; done].
  pose proof (depth_parent _ _ Ep). destruct f1 as [|f1], f2 as [|f2]; [lia..|].
  cbn [parents_loop]. rewrite Ep, (IH p eq_refl f1 f2) by lia. done.
Qed.

Lemma after_eq n : after n = if bool_decide (n = r) then None
  else match sib n with
       | Some s => Some s
       | None => match parentNode n with Some p => after p | None => None end
       end.
Proof using Type*.
  unfold after at 1. destruct (parentNode n) as [p|] eqn:Ep.
  - pose proof (depth_parent _ _ Ep). destruct (depth n) as [|d] eqn:Ed; [lia|]. cbn [parents_loop]. rewrite Ep.
    rewrite (parents_loop_more p d (depth p)) by lia.
    rewrite (bool_decide_ext (Some n = Some r) (n = r)) by naive_solver. done.
  - destruct (depth n) as [|[]]; cbn; rewrite ?Ep;
      rewrite (bool_decide_ext (Some n = Some r) (n = r)) by naive_solver; done.
Qed.

Lemma findSibling_after n shallow : findSibling (Some r) (Some n) start sib shallow =
  if shallow then after n else match head (kids n) with Some c => Some c | None => after n end.
Proof using Type*.
  unfold findSibling. rewrite <- (dir_start (start := start)).
  assert ((if bool_decide (Some n = Some r) then None
           else match sib n with Some s => Some s | None => parents_loop (Some r) (depth n) sib (parentNode n) end)
          = after n) as E.
  { rewrite after_eq, (bool_decide_ext (Some n = Some r) (n = r)) by naive_solver.
    destruct (bool_decide _); [done|]. destruct (sib n); [done|].
    destruct (parentNode n) as [p|] eqn:Ep; [|by destruct (depth n)].
    pose proof (depth_parent _ _ Ep). apply parents_loop_more; lia. }
  destruct shallow; cbn [negb]; [done|]. by destruct (start n).
Qed.

Lemma after_kid n k1 c k2 : kids n = k1 ++ c :: k2 → r ∈ ancestors n →
  after c = match head k2 with Some s => Some s | None => after n end.
Proof using Type*.
  intros Ek Hr. assert (parentNode c = Some n) as Hp by (apply dir_kids; rewrite Ek; set_solver).
  rewrite after_eq, bool_decide_false.
  - by rewrite (dir_sib _ _ _ _ Ek), Hp.
  - intros ->. apply ancestors_depth in Hr. pose proof (depth_parent _ _ Hp). destruct Hr; subst; lia.
Qed.

(** The successor of a node in the sequence of a subtree is what [next] finds. *)
Lemma next_in_order n l1 x l2 : r ∈ ancestors n → order kids n = l1 ++ x :: l2 →
  findSibling (Some r) (Some x) start sib false = match head l2 with Some y => Some y | None => after n end.
Proof using Type*.
  revert l1 x l2. induction n as [n IH] using down_ind. intros l1 x l2 Hr. rewrite order_eq.
  destruct l1 as [|y l1]; cbn [app]; intros [= <- E].
  - rewrite findSibling_after, <- E. destruct (kids n) as [|c cs]; cbn; [done|]. rewrite order_eq. done.
  - assert (∀ k1 k2, kids n = k1 ++ k2 → concat (order kids <$> k2) = l1 ++ x :: l2 →
      findSibling (Some r) (Some x) start sib false = match head l2 with Some y => Some y | None => after n end) as Hgo.
    2: by apply (Hgo [] (kids n)).
    clear E. intros k1 k2. revert k1 l1. induction k2 as [|c k2 IHk]; intros k1 l1 Ek E; [by destruct l1|].
    assert (parentNode c = Some n) as Hp by (apply dir_kids; rewrite Ek; set_solver).
    cbn in E. apply app_eq_app in E as (l & [[E1 E2]|[E1 E2]]).
    + destruct l as [|z l]; cbn in E2.
      * apply (IHk (k1 ++ [c]) []); [by rewrite Ek, <- app_assoc|]. by rewrite E2.
      * injection E2 as -> E2.
        rewrite (IH c Hp l1 z l) by eauto using ancestors_parent. rewrite E2.
        destruct l as [|w l]; cbn; [|done]. rewrite (after_kid n k1 c k2) by done.
        destruct k2 as [|d k2]; [done|]. cbn. rewrite order_eq. done.
    + apply (IHk (k1 ++ [c]) l); [by rewrite Ek, <- app_assoc|done].
Qed.

Lemma walk_from i x : order kids r !! i = Some x →
  findSibling (Some r) (Some x) start sib false = order kids r !! S i.
Proof using Type*.
  intros Hi. apply list_elem_of_split_length in Hi as (l1 & l2 & E & Hlen).
  rewrite (next_in_order r l1 x l2) by (done || apply ancestors_self). rewrite E, lookup_app_r by lia.
  replace (S i - length l1)%nat with 1%nat by lia. cbn. destruct l2; [|done]. cbn.
  by rewrite after_eq, bool_decide_true.
Qed.

Lemma walk_iter i x k : order kids r !! i = Some x →
  Nat.iter k (λ o, findSibling (Some r) o start sib false) (Some x) = order kids r !! (i + k)%nat.
Proof using Type*.
  intros Hi. induction k as [|k IH]; [by rewrite Nat.add_0_r|]. rewrite Nat.iter_succ, IH, Nat.add_succ_r.
  destruct (order kids r !! (i + k)%nat) eqn:E; [by apply walk_from|]. cbn.
  symmetry. apply lookup_ge_None. apply lookup_ge_None in E. lia.
Qed.
End Root.
End Dir.

Lemma order_NoDup_kids kids start sib `{!Direction start sib kids} n : NoDup (order kids n).
Proof using Type*.
  induction n as [n IH] using down_ind. rewrite (order_eq start sib kids). apply NoDup_cons. split.
  - intros (l & Hl & Hx)%list_elem_of_In%in_concat.
    apply list_elem_of_In, list_elem_of_fmap in Hl as (c & -> & Hc). apply dir_kids in Hc.
    apply list_elem_of_In in Hx. apply (elem_order start sib kids), ancestors_depth in Hx. pose proof (depth_parent _ _ Hc).
    destruct Hx; subst; lia.
  - pose proof (dir_NoDup n) as Hnd. assert (∀ c, c ∈ kids n → parentNode c = Some n) as Hk by (intros c; apply dir_kids).
    revert Hnd Hk. induction (kids n) as [|c cs IHc]; cbn; intros Hnd Hk; [constructor|].
    apply NoDup_cons in Hnd as [Hc Hnd]. apply NoDup_app. split_and!.
    + apply IH, Hk. left.
    + intros x Hx Hx'. apply (elem_order start sib kids) in Hx.
      apply list_elem_of_In, in_concat in Hx' as (l & Hl & Hx').
      apply list_elem_of_In, list_elem_of_fmap in Hl as (c' & -> & Hc').
      apply list_elem_of_In in Hx'. apply (elem_order start sib kids) in Hx'.
      apply Hc. rewrite (child_of_ancestor_unique n c c' x); try done; apply Hk; by constructor.
    + apply IHc; [done|]. intros c' Hc'. apply Hk. by right.
Qed.

(** ** The sequences *)
Fixpoint postorder_at (fuel : nat) n : list node :=
  match fuel with
  | O => []
  | S f => concat (postorder_at f <$> childNodes n)
  end ++ [n].
(** The nodes in the order in which they end in the text of the document. *)
Definition postorder n : list node := postorder_at (height n) n.

Lemma reverse_concat {A} (ls : list (list A)) : reverse (concat ls) = concat (reverse <$> reverse ls).
Proof using Type.
  induction ls as [|l ls IH]; [done|]. cbn [concat]. rewrite reverse_app, IH, reverse_cons, fmap_app, concat_app.
  cbn. by rewrite app_nil_r.
Qed.

Lemma mirrored_postorder n : mirrored n = reverse (postorder n).
Proof using Type.
  unfold mirrored, order, postorder. generalize (height n) as f. intros f. revert n.
  induction f as [|f IH]; intros n; [done|]. cbn [order_at postorder_at].
  rewrite reverse_app, reverse_concat. cbn. f_equal. f_equal. rewrite <- fmap_reverse, <- list_fmap_compose.
  apply list_fmap_ext. intros ? c _. apply IH.
Qed.

Lemma preorder_eq n : preorder n = n :: concat (preorder <$> childNodes n).
Proof using Type*. apply (order_eq firstChild nextSibling childNodes). Qed.

Lemma elem_preorder n x : x ∈ preorder n ↔ n ∈ ancestors x.
Proof using Type*. apply (elem_order firstChild nextSibling childNodes). Qed.

Lemma preorder_once n : NoDup (preorder n).
Proof using Type*. apply (order_NoDup_kids childNodes firstChild nextSibling). Qed.

(** [next] from the [i]-th node of the sequence goes to the one after it. *)
Lemma next_ok r i x : preorder r !! i = Some x → next (Some r) false (Some x) = preorder r !! S i.
Proof using Type*. apply (walk_from firstChild nextSibling childNodes). Qed.

(** C16: Below a root, [next] called k times moves k places on in document order and to nothing past
    the end, [prev] k places back in the order in which the nodes end; each sequence holds every node of the tree
    once. *)
Theorem walk_ok r x i j k : preorder r !! i = Some x → postorder r !! j = Some x →
  Nat.iter k (next (Some r) false) (Some x) = preorder r !! (i + k)%nat
  ∧ Nat.iter k (prev (Some r) false) (Some x) = (if (k <=? j)%nat then postorder r !! (j - k)%nat else None)
  ∧ NoDup (preorder r) ∧ NoDup (postorder r)
  ∧ ∀ y, (y ∈ preorder r ↔ r ∈ ancestors y) ∧ (y ∈ postorder r ↔ r ∈ ancestors y).
Proof using Type*.
  intros Hi Hj.
  assert (NoDup (mirrored r)) as Hm by apply (order_NoDup_kids (λ p, reverse (childNodes p)) lastChild previousSibling).
  assert (∀ y, y ∈ mirrored r ↔ r ∈ ancestors y) as He by apply (elem_order lastChild previousSibling (λ p, reverse (childNodes p))).
  assert (∀ y, y ∈ postorder r ↔ r ∈ ancestors y) as Hp
    by (intros y; rewrite <- He, mirrored_postorder, elem_of_reverse; done).
  pose proof (lookup_lt_Some _ _ _ Hj) as Hlt.
  split_and!; [by apply (walk_iter firstChild nextSibling childNodes)| |apply preorder_once| |].
  - assert (mirrored r !! (length (postorder r) - S j)%nat = Some x) as Hx.
    { rewrite mirrored_postorder, reverse_lookup by lia. rewrite <- Hj. f_equal. lia. }
    unfold prev. rewrite (walk_iter lastChild previousSibling (λ p, reverse (childNodes p)) r _ x k Hx).
    destruct (Nat.leb_spec k j).
    + fold (mirrored r). rewrite mirrored_postorder, reverse_lookup by lia. f_equal. lia.
    + apply lookup_ge_None. fold (mirrored r). rewrite mirrored_postorder, length_reverse. lia.
  - rewrite mirrored_postorder, reverse_Permutation in Hm. done.
  - intros y. split; [apply elem_preorder|apply Hp].
Qed.
End TreeWalker.

(** A walk of the sample from its body's first paragraph. *)
Lemma walk_ok_witness :
  let d := table_dom sample in
  Nat.iter 3 (next (Some 2%nat) false) (Some 3%nat) = Some 6%nat
  ∧ Nat.iter 2 (prev (Some 2%nat) false) (Some 3%nat) = Some 6%nat
  ∧ preorder 2%nat !! 4%nat = Some 6%nat.
Proof.
  pose proof (table_laws sample sample_ok) as L.
  destruct (@walk_ok nat (table_dom sample) L 2%nat 3%nat 1 3 3) as (H1 & _); [by vm_compute..|].
  destruct (@walk_ok nat (table_dom sample) L 2%nat 3%nat 1 3 2) as (_ & H2 & _); [by vm_compute..|].
  split_and!; [exact H1| |by vm_compute]. etransitivity; [exact H2|]. by vm_compute.
Defined.
