(* ===== verification/DOMUtils.v ===== *)
(** * classes/dom/DOMUtils.js, the methods that read the document

    Names of nodes against simple selectors, parents and siblings that match, the index
    of a node, whether an element is empty.  The selector engine is a parameter. *)

From S2P Require Import Prelude Dom TreeWalker.

(** [simpleSelectorRe.test(selector)], the expression [/^([a-z0-9],?)+$/i]. *)
Fixpoint simple_rest (s : jstr) : bool :=
  match s with
  | [] => true
  | c :: s' =>
      if is_digit c || between 97 122 c || between 65 90 c then simple_rest s'
      else match s' with
           | d :: s'' => (c =? 44) && (is_digit d || between 97 122 d || between 65 90 d) && simple_rest s''
           | [] => c =? 44
           end
  end.
Definition simpleSelectorRe (s : jstr) : bool :=
  match s with
  | c :: s' => (is_digit c || between 97 122 c || between 65 90 c) && simple_rest s'
  | [] => false
  end.

(** [whiteSpaceRegExp.test(s)] *)
Definition whiteSpaceRegExp (s : jstr) : bool :=
  forallb (λ c, (c =? 32) || (c =? 9) || (c =? 13) || (c =? 10)) s.

Section DOMUtils.
Context {node : Type} `{Dom node}.
Implicit Types n p c : node.

(** The instance: the map of block elements, the non-empty elements of its
    schema ([None]: it has no schema), its root element, and Sizzle. *)
Context (blockElementsMap : Obj.t unit) (nonEmptyElements : option (Obj.t unit))
  (root_element : node) (sizzle_matches : jstr -> node -> bool).

Definition isBlock (o : option node) : bool :=
  match o with
  | None => false
  | Some n => (nodeType n =? 1) && Obj.has (nodeName n) blockElementsMap
  end.

(** ** Selectors *)
Inductive selector := SelNone | SelString (s : jstr) | SelFun (f : node -> bool).

(** [is(elm, selector)] for one node. *)
Definition is_ n (s : jstr) : bool :=
  if str_eqb s (js "*") then nodeType n =? 1
  else if simpleSelectorRe s then bool_decide (to_lower (nodeName n) ∈ split_unit 44 (to_lower s))
  else if negb (nodeType n =? 0) && negb (nodeType n =? 1) then false
  else sizzle_matches s n.

Definition selector_fun (sel : selector) : node -> bool :=
  match sel with
  | SelNone => λ _, true
  | SelString s => if str_eqb s (js "*") then λ n, nodeType n =? 1 else λ n, is_ n s
  | SelFun f => f
  end.

(** ** getParents, getParent *)
Definition default_root (root : option node) : option node :=
  match root with
  | Some r => Some r
  | None => if str_eqb (nodeName root_element) (js "BODY") then None else parentNode root_element
  end.

Definition parents_stop (root : option node) n : bool :=
  bool_decide (Some n = root) || (nodeType n =? 0) || (nodeType n =? 9).

(** The loop of [getParents]: all that match (collect), or the first. *)
Fixpoint getParents_loop (fuel : nat) (sel : node -> bool) (root : option node) (collect : bool) n : list node :=
  if parents_stop root n then []
  else
    let rest := match fuel with
                | O => []
                | S f => match parentNode n with
                         | Some p => getParents_loop f sel root collect p
                         | None => []
                         end
                end in
    if sel n then (if collect then n :: rest else [n]) else rest.

Definition getParents n (sel : selector) (root : option node) : list node :=
  getParents_loop (depth n) (selector_fun sel) (default_root root) true n.
Definition getParent n (sel : selector) (root : option node) : option node :=
  head (getParents_loop (depth n) (selector_fun sel) (default_root root) false n).

(** ** getNext, getPrev *)

(** The siblings of a node are not more than the children of its parent. *)
Definition sibling_fuel n : nat := match parentNode n with Some p => length (childNodes p) | None => 0 end.

Fixpoint findSib_loop (fuel : nat) (name : node -> option node) (func : node -> bool) (o : option node) : option node :=
  match o with
  | None => None
  | Some n => if func n then Some n
              else match fuel with O => None | S f => findSib_loop f name func (name n) end
  end.
Definition _findSib (name : node -> option node) n (func : node -> bool) : option node :=
  findSib_loop (sibling_fuel n) name func (name n).
Definition getNext n (func : node -> bool) : option node := _findSib nextSibling n func.
Definition getPrev n (func : node -> bool) : option node := _findSib previousSibling n func.

(** ** nodeIndex *)

(** The loop over the previous siblings; [None]: a text node without a value
    has no length. *)
Fixpoint nodeIndex_loop (fuel : nat) (normalized : bool) (lastNodeType idx : Z) (o : option node) : option Z :=
  match o with
  | None => Some idx
  | Some n =>
      match fuel with
      | O => None
      | S f =>
          if normalized && (nodeType n =? 3) then
            if nodeType n =? lastNodeType then nodeIndex_loop f normalized lastNodeType idx (previousSibling n)
            else match nodeValue n with
                 | None => None
                 | Some [] => nodeIndex_loop f normalized lastNodeType idx (previousSibling n)
                 | Some _ => nodeIndex_loop f normalized (nodeType n) (idx + 1) (previousSibling n)
                 end
          else nodeIndex_loop f normalized (nodeType n) (idx + 1) (previousSibling n)
      end
  end.

Definition nodeIndex n (normalized : bool) : option Z :=
  nodeIndex_loop (sibling_fuel n) normalized (nodeType n) 0 (previousSibling n).

(** ** isEmpty *)

(** What one turn of the loop makes of a node: [None] returns false, [Some b] goes on,
    counting a line break when [b]. *)
Definition isEmpty_visit (elements : option (Obj.t unit)) n : option bool :=
  let rest := if (nodeType n =? 8)
                 || ((nodeType n =? 3) && negb (match nodeValue n with Some v => whiteSpaceRegExp v | None => false end))
              then None else Some false in
  if nodeType n =? 1 then
    if match Obj.get (js "data-mce-bogus") (attributes n) with Some v => truthy v | None => false end then Some false
    else
      let name := to_lower (nodeName n) in
      if match elements with Some es => Obj.has name es | None => false end then
        if str_eqb name (js "br") then Some true else None
      else if existsb (λ a, str_eqb a.1 (js "name") || str_eqb a.1 (js "data-mce-bookmark")) (attributes n) then None
      else rest
  else rest.

(** The [do ... while ((node = walker.next()))] loop; [None]: out of fuel. *)
Fixpoint isEmpty_loop (fuel : nat) (elements : option (Obj.t unit)) (root : option node) (brCount : Z) n : option bool :=
  match fuel with
  | O => None
  | S f =>
      match isEmpty_visit elements n with
      | None => Some false
      | Some br =>
          let brCount := if br : bool then brCount + 1 else brCount in
          match next root false (Some n) with
          | Some m => isEmpty_loop f elements root brCount m
          | None => Some (brCount <=? 1)
          end
      end
  end.

(** The condition is [(elements || self.schema) ? ...]: the argument [elements] only
    decides whether the schema is asked; [None]: there is none to ask. *)
Definition isEmpty n (elements : option (Obj.t unit)) : option bool :=
  match firstChild n with
  | None => Some true
  | Some c =>
      match elements, nonEmptyElements with
      | Some _, None => None
      | None, None => isEmpty_loop (length (preorder n)) None (parentNode c) 0 c
      | _, Some es => isEmpty_loop (length (preorder n)) (Some es) (parentNode c) 0 c
      end
  end.
(** ** What they return *)
Context `{!DomLaws node}.

(** The elements before the first that stops. *)
Fixpoint until {A} (stop : A -> bool) (l : list A) : list A :=
  match l with
  | [] => []
  | x :: l => if stop x then [] else x :: until stop l
  end.

(** All the ancestors below the root that match, nearest first; one alone is the
    first of them. *)
Lemma getParents_loop_ok sel root n : ∀ f, (depth n <= f)%nat →
  let l := filter (λ m, sel m = true) (until (parents_stop root) (ancestors n)) in
  getParents_loop f sel root true n = l ∧ head (getParents_loop f sel root false n) = head l.
Proof using Type DomLaws0.
  induction n as [n IH] using up_ind. intros f Hf. rewrite ancestors_eq. cbn [until].
  destruct f as [|f]; cbn [getParents_loop]; destruct (parents_stop root n); try by split.
  all: rewrite filter_cons.
  - destruct (parentNode n) as [p|] eqn:Ep; [pose proof (depth_parent _ _ Ep); lia|].
    destruct (sel n) eqn:Es; [rewrite decide_True by done|rewrite decide_False by done]; by split.
  - destruct (parentNode n) as [p|] eqn:Ep.
    + pose proof (depth_parent _ _ Ep). destruct (IH p eq_refl f ltac:(lia)) as [E1 E2].
      destruct (sel n) eqn:Es; [rewrite decide_True by done|rewrite decide_False by done];
        rewrite ?E1; split; try done; by rewrite E2.
    + destruct (sel n) eqn:Es; [rewrite decide_True by done|rewrite decide_False by done]; by split.
Qed.

Lemma getParents_ok n sel root :
  getParents n sel root = filter (λ m, selector_fun sel m = true) (until (parents_stop (default_root root)) (ancestors n))
  ∧ getParent n sel root = head (getParents n sel root).
Proof using Type DomLaws0.
  destruct (getParents_loop_ok (selector_fun sel) (default_root root) n (depth n) (le_n _)) as [E1 E2].
  unfold getParents, getParent. by rewrite E2, E1.
Qed.

(** *** The index of a node *)

(** The children once adjacent texts are joined and empty ones are gone. *)
Inductive piece := Text (s : jstr) | Other (n : node).
Definition text_of n : jstr := default [] (nodeValue n).
Fixpoint normalized (l : list node) : list piece :=
  match l with
  | [] => []
  | n :: l =>
      if nodeType n =? 3 then
        match normalized l with
        | Text s :: r => Text (text_of n ++ s) :: r
        | r => match text_of n with [] => r | v => Text v :: r end
        end
      else Other n :: normalized l
  end.

Lemma normalized_other l1 x l2 : nodeType x ≠ 3 → normalized (l1 ++ x :: l2) = normalized l1 ++ Other x :: normalized l2.
Proof using Type.
  intros Hx. induction l1 as [|y l1 IH]; cbn; [by destruct (Z.eqb_spec (nodeType x) 3)|].
  rewrite IH. destruct (nodeType y =? 3); [|done].
  by destruct (normalized l1) as [|[]]; cbn; [destruct (text_of y)|..|destruct (text_of y)].
Qed.

Lemma normalized_texts ts x l2 : Forall (λ y, nodeType y = 3) ts → nodeType x = 3 → text_of x ≠ [] →
  ∃ u w post, normalized (ts ++ x :: l2) = Text (u ++ text_of x ++ w) :: post ∧ (l2 = [] → post = []).
Proof using Type.
  intros Hts Hx Hv. induction Hts as [|y ts Hy _ (u & w & post & E & Ep)]; cbn.
  - destruct (Z.eqb_spec (nodeType x) 3); [|done]. destruct (normalized l2) as [|[s|m] r] eqn:E.
    + exists [], [], []. rewrite app_nil_r. by destruct (text_of x).
    + exists [], s, r. split; [done|]. intros ->. done.
    + exists [], [], (Other m :: r). rewrite app_nil_r. split; [by destruct (text_of x)|]. intros ->. done.
  - destruct (Z.eqb_spec (nodeType y) 3); [|done]. rewrite E. exists (text_of y ++ u), w, post.
    by rewrite <- app_assoc.
Qed.

Lemma normalized_snoc_empty l x : nodeType x = 3 → text_of x = [] → normalized (l ++ [x]) = normalized l.
Proof using Type.
  intros Hx Hv. induction l as [|y l IH]; cbn; [|by rewrite IH].
  destruct (Z.eqb_spec (nodeType x) 3); [|done]. by rewrite Hv.
Qed.

(** The loop on the siblings before, nearest first. *)
Fixpoint back (last : Z) (rl : list node) : nat :=
  match rl with
  | [] => 0
  | x :: rl =>
      if nodeType x =? 3 then
        if (nodeType x =? last) || str_eqb (text_of x) [] then back last rl else S (back 3 rl)
      else S (back (nodeType x) rl)
  end.

Definition ends_other (k : list node) : Prop := k = [] ∨ ∃ k' x, k = k' ++ [x] ∧ nodeType x ≠ 3.

Lemma normalized_ends_other k l : ends_other k → normalized (k ++ l) = normalized k ++ normalized l.
Proof using Type.
  intros [->|(k' & x & -> & Hx)]; [done|]. rewrite <- app_assoc. cbn [app].
  rewrite !normalized_other by done. by rewrite <- app_assoc.
Qed.

Lemma back_ok rl :
  (∀ t, t ≠ 3 → back t rl = length (normalized (reverse rl)))
  ∧ ∃ k ts, reverse rl = k ++ ts ∧ Forall (λ y, nodeType y = 3) ts ∧ ends_other k ∧ back 3 rl = length (normalized k).
Proof using Type.
  induction rl as [|x rl [IHa (k & ts & Ek & Hts & Hk & Eb)]]; [split; [done|]; exists [], []; repeat split; [constructor|by left]|].
  cbn [back]. rewrite reverse_cons. destruct (Z.eqb_spec (nodeType x) 3) as [Hx|Hx].
  - split.
    + intros t Ht. destruct (Z.eqb_spec (nodeType x) t); [congruence|]. cbn [orb]. unfold str_eqb.
      case_bool_decide as Hv; [by rewrite normalized_snoc_empty, IHa|].
      rewrite Eb, Ek, <- app_assoc, normalized_ends_other, length_app by done.
      destruct (normalized_texts ts x [] Hts Hx Hv) as (u & w & post & -> & Hp). rewrite Hp by done. cbn. lia.
    + cbn [orb]. exists k, (ts ++ [x]). rewrite Ek, <- app_assoc. repeat split; try done.
      apply Forall_app. split; [done|]. by constructor.
  - assert (S (back (nodeType x) rl) = length (normalized (reverse rl ++ [x]))) as E.
    { rewrite IHa, normalized_other, length_app by done. cbn. lia. }
    split; [by intros t _|]. exists (reverse rl ++ [x]), []. rewrite app_nil_r.
    repeat split; [constructor|right; eauto|done].
Qed.

Lemma nodeIndex_loop_back nm p l1 l2 x0 : childNodes p = l1 ++ x0 :: l2 → ∀ f t idx, (length l1 <= f)%nat →
  nodeIndex_loop f nm t idx (previousSibling x0)
  = Some (idx + Z.of_nat (if nm : bool then back t (reverse l1) else length l1)).
Proof using Type DomLaws0.
  revert x0 l2. induction l1 as [|x l1 IH] using rev_ind; intros x0 l2 E f t idx Hf;
    destruct (sibling_split _ _ _ _ E) as [-> _].
  - destruct f, nm; cbn; f_equal; lia.
  - rewrite last_snoc. rewrite length_app in *. cbn [length] in *. destruct f as [|f]; [lia|].
    rewrite <- app_assoc in E. cbn [app] in E. pose proof (λ t idx, IH x _ E f t idx ltac:(lia)) as IH'.
    cbn [nodeIndex_loop]. rewrite reverse_app. cbn [reverse rev_append app back].
    change (reverse [x]) with [x]. cbn [app back]. destruct nm; cbn [andb].
    + unfold text_of. destruct (Z.eqb_spec (nodeType x) 3) as [Hx|Hx]; [|rewrite IH'; f_equal; lia].
      destruct (text_value x Hx) as [v Hv]. rewrite Hv. destruct (nodeType x =? t); [by rewrite IH'|].
      cbn [orb default]. destruct v as [|c v]; rewrite IH'; cbn; [done|]. rewrite Hx.
      change (str_eqb (c :: v) []) with false. f_equal. lia.
    + rewrite IH'. f_equal. lia.
Qed.

Lemma nodeIndex_plain n : nodeIndex n false = Some (Z.of_nat (child_index n)).
Proof using Type DomLaws0.
  unfold nodeIndex, sibling_fuel. destruct (parentNode n) as [p|] eqn:Ep.
  - destruct (kid_split _ _ Ep) as (l1 & l2 & E & _ & _ & _ & _ & ->).
    rewrite (nodeIndex_loop_back false p l1 l2) by (rewrite ?E, ?length_app; done || lia). f_equal.
  - destruct (root_alone n Ep) as [-> _]. unfold child_index. by rewrite Ep.
Qed.

(** [nodeIndex] returns the place of a node among the children of its parent; with [normalized], the
    place it has once adjacent texts are joined and empty ones removed (a text: of the
    joined text that holds it). *)
Theorem nodeIndex_ok n p : parentNode n = Some p →
  nodeIndex n false = Some (Z.of_nat (child_index n)) ∧ childNodes p !! child_index n = Some n
  ∧ (nodeType n ≠ 3 ∨ text_of n ≠ [] →
     ∃ pre item post, normalized (childNodes p) = pre ++ item :: post
       ∧ nodeIndex n true = Some (Z.of_nat (length pre))
       ∧ match item with
         | Other m => m = n
         | Text s => nodeType n = 3 ∧ ∃ u w, s = u ++ text_of n ++ w
         end).
Proof using Type DomLaws0.
  intros Ep. split; [apply nodeIndex_plain|]. destruct (kid_split _ _ Ep) as (l1 & l2 & E & _ & _ & _ & _ & Ei).
  split; [by rewrite Ei, E, list_lookup_middle|]. intros Hn.
  unfold nodeIndex, sibling_fuel. rewrite Ep, (nodeIndex_loop_back true p l1 l2) by (rewrite ?E, ?length_app; done || lia).
  rewrite E. destruct (back_ok (reverse l1)) as [Ha (k & ts & Ek & Hts & Hk & Eb)]. rewrite reverse_involutive in *.
  destruct (Z.eqb_spec (nodeType n) 3) as [Ht|Ht].
  - destruct Hn as [|Hv]; [done|]. rewrite Ht, Eb, Ek, <- app_assoc, normalized_ends_other by done.
    destruct (normalized_texts ts n l2 Hts Ht Hv) as (u & w & post & -> & _).
    exists (normalized k), (Text (u ++ text_of n ++ w)), post. eauto 8.
  - exists (normalized l1), (Other n), (normalized l2). rewrite Ha, normalized_other by done. auto.
Qed.

(** *** Emptiness *)

(** Nothing in the list is content, and at most [1 - br] line breaks are in it. *)
Definition no_content (es : option (Obj.t unit)) (br : Z) (l : list node) : bool :=
  forallb (λ x, bool_decide (isEmpty_visit es x ≠ None)) l
  && (br + Z.of_nat (length (filter (λ x, isEmpty_visit es x = Some true) l)) <=? 1).

Lemma emptiness_loop_ok es n : ∀ f i x br, preorder n !! i = Some x → (length (preorder n) <= f + i)%nat →
  isEmpty_loop f es (Some n) br x = Some (no_content es br (drop i (preorder n))).
Proof using Type DomLaws0.
  induction f as [|f IH]; intros i x br Hi Hf; [apply lookup_lt_Some in Hi; lia|].
  cbn [isEmpty_loop]. rewrite (drop_S _ x i Hi). unfold no_content. cbn [forallb]. rewrite filter_cons.
  destruct (isEmpty_visit es x) as [b|] eqn:Ev; [|by rewrite bool_decide_false by (intros Hn; by apply Hn)].
  rewrite bool_decide_true by done. cbn [andb]. rewrite (next_ok n i x Hi).
  destruct (preorder n !! S i) as [y|] eqn:Ey.
  - rewrite (IH (S i) y) by (done || lia). unfold no_content. f_equal. f_equal. f_equal.
    destruct b; [rewrite decide_True by done; cbn; lia|by rewrite decide_False by done].
  - apply lookup_ge_None in Ey. rewrite drop_ge by lia. cbn.
    destruct b; [rewrite decide_True by done; cbn; f_equal; f_equal; lia|].
    rewrite decide_False by done. cbn. f_equal. f_equal. lia.
Qed.

Lemma isEmpty_counts n elements : firstChild n ≠ None →
  isEmpty n elements =
    match nonEmptyElements, elements with
    | None, Some _ => None
    | es, _ => Some (no_content es 0 (tail (preorder n)))
    end.
Proof using Type DomLaws0.
  intros Hc. unfold isEmpty. destruct (firstChild n) as [c|] eqn:Ec; [|done].
  assert (parentNode c = Some n) as Hp.
  { rewrite firstChild_head in Ec. apply child_parent. destruct (childNodes n); [done|]. simplify_eq/=. left. }
  assert (preorder n !! 1%nat = Some c) as H1.
  { rewrite preorder_eq. rewrite firstChild_head in Ec. destruct (childNodes n); [done|]. simplify_eq/=.
    by rewrite preorder_eq. }
  assert (∀ es, isEmpty_loop (length (preorder n)) es (Some n) 0 c = Some (no_content es 0 (tail (preorder n)))) as Hl.
  { intros es. rewrite (emptiness_loop_ok es n _ 1 c 0 H1) by lia. by destruct (preorder n). }
  rewrite Hp. destruct elements, nonEmptyElements; rewrite ?Hl; done.
Qed.

(** C18: [isEmpty] says whether no node below holds content (an element of the schema's non-empty
    ones, a named or bookmark element, a comment, a text that is not white space) and at most one is a line break;
    the walk over them ends.  An [elements] argument without a schema makes it throw. *)
Theorem isEmpty_ok n elements : firstChild n ≠ None →
  isEmpty n elements =
    match nonEmptyElements, elements with
    | None, Some _ => None
    | es, _ => Some (no_content es 0 (tail (preorder n)))
    end.
Proof using Type DomLaws0. apply isEmpty_counts. Qed.
End DOMUtils.

(** The bold element of the sample is the second child of its paragraph. *)
Lemma nodeIndex_ok_witness :
  @nodeIndex nat (table_dom sample) 5%nat false = Some 1 ∧ @childNodes nat (table_dom sample) 3%nat !! 1%nat = Some 5%nat.
Proof.
  pose proof (table_laws sample sample_ok) as L.
  destruct (@nodeIndex_ok nat (table_dom sample) L 5%nat 3%nat) as (H1 & H2 & _); [by vm_compute|].
  split; [exact H1|exact H2].
Defined.

(** A paragraph with a line break, blanks and a bogus element is empty. *)
Definition blanks : list trow :=
  [t_elem "P" [] [1; 2; 3]%nat; t_text " "; t_elem "BR" [] []; t_elem "SPAN" [(js "data-mce-bogus", js "1")] []].

Lemma isEmpty_ok_witness :
  @isEmpty nat (table_dom blanks) (Some [(js "br", ()); (js "img", ())]) 0%nat None = Some true
  ∧ @isEmpty nat (table_dom blanks) None 0%nat (Some [(js "img", ())]) = None.
Proof.
  pose proof (table_laws blanks ltac:(by vm_compute)) as L. split.
  - etransitivity; [apply (@isEmpty_ok nat (table_dom blanks) _ L); by vm_compute|]. by vm_compute.
  - exact (@isEmpty_ok nat (table_dom blanks) None L 0%nat (Some [(js "img", ())]) ltac:(by vm_compute)).
Defined.

(** The elements the caller names are not looked at: the schema's are. *)
Theorem isEmpty_ignores_elements {node} `{DomLaws node} (es : Obj.t unit) (n : node) (elements : Obj.t unit) :
  firstChild n ≠ None → isEmpty (Some es) n (Some elements) = isEmpty (Some es) n None.
Proof. intros Hc. rewrite !isEmpty_counts by done. done. Qed.
