(* ===== verification/Range.v ===== *)
(** * classes/dom/Range.js, the boundary points

    A range is a pair of positions in the document, a container and an offset in
    each; setting one end moves the other so that the start never comes after the
    end.  [key] maps a position to a list of numbers whose lexicographic order is
    the order of the positions in the text of the document. *)

From S2P Require Import Prelude Dom TreeWalker DOMUtils.

Record range (node : Type) := MkRange {
  startContainer : node;
  startOffset : Z;
  endContainer : node;
  endOffset : Z;
  collapsed : bool;
  commonAncestorContainer : option node
}.
Arguments MkRange {node}.
Arguments startContainer {node}.
Arguments startOffset {node}.
Arguments endContainer {node}.
Arguments endOffset {node}.
Arguments collapsed {node}.
Arguments commonAncestorContainer {node}.

Section Range.
Context {node : Type} `{Dom node}.
Implicit Types (n p c a b : node) (t r : range node).

(** ** Operations *)
Definition set_start n o t : range node := MkRange n o (endContainer t) (endOffset t) (collapsed t) (commonAncestorContainer t).
Definition set_end n o t : range node := MkRange (startContainer t) (startOffset t) n o (collapsed t) (commonAncestorContainer t).
Definition set_collapsed v t : range node :=
  MkRange (startContainer t) (startOffset t) (endContainer t) (endOffset t) v (commonAncestorContainer t).
Definition set_common v t : range node :=
  MkRange (startContainer t) (startOffset t) (endContainer t) (endOffset t) (collapsed t) v.

(** The range a document makes. *)
Definition init (doc : node) : range node := MkRange doc 0 doc 0 true (Some doc).

Definition _isCollapsed t : bool :=
  bool_decide (startContainer t = endContainer t) && (startOffset t =? endOffset t).

(** The loop of the second and third case: [offsetC] counts the siblings before
    [c], up to the offset; [None]: the next sibling of null. *)
Fixpoint count_loop (fuel : nat) c (offset offsetC : Z) (o : option node) : option Z :=
  match fuel with
  | O => None
  | S f =>
      if negb (bool_decide (o = Some c)) && (offsetC <? offset) then
        match o with
        | Some n => count_loop f c offset (offsetC + 1) (nextSibling n)
        | None => None
        end
      else Some offsetC
  end.

(** The last loop: which of the two children comes first; [None]: undefined. *)
Fixpoint sibling_loop (fuel : nat) (childA childB o : option node) : option Z :=
  match o with
  | None => None
  | Some n =>
      if bool_decide (Some n = childA) then Some (-1)
      else if bool_decide (Some n = childB) then Some 1
      else match fuel with O => None | S f => sibling_loop f childA childB (nextSibling n) end
  end.

(** [while (c && c.parentNode != p) c = c.parentNode] *)
Definition climb_to (p : option node) c : option node := climb (λ c, bool_decide (parentNode c = p)) c.

(** The outer [None] is an exception, the inner one undefined. *)
Definition _compareBoundaryPoints (containerA : node) (offsetA : Z) (containerB : node) (offsetB : Z) : option (option Z) :=
  if bool_decide (containerA = containerB) then
    Some (Some (if offsetA =? offsetB then 0 else if offsetA <? offsetB then -1 else 1))
  else
    match climb_to (Some containerA) containerB with
    | Some c =>
        offsetC ← count_loop (S (length (childNodes containerA))) c offsetA 0 (firstChild containerA);
        Some (Some (if offsetA <=? offsetC then -1 else 1))
    | None =>
        match climb_to (Some containerB) containerA with
        | Some c =>
            offsetC ← count_loop (S (length (childNodes containerB))) c offsetB 0 (firstChild containerB);
            Some (Some (if offsetC <? offsetB then -1 else 1))
        | None =>
            let cmnRoot := findCommonAncestor containerA containerB in
            let childA := match climb_to cmnRoot containerA with Some c => Some c | None => cmnRoot end in
            let childB := match climb_to cmnRoot containerB with Some c => Some c | None => cmnRoot end in
            if bool_decide (childA = childB) then Some (Some 0)
            else
              root ← cmnRoot;
              Some (sibling_loop (length (childNodes root)) childA childB (firstChild root))
        end
    end.

(** [compareBoundaryPoints(h, r)] *)
Definition compareBoundaryPoints (h : Z) t r : option (option Z) :=
  if h =? 0 then _compareBoundaryPoints (startContainer t) (startOffset t) (startContainer r) (startOffset r)
  else if h =? 1 then _compareBoundaryPoints (endContainer t) (endOffset t) (startContainer r) (startOffset r)
  else if h =? 2 then _compareBoundaryPoints (endContainer t) (endOffset t) (endContainer r) (endOffset r)
  else if h =? 3 then _compareBoundaryPoints (startContainer t) (startOffset t) (endContainer r) (endOffset r)
  else Some None.

Definition collapse (ts : bool) : SE (range node) unit :=
  modify (λ t, set_collapsed true
    (if ts then set_end (startContainer t) (startOffset t) t else set_start (endContainer t) (endOffset t) t)).

Definition _setEndPoint (st : bool) n (o : Z) : SE (range node) unit :=
  _ ← modify (if st then set_start n o else set_end n o);
  t ← gets id;
  let ec := root_of (endContainer t) in
  let sc := root_of (startContainer t) in
  _ ← (if bool_decide (sc = ec) then
         res ← oget (_compareBoundaryPoints (startContainer t) (startOffset t) (endContainer t) (endOffset t));
         if match res with Some z => 0 <? z | None => false end then collapse st else mret tt
       else collapse st);
  _ ← modify (λ t, set_collapsed (_isCollapsed t) t);
  modify (λ t, set_common (findCommonAncestor (startContainer t) (endContainer t)) t).

Definition setStart n o : SE (range node) unit := _setEndPoint true n o.
Definition setEnd n o : SE (range node) unit := _setEndPoint false n o.

(** A null container throws: null has no parentNode. *)
Definition setStartBefore n : SE (range node) unit := p ← oget (parentNode n); i ← oget (nodeIndex n false); setStart p i.
Definition setStartAfter n : SE (range node) unit := p ← oget (parentNode n); i ← oget (nodeIndex n false); setStart p (i + 1).
Definition setEndBefore n : SE (range node) unit := p ← oget (parentNode n); i ← oget (nodeIndex n false); setEnd p i.
Definition setEndAfter n : SE (range node) unit := p ← oget (parentNode n); i ← oget (nodeIndex n false); setEnd p (i + 1).

Definition selectNode n : SE (range node) unit := _ ← setStartBefore n; setEndAfter n.

Definition selectNodeContents n : SE (range node) unit :=
  _ ← setStart n 0;
  l ← oget (if nodeType n =? 1 then Some (Z.of_nat (length (childNodes n)))
            else (λ v : jstr, Z.of_nat (length v)) <$> nodeValue n);
  setEnd n l.

Definition cloneRange t : range node :=
  MkRange (startContainer t) (startOffset t) (endContainer t) (endOffset t) (collapsed t) (commonAncestorContainer t).

(** The node an offset selects. *)
Fixpoint selected_loop (fuel : nat) (offset : Z) (child : option node) : option node :=
  match child with
  | None => None
  | Some c => if 0 <? offset
              then match fuel with O => None | S f => selected_loop f (offset - 1) (nextSibling c) end
              else Some c
  end.
Definition _getSelectedNode (container : node) (offset : Z) : node :=
  if nodeType container =? 3 then container
  else if offset <? 0 then container
  else default container (selected_loop (length (childNodes container)) offset (firstChild container)).

(** ** The order of positions *)

(** The way from the root: a step into the child [i] is [2 i + 1], so that it lies between
    the offsets [i] and [i + 1], which are [2 i] and [2 i + 2]. *)
Definition steps n : list Z := (λ m, 2 * Z.of_nat (child_index m) + 1) <$> tail (reverse (ancestors n)).
Definition key n (o : Z) : list Z := steps n ++ [2 * o].

Fixpoint lexcmp (l k : list Z) : comparison :=
  match l, k with
  | [], [] => Eq
  | [], _ => Lt
  | _, [] => Gt
  | x :: l, y :: k => match x ?= y with Eq => lexcmp l k | c => c end
  end.

Definition sign (c : comparison) : Z := match c with Lt => -1 | Eq => 0 | Gt => 1 end.

Lemma lexcmp_app l k1 k2 : lexcmp (l ++ k1) (l ++ k2) = lexcmp k1 k2.
Proof using Type. induction l as [|x l IH]; cbn; [done|]. by rewrite Z.compare_refl. Qed.

Lemma lexcmp_refl l : lexcmp l l = Eq.
Proof using Type. induction l as [|x l IH]; cbn; [done|]. by rewrite Z.compare_refl. Qed.

Lemma lexcmp_eq l k : lexcmp l k = Eq → l = k.
Proof using Type.
  revert k. induction l as [|x l IH]; intros [|y k]; cbn; try done.
  destruct (Z.compare_spec x y); try done. intros ?%IH. by subst.
Qed.

Context `{!DomLaws node}.

Lemma steps_child n p : parentNode n = Some p → steps n = steps p ++ [2 * Z.of_nat (child_index n) + 1].
Proof using Type*.
  intros Hp. unfold steps. rewrite (ancestors_eq n), Hp, reverse_cons.
  destruct (reverse (ancestors p)) as [|x l] eqn:E; [|cbn; by rewrite fmap_app].
  apply (f_equal reverse) in E. rewrite reverse_involutive, ancestors_eq in E. done.
Qed.

Lemma steps_above a n : a ∈ ancestors n → ∃ rest, steps n = steps a ++ rest.
Proof using Type*.
  induction n as [n IH] using up_ind. rewrite (elem_ancestors a n). intros [->|(p & Hp & Ha)].
  - exists []. by rewrite app_nil_r.
  - destruct (IH p Hp Ha) as [rest E]. rewrite (steps_child _ _ Hp), E, <- app_assoc. eauto.
Qed.

Lemma steps_through a c n : parentNode c = Some a → c ∈ ancestors n →
  ∃ rest, steps n = steps a ++ (2 * Z.of_nat (child_index c) + 1) :: rest.
Proof using Type*.
  intros Hc [rest E]%steps_above. rewrite E, (steps_child _ _ Hc), <- app_assoc. eauto.
Qed.

Lemma climb_to_Some p n c : climb_to (Some p) n = Some c → parentNode c = Some p ∧ c ∈ ancestors n.
Proof using Type*. intros [? Hs]%climb_Some. case_bool_decide; [done|congruence]. Qed.

Lemma climb_to_None p n : climb_to (Some p) n = None → p ≠ n → p ∉ ancestors n.
Proof using Type*.
  intros Hc Hne Hin. destruct (ancestors_via_child p n Hin Hne) as (c & Hp & Hcn).
  pose proof (climb_None _ _ Hc c Hcn) as E. cbn in E. by rewrite bool_decide_true in E.
Qed.

Lemma climb_to_child p n c : parentNode c = Some p → c ∈ ancestors n → climb_to (Some p) n = Some c.
Proof using Type*.
  intros Hp Hc. destruct (climb_to (Some p) n) as [c'|] eqn:E.
  - apply climb_to_Some in E as [Hp' Hc']. f_equal. by eapply child_of_ancestor_unique.
  - pose proof (climb_None _ _ E c Hc) as E'. cbn in E'. by rewrite bool_decide_true in E'.
Qed.

(** ** The loops over siblings *)
Lemma count_loop_ok p c l2 offset suf : c ∉ suf → ∀ pre f k, childNodes p = pre ++ suf ++ c :: l2 → (length suf < f)%nat →
  count_loop f c offset k (head (suf ++ c :: l2)) = Some (Z.max k (Z.min (k + Z.of_nat (length suf)) offset)).
Proof using Type*.
  induction suf as [|x suf IH]; intros Hc pre f k E Hf; (destruct f as [|f]; [cbn in Hf; lia|]); cbn [app head count_loop].
  - rewrite bool_decide_true by done. cbn. f_equal. lia.
  - apply not_elem_of_cons in Hc as [Hne Hc]. rewrite bool_decide_false by congruence. cbn [negb andb].
    destruct (Z.ltb_spec k offset); [|f_equal; cbn [length]; lia].
    destruct (sibling_split _ _ _ _ E) as [_ ->].
    rewrite (IH Hc (pre ++ [x]) f) by (rewrite <- ?app_assoc; first [done|cbn in Hf; lia]).
    f_equal. cbn [length]. lia.
Qed.

Lemma count_children p c offset : parentNode c = Some p →
  count_loop (S (length (childNodes p))) c offset 0 (firstChild p)
  = Some (Z.max 0 (Z.min (Z.of_nat (child_index c)) offset)).
Proof using Type*.
  intros Hp. destruct (kid_split _ _ Hp) as (l1 & l2 & E & Hn & _ & _ & _ & ->).
  rewrite firstChild_head, E. apply (count_loop_ok p c l2 offset l1 Hn []); [done|]. rewrite length_app. lia.
Qed.

Lemma sibling_loop_ok p ca cb suf : parentNode ca = Some p → parentNode cb = Some p → ca ≠ cb →
  ∀ pre f, childNodes p = pre ++ suf → ca ∈ suf → cb ∈ suf → (length suf <= S f)%nat →
  sibling_loop f (Some ca) (Some cb) (head suf) = Some (if (child_index ca <? child_index cb)%nat then -1 else 1).
Proof using Type*.
  intros Ha Hb Hne. induction suf as [|x suf IH]; intros pre f E Hia Hib Hf; [set_solver|].
  assert (∀ y, y ∈ suf → (child_index x < child_index y)%nat) as Hlt.
  { intros y (k1 & k2 & Ek)%list_elem_of_split. rewrite (split_index _ _ _ _ E).
    rewrite Ek in E. change (pre ++ x :: k1 ++ y :: k2) with (pre ++ (x :: k1) ++ y :: k2) in E.
    rewrite app_assoc in E. rewrite (split_index _ _ _ _ E), length_app. cbn. lia. }
  apply elem_of_cons in Hia as [->|Hia], Hib as [->|Hib]; [done|..].
  - destruct f; cbn [head sibling_loop]; rewrite bool_decide_true by done; destruct (Nat.ltb_spec (child_index x) (child_index cb));
      try done; pose proof (Hlt cb Hib); lia.
  - destruct f; cbn [head sibling_loop]; rewrite bool_decide_false, bool_decide_true by congruence;
      destruct (Nat.ltb_spec (child_index ca) (child_index x)); try done; pose proof (Hlt ca Hia); lia.
  - assert (x ≠ ca ∧ x ≠ cb) as [Hxa Hxb].
    { split; intros ->; [pose proof (Hlt ca Hia)|pose proof (Hlt cb Hib)]; lia. }
    destruct f as [|f]; [destruct suf; [set_solver|cbn in Hf; lia]|].
    cbn [head sibling_loop]. rewrite !bool_decide_false by congruence.
    destruct (sibling_split _ _ _ _ E) as [_ ->].
    apply (IH (pre ++ [x])); [by rewrite <- app_assoc|done..|cbn in Hf; lia].
Qed.

(** The fourth case: neither container is above the other. *)
Lemma compare_apart a oa b ob : root_of a = root_of b → a ∉ ancestors b → b ∉ ancestors a →
  ∃ p ca cb, findCommonAncestor a b = Some p ∧ parentNode ca = Some p ∧ parentNode cb = Some p
    ∧ ca ∈ ancestors a ∧ cb ∈ ancestors b ∧ ca ≠ cb
    ∧ lexcmp (key a oa) (key b ob) = if (child_index ca <? child_index cb)%nat then Lt else Gt.
Proof using Type*.
  intros Hroot Hab Hba. destruct (findCommonAncestor_ok a b Hroot) as (p & E & Hpa & Hpb & Hlow).
  destruct (ancestors_via_child p a) as (ca & Hca & Hina); [done|by intros ->|].
  destruct (ancestors_via_child p b) as (cb & Hcb & Hinb); [done|by intros ->|].
  assert (ca ≠ cb) as Hne.
  { intros ->. pose proof (ancestors_depth _ _ (Hlow cb Hina Hinb)). pose proof (depth_parent _ _ Hca).
    intuition (subst; lia). }
  exists p, ca, cb. split_and!; try done.
  destruct (steps_through _ _ _ Hca Hina) as [ra Ea]. destruct (steps_through _ _ _ Hcb Hinb) as [rb Eb].
  unfold key. rewrite Ea, Eb, <- !app_assoc, lexcmp_app. cbn [app lexcmp].
  destruct (Z.compare_spec (2 * Z.of_nat (child_index ca) + 1) (2 * Z.of_nat (child_index cb) + 1)) as [Ei|Hl|Hg].
  - destruct Hne. apply (child_index_inj ca cb p Hca Hcb). lia.
  - by destruct (Nat.ltb_spec (child_index ca) (child_index cb)); [|lia].
  - by destruct (Nat.ltb_spec (child_index ca) (child_index cb)); [lia|].
Qed.

Lemma compare_above a oa b ob c : parentNode c = Some a → c ∈ ancestors b →
  lexcmp (key a oa) (key b ob) = (if oa <=? Z.of_nat (child_index c) then Lt else Gt)
  ∧ lexcmp (key b ob) (key a oa) = (if oa <=? Z.of_nat (child_index c) then Gt else Lt).
Proof using Type*.
  intros Hc Hin. destruct (steps_through _ _ _ Hc Hin) as [rest E]. unfold key.
  rewrite E, <- !app_assoc, !lexcmp_app. cbn [app lexcmp].
  destruct (Z.leb_spec oa (Z.of_nat (child_index c)));
    destruct (Z.compare_spec (2 * oa) (2 * Z.of_nat (child_index c) + 1)); try lia;
    destruct (Z.compare_spec (2 * Z.of_nat (child_index c) + 1) (2 * oa)); by try lia.
Qed.

Lemma compare_keys a oa b ob : root_of a = root_of b →
  _compareBoundaryPoints a oa b ob = Some (Some (sign (lexcmp (key a oa) (key b ob)))).
Proof using Type*.
  intros Hroot. unfold _compareBoundaryPoints. case_bool_decide as Hab.
  { subst b. unfold key. rewrite lexcmp_app. cbn.
    destruct (Z.compare_spec (2 * oa) (2 * ob)), (Z.eqb_spec oa ob), (Z.ltb_spec oa ob); by try lia. }
  destruct (climb_to (Some a) b) as [c|] eqn:E1.
  { apply climb_to_Some in E1 as [Hc Hin]. rewrite (count_children _ _ _ Hc). cbn [mbind option_bind].
    destruct (compare_above a oa b ob c Hc Hin) as [-> _].
    destruct (Z.leb_spec oa (Z.max 0 (Z.min (Z.of_nat (child_index c)) oa))),
      (Z.leb_spec oa (Z.of_nat (child_index c))); by try lia. }
  destruct (climb_to (Some b) a) as [c|] eqn:E2.
  { apply climb_to_Some in E2 as [Hc Hin]. rewrite (count_children _ _ _ Hc). cbn [mbind option_bind].
    destruct (compare_above b ob a oa c Hc Hin) as [_ ->].
    destruct (Z.ltb_spec (Z.max 0 (Z.min (Z.of_nat (child_index c)) ob)) ob),
      (Z.leb_spec ob (Z.of_nat (child_index c))); by try lia. }
  apply climb_to_None in E1; [|done]. apply climb_to_None in E2; [|congruence].
  destruct (compare_apart a oa b ob Hroot E1 E2) as (p & ca & cb & -> & Hca & Hcb & Hia & Hib & Hne & ->).
  rewrite (climb_to_child p a ca), (climb_to_child p b cb) by done. rewrite bool_decide_false by congruence.
  cbn [mbind option_bind]. rewrite firstChild_head.
  rewrite (sibling_loop_ok p ca cb (childNodes p) Hca Hcb Hne []) by (done || lia || by apply child_parent).
  by destruct (child_index ca <? child_index cb)%nat.
Qed.

(** Positions with the same key are the same. *)
Lemma key_inj a oa b ob : root_of a = root_of b → lexcmp (key a oa) (key b ob) = Eq → a = b ∧ oa = ob.
Proof using Type*.
  intros Hroot. destruct (decide (a = b)) as [->|Hne].
  { unfold key. rewrite lexcmp_app. cbn. destruct (Z.compare_spec (2 * oa) (2 * ob)); try done. intros _. split; [done|lia]. }
  destruct (decide (a ∈ ancestors b)) as [Ha|Ha].
  { destruct (ancestors_via_child a b Ha Hne) as (c & Hc & Hin).
    destruct (compare_above a oa b ob c Hc Hin) as [-> _]. by destruct (oa <=? _). }
  destruct (decide (b ∈ ancestors a)) as [Hb|Hb].
  { destruct (ancestors_via_child b a Hb (not_eq_sym Hne)) as (c & Hc & Hin).
    destruct (compare_above b ob a oa c Hc Hin) as [_ ->]. by destruct (ob <=? _). }
  destruct (compare_apart a oa b ob Hroot Ha Hb) as (p & ca & cb & _ & _ & _ & _ & _ & _ & ->).
  by destruct (_ <? _)%nat.
Qed.

Definition start_key t : list Z := key (startContainer t) (startOffset t).
Definition end_key t : list Z := key (endContainer t) (endOffset t).
(** The ends that [compareBoundaryPoints(h, r)] compares. *)
Definition keys_of (h : Z) t r : list Z * list Z :=
  if h =? 0 then (start_key t, start_key r)
  else if h =? 1 then (end_key t, start_key r)
  else if h =? 2 then (end_key t, end_key r)
  else (start_key t, end_key r).

(** ** Ranges *)
Record good t : Prop := {
  good_root : root_of (startContainer t) = root_of (endContainer t);
  good_order : lexcmp (start_key t) (end_key t) ≠ Gt;
  good_collapsed : collapsed t = _isCollapsed t;
  good_common : ∃ p, commonAncestorContainer t = Some p
                     ∧ p ∈ ancestors (startContainer t) ∧ p ∈ ancestors (endContainer t)
}.

(** C14: [compareBoundaryPoints] of two ranges in one tree compares the positions it is asked for as the text of the
    document orders them; it answers 0 for the same position only. *)
Theorem compareBoundaryPoints_ok h t r : good t → good r →
  root_of (startContainer t) = root_of (startContainer r) → 0 <= h <= 3 →
  compareBoundaryPoints h t r = Some (Some (sign (lexcmp (keys_of h t r).1 (keys_of h t r).2)))
  ∧ (compareBoundaryPoints 0 t r = Some (Some 0) →
     startContainer t = startContainer r ∧ startOffset t = startOffset r).
Proof using Type*.
  intros Ht Hr Hroot Hh. pose proof (good_root t Ht) as Ht'. pose proof (good_root r Hr) as Hr'. split.
  - unfold compareBoundaryPoints, keys_of.
    destruct (Z.eqb_spec h 0), (Z.eqb_spec h 1), (Z.eqb_spec h 2), (Z.eqb_spec h 3); try lia;
      cbn [fst snd]; apply compare_keys; congruence.
  - cbn. rewrite compare_keys by done. intros E. apply key_inj; [done|].
    by destruct (lexcmp (key (startContainer t) _) _).
Qed.

(** What setting one end leaves: the other end stays when it is in the same tree and on its
    side, and moves to the new position otherwise. *)
Definition keeps_other (st : bool) n (o : Z) t : bool :=
  if st then bool_decide (root_of n = root_of (endContainer t)) && negb (bool_decide (lexcmp (key n o) (end_key t) = Gt))
  else bool_decide (root_of (startContainer t) = root_of n) && negb (bool_decide (lexcmp (start_key t) (key n o) = Gt)).
Definition moved (st : bool) n (o : Z) t : range node :=
  let t' := if keeps_other st n o t then (if st then set_start n o t else set_end n o t)
            else MkRange n o n o true (commonAncestorContainer t) in
  set_common (findCommonAncestor (startContainer t') (endContainer t')) (set_collapsed (_isCollapsed t') t').

Lemma setEndPoint_moved st n o t : _setEndPoint st n o t = Some (tt, moved st n o t).
Proof using Type*.
  unfold _setEndPoint, moved, keeps_other. rewrite SE_bind_unfold. unfold modify at 1.
  rewrite SE_bind_unfold. unfold gets, id. rewrite SE_bind_unfold.
  destruct st; cbn [startContainer startOffset endContainer endOffset set_start set_end].
  all: case_bool_decide as Hroot; cbn [andb]; [|done].
  all: rewrite SE_bind_unfold, compare_keys by done; unfold start_key, end_key.
  all: by destruct (lexcmp _ _) eqn:E; cbn; rewrite ?E.
Qed.

Lemma moved_end st n o t : if st : bool then startContainer (moved st n o t) = n ∧ startOffset (moved st n o t) = o
  else endContainer (moved st n o t) = n ∧ endOffset (moved st n o t) = o.
Proof using Type. unfold moved. destruct (keeps_other st n o t), st; done. Qed.

Lemma moved_root st n o t :
  root_of (startContainer (moved st n o t)) = root_of (endContainer (moved st n o t)).
Proof using Type*.
  unfold moved, keeps_other. destruct st; cbn; case_bool_decide as Hr; cbn; try done; by case_bool_decide.
Qed.

Lemma moved_good st n o t : good (moved st n o t).
Proof using Type*.
  constructor; [apply moved_root| | |].
  - unfold moved, keeps_other, start_key, end_key. destruct st; cbn.
    all: case_bool_decide as Hr; cbn; [case_bool_decide as Hl; cbn; [by rewrite lexcmp_refl|done]|by rewrite lexcmp_refl].
  - done.
  - destruct (findCommonAncestor_ok _ _ (moved_root st n o t)) as (p & E & Ha & Hb & _). exists p.
    split_and!; try done.
Qed.

(** [setStart] and [setEnd] put that end where they are told, whatever the range was; the other
    end stays if it is in the same tree and not on the wrong side, else the range collapses to the new position; the common ancestor is
    then the lowest node above both ends. *)
Theorem setEndPoint_ok st n o t : ∃ t', _setEndPoint st n o t = Some (tt, t')
  ∧ (if st : bool then startContainer t' = n ∧ startOffset t' = o else endContainer t' = n ∧ endOffset t' = o)
  ∧ (if keeps_other st n o t
     then (if st then endContainer t' = endContainer t ∧ endOffset t' = endOffset t
           else startContainer t' = startContainer t ∧ startOffset t' = startOffset t)
     else startContainer t' = n ∧ startOffset t' = o ∧ endContainer t' = n ∧ endOffset t' = o)
  ∧ ∃ p, commonAncestorContainer t' = Some p
      ∧ p ∈ ancestors (startContainer t') ∧ p ∈ ancestors (endContainer t')
      ∧ ∀ x, x ∈ ancestors (startContainer t') → x ∈ ancestors (endContainer t') → x ∈ ancestors p.
Proof using Type*.
  exists (moved st n o t). split; [apply setEndPoint_moved|].
  assert (∃ p, commonAncestorContainer (moved st n o t) = Some p
      ∧ p ∈ ancestors (startContainer (moved st n o t)) ∧ p ∈ ancestors (endContainer (moved st n o t))
      ∧ ∀ x, x ∈ ancestors (startContainer (moved st n o t)) → x ∈ ancestors (endContainer (moved st n o t)) → x ∈ ancestors p) as Hp.
  { destruct (findCommonAncestor_ok _ _ (moved_root st n o t)) as (p & E & Hp). by exists p. }
  split_and!; [| |exact Hp]; unfold moved; destruct (keeps_other st n o t), st; done.
Qed.

(** *** Every range that setting ends can make *)

(** The calls that set the ends of a range, in a document that stays as it is. The calls that change the
    document are not among them: insertNode (RangeInsert), surroundContents, extractContents and deleteContents (RangeExtract). *)
Inductive op :=
  | OpSetStart n (o : Z) | OpSetEnd n (o : Z)
  | OpSetStartBefore n | OpSetStartAfter n | OpSetEndBefore n | OpSetEndAfter n
  | OpCollapse (ts : bool) | OpSelectNode n | OpSelectNodeContents n.

Definition run (q : op) : SE (range node) unit :=
  match q with
  | OpSetStart n o => setStart n o
  | OpSetEnd n o => setEnd n o
  | OpSetStartBefore n => setStartBefore n
  | OpSetStartAfter n => setStartAfter n
  | OpSetEndBefore n => setEndBefore n
  | OpSetEndAfter n => setEndAfter n
  | OpCollapse ts => collapse ts
  | OpSelectNode n => selectNode n
  | OpSelectNodeContents n => selectNodeContents n
  end.

Inductive reachable (doc : node) : range node -> Prop :=
  | reach_init : reachable doc (init doc)
  | reach_op t t' q : reachable doc t → run q t = Some (tt, t') → reachable doc t'
  | reach_clone t : reachable doc t → reachable doc (cloneRange t).

Lemma collapse_good ts t t' : good t → collapse ts t = Some (tt, t') → good t'.
Proof using Type*.
  intros [Hroot Hord Hc (p & Hp & Ha & Hb)] [= <-]. destruct ts; constructor; cbn; try done.
  all: try (unfold start_key, end_key; cbn; by rewrite lexcmp_refl).
  all: try (unfold _isCollapsed; cbn; by rewrite bool_decide_true, Z.eqb_refl by done).
  all: by exists p.
Qed.

Lemma setEndPoint_good st n o t t' : _setEndPoint st n o t = Some (tt, t') → good t'.
Proof using Type*. rewrite setEndPoint_moved. intros [= <-]. apply moved_good. Qed.

Lemma oget_run {S A B} (o : option A) x (f : A -> SE S B) (s : S) : o = Some x → (oget o ≫= f) s = f x s.
Proof using Type. by intros ->. Qed.

Lemma setStartBefore_ok n p t : parentNode n = Some p →
  setStartBefore n t = Some (tt, moved true p (Z.of_nat (child_index n)) t).
Proof using Type*.
  intros Hp. unfold setStartBefore, setStart.
  by rewrite (oget_run _ _ _ _ Hp), (oget_run _ _ _ _ (nodeIndex_plain n)), setEndPoint_moved.
Qed.

Lemma setStartAfter_ok n p t : parentNode n = Some p →
  setStartAfter n t = Some (tt, moved true p (Z.of_nat (child_index n) + 1) t).
Proof using Type*.
  intros Hp. unfold setStartAfter, setStart.
  by rewrite (oget_run _ _ _ _ Hp), (oget_run _ _ _ _ (nodeIndex_plain n)), setEndPoint_moved.
Qed.

Lemma setEndBefore_ok n p t : parentNode n = Some p →
  setEndBefore n t = Some (tt, moved false p (Z.of_nat (child_index n)) t).
Proof using Type*.
  intros Hp. unfold setEndBefore, setEnd.
  by rewrite (oget_run _ _ _ _ Hp), (oget_run _ _ _ _ (nodeIndex_plain n)), setEndPoint_moved.
Qed.

Lemma setEndAfter_ok n p t : parentNode n = Some p →
  setEndAfter n t = Some (tt, moved false p (Z.of_nat (child_index n) + 1) t).
Proof using Type*.
  intros Hp. unfold setEndAfter, setEnd.
  by rewrite (oget_run _ _ _ _ Hp), (oget_run _ _ _ _ (nodeIndex_plain n)), setEndPoint_moved.
Qed.

Lemma ranges_stay_good doc t : reachable doc t → good t.
Proof using Type*.
  induction 1 as [|t t' q _ IH E|t _ IH].
  - constructor; cbn; [done| | |].
    + unfold start_key, end_key. cbn. by rewrite lexcmp_refl.
    + unfold _isCollapsed. cbn. by rewrite bool_decide_true.
    + exists doc. eauto using ancestors_self.
  - destruct q; cbn in E; try (by eapply setEndPoint_good); try (by eapply collapse_good).
    all: unfold selectNode, selectNodeContents, setStartBefore, setStartAfter, setEndBefore, setEndAfter in E.
    all: repeat match type of E with
         | (_ ≫= _) _ = Some _ => rewrite SE_bind_unfold in E; case_match; [|done]; case_match
         end; by eapply setEndPoint_good.
  - by destruct t, IH.
Qed.

(** C12: In every range that setStart, setEnd, the four setters next to a node, collapse, selectNode, selectNodeContents and
    cloneRange make of a new one, in any order and with any nodes and offsets for which they return, while the document does not change:
    the two ends are in one tree and the start is not after the
    end, [collapsed] says whether they are the same, and the common ancestor contains both. *)
Theorem reachable_range_good doc t : reachable doc t → good t.
Proof using Type*. apply ranges_stay_good. Qed.

(** [selectNode] puts the ends around the node, whatever the range was. *)
Lemma selectNode_ok n p t : parentNode n = Some p → ∃ t', selectNode n t = Some (tt, t')
  ∧ startContainer t' = p ∧ startOffset t' = Z.of_nat (child_index n)
  ∧ endContainer t' = p ∧ endOffset t' = Z.of_nat (child_index n) + 1 ∧ collapsed t' = false.
Proof using Type*.
  intros Hp. set (i := Z.of_nat (child_index n)).
  exists (moved false p (i + 1) (moved true p i t)). unfold selectNode.
  rewrite SE_bind_unfold, (setStartBefore_ok _ _ _ Hp), (setEndAfter_ok _ _ _ Hp). split; [done|]. fold i.
  assert (startContainer (moved true p i t) = p ∧ startOffset (moved true p i t) = i) as [E3 E4]
    by (unfold moved; by destruct (keeps_other true p i t)).
  set (m := moved true p i t) in *. clearbody m.
  assert (keeps_other false p (i + 1) m = true) as Ek.
  { unfold keeps_other, start_key, key. rewrite E3, E4, bool_decide_true, lexcmp_app by done. cbn [lexcmp].
    by destruct (Z.compare_spec (2 * i) (2 * (i + 1))); try lia. }
  unfold moved. rewrite Ek. cbn. rewrite E3, E4. split_and!; try done.
  unfold _isCollapsed. cbn. rewrite E3, E4, bool_decide_true by done. cbn. apply Z.eqb_neq. lia.
Qed.

(** ** The walker moves forwards *)
Lemma parents_loop_cases f (r : node) o y : parents_loop (Some r) f nextSibling o = Some y →
  ∃ x z, o = Some x ∧ z ∈ ancestors x ∧ z ≠ r ∧ nextSibling z = Some y.
Proof using Type*.
  revert o. induction f as [|f IH]; intros [x|]; cbn; try done.
  all: case_bool_decide as Hr; [done|]; destruct (nextSibling x) as [s|] eqn:Es; [intros [= <-]|].
  2: done. 3: intros (x' & z & Hp & Hz & Hzr & Hs)%IH.
  - exists x, x. split_and!; try done; [apply ancestors_self|congruence].
  - exists x, x. split_and!; try done; [apply ancestors_self|congruence].
  - exists x, z. eauto using ancestors_parent.
Qed.

Lemma next_cases (r x y : node) : next (Some r) false (Some x) = Some y →
  firstChild x = Some y ∨ ∃ z, z ∈ ancestors x ∧ z ≠ r ∧ nextSibling z = Some y.
Proof using Type*.
  unfold next, findSibling. cbn. destruct (firstChild x) as [c|]; [by left|]. intros E. right.
  case_bool_decide as Hr; [done|]. destruct (nextSibling x) as [s|] eqn:Es.
  - simplify_eq. exists x. split_and!; [apply ancestors_self|congruence|done].
  - apply parents_loop_cases in E as (x' & z & Hp & Hz & Hzr & Hs). exists z. eauto using ancestors_parent.
Qed.

(** C17: The walker and the ranges agree: [next] goes to a node whose place comes after that of the
    node it leaves. *)
Theorem next_forward (r x px y : node) : parentNode x = Some px → r ∈ ancestors x → next (Some r) false (Some x) = Some y →
  ∃ py, parentNode y = Some py
    ∧ _compareBoundaryPoints px (Z.of_nat (child_index x)) py (Z.of_nat (child_index y)) = Some (Some (-1)).
Proof using Type*.
  intros Hpx Hr [Hc|(z & Hz & _ & Hs)]%next_cases.
  - assert (y ∈ childNodes x) as Hy by (rewrite firstChild_head in Hc; destruct (childNodes x); simplify_eq/=; left).
    apply child_parent in Hy. exists x. split; [done|].
    rewrite compare_keys by (symmetry; by apply root_of_parent).
    destruct (compare_above px (Z.of_nat (child_index x)) x (Z.of_nat (child_index y)) x Hpx (ancestors_self x)) as [-> _].
    by rewrite Z.leb_refl.
  - destruct (parentNode z) as [pz|] eqn:Epz; [|destruct (root_alone z Epz); congruence].
    destruct (kid_split _ _ Epz) as (l1 & l2 & E & _ & _ & _ & En & Ei). rewrite En in Hs.
    destruct l2 as [|y' l2]; [done|]. injection Hs as ->.
    change (l1 ++ z :: y :: l2) with (l1 ++ [z] ++ y :: l2) in E. rewrite app_assoc in E.
    pose proof (split_parent _ _ _ _ E) as Hpy. pose proof (split_index _ _ _ _ E) as Eiy. rewrite length_app in Eiy.
    exists pz. split; [done|].
    rewrite compare_keys by (rewrite <- (root_of_parent _ _ Hpx), (root_of_ancestor _ _ Hz); by apply root_of_parent).
    destruct (decide (z = x)) as [->|Hne].
    + assert (px = pz) as -> by congruence. unfold key. rewrite lexcmp_app. cbn [lexcmp].
      by destruct (Z.compare_spec (2 * Z.of_nat (child_index x)) (2 * Z.of_nat (child_index y))); try (cbn in *; lia).
    + apply elem_ancestors in Hz as [|(p & Hp & Hz)]; [done|]. simplify_eq.
      destruct (compare_above pz (Z.of_nat (child_index y)) px (Z.of_nat (child_index x)) z Epz Hz) as [_ ->].
      by destruct (Z.leb_spec (Z.of_nat (child_index y)) (Z.of_nat (child_index z))); [cbn in *; lia|].
Qed.
End Range.

(** ** Ranges in the sample document *)
Definition sample_run (q : op) (t : range nat) : range nat :=
  match @run nat (table_dom sample) q t with Some (_, t') => t' | None => t end.

(** From the text "ab" to the text "de", then collapsed to the start. *)
Definition two_paragraphs : range nat := Eval vm_compute in
  sample_run (OpSetEnd 8%nat 1) (sample_run (OpSetStart 4%nat 1) (init 0%nat)).

Lemma two_paragraphs_reachable : @reachable nat (table_dom sample) 0%nat two_paragraphs.
Proof.
  eapply (reach_op _ (sample_run (OpSetStart 4%nat 1) (init 0%nat)) _ (OpSetEnd 8%nat 1)); [|by vm_compute].
  eapply (reach_op _ _ _ (OpSetStart 4%nat 1)); [apply reach_init|by vm_compute].
Qed.

Lemma two_paragraphs_good : @good nat (table_dom sample) two_paragraphs.
Proof.
  pose proof (table_laws sample sample_ok) as L. exact (@ranges_stay_good nat (table_dom sample) L 0%nat two_paragraphs two_paragraphs_reachable).
Qed.

Lemma reachable_range_good_witness : @good nat (table_dom sample) two_paragraphs.
Proof.
  pose proof (table_laws sample sample_ok) as L.
  exact (@reachable_range_good nat (table_dom sample) L 0%nat two_paragraphs two_paragraphs_reachable).
Defined.

Lemma compareBoundaryPoints_ok_witness :
  @compareBoundaryPoints nat (table_dom sample) 3 two_paragraphs two_paragraphs = Some (Some (-1)).
Proof.
  pose proof (table_laws sample sample_ok) as L. pose proof two_paragraphs_good as G.
  destruct (@compareBoundaryPoints_ok nat (table_dom sample) L 3 _ _ G G) as [E _]; [done|lia|].
  etransitivity; [exact E|]. by vm_compute.
Defined.

Lemma setEndPoint_ok_witness : ∃ t', @_setEndPoint nat (table_dom sample) true 8%nat 2 two_paragraphs = Some ((), t')
  ∧ endContainer t' = 8%nat ∧ endOffset t' = 2.
Proof.
  pose proof (table_laws sample sample_ok) as L.
  destruct (@setEndPoint_ok nat (table_dom sample) L true 8%nat 2 two_paragraphs) as (t' & E & _ & Ho & _).
  exists t'. split; [exact E|]. revert Ho. vm_compute. tauto.
Defined.

Lemma next_forward_witness : ∃ py, @parentNode nat (table_dom sample) 7%nat = Some py
  ∧ @_compareBoundaryPoints nat (table_dom sample) 5%nat 0 py 1 = Some (Some (-1)).
Proof.
  pose proof (table_laws sample sample_ok) as L.
  exact (@next_forward nat (table_dom sample) L 2%nat 6%nat 5%nat 7%nat ltac:(by vm_compute)
    ltac:(apply (bool_decide_unpack _); by vm_compute) ltac:(by vm_compute)).
Defined.

(** The public [collapse] leaves the common ancestor of the two old ends: after it the body is
    still named, though both ends are in one text. *)
Theorem collapse_keeps_common :
  let d := table_dom sample in
  ∃ t', @run nat d (OpCollapse true) two_paragraphs = Some ((), t')
    ∧ commonAncestorContainer t' = Some 2%nat
    ∧ @findCommonAncestor nat d (startContainer t') (endContainer t') = Some 4%nat.
Proof. eexists. split; [by vm_compute|]. split; by vm_compute. Qed.
