(* ===== verification/RangeClone.v ===== *)
(** * classes/dom/Range.js, cloneContents

    The traversal that copies what lies between the two ends of a range ([how] is
    CLONE): same container, one container above the other, or neither.  A copy is
    named by the node it copies; the reference, [selected], reads off the two keys which children are left out,
    copied in part or copied whole. *)

From S2P Require Import Prelude Dom TreeWalker DOMUtils Range.

(** [s.substring(a, b)]: the ends are brought into the text and into order. *)
Definition clamp (s : jstr) (i : Z) : nat := Z.to_nat (Z.min (Z.of_nat (length s)) i).
Definition substring (s : jstr) (a b : Z) : jstr :=
  let i := Nat.min (clamp s a) (clamp s b) in
  let j := Nat.max (clamp s a) (clamp s b) in take (j - i) (drop i s).

(** A copy of a node, deep or not, with the value it was given and the
    children appended to it; or a new text. *)
Inductive copy {node : Type} :=
  | Copy (n : node) (deep : bool) (value : option jstr) (added : list copy)
  | NewText (s : jstr).
Arguments copy : clear implicits.

Section RangeClone.
Context {node : Type} `{Dom node}.
Implicit Types (n p c a b : node) (t : range node) (k : list (copy node)).

Definition appendChild (p c : copy node) : copy node :=
  match p with Copy n d v k => Copy n d v (k ++ [c]) | NewText _ => p end.
Definition prependChild (p c : copy node) : copy node :=
  match p with Copy n d v k => Copy n d v (c :: k) | NewText _ => p end.

Section Traverse.
Context (t : range node).

Definition _traverseFullySelected n : copy node := Copy n true (nodeValue n) [].

(** [None]: a text without a value. *)
Definition _traverseNode n (isFullySelected isLeft : bool) : option (copy node) :=
  if isFullySelected then Some (_traverseFullySelected n)
  else if nodeType n =? 3 then
    txtValue ← nodeValue n;
    Some (Copy n false (Some (if isLeft then substring txtValue (startOffset t) (Z.of_nat (length txtValue))
                              else substring txtValue 0 (endOffset t))) [])
  else Some (Copy n false (nodeValue n) []).

(** The inner loops: the copies of [next] and its siblings on one side. *)
Fixpoint right_siblings (fuel : nat) (next : option node) (isFullySelected : bool) (clonedParent : copy node)
    : option (copy node * bool) :=
  match next with
  | None => Some (clonedParent, isFullySelected)
  | Some n =>
      match fuel with
      | O => None
      | S f =>
          clonedChild ← _traverseNode n isFullySelected false;
          right_siblings f (previousSibling n) true (prependChild clonedParent clonedChild)
      end
  end.
Fixpoint left_siblings (fuel : nat) (next : option node) (isFullySelected : bool) (clonedParent : copy node)
    : option (copy node * bool) :=
  match next with
  | None => Some (clonedParent, isFullySelected)
  | Some n =>
      match fuel with
      | O => None
      | S f =>
          clonedChild ← _traverseNode n isFullySelected true;
          left_siblings f (nextSibling n) true (appendChild clonedParent clonedChild)
      end
  end.

(** The outer loops: from [parent] up to [root]. *)
Fixpoint right_parents (fuel : nat) (root parent : node) (next : option node) (isFullySelected : bool)
    (clonedParent : copy node) : option (copy node) :=
  '(clonedParent, isFullySelected) ← right_siblings (length (childNodes parent)) next isFullySelected clonedParent;
  if bool_decide (parent = root) then Some clonedParent
  else match fuel with
       | O => None
       | S f =>
           grandParent ← parentNode parent;
           clonedGrandParent ← _traverseNode grandParent false false;
           right_parents f root grandParent (previousSibling parent) isFullySelected
             (appendChild clonedGrandParent clonedParent)
       end.
Fixpoint left_parents (fuel : nat) (root parent : node) (next : option node) (isFullySelected : bool)
    (clonedParent : copy node) : option (copy node) :=
  '(clonedParent, isFullySelected) ← left_siblings (length (childNodes parent)) next isFullySelected clonedParent;
  if bool_decide (parent = root) then Some clonedParent
  else match fuel with
       | O => None
       | S f =>
           grandParent ← parentNode parent;
           clonedGrandParent ← _traverseNode grandParent false true;
           left_parents f root grandParent (nextSibling parent) isFullySelected
             (appendChild clonedGrandParent clonedParent)
       end.

Definition _traverseRightBoundary (root : node) : option (copy node) :=
  let next := _getSelectedNode (endContainer t) (endOffset t - 1) in
  let isFullySelected := negb (bool_decide (next = endContainer t)) in
  if bool_decide (next = root) then _traverseNode next isFullySelected false
  else
    parent ← parentNode next;
    clonedParent ← _traverseNode parent false false;
    right_parents (depth parent) root parent (Some next) isFullySelected clonedParent.

Definition _traverseLeftBoundary (root : node) : option (copy node) :=
  let next := _getSelectedNode (startContainer t) (startOffset t) in
  let isFullySelected := negb (bool_decide (next = startContainer t)) in
  if bool_decide (next = root) then _traverseNode next isFullySelected true
  else
    parent ← parentNode next;
    clonedParent ← _traverseNode parent false true;
    left_parents (depth parent) root parent (Some next) isFullySelected clonedParent.

(** The copies of [cnt] nodes from [o] on; [while (n && cnt > 0)] forwards,
    [while (cnt > 0)] backwards (past the first sibling it throws). *)
Fixpoint forward_loop (fuel : nat) (o : option node) (cnt : Z) : list (copy node) :=
  match o with
  | Some n => if 0 <? cnt then
                _traverseFullySelected n :: match fuel with
                                            | O => []
                                            | S f => forward_loop f (nextSibling n) (cnt - 1)
                                            end
              else []
  | None => []
  end.
Fixpoint backward_loop (fuel : nat) (o : option node) (cnt : Z) (frag : list (copy node)) : option (list (copy node)) :=
  if 0 <? cnt then
    match fuel with
    | O => None
    | S f => n ← o; backward_loop f (previousSibling n) (cnt - 1) (_traverseFullySelected n :: frag)
    end
  else Some frag.
(** [while (cnt > 0)] forwards. *)
Fixpoint between_loop (fuel : nat) (o : option node) (cnt : Z) : option (list (copy node)) :=
  if 0 <? cnt then
    match fuel with
    | O => None
    | S f => n ← o; l ← between_loop f (nextSibling n) (cnt - 1); Some (_traverseFullySelected n :: l)
    end
  else Some [].

Definition _traverseSameContainer : option (list (copy node)) :=
  let c := startContainer t in
  if startOffset t =? endOffset t then Some []
  else if nodeType c =? 3 then
    s ← nodeValue c;
    let sub := substring s (startOffset t) (endOffset t) in
    Some (if truthy sub then [NewText sub] else [])
  else Some (forward_loop (length (childNodes c)) (Some (_getSelectedNode c (startOffset t))) (endOffset t - startOffset t)).

Definition _traverseCommonStartContainer (endAncestor : node) : option (list (copy node)) :=
  n ← _traverseRightBoundary endAncestor;
  endIdx ← nodeIndex endAncestor false;
  let cnt := endIdx - startOffset t in
  if cnt <=? 0 then Some [n]
  else backward_loop (S (sibling_fuel endAncestor)) (previousSibling endAncestor) cnt [n].

Definition _traverseCommonEndContainer (startAncestor : node) : option (list (copy node)) :=
  n ← _traverseLeftBoundary startAncestor;
  startIdx ← nodeIndex startAncestor false;
  let cnt := endOffset t - (startIdx + 1) in
  Some (n :: forward_loop (sibling_fuel startAncestor) (nextSibling startAncestor) cnt).

Definition _traverseCommonAncestors (startAncestor endAncestor : node) : option (list (copy node)) :=
  n ← _traverseLeftBoundary startAncestor;
  _ ← parentNode startAncestor;
  startOffset ← nodeIndex startAncestor false;
  endOffset ← nodeIndex endAncestor false;
  l ← between_loop (S (sibling_fuel startAncestor)) (nextSibling startAncestor) (endOffset - (startOffset + 1));
  m ← _traverseRightBoundary endAncestor;
  Some (n :: l ++ [m]).

(** The loops [for (c = ..., p = c.parentNode; p; c = p, p = p.parentNode)]: the child of [target] above [c],
    or the number of ancestors passed. *)
Fixpoint below_loop (fuel : nat) (target c : node) (d : Z) : node + Z :=
  match parentNode c with
  | None => inr d
  | Some p => if bool_decide (p = target) then inl c
              else match fuel with O => inr d | S f => below_loop f target p (d + 1) end
  end.

(** [while (depthDiff > 0) startNode = startNode.parentNode] *)
Fixpoint ascend (k : nat) (o : option node) : option node :=
  match k with O => o | S k => n ← o; ascend k (parentNode n) end.

(** [for (sp, ep; sp != ep; ...)]: the last two nodes with different parents. *)
Fixpoint pair_loop (fuel : nat) (startNode endNode : node) : option (node * node) :=
  if bool_decide (parentNode startNode = parentNode endNode) then Some (startNode, endNode)
  else match fuel with
       | O => None
       | S f => sp ← parentNode startNode; ep ← parentNode endNode; pair_loop f sp ep
       end.

(** [_traverse(CLONE)]; [None]: an exception. *)
Definition _traverse : option (list (copy node)) :=
  if bool_decide (startContainer t = endContainer t) then _traverseSameContainer
  else
    match below_loop (depth (endContainer t)) (startContainer t) (endContainer t) 0 with
    | inl c => _traverseCommonStartContainer c
    | inr endContainerDepth =>
        match below_loop (depth (startContainer t)) (endContainer t) (startContainer t) 0 with
        | inl c => _traverseCommonEndContainer c
        | inr startContainerDepth =>
            let depthDiff := startContainerDepth - endContainerDepth in
            startNode ← ascend (Z.to_nat depthDiff) (Some (startContainer t));
            endNode ← ascend (Z.to_nat (- depthDiff)) (Some (endContainer t));
            '(startNode, endNode) ← pair_loop (depth startNode) startNode endNode;
            _traverseCommonAncestors startNode endNode
        end
    end.
End Traverse.

Definition cloneContents t : option (list (copy node)) := _traverse t.

(** ** The reference *)
Definition deep n : copy node := _traverseFullySelected n.

Fixpoint kids_at (f : Z -> node -> list (copy node)) (i : Z) (l : list node) : list (copy node) :=
  match l with
  | [] => []
  | c :: l => f i c ++ kids_at f (i + 1) l
  end.

(** What comes after the position [lo] below [n], and before the position [hi]. *)
Fixpoint clip_left (lo : list Z) n : copy node :=
  match lo with
  | [] => deep n
  | x :: lo' =>
      if nodeType n =? 3 then Copy n false (Some (drop (Z.to_nat (x / 2)) (text_of n))) []
      else Copy n false (nodeValue n)
             (kids_at (λ i c, match 2 * i + 1 ?= x with Lt => [] | Eq => [clip_left lo' c] | Gt => [deep c] end)
                0 (childNodes n))
  end.
Fixpoint clip_right (hi : list Z) n : copy node :=
  match hi with
  | [] => deep n
  | x :: hi' =>
      if nodeType n =? 3 then Copy n false (Some (take (Z.to_nat (x / 2)) (text_of n))) []
      else Copy n false (nodeValue n)
             (kids_at (λ i c, match 2 * i + 1 ?= x with Lt => [deep c] | Eq => [clip_right hi' c] | Gt => [] end)
                0 (childNodes n))
  end.

(** The children of [p] between two positions that part there. *)
Definition selected (lo hi : list Z) p : list (copy node) :=
  match lo, hi with
  | x :: lo', y :: hi' =>
      kids_at (λ i c, match 2 * i + 1 ?= x with
                      | Lt => []
                      | Eq => [clip_left lo' c]
                      | Gt => match 2 * i + 1 ?= y with Lt => [deep c] | Eq => [clip_right hi' c] | Gt => [] end
                      end) 0 (childNodes p)
  | _, _ => []
  end.

(** ** Lemmas on the pieces *)
Lemma substring_from (s : jstr) (a : Z) : 0 <= a → substring s a (Z.of_nat (length s)) = drop (Z.to_nat a) s.
Proof using Type.
  intros Ha. unfold substring, clamp. rewrite Z.min_id, Nat2Z.id.
  destruct (Z.le_ge_cases a (Z.of_nat (length s))) as [Hl|Hl].
  - replace (Nat.min _ _) with (Z.to_nat a) by lia. apply take_ge. rewrite length_drop. lia.
  - replace (Nat.min _ _) with (length s) by lia. rewrite !drop_ge by lia. by rewrite take_nil.
Qed.

Lemma substring_to (s : jstr) (b : Z) : 0 <= b → substring s 0 b = take (Z.to_nat b) s.
Proof using Type.
  intros Hb. unfold substring, clamp. replace (Nat.min _ _) with 0%nat by lia. rewrite drop_0.
  destruct (Z.le_ge_cases b (Z.of_nat (length s))) as [Hl|Hl]; [f_equal; lia|].
  rewrite !take_ge by lia. done.
Qed.

Lemma kids_at_app f i l1 l2 : kids_at f i (l1 ++ l2) = kids_at f i l1 ++ kids_at f (i + Z.of_nat (length l1)) l2.
Proof using Type.
  revert i. induction l1 as [|c l1 IH]; intros i; cbn [kids_at app length].
  - by rewrite Z.add_0_r.
  - rewrite IH, <- app_assoc. by replace (i + Z.of_nat (S (length l1))) with (i + 1 + Z.of_nat (length l1)) by lia.
Qed.

Lemma kids_at_deep f i l : (∀ j c, i <= j < i + Z.of_nat (length l) → f j c = [deep c]) → kids_at f i l = deep <$> l.
Proof using Type.
  revert i. induction l as [|c l IH]; intros i Hf; cbn; [done|]. cbn [length] in Hf.
  rewrite Hf by lia. rewrite IH; [done|]. intros. apply Hf. lia.
Qed.

Lemma kids_at_none f i l : (∀ j c, i <= j < i + Z.of_nat (length l) → f j c = []) → kids_at f i l = [].
Proof using Type.
  revert i. induction l as [|c l IH]; intros i Hf; cbn; [done|]. cbn [length] in Hf.
  rewrite Hf by lia. rewrite IH; [done|]. intros. apply Hf. lia.
Qed.

Lemma kids_at_split f l1 c l2 :
  kids_at f 0 (l1 ++ c :: l2) = kids_at f 0 l1 ++ f (Z.of_nat (length l1)) c ++ kids_at f (Z.of_nat (length l1) + 1) l2.
Proof using Type. rewrite kids_at_app. done. Qed.

Context `{!DomLaws node}.

Lemma parent_not_text n p : parentNode n = Some p → nodeType p ≠ 3.
Proof using Type*. intros Hp Ht. apply child_parent in Hp. rewrite (text_leaf p Ht) in Hp. by apply elem_of_nil in Hp. Qed.

Lemma traverse_shallow t n left : nodeType n ≠ 3 → _traverseNode t n false left = Some (Copy n false (nodeValue n) []).
Proof using Type. intros Hn. unfold _traverseNode. by destruct (Z.eqb_spec (nodeType n) 3). Qed.

Ltac kid_cases := intros; repeat match goal with |- context [?a ?= ?b] => destruct (Z.compare_spec a b); try lia end; done.

Lemma clip_left_at n l1 l2 o : nodeType n ≠ 3 → childNodes n = l1 ++ l2 → Z.of_nat (length l1) = o →
  clip_left [2 * o] n = Copy n false (nodeValue n) (deep <$> l2).
Proof using Type.
  intros Hn E Ho. cbn [clip_left]. destruct (Z.eqb_spec (nodeType n) 3); [done|]. f_equal.
  rewrite E, kids_at_app, kids_at_none, kids_at_deep; [done|kid_cases..].
Qed.

Lemma clip_right_at n l1 l2 o : nodeType n ≠ 3 → childNodes n = l1 ++ l2 → Z.of_nat (length l1) = o →
  clip_right [2 * o] n = Copy n false (nodeValue n) (deep <$> l1).
Proof using Type.
  intros Hn E Ho. cbn [clip_right]. destruct (Z.eqb_spec (nodeType n) 3); [done|]. f_equal.
  rewrite E, kids_at_app, kids_at_deep, kids_at_none, app_nil_r; [done|kid_cases..].
Qed.

Lemma clip_left_child p l1 c l2 lo : childNodes p = l1 ++ c :: l2 →
  clip_left (2 * Z.of_nat (child_index c) + 1 :: lo) p = Copy p false (nodeValue p) (clip_left lo c :: (deep <$> l2)).
Proof using Type*.
  intros E. pose proof (parent_not_text _ _ (split_parent _ _ _ _ E)). rewrite (split_index _ _ _ _ E).
  cbn [clip_left]. destruct (Z.eqb_spec (nodeType p) 3); [done|]. f_equal.
  rewrite E, kids_at_split, kids_at_none, Z.compare_refl, kids_at_deep; [done|kid_cases..].
Qed.

Lemma clip_right_child p l1 c l2 hi : childNodes p = l1 ++ c :: l2 →
  clip_right (2 * Z.of_nat (child_index c) + 1 :: hi) p = Copy p false (nodeValue p) ((deep <$> l1) ++ [clip_right hi c]).
Proof using Type*.
  intros E. pose proof (parent_not_text _ _ (split_parent _ _ _ _ E)). rewrite (split_index _ _ _ _ E).
  cbn [clip_right]. destruct (Z.eqb_spec (nodeType p) 3); [done|]. f_equal.
  rewrite E, kids_at_split, kids_at_deep, Z.compare_refl, kids_at_none, app_nil_r; [done|kid_cases..].
Qed.

(** *** The loops over siblings *)
Lemma left_siblings_full t p l1 l2 n d v k : ∀ f, childNodes p = l1 ++ l2 → (length l2 <= f)%nat →
  left_siblings t f (head l2) true (Copy n d v k) = Some (Copy n d v (k ++ (deep <$> l2)), true).
Proof using Type*.
  revert l1 k. induction l2 as [|x l2 IH]; intros l1 k f E Hf.
  - destruct f; cbn; by rewrite app_nil_r.
  - destruct f as [|f]; [cbn in Hf; lia|]. cbn [head left_siblings _traverseNode mbind option_bind appendChild].
    destruct (sibling_split _ _ _ _ E) as [_ ->].
    rewrite (IH (l1 ++ [x])) by (rewrite <- ?app_assoc; first [done|cbn in Hf; lia]).
    by rewrite <- app_assoc.
Qed.

Lemma right_siblings_full t p l1 l2 n d v k : ∀ f, childNodes p = l1 ++ l2 → (length l1 <= f)%nat →
  right_siblings t f (last l1) true (Copy n d v k) = Some (Copy n d v ((deep <$> l1) ++ k), true).
Proof using Type*.
  revert l2 k. induction l1 as [|x l1 IH] using rev_ind; intros l2 k f E Hf.
  - by destruct f.
  - rewrite last_snoc. rewrite length_app in Hf. destruct f as [|f]; [cbn in Hf; lia|].
    cbn [right_siblings _traverseNode mbind option_bind prependChild].
    rewrite <- app_assoc in E. destruct (sibling_split _ _ _ _ E) as [-> _].
    rewrite (IH (x :: l2)) by (first [done|cbn in Hf; lia]). by rewrite fmap_app, <- app_assoc.
Qed.

Lemma selected_loop_ok p l1 x l2 : ∀ pre f, childNodes p = pre ++ l1 ++ x :: l2 → (length l1 <= f)%nat →
  selected_loop f (Z.of_nat (length l1)) (head (l1 ++ x :: l2)) = Some x.
Proof using Type*.
  induction l1 as [|y l1 IH]; intros pre f E Hf; [by destruct f|].
  destruct f as [|f]; [cbn in Hf; lia|]. cbn [app head selected_loop].
  destruct (Z.ltb_spec 0 (Z.of_nat (length (y :: l1)))); [|cbn in *; lia].
  destruct (sibling_split _ _ _ _ E) as [_ ->]. replace (_ - 1) with (Z.of_nat (length l1)) by (cbn; lia).
  apply (IH (pre ++ [y])); [by rewrite <- app_assoc|cbn in Hf; lia].
Qed.

Lemma getSelectedNode_child n l1 x l2 : childNodes n = l1 ++ x :: l2 →
  _getSelectedNode n (Z.of_nat (length l1)) = x.
Proof using Type*.
  intros E. pose proof (parent_not_text _ _ (split_parent _ _ _ _ E)). unfold _getSelectedNode.
  destruct (Z.eqb_spec (nodeType n) 3); [done|]. destruct (Z.ltb_spec (Z.of_nat (length l1)) 0); [lia|].
  rewrite firstChild_head, E. rewrite (selected_loop_ok n l1 x l2 [] _ E); [done|]. rewrite length_app. lia.
Qed.

Lemma selected_loop_end p l : ∀ pre f, childNodes p = pre ++ l → (length l <= f)%nat →
  selected_loop f (Z.of_nat (length l)) (head l) = None.
Proof using Type*.
  induction l as [|y l IH]; intros pre f E Hf; [by destruct f|].
  destruct f as [|f]; [cbn in Hf; lia|]. cbn [head selected_loop].
  destruct (Z.ltb_spec 0 (Z.of_nat (length (y :: l)))); [|cbn in *; lia].
  destruct (sibling_split _ _ _ _ E) as [_ ->]. replace (_ - 1) with (Z.of_nat (length l)) by (cbn; lia).
  apply (IH (pre ++ [y])); [by rewrite <- app_assoc|cbn in Hf; lia].
Qed.

Lemma getSelectedNode_end n : _getSelectedNode n (Z.of_nat (length (childNodes n))) = n.
Proof using Type*.
  unfold _getSelectedNode. destruct (nodeType n =? 3); [done|]. destruct (Z.ltb_spec (Z.of_nat (length (childNodes n))) 0); [done|].
  rewrite firstChild_head, (selected_loop_end n (childNodes n) []) by done. done.
Qed.

(** ** The two boundaries *)

(** An offset within its container. *)
Definition offset_ok n (o : Z) : Prop :=
  0 <= o ∧ (nodeType n ≠ 3 → o <= Z.of_nat (length (childNodes n))).

Lemma even_half (o : Z) : 2 * o / 2 = o.
Proof using Type. rewrite Z.mul_comm. apply Z.div_mul. lia. Qed.

(** Where the left boundary starts: at the container itself, or at a child of it. *)
Lemma left_start t : let s := startContainer t in let o := startOffset t in offset_ok s o →
  (_getSelectedNode s o = s ∧ _traverseNode t s false true = Some (clip_left [2 * o] s))
  ∨ ∃ l1 x l2, childNodes s = l1 ++ x :: l2 ∧ Z.of_nat (length l1) = o ∧ _getSelectedNode s o = x.
Proof using Type*.
  intros s o [Ho Hl]. destruct (Z.eqb_spec (nodeType s) 3) as [Ht|Ht].
  - left. unfold _getSelectedNode, _traverseNode. cbn [clip_left]. rewrite Ht. cbn [Z.eqb Pos.eqb]. split; [done|].
    unfold text_of. destruct (text_value s Ht) as [v ->]. cbn [mbind option_bind default].
    fold o. by rewrite substring_from, even_half by done.
  - specialize (Hl Ht). destruct (Z.eq_dec o (Z.of_nat (length (childNodes s)))) as [->|Hne].
    + left. split; [apply getSelectedNode_end|]. rewrite traverse_shallow by done.
      by rewrite (clip_left_at s (childNodes s) [] _ Ht) by (rewrite ?app_nil_r; done).
    + right. destruct (lookup_lt_is_Some_2 (childNodes s) (Z.to_nat o) ltac:(lia)) as [x Hx].
      apply list_elem_of_split_length in Hx as (l1 & l2 & E & Hlen). exists l1, x, l2.
      assert (Z.of_nat (length l1) = o) as Hlo by lia. split_and!; [done..|]. rewrite <- Hlo.
      by apply getSelectedNode_child with l2.
Qed.

Lemma right_start t : let e := endContainer t in let o := endOffset t in offset_ok e o →
  (_getSelectedNode e (o - 1) = e ∧ _traverseNode t e false false = Some (clip_right [2 * o] e))
  ∨ ∃ l1 x l2, childNodes e = l1 ++ x :: l2 ∧ Z.of_nat (length l1) + 1 = o ∧ _getSelectedNode e (o - 1) = x.
Proof using Type*.
  intros e o [Ho Hl]. destruct (Z.eqb_spec (nodeType e) 3) as [Ht|Ht].
  - left. unfold _getSelectedNode, _traverseNode. cbn [clip_right]. rewrite Ht. cbn [Z.eqb Pos.eqb]. split; [done|].
    unfold text_of. destruct (text_value e Ht) as [v ->]. cbn [mbind option_bind default].
    fold o. by rewrite substring_to, even_half by done.
  - specialize (Hl Ht). destruct (Z.eq_dec o 0) as [->|Hne].
    + left. split.
      * unfold _getSelectedNode. by destruct (nodeType e =? 3).
      * rewrite traverse_shallow by done. by rewrite (clip_right_at e [] (childNodes e) _ Ht).
    + right. destruct (lookup_lt_is_Some_2 (childNodes e) (Z.to_nat (o - 1)) ltac:(lia)) as [x Hx].
      apply list_elem_of_split_length in Hx as (l1 & l2 & E & Hlen). exists l1, x, l2.
      assert (Z.of_nat (length l1) = o - 1) as Hlo by lia. split_and!; [done|lia|]. rewrite <- Hlo.
      by apply getSelectedNode_child with l2.
Qed.

Lemma left_parents_ok t r lo p : ∀ f next full cp s, (depth p <= f)%nat → r ∈ ancestors p → steps p = steps r ++ s →
  left_siblings t (length (childNodes p)) next full cp = Some (clip_left lo p, true) →
  left_parents t f r p next full cp = Some (clip_left (s ++ lo) r).
Proof using Type*.
  revert lo. induction p as [p IH] using up_ind. intros lo f next full cp s Hf Hr Hs Hcp.
  destruct (decide (p = r)) as [->|Hne].
  - rewrite <- (app_nil_r (steps r)) in Hs at 1. apply app_inv_head in Hs as <-.
    destruct f; cbn; by rewrite Hcp, bool_decide_true.
  - apply elem_ancestors in Hr as [|(gp & Hgp & Hr)]; [done|]. pose proof (depth_parent _ _ Hgp).
    destruct f as [|f]; [lia|]. cbn [left_parents]. rewrite Hcp. cbn [mbind option_bind].
    rewrite bool_decide_false, Hgp by done. cbn [mbind option_bind].
    rewrite traverse_shallow by (by eapply parent_not_text). cbn [mbind option_bind appendChild app].
    destruct (steps_above r gp Hr) as [s' Es']. destruct (kid_split _ _ Hgp) as (l1 & l2 & E & _ & _ & _ & En & Ei).
    rewrite (steps_child _ _ Hgp), Es', <- app_assoc in Hs. apply app_inv_head in Hs as <-.
    rewrite <- app_assoc. cbn [app]. apply (IH gp Hgp (_ :: lo)); [lia|done..|]. rewrite En.
    change (l1 ++ p :: l2) with (l1 ++ [p] ++ l2) in E. rewrite app_assoc in E.
    rewrite (left_siblings_full t gp _ l2) by (first [done|rewrite E, length_app; lia]).
    rewrite <- app_assoc in E. cbn [app] in E. by rewrite (clip_left_child gp l1 p l2 lo E).
Qed.

Lemma right_parents_ok t r hi p : ∀ f next full cp s, (depth p <= f)%nat → r ∈ ancestors p → steps p = steps r ++ s →
  right_siblings t (length (childNodes p)) next full cp = Some (clip_right hi p, true) →
  right_parents t f r p next full cp = Some (clip_right (s ++ hi) r).
Proof using Type*.
  revert hi. induction p as [p IH] using up_ind. intros hi f next full cp s Hf Hr Hs Hcp.
  destruct (decide (p = r)) as [->|Hne].
  - rewrite <- (app_nil_r (steps r)) in Hs at 1. apply app_inv_head in Hs as <-.
    destruct f; cbn; by rewrite Hcp, bool_decide_true.
  - apply elem_ancestors in Hr as [|(gp & Hgp & Hr)]; [done|]. pose proof (depth_parent _ _ Hgp).
    destruct f as [|f]; [lia|]. cbn [right_parents]. rewrite Hcp. cbn [mbind option_bind].
    rewrite bool_decide_false, Hgp by done. cbn [mbind option_bind].
    rewrite traverse_shallow by (by eapply parent_not_text). cbn [mbind option_bind appendChild app].
    destruct (steps_above r gp Hr) as [s' Es']. destruct (kid_split _ _ Hgp) as (l1 & l2 & E & _ & _ & Ep & _ & Ei).
    rewrite (steps_child _ _ Hgp), Es', <- app_assoc in Hs. apply app_inv_head in Hs as <-.
    rewrite <- app_assoc. cbn [app]. apply (IH gp Hgp (_ :: hi)); [lia|done..|]. rewrite Ep.
    rewrite (right_siblings_full t gp l1 (p :: l2)) by (first [done|rewrite E, length_app; lia]).
    by rewrite (clip_right_child gp l1 p l2 hi E).
Qed.

Lemma traverseLeftBoundary_ok t r s : offset_ok (startContainer t) (startOffset t) → r ∈ ancestors (startContainer t) →
  steps (startContainer t) = steps r ++ s →
  _traverseLeftBoundary t r = Some (clip_left (s ++ [2 * startOffset t]) r).
Proof using Type*.
  intros Ho Hr Hs. unfold _traverseLeftBoundary.
  destruct (left_start t Ho) as [[Hsel Hcopy]|(l1 & x & l2 & E & Hl & Hsel)]; rewrite Hsel.
  - rewrite (bool_decide_true (startContainer t = startContainer t)) by done. cbn [negb]. case_bool_decide as Hrt.
    + rewrite Hrt, <- (app_nil_r (steps r)) in Hs at 1. apply app_inv_head in Hs as <-. by rewrite Hcopy, Hrt.
    + apply elem_ancestors in Hr as [|(p & Hp & Hr)]; [done|]. rewrite Hp. cbn [mbind option_bind].
      rewrite traverse_shallow by (by eapply parent_not_text). cbn [mbind option_bind].
      destruct (steps_above r p Hr) as [s' Es']. destruct (kid_split _ _ Hp) as (l1 & l2 & E & _ & _ & _ & En & Ei).
      rewrite (steps_child _ _ Hp), Es', <- app_assoc in Hs. apply app_inv_head in Hs as <-.
      rewrite <- app_assoc. cbn [app]. apply left_parents_ok; [done..|].
      rewrite E, length_app. cbn [length]. rewrite Nat.add_succ_r. cbn [left_siblings].
      rewrite Hcopy. cbn [mbind option_bind appendChild app]. rewrite En, (clip_left_child p l1 _ l2 _ E).
      change (l1 ++ startContainer t :: l2) with (l1 ++ [startContainer t] ++ l2) in E. rewrite app_assoc in E.
      by rewrite (left_siblings_full t p _ l2) by (first [done|lia]).
  - pose proof (split_parent _ _ _ _ E) as Hp. rewrite (bool_decide_false (x = startContainer t)).
    2: { intros ->. apply kid_not_above in Hp. by destruct Hp; apply ancestors_self. }
    rewrite bool_decide_false.
    2: { intros ->. by apply kid_not_above in Hp. }
    cbn [negb]. rewrite Hp. cbn [mbind option_bind]. rewrite traverse_shallow by (by eapply parent_not_text).
    cbn [mbind option_bind]. apply left_parents_ok; [done..|].
    rewrite (clip_left_at _ l1 (x :: l2)) by (first [done|by eapply parent_not_text]).
    rewrite (left_siblings_full t (startContainer t) l1 (x :: l2)) by (first [done|rewrite E, length_app; lia]). done.
Qed.

Lemma traverseRightBoundary_ok t r s : offset_ok (endContainer t) (endOffset t) → r ∈ ancestors (endContainer t) →
  steps (endContainer t) = steps r ++ s →
  _traverseRightBoundary t r = Some (clip_right (s ++ [2 * endOffset t]) r).
Proof using Type*.
  intros Ho Hr Hs. unfold _traverseRightBoundary.
  destruct (right_start t Ho) as [[Hsel Hcopy]|(l1 & x & l2 & E & Hl & Hsel)]; rewrite Hsel.
  - rewrite (bool_decide_true (endContainer t = endContainer t)) by done. cbn [negb]. case_bool_decide as Hrt.
    + rewrite Hrt, <- (app_nil_r (steps r)) in Hs at 1. apply app_inv_head in Hs as <-. by rewrite Hcopy, Hrt.
    + apply elem_ancestors in Hr as [|(p & Hp & Hr)]; [done|]. rewrite Hp. cbn [mbind option_bind].
      rewrite traverse_shallow by (by eapply parent_not_text). cbn [mbind option_bind].
      destruct (steps_above r p Hr) as [s' Es']. destruct (kid_split _ _ Hp) as (l1 & l2 & E & _ & _ & Epr & _ & Ei).
      rewrite (steps_child _ _ Hp), Es', <- app_assoc in Hs. apply app_inv_head in Hs as <-.
      rewrite <- app_assoc. cbn [app]. apply right_parents_ok; [done..|].
      rewrite E, length_app. cbn [length]. rewrite Nat.add_succ_r. cbn [right_siblings].
      rewrite Hcopy. cbn [mbind option_bind prependChild app]. rewrite Epr, (clip_right_child p l1 _ l2 _ E).
      by rewrite (right_siblings_full t p l1 (endContainer t :: l2)) by (first [done|lia]).
  - pose proof (split_parent _ _ _ _ E) as Hp. rewrite (bool_decide_false (x = endContainer t)).
    2: { intros ->. apply kid_not_above in Hp. by destruct Hp; apply ancestors_self. }
    rewrite bool_decide_false.
    2: { intros ->. by apply kid_not_above in Hp. }
    cbn [negb]. rewrite Hp. cbn [mbind option_bind]. rewrite traverse_shallow by (by eapply parent_not_text).
    cbn [mbind option_bind]. apply right_parents_ok; [done..|].
    change (l1 ++ x :: l2) with (l1 ++ [x] ++ l2) in E. rewrite app_assoc in E.
    rewrite (clip_right_at _ (l1 ++ [x]) l2) by (first [done|by eapply parent_not_text|rewrite length_app; cbn; lia]).
    rewrite <- (last_snoc x l1).
    rewrite (right_siblings_full t (endContainer t) (l1 ++ [x]) l2) by (first [done|rewrite E, !length_app; lia]).
    by rewrite app_nil_r.
Qed.

(** ** The nodes between the boundaries *)
Lemma forward_loop_ok p l suf : ∀ pre f, childNodes p = pre ++ l ++ suf → (length l <= f)%nat →
  forward_loop f (head (l ++ suf)) (Z.of_nat (length l)) = deep <$> l.
Proof using Type*.
  induction l as [|x l IH]; intros pre f E Hf; [cbn; destruct f, suf; done|].
  destruct f as [|f]; [cbn in Hf; lia|]. cbn [app head forward_loop].
  destruct (Z.ltb_spec 0 (Z.of_nat (length (x :: l)))); [|cbn in *; lia].
  destruct (sibling_split _ _ _ _ E) as [_ ->]. replace (_ - 1) with (Z.of_nat (length l)) by (cbn; lia).
  cbn [fmap list_fmap]. f_equal. apply (IH (pre ++ [x])); [by rewrite <- app_assoc|cbn in Hf; lia].
Qed.

Lemma between_loop_ok p l suf : ∀ pre f, childNodes p = pre ++ l ++ suf → (length l <= f)%nat →
  between_loop f (head (l ++ suf)) (Z.of_nat (length l)) = Some (deep <$> l).
Proof using Type*.
  induction l as [|x l IH]; intros pre f E Hf; [by destruct f|].
  destruct f as [|f]; [cbn in Hf; lia|]. cbn [app head between_loop].
  destruct (Z.ltb_spec 0 (Z.of_nat (length (x :: l)))); [|cbn in *; lia].
  destruct (sibling_split _ _ _ _ E) as [_ En]. cbn [mbind option_bind]. rewrite En.
  replace (_ - 1) with (Z.of_nat (length l)) by (cbn; lia).
  rewrite (IH (pre ++ [x])) by (rewrite <- ?app_assoc; first [done|cbn in Hf; lia]). done.
Qed.

Lemma backward_loop_ok p pre l : ∀ suf f frag, childNodes p = pre ++ l ++ suf → (length l <= f)%nat →
  backward_loop f (last (pre ++ l)) (Z.of_nat (length l)) frag = Some ((deep <$> l) ++ frag).
Proof using Type*.
  induction l as [|x l IH] using rev_ind; intros suf f frag E Hf; [by destruct f|].
  rewrite length_app in *. destruct f as [|f]; [cbn in Hf; lia|]. rewrite app_assoc, last_snoc. cbn [backward_loop].
  destruct (Z.ltb_spec 0 (Z.of_nat (length l + length [x]))); [|cbn in *; lia]. cbn [mbind option_bind].
  rewrite <- app_assoc in E. cbn [app] in E. rewrite app_assoc in E. destruct (sibling_split _ _ _ _ E) as [-> _].
  replace (_ - 1) with (Z.of_nat (length l)) by (cbn; lia). rewrite <- app_assoc in E.
  rewrite (IH (x :: suf)) by (first [done|cbn in Hf; lia]). by rewrite fmap_app, <- app_assoc.
Qed.

Lemma selected_AA p l1 l2 l3 so eo : childNodes p = l1 ++ l2 ++ l3 → so = Z.of_nat (length l1) →
  eo = so + Z.of_nat (length l2) → selected [2 * so] [2 * eo] p = deep <$> l2.
Proof using Type.
  intros E -> ->. cbn [selected]. rewrite E, !kids_at_app, kids_at_none, kids_at_deep, kids_at_none, app_nil_r; [done|kid_cases..].
Qed.

Lemma selected_AB p l1 l2 d l3 so hi : childNodes p = l1 ++ l2 ++ d :: l3 → so = Z.of_nat (length l1) →
  selected [2 * so] (2 * Z.of_nat (child_index d) + 1 :: hi) p = (deep <$> l2) ++ [clip_right hi d].
Proof using Type*.
  intros E ->. pose proof E as E'. rewrite app_assoc in E'. rewrite (split_index _ _ _ _ E'), length_app.
  cbn [selected]. rewrite E, !kids_at_app. cbn [kids_at].
  rewrite kids_at_none, kids_at_deep, kids_at_none; [cbn [app]; f_equal|kid_cases..].
  kid_cases.
Qed.

Lemma selected_BA p l1 c l2 l3 lo eo : childNodes p = l1 ++ c :: l2 ++ l3 →
  eo = Z.of_nat (child_index c) + 1 + Z.of_nat (length l2) →
  selected (2 * Z.of_nat (child_index c) + 1 :: lo) [2 * eo] p = clip_left lo c :: (deep <$> l2).
Proof using Type*.
  intros E. rewrite (split_index _ _ _ _ E). intros ->.
  cbn [selected]. rewrite E, kids_at_split, kids_at_app, kids_at_none, kids_at_deep, kids_at_none, app_nil_r; [|kid_cases..].
  cbn [app]. kid_cases.
Qed.

Lemma selected_BB p l1 c l2 d l3 lo hi : childNodes p = l1 ++ c :: l2 ++ d :: l3 →
  selected (2 * Z.of_nat (child_index c) + 1 :: lo) (2 * Z.of_nat (child_index d) + 1 :: hi) p
  = clip_left lo c :: (deep <$> l2) ++ [clip_right hi d].
Proof using Type*.
  intros E. pose proof E as E'. change (l1 ++ c :: l2 ++ d :: l3) with (l1 ++ (c :: l2) ++ d :: l3) in E'.
  rewrite app_assoc in E'. rewrite (split_index _ _ _ _ E), (split_index _ _ _ _ E'), length_app. cbn [length].
  cbn [selected]. rewrite E, kids_at_split, kids_at_app. cbn [kids_at].
  rewrite kids_at_none, kids_at_deep, kids_at_none; [cbn [app]|kid_cases..]. rewrite Z.compare_refl. cbn [app].
  f_equal. f_equal. kid_cases.
Qed.

(** ** The climbing of [_traverse] *)
Definition level n : nat := length (ancestors n).

Lemma level_parent n p : parentNode n = Some p → level n = S (level p).
Proof using Type*. intros Hp. unfold level. by rewrite (ancestors_eq n), Hp. Qed.

Lemma below_loop_ok a c : ∀ f d, (depth c <= f)%nat →
  match below_loop f a c d with
  | inl x => parentNode x = Some a ∧ x ∈ ancestors c
  | inr d' => (∀ p, parentNode c = Some p → a ∉ ancestors p) ∧ d' = d + Z.of_nat (level c) - 1
  end.
Proof using Type*.
  induction c as [c IH] using up_ind. intros f d Hf.
  destruct (parentNode c) as [p|] eqn:Hp.
  - pose proof (depth_parent _ _ Hp). destruct f as [|f]; [lia|]. cbn [below_loop]. rewrite Hp.
    case_bool_decide as Ha; [subst; eauto using ancestors_self|].
    pose proof (IH p eq_refl f (d + 1) ltac:(lia)) as IH'. destruct (below_loop f a p (d + 1)) as [x|d'].
    + destruct IH'. eauto using ancestors_parent.
    + destruct IH' as [Hn ->]. rewrite (level_parent _ _ Hp). split; [|lia].
      intros q [= <-]. rewrite elem_ancestors. intros [->|(q & Hq & Hin)]; [done|]. by apply (Hn q).
  - assert (level c = 1%nat) as -> by (unfold level; by rewrite ancestors_eq, Hp).
    destruct f; cbn; rewrite Hp; (split; [done|lia]).
Qed.

Lemma ascend_ok (k : nat) n : (k < level n)%nat → ∃ m, ascend k (Some n) = Some m ∧ m ∈ ancestors n ∧ level n = (level m + k)%nat.
Proof using Type*.
  revert n. induction k as [|k IH]; intros n Hk.
  - exists n. split_and!; [done|apply ancestors_self|lia].
  - cbn. destruct (parentNode n) as [p|] eqn:Hp.
    + rewrite (level_parent _ _ Hp) in *. destruct (IH p ltac:(lia)) as (m & E & Hm & Hl).
      exists m. split_and!; [done|by eapply ancestors_parent|lia].
    + unfold level in Hk. rewrite ancestors_eq, Hp in Hk. cbn in Hk. lia.
Qed.

(** From two different nodes on one level, the two children of the lowest node above both. *)
Lemma pair_loop_ok x y : ∀ f, (depth x <= f)%nat → root_of x = root_of y → level x = level y → x ≠ y →
  ∃ p c d, pair_loop f x y = Some (c, d) ∧ parentNode c = Some p ∧ parentNode d = Some p ∧ c ≠ d
           ∧ c ∈ ancestors x ∧ d ∈ ancestors y.
Proof using Type*.
  revert y. induction x as [x IH] using up_ind. intros y f Hf Hroot Hlev Hne.
  destruct (parentNode x) as [p|] eqn:Hp, (parentNode y) as [q|] eqn:Hq.
  - pose proof (depth_parent _ _ Hp). destruct f as [|f]; [lia|]. cbn [pair_loop]. rewrite Hp, Hq.
    case_bool_decide as Hpq.
    + simplify_eq. exists q, x, y. eauto 10 using ancestors_self.
    + cbn [mbind option_bind]. rewrite (level_parent _ _ Hp), (level_parent _ _ Hq) in Hlev.
      rewrite (root_of_parent _ _ Hp), (root_of_parent _ _ Hq) in Hroot.
      destruct (IH p eq_refl q f ltac:(lia) Hroot ltac:(lia) ltac:(congruence)) as (r & c & d & E & Hc & Hd & Hcd & H1 & H2).
      exists r, c, d. eauto 10 using ancestors_parent.
  - exfalso. rewrite (level_parent _ _ Hp) in Hlev. unfold level in Hlev. rewrite (ancestors_eq y), Hq, (ancestors_eq p) in Hlev.
    cbn in Hlev. lia.
  - exfalso. rewrite (level_parent _ _ Hq) in Hlev. unfold level in Hlev. rewrite (ancestors_eq x), Hp, (ancestors_eq q) in Hlev.
    cbn in Hlev. lia.
  - exfalso. apply Hne. pose proof (root_of_last x) as E1. pose proof (root_of_last y) as E2.
    rewrite ancestors_eq, Hp in E1. rewrite ancestors_eq, Hq in E2. cbn in E1, E2. congruence.
Qed.

(** ** The four cases *)
Lemma substring_between (s : jstr) (a b : Z) : 0 <= a <= b →
  substring s a b = take (Z.to_nat (b - a)) (drop (Z.to_nat a) s).
Proof using Type.
  intros Hab. unfold substring, clamp.
  destruct (Z.le_ge_cases b (Z.of_nat (length s))); [f_equal; [lia|f_equal; lia]|].
  destruct (Z.le_ge_cases a (Z.of_nat (length s))).
  - replace (Nat.min _ _) with (Z.to_nat a) by lia. rewrite !take_ge by (rewrite length_drop; lia). done.
  - rewrite !drop_ge by lia. by rewrite !take_nil.
Qed.

Lemma two_children p c d : parentNode c = Some p → parentNode d = Some p → (child_index c < child_index d)%nat →
  ∃ l1 l2 l3, childNodes p = l1 ++ c :: l2 ++ d :: l3.
Proof using Type*.
  intros Hc Hd Hlt. destruct (kid_split _ _ Hc) as (l1 & l2 & E & _ & _ & _ & _ & Ei).
  pose proof Hd as Hin. apply child_parent in Hin. rewrite E in Hin.
  apply elem_of_app in Hin as [(k1 & k2 & ->)%list_elem_of_split|[->|(k1 & k2 & ->)%list_elem_of_split]%elem_of_cons].
  - rewrite <- app_assoc in E. rewrite (split_index _ _ _ _ E) in Hlt. rewrite Ei, length_app in Hlt. cbn in Hlt. lia.
  - lia.
  - eauto.
Qed.

Lemma common_ancestor_is a b p : root_of a = root_of b → p ∈ ancestors a → p ∈ ancestors b →
  (∀ c, parentNode c = Some p → c ∈ ancestors a → c ∈ ancestors b → False) → findCommonAncestor a b = Some p.
Proof using Type*.
  intros Hroot Ha Hb Hlow. destruct (findCommonAncestor_ok a b Hroot) as (r & E & Hra & Hrb & Hr). rewrite E. f_equal.
  destruct (decide (p = r)) as [|Hne]; [done|]. exfalso.
  destruct (ancestors_via_child p r (Hr p Ha Hb) Hne) as (c & Hc & Hin).
  apply (Hlow c Hc); by eapply ancestors_trans.
Qed.

Section Cases.
Context (t : range node) (Hgood : good t).
Context (Hs : offset_ok (startContainer t) (startOffset t)) (He : offset_ok (endContainer t) (endOffset t)).

Let s := startContainer t.
Let e := endContainer t.

(** What the traversal returns when the ends part at [p]. *)
Definition parts_at p (res : option (list (copy node))) : Prop :=
  ∃ lo hi, start_key t = steps p ++ lo ∧ end_key t = steps p ++ hi ∧ res = Some (selected lo hi p).

Lemma same_container : s = e → startOffset t < endOffset t → nodeType s ≠ 3 → parts_at s (_traverseSameContainer t).
Proof using Type*.
  intros Hse Hlt Ht. exists [2 * startOffset t], [2 * endOffset t]. unfold start_key, end_key, key. fold s e. rewrite <- Hse.
  split_and!; [done..|]. unfold _traverseSameContainer. fold s.
  destruct (Z.eqb_spec (startOffset t) (endOffset t)); [lia|]. destruct (Z.eqb_spec (nodeType s) 3); [done|].
  destruct Hs as [Ho Hl], He as [_ Hl']. fold e in Hl'. rewrite <- Hse in Hl'. fold s in Hl. specialize (Hl Ht). specialize (Hl' Ht).
  pose proof (take_drop (Z.to_nat (startOffset t)) (childNodes s)) as E.
  rewrite <- (take_drop (Z.to_nat (endOffset t - startOffset t)) (drop _ _)) in E.
  set (l1 := take (Z.to_nat (startOffset t)) _) in E. set (l2 := take _ (drop _ _)) in E. set (l3 := drop _ (drop _ _)) in E.
  assert (length l1 = Z.to_nat (startOffset t)) as El1 by (apply length_take_le; lia).
  assert (length l2 = Z.to_nat (endOffset t - startOffset t)) as El2 by (apply length_take_le; rewrite length_drop; lia).
  clearbody l1 l2 l3. symmetry in E. rewrite (selected_AA s l1 l2 l3) by (done || lia). f_equal.
  destruct l2 as [|x l2]; [cbn in El2; lia|].
  rewrite <- (getSelectedNode_child s l1 x (l2 ++ l3) E). replace (Z.of_nat (length l1)) with (startOffset t) by lia.
  replace (endOffset t - startOffset t) with (Z.of_nat (length (x :: l2))) by lia.
  assert (_getSelectedNode s (startOffset t) = x) as ->.
  { rewrite <- (getSelectedNode_child s l1 x (l2 ++ l3) E). f_equal. lia. }
  rewrite (forward_loop_ok s (x :: l2) l3 l1) by (first [done|rewrite E, !length_app; cbn; lia]). done.
Qed.

Lemma common_start c : parentNode c = Some s → c ∈ ancestors e → parts_at s (_traverseCommonStartContainer t c).
Proof using Type*.
  intros Hc Hin. destruct (steps_above c e Hin) as [r Er].
  destruct (kid_split _ _ Hc) as (k1 & l3 & E & _ & _ & Ep & _ & Ei).
  assert (startOffset t <= Z.of_nat (child_index c)) as Hle.
  { pose proof (good_order t Hgood) as Hord. unfold start_key, end_key in Hord.
    destruct (compare_above s (startOffset t) e (endOffset t) c Hc Hin) as [Hlex _]. fold s e in Hord. rewrite Hlex in Hord.
    by destruct (Z.leb_spec (startOffset t) (Z.of_nat (child_index c))). }
  destruct Hs as [Ho _].
  exists [2 * startOffset t], (2 * Z.of_nat (child_index c) + 1 :: r ++ [2 * endOffset t]).
  unfold start_key, end_key, key. fold s e. rewrite Er, (steps_child _ _ Hc), <- !app_assoc. split_and!; [done..|].
  pose proof (take_drop (Z.to_nat (startOffset t)) k1) as Ek.
  set (l1 := take _ k1) in Ek. set (l2 := drop _ k1) in Ek.
  assert (length l1 = Z.to_nat (startOffset t)) as El1 by (apply length_take_le; lia).
  clearbody l1 l2. subst k1. rewrite <- app_assoc in E. rewrite length_app in Ei.
  rewrite (selected_AB s l1 l2 c l3) by (done || lia).
  unfold _traverseCommonStartContainer. rewrite (traverseRightBoundary_ok t c r) by done. cbn [mbind option_bind].
  rewrite nodeIndex_plain. cbn [mbind option_bind].
  destruct (Z.leb_spec (Z.of_nat (child_index c) - startOffset t) 0).
  - assert (length l2 = 0%nat) as El2 by lia. by apply nil_length_inv in El2 as ->.
  - rewrite Ep. replace (Z.of_nat (child_index c) - startOffset t) with (Z.of_nat (length l2)) by lia.
    apply (backward_loop_ok s l1 l2 (c :: l3)); [done|]. unfold sibling_fuel. rewrite Hc, E, !length_app. lia.
Qed.

Lemma common_end c : parentNode c = Some e → c ∈ ancestors s → parts_at e (_traverseCommonEndContainer t c).
Proof using Type*.
  intros Hc Hin. destruct (steps_above c s Hin) as [r Er].
  destruct (kid_split _ _ Hc) as (l1 & k2 & E & _ & _ & _ & En & Ei).
  assert (Z.of_nat (child_index c) < endOffset t) as Hlt.
  { pose proof (good_order t Hgood) as Hord. unfold start_key, end_key in Hord.
    destruct (compare_above e (endOffset t) s (startOffset t) c Hc Hin) as [_ Hlex]. fold s e in Hord. rewrite Hlex in Hord.
    by destruct (Z.leb_spec (endOffset t) (Z.of_nat (child_index c))). }
  destruct He as [_ Hl]. fold e in Hl. specialize (Hl (parent_not_text _ _ Hc)). rewrite E, length_app in Hl. cbn in Hl.
  exists (2 * Z.of_nat (child_index c) + 1 :: r ++ [2 * startOffset t]), [2 * endOffset t].
  unfold start_key, end_key, key. fold s e. rewrite Er, (steps_child _ _ Hc), <- !app_assoc. split_and!; [done..|].
  set (m := Z.to_nat (endOffset t - (Z.of_nat (child_index c) + 1))).
  pose proof (take_drop m k2) as Ek. set (l2 := take m k2) in Ek. set (l3 := drop m k2) in Ek.
  assert (length l2 = m) as El2 by (apply length_take_le; lia). clearbody l2 l3. subst k2.
  rewrite (selected_BA e l1 c l2 l3) by (done || lia).
  unfold _traverseCommonEndContainer. rewrite (traverseLeftBoundary_ok t c r) by done. cbn [mbind option_bind].
  rewrite nodeIndex_plain. cbn [mbind option_bind]. rewrite En. f_equal. f_equal.
  replace (endOffset t - (Z.of_nat (child_index c) + 1)) with (Z.of_nat (length l2)) by lia.
  change (l1 ++ c :: l2 ++ l3) with (l1 ++ [c] ++ l2 ++ l3) in E. rewrite app_assoc in E.
  apply (forward_loop_ok e l2 l3 _ _ E). unfold sibling_fuel. rewrite Hc, E, !length_app. lia.
Qed.

Lemma common_above p c d : parentNode c = Some p → parentNode d = Some p → c ∈ ancestors s → d ∈ ancestors e →
  (child_index c < child_index d)%nat → parts_at p (_traverseCommonAncestors t c d).
Proof using Type*.
  intros Hc Hd Hcs Hde Hlt. destruct (steps_above c s Hcs) as [r Er]. destruct (steps_above d e Hde) as [r' Er'].
  destruct (two_children p c d Hc Hd Hlt) as (l1 & l2 & l3 & E).
  exists (2 * Z.of_nat (child_index c) + 1 :: r ++ [2 * startOffset t]), (2 * Z.of_nat (child_index d) + 1 :: r' ++ [2 * endOffset t]).
  unfold start_key, end_key, key. fold s e. rewrite Er, Er', (steps_child _ _ Hc), (steps_child _ _ Hd), <- !app_assoc.
  split_and!; [done..|]. rewrite (selected_BB p l1 c l2 d l3) by done.
  unfold _traverseCommonAncestors. rewrite (traverseLeftBoundary_ok t c r) by done. cbn [mbind option_bind].
  rewrite Hc. cbn [mbind option_bind]. rewrite !nodeIndex_plain. cbn [mbind option_bind].
  destruct (sibling_split _ _ _ _ E) as [_ ->].
  pose proof (split_index _ _ _ _ E) as Eic. change (l1 ++ c :: l2 ++ d :: l3) with (l1 ++ [c] ++ l2 ++ d :: l3) in E.
  rewrite app_assoc in E. pose proof E as E'. rewrite app_assoc in E'. pose proof (split_index _ _ _ _ E') as Eid.
  rewrite !length_app in Eid. cbn in Eid.
  replace (Z.of_nat (child_index d) - (Z.of_nat (child_index c) + 1)) with (Z.of_nat (length l2)) by lia.
  rewrite (between_loop_ok p l2 (d :: l3) _ _ E) by (unfold sibling_fuel; rewrite Hc, E, !length_app; lia).
  cbn [mbind option_bind]. rewrite (traverseRightBoundary_ok t d r') by done. done.
Qed.
End Cases.

(** Where the climbing of [_traverse] ends: at a child of one container above the other, or at two children of the
    lowest node above both. *)
Definition meet t : Prop :=
  let s := startContainer t in let e := endContainer t in
  match below_loop (depth e) s e 0 with
  | inl c => parentNode c = Some s ∧ c ∈ ancestors e ∧ findCommonAncestor s e = Some s
  | inr n =>
      match below_loop (depth s) e s 0 with
      | inl c => parentNode c = Some e ∧ c ∈ ancestors s ∧ findCommonAncestor s e = Some e
      | inr m => ∃ x y c d p, ascend (Z.to_nat (m - n)) (Some s) = Some x ∧ ascend (Z.to_nat (- (m - n))) (Some e) = Some y
          ∧ pair_loop (depth x) x y = Some (c, d) ∧ parentNode c = Some p ∧ parentNode d = Some p ∧ c ∈ ancestors s ∧ d ∈ ancestors e
          ∧ (child_index c < child_index d)%nat ∧ findCommonAncestor s e = Some p
      end
  end.

(** Neither container is above the other. *)
Lemma meet_apart t (n m : Z) : good t → startContainer t ∉ ancestors (endContainer t) → endContainer t ∉ ancestors (startContainer t) →
  n = Z.of_nat (level (endContainer t)) - 1 → m = Z.of_nat (level (startContainer t)) - 1 →
  ∃ x y c d p, ascend (Z.to_nat (m - n)) (Some (startContainer t)) = Some x ∧ ascend (Z.to_nat (- (m - n))) (Some (endContainer t)) = Some y
    ∧ pair_loop (depth x) x y = Some (c, d) ∧ parentNode c = Some p ∧ parentNode d = Some p
    ∧ c ∈ ancestors (startContainer t) ∧ d ∈ ancestors (endContainer t)
    ∧ (child_index c < child_index d)%nat ∧ findCommonAncestor (startContainer t) (endContainer t) = Some p.
Proof using Type*.
  intros Hg Hse Hes -> ->. pose proof (good_root t Hg) as Hroot.
  assert (∀ a, 0 < level a)%nat as Hpos by (intros a; unfold level; rewrite ancestors_eq; cbn; lia).
  pose proof (Hpos (startContainer t)). pose proof (Hpos (endContainer t)).
  set (df := _ - _ : Z).
  assert (df = Z.of_nat (level (startContainer t)) - Z.of_nat (level (endContainer t))) as Edf by (unfold df; lia).
  clearbody df.
  destruct (ascend_ok (Z.to_nat df) (startContainer t)) as (x & Ex & Hx & Hlx); [lia|].
  destruct (ascend_ok (Z.to_nat (- df)) (endContainer t)) as (y & Ey & Hy & Hly); [lia|].
  assert (x ≠ y) as Hne.
  { intros ->. destruct (Z.le_ge_cases df 0) as [Hd|Hd].
    - replace (Z.to_nat df) with 0%nat in Ex by lia. cbn in Ex. simplify_eq. done.
    - replace (Z.to_nat (- df)) with 0%nat in Ey by lia. cbn in Ey. simplify_eq. done. }
  rewrite (root_of_ancestor _ _ Hx), (root_of_ancestor _ _ Hy) in Hroot.
  destruct (pair_loop_ok x y (depth x) (le_n _) Hroot ltac:(lia) Hne) as (p & c & d & Epair & Hc & Hd & Hcd & Hcx & Hdy).
  pose proof (ancestors_trans _ _ _ Hcx Hx) as Hcs. pose proof (ancestors_trans _ _ _ Hdy Hy) as Hde.
  assert (findCommonAncestor (startContainer t) (endContainer t) = Some p) as Ep.
  { apply common_ancestor_is; [apply Hg|eauto using ancestors_parent, ancestors_self, ancestors_trans..|].
    intros c' Hc' Hi1 Hi2. apply Hcd. transitivity c'; [|symmetry]; by eapply child_of_ancestor_unique. }
  exists x, y, c, d, p. split_and!; try done.
  destruct (compare_apart (startContainer t) (startOffset t) (endContainer t) (endOffset t) (good_root t Hg) Hse Hes)
    as (p' & ca & cb & E & Hca & Hcb & Hia & Hib & _ & Hlex). simplify_eq.
  rewrite (child_of_ancestor_unique p c ca (startContainer t)), (child_of_ancestor_unique p d cb (endContainer t)) by done.
  pose proof (good_order t Hg) as Hord. unfold start_key, end_key in Hord. rewrite Hlex in Hord.
  by destruct (Nat.ltb_spec (child_index ca) (child_index cb)).
Qed.

Lemma meet_ok t : good t → startContainer t ≠ endContainer t → meet t.
Proof using Type*.
  intros Hg Hne. pose proof (good_root t Hg) as Hroot. unfold meet.
  pose proof (below_loop_ok (startContainer t) (endContainer t) _ 0 (le_n _)) as B1.
  pose proof (below_loop_ok (endContainer t) (startContainer t) _ 0 (le_n _)) as B2.
  destruct (below_loop (depth (endContainer t)) _ _ _) as [c|n].
  { destruct B1 as [Hc Hin]. split_and!; [done..|]. apply common_ancestor_is; [done|apply ancestors_self|eauto using ancestors_parent, ancestors_self, ancestors_trans|].
    intros c' Hc' ? _. by apply kid_not_above in Hc'. }
  destruct (below_loop (depth (startContainer t)) _ _ _) as [c|m].
  { destruct B2 as [Hc Hin]. split_and!; [done..|]. apply common_ancestor_is; [done|eauto using ancestors_parent, ancestors_self, ancestors_trans|apply ancestors_self|].
    intros c' Hc' _ ?. by apply kid_not_above in Hc'. }
  destruct B1 as [B1 ->], B2 as [B2 ->]. apply meet_apart; [done| | |lia..].
  - rewrite elem_ancestors. intros [?|(q & Hq & Hin)]; [done|]. exact (B1 q Hq Hin).
  - rewrite elem_ancestors. intros [?|(q & Hq & Hin)]; [congruence|]. exact (B2 q Hq Hin).
Qed.

Lemma traverse_parts t : good t → offset_ok (startContainer t) (startOffset t) → offset_ok (endContainer t) (endOffset t) →
  startContainer t ≠ endContainer t →
  ∃ p, findCommonAncestor (startContainer t) (endContainer t) = Some p ∧ parts_at t p (_traverse t).
Proof using Type*.
  intros Hg Hs He Hne. pose proof (meet_ok t Hg Hne) as Hm. unfold meet, _traverse in *. rewrite bool_decide_false by done.
  destruct (below_loop (depth (endContainer t)) _ _ _) as [c|n].
  { destruct Hm as (Hc & Hin & E). eexists. split; [exact E|]. by apply common_start. }
  destruct (below_loop (depth (startContainer t)) _ _ _) as [c|m].
  { destruct Hm as (Hc & Hin & E). eexists. split; [exact E|]. by apply common_end. }
  destruct Hm as (x & y & c & d & p & -> & -> & Epair & Hc & Hd & Hcs & Hde & Hlt & E). eexists. split; [exact E|].
  cbn [mbind option_bind]. rewrite Epair. cbn [mbind option_bind]. by apply common_above.
Qed.

Lemma same_parts t : good t → offset_ok (startContainer t) (startOffset t) → offset_ok (endContainer t) (endOffset t) →
  startContainer t = endContainer t → startOffset t < endOffset t → nodeType (startContainer t) ≠ 3 →
  findCommonAncestor (startContainer t) (endContainer t) = Some (startContainer t) ∧ parts_at t (startContainer t) (_traverse t).
Proof using Type*.
  intros Hg Hs He Hse Hlt Ht. split.
  - rewrite <- Hse. apply common_ancestor_is; [done|apply ancestors_self..|]. intros c Hc Hin _. by apply kid_not_above in Hc.
  - unfold _traverse. rewrite bool_decide_true by done. apply same_container; done || lia.
Qed.

(** The offsets of a range within one container are in order. *)
Lemma same_order t : good t → startContainer t = endContainer t → startOffset t <= endOffset t.
Proof using Type*.
  intros Hg Hse. pose proof (good_order t Hg) as Hord. unfold start_key, end_key, key in Hord. rewrite <- Hse, lexcmp_app in Hord.
  cbn in Hord. revert Hord. destruct (Z.compare_spec (2 * startOffset t) (2 * endOffset t)); done || lia.
Qed.

(** C13: [cloneContents] of a range returns nothing when it is collapsed, the text in between within one
    text, and otherwise, for the lowest node above both ends, its children between the two positions: those
    wholly inside as deep copies, the two cut through as copies of what is on the inner side. *)
Theorem cloneContents_ok t : good t →
  offset_ok (startContainer t) (startOffset t) → offset_ok (endContainer t) (endOffset t) →
  if collapsed t then cloneContents t = Some []
  else if bool_decide (startContainer t = endContainer t) && (nodeType (startContainer t) =? 3) then
    let sub := take (Z.to_nat (endOffset t - startOffset t)) (drop (Z.to_nat (startOffset t)) (text_of (startContainer t))) in
    cloneContents t = Some (if truthy sub then [NewText sub] else [])
  else ∃ p lo hi, findCommonAncestor (startContainer t) (endContainer t) = Some p
    ∧ start_key t = steps p ++ lo ∧ end_key t = steps p ++ hi
    ∧ cloneContents t = Some (selected lo hi p).
Proof using Type*.
  intros Hg Hs He. rewrite (good_collapsed t Hg). unfold _isCollapsed, cloneContents. case_bool_decide as Hse; cbn [andb].
  - pose proof (same_order t Hg Hse). destruct (Z.eqb_spec (startOffset t) (endOffset t)) as [Ho|Ho].
    + unfold _traverse, _traverseSameContainer. by rewrite bool_decide_true, Ho, Z.eqb_refl by done.
    + destruct (Z.eqb_spec (nodeType (startContainer t)) 3) as [Ht|Ht].
      * unfold _traverse, _traverseSameContainer. rewrite bool_decide_true, Ht by done.
        destruct (Z.eqb_spec (startOffset t) (endOffset t)); [done|]. cbn [Z.eqb Pos.eqb].
        unfold text_of. destruct (text_value _ Ht) as [v ->]. cbn [mbind option_bind default].
        rewrite substring_between by (destruct Hs; lia). done.
      * destruct (same_parts t Hg Hs He Hse ltac:(lia) Ht) as (E & lo & hi & Hp). by exists (startContainer t), lo, hi.
  - destruct (traverse_parts t Hg Hs He Hse) as (p & E & lo & hi & Hp). by exists p, lo, hi.
Qed.
End RangeClone.

(** From within "ab" to within "de": the ends of two paragraphs. *)
Lemma cloneContents_ok_witness :
  @cloneContents nat (table_dom sample) two_paragraphs
  = Some [Copy 3%nat false None [Copy 4%nat false (Some (js "b")) []; Copy 5%nat true None []];
          Copy 7%nat false None [Copy 8%nat false (Some (js "d")) []]].
Proof.
  pose proof (table_laws sample sample_ok) as L. pose proof two_paragraphs_good as G.
  pose proof (@cloneContents_ok nat (table_dom sample) L two_paragraphs G
    ltac:(split; [by vm_compute|intros E; by vm_compute in E]) ltac:(split; [by vm_compute|intros E; by vm_compute in E])) as E.
  destruct E as (p & lo & hi & Ep & E1 & E2 & E3).
  etransitivity; [exact E3|]. vm_compute in Ep. injection Ep as <-. vm_compute in E1, E2.
  injection E1 as <-. injection E2 as <-. by vm_compute.
Defined.
