(* ===== verification/RangeUtils.v ===== *)
(** * classes/dom/RangeUtils.js

    Walking the nodes of a range, and comparing ranges.  The document is the interface of Dom;
    the calls of the callback are the result, so the callback reads only. *)

From S2P Require Import Prelude Dom TreeWalker DOMUtils Range RangeClone.

Section RangeUtils.
Context {node : Type} `{Dom node}.
Implicit Types (n p c a b x : node) (t : range node).

(** [dom.select('td.mce-item-selected,th.mce-item-selected')] *)
Context (select : list node).

(** ** walk *)
(** [node[name]], collected up to [end_node]; an [end_node] that is missing or null is never met. *)
Fixpoint collectSiblings (fuel : nat) (name : node -> option node) (end_node o : option node) : list node :=
  match o with
  | None => []
  | Some n =>
      if bool_decide (o = end_node) then []
      else n :: match fuel with O => [] | S f => collectSiblings f name end_node (name n) end
  end.

(** [childNodes[offset]]; [None] is undefined. *)
Definition item (n : node) (o : Z) : option node := if o <? 0 then None else childNodes n !! Z.to_nat o.

(** Index based positions are resolved. *)
Definition has_index n : bool := (nodeType n =? 1) && negb (bool_decide (childNodes n = [])).
Definition start_node t : option node :=
  if has_index (startContainer t) then item (startContainer t) (startOffset t) else Some (startContainer t).
Definition end_node t : option node :=
  if has_index (endContainer t) then
    item (endContainer t) (Z.min (endOffset t - 1) (Z.of_nat (length (childNodes (endContainer t))) - 1))
  else Some (endContainer t).

(** [findEndPoint(node, root) || node] *)
Definition findEndPoint n (root : option node) : node := default n (climb_to root n).

(** The ends are left out when the range does not reach into their texts. *)
Definition exclude (s e : node) (so eo : Z) (nodes : list node) : list node :=
  let nodes :=
    match nodes with
    | n :: rest => if (nodeType n =? 3) && bool_decide (n = s) && (Z.of_nat (length (default [] (nodeValue n))) <=? so) then rest else nodes
    | [] => []
    end in
  match last nodes with
  | Some n => if (eo =? 0) && bool_decide (n = e) && (nodeType n =? 3) then removelast nodes else nodes
  | None => nodes
  end.

Section Walk.
(** What the callback is given of a list of siblings. *)
Context (visit : list node -> list node) (s e : node).

(** [if (siblings.length) callback(exclude(siblings))] *)
Definition call (siblings : list node) : list (list node) :=
  match siblings with [] => [] | _ => [visit siblings] end.

(** The loop of [walkBoundary] at [n]. *)
Fixpoint walkBoundary (fuel : nat) (start : node) (stop : option node) (forward : bool) n : list (list node) :=
  if bool_decide (Some n = stop) then []
  else
    let name := if forward then nextSibling else previousSibling in
    let siblings := collectSiblings (sibling_fuel n) name None (if bool_decide (n = start) then Some n else name n) in
    call (if forward then siblings else reverse siblings)
      ++ match fuel, parentNode n with
         | S f, Some p => walkBoundary f start stop forward p
         | _, _ => []
         end.
Definition boundary (start : node) (stop : option node) (forward : bool) : list (list node) :=
  walkBoundary (depth start) start stop forward start.

(** The loops that look for one container above the other. *)
Definition meets (x : node) (ancestor : option node) (n : node) : bool :=
  match climb (λ n, bool_decide (n = x) || bool_decide (Some n = ancestor)) n with Some n => bool_decide (n = x) | None => false end.

(** The siblings from the start point to the end point. *)
Definition middle (startPoint endPoint : node) : list node :=
  collectSiblings (sibling_fuel startPoint) nextSibling
    (if bool_decide (endPoint = e) then nextSibling endPoint else Some endPoint)
    (if bool_decide (startPoint = s) then Some startPoint else nextSibling startPoint).

Definition walk_nodes : list (list node) :=
  if bool_decide (s = e) then [visit [s]]
  else
    let ancestor := findCommonAncestor s e in
    if meets e ancestor s then boundary s ancestor true
    else if meets s ancestor e then boundary e ancestor false
    else
      let startPoint := findEndPoint s ancestor in
      let endPoint := findEndPoint e ancestor in
      boundary s (Some startPoint) true ++ call (middle startPoint endPoint) ++ boundary e (Some endPoint) false.
End Walk.

(** The calls of the callback, in their order; [None]: a member of undefined is read. *)
Definition walk t : option (list (list node)) :=
  if negb (bool_decide (select = [])) then Some ((λ n, [n]) <$> select)
  else
    s ← start_node t;
    e ← end_node t;
    Some (walk_nodes (exclude s e (startOffset t) (endOffset t)) s e).

(** ** compareRanges *)
(** Ranges of the standard have neither [item] nor [duplicate]. *)
Definition compareRanges (rng1 rng2 : option (range node)) : bool :=
  match rng1, rng2 with
  | Some t, Some r => bool_decide (startContainer t = startContainer r) && (startOffset t =? startOffset r)
  | _, _ => false
  end.

(** ** The order of nodes *)
Context `{!DomLaws node}.

(** [v] is a later sibling of [a]. *)
Definition right_of a v : Prop := ∃ p, parentNode a = Some p ∧ parentNode v = Some p ∧ (child_index a < child_index v)%nat.
(** [x] is after [a] and not below it. *)
Definition precedes a x : Prop := ∃ b v, b ∈ ancestors a ∧ v ∈ ancestors x ∧ right_of b v.

Lemma precedes_lex a x : precedes a x → lexcmp (steps a) (steps x) = Lt ∧ lexcmp (steps x) (steps a) = Gt.
Proof using Type*.
  intros (b & v & Hb & Hv & p & Hbp & Hvp & Hlt).
  destruct (steps_through _ _ _ Hbp Hb) as [r1 E1]. destruct (steps_through _ _ _ Hvp Hv) as [r2 E2].
  rewrite E1, E2, !lexcmp_app. cbn. rewrite (proj2 (Z.compare_lt_iff _ _)), (proj2 (Z.compare_gt_iff _ _)) by lia. done.
Qed.

Lemma apart_cases a x : root_of a = root_of x → a ∉ ancestors x → x ∉ ancestors a → precedes a x ∨ precedes x a.
Proof using Type*.
  intros Hr Ha Hx. destruct (compare_apart a 0 x 0 Hr Ha Hx) as (p & ca & cb & _ & Hca & Hcb & Hia & Hib & Hne & _).
  assert (child_index ca ≠ child_index cb) by (intros E; by apply Hne, (child_index_inj ca cb p)).
  destruct (decide (child_index ca < child_index cb)%nat); [left; exists ca, cb|right; exists cb, ca];
    split_and!; try done; exists p; split_and!; try done. lia.
Qed.

Lemma above_lex a x : a ∈ ancestors x → a ≠ x → lexcmp (steps a) (steps x) = Lt ∧ lexcmp (steps x) (steps a) = Gt.
Proof using Type*.
  intros Ha Hne. destruct (ancestors_via_child a x Ha Hne) as (c & Hc & Hin). destruct (steps_through _ _ _ Hc Hin) as [r E].
  rewrite E. rewrite <- (app_nil_r (steps a)) at 1 4. by rewrite !lexcmp_app.
Qed.

Lemma from_cases s x : root_of s = root_of x → lexcmp (steps s) (steps x) ≠ Gt ↔ s ∈ ancestors x ∨ precedes s x.
Proof using Type*.
  intros Hr. split.
  - intros Hle. destruct (decide (s ∈ ancestors x)) as [|Hs]; [by left|right]. destruct (decide (x ∈ ancestors s)) as [Hx|Hx].
    + destruct (above_lex x s Hx) as [_ E]; [intros ->; apply Hs, ancestors_self|congruence].
    + destruct (apart_cases s x Hr Hs Hx) as [|Hp]; [done|]. apply precedes_lex in Hp as [_ E]. congruence.
  - intros [Hs|Hp]; [|apply precedes_lex in Hp as [E _]; congruence].
    destruct (decide (s = x)) as [->|Hne]; [by rewrite lexcmp_refl|]. destruct (above_lex s x Hs Hne) as [E _]. congruence.
Qed.

Lemma precedes_not_above a x : precedes a x → (a ∉ ancestors x) ∧ x ∉ ancestors a.
Proof using Type*.
  intros (b & v & Hb & Hv & p & Hbp & Hvp & Hlt). assert (b ≠ v) as Hne by (intros ->; lia). split; intros Ha; apply Hne.
  - eapply (child_of_ancestor_unique p b v x); try done. by eapply ancestors_trans.
  - eapply (child_of_ancestor_unique p b v a); try done. by eapply ancestors_trans.
Qed.

(** ** The lists of siblings *)
Lemma collect_forward p rest : ∀ mid pre f, childNodes p = pre ++ mid ++ rest → (length mid <= S f)%nat →
  collectSiblings f nextSibling (head rest) (head (mid ++ rest)) = mid.
Proof using Type*.
  induction mid as [|x mid IH]; intros pre f E Hf.
  - destruct rest as [|y rest], f; cbn; rewrite ?bool_decide_true by done; done.
  - assert (head (x :: mid ++ rest) ≠ head rest) as Hne.
    { destruct rest as [|y rest]; [done|]. intros [= ->]. pose proof (child_NoDup p) as Hnd. rewrite E in Hnd.
      apply NoDup_app in Hnd as (_ & _ & Hnd). cbn in Hnd. apply NoDup_cons in Hnd as [Hnd _]. apply Hnd, elem_of_app. right. by left. }
    pose proof E as E'. cbn [app] in E'. destruct (sibling_split _ _ _ _ E') as [_ Hn].
    destruct f as [|f]; cbn [app head collectSiblings]; rewrite bool_decide_false by done; f_equal.
    + destruct mid; [done|cbn in Hf; lia].
    + rewrite Hn. apply (IH (pre ++ [x])); [by rewrite <- app_assoc|cbn in Hf; lia].
Qed.

Lemma collect_backward p rest : ∀ mid f, childNodes p = mid ++ rest → (length mid <= S f)%nat →
  collectSiblings f previousSibling None (last mid) = reverse mid.
Proof using Type*.
  intros mid. revert rest. induction mid as [|x mid IH] using rev_ind; intros rest f E Hf; [by destruct f|].
  rewrite last_snoc, reverse_app. rewrite <- app_assoc in E. destruct (sibling_split _ _ _ _ E) as [Hp _].
  rewrite length_app in Hf. cbn in Hf. destruct f as [|f]; cbn [collectSiblings]; rewrite bool_decide_false by done; cbn; f_equal.
  - destruct mid; [done|cbn in Hf; lia].
  - rewrite Hp. apply (IH (x :: rest) f E). lia.
Qed.

Definition side (forward : bool) a v : Prop := if forward then right_of a v else right_of v a.

(** The siblings collected at a child, from it on or next to it, in the order of the document. *)
Definition collected (forward : bool) (self : bool) n : list node :=
  let siblings := collectSiblings (sibling_fuel n) (if forward then nextSibling else previousSibling) None
                    (if self then Some n else (if forward then nextSibling else previousSibling) n) in
  if forward then siblings else reverse siblings.

Lemma collected_child forward self n p l1 l2 : childNodes p = l1 ++ n :: l2 →
  collected forward self n = if forward then (if self then n :: l2 else l2) else (if self then l1 ++ [n] else l1).
Proof using Type*.
  intros E. pose proof (split_parent _ _ _ _ E) as Hp. destruct (sibling_split _ _ _ _ E) as [Ep En].
  unfold collected, sibling_fuel. rewrite Hp, E, length_app. cbn [length]. destruct forward, self.
  - pose proof (collect_forward p [] (n :: l2) l1 (length l1 + S (length l2))) as C.
    rewrite app_nil_r in C. apply C; [done|cbn; lia].
  - rewrite En. pose proof (collect_forward p [] l2 (l1 ++ [n]) (length l1 + S (length l2))) as C.
    rewrite app_nil_r in C. apply C; [by rewrite <- app_assoc|lia].
  - pose proof (collect_backward p l2 (l1 ++ [n]) (length l1 + S (length l2))) as C. rewrite last_snoc in C.
    rewrite C; [by rewrite reverse_involutive|by rewrite <- app_assoc|rewrite length_app; cbn; lia].
  - rewrite Ep, (collect_backward p (n :: l2)); [by rewrite reverse_involutive|done|lia].
Qed.

Lemma right_of_split p l1 n l2 v : childNodes p = l1 ++ n :: l2 → (right_of n v ↔ v ∈ l2) ∧ (right_of v n ↔ v ∈ l1).
Proof using Type*.
  intros E. pose proof (split_parent _ _ _ _ E) as Hp. pose proof (split_index _ _ _ _ E) as Hi.
  assert (∀ w, w ∈ l2 → parentNode w = Some p ∧ (length l1 < child_index w)%nat) as H2.
  { intros w (k1 & k2 & ->)%list_elem_of_split. rewrite app_comm_cons, app_assoc in E. split; [by eapply split_parent|].
    rewrite (split_index _ _ _ _ E), length_app. cbn. lia. }
  assert (∀ w, w ∈ l1 → parentNode w = Some p ∧ (child_index w < length l1)%nat) as H1.
  { intros w (k1 & k2 & ->)%list_elem_of_split. rewrite <- app_assoc in E. split; [by eapply split_parent|].
    rewrite (split_index _ _ _ _ E), length_app. cbn. lia. }
  assert (∀ w, parentNode w = Some p → w ∈ l1 ∨ w = n ∨ w ∈ l2) as Hall.
  { intros w Hw%child_parent. rewrite E in Hw. set_solver. }
  unfold right_of. split; split.
  - intros (q & Hq & Hv & Hlt). simplify_eq. destruct (Hall v Hv) as [Hw|[->|Hw]]; [apply H1 in Hw; lia|lia|done].
  - intros Hv%H2. exists p. rewrite Hi. tauto.
  - intros (q & Hq & Hv & Hlt). simplify_eq. destruct (Hall v Hq) as [Hw|[->|Hw]]; [done|lia|apply H2 in Hw; lia].
  - intros Hv%H1. exists p. rewrite Hi. tauto.
Qed.

Lemma collected_elem forward self n p v : parentNode n = Some p →
  v ∈ collected forward self n ↔ (self = true ∧ v = n) ∨ side forward n v.
Proof using Type*.
  intros Hp. destruct (kid_split _ _ Hp) as (l1 & l2 & E & _). rewrite (collected_child _ _ _ _ _ _ E).
  destruct (right_of_split p l1 n l2 v E) as [H1 H2]. unfold side. destruct forward; rewrite ?H1, ?H2; destruct self; set_solver.
Qed.

Lemma collected_NoDup forward self n p : parentNode n = Some p → NoDup (collected forward self n).
Proof using Type*.
  intros Hp. destruct (kid_split _ _ Hp) as (l1 & l2 & E & _). rewrite (collected_child _ _ _ _ _ _ E).
  pose proof (child_NoDup p) as Hnd. rewrite E in Hnd. change (n :: l2) with ([n] ++ l2) in Hnd. 
  destruct forward, self.
  - by apply NoDup_app in Hnd as (_ & _ & Hnd).
  - apply NoDup_app in Hnd as (_ & _ & Hnd). by apply NoDup_app in Hnd as (_ & _ & Hnd).
  - rewrite app_assoc in Hnd. by apply NoDup_app in Hnd as (Hnd & _).
  - by apply NoDup_app in Hnd as (Hnd & _).
Qed.

Lemma side_parent forward a v : side forward a v → ∃ p, parentNode a = Some p ∧ parentNode v = Some p ∧ a ≠ v.
Proof using Type. destruct forward; intros (p & Ha & Hv & Hlt); exists p; split_and!; try done; intros ->; lia. Qed.

(** ** The boundaries *)
Lemma concat_call l : concat (call id l) = l.
Proof using Type. destruct l; [done|]. cbn. by rewrite app_nil_r. Qed.

Lemma walk_step visit f start z forward n p : parentNode n = Some p → n ≠ z → (depth n ≤ S f)%nat →
  walkBoundary visit (S f) start (Some z) forward n
    = call visit (collected forward (bool_decide (n = start)) n) ++ walkBoundary visit f start (Some z) forward p.
Proof using Type.
  intros Hp Hn _. cbn [walkBoundary]. rewrite (bool_decide_false (Some n = Some z)) by congruence. rewrite Hp. unfold collected.
  destruct forward; by destruct (bool_decide (n = start)).
Qed.

Lemma boundary_ind (P : node → nat → Prop) start z : z ∈ ancestors start →
  (∀ f, P z f) →
  (∀ n p f, n ∈ ancestors start → parentNode n = Some p → z ∈ ancestors p → n ≠ z → (depth n ≤ S f)%nat → P p f → P n (S f)) →
  P start (depth start).
Proof using Type*.
  intros Hz H0 HS. assert (∀ n, n ∈ ancestors start → z ∈ ancestors n → ∀ f, (depth n <= f)%nat → P n f) as Hall.
  { intros n. induction n as [n IH] using up_ind. intros Hn Hzn f Hf. destruct (decide (n = z)) as [->|Hne]; [apply H0|].
    apply elem_ancestors in Hzn as [->|(p & Hp & Hzp)]; [done|]. pose proof (depth_parent _ _ Hp).
    destruct f as [|f]; [lia|]. apply (HS n p); try done. apply IH; [done| |done|lia].
    eapply ancestors_trans; [|exact Hn]. eapply ancestors_parent; [exact Hp|apply ancestors_self]. }
  apply Hall; [apply ancestors_self|done|lia].
Qed.

(** What a boundary hands on: the start and the siblings on its side of the nodes from it up to [z]. *)
Definition swept (forward : bool) (start z v : node) : Prop :=
  (v = start ∧ start ≠ z) ∨ ∃ a, a ∈ ancestors start ∧ z ∈ ancestors a ∧ a ≠ z ∧ side forward a v.

Lemma boundary_elem start z forward v : z ∈ ancestors start →
  v ∈ concat (boundary id start (Some z) forward) ↔ swept forward start z v.
Proof using Type*.
  intros Hz. unfold boundary, swept.
  pose (P n f := v ∈ concat (walkBoundary id f start (Some z) forward n) ↔
    (v = start ∧ n = start ∧ n ≠ z) ∨ ∃ a, a ∈ ancestors n ∧ z ∈ ancestors a ∧ a ≠ z ∧ side forward a v).
  assert (P start (depth start)) as HP; [apply (boundary_ind P start z Hz)|unfold P in HP; rewrite HP; naive_solver].
  - intros f. unfold P. destruct f; cbn; rewrite bool_decide_true by done; cbn; split; try (intros ?%elem_of_nil; done);
      intros [(_ & _ & ?)|(a & Ha & Hza & Hne & _)]; try done; destruct Hne; by apply ancestors_antisym.
  - intros n p f Hn Hp Hzp Hne Hf IH. unfold P in IH |- *. rewrite (walk_step _ _ _ _ _ _ _ Hp Hne Hf), concat_app, concat_call, elem_of_app, IH.
    rewrite (collected_elem _ _ _ _ _ Hp). rewrite bool_decide_eq_true. split.
    + intros [[[-> ->]|Hs]|[(-> & -> & _)|(a & Ha & Hr)]].
      * left. done.
      * right. exists n. split_and!; [apply ancestors_self|by eapply ancestors_parent|done|done].
      * exfalso. by apply (kid_not_above _ _ Hp).
      * right. exists a. split; [by eapply ancestors_parent|done].
    + intros [(-> & -> & _)|(a & Ha & Hr)]; [left; by left|].
      apply elem_ancestors in Ha as [->|(p' & Hp' & Ha)]; [left; right; tauto|]. simplify_eq. right. right. eauto.
Qed.

Lemma boundary_lists start z (forward : bool) : z ∈ ancestors start →
  Forall (λ l : list node, NoDup l ∧ (start ∈ l → (if forward then head l else last l) = Some start)) (boundary id start (Some z) forward).
Proof using Type*.
  intros Hz. unfold boundary.
  apply (boundary_ind (λ n f, Forall (λ l : list node, NoDup l ∧ (start ∈ l → (if forward then head l else last l) = Some start))
    (walkBoundary id f start (Some z) forward n)) start z Hz).
  - intros f. destruct f; cbn; by rewrite bool_decide_true.
  - intros n p f Hn Hp Hzp Hne Hf IH. rewrite (walk_step _ _ _ _ _ _ _ Hp Hne Hf). apply Forall_app. split; [|exact IH].
    assert (NoDup (collected forward (bool_decide (n = start)) n) ∧
      (start ∈ collected forward (bool_decide (n = start)) n → (if forward then head else last) (collected forward (bool_decide (n = start)) n) = Some start)) as Hc.
    { split; [by eapply collected_NoDup|]. intros Hin. pose proof Hin as [[Es _]|Hs]%(collected_elem _ _ _ _ _ Hp).
      - apply bool_decide_eq_true in Es as ->. rewrite bool_decide_true by done.
        destruct (kid_split _ _ Hp) as (l1 & l2 & E & _). rewrite (collected_child _ _ _ _ _ _ E).
        destruct forward; [done|by rewrite last_snoc].
      - destruct (side_parent _ _ _ Hs) as (q & Hq & Hq' & Hns). destruct Hns.
        apply (child_of_ancestor_unique q n start start); [done|done|done|apply ancestors_self]. }
    destruct (collected forward (bool_decide (n = start)) n); [done|]. cbn. constructor; [|done].
    destruct Hc as [Hnd Hh]. split; [done|]. intros Hin%Hh. by destruct forward.
Qed.

(** The nodes below what a boundary hands on. *)
Lemma swept_below (forward : bool) start z x : z ∈ ancestors start → start ≠ z →
  (∃ v, swept forward start z v ∧ v ∈ ancestors x) ↔
    z ∈ ancestors x ∧ (start ∈ ancestors x ∨ if forward then precedes start x else precedes x start).
Proof using Type*.
  intros Hz Hsz. split.
  - intros (v & [[-> _]|(a & Ha & Hza & Hne & Hs)] & Hv); [split; [by eapply ancestors_trans|by left]|].
    destruct (side_parent _ _ _ Hs) as (p & Hap & Hvp & _). split.
    + apply elem_ancestors in Hza as [->|(p' & Hp' & Hza)]; [done|]. simplify_eq.
      eapply ancestors_trans; [exact Hza|]. eapply ancestors_trans; [|exact Hv]. eapply ancestors_parent; [exact Hvp|apply ancestors_self].
    + right. destruct forward; [exists a, v|exists v, a]; done.
  - intros [Hzx [Hs|Hp]]; [exists start; split; [by left|done]|].
    assert (∃ a v, a ∈ ancestors start ∧ v ∈ ancestors x ∧ side forward a v) as (a & v & Ha & Hv & Hs).
    { destruct forward; destruct Hp as (b & w & Hb & Hw & Hr); [exists b, w|exists w, b]; done. }
    exists v. split; [right; exists a|done]. destruct (side_parent _ _ _ Hs) as (p & Hap & Hvp & Hav).
    assert (a ∉ ancestors z) as Haz.
    { intros Haz. apply Hav. apply (child_of_ancestor_unique p a v x); try done. by eapply ancestors_trans. }
    destruct (ancestors_linear z a start Hz Ha) as [Hza|]; [|done]. split_and!; try done.
    intros ->. apply Haz, ancestors_self.
Qed.

(** No node handed on is above another. *)
Lemma swept_above forward start z v : swept forward start z v → v ∈ ancestors start → v = start.
Proof using Type*.
  intros [[-> _]|(a & Ha & _ & _ & Hs)] Hv; [done|]. destruct (side_parent _ _ _ Hs) as (p & Hap & Hvp & Hne).
  destruct Hne. by apply (child_of_ancestor_unique p a v start).
Qed.

Lemma swept_apart forward start z v w : swept forward start z v → swept forward start z w → v ∈ ancestors w → v = w.
Proof using Type*.
  intros Hv [[-> _]|(a & Ha & _ & _ & Hs)] Hin; [by eapply swept_above|]. destruct (side_parent _ _ _ Hs) as (p & Hap & Hwp & _).
  apply elem_ancestors in Hin as [->|(p' & Hp' & Hin)]; [done|]. simplify_eq.
  assert (p' ∈ ancestors start) as Hps by (eapply ancestors_trans; [|exact Ha]; eapply ancestors_parent; [exact Hap|apply ancestors_self]).
  assert (v = start) as -> by (eapply swept_above; [exact Hv|]; by eapply ancestors_trans).
  exfalso. apply (kid_not_above _ _ Hap). by eapply ancestors_trans.
Qed.

(** ** What is left out *)
Lemma call_map visit l : call visit l = visit <$> call id l.
Proof using Type. by destruct l. Qed.

Lemma boundary_map visit start stop forward : boundary visit start stop forward = visit <$> boundary id start stop forward.
Proof using Type.
  unfold boundary. generalize (depth start) as f. intros f. generalize start at 2 4 as n. induction f as [|f IH]; intros n; cbn [walkBoundary].
  - destruct (bool_decide (Some n = stop)); [done|]. by rewrite !app_nil_r, call_map.
  - destruct (bool_decide (Some n = stop)); [done|]. rewrite fmap_app, <- call_map. f_equal. destruct (parentNode n); [apply IH|done].
Qed.

Lemma walk_nodes_map visit s e : walk_nodes visit s e = visit <$> walk_nodes id s e.
Proof using Type.
  unfold walk_nodes. destruct (bool_decide (s = e)); [done|]. destruct (meets _ _ s); [apply boundary_map|].
  destruct (meets _ _ e); [apply boundary_map|]. rewrite !fmap_app, <- call_map. by rewrite <- !boundary_map.
Qed.

Lemma drop_first_elem (b : node → bool) l : NoDup l →
  let l1 := match l with n :: rest => if b n then rest else l | [] => [] end in
  NoDup l1 ∧ (∀ w, w ∈ l1 → last l = Some w → last l1 = Some w) ∧ ∀ w, w ∈ l1 ↔ w ∈ l ∧ ¬ (head l = Some w ∧ b w = true).
Proof using Type*.
  intros Hnd. destruct l as [|n rest]; cbn; [set_solver|]. pose proof Hnd as [Hn Hr]%NoDup_cons. destruct (b n) eqn:Eb.
  - split_and!; [done| |].
    + intros w Hw. destruct rest; [by apply elem_of_nil in Hw|done].
    + intros w. rewrite elem_of_cons. split; [intros Hw; split; [by right|intros [[= ->] _]; done]|].
      intros [[->|Hw] Hno]; [destruct Hno; done|done].
  - split_and!; [done|done|]. intros w. split; [|tauto]. intros Hw. split; [done|]. intros [[= ->] ?]. congruence.
Qed.

Lemma drop_last_elem (b : node → bool) l : NoDup l → ∀ w,
  w ∈ match last l with Some n => if b n then removelast l else l | None => l end ↔ w ∈ l ∧ ¬ (last l = Some w ∧ b w = true).
Proof using Type*.
  intros Hnd w. destruct (last l) as [n|] eqn:El; [|split; [intros Hw; split; [done|by intros [? _]]|tauto]].
  apply last_Some in El as (l2 & ->). apply NoDup_app in Hnd as (_ & Hd & _). rewrite removelast_last. destruct (b n) eqn:Eb.
  - rewrite elem_of_app, list_elem_of_singleton. split.
    + intros Hw. split; [by left|]. intros [[= ->] _]. apply (Hd w Hw). by apply list_elem_of_singleton.
    + intros [[Hw| ->] Hno]; [done|]. destruct Hno. done.
  - split; [|tauto]. intros Hw. split; [done|]. intros [[= ->] ?]. congruence.
Qed.

Section Ends.
Context (s e : node) (so eo : Z).

(** The texts [exclude] takes out of a list. *)
Definition excluded v : Prop :=
  (v = s ∧ nodeType s = 3 ∧ Z.of_nat (length (default [] (nodeValue s))) ≤ so) ∨ (v = e ∧ nodeType e = 3 ∧ eo = 0).

Definition ends_ok (l : list node) : Prop :=
  NoDup l ∧ (s ∈ l → nodeType s = 3 → head l = Some s) ∧ (e ∈ l → nodeType e = 3 → last l = Some e).

Lemma exclude_elem l v : ends_ok l → v ∈ exclude s e so eo l ↔ v ∈ l ∧ ¬ excluded v.
Proof using Type*.
  intros (Hnd & Hs & He). unfold exclude.
  set (l1 := match l with n :: rest => _ | [] => [] end).
  pose proof (drop_first_elem (λ n, (nodeType n =? 3) && bool_decide (n = s) && (Z.of_nat (length (default [] (nodeValue n))) <=? so)) l Hnd) as (Hnd1 & Hl1 & H1).
  change (match l with n :: rest => _ | [] => [] end) with l1 in Hnd1, Hl1, H1. clearbody l1.
  rewrite (drop_last_elem (λ n, (eo =? 0) && bool_decide (n = e) && (nodeType n =? 3)) l1 Hnd1).
  unfold excluded. rewrite !andb_true_iff, !bool_decide_eq_true, !Z.eqb_eq. split.
  - intros [Hin H3]. destruct (proj1 (H1 v) Hin) as [Hv H2]. split; [done|]. intros [(-> & ? & Hle)|(-> & ? & ?)].
    + apply H2. split; [by apply Hs|]. by rewrite !andb_true_iff, !bool_decide_eq_true, !Z.eqb_eq, Z.leb_le.
    + apply H3. split; [|done]. apply Hl1; [done|by apply He].
  - intros [Hv Hno]. split; [|intros [_ [[? ->] ?]]; apply Hno; by right]. apply H1. split; [done|].
    rewrite !andb_true_iff, !bool_decide_eq_true, !Z.eqb_eq, Z.leb_le. intros [_ [[? ->] ?]]. apply Hno. by left.
Qed.
End Ends.

(** ** The walk *)
Lemma leaf_above x n : childNodes x = [] → x ∈ ancestors n → x = n.
Proof using Type*.
  intros Hx Ha. destruct (decide (x = n)) as [|Hne]; [done|]. destruct (ancestors_via_child x n Ha Hne) as (c & Hc & _).
  apply child_parent in Hc. rewrite Hx in Hc. by apply elem_of_nil in Hc.
Qed.

(** The order without numbers, for a node without children. *)
Lemma upto_cases x e : childNodes x = [] → root_of x = root_of e →
  (lexcmp (steps x) (steps e) ≠ Gt ∨ e ∈ ancestors x) ↔ e ∈ ancestors x ∨ precedes x e.
Proof using Type*.
  intros Hx Hr. rewrite (from_cases x e Hr). split.
  - intros [[Ha|]|]; [|by right|by left]. rewrite (leaf_above x e Hx Ha). left. apply ancestors_self.
  - intros [|]; [by right|left; by right].
Qed.

Lemma precedes_flip a x : precedes a x → precedes x a → False.
Proof using Type*. intros [E _]%precedes_lex [_ E']%precedes_lex. congruence. Qed.

Lemma precedes_below_l a x b : precedes b x → b ∈ ancestors a → precedes a x.
Proof using Type*. intros (c & v & Hc & Hv & Hr) Hb. exists c, v. split_and!; try done. by eapply ancestors_trans. Qed.
Lemma precedes_below_r a x y : precedes a y → y ∈ ancestors x → precedes a x.
Proof using Type*. intros (c & v & Hc & Hv & Hr) Hy. exists c, v. split_and!; try done. by eapply ancestors_trans. Qed.

Lemma meets_above x o n : x ∈ ancestors n → o = Some x → meets x o n = true.
Proof using Type*.
  intros Hx ->. unfold meets. destruct (climb _ n) as [m|] eqn:E.
  - apply climb_Some in E as [_ E]. apply bool_decide_eq_true. apply orb_true_iff in E as [E|E]; apply bool_decide_eq_true in E; congruence.
  - pose proof (climb_None _ _ E x Hx) as Ef. cbn in Ef. by rewrite bool_decide_true in Ef.
Qed.
Lemma meets_apart x o n : x ∉ ancestors n → meets x o n = false.
Proof using Type*.
  intros Hx. unfold meets. destruct (climb _ n) as [m|] eqn:E; [|done]. apply climb_Some in E as [Hm _].
  apply bool_decide_eq_false. by intros ->.
Qed.

Lemma above_not_text a n : a ∈ ancestors n → a ≠ n → nodeType a ≠ 3.
Proof using Type*. intros Ha Hne. destruct (ancestors_via_child a n Ha Hne) as (c & Hc & _). by eapply parent_not_text. Qed.

Section Between.
Context (s e : node) (Hroot : root_of s = root_of e).

(** From the start to the end of the range, what is below the end included. *)
Definition between x : Prop :=
  lexcmp (steps s) (steps x) ≠ Gt ∧ (lexcmp (steps x) (steps e) ≠ Gt ∨ e ∈ ancestors x).

Lemma between_cases x : childNodes x = [] → root_of x = root_of s →
  between x ↔ (s ∈ ancestors x ∨ precedes s x) ∧ (e ∈ ancestors x ∨ precedes x e).
Proof using Type*. intros Hx Hr. unfold between. rewrite (from_cases s x (eq_sym Hr)), (upto_cases x e Hx) by congruence. done. Qed.

(** What the walk hands on before the ends are left out. *)
Record covers (calls : list (list node)) : Prop := Covers {
  cv_leaf x : childNodes x = [] → root_of x = root_of s → (∃ v, v ∈ concat calls ∧ v ∈ ancestors x) ↔ between x;
  cv_apart v w : v ∈ concat calls → w ∈ concat calls → v ∈ ancestors w → v = w;
  cv_ends : Forall (ends_ok s e) calls;
  cv_texts v : v = s ∨ v = e → nodeType v = 3 → v ∈ concat calls
}.

Lemma covers_same : s = e → covers [[s]].
Proof using Type*.
  intros Es. constructor.
  - intros x Hx Hr. rewrite between_cases by done. rewrite <- Es. cbn. split.
    + intros (v & ->%list_elem_of_singleton & Hv). tauto.
    + intros [[Hs|Hp] [Hs'|Hp']]; try (exists s; split; [by left|done]). by destruct (precedes_flip s x).
  - cbn. intros v w ->%list_elem_of_singleton ->%list_elem_of_singleton _. done.
  - constructor; [|done]. rewrite <- Es. split_and!; [apply NoDup_singleton|done|done].
  - intros v [->|Hv] _; [by left|]. rewrite Hv, <- Es. by left.
Qed.

Lemma covers_start : e ∈ ancestors s → s ≠ e → covers (boundary id s (Some e) true).
Proof using Type*.
  intros He Hne. constructor.
  - intros x Hx Hr. rewrite between_cases by done.
    assert ((∃ v, v ∈ concat (boundary id s (Some e) true) ∧ v ∈ ancestors x) ↔ ∃ v, swept true s e v ∧ v ∈ ancestors x) as ->.
    { split; intros (v & Hv & ?); exists v; (split; [|done]); by apply (boundary_elem s e true). }
    rewrite swept_below by done. split; [tauto|]. intros [H1 [H2|H2]]; [tauto|]. pose proof (precedes_below_r _ _ _ H2 He) as H3.
    destruct H1 as [H1|H1]; [by apply precedes_not_above in H3 as [_ H3]|by destruct (precedes_flip s x)].
  - intros v w. rewrite !boundary_elem by done. apply swept_apart.
  - eapply Forall_impl; [apply (boundary_lists s e true He)|]. intros l [Hnd Hs]. split_and!; [done|auto|].
    intros _ Ht. by destruct (above_not_text e s He).
  - intros v [->|Hv] Ht; [apply boundary_elem; [done|by left]|]. subst v. by destruct (above_not_text e s He (not_eq_sym Hne)).
Qed.

Lemma covers_end : s ∈ ancestors e → s ≠ e → covers (boundary id e (Some s) false).
Proof using Type*.
  intros Hs Hne. constructor.
  - intros x Hx Hr. rewrite between_cases by done.
    assert ((∃ v, v ∈ concat (boundary id e (Some s) false) ∧ v ∈ ancestors x) ↔ ∃ v, swept false e s v ∧ v ∈ ancestors x) as ->.
    { split; intros (v & Hv & ?); exists v; (split; [|done]); by apply (boundary_elem e s false). }
    rewrite swept_below by congruence. split; [tauto|]. intros [[H1|H1] H2]; [tauto|]. pose proof (precedes_below_l _ _ _ H1 Hs) as H3.
    destruct H2 as [H2|H2]; [by apply precedes_not_above in H3 as [H3 _]|by destruct (precedes_flip e x)].
  - intros v w. rewrite !boundary_elem by done. apply swept_apart.
  - eapply Forall_impl; [apply (boundary_lists e s false Hs)|]. intros l [Hnd He]. split_and!; [done| |auto].
    intros _ Ht. by destruct (above_not_text s e Hs).
  - intros v [Hv|Hv] Ht; subst v; [by destruct (above_not_text s e Hs Hne)|]. apply boundary_elem; [done|left; split; congruence].
Qed.

(** *** The ends in two children [c] and [d] of the common ancestor *)
Section Apart.
Context (p c d : node) (Hc : parentNode c = Some p) (Hd : parentNode d = Some p).
Context (Hcs : c ∈ ancestors s) (Hde : d ∈ ancestors e) (Hlt : (child_index c < child_index d)%nat).

Lemma middle_elem : ∃ l, middle s e c d = (if bool_decide (c = s) then [c] else []) ++ l ++ (if bool_decide (d = e) then [d] else [])
  ∧ NoDup ([c] ++ l ++ [d]) ∧ ∀ v, v ∈ l ↔ right_of c v ∧ right_of v d.
Proof using Type*.
  destruct (two_children p c d Hc Hd Hlt) as (l1 & l2 & l3 & E). exists l2.
  pose proof (right_of_split p l1 c (l2 ++ d :: l3)) as Hrc.
  assert (childNodes p = (l1 ++ c :: l2) ++ d :: l3) as E' by (by rewrite <- app_assoc).
  pose proof (child_NoDup p) as Hnd. rewrite E in Hnd.
  split_and!.
  - unfold middle, sibling_fuel. rewrite Hc.
    assert ((if bool_decide (d = e) then nextSibling d else Some d) = head ((if bool_decide (d = e) then [] else [d]) ++ l3)) as ->.
    { destruct (sibling_split _ _ _ _ E') as [_ Hn]. by case_bool_decide. }
    assert ((if bool_decide (c = s) then Some c else nextSibling c)
      = head (((if bool_decide (c = s) then [c] else []) ++ l2 ++ (if bool_decide (d = e) then [d] else [])) ++ (if bool_decide (d = e) then [] else [d]) ++ l3)) as ->.
    { destruct (sibling_split _ _ _ _ E) as [_ Hn]. case_bool_decide; [done|]. rewrite Hn. cbn [app]. rewrite <- app_assoc. by case_bool_decide. }
    apply (collect_forward p _ _ (if bool_decide (c = s) then l1 else l1 ++ [c])).
    + rewrite E. repeat case_bool_decide; cbn; by rewrite <- ?app_assoc.
    + rewrite E, !length_app. cbn. rewrite length_app. cbn. repeat case_bool_decide; cbn; lia.
  - apply NoDup_app in Hnd as (_ & _ & Hnd). change (c :: l2 ++ d :: l3) with ([c] ++ l2 ++ [d] ++ l3) in Hnd.
    rewrite !app_assoc in Hnd. apply NoDup_app in Hnd as [Hnd _]. by rewrite <- app_assoc in Hnd.
  - intros v. rewrite (proj1 (Hrc v E)), (proj2 (right_of_split p _ d l3 v E')). split.
    + intros Hv. split; apply elem_of_app; [by left|]. right. by right.
    + intros [Hv1 Hv2]. apply elem_of_app in Hv1 as [|Hv1]; [done|]. exfalso.
      rewrite app_comm_cons, app_assoc in Hnd. apply NoDup_app in Hnd as (_ & Hdis & _). by apply (Hdis v Hv2).
Qed.

Definition parts : list (list node) :=
  boundary id s (Some c) true ++ call id (middle s e c d) ++ boundary id e (Some d) false.

(** A node handed on is below [c], a child of [p] in the middle, or below [d]. *)
Inductive part v : Prop :=
| part_left : swept true s c v → c ∈ ancestors v → c ≠ s → part v
| part_start : v = c → c = s → part v
| part_middle : right_of c v → right_of v d → part v
| part_end : v = d → d = e → part v
| part_right : swept false e d v → d ∈ ancestors v → d ≠ e → part v.

Lemma swept_inside forward start z v : z ∈ ancestors start → swept forward start z v → z ∈ ancestors v ∧ z ≠ start.
Proof using Type*.
  intros Hz [[-> Hne]|(a & Ha & Hza & Hne & Hs)]; [by split|]. destruct (side_parent _ _ _ Hs) as (q & Haq & Hvq & _). split.
  - apply elem_ancestors in Hza as [->|(q' & Hq' & Hza)]; [done|]. simplify_eq. by eapply ancestors_parent.
  - intros ->. apply Hne. by apply ancestors_antisym.
Qed.

Lemma parts_elem v : v ∈ concat parts ↔ part v.
Proof using Type*.
  unfold parts. rewrite !concat_app, concat_call, !elem_of_app, !boundary_elem by done.
  destruct middle_elem as (l & -> & _ & Hl). rewrite !elem_of_app, Hl. split.
  - intros [Hv|[[Hv|[[Hv1 Hv2]|Hv]]|Hv]].
    + destruct (swept_inside _ _ _ _ Hcs Hv). by apply part_left.
    + case_bool_decide; [|by apply elem_of_nil in Hv]. apply list_elem_of_singleton in Hv. by apply part_start.
    + by apply part_middle.
    + case_bool_decide; [|by apply elem_of_nil in Hv]. apply list_elem_of_singleton in Hv. by apply part_end.
    + destruct (swept_inside _ _ _ _ Hde Hv). by apply part_right.
  - intros [Hv _ _| -> Hs|Hv1 Hv2| -> He|Hv _ _]; [by left|right; left; left|right; left; right; by left|right; left; right; right|right; by right].
    + rewrite bool_decide_true by done. by left.
    + rewrite bool_decide_true by done. by left.
Qed.

(** The child of [p] above a node that is handed on. *)
Lemma part_child v : part v → ∃ k, parentNode k = Some p ∧ k ∈ ancestors v
  ∧ ((k = c ∧ (swept true s c v ∧ c ≠ s ∨ v = c ∧ c = s)) ∨ (k = v ∧ right_of c v ∧ right_of v d)
     ∨ (k = d ∧ (swept false e d v ∧ d ≠ e ∨ v = d ∧ d = e))).
Proof using Type*.
  intros [Hv Ha Hne| -> Hs|(q & Hq & Hv & Hi) Hv2| -> He|Hv Ha Hne].
  - exists c. split_and!; [done|done|]. left. tauto.
  - exists c. split_and!; [done|apply ancestors_self|]. left. tauto.
  - exists v. simplify_eq. split_and!; [done|apply ancestors_self|]. right. left. split_and!; [done| |done]. by exists p.
  - exists d. split_and!; [done|apply ancestors_self|]. right. right. tauto.
  - exists d. split_and!; [done|done|]. right. right. tauto.
Qed.

Lemma right_irrefl a : ¬ right_of a a.
Proof using Type*. intros (q & _ & _ & ?). lia. Qed.

Lemma parts_apart v w : part v → part w → v ∈ ancestors w → v = w.
Proof using Type*.
  intros Hv Hw Hin. destruct (part_child v Hv) as (k & Hk & Hkv & Cv). destruct (part_child w Hw) as (k' & Hk' & Hkw & Cw).
  assert (k = k') as <-.
  { apply (child_of_ancestor_unique p k k' w); [done|done|by eapply ancestors_trans|done]. }
  assert (c ≠ d) as Hcd by (intros ->; lia).
  destruct Cv as [[-> Cv]|[(-> & Hv1 & Hv2)|[-> Cv]]], Cw as [[Ew Cw]|[(Ew & Hw1 & Hw2)|[Ew Cw]]]; subst; try done;
    try (by destruct (right_irrefl _ Hw1)); try (by destruct (right_irrefl _ Hw2));
    try (by destruct (right_irrefl _ Hv1)); try (by destruct (right_irrefl _ Hv2)).
  - destruct Cv as [[Hsv ?]|[-> Es]], Cw as [[Hsw ?]|[-> Es']]; try done; by eapply swept_apart.
  - destruct Cv as [[Hsv ?]|[-> Es]], Cw as [[Hsw ?]|[-> Es']]; try done; by eapply swept_apart.
Qed.

Lemma order_c_d : precedes s e.
Proof using Type*. exists c, d. split_and!; try done. by exists p. Qed.

Lemma right_precedes_l a b x : right_of a b → b ∈ ancestors x → precedes a x.
Proof using Type*. intros Hr Hb. exists a, b. split_and!; [apply ancestors_self|done|done]. Qed.
Lemma right_precedes_r a b x : right_of a b → a ∈ ancestors x → precedes x b.
Proof using Type*. intros Hr Ha. exists a, b. split_and!; [done|apply ancestors_self|done]. Qed.

Lemma part_between v x : part v → v ∈ ancestors x → (s ∈ ancestors x ∨ precedes s x) ∧ (e ∈ ancestors x ∨ precedes x e).
Proof using Type*.
  assert (right_of c d) as Hcd by by exists p.
  assert (c ∈ ancestors x → precedes x e) as Hxe.
  { intros Hx. eapply precedes_below_r; [|exact Hde]. by eapply right_precedes_r. }
  assert (d ∈ ancestors x → precedes s x) as Hsx.
  { intros Hx. eapply precedes_below_l; [|exact Hcs]. by eapply right_precedes_l. }
  intros [Hv Ha Hne| -> Hs|Hv1 Hv2| -> He|Hv Ha Hne] Hx.
  - destruct (proj1 (swept_below true s c x Hcs (not_eq_sym Hne))) as [Hcx Hsx']; [by exists v|]. split; [done|right; by apply Hxe].
  - split; [left; by rewrite <- Hs|right; by apply Hxe].
  - split; right.
    + eapply precedes_below_l; [|exact Hcs]. by eapply right_precedes_l.
    + eapply precedes_below_r; [|exact Hde]. by eapply right_precedes_r.
  - split; [right; by apply Hsx|left; by rewrite <- He].
  - destruct (proj1 (swept_below false e d x Hde (not_eq_sym Hne))) as [Hdx Hxe']; [by exists v|]. split; [right; by apply Hsx|done].
Qed.

Lemma between_below x : root_of x = root_of s → childNodes x = [] →
  (s ∈ ancestors x ∨ precedes s x) → (e ∈ ancestors x ∨ precedes x e) → p ∈ ancestors x.
Proof using Type*.
  assert (p ∈ ancestors s ∧ p ∈ ancestors e) as [Hps Hpe].
  { split; (eapply ancestors_trans; [|done]); eapply ancestors_parent; try done; apply ancestors_self. }
  intros Hr Hx [Hs|Hs] He; [exact (ancestors_trans _ _ _ Hps Hs)|]. destruct He as [He|He]; [exact (ancestors_trans _ _ _ Hpe He)|].
  destruct (decide (p ∈ ancestors x)) as [|Hpx]; [done|]. exfalso.
  assert (x ∉ ancestors p) as Hxp.
  { intros Ha%leaf_above; [|done]. subst x. apply child_parent in Hc. rewrite Hx in Hc. by apply elem_of_nil in Hc. }
  destruct (apart_cases p x) as [H1|H1]; [|done|done| |].
  - rewrite Hr. symmetry. by apply root_of_ancestor.
  - apply (precedes_flip x e He). by eapply precedes_below_l.
  - apply (precedes_flip s x Hs). by eapply precedes_below_r.
Qed.

Lemma between_part x : root_of x = root_of s → childNodes x = [] →
  (s ∈ ancestors x ∨ precedes s x) → (e ∈ ancestors x ∨ precedes x e) → ∃ v, part v ∧ v ∈ ancestors x.
Proof using Type*.
  intros Hr Hx Hs He. pose proof (between_below x Hr Hx Hs He) as Hpx.
  assert (p ≠ x) as Hne by (intros ->; apply child_parent in Hc; rewrite Hx in Hc; by apply elem_of_nil in Hc).
  destruct (ancestors_via_child p x Hpx Hne) as (k & Hk & Hkx).
  assert (∀ a b, parentNode a = Some p → parentNode b = Some p → (child_index a < child_index b)%nat → right_of a b) as Hro by (intros; by exists p).
  destruct (Nat.lt_trichotomy (child_index c) (child_index k)) as [Hck|[Hck|Hck]].
  - destruct (Nat.lt_trichotomy (child_index k) (child_index d)) as [Hkd|[Hkd|Hkd]].
    + exists k. split; [apply part_middle|done]; by apply Hro.
    + apply (child_index_inj k d p Hk Hd) in Hkd as ->. destruct (decide (d = e)) as [Ede|Hde'].
      * exists d. split; [by apply part_end|done].
      * destruct (proj2 (swept_below false e d x Hde (not_eq_sym Hde'))) as (v & Hv & Hvx); [done|].
        exists v. split; [|done]. destruct (swept_inside _ _ _ _ Hde Hv). by apply part_right.
    + exfalso. assert (precedes e x) as Hex.
      { eapply precedes_below_l; [|exact Hde]. eapply right_precedes_l; [|exact Hkx]. by apply Hro. }
      destruct He as [He|He]; [by apply precedes_not_above in Hex as [Hex _]|by destruct (precedes_flip x e)].
  - apply (child_index_inj c k p Hc Hk) in Hck as <-. destruct (decide (c = s)) as [Ecs|Hcs'].
    + exists c. split; [by apply part_start|done].
    + destruct (proj2 (swept_below true s c x Hcs (not_eq_sym Hcs'))) as (v & Hv & Hvx); [done|].
      exists v. split; [|done]. destruct (swept_inside _ _ _ _ Hcs Hv). by apply part_left.
  - exfalso. assert (precedes x s) as Hxs.
    { eapply precedes_below_r; [|exact Hcs]. eapply right_precedes_r; [|exact Hkx]. by apply Hro. }
    destruct Hs as [Hs|Hs]; [by apply precedes_not_above in Hxs as [_ Hxs]|by destruct (precedes_flip s x)].
Qed.

Lemma ends_swept fw start z o : z ∈ ancestors start → z ∉ ancestors o → Forall (λ l : list node, o ∉ l) (boundary id start (Some z) fw).
Proof using Type*.
  intros Hz Ho. apply Forall_forall. intros k Hk Hin. apply Ho.
  assert (o ∈ concat (boundary id start (Some z) fw)) as Hc'.
  { apply list_elem_of_In, in_concat. exists k. split; by apply list_elem_of_In. }
  apply boundary_elem in Hc'; [|done]. by destruct (swept_inside _ _ _ _ Hz Hc').
Qed.

Lemma middle_ends : ends_ok s e (middle s e c d).
Proof using Type*.
  destruct middle_elem as (l & E & Hnd & Hl).
  assert (∀ z, z ∈ middle s e c d → parentNode z = Some p) as Hpar.
  { intros z. rewrite E, !elem_of_app, Hl. intros [Hz|[[(q & Hq & Hz & _) _]|Hz]]; [| |].
    - case_bool_decide; [|by apply elem_of_nil in Hz]. by apply list_elem_of_singleton in Hz as ->.
    - congruence.
    - case_bool_decide; [|by apply elem_of_nil in Hz]. by apply list_elem_of_singleton in Hz as ->. }
  split_and!.
  - rewrite E. rewrite !NoDup_app in Hnd. destruct Hnd as (Hn1 & Hn2 & Hn3 & Hn4 & Hn5).
    apply NoDup_app. split_and!; [case_bool_decide; [done|constructor]| |apply NoDup_app; split_and!].
    + intros z Hz. case_bool_decide; [|by apply elem_of_nil in Hz]. specialize (Hn2 z Hz). rewrite elem_of_app in Hn2 |- *.
      intros [|Hz']; [tauto|]. case_bool_decide; [tauto|by apply elem_of_nil in Hz'].
    + done.
    + intros z Hz. specialize (Hn4 z Hz). destruct (bool_decide (d = e)); [done|]. by intros ?%elem_of_nil.
    + destruct (bool_decide (d = e)); [done|constructor].
  - intros Hin _. assert (c = s) as Ecs by (apply (child_of_ancestor_unique p c s s); [done|by apply Hpar|done|apply ancestors_self]).
    rewrite E, bool_decide_true by done. cbn. by rewrite Ecs.
  - intros Hin _. assert (d = e) as Ede by (apply (child_of_ancestor_unique p d e e); [done|by apply Hpar|done|apply ancestors_self]).
    rewrite E, (bool_decide_true (d = e)) by done. rewrite !app_assoc, last_snoc. by rewrite Ede.
Qed.

Lemma covers_parts : covers parts.
Proof using Type*.
  constructor.
  - intros x Hx Hr. rewrite between_cases by done. split.
    + intros (v & Hv%parts_elem & Hvx). by eapply part_between.
    + intros [H1 H2]. destruct (between_part x Hr Hx H1 H2) as (v & Hv & Hvx). exists v. split; [by apply parts_elem|done].
  - intros v w. rewrite !parts_elem. apply parts_apart.
  - assert ((c ∉ ancestors e) ∧ d ∉ ancestors s) as [Hce Hds].
    { split; intros Ha; [assert (c = d) as -> by (by apply (child_of_ancestor_unique p c d e))|
        assert (c = d) as -> by (by apply (child_of_ancestor_unique p c d s))]; lia. }
    unfold parts. apply Forall_app. split; [|apply Forall_app; split].
    + pose proof (boundary_lists s c true Hcs) as H1. pose proof (ends_swept true s c e Hcs Hce) as H2.
      rewrite Forall_forall in H1, H2 |- *. intros l Hl. destruct (H1 l Hl) as [Hnd Hs]. split_and!; [done|auto|].
      intros Hin. by destruct (H2 l Hl).
    + pose proof middle_ends as Hok.
      destruct (middle s e c d); [done|]. by constructor.
    + pose proof (boundary_lists e d false Hde) as H1. pose proof (ends_swept false e d s Hde Hds) as H2.
      rewrite Forall_forall in H1, H2 |- *. intros l Hl. destruct (H1 l Hl) as [Hnd He]. split_and!; [done| |auto].
      intros Hin. by destruct (H2 l Hl).
  - intros v Hv _. apply parts_elem. destruct Hv as [Hv|Hv].
    + destruct (decide (c = s)) as [Ecs|Hcs']; [apply part_start; congruence|]. apply part_left; [left; split; congruence|congruence|done].
    + destruct (decide (d = e)) as [Ede|Hde']; [apply part_end; congruence|]. apply part_right; [left; split; congruence|congruence|done].
Qed.
End Apart.
End Between.

Lemma walk_covers s e : root_of s = root_of e → lexcmp (steps s) (steps e) ≠ Gt ∨ e ∈ ancestors s → covers s e (walk_nodes id s e).
Proof using Type*.
  intros Hroot Hle. unfold walk_nodes. case_bool_decide as Ese; [by apply covers_same|].
  assert (∀ a b, root_of a = root_of b → a ∈ ancestors b → findCommonAncestor a b = Some a ∧ findCommonAncestor b a = Some a) as Hfc.
  { intros a b Hr Ha. assert (∀ c, parentNode c = Some a → c ∉ ancestors a) as Hk by (intros c; apply kid_not_above).
    split; apply common_ancestor_is; auto using ancestors_self. - intros c Hc Hin _. by apply (Hk c Hc). - intros c Hc _ Hin. by apply (Hk c Hc). }
  destruct (decide (e ∈ ancestors s)) as [He|He].
  { destruct (Hfc e s (eq_sym Hroot) He) as [_ ->]. rewrite meets_above by done. by apply covers_start. }
  rewrite (meets_apart e _ s) by done. destruct (decide (s ∈ ancestors e)) as [Hs|Hs].
  { destruct (Hfc s e Hroot Hs) as [-> _]. rewrite meets_above by done. by apply covers_end. }
  rewrite (meets_apart s _ e) by done.
  destruct (compare_apart s 0 e 0 Hroot Hs He) as (p & c & d & -> & Hc & Hd & Hcs & Hde & Hne & _).
  unfold findEndPoint. rewrite (climb_to_child p s c), (climb_to_child p e d) by done. cbn [default].
  apply (covers_parts s e Hroot p c d Hc Hd Hcs Hde).
  destruct (Nat.lt_trichotomy (child_index c) (child_index d)) as [|[Heq|Hgt]]; [done| |].
  - by apply (child_index_inj c d p Hc Hd) in Heq.
  - exfalso. assert (precedes e s) as [_ Hgt']%precedes_lex by (exists d, c; split_and!; [done|done|by exists p]).
    by destruct Hle.
Qed.

(** A text in which the range holds nothing: it begins at the end of that text, or ends at its start. *)
Definition left_out t v : Prop :=
  nodeType v = 3 ∧
  ((v = startContainer t ∧ Z.of_nat (length (default [] (nodeValue v))) ≤ startOffset t) ∨ (v = endContainer t ∧ endOffset t = 0)).

(** Where the start in an element is resolved to a text, the index it has there is less than the length of that
    text, with which the code compares it. *)
Definition index_below_text t s : Prop :=
  nodeType s = 3 → s = startContainer t ∨ startOffset t < Z.of_nat (length (default [] (nodeValue s))).

(** Then the code takes out the texts in which the range holds nothing. *)
Lemma excluded_left_out t s e v : start_node t = Some s → end_node t = Some e → index_below_text t s →
  excluded s e (startOffset t) (endOffset t) v ↔ left_out t v.
Proof using Type*.
  intros Es Ee Hs. unfold excluded, left_out.
  assert (∀ n, nodeType n = 3 → has_index n = false) as Hix by (intros n Hn; unfold has_index; by rewrite Hn).
  assert (nodeType v = 3 → v = startContainer t → v = s) as H1.
  { intros Hv ->. unfold start_node in Es. rewrite Hix in Es by done. by injection Es. }
  assert (nodeType v = 3 → v = endContainer t → v = e) as H2.
  { intros Hv ->. unfold end_node in Ee. rewrite Hix in Ee by done. by injection Ee. }
  assert (endOffset t = 0 → e = endContainer t) as H3.
  { intros E0. unfold end_node in Ee. rewrite E0 in Ee. destruct (has_index (endContainer t)); [|by injection Ee].
    unfold item in Ee. rewrite (proj2 (Z.ltb_lt _ 0)) in Ee by lia. done. }
  split.
  - intros [(-> & Hv & Hl)|(-> & Hv & E0)]; (split; [done|]); [|right; auto].
    destruct (Hs Hv) as [E|?]; [by left|lia].
  - intros [Hv [[E Hl]|[E E0]]]; [left|right]; [rewrite <- (H1 Hv E)|rewrite <- (H2 Hv E)]; done.
Qed.

(** C15: When no table cells are selected, between two resolved ends of one tree in the order of the document, the walk calls back with lists of
    nodes of which none is above another, and they hold exactly the leaves of the document from the start to
    the end, but for a text in which the range begins at its end or ends at its start. Where the start is an index into an element that selects a
    text, that index is less than the text's length: the code compares the two. *)
Theorem rangewalk_ok t s e : select = [] → start_node t = Some s → end_node t = Some e → root_of s = root_of e →
  lexcmp (steps s) (steps e) ≠ Gt ∨ e ∈ ancestors s → index_below_text t s →
  ∃ calls, walk t = Some calls
    ∧ (∀ v w, v ∈ concat calls → w ∈ concat calls → v ∈ ancestors w → v = w)
    ∧ ∀ x, childNodes x = [] → root_of x = root_of s →
        (∃ v, v ∈ concat calls ∧ v ∈ ancestors x)
        ↔ (lexcmp (steps s) (steps x) ≠ Gt ∧ (lexcmp (steps x) (steps e) ≠ Gt ∨ e ∈ ancestors x))
          ∧ ¬ left_out t x.
Proof using Type*.
  intros Hsel Es Ee Hroot Hle Hix. unfold walk. rewrite Hsel, bool_decide_true, Es, Ee by done. cbn [negb mbind option_bind].
  rewrite walk_nodes_map. pose proof (walk_covers s e Hroot Hle) as [Hleaf Hapart Hends Htexts].
  set (so := startOffset t). set (eo := endOffset t). set (raw := walk_nodes id s e) in *.
  assert (∀ v, v ∈ concat (exclude s e so eo <$> raw) ↔ v ∈ concat raw ∧ ¬ excluded s e so eo v) as Hex.
  { intros v. clearbody raw. clear Hleaf Hapart Htexts. induction raw as [|l raw IH]; [cbn; set_solver|]. apply List.Forall_cons_iff in Hends as [Hl Hends].
    cbn. rewrite !elem_of_app, IH, (exclude_elem s e so eo l v Hl) by done. tauto. }
  eexists. split; [reflexivity|]. split.
  - intros v w [Hv _]%Hex [Hw _]%Hex. by apply Hapart.
  - intros x Hx Hr. rewrite <- (Hleaf x Hx Hr), <- (excluded_left_out t s e x Es Ee Hix). split.
    + intros (v & [Hv Hno]%Hex & Hvx). split; [by exists v|]. intros Hout. apply Hno. assert (v = x) as ->; [|done].
      apply Hapart; [done| |done]. destruct Hout as [(-> & Ht & _)|(-> & Ht & _)]; apply Htexts; auto.
    + intros [(v & Hv & Hvx) Hno]. exists v. split; [|done]. apply Hex. split; [done|]. intros Hout. apply Hno. assert (v = x) as <-; [|done].
      destruct (decide (v = x)) as [|Hne]; [done|]. pose proof (above_not_text v x Hvx Hne) as Ht.
      by destruct Hout as [(-> & ? & _)|(-> & ? & _)].
Qed.


End RangeUtils.

(** ** Ranges in the sample document *)
Lemma rangewalk_ok_witness : ∃ calls, @walk nat (table_dom sample) [] two_paragraphs = Some calls
  ∧ (∀ v w, v ∈ concat calls → w ∈ concat calls → v ∈ @ancestors nat (table_dom sample) w → v = w)
  ∧ ∀ x, @childNodes nat (table_dom sample) x = [] → @root_of nat (table_dom sample) x = @root_of nat (table_dom sample) 4%nat →
      (∃ v, v ∈ concat calls ∧ v ∈ @ancestors nat (table_dom sample) x)
      ↔ (lexcmp (@steps nat (table_dom sample) 4%nat) (@steps nat (table_dom sample) x) ≠ Gt
         ∧ (lexcmp (@steps nat (table_dom sample) x) (@steps nat (table_dom sample) 8%nat) ≠ Gt
            ∨ 8%nat ∈ @ancestors nat (table_dom sample) x))
        ∧ ¬ @left_out nat (table_dom sample) two_paragraphs x.
Proof.
  pose proof (table_laws sample sample_ok) as L.
  apply (@rangewalk_ok nat (table_dom sample) [] L two_paragraphs 4%nat 8%nat).
  - done.
  - by vm_compute.
  - by vm_compute.
  - by vm_compute.
  - left. by vm_compute.
  - intros _. left. by vm_compute.
Defined.

Example rangewalk_shown : @walk nat (table_dom sample) [] two_paragraphs = Some [[4; 5]; [8]]%nat.
Proof. by vm_compute. Qed.

(** A range that begins at the end of an element, or ends at the start of one, throws. *)
Example walk_from_end :
  @walk nat (table_dom sample) [] (MkRange 3%nat 2 8%nat 1 false None) = None
  ∧ @walk nat (table_dom sample) [] (MkRange 4%nat 1 7%nat 0 false None) = None.
Proof. split; by vm_compute. Qed.

(** [<p><b></b>a</p>]: the offset in an element is compared with the length of the text it selects, which
    is left out though the range holds it. *)
Definition short_text : list trow :=
  [TRow 9 (js "#document") None [] [1%nat]; t_elem "P" [] [2; 3]%nat; t_elem "B" [] []; t_text "a"].

Example walk_leaves_text_out :
  @walk nat (table_dom short_text) [] (MkRange 1%nat 1 1%nat 2 false None) = Some [[]].
Proof. by vm_compute. Qed.

(** Ranges with one start are equal, whatever their ends. *)
Example compareRanges_start :
  @compareRanges nat (table_dom sample) (Some (MkRange 4%nat 1 4%nat 2 false None)) (Some (MkRange 4%nat 1 8%nat 1 false None)) = true.
Proof. by vm_compute. Qed.
