(* ===== verification/RangeCut.v ===== *)
(** * The nodes between the ends of a range

    [cut] is what lies on the inner side of one end, [inside] what lies wholly between the two; the topmost such nodes
    are the ones that extractContents moves and deleteContents drops. *)

From S2P Require Import Prelude Dom TreeWalker DOMUtils Range RangeClone RangeUtils.

(** ** Where a boundary starts *)
Section Ends.
Context {node : Type} `{Dom node} `{!DomLaws node}.
Implicit Types (n p q c a z : node) (t : range node) (l k : list node).

(** One end of a range, and the node its traversal starts at. *)
Definition bound (isLeft : bool) t : node * Z := if isLeft then (startContainer t, startOffset t) else (endContainer t, endOffset t).
Definition first_node (isLeft : bool) z (o : Z) : node := _getSelectedNode z (if isLeft then o else o - 1).

(** The children of [z] on the inner side of an end at [o], in the order of the walk, are [l]. *)
Definition cut_at (isLeft : bool) z (o : Z) l : Prop :=
  ∃ k, childNodes z = (if isLeft then k ++ l else reverse l ++ k) ∧ o = Z.of_nat (length (if isLeft then k else l)).

Lemma first_node_ok isLeft z o : nodeType z ≠ 3 → offset_ok z o →
  ∃ l, cut_at isLeft z o l ∧ first_node isLeft z o = default z (head l).
Proof using Type*.
  intros Ht [Ho Hl]. specialize (Hl Ht). pose proof (take_drop (Z.to_nat o) (childNodes z)) as E. symmetry in E.
  assert (length (take (Z.to_nat o) (childNodes z)) = Z.to_nat o) as El by (apply length_take_le; lia).
  set (k1 := take _ _) in *. set (k2 := drop _ _) in *. clearbody k1 k2. unfold first_node. destruct isLeft.
  - exists k2. split; [exists k1; split; [done|lia]|]. replace o with (Z.of_nat (length k1)) by lia. destruct k2 as [|x k2].
    + rewrite app_nil_r in E. rewrite <- E. apply getSelectedNode_end.
    + by apply getSelectedNode_child with k2.
  - exists (reverse k1). split; [exists k2; rewrite reverse_involutive, length_reverse; split; [done|lia]|].
    destruct k1 as [|x k1 _] using rev_ind.
    + replace o with 0 by (cbn in El; lia). unfold _getSelectedNode. by destruct (nodeType z =? 3).
    + rewrite reverse_snoc. cbn. rewrite length_app in El. cbn in El. replace (o - 1) with (Z.of_nat (length k1)) by lia.
      apply getSelectedNode_child with k2. by rewrite <- app_assoc in E.
Qed.

Definition clip (isLeft : bool) (lo : list Z) n : copy node := if isLeft then clip_left lo n else clip_right lo n.

Lemma clip_cut isLeft z o l : nodeType z ≠ 3 → cut_at isLeft z o l →
  clip isLeft [2 * o] z = Copy z false (nodeValue z) (deep <$> (if isLeft then l else reverse l)).
Proof using Type*.
  intros Ht (k & E & ->). unfold clip. destruct isLeft; [by rewrite (clip_left_at z k l)|].
  by rewrite (clip_right_at z (reverse l) k) by (rewrite ?length_reverse; done).
Qed.

(** *** What lies on the inner side of an end *)
Definition cut (isLeft : bool) t c : Prop :=
  if isLeft then lexcmp (start_key t) (steps c) = Lt
  else lexcmp (steps c) (end_key t) = Lt ∧ c ∉ ancestors (endContainer t).

Lemma cut_child isLeft t c l : let '(z, o) := bound isLeft t in
  parentNode c = Some z → cut_at isLeft z o l → cut isLeft t c ↔ c ∈ l.
Proof using Type*.
  destruct (bound isLeft t) as [z o] eqn:Eb. intros Hc (k & E & Ho). pose proof (steps_child _ _ Hc) as Es.
  pose proof Hc as Hin. apply child_parent in Hin. rewrite E in Hin.
  destruct isLeft; injection Eb as Ez Eo; cbn [cut]; unfold start_key, end_key, key; rewrite Ez, Eo, Es, lexcmp_app; cbn [lexcmp].
  - split.
    + apply elem_of_app in Hin as [(k1 & k2 & ->)%list_elem_of_split|Hin]; [|done]. rewrite <- app_assoc in E.
      rewrite (split_index _ _ _ _ E). rewrite length_app in Ho. cbn in Ho. destruct (Z.compare_spec (2 * o) (2 * Z.of_nat (length k1) + 1)); done || lia.
    + intros (l1 & l2 & ->)%list_elem_of_split. rewrite app_assoc in E. rewrite (split_index _ _ _ _ E), length_app.
      destruct (Z.compare_spec (2 * o) (2 * Z.of_nat (length k + length l1) + 1)); done || lia.
  - assert (c ∉ ancestors z) as Hz by by apply kid_not_above. rewrite <- length_reverse in Ho. rewrite <- (elem_of_reverse c l). split.
    + intros [Hlt _]. apply elem_of_app in Hin as [Hin|(k1 & k2 & ->)%list_elem_of_split]; [done|]. exfalso.
      rewrite app_assoc in E. rewrite (split_index _ _ _ _ E), length_app in Hlt. revert Hlt.
      destruct (Z.compare_spec (2 * Z.of_nat (length (reverse l) + length k1) + 1) (2 * o)); done || lia.
    + intros (l1 & l2 & El)%list_elem_of_split. split; [|done]. rewrite El in Ho. rewrite El, <- app_assoc in E.
      rewrite (split_index _ _ _ _ E). rewrite length_app in Ho. cbn in Ho.
      destruct (Z.compare_spec (2 * Z.of_nat (length l1) + 1) (2 * o)); done || lia.
Qed.

Lemma cut_side isLeft t a q c : a ∈ ancestors (bound isLeft t).1 → parentNode a = Some q → parentNode c = Some q →
  cut isLeft t c ↔ side isLeft a c.
Proof using Type*.
  intros Hin Ha Hc. destruct (steps_above _ _ Hin) as [w Ew]. pose proof (steps_child _ _ Ha) as Ea. pose proof (steps_child _ _ Hc) as Ec.
  assert (∀ v, side v a c ↔ if v then (child_index a < child_index c)%nat else (child_index c < child_index a)%nat) as Hside.
  { intros v. destruct v; cbn; split; try (intros (? & _ & _ & Hlt); done); intros Hlt; exists q; done. }
  rewrite Hside. destruct isLeft; cbn [cut bound fst] in *; unfold start_key, end_key, key; rewrite Ew, Ea, Ec, <- !app_assoc, lexcmp_app; cbn [app lexcmp].
  - destruct (Z.compare_spec (2 * Z.of_nat (child_index a) + 1) (2 * Z.of_nat (child_index c) + 1)); [|split; done || lia..].
    split; [by destruct w|lia].
  - destruct (Z.compare_spec (2 * Z.of_nat (child_index c) + 1) (2 * Z.of_nat (child_index a) + 1)); [| |split; [by intros []|lia]].
    + split; [|lia]. intros [_ Hn]. destruct Hn. by rewrite (child_index_inj c a q) by (done || lia).
    + split; [lia|]. intros Hlt. split; [done|]. intros Hn. rewrite (child_of_ancestor_unique q c a (endContainer t)) in Hlt; done || lia.
Qed.

(** All that an end cuts off below [r], by the place where it is cut off. *)
Lemma cut_cases isLeft t r l c : let '(z, o) := bound isLeft t in
  r ∈ ancestors z → (∀ c, parentNode c = Some z → cut isLeft t c ↔ c ∈ l) → (∀ c, c ∈ l → parentNode c = Some z) →
  (∃ q, parentNode c = Some q ∧ q ∈ ancestors z ∧ r ∈ ancestors q ∧ cut isLeft t c)
  ↔ c ∈ l ∨ ∃ a, a ∈ ancestors z ∧ r ∈ ancestors a ∧ a ≠ r ∧ side isLeft a c.
Proof using Type*.
  destruct (bound isLeft t) as [z o] eqn:Eb. assert ((bound isLeft t).1 = z) as Ez by by rewrite Eb. intros Hr Hl Hlp. split.
  - intros (q & Hq & Hqz & Hrq & Hcut). destruct (decide (q = z)) as [->|Hne]; [left; by apply Hl|]. right.
    destruct (ancestors_via_child q z Hqz Hne) as (a & Ha & Haz). exists a. split_and!; [done|by eapply ancestors_parent| |].
    + intros ->. by apply kid_not_above in Ha.
    + rewrite <- (cut_side isLeft t a q c); [done|by rewrite Ez|done..].
  - intros [Hc|(a & Ha & Hra & Hne & Hs)].
    + pose proof (Hlp c Hc) as Hp. exists z. split_and!; [done|apply ancestors_self|done|by apply Hl].
    + destruct (side_parent _ _ _ Hs) as (q & Haq & Hcq & _). exists q. split_and!; [done| | |].
      * eapply ancestors_trans; [|exact Ha]. eapply ancestors_parent; [exact Haq|apply ancestors_self].
      * apply elem_ancestors in Hra as [->|(q' & Hq' & Hra)]; [done|]. by simplify_eq.
      * rewrite (cut_side isLeft t a q c); [done|by rewrite Ez|done..].
Qed.

(** *** Above and below a node that is cut off *)
Lemma lexcmp_extend (k l w : list Z) : (∀ w', k ≠ l ++ w') → lexcmp k (l ++ w) = lexcmp k l ∧ lexcmp (l ++ w) k = lexcmp l k.
Proof using Type.
  revert l. induction k as [|x k IH]; intros l Hk; destruct l as [|y l]; cbn [app lexcmp].
  - by destruct (Hk []).
  - done.
  - by destruct (Hk (x :: k)).
  - assert (x = y → lexcmp k (l ++ w) = lexcmp k l ∧ lexcmp (l ++ w) k = lexcmp l k) as Hxy.
    { intros ->. apply IH. intros w' ->. by apply (Hk w'). }
    destruct (Z.compare_spec x y), (Z.compare_spec y x); first [lia|auto].
Qed.

Lemma key_prefix z o q w : root_of q = root_of z → key z o = steps q ++ w → q ∈ ancestors z.
Proof using Type*.
  intros Hroot E. destruct (decide (q ∈ ancestors z)) as [|Hq]; [done|exfalso]. unfold key in E.
  destruct (decide (z ∈ ancestors q)) as [Hz|Hz].
  - destruct (ancestors_via_child z q Hz) as (a & Ha & Hin); [intros ->; apply Hq, ancestors_self|].
    destruct (steps_through _ _ _ Ha Hin) as [r Er]. rewrite Er, <- app_assoc in E. apply app_inv_head in E. injection E as E. lia.
  - destruct (compare_apart z o q 0 (eq_sym Hroot) Hz Hq) as (p & ca & cb & _ & Hca & Hcb & Hia & Hib & Hne & _).
    destruct (steps_through _ _ _ Hca Hia) as [ra Ea]. destruct (steps_through _ _ _ Hcb Hib) as [rb Eb].
    rewrite Ea, Eb, <- !app_assoc in E. apply app_inv_head in E. injection E as E _. apply Hne, (child_index_inj ca cb p); [done..|lia].
Qed.

Lemma cut_parent isLeft t c q : let z := (bound isLeft t).1 in
  parentNode c = Some q → root_of q = root_of z → q ∉ ancestors z → cut isLeft t c ↔ cut isLeft t q.
Proof using Type*.
  intros z Hc Hroot Hq.
  assert (c ∉ ancestors z) as Hcz.
  { intros Hin. apply Hq. eapply ancestors_trans; [|exact Hin]. eapply ancestors_parent; [exact Hc|apply ancestors_self]. }
  destruct (lexcmp_extend (key z (bound isLeft t).2) (steps q) [2 * Z.of_nat (child_index c) + 1]) as [E1 E2].
  { intros w E. by apply Hq, (key_prefix z (bound isLeft t).2 q w). }
  rewrite <- (steps_child _ _ Hc) in E1, E2. subst z. destruct isLeft; cbn [cut bound fst snd] in *; unfold start_key, end_key.
  - by rewrite E1.
  - rewrite E2. tauto.
Qed.

Lemma cut_below isLeft t c x : let z := (bound isLeft t).1 in
  root_of c = root_of z → c ∉ ancestors z → cut isLeft t c → c ∈ ancestors x → cut isLeft t x.
Proof using Type*.
  intros z Hroot Hc Hcut. induction x as [x IH] using up_ind. intros Hx. pose proof Hx as Hx'.
  apply elem_ancestors in Hx' as [->|(q & Hq & Hin)]; [done|]. apply (cut_parent isLeft t x q Hq).
  - by rewrite (root_of_ancestor _ _ Hin).
  - intros Hqz. apply Hc. by eapply ancestors_trans.
  - by apply (IH q Hq).
Qed.

(** *** Between the two ends *)
Definition inside t c : Prop := root_of c = root_of (startContainer t) ∧ cut true t c ∧ cut false t c.
Definition topmost t c : Prop := inside t c ∧ ∃ q, parentNode c = Some q ∧ ¬ inside t q.

Lemma inside_not_above t q : inside t q → (q ∉ ancestors (startContainer t)) ∧ q ∉ ancestors (endContainer t).
Proof using Type*.
  intros (_ & H1 & _ & H2). split; [|done]. intros Hq. destruct (steps_above _ _ Hq) as [w E]. cbn in H1.
  unfold start_key, key in H1. rewrite E, <- app_assoc in H1. rewrite <- (app_nil_r (steps q)) in H1 at 2.
  rewrite lexcmp_app in H1. by destruct w.
Qed.

Lemma topmost_iff t c q : good t → parentNode c = Some q →
  topmost t c ↔ inside t c ∧ (q ∈ ancestors (startContainer t) ∨ q ∈ ancestors (endContainer t)).
Proof using Type*.
  intros Hg Hq. unfold topmost. split.
  - intros [Hc (q' & Hq' & Hn)]. assert (q' = q) as -> by congruence. clear Hq'. split; [done|].
    destruct (decide (q ∈ ancestors (startContainer t))) as [|Hs]; [by left|right].
    destruct (decide (q ∈ ancestors (endContainer t))) as [|He]; [done|]. destruct Hn.
    destruct Hc as (Hr & H1 & H2). rewrite (root_of_parent _ _ Hq) in Hr. split; [done|].
    split; [by apply (cut_parent true t c q)|]. apply (cut_parent false t c q); try done. cbn. by rewrite Hr, (good_root t Hg).
  - intros [Hc Ha]. split; [done|]. exists q. split; [done|]. intros [H1 H2]%inside_not_above. tauto.
Qed.

(** By the lowest node above both ends: to the left, among its children, to the right. *)
Definition below_end (isLeft : bool) t p c : Prop :=
  ∃ q, parentNode c = Some q ∧ q ∈ ancestors (bound isLeft t).1 ∧ p ∈ ancestors q ∧ q ≠ p ∧ cut isLeft t c.

Lemma cut_both t a q c : a ∈ ancestors (startContainer t) → a ∈ ancestors (endContainer t) → parentNode a = Some q → parentNode c = Some q →
  cut true t c → cut false t c → False.
Proof using Type*.
  intros Has Hae Ha Hc H1 H2. apply (cut_side true t a q c Has Ha Hc) in H1 as (? & _ & _ & H1).
  apply (cut_side false t a q c Hae Ha Hc) in H2 as (? & _ & _ & H2). lia.
Qed.

Lemma topmost_cases t p c : good t → p ∈ ancestors (startContainer t) → p ∈ ancestors (endContainer t) →
  (∀ a, parentNode a = Some p → a ∈ ancestors (startContainer t) → cut false t a) →
  (∀ a, parentNode a = Some p → a ∈ ancestors (endContainer t) → cut true t a) →
  topmost t c ↔ below_end true t p c ∨ (parentNode c = Some p ∧ cut true t c ∧ cut false t c) ∨ below_end false t p c.
Proof using Type*.
  intros Hg Hps Hpe Hcs Hce.
  assert (∀ q, parentNode c = Some q → cut true t c → cut false t c → q ∈ ancestors p → q = p) as Hup.
  { intros q Hq H1 H2 Hqp. destruct (decide (q = p)) as [|Hne]; [done|exfalso].
    destruct (ancestors_via_child q p Hqp Hne) as (a & Ha & Hap).
    apply (cut_both t a q c); try done; by eapply ancestors_trans. }
  split.
  - intros Ht. pose proof Ht as [(_ & H1 & H2) (q & Hq & _)]. apply (topmost_iff t c q Hg Hq) in Ht as [_ Hqa].
    destruct (decide (q = p)) as [->|Hne]; [right; left; done|].
    destruct Hqa as [Hqa|Hqa]; [left|right; right]; exists q; (split_and!; [done..| |done|done]).
    + destruct (ancestors_linear p q (startContainer t)) as [|Hqp]; try done. by rewrite (Hup q) in Hne.
    + destruct (ancestors_linear p q (endContainer t)) as [|Hqp]; try done. by rewrite (Hup q) in Hne.
  - assert (∀ isLeft q, q ∈ ancestors (bound isLeft t).1 → p ∈ ancestors q → q ≠ p → ∃ a, parentNode a = Some p ∧ a ∈ ancestors q ∧ a ∈ ancestors (bound isLeft t).1) as Hvia.
    { intros b q Hq Hpq Hne. destruct (ancestors_via_child p q Hpq) as (a & Ha & Haq); [done|]. exists a. split_and!; try done. by eapply ancestors_trans. }
    pose proof (root_of_ancestor _ _ Hps) as Hrs. pose proof (root_of_ancestor _ _ Hpe) as Hre.
    intros [(q & Hq & Hqs & Hpq & Hne & H1)|[(Hp & H1 & H2)|(q & Hq & Hqe & Hpq & Hne & H2)]].
    + destruct (Hvia true q Hqs Hpq Hne) as (a & Ha & Haq & Has). pose proof (Hcs a Ha Has) as Hcut. pose proof (root_of_parent _ _ Ha) as Hra.
      apply (topmost_iff t c q Hg Hq). split; [|by left]. split; [by rewrite (root_of_parent _ _ Hq), (root_of_ancestor _ _ Hpq)|]. split; [done|].
      apply (cut_below false t a c); [cbn; congruence|by destruct Hcut|done|by eapply ancestors_parent].
    + apply (topmost_iff t c p Hg Hp). split; [|by left]. split; [by rewrite (root_of_parent _ _ Hp)|done].
    + destruct (Hvia false q Hqe Hpq Hne) as (a & Ha & Haq & Hae). pose proof (Hce a Ha Hae) as Hcut. pose proof (root_of_parent _ _ Ha) as Hra.
      apply (topmost_iff t c q Hg Hq). split; [|by right]. split; [by rewrite (root_of_parent _ _ Hq), (root_of_ancestor _ _ Hpq)|]. split; [|done].
      apply (cut_below true t a c); [cbn; congruence| |done|by eapply ancestors_parent].
      intros Has. by apply (cut_both t a p a Has Hae Ha Ha Hcut (Hcs a Ha Has)).
Qed.

Lemma below_child isLeft t p r c : parentNode r = Some p → r ∈ ancestors (bound isLeft t).1 →
  below_end isLeft t p c ↔ ∃ q, parentNode c = Some q ∧ q ∈ ancestors (bound isLeft t).1 ∧ r ∈ ancestors q ∧ cut isLeft t c.
Proof using Type*.
  intros Hr Hin. split; intros (q & Hq & Hqz & H').
  - destruct H' as (Hpq & Hne & Hc). exists q. split_and!; try done. destruct (ancestors_via_child p q Hpq) as (a & Ha & Haq); [done|].
    rewrite (child_of_ancestor_unique p r a (bound isLeft t).1); try done. by eapply ancestors_trans.
  - destruct H' as (Hrq & Hc). exists q. split_and!; try done.
    + eapply ancestors_trans; [|exact Hrq]. eapply ancestors_parent; [exact Hr|apply ancestors_self].
    + intros ->. by apply kid_not_above in Hr.
Qed.

Lemma below_container isLeft t c : ¬ below_end isLeft t (bound isLeft t).1 c.
Proof using Type*. intros (q & _ & Hq & Hz & Hne & _). apply Hne. by apply ancestors_antisym. Qed.

(** The topmost nodes, the children of [p] between the ends being [l2]. *)
Lemma topmost_split t p l1 l2 l3 c : good t → p ∈ ancestors (startContainer t) → p ∈ ancestors (endContainer t) →
  childNodes p = l1 ++ l2 ++ l3 →
  (∀ a, parentNode a = Some p → cut true t a ↔ a ∈ l2 ++ l3) → (∀ a, parentNode a = Some p → cut false t a ↔ a ∈ l1 ++ l2) →
  (∀ a, parentNode a = Some p → a ∈ ancestors (startContainer t) → a ∈ l1) →
  (∀ a, parentNode a = Some p → a ∈ ancestors (endContainer t) → a ∈ l3) →
  topmost t c ↔ below_end true t p c ∨ c ∈ l2 ∨ below_end false t p c.
Proof using Type*.
  intros Hg Hps Hpe E HT HF Ha1 Ha3. rewrite (topmost_cases t p c Hg Hps Hpe).
  - assert (parentNode c = Some p ∧ cut true t c ∧ cut false t c ↔ c ∈ l2) as Hm; [|by rewrite Hm].
    pose proof (child_NoDup p) as Hnd. rewrite E in Hnd. apply NoDup_app in Hnd as (_ & H12 & Hnd). apply NoDup_app in Hnd as (_ & H23 & _).
    split.
    + intros (Hc & H1 & H2). apply (HT c Hc) in H1. apply (HF c Hc) in H2.
      apply elem_of_app in H2 as [H2|]; [|done]. by destruct (H12 c H2).
    + intros Hc. assert (parentNode c = Some p) as Hp by (apply child_parent; rewrite E; set_solver).
      split; [done|]. split; [apply (HT c Hp)|apply (HF c Hp)]; set_solver.
  - intros a Ha Hin. apply (HF a Ha). pose proof (Ha1 a Ha Hin). set_solver.
  - intros a Ha Hin. apply (HT a Ha). pose proof (Ha3 a Ha Hin). set_solver.
Qed.

(** The three ways two ends can part. *)
Lemma topmost_start t c l1 l2 l3 y : good t → childNodes (startContainer t) = l1 ++ l2 ++ c :: l3 → c ∈ ancestors (endContainer t) →
  startOffset t = Z.of_nat (length l1) → topmost t y ↔ y ∈ l2 ∨ below_end false t (startContainer t) y.
Proof using Type*.
  intros Hg E Hin Ho. pose proof E as E'. rewrite app_assoc in E'. pose proof (split_parent _ _ _ _ E') as Hc.
  rewrite (topmost_split t (startContainer t) l1 l2 (c :: l3) y Hg); try done.
  - pose proof (below_container true t y) as Hn. cbn [bound fst] in Hn. tauto.
  - apply ancestors_self.
  - eapply ancestors_trans; [|exact Hin]. eapply ancestors_parent; [exact Hc|apply ancestors_self].
  - intros a Ha. apply (cut_child true t a); [done|]. by exists l1.
  - intros a Ha. rewrite (cut_side false t c (startContainer t) a Hin Hc Ha). by apply (right_of_split [] _ _ _ _ _ E').
  - intros a Ha Hina. by apply kid_not_above in Ha.
  - intros a Ha Hina. rewrite (child_of_ancestor_unique (startContainer t) a c (endContainer t)) by done. by left.
Qed.

Lemma topmost_end t c l1 l2 l3 y : good t → childNodes (endContainer t) = l1 ++ c :: l2 ++ l3 → c ∈ ancestors (startContainer t) →
  endOffset t = Z.of_nat (length l1) + 1 + Z.of_nat (length l2) → topmost t y ↔ below_end true t (endContainer t) y ∨ y ∈ l2.
Proof using Type*.
  intros Hg E Hin Ho. pose proof (split_parent _ _ _ _ E) as Hc. pose proof E as E'. change (c :: l2 ++ l3) with ([c] ++ l2 ++ l3) in E'.
  rewrite app_assoc in E'. rewrite (topmost_split t (endContainer t) (l1 ++ [c]) l2 l3 y Hg); try done.
  - pose proof (below_container false t y) as Hn. cbn [bound fst] in Hn. tauto.
  - eapply ancestors_trans; [|exact Hin]. eapply ancestors_parent; [exact Hc|apply ancestors_self].
  - apply ancestors_self.
  - intros a Ha. rewrite (cut_side true t c (endContainer t) a Hin Hc Ha). by apply (right_of_split [] _ _ _ _ _ E).
  - intros a Ha. pose proof (cut_child false t a (reverse ((l1 ++ [c]) ++ l2))) as Hcc. cbn [bound] in Hcc. rewrite Hcc, elem_of_reverse; try done.
    exists l3. rewrite reverse_involutive, length_reverse, E', <- !app_assoc. split; [done|]. rewrite !length_app. cbn. lia.
  - intros a Ha Hina. rewrite (child_of_ancestor_unique (endContainer t) a c (startContainer t)) by done. set_solver.
  - intros a Ha Hina. by apply kid_not_above in Ha.
Qed.

Lemma topmost_apart t p c b l1 l2 l3 y : good t → childNodes p = l1 ++ c :: l2 ++ b :: l3 → c ∈ ancestors (startContainer t) →
  b ∈ ancestors (endContainer t) → topmost t y ↔ below_end true t p y ∨ y ∈ l2 ∨ below_end false t p y.
Proof using Type*.
  intros Hg E Hcs Hbe. pose proof (split_parent _ _ _ _ E) as Hc. pose proof E as E'.
  change (c :: l2 ++ b :: l3) with ([c] ++ l2 ++ b :: l3) in E'. rewrite app_assoc in E'.
  pose proof E' as Eb. rewrite app_assoc in Eb. pose proof (split_parent _ _ _ _ Eb) as Hb.
  apply (topmost_split t p (l1 ++ [c]) l2 (b :: l3) y Hg); [| |done|..].
  - eapply ancestors_trans; [|exact Hcs]. eapply ancestors_parent; [exact Hc|apply ancestors_self].
  - eapply ancestors_trans; [|exact Hbe]. eapply ancestors_parent; [exact Hb|apply ancestors_self].
  - intros a Ha. rewrite (cut_side true t c p a Hcs Hc Ha). by apply (right_of_split [] _ _ _ _ _ E).
  - intros a Ha. rewrite (cut_side false t b p a Hbe Hb Ha). by apply (right_of_split [] _ _ _ _ _ Eb).
  - intros a Ha Hina. rewrite (child_of_ancestor_unique p a c (startContainer t)) by done. set_solver.
  - intros a Ha Hina. rewrite (child_of_ancestor_unique p a b (endContainer t)) by done. by left.
Qed.

Lemma topmost_same t l1 l2 l3 y : good t → startContainer t = endContainer t → childNodes (startContainer t) = l1 ++ l2 ++ l3 →
  startOffset t = Z.of_nat (length l1) → endOffset t = startOffset t + Z.of_nat (length l2) → topmost t y ↔ y ∈ l2.
Proof using Type*.
  intros Hg Hse E Ho He. rewrite (topmost_split t (startContainer t) l1 l2 l3 y Hg); try done.
  - pose proof (below_container true t y). pose proof (below_container false t y) as Hb. cbn [bound fst] in *. rewrite <- Hse in Hb. tauto.
  - apply ancestors_self.
  - rewrite <- Hse. apply ancestors_self.
  - intros a Ha. apply (cut_child true t a); [done|]. by exists l1.
  - intros a Ha. pose proof (cut_child false t a (reverse (l1 ++ l2))) as Hc. cbn [bound] in Hc. rewrite <- Hse in Hc. rewrite Hc, elem_of_reverse; try done.
    exists l3. rewrite reverse_involutive, length_reverse, <- app_assoc. split; [done|]. rewrite length_app. lia.
  - intros a Ha Hin. by apply kid_not_above in Ha.
  - intros a Ha Hin. rewrite <- Hse in Hin. by apply kid_not_above in Ha.
Qed.
End Ends.
