(* ===== verification/MutDom.v ===== *)
(** * The browser's document while it is changed

    The operations on a document the sources call, as an interface: [MutDom] lists them, [MutDomLaws] what the
    DOM standard says of them.  A state of the document is looked at through the class Dom. *)

From S2P Require Import Prelude Dom.

(** ** The interface *)

(** [removeChild p c] is [p.removeChild(c)], [setNodeValue n v] the assignment to [n.nodeValue] of a text, [deleteData n a k]
    the method of texts; [None] is an exception. *)
Class MutDom (node D : Type) := {
  view : D -> Dom node;
  removeChild : node -> node -> D -> option D;
  setNodeValue : node -> jstr -> D -> option D;
  deleteData : node -> Z -> Z -> D -> option D
}.

Class MutDomLaws (node D : Type) `{EqDecision node} `{MutDom node D} : Prop := {
  view_laws d : @DomLaws node (view d);
  removeChild_ok d p c : @parentNode node (view d) c = Some p →
    ∃ d', removeChild p c d = Some d'
      ∧ (∀ x, @parentNode node (view d') x = if decide (x = c) then None else @parentNode node (view d) x)
      ∧ (∀ x, @childNodes node (view d') x = filter (λ y, y ≠ c) (@childNodes node (view d) x))
      ∧ ∀ x, @nodeType node (view d') x = @nodeType node (view d) x ∧ @nodeValue node (view d') x = @nodeValue node (view d) x;
  setNodeValue_ok d n v : @nodeType node (view d) n = 3 →
    ∃ d', setNodeValue n v d = Some d'
      ∧ (∀ x, @parentNode node (view d') x = @parentNode node (view d) x ∧ @childNodes node (view d') x = @childNodes node (view d) x)
      ∧ (∀ x, @nodeType node (view d') x = @nodeType node (view d) x)
      ∧ ∀ x, @nodeValue node (view d') x = if decide (x = n) then Some v else @nodeValue node (view d) x;
  deleteData_ok d n a k v : @nodeType node (view d) n = 3 → @nodeValue node (view d) n = Some v →
    0 ≤ a ≤ Z.of_nat (length v) → 0 ≤ k →
    deleteData n a k d = setNodeValue n (take (Z.to_nat a) v ++ drop (Z.to_nat (a + k)) v) d
}.

(** ** A document given by a table *)
Abbreviation table := (list trow).

Definition set_row (n : nat) (f : trow -> trow) (t : table) : table :=
  match t !! n with Some r => <[n := f r]> t | None => t end.
Definition set_kids (f : list nat -> list nat) (r : trow) : trow := TRow (t_type r) (t_name r) (t_value r) (t_attrs r) (f (t_kids r)).
Definition set_text (v : jstr) (r : trow) : trow := TRow (t_type r) (t_name r) (Some v) (t_attrs r) (t_kids r).

(** A table that is no document is taken for the empty one. *)
Definition document_of (t : table) : table := if table_ok t then t else [].

Definition table_remove (p c : nat) (t : table) : option table :=
  if bool_decide (c ∈ t_kids (t_row (document_of t) p)) then Some (set_row p (set_kids (filter (λ y, y ≠ c))) (document_of t)) else None.
Definition table_set (n : nat) (v : jstr) (t : table) : option table :=
  if t_type (t_row (document_of t) n) =? 3 then Some (set_row n (set_text v) (document_of t)) else None.
Definition table_delete (n : nat) (a k : Z) (t : table) : option table :=
  v ← t_value (t_row (document_of t) n);
  table_set n (take (Z.to_nat a) v ++ drop (Z.to_nat (a + k)) v) t.

#[local] Instance table_mut : MutDom nat table := {|
  view t := table_dom (document_of t);
  removeChild := table_remove;
  setNodeValue := table_set;
  deleteData := table_delete
|}.

Lemma document_ok t : table_ok (document_of t) = true.
Proof. unfold document_of. destruct (table_ok t) eqn:E; [done|by vm_compute]. Qed.

Lemma set_row_lookup n f t x : set_row n f t !! x = if decide (x = n) then f <$> t !! x else t !! x.
Proof.
  unfold set_row. case_decide as Hx.
  - subst x. destruct (t !! n) as [r|] eqn:E; [|by rewrite E]. rewrite list_lookup_insert_eq; [done|]. by eapply lookup_lt_Some.
  - destruct (t !! n) as [r|]; [|done]. by rewrite list_lookup_insert_ne.
Qed.

Lemma set_row_row n f t x r : t !! n = Some r → t_row (set_row n f t) x = if decide (x = n) then f (t_row t x) else t_row t x.
Proof. intros E. unfold t_row. rewrite set_row_lookup. case_decide as Hx; [|done]. subst x. by rewrite E. Qed.

Definition row_ok (i : nat) (r : trow) : bool :=
  forallb (λ c, (i <? c)%nat) (t_kids r) && (negb (t_type r =? 3) || bool_decide (is_Some (t_value r) ∧ t_kids r = [])).

Lemma rows_ok_spec rows : ∀ i, rows_ok i rows = true ↔ ∀ j r, rows !! j = Some r → row_ok (i + j) r = true.
Proof.
  induction rows as [|r rows IH]; intros i; [done|]. cbn [rows_ok]. rewrite andb_true_iff, IH. split.
  - intros [Hr Hrs] [|j] r'; cbn; [intros [= <-]; by rewrite Nat.add_0_r|]. intros Hj. rewrite <- Nat.add_succ_comm. by apply Hrs.
  - intros Hall. split; [specialize (Hall 0%nat r eq_refl); by rewrite Nat.add_0_r in Hall|].
    intros j r' Hj. rewrite Nat.add_succ_comm. by apply (Hall (S j)).
Qed.

Lemma concat_insert_sublist {A} (ls : list (list A)) n k k' : ls !! n = Some k → k' `sublist_of` k →
  concat (<[n := k']> ls) `sublist_of` concat ls.
Proof.
  intros Hn Hk. rewrite <- (take_drop_middle ls n k Hn) at 2. rewrite insert_take_drop by (by eapply lookup_lt_Some).
  rewrite !concat_app. cbn. by apply sublist_app, sublist_app.
Qed.

Lemma set_row_ok n f t r : table_ok t = true → t !! n = Some r → t_kids (f r) `sublist_of` t_kids r → row_ok n (f r) = true →
  table_ok (set_row n f t) = true.
Proof.
  unfold table_ok. intros [Hnd%bool_decide_eq_true Hrows]%andb_true_iff Hn Hk Hr. rewrite andb_true_iff, bool_decide_eq_true. split.
  - unfold set_row. rewrite Hn, list_fmap_insert. eapply sublist_NoDup; [exact Hnd|]. eapply concat_insert_sublist; [|exact Hk].
    by rewrite list_lookup_fmap, Hn.
  - rewrite rows_ok_spec in Hrows |- *. intros j r'. rewrite set_row_lookup. case_decide as Hj; [|by apply Hrows].
    subst j. rewrite Hn. by intros [= <-].
Qed.

Lemma filter_sublist {A} (P : A → Prop) `{∀ x, Decision (P x)} (l : list A) : filter P l `sublist_of` l.
Proof.
  induction l as [|x l IH]; [done|]. rewrite filter_cons. case_decide; [by apply sublist_skip|by apply sublist_cons].
Qed.

(** After a change that keeps the table a document, the row that was changed is seen. *)
Lemma changed_row n f t r : table_ok t = true → t !! n = Some r → t_kids (f r) `sublist_of` t_kids r → row_ok n (f r) = true →
  document_of (set_row n f t) = set_row n f t ∧ ∀ x, t_row (set_row n f t) x = if decide (x = n) then f (t_row t x) else t_row t x.
Proof. intros Hok Hn Hk Hr. split; [unfold document_of; by rewrite (set_row_ok n f t r)|intros x; by apply (set_row_row n f t x r)]. Qed.

Lemma row_of_ok t n r : table_ok t = true → t !! n = Some r → row_ok n r = true.
Proof. intros [_ Hrows]%andb_true_iff Hn. rewrite rows_ok_spec in Hrows. by apply (Hrows n r). Qed.

Lemma t_row_known t n (P : trow → Prop) : P (t_row t n) → ¬ P (TRow 0 [] None [] []) → ∃ r, t !! n = Some r ∧ t_row t n = r.
Proof. unfold t_row. destruct (t !! n) as [r|]; cbn; [by exists r|]. intros H1 H2. by destruct (H2 H1). Qed.

Lemma filter_all {A} (P : A → Prop) `{∀ x, Decision (P x)} (l : list A) : (∀ x, x ∈ l → P x) → filter P l = l.
Proof.
  induction l as [|x l IH]; intros Hl; [done|]. rewrite filter_cons, decide_True by (apply Hl; by left).
  f_equal. apply IH. intros y Hy. apply Hl. by right.
Qed.

Lemma table_mut_laws : MutDomLaws nat table.
Proof.
  constructor.
  - intros t. apply table_laws, document_ok.
  - intros t p c Hc. cbn in *. set (d := document_of t) in *. pose proof (document_ok t) as Hok. fold d in Hok.
    apply (t_parent_ok d Hok) in Hc as Hin. destruct (t_row_known d p (λ r, c ∈ t_kids r) Hin) as (r & Hp & Er); [cbn; set_solver|].
    unfold table_remove. fold d. rewrite bool_decide_true by done.
    pose proof (row_of_ok d p r Hok Hp) as Hr.
    assert (t_kids (set_kids (filter (λ y, y ≠ c)) r) `sublist_of` t_kids r) as Hsub by apply filter_sublist.
    destruct (changed_row p (set_kids (filter (λ y, y ≠ c))) d r Hok Hp Hsub) as [Ed Hrow].
    { unfold row_ok in *. apply andb_true_iff in Hr as [H1 H2]. apply andb_true_iff. split.
      - rewrite forallb_forall in H1 |- *. intros x Hx%list_elem_of_In. cbn in Hx. apply list_elem_of_filter in Hx as [_ Hx]. by apply H1, list_elem_of_In.
      - cbn. destruct (t_type r =? 3); [|done]. cbn in *. apply bool_decide_eq_true in H2 as [H2 H3]. apply bool_decide_eq_true. by rewrite H3. }
    assert (∀ x, t_kids (t_row (set_row p (set_kids (filter (λ y, y ≠ c))) d) x) = filter (λ y, y ≠ c) (t_kids (t_row d x))) as Hkids.
    { intros x. rewrite Hrow. case_decide as Hx; [done|]. symmetry. apply filter_all. intros y Hy ->.
      apply (t_parent_ok d Hok) in Hy. congruence. }
    eexists. split; [reflexivity|]. rewrite Ed. split_and!.
    + intros x. apply option_eq. intros q. rewrite (t_parent_ok _); [|by rewrite <- Ed; apply document_ok]. rewrite Hkids, list_elem_of_filter.
      case_decide as Hx; [naive_solver|]. rewrite <- (t_parent_ok d Hok). naive_solver.
    + exact Hkids.
    + intros x. rewrite Hrow. by case_decide.
  - intros t n v Ht. cbn in *. set (d := document_of t) in *. pose proof (document_ok t) as Hok. fold d in Hok.
    destruct (t_row_known d n (λ r, t_type r = 3) Ht) as (r & Hn & Er); [done|].
    unfold table_set. fold d. rewrite Ht. cbn [Z.eqb Pos.eqb].
    pose proof (row_of_ok d n r Hok Hn) as Hr.
    destruct (changed_row n (set_text v) d r Hok Hn) as [Ed Hrow]; [done| |].
    { unfold row_ok in *. apply andb_true_iff in Hr as [H1 H2]. apply andb_true_iff. split; [exact H1|]. cbn.
      destruct (t_type r =? 3); [|done]. cbn in *. apply bool_decide_eq_true in H2 as [_ H3]. apply bool_decide_eq_true. split; [by eexists|done]. }
    eexists. split; [reflexivity|]. rewrite Ed.
    assert (∀ x, t_kids (t_row (set_row n (set_text v) d) x) = t_kids (t_row d x)) as Hkids by (intros x; rewrite Hrow; by case_decide).
    split_and!.
    + intros x. split; [|apply Hkids]. apply option_eq. intros q.
      rewrite (t_parent_ok _); [|by rewrite <- Ed; apply document_ok]. by rewrite Hkids, (t_parent_ok d Hok).
    + intros x. rewrite Hrow. by case_decide.
    + intros x. rewrite Hrow. by case_decide.
  - intros t n a k v _ Hv _ _. cbn in *. unfold table_delete. by rewrite Hv.
Qed.
