(* ===== verification/RangeExtract.v ===== *)
(** * classes/dom/Range.js, extractContents and deleteContents

    The traversal in all three ways: EXTRACT moves what lies between the ends of a range into the fragment it
    returns, CLONE copies it, DELETE takes it out.  The document is the interface of MutDom; a fragment is a list
    of copies as in RangeClone, in which a deep copy stands for the node itself when it was moved. *)

From S2P Require Import Prelude Dom TreeWalker DOMUtils Range RangeClone RangeUtils MutDom.

Inductive how_t := EXTRACT | CLONE | DELETE.
#[export] Instance how_dec : EqDecision how_t.
Proof. solve_decision. Defined.

Section RangeExtract.
Context {node D : Type} `{EqDecision node} `{MutDom node D}.
Implicit Types (n p c a b : node) (t r : range node) (d : D).

(** The document and the range. *)
Abbreviation RM := (SE (D * range node)).

(** What the document shows, what the range holds. *)
Definition see {A} (f : Dom node -> A) : RM A := gets (λ s, f (view s.1)).
Definition rng : RM (range node) := gets snd.
Definition change (f : D -> option D) : RM unit := λ s, d ← f s.1; Some (tt, (d, s.2)).

(** A method of the range in the document as it is. *)
Definition in_range {A} (f : Dom node -> SE (range node) A) : RM A :=
  λ s, '(x, t) ← f (view s.1) s.2; Some (x, (s.1, t)).

(** [n.parentNode.removeChild(n)] *)
Definition remove n : RM unit :=
  p ← see (λ v, @parentNode node v n);
  p ← oget p;
  change (removeChild p n).

(** A node that is appended elsewhere leaves its place. *)
Definition leave n : RM unit :=
  p ← see (λ v, @parentNode node v n);
  match p with Some p => change (removeChild p n) | None => mret tt end.

(** Appending to the fragment or to a copy; only nodes of the document itself have a place to leave. *)
Definition adopt (how : how_t) (child : option (copy node)) : RM unit :=
  match how, child with
  | EXTRACT, Some (Copy n true _ _) => leave n
  | _, _ => mret tt
  end.

(** [None] is undefined. *)
Definition put (isLeft : bool) (parent child : option (copy node)) : option (copy node) :=
  match parent, child with
  | Some p, Some c => Some (if isLeft then RangeClone.appendChild p c else prependChild p c)
  | _, _ => parent
  end.

Section How.
Context (how : how_t).

Definition _traverseFullySelected n : RM (option (copy node)) :=
  match how with
  | DELETE => remove n;; mret None
  | _ => v ← see (λ v, @nodeValue node v n); mret (Some (Copy n true v []))
  end.

Definition _traverseNode n (isFullySelected isLeft : bool) : RM (option (copy node)) :=
  if isFullySelected then _traverseFullySelected n
  else
    ty ← see (λ v, @nodeType node v n);
    if ty =? 3 then
      txtValue ← see (λ v, @nodeValue node v n);
      txtValue ← oget txtValue;
      t ← rng;
      let '(newNodeValue, oldNodeValue) :=
        if isLeft then (substring txtValue (startOffset t) (Z.of_nat (length txtValue)), substring txtValue 0 (startOffset t))
        else (substring txtValue 0 (endOffset t), substring txtValue (endOffset t) (Z.of_nat (length txtValue))) in
      (if decide (how = CLONE) then mret tt else change (setNodeValue n oldNodeValue));;
      mret (if decide (how = DELETE) then None else Some (Copy n false (Some newNodeValue) []))
    else if decide (how = DELETE) then mret None
    else v ← see (λ v, @nodeValue node v n); mret (Some (Copy n false v [])).

(** The inner loops of the two boundaries, which differ in their direction only: the siblings to the right
    of the left boundary, to the left of the right one. *)
Fixpoint siblings_loop (fuel : nat) (isLeft : bool) (next : option node) (isFullySelected : bool) (clonedParent : option (copy node))
    : RM (option (copy node) * bool) :=
  match next with
  | None => mret (clonedParent, isFullySelected)
  | Some n =>
      match fuel with
      | O => throw
      | S f =>
          sibling ← see (λ v, if isLeft then @nextSibling node v n else @previousSibling node v n);
          clonedChild ← _traverseNode n isFullySelected isLeft;
          adopt how clonedChild;;
          siblings_loop f isLeft sibling true (put isLeft clonedParent clonedChild)
      end
  end.

Fixpoint parents_loop (fuel : nat) (isLeft : bool) (root parent : node) (next : option node) (isFullySelected : bool)
    (clonedParent : option (copy node)) : RM (option (copy node)) :=
  k ← see (λ v, length (@childNodes node v parent));
  '(clonedParent, isFullySelected) ← siblings_loop k isLeft next isFullySelected clonedParent;
  if decide (parent = root) then mret clonedParent
  else match fuel with
       | O => throw
       | S f =>
           next ← see (λ v, if isLeft then @nextSibling node v parent else @previousSibling node v parent);
           grandParent ← see (λ v, @parentNode node v parent);
           grandParent ← oget grandParent;
           clonedGrandParent ← _traverseNode grandParent false isLeft;
           adopt how clonedParent;;
           parents_loop f isLeft root grandParent next isFullySelected (put true clonedGrandParent clonedParent)
       end.

Definition boundary_from (isLeft : bool) (root next : node) (isFullySelected : bool) : RM (option (copy node)) :=
  if decide (next = root) then _traverseNode next isFullySelected isLeft
  else
    parent ← see (λ v, @parentNode node v next);
    parent ← oget parent;
    clonedParent ← _traverseNode parent false isLeft;
    f ← see (λ v, @depth node v parent);
    parents_loop f isLeft root parent (Some next) isFullySelected clonedParent.

Definition _traverseRightBoundary (root : node) : RM (option (copy node)) :=
  t ← rng;
  next ← see (λ v, @_getSelectedNode node v (endContainer t) (endOffset t - 1));
  boundary_from false root next (negb (bool_decide (next = endContainer t))).

Definition _traverseLeftBoundary (root : node) : RM (option (copy node)) :=
  t ← rng;
  next ← see (λ v, @_getSelectedNode node v (startContainer t) (startOffset t));
  boundary_from true root next (negb (bool_decide (next = startContainer t))).

(** The fragment; [None] when there is none ([frag] is undefined). *)
Definition fragment : Type := option (list (copy node)).
Definition new_fragment : fragment := if decide (how = DELETE) then None else Some [].
Definition add (atEnd : bool) (frag : fragment) (x : option (copy node)) : RM fragment :=
  match frag with
  | None => mret None
  | Some l => adopt how x;; mret (Some (match x with Some x => if atEnd then l ++ [x] else x :: l | None => l end))
  end.

(** [while (n && cnt > 0)] *)
Fixpoint forward_loop (fuel : nat) (o : option node) (cnt : Z) (frag : fragment) : RM fragment :=
  match o with
  | Some n =>
      if 0 <? cnt then
        match fuel with
        | O => throw
        | S f =>
            sibling ← see (λ v, @nextSibling node v n);
            x ← _traverseFullySelected n;
            frag ← add true frag x;
            forward_loop f sibling (cnt - 1) frag
        end
      else mret frag
  | None => mret frag
  end.

(** [while (cnt > 0)], back and forth. *)
Fixpoint counted_loop (fuel : nat) (forward : bool) (o : option node) (cnt : Z) (frag : fragment) : RM fragment :=
  if 0 <? cnt then
    match fuel with
    | O => throw
    | S f =>
        n ← oget o;
        sibling ← see (λ v, if forward then @nextSibling node v n else @previousSibling node v n);
        x ← _traverseFullySelected n;
        frag ← add forward frag x;
        counted_loop f forward sibling (cnt - 1) frag
    end
  else mret frag.

Definition unless_clone (m : RM unit) : RM unit := if decide (how = CLONE) then mret tt else m.
Definition collapse_to (ts : bool) : RM unit := in_range (λ _, collapse ts).

Definition _traverseSameContainer : RM fragment :=
  t ← rng;
  let c := startContainer t in
  let frag := new_fragment in
  if startOffset t =? endOffset t then mret frag
  else
    ty ← see (λ v, @nodeType node v c);
    if ty =? 3 then
      s ← see (λ v, @nodeValue node v c);
      s ← oget s;
      let sub := substring s (startOffset t) (endOffset t) in
      let len := endOffset t - startOffset t in
      unless_clone
        ((if (startOffset t =? 0) && (Z.of_nat (length s) - 1 <=? len) then remove c
          else change (deleteData c (startOffset t) len));;
         collapse_to true);;
      if decide (how = DELETE) then mret None
      else if truthy sub then add true frag (Some (NewText sub)) else mret frag
    else
      n ← see (λ v, @_getSelectedNode node v c (startOffset t));
      k ← see (λ v, length (@childNodes node v c));
      frag ← forward_loop k (Some n) (endOffset t - startOffset t) frag;
      unless_clone (collapse_to true);;
      mret frag.

Definition index_of n : RM Z := i ← see (λ v, @nodeIndex node v n false); oget i.
Definition fuel_at n : RM nat := see (λ v, @sibling_fuel node v n).

Definition _traverseCommonStartContainer (endAncestor : node) : RM fragment :=
  n ← _traverseRightBoundary endAncestor;
  frag ← add true new_fragment n;
  endIdx ← index_of endAncestor;
  t ← rng;
  let cnt := endIdx - startOffset t in
  frag ← (if cnt <=? 0 then mret frag
          else
            o ← see (λ v, @previousSibling node v endAncestor);
            k ← fuel_at endAncestor;
            counted_loop (S k) false o cnt frag);
  unless_clone (in_range (λ v, @setEndBefore node v endAncestor);; collapse_to false);;
  mret frag.

Definition _traverseCommonEndContainer (startAncestor : node) : RM fragment :=
  n ← _traverseLeftBoundary startAncestor;
  frag ← add true new_fragment n;
  startIdx ← index_of startAncestor;
  t ← rng;
  let cnt := endOffset t - (startIdx + 1) in
  o ← see (λ v, @nextSibling node v startAncestor);
  k ← fuel_at startAncestor;
  frag ← forward_loop k o cnt frag;
  unless_clone (in_range (λ v, @setStartAfter node v startAncestor);; collapse_to true);;
  mret frag.

Definition _traverseCommonAncestors (startAncestor endAncestor : node) : RM fragment :=
  n ← _traverseLeftBoundary startAncestor;
  frag ← add true new_fragment n;
  startOffset ← index_of startAncestor;
  endOffset ← index_of endAncestor;
  let cnt := endOffset - (startOffset + 1) in
  sibling ← see (λ v, @nextSibling node v startAncestor);
  k ← fuel_at startAncestor;
  frag ← counted_loop (S k) true sibling cnt frag;
  n ← _traverseRightBoundary endAncestor;
  frag ← add true frag n;
  unless_clone (in_range (λ v, @setStartAfter node v startAncestor);; collapse_to true);;
  mret frag.

Definition _traverse : RM fragment :=
  t ← rng;
  if decide (startContainer t = endContainer t) then _traverseSameContainer
  else
    below ← see (λ v, @below_loop node v (@depth node v (endContainer t)) (startContainer t) (endContainer t) 0);
    match below with
    | inl c => _traverseCommonStartContainer c
    | inr endContainerDepth =>
        below ← see (λ v, @below_loop node v (@depth node v (startContainer t)) (endContainer t) (startContainer t) 0);
        match below with
        | inl c => _traverseCommonEndContainer c
        | inr startContainerDepth =>
            let depthDiff := startContainerDepth - endContainerDepth in
            startNode ← see (λ v, @ascend node v (Z.to_nat depthDiff) (Some (startContainer t)));
            startNode ← oget startNode;
            endNode ← see (λ v, @ascend node v (Z.to_nat (- depthDiff)) (Some (endContainer t)));
            endNode ← oget endNode;
            pair ← see (λ v, @pair_loop node v (@depth node v startNode) startNode endNode);
            '(startNode, endNode) ← oget pair;
            _traverseCommonAncestors startNode endNode
        end
    end.
End How.

Definition deleteContents : RM unit := _traverse DELETE;; mret tt.
Definition extractContents : RM fragment := _traverse EXTRACT.
End RangeExtract.
