(* ===== verification/RangeInsert.v ===== *)
(** * classes/dom/Range.js, insertNode

    Putting a node at the start of a range, which splits the text the start is in.  The two operations of the
    document it needs on top of MutDom are the class [InsertDom]; the range keeps its ends. *)

From S2P Require Import Prelude Dom TreeWalker DOMUtils Range RangeUtils MutDom.

(** [insertBefore p n ref] is [p.insertBefore(n, ref)], without [ref] [p.appendChild(n)]; [splitText n o] the method of texts, with the
    new text it returns; [None] is an exception. *)
Class InsertDom (node D : Type) `{MutDom node D} := {
  insertBefore : node -> node -> option node -> D -> option D;
  splitText : node -> Z -> D -> option (node * D)
}.

Section RangeInsert.
Context {node D : Type} `{EqDecision node} `{InsertDom node D}.
Implicit Types (n p c : node) (t : range node).

(** [dom.insertAfter(n, reference_node)] *)
Definition insertAfter n (reference_node : node) : SE D unit := λ d,
  p ← @parentNode node (view d) reference_node;
  d ← insertBefore p n (@nextSibling node (view d) reference_node) d;
  Some (tt, d).

Definition insertNode t n : SE D unit := λ d,
  let c := startContainer t in
  let type := @nodeType node (view d) c in
  match @nodeValue node (view d) c with
  | Some (x :: value) =>
      if (type =? 3) || (type =? 4) then
        if startOffset t =? 0 then
          p ← @parentNode node (view d) c; d ← insertBefore p n (Some c) d; Some (tt, d)
        else if Z.of_nat (length (x :: value)) <=? startOffset t then insertAfter n c d
        else '(nn, d) ← splitText c (startOffset t) d;
             p ← @parentNode node (view d) c; d ← insertBefore p n (Some nn) d; Some (tt, d)
      else match @item node (view d) c (startOffset t) with
           | Some o => d ← insertBefore c n (Some o) d; Some (tt, d)
           | None => d ← insertBefore c n None d; Some (tt, d)
           end
  | _ =>
      match @item node (view d) c (startOffset t) with
      | Some o => d ← insertBefore c n (Some o) d; Some (tt, d)
      | None => if type =? 3 then insertAfter n c d else d ← insertBefore c n None d; Some (tt, d)
      end
  end.
End RangeInsert.

(** ** Documents given by a table *)

(** [n] before [ref] in a list of children that may hold it already. *)
Definition put_before (n : nat) (ref : option nat) (kids : list nat) : list nat :=
  match ref with
  | None => filter (.≠ n) kids ++ [n]
  | Some r =>
      match list_find (r =.) kids with
      | Some (i, _) => filter (.≠ n) (take i kids) ++ n :: filter (.≠ n) (drop i kids)
      | None => kids
      end
  end.

Definition table_insert (p n : nat) (ref : option nat) (t : table) : option table :=
  let d := document_of t in
  if match ref with Some r => negb (bool_decide (r ∈ t_kids (t_row d p))) | None => false end then None
  else
    let kids := put_before n ref (t_kids (t_row d p)) in
    let d' := set_row p (set_kids (λ _, kids)) (set_kids (filter (.≠ n)) <$> d) in
    if table_ok d' then Some d' else None.

Definition table_split (n : nat) (o : Z) (t : table) : option (nat * table) :=
  let d := document_of t in
  v ← t_value (t_row d n);
  let nn := length d in
  let d' := set_row n (set_text (take (Z.to_nat o) v)) d ++ [TRow 3 (t_name (t_row d n)) (Some (drop (Z.to_nat o) v)) [] []] in
  match t_parent d n with
  | None => Some (nn, d')
  | Some p => (λ d', (nn, d')) <$> (d'' ← Some (set_row p (set_kids (λ k, put_before nn (head (t_around n [] k).2) k)) d');
                                     if table_ok d'' then Some d'' else None)
  end.

#[local] Existing Instance table_mut.
#[local] Instance table_inserts : InsertDom nat table := {| insertBefore := table_insert; splitText := table_split |}.

(** [<p>ab<b>c</b></p>] *)
Definition insert_sample : table :=
  [TRow 9 (js "#document") None [] [1%nat]; t_elem "P" [] [2; 3]%nat; t_text "ab"; t_elem "B" [] [4%nat]; t_text "c"].

(** A node is put into the middle of a text. *)
Example insert_splits :
  (λ '(_, d), (t_kids (t_row d 1), t_value (t_row d 2), t_value (t_row d 5))) <$>
    insertNode (MkRange 2%nat 1 2%nat 1 true None) 3%nat insert_sample
  = Some ([2; 3; 5]%nat, Some (js "a"), Some (js "b")).
Proof. by vm_compute. Qed.

(** The range from the start of the first text into the element after it is good; once that element is inserted at
    its start, its start is behind its end. *)
Definition into_b : option (range nat) :=
  snd <$> (@setStart nat (table_dom insert_sample) 2%nat 0 ≫= λ _, @setEnd nat (table_dom insert_sample) 4%nat 1)
    (@init nat 0%nat).

Example insert_start_after_end : ∃ t d,
  into_b = Some t ∧ @reachable nat (table_dom insert_sample) 0%nat t ∧ insertNode t 3%nat insert_sample = Some (tt, d)
  ∧ @lexcmp (@start_key nat (table_dom d) t) (@end_key nat (table_dom d) t) = Gt.
Proof.
  eexists _, _. split; [by vm_compute|]. split_and!; [|by vm_compute..].
  eapply (reach_op 0%nat _ _ (OpSetEnd 4%nat 1)); [eapply (reach_op 0%nat _ _ (OpSetStart 2%nat 0)); [apply reach_init|]|]; by vm_compute.
Qed.
