(* ===== verification/RangeExtractFacts.v ===== *)
(** * extractContents and deleteContents against cloneContents

    Both return, or drop, what cloneContents would copy, and leave the rest of the document in its place. *)

From S2P Require Import Prelude Dom TreeWalker DOMUtils Range RangeClone RangeUtils RangeCut MutDom RangeExtract.

(** The nodes of a list that are not taken out. *)
Definition keep {node} `{EqDecision node} (R l : list node) : list node := base.filter (λ c, c ∉ R) l.

Section Keep.
Context {node : Type} `{EqDecision node}.
Implicit Types (R l : list node).

Lemma keep_app R l1 l2 : keep R (l1 ++ l2) = keep R l1 ++ keep R l2.
Proof using Type. apply filter_app. Qed.

Lemma keep_all R l : (∀ x, x ∈ l → x ∉ R) → keep R l = l.
Proof using Type. intros Hl. by apply filter_all. Qed.

Lemma keep_one R c l : c ∉ R → keep R (c :: l) = c :: keep R l.
Proof using Type. intros Hc. unfold keep. by rewrite filter_cons, decide_True. Qed.

Lemma keep_elem R l x : x ∈ keep R l ↔ (x ∉ R) ∧ x ∈ l.
Proof using Type. unfold keep. by rewrite list_elem_of_filter. Qed.

Lemma keep_cons c R l : base.filter (λ y, y ≠ c) (keep R l) = keep (c :: R) l.
Proof using Type.
  unfold keep. rewrite list_filter_filter. apply list_filter_iff. intros x. rewrite not_elem_of_cons. tauto.
Qed.

Lemma keep_ext R R' l : (∀ x, x ∈ l → x ∈ R ↔ x ∈ R') → keep R l = keep R' l.
Proof using Type.
  intros Hl. unfold keep. induction l as [|x l IH]; [done|]. rewrite !filter_cons.
  assert (x ∈ R ↔ x ∈ R') as Hx by (apply Hl; by left). rewrite IH by (intros y Hy; apply Hl; by right).
  destruct (decide (x ∉ R)), (decide (x ∉ R')); tauto.
Qed.

Lemma keep_without R l1 l2 l3 : NoDup (l1 ++ l2 ++ l3) → (∀ x, x ∈ l1 ++ l2 ++ l3 → x ∈ R ↔ x ∈ l2) → keep R (l1 ++ l2 ++ l3) = l1 ++ l3.
Proof using Type.
  intros Hnd HR. rewrite (keep_ext R l2) by done. apply NoDup_app in Hnd as (_ & H1 & Hnd). apply NoDup_app in Hnd as (_ & H2 & _).
  rewrite !keep_app, (keep_all l2 l1), (keep_all l2 l3); [|set_solver..]. f_equal.
  rewrite (elem_of_nil_inv (keep l2 l2)); [done|]. intros x. rewrite keep_elem. tauto.
Qed.
End Keep.

Section Facts.
Context {node D : Type} `{EqDecision node} `{MutDom node D} `{!MutDomLaws node D}.
Abbreviation RM := (SE (D * range node)).
Implicit Types (n p c a b x : node) (t : range node) (d : D) (R l : list node) (V : node → option jstr).

Lemma see_bind {A B} (f : Dom node → A) (k : A → RM B) d t : (see f ≫= k) (d, t) = k (f (view d)) (d, t).
Proof using Type. done. Qed.
Lemma rng_bind {B} (k : range node → RM B) d t : (rng ≫= k) (d, t) = k t (d, t).
Proof using Type. done. Qed.
Lemma oget_bind {A B} (o : option A) (y : A) (k : A → RM B) (s : D * range node) : o = Some y → (oget o ≫= k) s = k y s.
Proof using Type. by intros ->. Qed.
Lemma ret_bind {A B} (y : A) (k : A → RM B) (s : D * range node) : (mret y ≫= k) s = k y s.
Proof using Type. done. Qed.

Lemma change_run (f : D → option D) d d' t : f d = Some d' → change f (d, t) = Some (tt, (d', t)).
Proof using Type. intros E. unfold change. cbn. by rewrite E. Qed.

(** A list around two places. *)
Lemma three_parts l (a b : Z) : 0 ≤ a ≤ b → b ≤ Z.of_nat (length l) →
  ∃ l1 l2 l3, l = l1 ++ l2 ++ l3 ∧ a = Z.of_nat (length l1) ∧ b - a = Z.of_nat (length l2).
Proof using Type.
  intros Hab Hb. exists (take (Z.to_nat a) l), (take (Z.to_nat (b - a)) (drop (Z.to_nat a) l)), (drop (Z.to_nat (b - a)) (drop (Z.to_nat a) l)).
  rewrite !length_take, length_drop, !take_drop. split_and!; [done|lia..].
Qed.

(** ** The document without some nodes *)
Section From.
Context (d0 : D).
#[local] Instance v0 : Dom node := view d0.
#[local] Instance v0_laws : DomLaws node.
Proof using MutDomLaws0. apply view_laws. Qed.

(** The state [d] of the document: [d0] without the nodes [R] at their places, the texts being [V]. *)
Record left R V d : Prop := Left {
  lf_par x : @parentNode node (view d) x = if decide (x ∈ R) then None else parentNode x;
  lf_ch x : @childNodes node (view d) x = keep R (childNodes x);
  lf_type x : @nodeType node (view d) x = nodeType x;
  lf_value x : @nodeValue node (view d) x = V x
}.

Lemma left_start0 : left [] nodeValue d0.
Proof using Type.
  constructor; try done. intros x. symmetry. apply keep_all. intros y _. apply not_elem_of_nil.
Qed.

Lemma left_remove R V d c p : left R V d → c ∉ R → parentNode c = Some p →
  ∃ d', removeChild p c d = Some d' ∧ left (c :: R) V d'.
Proof using MutDomLaws0.
  intros Hl Hc Hp. destruct (removeChild_ok d p c) as (d' & E & Hpar & Hch & Hdata).
  { rewrite (lf_par _ _ _ Hl), decide_False by done. exact Hp. }
  exists d'. split; [done|]. constructor.
  - intros x. rewrite Hpar, (lf_par _ _ _ Hl). destruct (decide (x = c)) as [->|Hx]; [by rewrite decide_True by left|].
    destruct (decide (x ∈ R)); [by rewrite decide_True by (by right)|]. rewrite decide_False; [done|]. by intros [|]%elem_of_cons.
  - intros x. rewrite Hch, (lf_ch _ _ _ Hl). apply keep_cons.
  - intros x. destruct (Hdata x) as [-> _]. apply (lf_type _ _ _ Hl).
  - intros x. destruct (Hdata x) as [_ ->]. apply (lf_value _ _ _ Hl).
Qed.

Definition with_text n (v : jstr) V : node → option jstr := λ x, if decide (x = n) then Some v else V x.

Lemma left_text R V d n v : left R V d → nodeType n = 3 → ∃ d', setNodeValue n v d = Some d' ∧ left R (with_text n v V) d'.
Proof using MutDomLaws0.
  intros Hl Hn. destruct (setNodeValue_ok d n v) as (d' & E & Hlinks & Hty & Hval).
  { by rewrite (lf_type _ _ _ Hl). }
  exists d'. split; [done|]. constructor.
  - intros x. destruct (Hlinks x) as [-> _]. apply (lf_par _ _ _ Hl).
  - intros x. destruct (Hlinks x) as [_ ->]. apply (lf_ch _ _ _ Hl).
  - intros x. rewrite Hty. apply (lf_type _ _ _ Hl).
  - intros x. rewrite Hval. unfold with_text. destruct (decide (x = n)); [done|]. apply (lf_value _ _ _ Hl).
Qed.

(** What is read next to a node that is still there. *)
Lemma left_near R V d p l1 n l2 : left R V d → childNodes p = l1 ++ n :: l2 → n ∉ R →
  @previousSibling node (view d) n = last (keep R l1) ∧ @nextSibling node (view d) n = head (keep R l2).
Proof using MutDomLaws0.
  intros Hl E Hn. apply (@sibling_split node (view d) (view_laws d) p). rewrite (lf_ch _ _ _ Hl), E, keep_app, keep_one by done. done.
Qed.

(** What a traversal that is no CLONE returns for a copy. *)
Definition res (how : how_t) (x : copy node) : option (copy node) := if decide (how = DELETE) then None else Some x.

(** Nodes that leave their place, whether they are dropped or moved. *)
Lemma take_out how R V d c p t : how ≠ CLONE → left R V d → c ∉ R → parentNode c = Some p →
  ∃ d1 d', _traverseFullySelected how c (d, t) = Some (res how (Copy c true (V c) []), (d1, t))
    ∧ adopt how (res how (Copy c true (V c) [])) (d1, t) = Some (tt, (d', t)) ∧ left (c :: R) V d'.
Proof using MutDomLaws0.
  intros Hhow Hl Hc Hp. destruct (left_remove R V d c p Hl Hc Hp) as (d' & E & Hl').
  assert (@parentNode node (view d) c = Some p) as Hpd by (rewrite (lf_par _ _ _ Hl), decide_False; done).
  destruct how; [exists d, d'|done|exists d', d'].
  - split_and!; [| |done].
    + cbn [_traverseFullySelected]. by rewrite see_bind, (lf_value _ _ _ Hl).
    + change (leave c (d, t) = Some ((), (d', t))). unfold leave. rewrite see_bind, Hpd. by apply change_run.
  - split_and!; [|done|done]. cbn [_traverseFullySelected]. unfold remove. rewrite SE_bind_assoc, see_bind, Hpd, SE_bind_assoc, (oget_bind _ p) by done.
    by rewrite (SE_bind_some _ _ _ _ _ (change_run _ _ _ _ E)).
Qed.

Lemma put_res how isLeft n dp v k (x : copy node) : put isLeft (res how (Copy n dp v k)) (res how x) = res how (Copy n dp v (if isLeft then k ++ [x] else x :: k)).
Proof using Type. unfold res. destruct (decide (how = DELETE)), isLeft; done. Qed.

(** *** The siblings on one side *)
(** The children of [p] from one place on, away from the boundary. *)
Definition beside (isLeft : bool) p l : Prop := ∃ k, childNodes p = if isLeft then k ++ l else reverse l ++ k.
Definition in_order (isLeft : bool) l : list node := if isLeft then l else reverse l.

Lemma beside_cons isLeft p x l : beside isLeft p (x :: l) → parentNode x = Some p ∧ beside isLeft p l
  ∧ ∀ R V d, left R V d → (∀ y, y ∈ x :: l → y ∉ R) →
      (if isLeft then @nextSibling node (view d) x else @previousSibling node (view d) x) = head l.
Proof using MutDomLaws0.
  intros [k E]. assert (∃ l1 l2, childNodes p = l1 ++ x :: l2 ∧ (if isLeft then l2 = l else l1 = reverse l)) as (l1 & l2 & E' & Hl).
  { destruct isLeft; [by exists k, l|]. exists (reverse l), k. split; [|done]. by rewrite E, reverse_cons, <- app_assoc. }
  split_and!.
  - by apply (split_parent _ _ _ _ E').
  - destruct isLeft; subst; [exists (l1 ++ [x]); by rewrite <- app_assoc|by exists (x :: l2)].
  - intros R V d Hlf HR. destruct (left_near R V d p l1 x l2 Hlf E') as [-> ->]; [apply HR; by left|].
    destruct isLeft; subst; rewrite keep_all; try done.
    + intros y Hy. apply HR. by right.
    + by rewrite last_reverse.
    + intros y Hy. apply HR. right. by rewrite elem_of_reverse in Hy.
Qed.

Lemma siblings_sim how isLeft p l t n dp v k : how ≠ CLONE → ∀ R V d f, beside isLeft p l → left R V d →
  (∀ x, x ∈ l → (x ∉ R) ∧ V x = nodeValue x) → (length l ≤ f)%nat →
  ∃ d', siblings_loop how f isLeft (head l) true (res how (Copy n dp v k)) (d, t)
      = Some ((res how (Copy n dp v (if isLeft then k ++ (deep <$> l) else (deep <$> reverse l) ++ k)), true), (d', t))
    ∧ left (reverse l ++ R) V d'.
Proof using MutDomLaws0.
  intros Hhow. revert k. induction l as [|x l IH]; intros k R V d f Hb Hl Hx Hf.
  - exists d. split; [|done]. destruct f, isLeft; cbn; by rewrite ?app_nil_r.
  - destruct f as [|f]; [cbn in Hf; lia|]. destruct (beside_cons _ _ _ _ Hb) as (Hp & Hb' & Hsib).
    destruct (Hx x ltac:(by left)) as [HxR HxV].
    destruct (take_out how R V d x p t Hhow Hl HxR Hp) as (d1 & d2 & E1 & E2 & Hl2).
    destruct (IH (if isLeft then k ++ [deep x] else deep x :: k) (x :: R) V d2 f Hb' Hl2) as (d' & E & Hl').
    { intros y Hy. destruct (Hx y ltac:(by right)) as [HyR HyV]. split; [|done]. rewrite not_elem_of_cons. split; [|done].
      intros ->. destruct Hb as [k' Ek]. pose proof (child_NoDup p) as Hnd. rewrite Ek in Hnd.
      destruct isLeft; [apply NoDup_app in Hnd as (_ & _ & Hnd)|apply NoDup_app in Hnd as (Hnd & _); rewrite reverse_Permutation in Hnd];
        by apply NoDup_cons in Hnd as [Hnd _]. }
    { cbn in Hf. lia. }
    exists d'. cbn [head siblings_loop]. rewrite see_bind. rewrite (Hsib R V d Hl) by (intros y Hy; by apply Hx).
    cbn [_traverseNode]. rewrite (SE_bind_some _ _ _ _ _ E1), (SE_bind_some _ _ _ _ _ E2), put_res.
    replace (Copy x true (V x) []) with (deep x) by (unfold deep, RangeClone._traverseFullySelected; by rewrite HxV).
    rewrite E. split; [|by rewrite reverse_cons, <- app_assoc].
    destruct isLeft; [by rewrite <- app_assoc|by rewrite reverse_cons, fmap_app, <- app_assoc].
Qed.

(** *** Up to the root of a boundary *)
Lemma clip_shallow isLeft (x : Z) lo n : ∃ v k, clip isLeft (x :: lo) n = Copy n false v k.
Proof using Type. destruct isLeft; cbn; destruct (nodeType n =? 3); eauto. Qed.

Lemma adopt_shallow how isLeft (x : Z) lo n (s : D * range node) : adopt how (res how (clip isLeft (x :: lo) n)) s = Some (tt, s).
Proof using Type. destruct (clip_shallow isLeft x lo n) as (v & k & ->). by destruct how. Qed.

Lemma shallow_node how R V d t n isLeft : left R V d → nodeType n ≠ 3 →
  _traverseNode how n false isLeft (d, t) = Some (res how (Copy n false (V n) []), (d, t)).
Proof using Type.
  intros Hl Hn. cbn [_traverseNode]. rewrite see_bind, (lf_type _ _ _ Hl).
  destruct (Z.eqb_spec (nodeType n) 3); [done|]. unfold res. destruct (decide (how = DELETE)); [done|].
  by rewrite see_bind, (lf_value _ _ _ Hl).
Qed.

(** A child and the siblings on its side, in the order of the walk. *)
Lemma side_list isLeft p n : parentNode n = Some p → ∃ l, beside isLeft p l
  ∧ (if isLeft then nextSibling n else previousSibling n) = head l
  ∧ (∀ R V d, left R V d → n ∉ R → (∀ c, c ∈ l → c ∉ R) →
       (if isLeft then @nextSibling node (view d) n else @previousSibling node (view d) n) = head l)
  ∧ (∀ c, c ∈ l ↔ side isLeft n c) ∧ (∀ lo, clip isLeft (2 * Z.of_nat (child_index n) + 1 :: lo) p
      = Copy p false (nodeValue p) (if isLeft then [clip isLeft lo n] ++ (deep <$> l) else (deep <$> reverse l) ++ [clip isLeft lo n]))
  ∧ (length l ≤ length (childNodes p))%nat.
Proof using MutDomLaws0.
  intros Hp. destruct (kid_split _ _ Hp) as (l1 & l2 & E & _ & _ & Ep & En & _).
  exists (if isLeft then l2 else reverse l1). unfold beside, side. split_and!.
  - destruct isLeft; [exists (l1 ++ [n]); by rewrite <- app_assoc|exists (n :: l2); by rewrite reverse_involutive].
  - destruct isLeft; [done|by rewrite head_reverse].
  - intros R V d Hl Hn Hc. destruct (left_near R V d p l1 n l2 Hl E Hn) as [-> ->].
    destruct isLeft; [by rewrite keep_all|]. rewrite keep_all, head_reverse; [done|].
    intros c Hin. apply Hc. by rewrite elem_of_reverse.
  - intros c. destruct (right_of_split [] p l1 n l2 c E) as [H1 H2]. destruct isLeft; [by rewrite H1|by rewrite elem_of_reverse, H2].
  - intros lo. destruct isLeft; cbn [clip]; [by rewrite (clip_left_child p l1 n l2 lo E)|].
    by rewrite (clip_right_child p l1 n l2 lo E), reverse_involutive.
  - rewrite E. destruct isLeft; rewrite ?length_reverse, length_app; cbn; lia.
Qed.

Lemma left_kids R V d p : left R V d → (∀ c, parentNode c = Some p → c ∉ R) → @childNodes node (view d) p = childNodes p.
Proof using MutDomLaws0. intros Hl Hc. rewrite (lf_ch _ _ _ Hl). apply keep_all. intros c Hin. by apply Hc, child_parent. Qed.

Lemma level_above a n : a ∈ ancestors n → (level a ≤ level n)%nat.
Proof using MutDomLaws0.
  induction n as [n IH] using up_ind. rewrite (elem_ancestors a n). intros [->|(p & Hp & Ha)]; [done|].
  pose proof (IH p Hp Ha). pose proof (level_parent _ _ Hp). lia.
Qed.

(** The root of the boundary, its container, and the values of the nodes below. *)
Section Boundary.
Context (how : how_t) (isLeft : bool) (r z : node) (R : list node) (V : node → option jstr) (t : range node).
Context (Hhow : how ≠ CLONE) (HR : ∀ c, c ∈ R → r ∉ ancestors c).
Context (HV : ∀ c, r ∈ ancestors c → c ≠ z ∨ nodeType c ≠ 3 → V c = nodeValue c).

Lemma parents_sim p : ∀ (x : Z) lo f next full cp s d R1 d1, (level p ≤ level r + f)%nat → r ∈ ancestors p → p ∈ ancestors z → steps p = steps r ++ s →
  siblings_loop how (length (@childNodes node (view d) p)) isLeft next full cp (d, t) = Some ((res how (clip isLeft (x :: lo) p), true), (d1, t)) →
  left R1 V d1 → (∀ c, c ∈ R1 → c ∈ R ∨ ∃ q, parentNode c = Some q ∧ p ∈ ancestors q) →
  ∃ R2 d2, parents_loop how f isLeft r p next full cp (d, t) = Some (res how (clip isLeft (s ++ x :: lo) r), (d2, t)) ∧ left R2 V d2
    ∧ ∀ c, c ∈ R2 ↔ c ∈ R1 ∨ ∃ a, a ∈ ancestors p ∧ r ∈ ancestors a ∧ a ≠ r ∧ side isLeft a c.
Proof using Type*.
  induction p as [p IH] using up_ind. intros x lo f next full cp s d R1 d1 Hf Hr Hz Hs Esib Hl HR1.
  destruct (decide (p = r)) as [->|Hne].
  - rewrite <- (app_nil_r (steps r)) in Hs at 1. apply app_inv_head in Hs as <-. exists R1, d1. split_and!; [|done|].
    + destruct f; cbn [parents_loop]; rewrite see_bind, (SE_bind_some _ _ _ _ _ Esib); cbn; by rewrite decide_True.
    + intros c. split; [by left|]. intros [|(a & Ha & Hra & Hne & _)]; [done|]. destruct Hne. by apply ancestors_antisym.
  - apply elem_ancestors in Hr as [|(gp & Hgp & Hr)]; [done|]. pose proof (level_parent _ _ Hgp).
    destruct f as [|f]; [pose proof (level_above _ _ Hr); lia|].
    assert (∀ c, parentNode c = Some gp → c ∉ R1) as Hfresh.
    { intros c Hc Hin. destruct (HR1 c Hin) as [Hin'|(q & Hq & Hpq)].
      - apply (HR c Hin'). by eapply ancestors_parent.
      - assert (q = gp) as -> by congruence. by apply kid_not_above in Hgp. }
    destruct (side_list isLeft gp p Hgp) as (l & Hb & _ & Hsib & Hside & Hclip & Hlen).
    assert (∀ c, c ∈ l → parentNode c = Some gp ∧ c ≠ p) as Hlp.
    { intros c (q & Hq & Hcq & Hn)%Hside%side_parent. split; congruence. }
    destruct (siblings_sim how isLeft gp l t gp false (V gp) [clip isLeft (x :: lo) p] Hhow R1 V d1
      (length (@childNodes node (view d1) gp)) Hb Hl) as (d2 & E2 & Hl2).
    { intros c Hin. destruct (Hlp c Hin) as [Hc Hcp]. split; [by apply Hfresh|]. apply HV; [by eapply ancestors_parent|]. left. intros ->.
      apply Hcp. apply (child_of_ancestor_unique gp z p z); [done|done|apply ancestors_self|done]. }
    { by rewrite (left_kids R1 V d1 gp Hl Hfresh). }
    assert (V gp = nodeValue gp) as HVgp by (apply HV; [done|right; by eapply parent_not_text]).
    destruct (steps_above r gp Hr) as [s' Es'].
    rewrite (steps_child _ _ Hgp), Es', <- app_assoc in Hs. apply app_inv_head in Hs as <-.
    rewrite HVgp in E2. rewrite <- (Hclip (x :: lo)) in E2.
    destruct (IH gp Hgp (2 * Z.of_nat (child_index p) + 1) (x :: lo) f (head l) true
      (res how (Copy gp false (V gp) [clip isLeft (x :: lo) p])) s' d1 (reverse l ++ R1) d2) as (R2 & d3 & E3 & Hl3 & Hin3).
    { lia. } { done. } { eapply ancestors_trans; [|exact Hz]. eapply ancestors_parent; [exact Hgp|apply ancestors_self]. } { done. }
    { by rewrite HVgp. } { done. }
    { intros c [Hin|Hin]%elem_of_app; [rewrite elem_of_reverse in Hin|].
      - right. exists gp. split; [by destruct (Hlp c Hin)|apply ancestors_self].
      - destruct (HR1 c Hin) as [|(q & Hq & Hpq)]; [by left|]. right. exists q. split; [done|].
        eapply ancestors_trans; [|exact Hpq]. eapply ancestors_parent; [exact Hgp|apply ancestors_self]. }
    exists R2, d3. split_and!; [|done|].
    + cbn [parents_loop]. rewrite see_bind, (SE_bind_some _ _ _ _ _ Esib). cbn beta iota. rewrite decide_False by done.
      rewrite !see_bind. rewrite (Hsib R1 V d1 Hl) by (first [by apply Hfresh|intros c Hin; by apply Hfresh, Hlp]).
      rewrite (lf_par _ _ _ Hl), decide_False by (by apply Hfresh). rewrite (oget_bind _ gp) by done.
      rewrite (SE_bind_some _ _ _ _ _ (shallow_node how R1 V d1 t gp isLeft Hl ltac:(by eapply parent_not_text))).
      rewrite (SE_bind_some _ _ _ _ _ (adopt_shallow how isLeft x lo p (d1, t))), put_res. rewrite <- app_assoc. exact E3.
    + intros c. rewrite Hin3, elem_of_app, elem_of_reverse, Hside. split.
      * intros [[Hc|Hc]|(a & Ha & Hra & Hne' & Hc)]; [|by left|].
        -- right. exists p. split_and!; [apply ancestors_self|by eapply ancestors_parent|done|done].
        -- right. exists a. split_and!; [by eapply ancestors_parent|done..].
      * intros [Hc|(a & Ha & Hra & Hne' & Hc)]; [left; by right|].
        apply elem_ancestors in Ha as [->|(q & Hq & Ha)]; [left; by left|]. right. exists a. split_and!; [congruence|done..].
Qed.
End Boundary.

Lemma depth_enough r R V d : left R V d → (∀ c, c ∈ R → r ∉ ancestors c) → ∀ n, r ∈ ancestors n → (level n ≤ level r + @depth node (view d) n)%nat.
Proof using MutDomLaws0.
  intros Hl HR n. induction n as [n IH] using up_ind. intros Hr. pose proof Hr as Hr'.
  apply elem_ancestors in Hr' as [->|(p & Hp & Hrp)]; [lia|]. pose proof (IH p Hp Hrp). pose proof (level_parent _ _ Hp).
  pose proof (@depth_parent node (view d) (view_laws d) n p) as Hd. rewrite (lf_par _ _ _ Hl), decide_False in Hd; [specialize (Hd Hp); lia|].
  intros Hin. by apply (HR n Hin).
Qed.

(** *** One boundary *)
Definition cut_text (isLeft : bool) n (o : Z) V : node → option jstr :=
  if nodeType n =? 3 then with_text n (if isLeft then take (Z.to_nat o) (text_of n) else drop (Z.to_nat o) (text_of n)) V else V.

Lemma cut_text_other isLeft n o V c : c ≠ n ∨ nodeType c ≠ 3 → cut_text isLeft n o V c = V c.
Proof using Type.
  intros Hc. unfold cut_text, with_text. destruct (Z.eqb_spec (nodeType n) 3); [|done]. case_decide; [|done]. subst. by destruct Hc.
Qed.

Definition boundary how (isLeft : bool) r : RM (option (copy node)) :=
  if isLeft then _traverseLeftBoundary how r else _traverseRightBoundary how r.

Section OneEnd.
Context (how : how_t) (isLeft : bool) (t : range node) (z : node) (o : Z).
Context (Hhow : how ≠ CLONE) (Hbound : bound isLeft t = (z, o)) (Ho : offset_ok z o).

Lemma boundary_eq r d : boundary how isLeft r (d, t) =
  (let next := @first_node node (view d) isLeft z o in boundary_from how isLeft r next (negb (bool_decide (next = z)))) (d, t).
Proof using Hbound. clear Ho. destruct isLeft; injection Hbound as <- <-; done. Qed.

Lemma shallow_end R V d : left R V d → V z = nodeValue z → nodeType z = 3 ∨ cut_at isLeft z o [] →
  ∃ d', _traverseNode how z false isLeft (d, t) = Some (res how (clip isLeft [2 * o] z), (d', t)) ∧ left R (cut_text isLeft z o V) d'.
Proof using MutDomLaws0 Hhow Hbound Ho.
  intros Hl HV Hz. unfold cut_text. destruct (Z.eqb_spec (nodeType z) 3) as [Ht|Ht].
  - destruct (text_value z Ht) as [v Ev]. assert (text_of z = v) as Ev' by (unfold text_of; by rewrite Ev). rewrite Ev'.
    destruct (left_text R V d z (if isLeft then take (Z.to_nat o) v else drop (Z.to_nat o) v) Hl Ht) as (d' & E & Hl').
    exists d'. split; [|done]. cbn [_traverseNode]. rewrite see_bind, (lf_type _ _ _ Hl), Ht. cbn [Z.eqb Pos.eqb].
    rewrite see_bind, (lf_value _ _ _ Hl), HV, Ev, (oget_bind _ v), rng_bind by done.
    assert (clip isLeft [2 * o] z = Copy z false (Some (if isLeft then drop (Z.to_nat o) v else take (Z.to_nat o) v)) []) as ->.
    { destruct isLeft; cbn; by rewrite Ht, Ev', even_half. }
    destruct Ho as [Ho' _]. destruct isLeft; injection Hbound as _ ->; rewrite substring_from, substring_to by done;
      rewrite (decide_False (P := how = CLONE)) by done; rewrite (SE_bind_some _ _ _ _ _ (change_run _ _ _ _ E)); unfold res; by destruct (decide (how = DELETE)).
  - destruct Hz as [|Hz]; [done|]. exists d. split; [|done]. rewrite (shallow_node how R V d t z isLeft Hl Ht), HV.
    rewrite (clip_cut isLeft z o [] Ht Hz). by destruct isLeft.
Qed.
(** What a boundary does below its root [r]. *)
Definition cuts_below r (s : list Z) R V (run : option (option (copy node) * (D * range node))) : Prop :=
  ∃ R' d', run = Some (res how (clip isLeft (s ++ [2 * o]) r), (d', t)) ∧ left R' (cut_text isLeft z o V) d'
    ∧ ∀ c, c ∈ R' ↔ c ∈ R ∨ ∃ q, parentNode c = Some q ∧ q ∈ ancestors z ∧ r ∈ ancestors q ∧ cut isLeft t c.

Section Below.
Context (r : node) (s : list Z) (R : list node) (V : node → option jstr) (d : D).
Context (Hr : r ∈ ancestors z) (Hs : steps z = steps r ++ s) (Hl : left R V d).
Context (HR : ∀ c, c ∈ R → r ∉ ancestors c) (HV : ∀ c, r ∈ ancestors c → V c = nodeValue c).

Lemma still_there c : r ∈ ancestors c → c ∉ R.
Proof using HR. intros Hc Hin. by apply (HR c Hin). Qed.

Lemma still_kids p : r ∈ ancestors p → @childNodes node (view d) p = childNodes p.
Proof using MutDomLaws0 Hl HR. intros Hp. apply (left_kids R V d p Hl). intros c Hc. apply still_there. by eapply ancestors_parent. Qed.

Lemma value_after c : r ∈ ancestors c → c ≠ z ∨ nodeType c ≠ 3 → cut_text isLeft z o V c = nodeValue c.
Proof using HV. intros Hc Hne. rewrite cut_text_other by done. by apply HV. Qed.

(** The children the end cuts off. *)
Lemma first_at : ∃ l, @first_node node (view d) isLeft z o = default z (head l)
  ∧ (l = [] → nodeType z = 3 ∨ cut_at isLeft z o []) ∧ (l ≠ [] → nodeType z ≠ 3 ∧ cut_at isLeft z o l)
  ∧ ∀ c, parentNode c = Some z → cut isLeft t c ↔ c ∈ l.
Proof using MutDomLaws0 Ho Hbound Hr Hl HR.
  destruct (Z.eq_dec (nodeType z) 3) as [Ht|Ht].
  - exists []. split_and!; [|by left|done|].
    + unfold first_node, _getSelectedNode. by rewrite (lf_type _ _ _ Hl), Ht.
    + intros c Hc. by apply parent_not_text in Hc.
  - destruct (@first_node_ok node (view d) (view_laws d) isLeft z o) as (l & Hcut & E).
    { by rewrite (lf_type _ _ _ Hl). } { destruct Ho as [H1 H2]. split; [done|]. by rewrite (still_kids z Hr), (lf_type _ _ _ Hl). }
    assert (cut_at isLeft z o l) as Hcut' by (destruct Hcut as (k & Ek & Eo); rewrite (still_kids z Hr) in Ek; by exists k).
    exists l. split_and!; [done| |done|].
    + intros ->. by right.
    + intros c Hc. pose proof (cut_child isLeft t c l) as Hcc. rewrite Hbound in Hcc. by apply Hcc.
Qed.

Lemma cut_off l : (∀ c, parentNode c = Some z → cut isLeft t c ↔ c ∈ l) → (∀ c, c ∈ l → parentNode c = Some z) → ∀ c,
  (∃ q, parentNode c = Some q ∧ q ∈ ancestors z ∧ r ∈ ancestors q ∧ cut isLeft t c)
  ↔ c ∈ l ∨ ∃ a, a ∈ ancestors z ∧ r ∈ ancestors a ∧ a ≠ r ∧ side isLeft a c.
Proof using MutDomLaws0 Hbound Hr. intros H1 H2 c. pose proof (cut_cases isLeft t r l c) as Hc. rewrite Hbound in Hc. by apply Hc. Qed.

(** The boundary starts at the container and is its own root. *)
Lemma cut_here : z = r → nodeType z = 3 ∨ cut_at isLeft z o [] → (∀ c, parentNode c = Some z → cut isLeft t c ↔ c ∈ []) →
  cuts_below r s R V (boundary_from how isLeft r z false (d, t)).
Proof using MutDomLaws0 Hhow Hbound Ho Hr Hs Hl HV.
  intros Hzr Hz Hcut. destruct (shallow_end R V d Hl (HV z Hr) Hz) as (d' & E & Hl'). exists R, d'. split_and!; [|done|].
  - unfold boundary_from. rewrite decide_True by done. rewrite E, <- Hzr. rewrite Hzr, <- (app_nil_r (steps r)) in Hs at 1.
    by apply app_inv_head in Hs as <-.
  - intros c. rewrite (cut_off [] Hcut) by (intros y Hy; by apply elem_of_nil in Hy). split; [by left|].
    intros [|[Hc|(a & Ha & Hra & Hne & _)]]; [done|by apply elem_of_nil in Hc|]. destruct Hne. rewrite Hzr in Ha. by apply ancestors_antisym.
Qed.

(** Up from a node [p] whose children on the inner side are gone. *)
Lemma climb_from p (x : Z) lo s' k full cp R1 d1 : p ∈ ancestors z → r ∈ ancestors p → steps p = steps r ++ s' → s ++ [2 * o] = s' ++ x :: lo →
  siblings_loop how (length (childNodes p)) isLeft k full cp (d, t) = Some ((res how (clip isLeft (x :: lo) p), true), (d1, t)) →
  left R1 (cut_text isLeft z o V) d1 → (∀ c, c ∈ R1 → c ∈ R ∨ parentNode c = Some p) →
  (∀ c, c ∈ R1 ∨ (∃ a, a ∈ ancestors p ∧ r ∈ ancestors a ∧ a ≠ r ∧ side isLeft a c)
    ↔ c ∈ R ∨ ∃ q, parentNode c = Some q ∧ q ∈ ancestors z ∧ r ∈ ancestors q ∧ cut isLeft t c) →
  cuts_below r s R V (parents_loop how (@depth node (view d) p) isLeft r p k full cp (d, t)).
Proof using MutDomLaws0 Hhow Hl HR HV.
  intros Hpz Hrp Hs' Es Esib Hl1 HR1 Hset.
  destruct (parents_sim how isLeft r z R (cut_text isLeft z o V) t Hhow HR value_after p x lo (@depth node (view d) p) k full cp s' d R1 d1)
    as (R2 & d2 & E & Hl2 & Hin); try done.
  - by apply (depth_enough r R V d).
  - by rewrite (still_kids p Hrp).
  - intros c [|Hc]%HR1; [by left|right]. exists p. split; [done|apply ancestors_self].
  - exists R2, d2. rewrite Es. split_and!; [done..|]. intros c. by rewrite Hin, Hset.
Qed.

(** It starts at a child of the container. *)
Lemma cut_inside x l : cut_at isLeft z o (x :: l) → nodeType z ≠ 3 → (∀ c, parentNode c = Some z → cut isLeft t c ↔ c ∈ x :: l) →
  cuts_below r s R V (boundary_from how isLeft r x true (d, t)).
Proof using MutDomLaws0 Hhow Hbound Ho Hr Hs Hl HR HV.
  intros Hat Hz Hcut.
  assert (beside isLeft z (x :: l)) as Hb by (destruct Hat as (k & Ek & _); by exists k).
  assert (∀ c, c ∈ x :: l → parentNode c = Some z) as Hlp.
  { intros c Hc. apply child_parent. destruct Hb as [k ->]. destruct isLeft; rewrite elem_of_app, ?elem_of_reverse; auto. }
  destruct (beside_cons isLeft z x l Hb) as (Hx & _ & _).
  assert (cut_text isLeft z o V = V) as HVz by (unfold cut_text; by destruct (Z.eqb_spec (nodeType z) 3)).
  destruct (siblings_sim how isLeft z (x :: l) t z false (V z) [] Hhow R V d (length (childNodes z)) Hb Hl) as (d1 & E1 & Hl1).
  { intros c Hc. apply Hlp in Hc. assert (r ∈ ancestors c) by (by eapply ancestors_parent). split; [by apply still_there|by apply HV]. }
  { destruct Hb as [k ->]. destruct isLeft; rewrite length_app, ?length_reverse; lia. }
  unfold boundary_from. rewrite decide_False by (intros ->; by apply kid_not_above in Hx).
  rewrite see_bind, (lf_par _ _ _ Hl), decide_False by (apply still_there; by eapply ancestors_parent).
  rewrite (oget_bind _ z) by done. rewrite (SE_bind_some _ _ _ _ _ (shallow_node how R V d t z isLeft Hl Hz)), see_bind.
  apply (climb_from z (2 * o) [] s (head (x :: l)) true _ (reverse (x :: l) ++ R) d1); [apply ancestors_self|done..| |by rewrite HVz| |].
  - rewrite E1, (HV z Hr), (clip_cut isLeft z o (x :: l) Hz Hat). by destruct isLeft; rewrite ?app_nil_r.
  - intros c [Hc|]%elem_of_app; [right|by left]. rewrite elem_of_reverse in Hc. by apply Hlp.
  - intros c. rewrite (cut_off (x :: l) Hcut Hlp), elem_of_app, elem_of_reverse. tauto.
Qed.

(** It starts at the container, below its root. *)
Lemma cut_beside : z ≠ r → nodeType z = 3 ∨ cut_at isLeft z o [] → (∀ c, parentNode c = Some z → cut isLeft t c ↔ c ∈ []) →
  cuts_below r s R V (boundary_from how isLeft r z false (d, t)).
Proof using MutDomLaws0 Hhow Hbound Ho Hr Hs Hl HR HV.
  intros Hzr Hz Hcut. pose proof Hr as Hr'. apply elem_ancestors in Hr' as [|(p & Hp & Hrp)]; [done|].
  destruct (side_list isLeft p z Hp) as (l & Hb & _ & Hsib & Hside & Hclip & Hlen).
  assert (∀ c, c ∈ l → parentNode c = Some p ∧ c ≠ z) as Hlp by (intros c (q & Hq & Hcq & Hn)%Hside%side_parent; split; congruence).
  destruct (steps_above r p Hrp) as [s' Es']. pose proof Hs as Es. rewrite (steps_child _ _ Hp), Es', <- app_assoc in Es. apply app_inv_head in Es.
  destruct (shallow_end R V d Hl (HV z Hr) Hz) as (d1 & E1 & Hl1).
  assert (length (childNodes p) ≠ 0%nat) as Hne.
  { apply child_parent in Hp. destruct (childNodes p); [by apply elem_of_nil in Hp|done]. }
  destruct (siblings_sim how isLeft p l t p false (V p) [clip isLeft [2 * o] z] Hhow R _ d1 (pred (length (childNodes p))) Hb Hl1) as (d2 & E2 & Hl2).
  { intros c [Hc Hcz]%Hlp. assert (r ∈ ancestors c) by (by eapply ancestors_parent). split; [by apply still_there|]. apply value_after; auto. }
  { destruct Hb as [k Ek]. pose proof Hp as Hin. apply child_parent in Hin. rewrite Ek in Hin |- *.
    assert (z ∉ l) as Hzl by (intros Hc; by destruct (Hlp z Hc)).
    assert (length k ≠ 0%nat); [|destruct isLeft; rewrite length_app, ?length_reverse; lia]. intros ->%nil_length_inv.
    destruct isLeft; rewrite ?app_nil_r in Hin; [done|by rewrite elem_of_reverse in Hin]. }
  unfold boundary_from. rewrite decide_False by done. rewrite see_bind, (lf_par _ _ _ Hl), decide_False by (by apply still_there).
  rewrite (oget_bind _ p) by done.
  rewrite (SE_bind_some _ _ _ _ _ (shallow_node how R V d t p isLeft Hl ltac:(by eapply parent_not_text))), see_bind.
  apply (climb_from p (2 * Z.of_nat (child_index z) + 1) [2 * o] s' (Some z) false _ (reverse l ++ R) d2); [|done..|by rewrite <- Es, <- app_assoc| |done| |].
  - eapply ancestors_parent; [exact Hp|apply ancestors_self].
  - destruct (length (childNodes p)) as [|f]; [done|]. cbn [siblings_loop]. rewrite see_bind.
    rewrite (Hsib R V d Hl) by (first [by apply still_there|intros c [Hc _]%Hlp; apply still_there; by eapply ancestors_parent]).
    rewrite (SE_bind_some _ _ _ _ _ E1), (SE_bind_some _ _ _ _ _ (adopt_shallow how isLeft (2 * o) [] z (d1, t))), put_res.
    rewrite (Hclip [2 * o]). rewrite <- (HV p Hrp). cbn [pred] in E2. destruct isLeft; exact E2.
  - intros c [Hc|]%elem_of_app; [right|by left]. rewrite elem_of_reverse in Hc. by destruct (Hlp c Hc).
  - intros c. rewrite (cut_off [] Hcut) by (intros y Hy; by apply elem_of_nil in Hy). rewrite elem_of_app, elem_of_reverse, Hside. split.
    + intros [[Hc|]|(a & Ha & Hrest)]; [|by left|right; right; exists a; split; [by eapply ancestors_parent|done]].
      right. right. exists z. split_and!; [apply ancestors_self|done..].
    + intros [|[Hc|(a & Ha & Hrest)]]; [left; by right|by apply elem_of_nil in Hc|].
      apply elem_ancestors in Ha as [->|(q & Hq & Ha)]; [left; left; by destruct Hrest as (_ & _ & Hc)|right; exists a]. simplify_eq. done.
Qed.

Lemma boundary_sim : cuts_below r s R V (boundary how isLeft r (d, t)).
Proof using MutDomLaws0 Hhow Hbound Ho Hr Hs Hl HR HV.
  rewrite boundary_eq. destruct first_at as (l & -> & Hnil & Hcons & Hcut). destruct l as [|x l]; cbn zeta.
  - cbn [head from_option id]. rewrite bool_decide_true by done. destruct (decide (z = r)); [by apply cut_here; auto|by apply cut_beside; auto].
  - destruct (Hcons ltac:(done)) as [Hz Hat]. cbn [head from_option id].
    assert (parentNode x = Some z) as Hx by (destruct Hat as (k & Ek & _); by apply (beside_cons isLeft z x l); exists k).
    rewrite bool_decide_false; [by apply (cut_inside x l)|]. intros ->. apply kid_not_above in Hx. destruct Hx. apply ancestors_self.
Qed.
End Below.
End OneEnd.

(** *** The nodes between the boundaries *)
Definition frag (how : how_t) (k : list (copy node)) : fragment := if decide (how = DELETE) then None else Some k.

Lemma new_frag how : new_fragment how = frag how [].
Proof using Type. done. Qed.

Lemma take_into how forward R V d c p t k : how ≠ CLONE → left R V d → c ∉ R → parentNode c = Some p → V c = nodeValue c →
  ∃ d', (x ← _traverseFullySelected how c; add how forward (frag how k) x) (d, t)
      = Some (frag how (if forward then k ++ [deep c] else deep c :: k), (d', t)) ∧ left (c :: R) V d'.
Proof using MutDomLaws0.
  intros Hhow Hl Hc Hp HV. destruct (take_out how R V d c p t Hhow Hl Hc Hp) as (d1 & d' & E1 & E2 & Hl').
  exists d'. split; [|done]. rewrite (SE_bind_some _ _ _ _ _ E1). unfold add, frag, res in *. rewrite HV in E2.
  replace (Copy c true (nodeValue c) []) with (deep c) in * by done. rewrite HV.
  destruct (decide (how = DELETE)) as [->|Hd]; [cbn in E2; by injection E2 as ->|].
  rewrite (SE_bind_some _ _ _ _ _ E2). by destruct forward.
Qed.

Section Middle.
Context (how : how_t) (p : node) (V : node → option jstr) (t : range node) (Hhow : how ≠ CLONE).

(** [l] is the list of the nodes to take, [rest] of those behind them. *)
Definition untouched (forward : bool) R V' l rest : Prop :=
  beside forward p (l ++ rest) ∧ (∀ c, c ∈ l ++ rest → c ∉ R) ∧ ∀ c, c ∈ l → V' c = nodeValue c.

Lemma untouched_step forward R d x l rest k : untouched forward R V (x :: l) rest → left R V d →
  (if forward then @nextSibling node (view d) x else @previousSibling node (view d) x) = head (l ++ rest)
  ∧ untouched forward (x :: R) V l rest
  ∧ ∃ d', (y ← _traverseFullySelected how x; add how forward (frag how k) y) (d, t)
      = Some (frag how (if forward then k ++ [deep x] else deep x :: k), (d', t)) ∧ left (x :: R) V d'.
Proof using MutDomLaws0 Hhow.
  intros (Hb & HR & HV) Hl. destruct (beside_cons _ _ _ _ Hb) as (Hp & Hb' & Hsib).
  split; [by apply (Hsib R V d Hl)|]. split; [split; [exact Hb'|]; split|].
  - intros y Hy. rewrite not_elem_of_cons. split; [|apply HR; by right]. intros ->. destruct Hb as [k' Ek].
    pose proof (child_NoDup p) as Hnd. rewrite Ek in Hnd.
    destruct forward; [apply NoDup_app in Hnd as (_ & _ & Hnd)|apply NoDup_app in Hnd as (Hnd & _); rewrite reverse_Permutation in Hnd];
      cbn [app] in Hnd; by apply NoDup_cons in Hnd as [Hnd _].
  - intros y Hy. apply HV. by right.
  - apply (take_into how forward R V d x p t k Hhow Hl); [apply HR; by left|done|apply HV; by left].
Qed.

Lemma counted_sim forward rest l : ∀ R d f k, untouched forward R V l rest → left R V d → (length l ≤ f)%nat →
  ∃ d', counted_loop how f forward (head (l ++ rest)) (Z.of_nat (length l)) (frag how k) (d, t)
      = Some (frag how (if forward then k ++ (deep <$> l) else (deep <$> reverse l) ++ k), (d', t)) ∧ left (reverse l ++ R) V d'.
Proof using MutDomLaws0 Hhow.
  induction l as [|x l IH]; intros R d f k Hu Hl Hf.
  - exists d. split; [|done]. destruct f, forward; cbn; by rewrite ?app_nil_r.
  - destruct f as [|f]; [cbn in Hf; lia|]. destruct (untouched_step forward R d x l rest k Hu Hl) as (Hsib & Hu' & d1 & E1 & Hl1).
    destruct (IH _ d1 f (if forward then k ++ [deep x] else deep x :: k) Hu' Hl1) as (d' & E & Hl'); [cbn in Hf; lia|].
    exists d'. cbn [app head counted_loop]. destruct (Z.ltb_spec 0 (Z.of_nat (length (x :: l)))); [|cbn in *; lia].
    rewrite (oget_bind _ x), see_bind, Hsib by done. rewrite <- SE_bind_assoc, (SE_bind_some _ _ _ _ _ E1).
    replace (_ - 1) with (Z.of_nat (length l)) by (cbn; lia). rewrite E. split; [|by rewrite reverse_cons, <- app_assoc].
    destruct forward; [by rewrite <- app_assoc|by rewrite reverse_cons, fmap_app, <- app_assoc].
Qed.

Lemma forward_sim rest l : ∀ R d f k, untouched true R V l rest → left R V d → (length l ≤ f)%nat →
  ∃ d', forward_loop how f (head (l ++ rest)) (Z.of_nat (length l)) (frag how k) (d, t)
      = Some (frag how (k ++ (deep <$> l)), (d', t)) ∧ left (reverse l ++ R) V d'.
Proof using MutDomLaws0 Hhow.
  induction l as [|x l IH]; intros R d f k Hu Hl Hf.
  - exists d. split; [|done]. destruct f, rest; cbn; by rewrite ?app_nil_r.
  - destruct f as [|f]; [cbn in Hf; lia|]. destruct (untouched_step true R d x l rest k Hu Hl) as (Hsib & Hu' & d1 & E1 & Hl1).
    destruct (IH _ d1 f (k ++ [deep x]) Hu' Hl1) as (d' & E & Hl'); [cbn in Hf; lia|].
    exists d'. cbn [app head forward_loop]. destruct (Z.ltb_spec 0 (Z.of_nat (length (x :: l)))); [|cbn in *; lia].
    rewrite see_bind, Hsib. rewrite <- SE_bind_assoc, (SE_bind_some _ _ _ _ _ E1).
    replace (_ - 1) with (Z.of_nat (length l)) by (cbn; lia). rewrite E. split; [|by rewrite reverse_cons, <- app_assoc].
    by rewrite <- app_assoc.
Qed.
End Middle.

(** *** The whole traversal *)
Definition texts t : node → option jstr :=
  cut_text false (endContainer t) (endOffset t) (cut_text true (startContainer t) (startOffset t) nodeValue).

Definition collapsed_at t p (o : Z) : Prop :=
  startContainer t = p ∧ startOffset t = o ∧ endContainer t = p ∧ endOffset t = o ∧ collapsed t = true.

Section Cases.
Context (how : how_t) (t : range node) (Hhow : how ≠ CLONE).
Context (Hg : good t) (Hs : offset_ok (startContainer t) (startOffset t)) (He : offset_ok (endContainer t) (endOffset t)).

(** What the traversal does when the ends part at [p]. *)
Definition done_at p (run : option (fragment * (D * range node))) : Prop :=
  ∃ (i : Z) lo hi R d' t', start_key t = steps p ++ i :: lo ∧ end_key t = steps p ++ hi
    ∧ run = Some (frag how (selected (i :: lo) hi p), (d', t'))
    ∧ left R (texts t) d' ∧ (∀ c, c ∈ R ↔ topmost t c) ∧ collapsed_at t' p ((i + 1) / 2).

Lemma add_clip isLeft (x : Z) lo n forward k (s : D * range node) : add how forward (frag how k) (res how (clip isLeft (x :: lo) n)) s
  = Some (frag how (if forward then k ++ [clip isLeft (x :: lo) n] else clip isLeft (x :: lo) n :: k), s).
Proof using Type.
  pose proof (adopt_shallow how isLeft x lo n s) as Ha. unfold add, frag, res in *. destruct (decide (how = DELETE)); [done|].
  rewrite (SE_bind_some _ _ _ _ _ Ha). by destruct forward.
Qed.

Lemma index_run R V d n p l1 l2 : left R V d → keep R (childNodes p) = l1 ++ n :: l2 →
  index_of n (d, t) = Some (Z.of_nat (length l1), (d, t)) ∧ @parentNode node (view d) n = Some p.
Proof using MutDomLaws0.
  intros Hl E. rewrite <- (lf_ch _ _ _ Hl) in E. split; [|by apply (@split_parent node (view d) (view_laws d) p l1 n l2)].
  unfold index_of. rewrite see_bind, (@nodeIndex_plain node (view d) (view_laws d)).
  by rewrite (@split_index node (view d) (view_laws d) p l1 n l2 E).
Qed.

Lemma fuel_run n d : fuel_at n (d, t) = Some (@sibling_fuel node (view d) n, (d, t)).
Proof using Type. done. Qed.

Lemma finish_here d : ∃ t', unless_clone how (collapse_to true) (d, t) = Some (tt, (d, t')) ∧ collapsed_at t' (startContainer t) (startOffset t).
Proof using Hhow. unfold unless_clone. rewrite decide_False by done. eexists. split; [reflexivity|]. by split_and!. Qed.

Lemma finish_after R V d n p l1 l2 : left R V d → keep R (childNodes p) = l1 ++ n :: l2 →
  ∃ t', unless_clone how (in_range (λ v, @setStartAfter node v n);; collapse_to true) (d, t) = Some (tt, (d, t'))
    ∧ collapsed_at t' p (Z.of_nat (length l1) + 1).
Proof using MutDomLaws0 Hhow.
  intros Hl E. destruct (index_run R V d n p l1 l2 Hl E) as [_ Hp]. rewrite <- (lf_ch _ _ _ Hl) in E.
  pose proof (@split_index node (view d) (view_laws d) p l1 n l2 E) as Ei.
  pose proof (@setStartAfter_ok node (view d) (view_laws d) n p t Hp) as Em. rewrite Ei in Em.
  unfold unless_clone. rewrite decide_False by done. unfold in_range at 1. rewrite SE_bind_unfold. cbn -[moved]. rewrite Em. cbn -[moved].
  destruct (@moved_end node (view d) true p (Z.of_nat (length l1) + 1) t) as [E1 E2]. eexists. split; [reflexivity|]. unfold collapsed_at. cbn -[moved].
  by rewrite E1, E2.
Qed.

Lemma finish_before R V d n p l1 l2 : left R V d → keep R (childNodes p) = l1 ++ n :: l2 →
  ∃ t', unless_clone how (in_range (λ v, @setEndBefore node v n);; collapse_to false) (d, t) = Some (tt, (d, t'))
    ∧ collapsed_at t' p (Z.of_nat (length l1)).
Proof using MutDomLaws0 Hhow.
  intros Hl E. destruct (index_run R V d n p l1 l2 Hl E) as [_ Hp]. rewrite <- (lf_ch _ _ _ Hl) in E.
  pose proof (@split_index node (view d) (view_laws d) p l1 n l2 E) as Ei.
  pose proof (@setEndBefore_ok node (view d) (view_laws d) n p t Hp) as Em. rewrite Ei in Em.
  unfold unless_clone. rewrite decide_False by done. unfold in_range at 1. rewrite SE_bind_unfold. cbn -[moved]. rewrite Em. cbn -[moved].
  destruct (@moved_end node (view d) false p (Z.of_nat (length l1)) t) as [E1 E2]. eexists. split; [reflexivity|]. unfold collapsed_at. cbn -[moved].
  by rewrite E1, E2.
Qed.
Lemma half_even (i : Z) : (2 * i + 1) / 2 = i.
Proof using Type. symmetry. apply Z.div_unique with 1; lia. Qed.

Lemma keep_kids R p : (∀ c, c ∈ R → parentNode c ≠ Some p) → keep R (childNodes p) = childNodes p.
Proof using MutDomLaws0. intros HR. apply keep_all. intros c Hc Hin. apply (HR c Hin). by apply child_parent. Qed.

Lemma cut_text_id isLeft n o V : nodeType n ≠ 3 → cut_text isLeft n o V = V.
Proof using Type. intros Hn. unfold cut_text. by destruct (Z.eqb_spec (nodeType n) 3). Qed.

(** One boundary, with what it returns put into the fragment. *)
Lemma boundary_add isLeft c w R V d k : let '(z, o) := bound isLeft t in
  c ∈ ancestors z → steps z = steps c ++ w → left R V d → (∀ y, y ∈ R → c ∉ ancestors y) → (∀ y, c ∈ ancestors y → V y = nodeValue y) →
  ∃ R' d', (n ← boundary how isLeft c; add how true (frag how k) n) (d, t) = Some (frag how (k ++ [clip isLeft (w ++ [2 * o]) c]), (d', t))
    ∧ left R' (cut_text isLeft z o V) d'
    ∧ ∀ y, y ∈ R' ↔ y ∈ R ∨ ∃ q, parentNode y = Some q ∧ q ∈ ancestors z ∧ c ∈ ancestors q ∧ cut isLeft t y.
Proof using MutDomLaws0 Hhow Hs He.
  destruct (bound isLeft t) as [z o] eqn:Eb. intros Hc Ew Hl HR HV.
  assert (offset_ok z o) as Ho by (destruct isLeft; injection Eb as <- <-; done).
  destruct (boundary_sim how isLeft t z o Hhow Eb Ho c w R V d Hc Ew Hl HR HV) as (R' & d' & E & Hl' & Hin).
  exists R', d'. split_and!; [|done..]. rewrite (SE_bind_some _ _ _ _ _ E).
  destruct (w ++ [2 * o]) as [|i lo] eqn:Ei; [by destruct w|]. apply add_clip.
Qed.

(** The first boundary: what it takes is below a child [c] of [p], so that the children of [p] are all there still. *)
Lemma first_boundary isLeft c p w : let '(z, o) := bound isLeft t in
  parentNode c = Some p → c ∈ ancestors z → steps z = steps c ++ w →
  ∃ R1 d1, (n ← boundary how isLeft c; add how true (frag how []) n) (d0, t) = Some (frag how [clip isLeft (w ++ [2 * o]) c], (d1, t))
    ∧ left R1 (cut_text isLeft z o nodeValue) d1 ∧ (∀ y, y ∈ R1 ↔ below_end isLeft t p y) ∧ (∀ y, y ∈ R1 → c ∈ ancestors y)
    ∧ (∀ y, parentNode y = Some p → y ∉ R1) ∧ keep R1 (childNodes p) = childNodes p.
Proof using MutDomLaws0 Hhow Hs He.
  pose proof (boundary_add isLeft c w [] nodeValue d0 []) as Hb. pose proof (below_child isLeft t p c) as Hbc.
  destruct (bound isLeft t) as [z o]. cbn [fst] in Hbc. intros Hc Hin Ew.
  destruct Hb as (R1 & d1 & Eb & Hl1 & HR1); [done|done|apply left_start0|by intros y Hy%elem_of_nil|done|].
  assert (∀ y, y ∈ R1 ↔ below_end isLeft t p y) as HR.
  { intros y. rewrite HR1, (Hbc y Hc Hin). pose proof (not_elem_of_nil y). tauto. }
  assert (∀ y, parentNode y = Some p → y ∉ R1) as Hfresh.
  { intros y Hp (q & Hq & _ & _ & Hne & _)%HR. congruence. }
  exists R1, d1. split_and!; [done..| |done|].
  - intros y [Hy%elem_of_nil|(q & Hq & _ & Hcq & _)]%HR1; [done|]. by eapply ancestors_parent.
  - apply keep_kids. intros y Hy Hp. by apply (Hfresh y).
Qed.

(** The siblings of [c] have their texts still. *)
Lemma sibling_value isLeft c p y : let '(z, o) := bound isLeft t in
  parentNode c = Some p → c ∈ ancestors z → parentNode y = Some p → y ≠ c → cut_text isLeft z o nodeValue y = nodeValue y.
Proof using MutDomLaws0.
  destruct (bound isLeft t) as [z o]. intros Hc Hin Hy Hne. apply cut_text_other. left. intros ->. apply Hne.
  apply (child_of_ancestor_unique p z c z); [done|done|apply ancestors_self|done].
Qed.

Lemma untouched_siblings isLeft forward c p R l rest : let '(z, o) := bound isLeft t in
  parentNode c = Some p → c ∈ ancestors z → (∀ y, parentNode y = Some p → y ∉ R) → c ∉ l ++ rest → beside forward p (l ++ rest) →
  untouched p forward R (cut_text isLeft z o nodeValue) l rest.
Proof using MutDomLaws0.
  pose proof (sibling_value isLeft c p) as Hv. destruct (bound isLeft t) as [z o]. intros Hc Hin HR Hcl Hb.
  assert (∀ y, y ∈ l ++ rest → parentNode y = Some p) as Hp.
  { intros y Hy. apply child_parent. destruct Hb as [k ->]. destruct forward; rewrite elem_of_app, ?elem_of_reverse; auto. }
  split; [done|]. split; [intros y Hy; by apply HR, Hp|]. intros y Hy. assert (y ∈ l ++ rest) as Hy' by (apply elem_of_app; by left).
  apply Hv; [done|done|by apply Hp|]. intros ->. done.
Qed.

Lemma fuel_value R V d c p : left R V d → parentNode c = Some p → (∀ y, parentNode y = Some p → y ∉ R) →
  @sibling_fuel node (view d) c = length (childNodes p).
Proof using MutDomLaws0.
  intros Hl Hc HR. unfold sibling_fuel. rewrite (lf_par _ _ _ Hl), decide_False, Hc by (by apply HR).
  by rewrite (left_kids R V d p Hl HR).
Qed.

(** The children of one container. *)
Lemma same_done : startContainer t = endContainer t → startOffset t < endOffset t → nodeType (startContainer t) ≠ 3 →
  done_at (startContainer t) (_traverseSameContainer how (d0, t)).
Proof using MutDomLaws0 Hhow Hg Hs He.
  intros Hse Hlt Ht. pose proof Hs as [Ho Hl1]. pose proof He as [_ Hl2]. rewrite <- Hse in Hl2. specialize (Hl1 Ht). specialize (Hl2 Ht).
  destruct (three_parts (childNodes (startContainer t)) (startOffset t) (endOffset t)) as (l1 & l2 & l3 & E & E1 & E2); [lia..|].
  destruct l2 as [|x l2]; [cbn in E2; lia|].
  destruct (forward_sim how (startContainer t) nodeValue t Hhow l3 (x :: l2) [] d0 (length (childNodes (startContainer t))) []) as (d' & Er & Hl').
  { split; [by exists l1|]. split; [intros c _; apply not_elem_of_nil|done]. } { apply left_start0. } { rewrite E, !length_app. cbn. lia. }
  destruct (finish_here d') as (t' & Et & Ht').
  exists (2 * startOffset t), [], [2 * endOffset t], (reverse (x :: l2) ++ []), d', t'.
  split_and!; [done|unfold end_key, key; by rewrite <- Hse| | | |by rewrite half_even].
  - unfold _traverseSameContainer. rewrite rng_bind. destruct (Z.eqb_spec (startOffset t) (endOffset t)); [lia|].
    rewrite see_bind. change (@nodeType node (view d0) (startContainer t)) with (nodeType (startContainer t)).
    destruct (Z.eqb_spec (nodeType (startContainer t)) 3); [done|]. rewrite !see_bind, new_frag.
    replace (@_getSelectedNode node (view d0) (startContainer t) (startOffset t)) with x
      by (rewrite E1; symmetry; by apply getSelectedNode_child with (l2 ++ l3)).
    rewrite E2. rewrite (SE_bind_some _ _ _ _ _ Er), (SE_bind_some _ _ _ _ _ Et).
    rewrite (selected_AA _ l1 (x :: l2) l3) by (done || lia). done.
  - unfold texts. by rewrite <- Hse, !cut_text_id.
  - intros c. rewrite (topmost_same t l1 (x :: l2) l3 c Hg Hse E E1) by lia. by rewrite app_nil_r, elem_of_reverse.
Qed.

(** The start's container is above the end's. *)
Lemma start_parts c : parentNode c = Some (startContainer t) → c ∈ ancestors (endContainer t) →
  ∃ l1 l2 l3, childNodes (startContainer t) = l1 ++ l2 ++ c :: l3 ∧ startOffset t = Z.of_nat (length l1) ∧ c ∉ l1 ++ l2.
Proof using MutDomLaws0 Hg Hs.
  intros Hc Hin. destruct Hs as [Ho _]. destruct (kid_split _ _ Hc) as (k1 & l3 & E & Hn1 & _ & _ & _ & Ei).
  pose proof (good_order t Hg) as Hord. unfold start_key, end_key in Hord.
  destruct (compare_above _ (startOffset t) _ (endOffset t) c Hc Hin) as [Hlex _]. rewrite Hlex, Ei in Hord.
  destruct (Z.leb_spec (startOffset t) (Z.of_nat (length k1))); [|done].
  destruct (three_parts k1 (startOffset t) (Z.of_nat (length k1))) as (l1 & l2 & l0 & Ek & E1 & E2); [lia..|].
  assert (l0 = []) as -> by (apply nil_length_inv; apply (f_equal length) in Ek; rewrite !length_app in Ek; lia).
  rewrite app_nil_r in Ek. rewrite Ek in E, Hn1. rewrite <- app_assoc in E. by exists l1, l2, l3.
Qed.

Lemma start_done c : parentNode c = Some (startContainer t) → c ∈ ancestors (endContainer t) →
  done_at (startContainer t) (_traverseCommonStartContainer how c (d0, t)).
Proof using MutDomLaws0 Hhow Hg Hs He.
  intros Hc Hin. destruct (steps_above c _ Hin) as [w Ew]. destruct (start_parts c Hc Hin) as (l1 & l2 & l3 & E & E1 & Hn).
  pose proof E as E'. rewrite app_assoc in E'. pose proof (first_boundary false c (startContainer t) w) as Hb.
  pose proof (untouched_siblings false false c (startContainer t)) as Hu. cbn [bound] in Hb, Hu.
  destruct (Hb Hc Hin Ew) as (R1 & d1 & Eb & Hl1 & HR1 & _ & Hfresh & Ek). rewrite E' in Ek at 2.
  destruct (index_run R1 _ d1 c _ _ _ Hl1 Ek) as [Eidx _].
  destruct (left_near R1 _ d1 _ (l1 ++ l2) c l3 Hl1 E' (Hfresh c Hc)) as [Hprev _].
  rewrite keep_all in Hprev by (intros y Hy; apply Hfresh, child_parent; rewrite E'; set_solver).
  specialize (Hu R1 (reverse l2) (reverse l1) Hc Hin Hfresh). rewrite <- reverse_app, elem_of_reverse in Hu.
  specialize (Hu Hn ltac:(exists (c :: l3); by rewrite reverse_involutive)).
  set (x := clip false (w ++ [2 * endOffset t]) c) in *.
  destruct (counted_sim how _ _ t Hhow false (reverse l1) (reverse l2) R1 d1 (S (@sibling_fuel node (view d1) c)) [x] Hu Hl1) as (d2 & Er & Hl2).
  { rewrite (fuel_value _ _ _ _ _ Hl1 Hc Hfresh), E, length_reverse, !length_app. lia. }
  rewrite reverse_involutive in *.
  destruct (finish_before _ _ d2 c (startContainer t) l1 l3 Hl2) as (t' & Et & Ht').
  { rewrite E. apply keep_without; rewrite <- E; [apply child_NoDup|]. intros y Hy%child_parent. rewrite elem_of_app.
    pose proof (Hfresh y Hy). tauto. }
  exists (2 * startOffset t), [], (2 * Z.of_nat (child_index c) + 1 :: w ++ [2 * endOffset t]), (l2 ++ R1), d2, t'.
  split_and!; [done|unfold end_key, key; by rewrite Ew, (steps_child _ _ Hc), <- !app_assoc| | | |by rewrite half_even, E1].
  - unfold _traverseCommonStartContainer. rewrite <- SE_bind_assoc. change (_traverseRightBoundary how c) with (boundary how false c).
    rewrite new_frag, (SE_bind_some _ _ _ _ _ Eb), (SE_bind_some _ _ _ _ _ Eidx), rng_bind, (selected_AB _ l1 l2 c l3) by done. fold x.
    assert (Z.of_nat (length (l1 ++ l2)) - startOffset t = Z.of_nat (length l2)) as -> by (rewrite length_app; lia).
    rewrite length_reverse, <- reverse_app, head_reverse in Er. destruct (Z.leb_spec (Z.of_nat (length l2)) 0).
    + destruct l2; [|cbn in *; lia]. cbn in Er. injection Er as ->. by rewrite SE_ret_bind, (SE_bind_some _ _ _ _ _ Et).
    + rewrite SE_bind_assoc, see_bind, Hprev, SE_bind_assoc, (SE_bind_some _ _ _ _ _ (fuel_run c d1)).
      by rewrite (SE_bind_some _ _ _ _ _ Er), (SE_bind_some _ _ _ _ _ Et).
  - unfold texts. by rewrite (cut_text_id true (startContainer t)) by (by eapply parent_not_text).
  - intros y. by rewrite (topmost_start t c l1 l2 l3 y Hg E Hin E1), elem_of_app, HR1.
Qed.

(** The end's container is above the start's. *)
Lemma end_parts c : parentNode c = Some (endContainer t) → c ∈ ancestors (startContainer t) →
  ∃ l1 l2 l3, childNodes (endContainer t) = l1 ++ c :: l2 ++ l3 ∧ endOffset t = Z.of_nat (length l1) + 1 + Z.of_nat (length l2) ∧ c ∉ l2 ++ l3.
Proof using MutDomLaws0 Hg He.
  intros Hc Hin. destruct He as [_ Hlen]. specialize (Hlen ltac:(by eapply parent_not_text)).
  destruct (kid_split _ _ Hc) as (l1 & k2 & E & _ & Hn2 & _ & _ & Ei).
  pose proof (good_order t Hg) as Hord. unfold start_key, end_key in Hord.
  destruct (compare_above _ (endOffset t) _ (startOffset t) c Hc Hin) as [_ Hlex]. rewrite Hlex, Ei in Hord.
  destruct (Z.leb_spec (endOffset t) (Z.of_nat (length l1))); [done|]. rewrite E, length_app in Hlen. cbn in Hlen.
  destruct (three_parts k2 0 (endOffset t - (Z.of_nat (length l1) + 1))) as (l0 & l2 & l3 & -> & E1 & E2); [lia..|].
  assert (l0 = []) as -> by (apply nil_length_inv; lia). exists l1, l2, l3. split_and!; [done|lia|done].
Qed.

Lemma end_done c : parentNode c = Some (endContainer t) → c ∈ ancestors (startContainer t) →
  done_at (endContainer t) (_traverseCommonEndContainer how c (d0, t)).
Proof using MutDomLaws0 Hhow Hg Hs He.
  intros Hc Hin. destruct (steps_above c _ Hin) as [w Ew]. destruct (end_parts c Hc Hin) as (l1 & l2 & l3 & E & E2 & Hn).
  pose proof (first_boundary true c (endContainer t) w) as Hb. pose proof (untouched_siblings true true c (endContainer t)) as Hu. cbn [bound] in Hb, Hu.
  destruct (Hb Hc Hin Ew) as (R1 & d1 & Eb & Hl1 & HR1 & _ & Hfresh & Ek). rewrite E in Ek at 2.
  destruct (index_run R1 _ d1 c _ _ _ Hl1 Ek) as [Eidx _].
  destruct (left_near R1 _ d1 _ l1 c (l2 ++ l3) Hl1 E (Hfresh c Hc)) as [_ Hnext].
  rewrite keep_all in Hnext by (intros y Hy; apply Hfresh, child_parent; rewrite E; set_solver).
  specialize (Hu R1 l2 l3 Hc Hin Hfresh Hn ltac:(exists (l1 ++ [c]); by rewrite <- app_assoc)).
  set (x := clip true (w ++ [2 * startOffset t]) c) in *.
  destruct (forward_sim how _ _ t Hhow l3 l2 R1 d1 (@sibling_fuel node (view d1) c) [x] Hu Hl1) as (d2 & Er & Hl2).
  { rewrite (fuel_value _ _ _ _ _ Hl1 Hc Hfresh), E, !length_app. cbn. rewrite length_app. lia. }
  destruct (finish_after _ _ d2 c (endContainer t) l1 l3 Hl2) as (t' & Et & Ht').
  { pose proof E as E'. change (l1 ++ c :: l2 ++ l3) with (l1 ++ [c] ++ l2 ++ l3) in E'. change (l1 ++ c :: l3) with (l1 ++ [c] ++ l3).
    rewrite app_assoc in E' |- *. rewrite E'. apply keep_without; rewrite <- E'; [apply child_NoDup|]. intros y Hy%child_parent.
    rewrite elem_of_app, elem_of_reverse. pose proof (Hfresh y Hy). tauto. }
  exists (2 * Z.of_nat (child_index c) + 1), (w ++ [2 * startOffset t]), [2 * endOffset t], (reverse l2 ++ R1), d2, t'.
  split_and!; [unfold start_key, key; by rewrite Ew, (steps_child _ _ Hc), <- !app_assoc|done| | | |].
  - unfold _traverseCommonEndContainer. rewrite <- SE_bind_assoc. change (_traverseLeftBoundary how c) with (boundary how true c).
    rewrite new_frag, (SE_bind_some _ _ _ _ _ Eb), (SE_bind_some _ _ _ _ _ Eidx), rng_bind.
    rewrite see_bind, Hnext, (SE_bind_some _ _ _ _ _ (fuel_run c d1)).
    replace (endOffset t - (Z.of_nat (length l1) + 1)) with (Z.of_nat (length l2)) by lia.
    rewrite (selected_BA (endContainer t) l1 c l2 l3) by (rewrite ?(split_index _ _ _ _ E); done || lia).
    by rewrite (SE_bind_some _ _ _ _ _ Er), (SE_bind_some _ _ _ _ _ Et).
  - unfold texts. by rewrite (cut_text_id false (endContainer t)) by (by eapply parent_not_text).
  - intros y. rewrite (topmost_end t c l1 l2 l3 y Hg E Hin E2), elem_of_app, elem_of_reverse, HR1. tauto.
  - replace (2 * Z.of_nat (child_index c) + 1 + 1) with (2 * (Z.of_nat (child_index c) + 1)) by lia. by rewrite even_half, (split_index _ _ _ _ E).
Qed.

(** Neither is above the other. *)
Lemma apart_done p c b : parentNode c = Some p → parentNode b = Some p → c ∈ ancestors (startContainer t) → b ∈ ancestors (endContainer t) →
  (child_index c < child_index b)%nat → done_at p (_traverseCommonAncestors how c b (d0, t)).
Proof using MutDomLaws0 Hhow Hg Hs He.
  intros Hc Hb Hcs Hbe Hlt. destruct (steps_above c _ Hcs) as [w Ew]. destruct (steps_above b _ Hbe) as [w' Ew'].
  destruct (two_children p c b Hc Hb Hlt) as (l1 & l2 & l3 & E). pose proof (child_NoDup p) as Hnd. rewrite E in Hnd.
  apply NoDup_app in Hnd as (_ & _ & Hnd). apply NoDup_cons in Hnd as [Hcl Hnd]. apply NoDup_app in Hnd as (_ & Hbl & _).
  pose proof E as Ec. change (l1 ++ c :: l2 ++ b :: l3) with (l1 ++ [c] ++ l2 ++ b :: l3) in Ec. rewrite app_assoc in Ec.
  pose proof Ec as Eb. rewrite app_assoc in Eb.
  assert (∀ y, c ∈ ancestors y → b ∈ ancestors y → False) as Hcb.
  { intros y H1 H2. rewrite (child_of_ancestor_unique p c b y) in Hlt by done. lia. }
  pose proof (first_boundary true c p w) as Hfb. pose proof (untouched_siblings true true c p) as Hu. cbn [bound] in Hfb, Hu.
  destruct (Hfb Hc Hcs Ew) as (R1 & d1 & Eb1 & Hl1 & HR1 & Habove & Hfresh & Ek).
  pose proof Ek as Ekc. rewrite E in Ekc at 2. rewrite Eb in Ek at 2.
  destruct (index_run R1 _ d1 c _ _ _ Hl1 Ekc) as [Eidc _]. destruct (index_run R1 _ d1 b _ _ _ Hl1 Ek) as [Eidb _].
  destruct (left_near R1 _ d1 p l1 c (l2 ++ b :: l3) Hl1 E (Hfresh c Hc)) as [_ Hnext].
  rewrite keep_all in Hnext by (intros y Hy; apply Hfresh, child_parent; rewrite E; set_solver).
  specialize (Hu R1 l2 (b :: l3) Hc Hcs Hfresh Hcl ltac:(exists (l1 ++ [c]); by rewrite <- app_assoc)).
  set (x := clip true (w ++ [2 * startOffset t]) c) in *.
  destruct (counted_sim how p _ t Hhow true (b :: l3) l2 R1 d1 (S (@sibling_fuel node (view d1) c)) [x] Hu Hl1) as (d2 & Er & Hl2).
  { rewrite (fuel_value _ _ _ _ _ Hl1 Hc Hfresh), E, !length_app. cbn. rewrite length_app. lia. }
  pose proof (boundary_add false b w' (reverse l2 ++ R1) (cut_text true (startContainer t) (startOffset t) nodeValue) d2 ([x] ++ (deep <$> l2))) as Hb2.
  cbn [bound] in Hb2. destruct Hb2 as (R3 & d3 & Eb3 & Hl3 & HR3); [done|done|done| | |].
  { intros y Hy Hby. rewrite elem_of_app, elem_of_reverse in Hy. destruct Hy as [Hy|Hy%Habove]; [|by apply (Hcb y)].
    assert (b = y) as <-; [|by apply (Hbl b Hy); left]. apply (child_of_ancestor_unique p b y y); [done| |done|apply ancestors_self].
    apply child_parent. rewrite E. set_solver. }
  { intros y Hby. apply cut_text_other. left. intros ->. by apply (Hcb (startContainer t)). }
  destruct (finish_after R3 _ d3 c p l1 (b :: l3) Hl3) as (t' & Et & Ht').
  { change (l1 ++ c :: b :: l3) with (l1 ++ [c] ++ b :: l3). rewrite app_assoc, Ec. apply keep_without; rewrite <- Ec; [apply child_NoDup|].
    intros y Hy%child_parent. rewrite HR3, elem_of_app, elem_of_reverse. split; [|by left; left].
    intros [[|Hy']|(q & Hq & _ & Hbq & _)]; [done|by destruct (Hfresh y Hy)|]. simplify_eq. by apply kid_not_above in Hb. }
  exists (2 * Z.of_nat (child_index c) + 1), (w ++ [2 * startOffset t]), (2 * Z.of_nat (child_index b) + 1 :: w' ++ [2 * endOffset t]), R3, d3, t'.
  split_and!; [unfold start_key, key; by rewrite Ew, (steps_child _ _ Hc), <- !app_assoc|unfold end_key, key; by rewrite Ew', (steps_child _ _ Hb), <- !app_assoc| |done| |].
  - unfold _traverseCommonAncestors. rewrite <- SE_bind_assoc. change (_traverseLeftBoundary how c) with (boundary how true c).
    rewrite new_frag, (SE_bind_some _ _ _ _ _ Eb1), (SE_bind_some _ _ _ _ _ Eidc), (SE_bind_some _ _ _ _ _ Eidb).
    rewrite see_bind, Hnext, (SE_bind_some _ _ _ _ _ (fuel_run c d1)).
    replace (Z.of_nat (length ((l1 ++ [c]) ++ l2)) - (Z.of_nat (length l1) + 1)) with (Z.of_nat (length l2)) by (rewrite !length_app; cbn; lia).
    rewrite (SE_bind_some _ _ _ _ _ Er), <- SE_bind_assoc. change (_traverseRightBoundary how b) with (boundary how false b).
    rewrite (SE_bind_some _ _ _ _ _ Eb3), (SE_bind_some _ _ _ _ _ Et), (selected_BB p l1 c l2 b l3) by done. by rewrite <- app_assoc.
  - intros y. rewrite (topmost_apart t p c b l1 l2 l3 y Hg E Hcs Hbe), HR3, elem_of_app, elem_of_reverse, HR1.
    pose proof (below_child false t p b y Hb Hbe) as Hbb. cbn [bound fst] in Hbb. rewrite Hbb. tauto.
  - replace (2 * Z.of_nat (child_index c) + 1 + 1) with (2 * (Z.of_nat (child_index c) + 1)) by lia. by rewrite even_half, (split_index _ _ _ _ E).
Qed.
End Cases.

Lemma lexcmp_flip (l k : list Z) : lexcmp l k = CompOpp (lexcmp k l).
Proof using Type.
  revert k. induction l as [|x l IH]; intros [|y k]; cbn; try done.
  rewrite (Z.compare_antisym y x). destruct (y ?= x); cbn; [apply IH|done..].
Qed.

(** Nothing is inside a collapsed range. *)
Lemma collapsed_done how t : how ≠ CLONE → startContainer t = endContainer t → startOffset t = endOffset t → good t →
  nodeType (startContainer t) ≠ 3 →
  done_at how t (startContainer t) (_traverseSameContainer how (d0, t)) ∧ parts_at t (startContainer t) (cloneContents t).
Proof using MutDomLaws0.
  intros Hhow Hse Ho Hg Ht. assert (start_key t = end_key t) as Ek by (unfold start_key, end_key; congruence).
  assert (selected [2 * startOffset t] [2 * endOffset t] (startContainer t) = []) as Esel.
  { rewrite Ho. cbn. apply kids_at_none. intros j c _. destruct (Z.compare_spec (2 * j + 1) (2 * endOffset t)); done || lia. }
  split.
  - exists (2 * startOffset t), [], [2 * endOffset t], [], d0, t. split_and!; [done|unfold end_key, key; by rewrite <- Hse| | | |].
    + unfold _traverseSameContainer. rewrite rng_bind, new_frag, Esel. by rewrite (proj2 (Z.eqb_eq _ _)).
    + unfold texts. rewrite <- Hse, !cut_text_id by done. apply left_start0.
    + intros c. split; [by intros ?%elem_of_nil|]. intros [(_ & H1 & H2 & _) _]. cbn in H1. rewrite lexcmp_flip, Ek, H2 in H1. done.
    + rewrite half_even. split_and!; try done. rewrite (good_collapsed t Hg). unfold _isCollapsed. by rewrite bool_decide_true, Ho, Z.eqb_refl.
  - exists [2 * startOffset t], [2 * endOffset t]. split_and!; [done|unfold end_key, key; by rewrite <- Hse|]. rewrite Esel.
    unfold cloneContents, RangeClone._traverse, RangeClone._traverseSameContainer. by rewrite bool_decide_true, Ho, Z.eqb_refl.
Qed.

Lemma traverse_done how t : how ≠ CLONE → good t → offset_ok (startContainer t) (startOffset t) → offset_ok (endContainer t) (endOffset t) →
  startContainer t ≠ endContainer t →
  ∃ p, findCommonAncestor (startContainer t) (endContainer t) = Some p ∧ done_at how t p (_traverse how (d0, t)).
Proof using MutDomLaws0.
  intros Hhow Hg Hs He Hne. pose proof (meet_ok t Hg Hne) as Hm. unfold meet in Hm.
  unfold _traverse. rewrite rng_bind, decide_False, see_bind by done. change (view d0) with v0.
  destruct (below_loop (depth (endContainer t)) _ _ _) as [c|n].
  { destruct Hm as (Hc & Hin & E). eexists. split; [exact E|]. by apply start_done. }
  rewrite see_bind. change (view d0) with v0. destruct (below_loop (depth (startContainer t)) _ _ _) as [c|m].
  { destruct Hm as (Hc & Hin & E). eexists. split; [exact E|]. by apply end_done. }
  destruct Hm as (x & y & c & b & p & Ex & Ey & Epair & Hc & Hb & Hcs & Hbe & Hlt & E). eexists. split; [exact E|].
  rewrite !see_bind. change (view d0) with v0. rewrite (oget_bind _ x) by done. rewrite see_bind, (oget_bind _ y) by done.
  rewrite see_bind, (oget_bind _ (c, b)) by done. by apply apart_done.
Qed.
End From.
End Facts.
