(* ===== verification/RangeContents.v ===== *)
(** * extractContents and deleteContents: what they return and what they leave

    Both do to the document, in one pass, what cloneContents only copies; the text within one node is a case of its own. *)

From S2P Require Import Prelude Dom TreeWalker DOMUtils Range RangeClone RangeUtils RangeCut MutDom RangeExtract RangeExtractFacts.

Section Contents.
Context {node D : Type} `{EqDecision node} `{MutDom node D} `{!MutDomLaws node D} (d : D).
#[local] Instance before : Dom node := view d.
Implicit Types (n p c : node) (t : range node) (R : list node).

(** The document [d'] is [d] without what lies between the ends of [t], of which the nodes [R] are the topmost. *)
Definition taken_out t R (d' : D) : Prop := left d R (texts d t) d' ∧ ∀ c, c ∈ R ↔ topmost t c.

(** The range is collapsed to where the child of the lowest node above both ends that holds the start was. *)
Definition collapsed_between t (t' : range node) : Prop :=
  ∃ p (i : Z) lo, findCommonAncestor (startContainer t) (endContainer t) = Some p
    ∧ start_key t = steps p ++ i :: lo ∧ collapsed_at t' p ((i + 1) / 2).

(** ** Within one text *)
Definition in_one_text t : Prop := startContainer t = endContainer t ∧ nodeType (startContainer t) = 3.

(** The part between the ends is cut out of the text and the range collapses to its start; but a text of which all, or all but one
    character, is taken from its start on is removed altogether, and the range stays in it. *)
Definition cut_text t (d' : D) (t' : range node) : Prop :=
  let c := startContainer t in
  let v := text_of c in
  collapsed_at t' c (startOffset t)
  ∧ if (startOffset t =? 0) && (Z.of_nat (length v) - 1 <=? endOffset t) then left d [c] nodeValue d'
    else left d [] (with_text c (take (Z.to_nat (startOffset t)) v ++ drop (Z.to_nat (endOffset t)) v) nodeValue) d'.

Lemma text_contents how t v p : how ≠ CLONE → startContainer t = endContainer t → nodeType (startContainer t) = 3 →
  nodeValue (startContainer t) = Some v → parentNode (startContainer t) = Some p →
  0 ≤ startOffset t < endOffset t → startOffset t ≤ Z.of_nat (length v) →
  let sub := take (Z.to_nat (endOffset t - startOffset t)) (drop (Z.to_nat (startOffset t)) v) in
  let removed := (startOffset t =? 0) && (Z.of_nat (length v) - 1 <=? endOffset t) in
  ∃ d' t', _traverse how (d, t) = Some (frag how (if truthy sub then [NewText sub] else []), (d', t'))
    ∧ collapsed_at t' (startContainer t) (startOffset t)
    ∧ if removed then left d [startContainer t] nodeValue d'
      else left d [] (with_text (startContainer t) (take (Z.to_nat (startOffset t)) v ++ drop (Z.to_nat (endOffset t)) v) nodeValue) d'.
Proof using MutDomLaws0.
  intros Hhow Hse Ht Ev Hp Ho Hl sub removed.
  assert (∃ d', (if (startOffset t =? 0) && (Z.of_nat (length v) - 1 <=? endOffset t - startOffset t) then remove (startContainer t)
    else change (deleteData (startContainer t) (startOffset t) (endOffset t - startOffset t))) (d, t) = Some (tt, (d', t))
    ∧ if removed then left d [startContainer t] nodeValue d'
      else left d [] (with_text (startContainer t) (take (Z.to_nat (startOffset t)) v ++ drop (Z.to_nat (endOffset t)) v) nodeValue) d') as (d' & E & Hl').
  { replace ((startOffset t =? 0) && (Z.of_nat (length v) - 1 <=? endOffset t - startOffset t)) with removed
      by (unfold removed; destruct (Z.eqb_spec (startOffset t) 0) as [->|]; [by rewrite Z.sub_0_r|done]).
    destruct removed.
    - destruct (left_remove d [] nodeValue d (startContainer t) p (left_start0 d)) as (d' & E & Hl'); [apply not_elem_of_nil|done|].
      exists d'. split; [|done]. unfold remove. rewrite see_bind, (oget_bind _ p) by done. by apply change_run.
    - destruct (left_text d [] nodeValue d (startContainer t) (take (Z.to_nat (startOffset t)) v ++ drop (Z.to_nat (endOffset t)) v) (left_start0 d) Ht)
        as (d' & E & Hl'). exists d'. split; [|done]. apply change_run. rewrite (deleteData_ok d _ _ _ v Ht Ev) by lia.
      by replace (startOffset t + (endOffset t - startOffset t)) with (endOffset t) by lia. }
  destruct (finish_here how t Hhow d') as (t' & Et & Ht'). exists d', t'. split; [|done].
  unfold unless_clone in Et. rewrite decide_False in Et by done.
  unfold _traverse. rewrite rng_bind, decide_True by done. unfold _traverseSameContainer. rewrite rng_bind.
  destruct (Z.eqb_spec (startOffset t) (endOffset t)); [lia|]. rewrite see_bind. destruct (Z.eqb_spec (@nodeType node (view d) (startContainer t)) 3); [|done].
  rewrite see_bind, (oget_bind _ v), (substring_between v) by (done || lia). fold sub. unfold unless_clone.
  rewrite (decide_False (P := how = CLONE)), SE_bind_assoc, (SE_bind_some _ _ _ _ _ E), (SE_bind_some _ _ _ _ _ Et) by done.
  unfold frag, new_fragment. destruct (decide (how = DELETE)); [done|]. destruct (truthy sub); [|done].
  unfold add. by destruct how.
Qed.
Lemma text_run how t : how ≠ CLONE → good t → offset_ok (startContainer t) (startOffset t) → in_one_text t →
  parentNode (startContainer t) ≠ None → startOffset t ≤ Z.of_nat (length (text_of (startContainer t))) →
  ∃ k d' t', cloneContents t = Some k ∧ _traverse how (d, t) = Some (frag how k, (d', t'))
    ∧ if startOffset t =? endOffset t then d' = d ∧ t' = t else cut_text t d' t'.
Proof using MutDomLaws0.
  intros Hhow Hg [Hs _] [Hse Ht] Hp Hl. pose proof (view_laws d : DomLaws node) as L. pose proof (same_order t Hg Hse) as Hord.
  assert (∃ v, nodeValue (startContainer t) = Some v ∧ text_of (startContainer t) = v) as (v & Ev & Ev').
  { unfold text_of. destruct (text_value _ Ht) as [v ->]. by exists v. }
  unfold cloneContents, RangeClone._traverse, RangeClone._traverseSameContainer. rewrite bool_decide_true, Ht by done.
  destruct (Z.eqb_spec (startOffset t) (endOffset t)) as [Ho|Ho].
  - eexists _, d, t. split; [reflexivity|]. split; [|done]. unfold _traverse. rewrite rng_bind, decide_True by done.
    unfold _traverseSameContainer. rewrite rng_bind, new_frag, Ho, Z.eqb_refl. done.
  - destruct (parentNode (startContainer t)) as [p|] eqn:Ep; [|done]. rewrite Ev' in Hl.
    destruct (text_contents how t v p Hhow Hse Ht Ev Ep ltac:(lia) Hl) as (d' & t' & Er & Hc & Hd).
    eexists _, d', t'. cbn [Z.eqb Pos.eqb]. rewrite Ev. cbn [mbind option_bind].
    rewrite substring_between by lia. split; [reflexivity|]. split; [exact Er|].
    split; [exact Hc|]. rewrite Ev'. exact Hd.
Qed.

(** ** Between two nodes *)
Lemma nodes_run how t : how ≠ CLONE → good t →
  offset_ok (startContainer t) (startOffset t) → offset_ok (endContainer t) (endOffset t) → ¬ in_one_text t →
  ∃ k R d' t', cloneContents t = Some k ∧ _traverse how (d, t) = Some (frag how k, (d', t'))
    ∧ taken_out t R d' ∧ collapsed_between t t'.
Proof using MutDomLaws0.
  intros Hhow Hg Hs He Hnot. assert (startContainer t = endContainer t → nodeType (startContainer t) ≠ 3) as Ht by (by intros ??; apply Hnot).
  pose proof (view_laws d : DomLaws node) as L.
  assert (∃ p, findCommonAncestor (startContainer t) (endContainer t) = Some p ∧ done_at d how t p (_traverse how (d, t))
    ∧ parts_at t p (cloneContents t)) as (p & E & (i & lo & hi & R & d' & t' & E1 & E2 & Er & Hl & HR & Ht') & lo' & hi' & E1' & E2' & Ec).
  { destruct (decide (startContainer t = endContainer t)) as [Hse|Hse].
    - exists (startContainer t). specialize (Ht Hse). split.
      { rewrite <- Hse. apply common_ancestor_is; [done|apply ancestors_self..|]. intros c Hc Hin _. by apply kid_not_above in Hc. }
      unfold _traverse. rewrite rng_bind, decide_True by done. pose proof (same_order t Hg Hse).
      destruct (Z.eq_dec (startOffset t) (endOffset t)) as [Ho|Ho]; [by apply collapsed_done|]. split; [apply same_done; done || lia|].
      apply same_parts; done || lia.
    - destruct (traverse_done d how t Hhow Hg Hs He Hse) as (p & E & Hd). destruct (traverse_parts t Hg Hs He Hse) as (p' & E' & Hp).
      pose proof (eq_trans (eq_sym E') E) as [= ->]. by exists p. }
  pose proof (app_inv_head _ _ _ (eq_trans (eq_sym E1') E1)) as ->. pose proof (app_inv_head _ _ _ (eq_trans (eq_sym E2') E2)) as ->.
  eexists _, R, d', t'. split; [exact Ec|]. split; [exact Er|]. split; [done|]. by exists p, i, lo.
Qed.

(** C11: For a range as the setters keep it, with its offsets within their containers, [extractContents] returns, and [deleteContents] drops, what [cloneContents] would copy. Of the document they leave
    everything in its place except the topmost nodes that lie wholly between the two ends, which lose their parent;
    the texts at the ends keep what is on the outer side. The range then is collapsed to where those nodes were.
    Within one text, which is to have a parent, the part between the ends is cut out and the range collapsed to its start; only a text of which all, or
    all but one character, is taken from its start on is removed altogether, and the range stays in it. *)
Theorem extractContents_ok how t : how ≠ CLONE → good t →
  offset_ok (startContainer t) (startOffset t) → offset_ok (endContainer t) (endOffset t) →
  (in_one_text t → parentNode (startContainer t) ≠ None ∧ startOffset t ≤ Z.of_nat (length (text_of (startContainer t)))) →
  ∃ k d' t', cloneContents t = Some k ∧ _traverse how (d, t) = Some (frag how k, (d', t'))
    ∧ (¬ in_one_text t → (∃ R, taken_out t R d') ∧ collapsed_between t t')
    ∧ (in_one_text t → if startOffset t =? endOffset t then d' = d ∧ t' = t else cut_text t d' t').
Proof using MutDomLaws0.
  intros Hhow Hg Hs He Ht. destruct (decide (startContainer t = endContainer t ∧ nodeType (startContainer t) = 3)) as [Hin|Hin].
  - destruct (Ht Hin) as [Hp Hl]. destruct (text_run how t Hhow Hg Hs Hin Hp Hl) as (k & d' & t' & Ek & Er & H1).
    exists k, d', t'. by split_and!.
  - destruct (nodes_run how t Hhow Hg Hs He Hin) as (k & R & d' & t' & Ek & Er & H1 & H2).
    exists k, d', t'. split_and!; [done..| |done]. intros _. split; [by exists R|done].
Qed.
End Contents.

(** The first character of "ab". *)
Definition first_character : range nat := Eval vm_compute in
  sample_run (OpSetEnd 4%nat 1) (sample_run (OpSetStart 4%nat 0) (init 0%nat)).

(** The last one. *)
Definition last_character : range nat := Eval vm_compute in
  sample_run (OpSetEnd 4%nat 2) (sample_run (OpSetStart 4%nat 1) (init 0%nat)).

Lemma last_character_good : @good nat (table_dom sample) last_character.
Proof.
  pose proof (table_laws sample sample_ok) as L. apply (@ranges_stay_good nat (table_dom sample) L 0%nat).
  eapply (reach_op _ (sample_run (OpSetStart 4%nat 1) (init 0%nat)) _ (OpSetEnd 4%nat 2)); [|by vm_compute].
  eapply (reach_op _ _ _ (OpSetStart 4%nat 1)); [apply reach_init|by vm_compute].
Qed.

Lemma last_character_offsets : @offset_ok nat (table_dom sample) 4%nat 1 ∧ @offset_ok nat (table_dom sample) 4%nat 2
  ∧ @parentNode nat (table_dom sample) 4%nat ≠ None ∧ 1 ≤ Z.of_nat (length (@text_of nat (table_dom sample) 4%nat)).
Proof.
  split_and!; [split; [lia|]; intros E; by destruct E|split; [lia|]; intros E; by destruct E|by vm_compute|by vm_compute].
Qed.

(** From within "ab" to within "de": the whole of the second child of the first paragraph, and two halves. *)
Lemma extractContents_ok_witness : ∃ (R : list nat) (d' : table) (t' : range nat),
  @_traverse nat _ _ table_mut EXTRACT (sample, two_paragraphs)
    = Some (Some [Copy 3%nat false None [Copy 4%nat false (Some (js "b")) []; Copy 5%nat true None []];
                  Copy 7%nat false None [Copy 8%nat false (Some (js "d")) []]], (d', t'))
  ∧ (∀ c, c ∈ R ↔ @topmost nat (@view nat _ table_mut sample) two_paragraphs c) ∧ @collapsed_at nat t' 2%nat 1
  ∧ ∃ d1 t1, @_traverse nat _ _ table_mut EXTRACT (sample, last_character) = Some (Some [NewText (js "b")], (d1, t1))
      ∧ @collapsed_at nat t1 4%nat 1 ∧ @nodeValue nat (@view nat _ table_mut d1) 4%nat = Some (js "a").
Proof.
  pose proof two_paragraphs_good as G.
  destruct (@extractContents_ok nat table _ table_mut table_mut_laws sample EXTRACT two_paragraphs ltac:(done) G
    ltac:(split; [by vm_compute|intros E; by vm_compute in E]) ltac:(split; [by vm_compute|intros E; by vm_compute in E])
    ltac:(intros [E _]; by vm_compute in E)) as (k & d' & t' & Ek & Er & H1 & _).
  destruct H1 as [[R [_ HR]] (p & i & lo & Ep & Ei & Ht)]; [intros [E _]; by vm_compute in E|].
  exists R, d', t'. vm_compute in Ek. injection Ek as <-. vm_compute in Ep. injection Ep as <-. vm_compute in Ei. injection Ei as <- _.
  split; [exact Er|]. split; [exact HR|]. split; [exact Ht|].
  pose proof last_character_offsets as (O1 & O2 & Hp).
  destruct (@extractContents_ok nat table _ table_mut table_mut_laws sample EXTRACT last_character ltac:(done) last_character_good O1 O2 (λ _, Hp))
    as (k1 & d1 & t1 & Ek1 & Er1 & _ & H1).
  vm_compute in Ek1. injection Ek1 as <-. exists d1, t1. split; [exact Er1|].
  destruct (H1 (conj eq_refl eq_refl)) as [Hc Hl]. split; [exact Hc|]. exact (lf_value _ _ _ _ Hl 4%nat).
Defined.

(** What is left of the document, and where the range is. *)
Example deleted_between : ∃ t', @deleteContents nat _ _ table_mut (sample, two_paragraphs) = Some (tt,
  ([TRow 9 (js "#document") None [] [1%nat]; t_elem "HTML" [] [2%nat]; t_elem "BODY" [] [3; 7]%nat;
    t_elem "P" [] [4%nat]; t_text "a"; t_elem "B" [] [6%nat]; t_text "c"; t_elem "P" [] [8%nat]; t_text "e"], t'))
  ∧ @collapsed_at nat t' 2%nat 1.
Proof. eexists. split; [vm_compute; reflexivity|]. by vm_compute. Qed.

(** With the first character of "ab" taken the text is gone, and the range is in it still. *)
Example extract_loses_a_character : ∃ d' t', @extractContents nat _ _ table_mut (sample, first_character) = Some (Some [NewText (js "a")], (d', t'))
  ∧ @childNodes nat (@view nat _ table_mut d') 3%nat = [5%nat] ∧ startContainer t' = 4%nat ∧ @parentNode nat (@view nat _ table_mut d') 4%nat = None.
Proof. eexists _, _. split; [vm_compute; reflexivity|]. by vm_compute. Qed.
