(* ===== verification/Selector.v ===== *)
(** * classes/ui/Selector.js

    Selectors of controls: parsing a text with two regular expressions, testing one
    control ([match]) and searching a container ([find]).  What a control is comes as
    the class [Controls]. *)

From S2P Require Import Prelude Regexp Dom.

(** ** Controls *)

(** The members of a control the selectors use: [items] is [None] for a
    control without the method; [attr] are the members that return a text, [state] those that return
    a truth value; [ui_depth] and [ui_height] bound the nesting above and below a control. *)
Class Controls (ctrl : Type) := {
  #[global] ctrl_eq_dec :: EqDecision ctrl;
  type_ : ctrl -> jstr;
  name_ : ctrl -> option jstr;
  hasClass : ctrl -> jstr -> bool;
  attr : ctrl -> jstr -> option jstr;
  state : ctrl -> jstr -> option bool;
  parent : ctrl -> option ctrl;
  items : ctrl -> option (list ctrl);
  ui_depth : ctrl -> nat;
  ui_height : ctrl -> nat
}.

Definition children {ctrl} `{Controls ctrl} (c : ctrl) : list ctrl := default [] (items c).

(** What Container.js promises: the items of a container are there once, have it as their parent and
    nest to a finite depth. *)
Class ControlLaws (ctrl : Type) `{Controls ctrl} : Prop := {
  items_parent c p : c ∈ children p ↔ parent c = Some p;
  items_NoDup p : NoDup (children p);
  items_height c p : c ∈ children p → (ui_height c < ui_height p)%nat;
  items_depth c p : parent c = Some p → (ui_depth p < ui_depth c)%nat
}.

(** ** The expressions *)
Definition name_sign : cset := λ c, is_word c || (c =? 92).
Definition dots_sign : cset := λ c, name_sign c || (c =? 46).
Definition star_sign : cset := λ c, name_sign c || (c =? 42).

(** [/^([\w\\*]+)?(?:#([\w\\]+))?(?:\.([\w\\\.]+))?(?:\[\@?([\w\\]+)([\^\$\*!~]?=)([\w\\]+)\])?(?:\:(.+))?/i] *)
Definition expression : re :=
  RSeq RBol (RSeq (ROpt (RGroup 1 (RPlus (RSet star_sign))))
  (RSeq (ROpt (RSeq (RChar 35) (RGroup 2 (RPlus (RSet name_sign)))))
  (RSeq (ROpt (RSeq (RChar 46) (RGroup 3 (RPlus (RSet dots_sign)))))
  (RSeq (ROpt (RSeq (RChar 91) (RSeq (ROpt (RChar 64)) (RSeq (RGroup 4 (RPlus (RSet name_sign)))
          (RSeq (RGroup 5 (RSeq (ROpt (RSet (any_of "^$*!~"))) (RChar 61)))
          (RSeq (RGroup 6 (RPlus (RSet name_sign))) (RChar 93)))))))
        (ROpt (RSeq (RChar 58) (RGroup 7 (RPlus (RSet dot))))))))).

Definition ws : re := RStar true (RSet is_space).
Definition not_parens : cset := none_of "()".
Definition not_quotes : cset := λ c, negb ((c =? 39) || (c =? 34)).

(** One piece of a compound selector: in parentheses, in brackets, an escape, anything but the signs. *)
Definition in_parens : re :=
  RSeq (RChar 40) (RSeq (RPlus (RAlt (RSeq (RChar 40) (RSeq (RPlus (RSet not_parens)) (RChar 41)))
                                     (RPlus (RSet not_parens)))) (RChar 41)).
Definition in_brackets : re :=
  RSeq (RChar 91) (RSeq (RPlus (RAlt (RSeq (RChar 91) (RSeq (RStar true (RSet (none_of "[]"))) (RChar 93)))
      (RAlt (RSeq (RSet (λ c, negb (not_quotes c))) (RSeq (RStar true (RSet not_quotes)) (RSet (λ c, negb (not_quotes c)))))
            (RPlus (RSet (λ c, none_of "[]" c && not_quotes c)))))) (RChar 93)).
Definition piece_sign : cset := none_of " >+~,([\".
Definition piece : re :=
  RAlt in_parens (RAlt in_brackets (RAlt (RSeq (RChar 92) (RSet dot)) (RPlus (RSet piece_sign)))).

(** The chunk, a comma, the rest. *)
Definition chunker : re :=
  RSeq (RGroup 1 (RAlt (RPlus piece) (RSet (any_of ">+~"))))
    (RSeq (ROpt (RGroup 2 (RSeq ws (RSeq (RChar 44) ws))))
          (RGroup 3 (RStar true (RSet (λ c, dot c || (c =? 13) || (c =? 10)))))).

(** [/^\s*|\s*$/g] *)
Definition whiteSpace : re := RAlt (RSeq RBol ws) (RSeq ws REol).

(** [/(?:not\((.+)\))|(.+)/i] *)
Definition notExpression : re :=
  RAlt (RSeq (RStrI (js "not")) (RSeq (RChar 40) (RSeq (RGroup 1 (RPlus (RSet dot))) (RChar 41))))
       (RGroup 2 (RPlus (RSet dot))).

(** ** Compiled selectors *)

(** The closures of [compile], as data; [filters_of] is the array with its two
    flags. *)
Record filters_of (F : Type) := MkFilters { fs : list F; psuedo : bool; direct : bool }.
Arguments MkFilters {F}.
Arguments fs {F}.
Arguments psuedo {F}.
Arguments direct {F}.

Inductive filter :=
  | FName (name : jstr)
  | FId (id : jstr)
  | FClasses (classes : list jstr)
  | FAttr (name cmp check : jstr)
  | FPsuedo (name : jstr)
  | FNot (notSelectors : list (list (filters_of filter))).
Abbreviation filters := (filters_of filter).
Abbreviation selector := (list filters).

Definition compileNameFilter (name : jstr) : list filter := if truthy name then [FName (to_lower name)] else [].
Definition compileIdFilter (id : jstr) : list filter := if truthy id then [FId id] else [].
Definition compileClassesFilter (classes : jstr) : list filter :=
  if truthy classes then [FClasses (split_unit 46 classes)] else [].
Definition compileAttrFilter (name cmp check : jstr) : list filter := if truthy name then [FAttr name cmp check] else [].

(** [parse] is [parseChunks] for the selectors within not(...). *)
Definition compilePsuedoFilter (parse : jstr -> list selector) (name : jstr) : list filter :=
  if truthy name then
    match exec notExpression name with
    | Some m =>
        match group 1 m with
        | Some inner => if truthy inner then [FNot (parse inner)] else [FPsuedo (default [] (group 2 m))]
        | None => [FPsuedo (default [] (group 2 m))]
        end
    | None => []
    end
  else [].

Definition part (n : nat) (m : mres) : jstr := default [] (group n m).

Definition compile (parse : jstr -> list selector) (sel : jstr) (dir : bool) : filters :=
  match exec expression (replace_all whiteSpace (λ _, []) sel) with
  | Some m =>
      MkFilters (compileNameFilter (part 1 m) ++ compileIdFilter (part 2 m) ++ compileClassesFilter (part 3 m)
                 ++ compileAttrFilter (part 4 m) (part 5 m) (part 6 m) ++ compilePsuedoFilter parse (part 7 m))
        (truthy (part 7 m)) dir
  | None => MkFilters [] false dir
  end.

(** The [do ... while (matches)] loop: the chunks, and the text after a comma. *)
Fixpoint chunks (fuel : nat) (sel : jstr) : list jstr * option jstr :=
  match fuel with
  | O => ([], None)
  | S f =>
      match exec chunker sel with
      | None => ([], None)
      | Some m =>
          if truthy (part 2 m) then ([part 1 m], Some (part 3 m))
          else let '(parts, extra) := chunks f (part 3 m) in (part 1 m :: parts, extra)
      end
  end.

(** The loop over the parts: a chunk after [>] is direct. *)
Fixpoint compile_parts (parse : jstr -> list selector) (before : bool) (parts : list jstr) : selector :=
  match parts with
  | [] => []
  | p :: parts =>
      let gt := str_eqb p [62] in
      (if gt then [] else [compile parse p before]) ++ compile_parts parse gt parts
  end.

Fixpoint parseChunks (fuel : nat) (sel : jstr) : list selector :=
  match fuel with
  | O => []
  | S f =>
      let '(parts, extra) := chunks (S (length sel)) sel in
      match extra with Some (c :: e) => parseChunks f (c :: e) | _ => [] end
      ++ [compile_parts (parseChunks f) false parts]
  end.

(** [new Selector(selector)._selectors] *)
Definition init (sel : jstr) : list selector := parseChunks (S (length sel)) sel.

(** ** Matching *)
Section Match.
Context {ctrl : Type} `{Controls ctrl}.
Implicit Types (item c p : ctrl).

(** A compiled filter: [None] is an exception. *)
Definition test_fn : Type := ctrl -> Z -> Z -> option bool.

Fixpoint run_all (l : list test_fn) item (index len : Z) : option bool :=
  match l with
  | [] => Some true
  | f :: l => b ← f item index len; if (b : bool) then run_all l item index len else Some false
  end.

(** [while (index--)]: the place of the item among its siblings, from the end, or -1. *)
Fixpoint index_down (i : nat) (siblings : list ctrl) item : Z :=
  match i with
  | O => -1
  | S i => if bool_decide (siblings !! i = Some item) then Z.of_nat i else index_down i siblings item
  end.

(** The index and the length a psuedo filter needs: a control without a
    parent has none, a parent without items cannot be. *)
Definition place item : option (Z * Z) :=
  p ← parent item; siblings ← items p;
  Some (index_down (length siblings) siblings item, Z.of_nat (length siblings)).

Definition accepts (g : filters_of test_fn) item : option bool :=
  if psuedo g then '(index, len) ← place item; run_all (fs g) item index len
  else run_all (fs g) item 0 0.

(** The loop [while (item)] of one compound: where it matched, or nothing. *)
Fixpoint climb_match (fuel : nat) (g : filters_of test_fn) (last : bool) (o : option ctrl) : option (option ctrl * bool) :=
  match o with
  | None => Some (None, false)
  | Some item =>
      b ← accepts g item;
      if (b : bool) then Some (Some item, true)
      else if last then Some (Some item, false)
      else match parent item, fuel with
           | None, _ => Some (None, false)
           | Some p, S f => climb_match f g last (Some p)
           | Some _, O => None
           end
  end.

(** The loop over the compounds from the last to the first, with the number that matched. *)
Fixpoint match_loop (last : bool) (gs : list (filters_of test_fn)) (o : option ctrl) (count : nat) : option nat :=
  match gs with
  | [] => Some count
  | g :: gs =>
      '(o, b) ← climb_match (match o with Some item => ui_depth item | None => 0%nat end) g last o;
      match_loop false gs o (if (b : bool) then S count else count)
  end.

Abbreviation compiled := (list (list (filters_of test_fn))).

Fixpoint match_ item (selectors : compiled) : option bool :=
  match selectors with
  | [] => Some false
  | sel :: selectors =>
      count ← match_loop true (reverse sel) (Some item) 0;
      if (count =? length sel)%nat then Some true else match_ item selectors
  end.

(** *** What a filter tests *)

(** [s.substr(i)] *)
Definition substr_from (s : jstr) (i : Z) : jstr :=
  drop (Z.to_nat (if i <? 0 then Z.max 0 (Z.of_nat (length s) + i) else i)) s.

Definition attr_test (value cmp check : jstr) : bool :=
  if negb (truthy cmp) then truthy check
  else if str_eqb cmp (js "=") then str_eqb value check
  else if str_eqb cmp (js "*=") then bool_decide (index_of check value ≠ None)
  else if str_eqb cmp (js "~=") then bool_decide (index_of (32 :: check ++ [32]) (32 :: value ++ [32]) ≠ None)
  else if str_eqb cmp (js "!=") then negb (str_eqb value check)
  else if str_eqb cmp (js "^=") then bool_decide (index_of check value = Some 0%nat)
  else if str_eqb cmp (js "$=")
       then str_eqb (substr_from value (Z.of_nat (length value) - Z.of_nat (length check))) check
  else false.

Definition psuedo_test (name : jstr) item (index len : Z) : bool :=
  if str_eqb name (js "first") then index =? 0
  else if str_eqb name (js "last") then index =? len - 1
  else if str_eqb name (js "even") then Z.rem index 2 =? 0
  else if str_eqb name (js "odd") then Z.rem index 2 =? 1
  else default false (state item name).

Definition map_filters {F G} (h : F -> G) (g : filters_of F) : filters_of G :=
  MkFilters (List.map h (fs g)) (psuedo g) (direct g).

Fixpoint run_filter (f : filter) : test_fn :=
  λ item index len,
    match f with
    | FName name => Some (str_eqb name (js "*") || str_eqb (type_ item) name)
    | FId id => Some (bool_decide (name_ item = Some id))
    | FClasses classes => Some (forallb (hasClass item) classes)
    | FAttr name cmp check => Some (attr_test (default [] (attr item name)) cmp check)
    | FPsuedo name => Some (psuedo_test name item index len)
    | FNot sels =>
        negb <$> match_ item
          (List.map (List.map (λ g, MkFilters (List.map run_filter (fs g)) (psuedo g) (direct g))) sels)
    end.

Definition closures (sels : list selector) : compiled := List.map (List.map (map_filters run_filter)) sels.

(** [match(control)] of a parsed selector. *)
Definition match_selector (sels : list selector) item : option bool := match_ item (closures sels).

(** ** Searching *)

(** The loop of [collect] over the items, from the index [i] on; [sub item sel] collects in
    the items of one item. *)
Fixpoint collect_loop (sub : ctrl -> list (filters_of test_fn) -> option (list ctrl)) (g : filters_of test_fn)
    (rest : list (filters_of test_fn)) (len i : Z) (l : list ctrl) : option (list ctrl) :=
  match l with
  | [] => Some []
  | item :: l =>
      b ← run_all (fs g) item i len;
      if negb b && direct g then Some []
      else
        here ← (if (b : bool) then match rest with [] => Some [item] | _ => sub item rest end else Some []);
        inside ← sub item (g :: rest);
        others ← collect_loop sub g rest len (i + 1) l;
        Some (here ++ inside ++ others)
  end.

(** [collect(items, selector, index)]; [sel] is the selector from [index] on. *)
Fixpoint collect (fuel : nat) (its : list ctrl) (sel : list (filters_of test_fn)) : option (list ctrl) :=
  match sel with
  | [] => match its with [] => Some [] | _ => None end
  | g :: rest =>
      collect_loop (λ item sel,
        match items item with
        | None => Some []
        | Some below => match fuel with O => None | S f => collect f below sel end
        end) g rest (Z.of_nat (length its)) 0 its
  end.

(** [unique(array)]: from the last to the first, those not marked yet. *)
Fixpoint unique_loop (marked : list ctrl) (l : list ctrl) : list ctrl :=
  match l with
  | [] => []
  | x :: l => if bool_decide (x ∈ marked) then unique_loop marked l else x :: unique_loop (x :: marked) l
  end.
Definition unique (l : list ctrl) : list ctrl := unique_loop [] (reverse l).

Fixpoint collect_all (fuel : nat) (its : list ctrl) (sels : compiled) : option (list ctrl) :=
  match sels with
  | [] => Some []
  | sel :: sels => l ← collect fuel its sel; l' ← collect_all fuel its sels; Some (l ++ l')
  end.

Definition find_ (sels : compiled) (container : ctrl) : option (list ctrl) :=
  match items container with
  | None => Some []
  | Some its =>
      found ← collect_all (ui_height container) its sels;
      Some (if (1 <? length sels)%nat then unique found else found)
  end.
Definition find_selector (sels : list selector) (container : ctrl) : option (list ctrl) := find_ (closures sels) container.


(** ** What [match] decides *)
Context `{!ControlLaws ctrl}.

Definition up : ctrl -> ctrl -> Prop := rtc (λ c p, parent c = Some p).

(** The compounds, from the last but one on, hold at the control or above, in this order; before the
    sign [>] a compound holds at the parent. *)
Fixpoint above (dir : bool) (gs : list (filters_of test_fn)) item : Prop :=
  match gs with
  | [] => True
  | g :: gs => ∃ y, (if dir then parent item = Some y else up item y) ∧ accepts g y = Some true ∧ above (direct g) gs y
  end.
Definition matches (sel : list (filters_of test_fn)) item : Prop :=
  match reverse sel with
  | [] => True
  | g :: gs => accepts g item = Some true ∧ above (direct g) gs item
  end.

(** No sign [>] in a selector. *)
Definition no_direct : list (filters_of test_fn) -> Prop := Forall (λ g, direct g = false).
(** No compound throws at the control or above it. *)
Definition tests_above item : list (filters_of test_fn) -> Prop := Forall (λ g, ∀ y, up item y → accepts g y ≠ None).

Lemma above_up gs x y : up y x → above false gs x → above false gs y.
Proof using Type.
  destruct gs as [|g gs]; [done|]. intros Hu (z & Hz & Ha & Hr). exists z. split; [|done].
  unfold up in *. by etransitivity.
Qed.

Lemma up_cases x y : up x y ↔ x = y ∨ ∃ p, parent x = Some p ∧ up p y.
Proof using Type.
  unfold up. split; [intros Hu; inversion Hu; subst; eauto|].
  intros [->|(p & Hp & Hu)]; [apply rtc_refl|]. by eapply rtc_l.
Qed.

(** The climb finds the nearest control where the compound holds. *)
Lemma climb_match_ok g x r : ∀ f, climb_match f g false (Some x) = Some r →
  (∃ y, r = (Some y, true) ∧ up x y ∧ accepts g y = Some true
        ∧ ∀ z, up x z → accepts g z = Some true → up y z)
  ∨ r = (None, false) ∧ ∀ z, up x z → accepts g z ≠ Some true.
Proof using Type*.
  intros f. revert x. induction f as [|f IH]; intros x; cbn [climb_match];
    (destruct (accepts g x) as [[]|] eqn:Ea; cbn [mbind option_bind]; [| |done]).
  1, 3: intros [= <-]; left; exists x; split_and!; [done|apply rtc_refl|done|done].
  all: destruct (parent x) as [p|] eqn:Ep;
    [|intros [= <-]; right; split; [done|]; intros z [->|(q & Hq & _)]%up_cases; congruence].
  - done.
  - intros [(y & E & Hu & Ha & Hn)|[E Hn]]%IH; [left; exists y|right].
    + split_and!; [done|apply up_cases; eauto|done|]. intros z [->|(q & Hq & Hz)]%up_cases Hz'; [congruence|].
      simplify_eq. by apply Hn.
    + split; [done|]. intros z [->|(q & Hq & Hz)]%up_cases Hz'; [congruence|]. simplify_eq. by apply (Hn z).
Qed.

Lemma climb_match_returns g x : (∀ y, up x y → accepts g y ≠ None) → ∀ f, (ui_depth x <= f)%nat →
  climb_match f g false (Some x) ≠ None.
Proof using Type*.
  intros Hd f. revert x Hd. induction f as [|f IH]; intros x Hd Hf; cbn [climb_match];
    (destruct (accepts g x) as [[]|] eqn:Ea; cbn [mbind option_bind]; [done| |by destruct (Hd x (rtc_refl _ _))]);
    (destruct (parent x) as [p|] eqn:Ep; [|done]); pose proof (items_depth _ _ Ep); [lia|].
  apply IH; [|lia]. intros y Hy. apply Hd, up_cases. eauto.
Qed.

Lemma match_loop_none gs n : match_loop false gs None n = Some n.
Proof using Type. revert n. induction gs as [|g gs IH]; intros n; cbn; [done|]. apply IH. Qed.

Lemma match_loop_ok gs : no_direct gs → ∀ x n k, match_loop false gs (Some x) n = Some k →
  (k <= n + length gs)%nat ∧ (k = n + length gs ↔ above false gs x)%nat.
Proof using Type*.
  induction 1 as [|g gs Hg _ IH]; intros x n k; cbn [match_loop above length];
    [intros [= <-]; rewrite Nat.add_0_r; split; [lia|done]|].
  destruct (climb_match _ g false (Some x)) as [r|] eqn:E; [|done]. rewrite Hg.
  apply climb_match_ok in E as [(y & -> & Hu & Ha & Hn)|[-> Hn]]; cbn [mbind option_bind].
  - intros [Hle Hk]%IH. split; [lia|]. rewrite <- Nat.add_succ_comm, Hk. split; [eauto|].
    intros (z & Hz & Hza & Hr). eapply above_up; [|exact Hr]. by apply Hn.
  - rewrite match_loop_none. intros [= <-]. split; [lia|]. split; [lia|]. intros (z & Hz & Hza & _). by destruct (Hn z Hz).
Qed.

Lemma match_loop_returns gs x : tests_above x gs → ∀ n, match_loop false gs (Some x) n ≠ None.
Proof using Type*.
  revert x. induction gs as [|g gs IH]; intros x Hs n; [done|]. apply Forall_cons in Hs as [Hg Hs]. cbn [match_loop].
  pose proof (climb_match_returns g x Hg (ui_depth x) (le_n _)) as Hr.
  destruct (climb_match _ g false (Some x)) as [r|] eqn:E; [|done].
  apply climb_match_ok in E as [(y & -> & Hu & _)|[-> _]]; cbn [mbind option_bind]; [|by rewrite match_loop_none].
  apply IH. eapply Forall_impl; [exact Hs|]. cbn. intros g' Hg' z Hz. apply Hg'. unfold up in *. by etransitivity.
Qed.

(** The last compound is only tried at the control. *)
Lemma climb_last g x f : climb_match f g true (Some x) = (λ b, (Some x, b)) <$> accepts g x.
Proof using Type. destruct f; cbn [climb_match]; by destruct (accepts g x) as [[]|]. Qed.

Lemma match_sel_ok sel x k : no_direct sel → match_loop true (reverse sel) (Some x) 0 = Some k →
  k = length sel ↔ matches sel x.
Proof using Type*.
  intros Hs. unfold matches. rewrite <- (length_reverse sel).
  assert (no_direct (reverse sel)) as Hr by by apply Forall_reverse.
  destruct Hr as [|g gs Hg Hgs]; [by intros [= <-]|]. cbn [match_loop]. rewrite climb_last, Hg.
  destruct (accepts g x) as [b|] eqn:Ea; [|done]. cbn [fmap option_fmap option_map mbind option_bind length].
  intros [Hle Hk]%(match_loop_ok gs Hgs). destruct b.
  - rewrite <- Hk. cbn. split; [by split|]. by intros [_ ?].
  - split; [lia|]. intros [? _]. done.
Qed.

Lemma match_sel_returns sel x : tests_above x sel → match_loop true (reverse sel) (Some x) 0 ≠ None.
Proof using Type*.
  intros Hs. assert (tests_above x (reverse sel)) as Hr by by apply Forall_reverse.
  destruct Hr as [|g gs Hg Hgs]; [done|]. cbn [match_loop]. rewrite climb_last.
  destruct (accepts g x) as [b|] eqn:Ea; [|by destruct (Hg x (rtc_refl _ _))]. by apply match_loop_returns.
Qed.

Lemma match_decides (selectors : compiled) x : Forall no_direct selectors → ∀ b, match_ x selectors = Some b →
  b = true ↔ Exists (λ sel, matches sel x) selectors.
Proof using Type*.
  induction 1 as [|sel sels Hs _ IH]; intros b; cbn [match_]; [intros [= <-]; split; [done|]; by intros ?%List.Exists_nil|].
  destruct (match_loop true (reverse sel) (Some x) 0) as [k|] eqn:E; [|done]. cbn [mbind option_bind].
  pose proof (match_sel_ok sel x k Hs E) as Hk. destruct (Nat.eqb_spec k (length sel)) as [Hl|Hl].
  - intros [= <-]. split; [|done]. intros _. apply Exists_cons_hd. by apply Hk.
  - intros Hb%IH. rewrite Hb. split; [by apply Exists_cons_tl|]. intros Hx. inversion Hx; subst; [|done]. destruct Hl. by apply Hk.
Qed.

Lemma match_returns (selectors : compiled) x : Forall (tests_above x) selectors → match_ x selectors ≠ None.
Proof using Type*.
  induction 1 as [|sel sels Hs _ IH]; cbn [match_]; [done|].
  pose proof (match_sel_returns sel x Hs) as Hr. destruct (match_loop true (reverse sel) (Some x) 0) as [k|]; [|done].
  cbn [mbind option_bind]. by destruct (k =? length sel)%nat.
Qed.

(** C23: For selectors without the sign [>], which [match] does not look at: whenever [match] returns, it says yes
    exactly when for one of the selectors the control satisfies the last compound and every compound before it holds at
    or above the control where the next one holds (taking the nearest each time misses nothing); and it returns when no compound
    throws at the control or above it. A compound with a pseudo class throws at a control without a parent. *)
Theorem match_ok (selectors : compiled) x : Forall no_direct selectors →
  (∀ b, match_ x selectors = Some b → b = true ↔ Exists (λ sel, matches sel x) selectors)
  ∧ (Forall (tests_above x) selectors → match_ x selectors ≠ None).
Proof using Type*. intros Hd. split; [by apply match_decides|apply match_returns]. Qed.

(** ** What [find] collects *)
Definition inside p x : Prop := ∃ c, parent c = Some p ∧ up x c.
Definition tested (g : filters_of test_fn) x : Prop :=
  ∃ p i, parent x = Some p ∧ children p !! i = Some x
         ∧ run_all (fs g) x (Z.of_nat i) (Z.of_nat (length (children p))) = Some true.
(** A chain of controls, each inside the one before (after the sign [>] an item of it), the first inside [p] and the last [x]. *)
Fixpoint finds (sel : list (filters_of test_fn)) p x : Prop :=
  match sel with
  | [] => False
  | g :: rest => ∃ y, (if direct g then parent y = Some p else inside p y) ∧ tested g y ∧ match rest with [] => x = y | _ => finds rest y x end
  end.

Lemma inside_cases p y : inside p y ↔ ∃ c, c ∈ children p ∧ (y = c ∨ inside c y).
Proof using Type*.
  unfold inside. split.
  - intros (c & Hc & Hu). exists c. split; [by apply items_parent|].
    remember c as c0 eqn:E0 in Hu. revert c E0 Hc.
    induction Hu as [y|y q c' Hq Hu IH]; intros c E0 Hc; subst; [by left|right].
    destruct (IH c eq_refl Hc) as [->|(d & Hd & Hu')]; [exists y; split; [done|apply rtc_refl]|].
    exists d. split; [done|]. by eapply rtc_l.
  - intros (c & Hc%items_parent & [->|(d & Hd & Hu)]); exists c; (split; [done|]); [apply rtc_refl|].
    unfold up in *. etransitivity; [exact Hu|]. by apply rtc_once.
Qed.

Lemma finds_cases g rest p x : direct g = false → finds (g :: rest) p x ↔ ∃ c, c ∈ children p ∧
  ((tested g c ∧ match rest with [] => x = c | _ => finds rest c x end) ∨ finds (g :: rest) c x).
Proof using Type*.
  cbn [finds]. intros ->. split.
  - intros (y & (c & Hc & [->|Hy])%inside_cases & Ht & Hr); exists c; (split; [done|]); [by left|right]. by exists y.
  - intros (c & Hc & [[Ht Hr]|(y & Hy & Ht & Hr)]); [exists c|exists y]; (split; [|done]); apply inside_cases; eauto.
Qed.

(** A compound without the sign [>] that never throws at a control in a container. *)
Definition quiet (g : filters_of test_fn) : Prop :=
  direct g = false ∧ ∀ y p i len, parent y = Some p → run_all (fs g) y i len ≠ None.

(** What [collect] returns on the items of a control. *)
Definition collects (f : nat) : Prop := ∀ sel p, sel ≠ [] → Forall quiet sel → (∀ c, c ∈ children p → (ui_height c < f)%nat) →
  ∃ r, collect f (children p) sel = Some r ∧ ∀ x, x ∈ r ↔ finds sel p x.

Lemma collect_below f sel c : collects f → sel ≠ [] → Forall quiet sel → (ui_height c <= f)%nat →
  ∃ r, match items c with Some below => collect f below sel | None => Some [] end = Some r ∧ ∀ x, x ∈ r ↔ finds sel c x.
Proof using Type*.
  intros IH Hne Hq Hh. destruct (IH sel c Hne Hq) as (r & E & Hr).
  { intros d Hd%items_height. lia. }
  unfold children in E. destruct (items c) as [its|] eqn:Ei; [by exists r|]. exists []. split; [done|].
  intros x. split; [by intros ?%elem_of_nil|]. destruct sel as [|g rest]; [done|]. apply Forall_cons in Hq as [[Hdir _] _].
  intros (d & Hd & _)%finds_cases; [|done]. unfold children in Hd. rewrite Ei in Hd. by apply elem_of_nil in Hd.
Qed.

Lemma collect_here f rest (b : bool) c : collects f → Forall quiet rest → (ui_height c <= f)%nat →
  ∃ r, (if b then match rest with
                  | [] => Some [c]
                  | _ => match items c with Some below => collect f below rest | None => Some [] end
                  end else Some []) = Some r
    ∧ ∀ x, x ∈ r ↔ b = true ∧ match rest with [] => x = c | _ => finds rest c x end.
Proof using Type*.
  intros IH Hq Hh. destruct b; [|exists []; split; [done|]; intros x; split; [by intros ?%elem_of_nil|by intros []]].
  destruct rest as [|g rest].
  - exists [c]. split; [done|]. intros x. rewrite list_elem_of_singleton. tauto.
  - destruct (collect_below f (g :: rest) c IH ltac:(done) Hq Hh) as (r & E & Hr). exists r. split; [done|].
    intros x. rewrite Hr. tauto.
Qed.

Lemma tested_at g p l1 c l2 b : children p = l1 ++ c :: l2 →
  run_all (fs g) c (Z.of_nat (length l1)) (Z.of_nat (length (children p))) = Some b → tested g c ↔ b = true.
Proof using Type*.
  intros E Eb. assert (c ∈ children p) as Hc by (rewrite E; set_solver).
  split; [|intros ->; exists p, (length l1); split_and!; [by apply items_parent|by rewrite E, list_lookup_middle|done]].
  intros (p' & i & Hp' & Hi & Hrn). apply items_parent in Hc. simplify_eq.
  assert (i = length l1) as ->; [|congruence].
  eapply NoDup_lookup; [apply (items_NoDup p)|done|by rewrite E, list_lookup_middle].
Qed.

Lemma collect_ok f : collects f.
Proof using Type*.
  induction f as [|f IH]; intros [|g rest] p Hne Hq Hh; [done| |done|].
  - destruct (children p) as [|c l] eqn:Ec; [|pose proof (Hh c ltac:(left)); lia].
    apply Forall_cons in Hq as [[Hdir _] _].
    exists []. split; [done|]. intros x. split; [by intros ?%elem_of_nil|]. intros (c & Hc & _)%finds_cases; [|done].
    rewrite Ec in Hc. by apply elem_of_nil in Hc.
  - cbn [collect]. set (sub := λ item sel, _). set (len := Z.of_nat (length (children p))).
    assert (∀ l1 l2, children p = l1 ++ l2 → ∃ r, collect_loop sub g rest len (Z.of_nat (length l1)) l2 = Some r
      ∧ ∀ x, x ∈ r ↔ ∃ c, c ∈ l2 ∧ ((tested g c ∧ match rest with [] => x = c | _ => finds rest c x end) ∨ finds (g :: rest) c x)) as Hl.
    2: { destruct (Hl [] (children p) eq_refl) as (r & E & Hr). exists r. split; [exact E|]. intros x. apply Forall_cons in Hq as [[Hdir _] _]. by rewrite Hr, finds_cases. }
    intros l1 l2. revert l1. induction l2 as [|c l2 IHl]; intros l1 E.
    { exists []. split; [done|]. intros x. split; [by intros ?%elem_of_nil|]. intros (c & Hc & _). by apply elem_of_nil in Hc. }
    destruct (IHl (l1 ++ [c])) as (r & Er & Hr); [by rewrite <- app_assoc|]. rewrite length_app, Nat2Z.inj_add in Er.
    pose proof Hq as [[Hdir Hrun] Hq']%Forall_cons. assert (c ∈ children p) as Hc by (rewrite E; set_solver).
    pose proof (Hh c Hc) as Hhc.
    destruct (collect_below f (g :: rest) c IH ltac:(done) Hq ltac:(lia)) as (ri & Ei & Hri).
    cbn [collect_loop].
    destruct (run_all (fs g) c (Z.of_nat (length l1)) len) as [b|] eqn:Eb; [|by destruct (Hrun c p _ _ (proj1 (items_parent c p) Hc) Eb)].
    cbn [mbind option_bind]. rewrite Hdir, andb_false_r. change (Z.of_nat (length [c])) with 1 in Er. rewrite Er.
    assert (tested g c ↔ b = true) as Ht by by eapply tested_at.
    destruct (collect_here f rest b c IH Hq' ltac:(lia)) as (rh & Eh & Hrh).
    change (sub c rest) with (match items c with Some below => collect f below rest | None => Some [] end).
    change (sub c (g :: rest)) with (match items c with Some below => collect f below (g :: rest) | None => Some [] end).
    rewrite Eh, Ei. cbn [mbind option_bind]. eexists. split; [done|]. intros x. rewrite !elem_of_app, Hrh, Hri, Hr, <- Ht.
    split.
    + intros [H1|[H1|(d & Hd & H1)]]; [exists c|exists c|exists d]; (split; [set_solver|]); tauto.
    + intros (d & [->|Hd]%elem_of_cons & [H1|H1]); [tauto..| |]; right; right; exists d; tauto.
Qed.

Lemma unique_loop_ok marked l : NoDup (unique_loop marked l) ∧ ∀ x, x ∈ unique_loop marked l ↔ x ∈ l ∧ x ∉ marked.
Proof using Type*.
  revert marked. induction l as [|y l IH]; intros marked; cbn; [split; [constructor|intros x; set_solver]|].
  case_bool_decide as Hy; [destruct (IH marked) as [Hn Hx]|destruct (IH (y :: marked)) as [Hn Hx]].
  - split; [done|]. intros x. rewrite Hx. set_solver.
  - split; [constructor; [|done]; rewrite Hx; set_solver|]. intros x. rewrite elem_of_cons, Hx.
    destruct (decide (x = y)) as [->|]; set_solver.
Qed.

Lemma unique_ok l : NoDup (unique l) ∧ ∀ x, x ∈ unique l ↔ x ∈ l.
Proof using Type*.
  destruct (unique_loop_ok [] (reverse l)) as [Hn Hx]. split; [done|]. intros x. unfold unique.
  rewrite Hx, elem_of_reverse. set_solver.
Qed.

Lemma collect_all_ok p its sels : items p = Some its → Forall (λ sel, sel ≠ [] ∧ Forall quiet sel) sels →
  ∃ r, collect_all (ui_height p) its sels = Some r ∧ ∀ x, x ∈ r ↔ ∃ sel, sel ∈ sels ∧ finds sel p x.
Proof using Type*.
  intros Ei. induction 1 as [|sel sels [Hne Hq] _ (r' & E' & Hr')]; cbn [collect_all].
  - exists []. split; [done|]. intros x. split; [by intros ?%elem_of_nil|]. intros (sel & Hs & _). by apply elem_of_nil in Hs.
  - destruct (collect_ok (ui_height p) sel p Hne Hq) as (r & E & Hr); [by intros c ?%items_height|].
    unfold children in E. rewrite Ei in E. cbn [default] in E. unfold id in E. rewrite E, E'. exists (r ++ r').
    split; [done|]. intros x. rewrite elem_of_app, Hr, Hr'. setoid_rewrite elem_of_cons. naive_solver.
Qed.

Lemma find_returns sels container : Forall (λ sel, sel ≠ [] ∧ Forall quiet sel) sels →
  ∃ r, find_ sels container = Some r ∧ (∀ x, x ∈ r ↔ ∃ sel, sel ∈ sels ∧ finds sel container x)
       ∧ ((1 < length sels)%nat → NoDup r).
Proof using Type*.
  intros Hs. unfold find_. destruct (items container) as [its|] eqn:Ei.
  - destruct (collect_all_ok container its sels Ei Hs) as (r & E & Hr). rewrite E. cbn [mbind option_bind].
    destruct (Nat.ltb_spec 1 (length sels)) as [Hl|Hl].
    + exists (unique r). destruct (unique_ok r) as [Hn Hx]. split_and!; [done|intros x; by rewrite Hx, Hr|done].
    + exists r. split_and!; [done|done|lia].
  - exists []. split_and!; [done| |intros; constructor]. intros x. split; [by intros ?%elem_of_nil|].
    intros (sel & Hin & Hf). rewrite Forall_forall in Hs. destruct (Hs sel Hin) as [_ Hq]. destruct sel as [|g rest]; [done|].
    apply Forall_cons in Hq as [[Hdir _] _]. apply finds_cases in Hf as (c & Hc & _); [|done].
    unfold children in Hc. rewrite Ei in Hc. by apply elem_of_nil in Hc.
Qed.

(** C24: For selectors without the sign [>], at which the search breaks off, and whose compounds do not throw at a control in a container:
    [find] returns exactly the controls that end a chain of nested controls below the container, one for each compound of one of the
    selectors; with several selectors each of them once. *)
Theorem find_ok sels container : Forall (λ sel, sel ≠ [] ∧ Forall quiet sel) sels →
  ∃ r, find_ sels container = Some r ∧ (∀ x, x ∈ r ↔ ∃ sel, sel ∈ sels ∧ finds sel container x)
       ∧ ((1 < length sels)%nat → NoDup r).
Proof using Type*. apply find_returns. Qed.

(** *** Both ways of using a selector *)

(** A compound not marked as psuedo does not look at the index. *)
Definition honest (g : filters_of test_fn) : Prop :=
  psuedo g = false → ∀ y i len, run_all (fs g) y i len = run_all (fs g) y 0 0.

Lemma index_down_at siblings x i : NoDup siblings → siblings !! i = Some x → ∀ n, (i < n)%nat →
  index_down n siblings x = Z.of_nat i.
Proof using Type*.
  intros Hn Hi. induction n as [|n IH]; intros Hlt; [lia|]. cbn.
  case_bool_decide as Hx.
  - f_equal. by eapply NoDup_lookup.
  - apply IH. destruct (decide (i = n)) as [->|]; [done|lia].
Qed.

Lemma tested_accepts g x : honest g → tested g x → accepts g x = Some true.
Proof using Type*.
  intros Hg (p & i & Hp & Hi & Hr). unfold accepts. destruct (psuedo g) eqn:Eps.
  2: { rewrite (Hg Eps) in Hr. exact Hr. }
  unfold place. rewrite Hp. cbn [mbind option_bind]. unfold children in *.
  destruct (items p) as [its|] eqn:Ei; cbn [default] in *; unfold id in *; [|done]. cbn [mbind option_bind].
  rewrite (index_down_at its x i) with (n := length its); [done| |done|by eapply lookup_lt_Some].
  pose proof (items_NoDup p) as Hn. unfold children in Hn. by rewrite Ei in Hn.
Qed.

Lemma inside_up p y : inside p y → up y p.
Proof using Type*. intros (c & Hc & Hu). unfold up in *. etransitivity; [exact Hu|]. by apply rtc_once. Qed.

Lemma finds_matches sel p x gs : Forall (λ g, honest g ∧ direct g = false) sel → no_direct gs → finds sel p x →
  (∀ y, inside p y → above false gs y) →
  ∃ g0 gs0, reverse sel = g0 :: gs0 ∧ accepts g0 x = Some true ∧ above false (gs0 ++ gs) x.
Proof using Type*.
  intros Hh. revert p gs. induction Hh as [|g rest [Hg Hd] Hh IH]; intros p gs Hn; [done|].
  cbn [finds]. rewrite Hd. intros (y & Hin & Ht & Hr) Hgs. apply tested_accepts in Ht; [|done]. destruct rest as [|g' rest].
  - subst y. exists g, []. split_and!; [done|done|]. by apply Hgs.
  - destruct (IH y (g :: gs) ltac:(by constructor) Hr) as (g0 & gs0 & E & Ha & Hab).
    { intros z Hz. exists y. rewrite Hd. split_and!; [by apply inside_up|done|by apply Hgs]. }
    exists g0, (gs0 ++ [g]). rewrite reverse_cons, E. split_and!; [done|done|]. by rewrite <- app_assoc.
Qed.

(** What [find] returns, [match] accepts. *)
Theorem find_matches sels container r x : Forall (λ sel, sel ≠ [] ∧ Forall quiet sel) sels →
  Forall (Forall honest) sels → Forall (tests_above x) sels →
  find_ sels container = Some r → x ∈ r → match_ x sels = Some true.
Proof using Type*.
  intros Hq Ha Ht E Hx. destruct (find_returns sels container Hq) as (r' & E' & Hr & _). simplify_eq.
  apply Hr in Hx as (sel & Hin & Hf). pose proof (match_returns sels x Ht) as Hret.
  assert (Forall no_direct sels) as Hd.
  { eapply Forall_impl; [exact Hq|]. intros l [_ Hl]. eapply Forall_impl; [exact Hl|]. by intros g []. }
  destruct (match_ x sels) as [b|] eqn:Eb; [|done]. f_equal. apply (match_decides sels x Hd b Eb).
  apply Exists_exists. exists sel. split; [done|]. rewrite Forall_forall in Ha, Hq, Hd.
  destruct (Hq sel Hin) as [_ Hqs]. destruct (finds_matches sel container x []) as (g0 & gs0 & Er & Hacc & Hab); [|constructor|done|done|].
  { pose proof (Ha sel Hin) as Hh. rewrite Forall_forall in *. intros g Hg. split; [by apply Hh|]. by apply Hqs. }
  unfold matches. rewrite Er, app_nil_r in *. split; [done|].
  pose proof (Hd sel Hin) as Hds. apply Forall_reverse in Hds. rewrite Er in Hds. apply Forall_cons in Hds as [-> _]. done.
Qed.
End Match.

(** ** Parsing ends *)

(** An expression that reads at least one unit. *)
Definition eats (r : re) : Prop := ∀ st k x, mtch r st k = Some x →
  ∃ st', (length (rest st') < length (rest st))%nat ∧ k st' = Some x.

Lemma sound_length r st k x : mtch r st k = Some x → ∃ st', (length (rest st') <= length (rest st))%nat ∧ k st' = Some x.
Proof.
  intros (st' & (p & E & _) & Hk)%mtch_sound. exists st'. split; [|done]. rewrite E, length_app. lia.
Qed.

Lemma eats_set f : eats (RSet f).
Proof. intros [[|c s] p cs] k x E; cbn in E; [done|]. destruct (f c); [|done]. eexists. split; [|exact E]. cbn. lia. Qed.

Lemma eats_char c : eats (RChar c).
Proof. apply eats_set. Qed.

Lemma eats_seq a b : eats a → eats (RSeq a b).
Proof.
  intros Ha st k x E. cbn [mtch] in E. apply Ha in E as (s1 & H1 & E). apply sound_length in E as (s2 & H2 & E).
  exists s2. split; [lia|done].
Qed.

Lemma eats_alt a b : eats a → eats b → eats (RAlt a b).
Proof. intros Ha Hb st k x E. cbn [mtch] in E. destruct (mtch a st k) eqn:Ea; simplify_eq; [by apply Ha|by apply Hb]. Qed.

Lemma eats_plus a : eats a → eats (RPlus a).
Proof. apply eats_seq. Qed.

Create HintDb eats.
#[export] Hint Resolve eats_set eats_char eats_seq eats_alt eats_plus : eats.

Lemma eats_chunk : eats (RAlt (RPlus piece) (RSet (any_of ">+~"))).
Proof. unfold piece, in_parens, in_brackets. auto 10 with eats. Qed.

Lemma exec_at r s m : exec r s = Some m → ∃ p s', (length s' <= length s)%nat ∧ match_here r p s' = Some m.
Proof.
  unfold exec. generalize 0%nat as p. induction s as [|c s IH]; intros p; cbn [exec_from];
    (destruct (match_here r p _) as [m'|] eqn:E; [intros [= ->]; by exists p; eexists; (split; [|exact E])|]).
  - done.
  - intros (q & s' & Hl & Hm)%IH. exists q, s'. split; [cbn; lia|done].
Qed.

Lemma group_head n u cs p t a : group n (MR p t a ((n, u) :: cs)) = Some u.
Proof. unfold group, cap_get. cbn. by rewrite Nat.eqb_refl. Qed.

(** The rest after a chunk is shorter, and the chunk is not longer than the text. *)
Lemma chunker_shorter s m : exec chunker s = Some m → (length (part 3 m) < length s)%nat.
Proof.
  intros (p & s' & Hl & Hm)%exec_at. unfold match_here in Hm.
  destruct (mtch chunker _ _) as [st|] eqn:E; [|done]. injection Hm as <-.
  unfold chunker in E. rewrite mtch_seq, mtch_group in E. apply eats_chunk in E as (s1 & H1 & E).
  rewrite mtch_seq in E. apply sound_length in E as (s2 & H2 & E). cbn [rest] in H1, H2.
  rewrite mtch_group in E. apply sound_length in E as (s3 & H3 & [= <-]). cbn [caps].
  unfold part. rewrite group_head. cbn [default]. unfold id. rewrite length_take. lia.
Qed.

Lemma part_factor r s m n : exec r s = Some m → factor (part n m) s ∨ part n m = [].
Proof. intros E. unfold part. destruct (group n m) as [u|] eqn:Eg; [left; by eapply group_factor|by right]. Qed.

Lemma factor_length u s : factor u s → (length u <= length s)%nat.
Proof. intros (a & b & ->). rewrite !length_app. lia. Qed.

Lemma part_length r s m n : exec r s = Some m → (length (part n m) <= length s)%nat.
Proof. intros [?%factor_length| ->]%(part_factor r s m n); [done|cbn; lia]. Qed.

Lemma chunks_more sel : ∀ f1 f2, (length sel < f1)%nat → (length sel < f2)%nat → chunks f1 sel = chunks f2 sel.
Proof.
  remember (length sel) as n eqn:En. revert sel En. induction n as [n IH] using lt_wf_ind. intros sel -> [|f1] [|f2] H1 H2; try lia.
  cbn [chunks]. destruct (exec chunker sel) as [m|] eqn:Em; [|done]. pose proof (chunker_shorter _ _ Em).
  rewrite (IH _ ltac:(eassumption) (part 3 m) eq_refl f1 f2) by lia. done.
Qed.

Lemma chunks_bounds f sel parts extra : chunks f sel = (parts, extra) →
  Forall (λ p, (length p <= length sel)%nat) parts ∧ ∀ e, extra = Some e → (length e < length sel)%nat.
Proof.
  revert sel parts extra. induction f as [|f IH]; intros sel parts extra; cbn [chunks]; [by intros [= <- <-]|].
  destruct (exec chunker sel) as [m|] eqn:Em; [|by intros [= <- <-]].
  pose proof (chunker_shorter _ _ Em) as Hs. pose proof (part_length _ _ _ 1 Em) as H1.
  destruct (truthy (part 2 m)); [intros [= <- <-]; split; [by constructor|by intros e [= <-]]|].
  destruct (chunks f (part 3 m)) as [ps ex] eqn:Ec. intros [= <- <-]. destruct (IH _ _ _ Ec) as [Hp He].
  split; [constructor; [done|]; eapply Forall_impl; [exact Hp|]; cbn; intros; lia|].
  intros e Hex. apply He in Hex. lia.
Qed.

(** The text within not(...) is shorter than the name it stands in. *)
Lemma not_shorter name m inner : exec notExpression name = Some m → group 1 m = Some inner → (length inner < length name)%nat.
Proof.
  intros (p & s' & Hl & Hm)%exec_at Hg. unfold match_here in Hm.
  destruct (mtch notExpression _ _) as [st|] eqn:E; [|done]. injection Hm as <-. cbn [m_caps] in Hg.
  unfold notExpression in E. rewrite mtch_alt in E. destruct (mtch (RSeq _ _) _ _) as [st'|] eqn:E1.
  - injection E as ->. rewrite mtch_seq in E1. apply (eats_seq _ _ (eats_set _)) in E1 as (s1 & H1 & E1).
    rewrite mtch_seq in E1. apply sound_length in E1 as (s2 & H2 & E1). rewrite mtch_seq, mtch_group in E1.
    apply sound_length in E1 as (s3 & H3 & E1). cbn [mtch RChar] in E1. cbn [rest] in *.
    destruct (rest s3) as [|c t]; [done|]. destruct (41 =? c); [|done]. injection E1 as <-. cbn [caps] in Hg.
    rewrite group_head in Hg. injection Hg as <-. rewrite length_take. lia.
  - rewrite mtch_group in E. unfold RPlus in E. rewrite mtch_seq in E. destruct s' as [|c s']; [done|].
    rewrite mtch_set_cons in E. destruct (dot c); [|done]. rewrite mtch_star_set in E.
    assert (∀ f s q cs k x, greedy_run f s q cs k = Some x → ∃ s' q', k (MS s' q' cs) = Some x) as Hrun.
    { clear. intros f s. induction s as [|c s IH]; intros q cs k x E; cbn in E; [eauto|].
      destruct (f c); [|eauto]. destruct (greedy_run f s (S q) cs k) eqn:Eg; simplify_eq; eauto. }
    apply Hrun in E as (s2 & q' & [= <-]). by cbn in Hg.
Qed.

Lemma replace_away_from r n : ∀ p s, (length (replace_all_from n r (λ _, []) p s) <= length s)%nat.
Proof.
  induction n as [|n IH]; intros p s; cbn [replace_all_from]; [lia|].
  destruct (match_here r p s) as [m|] eqn:E.
  - apply m_after_shorter in E. destruct (Nat.eqb _ 0); cbn [app].
    + destruct s as [|c s]; [done|]. cbn. specialize (IH (S p) s). lia.
    + specialize (IH (p + length (m_text m))%nat (m_after m)). lia.
  - destruct s as [|c s]; [done|]. cbn. specialize (IH (S p) s). lia.
Qed.

Section Ext.
Context (parse1 parse2 : jstr -> list selector) (n : nat).
Context (Hext : ∀ q, (length q < n)%nat → parse1 q = parse2 q).

Lemma compile_ext sel dir : (length sel <= n)%nat → compile parse1 sel dir = compile parse2 sel dir.
Proof using Hext.
  intros Hl. unfold compile. pose proof (replace_away_from whiteSpace (S (length sel)) 0 sel) as Hr. fold (replace_all whiteSpace (λ _, []) sel) in Hr.
  destruct (exec expression _) as [m|] eqn:Em; [|done]. f_equal. do 4 f_equal.
  pose proof (part_length _ _ _ 7 Em) as H7. unfold compilePsuedoFilter. destruct (truthy (part 7 m)); [|done].
  destruct (exec notExpression (part 7 m)) as [m'|] eqn:Em'; [|done].
  destruct (group 1 m') as [inner|] eqn:Eg; [|done]. destruct (truthy inner); [|done].
  pose proof (not_shorter _ _ _ Em' Eg). rewrite Hext by lia. done.
Qed.

Lemma compile_parts_ext before parts : Forall (λ p, (length p <= n)%nat) parts →
  compile_parts parse1 before parts = compile_parts parse2 before parts.
Proof using Hext.
  intros Hp. revert before. induction Hp as [|p ps Hl _ IH]; intros before; cbn [compile_parts]; [done|].
  by rewrite IH, (compile_ext p before Hl).
Qed.
End Ext.

Lemma parseChunks_more f1 : ∀ f2 sel, (length sel < f1)%nat → (length sel < f2)%nat → parseChunks f1 sel = parseChunks f2 sel.
Proof.
  induction f1 as [|f1 IH]; intros [|f2] sel H1 H2; try lia. cbn [parseChunks].
  destruct (chunks (S (length sel)) sel) as [parts extra] eqn:Ec. destruct (chunks_bounds _ _ _ _ Ec) as [Hp He].
  rewrite (compile_parts_ext (parseChunks f1) (parseChunks f2) (length sel)) by (first [done|intros q Hq; apply IH; lia]).
  f_equal. destruct extra as [[|c e]|]; [done| |done]. specialize (He _ eq_refl). apply IH; lia.
Qed.

(** [parseChunks] without fuel. *)
Definition chunks_of (sel : jstr) : list jstr * option jstr := chunks (S (length sel)) sel.

(** Parsing a selector ends on every text: with the fuel given, both loops satisfy their equations, so it never
    runs out. *)
Theorem init_total sel :
  init sel = (let '(parts, extra) := chunks_of sel in
              match extra with Some (c :: e) => init (c :: e) | _ => [] end ++ [compile_parts init false parts])
  ∧ chunks_of sel = match exec chunker sel with
                    | None => ([], None)
                    | Some m => if truthy (part 2 m) then ([part 1 m], Some (part 3 m))
                                else let '(parts, extra) := chunks_of (part 3 m) in (part 1 m :: parts, extra)
                    end.
Proof.
  split.
  - unfold init at 1. cbn [parseChunks]. fold (chunks_of sel). destruct (chunks_of sel) as [parts extra] eqn:Ec.
    destruct (chunks_bounds _ _ _ _ Ec) as [Hp He].
    rewrite (compile_parts_ext (parseChunks (length sel)) init (length sel)).
    + f_equal. destruct extra as [[|c e]|]; [done| |done]. specialize (He _ eq_refl).
      apply parseChunks_more; [done|unfold init; lia].
    + intros q Hq. unfold init. apply parseChunks_more; lia.
    + done.
  - unfold chunks_of. cbn [chunks]. destruct (exec chunker sel) as [m|] eqn:Em; [|done].
    pose proof (chunker_shorter _ _ Em). rewrite (chunks_more (part 3 m) (length sel) (S (length (part 3 m)))) by lia. done.
Qed.

(** ** What parsing makes *)
Section Parsed.
Context {ctrl : Type} `{Controls ctrl}.

Lemma honest_all (l : list (test_fn (ctrl:=ctrl))) : Forall (λ f : test_fn (ctrl:=ctrl), ∀ y i len, f y i len = f y 0 0) l →
  ∀ y i len, run_all l y i len = run_all l y 0 0.
Proof using Type.
  induction 1 as [|f l Hf _ IH]; intros y i len; cbn; [done|]. rewrite Hf. destruct (f y 0 0) as [[]|]; cbn; auto.
Qed.

Lemma compile_honest parse sel dir : honest (map_filters (run_filter (ctrl:=ctrl)) (compile parse sel dir)).
Proof using Type.
  unfold compile. destruct (exec expression _) as [m|]; [|by intros _ y i len].
  intros Hp. cbn [psuedo map_filters fs] in *. apply honest_all, Forall_map.
  unfold compilePsuedoFilter. rewrite Hp, app_nil_r. rewrite !Forall_app.
  unfold compileNameFilter, compileIdFilter, compileClassesFilter, compileAttrFilter.
  split_and!; case_match; by repeat constructor.
Qed.

Lemma parsed_honest f sel : Forall (Forall honest) (closures (ctrl:=ctrl) (parseChunks f sel)).
Proof using Type.
  unfold closures. rewrite Forall_map. revert sel. induction f as [|f IH]; intros sel; cbn [parseChunks]; [constructor|].
  destruct (chunks _ sel) as [parts extra]. apply Forall_app. split; [destruct extra as [[]|]; by auto|].
  constructor; [|done]. rewrite Forall_map. generalize false as before.
  induction parts as [|p parts IHp]; intros before; cbn [compile_parts]; [constructor|].
  apply Forall_app. split; [|apply IHp]. destruct (str_eqb p [62]); repeat constructor. apply compile_honest.
Qed.
End Parsed.

(** ** Controls given by a table *)
Record urow := URow {
  u_type : jstr; u_name : option jstr; u_classes : list jstr; u_attrs : Obj.t jstr; u_states : Obj.t bool;
  u_items : option (list nat)
}.

Section UiTable.
Context (t : list urow).
Definition as_rows : list trow := (λ u, TRow 0 [] None [] (default [] (u_items u))) <$> t.
Definition u_row (n : nat) : urow := default (URow [] None [] [] [] None) (t !! n).

#[local] Instance table_controls : Controls nat := {|
  type_ n := u_type (u_row n);
  name_ n := u_name (u_row n);
  hasClass n c := bool_decide (c ∈ u_classes (u_row n));
  attr n a := Obj.get a (u_attrs (u_row n));
  state n a := Obj.get a (u_states (u_row n));
  parent n := t_parent as_rows n;
  items n := u_items (u_row n);
  ui_depth n := n;
  ui_height n := (length t - n)%nat
|}.

Lemma as_rows_kids p : t_kids (t_row as_rows p) = children p.
Proof. unfold t_row, as_rows, children. cbn. unfold u_row. rewrite list_lookup_fmap. by destruct (t !! p). Qed.

Lemma table_control_laws : table_ok as_rows = true → ControlLaws nat.
Proof.
  intros Hok. constructor.
  - intros c p. rewrite <- as_rows_kids. symmetry. by apply t_parent_ok.
  - intros p. rewrite <- as_rows_kids. by apply t_kids_NoDup.
  - intros c p. rewrite <- as_rows_kids. intros (row & E & _ & ?)%t_kids_lookup; [|done].
    apply lookup_lt_Some in E. unfold as_rows in E. rewrite length_fmap in E. cbn. lia.
  - intros c p (row & E & _ & ?)%t_parent_ok%t_kids_lookup; done.
Qed.
End UiTable.

(** A panel with a button, a tool bar that holds a tool bar with a button and a text, and a button. *)
Definition ctl (ty : string) (name : option string) (classes : list string) (its : option (list nat)) : urow :=
  URow (js ty) (js <$> name) (js <$> classes) [(js "title", js ty)] [(js "disabled", false)] its.
Definition ui : list urow :=
  [ctl "panel" None [] (Some [1; 2; 6]%nat); ctl "button" (Some "ok"%string) ["primary"%string] None;
   ctl "toolbar" None [] (Some [3%nat]); ctl "toolbar" None [] (Some [4; 5]%nat);
   ctl "button" (Some "bold"%string) [] None; ctl "label" None [] None; ctl "button" (Some "cancel"%string) [] None].

Lemma ui_ok : table_ok (as_rows ui) = true.
Proof. by vm_compute. Qed.

Definition ui_find (sel : string) : option (list nat) := @find_selector nat (table_controls ui) (init (js sel)) 0%nat.
Definition ui_match (sel : string) (n : nat) : option bool := @match_selector nat (table_controls ui) (init (js sel)) n.

Example ui_finds :
  ui_find "button" = Some [1; 4; 6]%nat
  ∧ ui_find "button#bold" = Some [4%nat]
  ∧ ui_find "button.primary:first" = Some [1%nat]
  ∧ ui_find "button:not(.primary)" = Some [4; 6]%nat
  ∧ ui_find "[title^=lab]" = Some [5%nat]
  ∧ ui_find "label, panel" = Some [5%nat]
  ∧ ui_match "toolbar button" 4 = Some true
  ∧ ui_match "toolbar button" 6 = Some false.
Proof. vm_compute. repeat split. Qed.

(** The compounds "toolbar" and "button" and the control 4 of the table. *)
Definition toolbar_button : list (list (filters_of (test_fn (ctrl:=nat)))) :=
  @closures nat (table_controls ui) (init (js "toolbar button")).

Lemma toolbar_button_eq : toolbar_button = [[
  MkFilters [λ item _ _, Some (str_eqb (js "toolbar") (js "*") || str_eqb (u_type (u_row ui item)) (js "toolbar"))] false false;
  MkFilters [λ item _ _, Some (str_eqb (js "button") (js "*") || str_eqb (u_type (u_row ui item)) (js "button"))] false false]].
Proof.
  unfold toolbar_button. assert (init (js "toolbar button") =
    [[MkFilters [FName (js "toolbar")] false false; MkFilters [FName (js "button")] false false]]) as -> by by vm_compute.
  reflexivity.
Qed.

Lemma toolbar_button_tests x : Forall (tests_above (H := table_controls ui) x) toolbar_button.
Proof. rewrite toolbar_button_eq. repeat constructor; intros y _; unfold accepts; cbn; by case_match. Qed.

(** A selector with a pseudo class, and one that returns. *)
Lemma match_ok_witness :
  (@match_ nat (table_controls ui) 4%nat toolbar_button ≠ None
   ∧ Exists (λ sel, @matches nat (table_controls ui) sel 4%nat) toolbar_button)
  ∧ Exists (λ sel, @matches nat (table_controls ui) sel 5%nat) (@closures nat (table_controls ui) (init (js "toolbar :last"))).
Proof.
  pose proof (table_control_laws ui ui_ok) as L. split; [split|].
  - apply (@match_ok nat (table_controls ui) L toolbar_button 4%nat); [|apply toolbar_button_tests].
    rewrite toolbar_button_eq. by repeat constructor.
  - apply (@match_ok nat (table_controls ui) L toolbar_button 4%nat) with (b := true); [|by vm_compute|done].
    rewrite toolbar_button_eq. by repeat constructor.
  - apply (@match_ok nat (table_controls ui) L (@closures nat (table_controls ui) (init (js "toolbar :last"))) 5%nat) with (b := true);
      [|by vm_compute|done].
    assert (init (js "toolbar :last") = [[MkFilters [FName (js "toolbar")] false false; MkFilters [FPsuedo (js "last")] true false]]) as ->
      by by vm_compute.
    by repeat constructor.
Defined.

Lemma toolbar_button_quiet : Forall (λ sel, sel ≠ [] ∧ Forall (quiet (H := table_controls ui)) sel) toolbar_button.
Proof.
  rewrite toolbar_button_eq. repeat constructor; try done; intros y p i len _; cbn; by case_match.
Qed.

Lemma find_ok_witness : ∃ r, @find_ nat (table_controls ui) toolbar_button 0%nat = Some r ∧ r = [4; 4]%nat.
Proof.
  pose proof (table_control_laws ui ui_ok) as L.
  destruct (@find_ok nat (table_controls ui) L toolbar_button 0%nat toolbar_button_quiet) as (r & E & _).
  exists r. split; [exact E|]. vm_compute in E. by injection E as <-.
Defined.

Lemma find_matches_witness : @match_ nat (table_controls ui) 4%nat toolbar_button = Some true.
Proof.
  pose proof (table_control_laws ui ui_ok) as L.
  apply (@find_matches nat (table_controls ui) L toolbar_button 0%nat [4; 4]%nat 4%nat toolbar_button_quiet).
  - rewrite toolbar_button_eq. by repeat constructor.
  - apply toolbar_button_tests.
  - by vm_compute.
  - left.
Defined.

(** ** Selectors that do not mean what the comment says *)

(** Two equal compounds match one control: after a match the search goes on at the same control, not at
    its parent. *)
Theorem match_same_twice : ui_match "panel panel" 0 = Some true ∧ parent (Controls := table_controls ui) 0%nat = None.
Proof. split; by vm_compute. Qed.

(** A pseudo class is looked up among the siblings of the control: where the search for a compound
    with one reaches a control without a parent, [match] throws. *)
Example match_psuedo_throws : ui_match "label:first button" 1 = None.
Proof. by vm_compute. Qed.

(** [match] does not look at the sign [>]. *)
Theorem match_ignores_direct : ui_match "panel > button" 4 = Some true.
Proof. by vm_compute. Qed.

(** With the sign [>], [find] stops at the first sibling that does not match: the label
    after the button in the inner tool bar is missed. *)
Theorem find_direct_stops : ui_find "toolbar > label" = Some []
  ∧ ui_find "toolbar label" = Some [5; 5]%nat ∧ parent (Controls := table_controls ui) 5%nat = Some 3%nat.
Proof. vm_compute. repeat split. Qed.

(** With one selector a control is returned once for each way to reach it. *)
Theorem find_twice : ui_find "toolbar button" = Some [4; 4]%nat.
Proof. by vm_compute. Qed.

(** With several selectors the controls come in the reverse of the order in which they were found. *)
Theorem find_reversed : ui_find "button, toolbar" = Some [6; 4; 1; 3; 2]%nat.
Proof. by vm_compute. Qed.

(** The documented form [element[attr]] selects by the element alone. *)
Theorem attr_alone_ignored : ui_find "button[disabled]" = ui_find "button".
Proof. by vm_compute. Qed.
