(* ===== verification/I18n.v ===== *)
(** * classes/util/I18n.js

    The table of translations, and [translate] with its numbered tokens. *)

From S2P Require Import Prelude Regexp.

(** ** State *)
Record i18n := MkI18n { rtl : bool; data : Obj.t jstr }.
Definition init : i18n := MkI18n false [].

(** [add(code, items)]: the language code is not looked at. *)
Definition add (items : Obj.t jstr) (w : i18n) : i18n :=
  let d := fold_left (λ d p, Obj.set p.1 p.2 d) items (data w) in
  MkI18n (rtl w || bool_decide (Obj.get (js "_dir") d = Some (js "rtl"))) d.

(** ** translate *)
Inductive arg :=
  | AUndefined
  | AText (s : jstr)
  | ARaw (raw : jstr)                              (** an object with the member [raw] *)
  | AArray (text : jstr) (values : list jstr).     (** the text and the values, as texts *)

(** The answer: undefined, a text, or the member of that inherited name; an object or array without a text
    of its own comes back as it is. *)
Inductive answer := Undefined | Answer (s : jstr) | Inherited (name : jstr) | Itself (a : arg).

(** [data[text] || text] *)
Definition look_up (w : i18n) (text : jstr) : answer :=
  match Obj.get text (data w) with
  | Some (c :: s) => Answer (c :: s)
  | Some [] => Answer text
  | None => if Obj.is_proto text then Inherited text else Answer text
  end.

(** [/\{([^\}]+)\}/g] *)
Definition tokenRegExp : re :=
  RSeq (RChar 123) (RSeq (RGroup 1 (RPlus (RSet (λ c, negb (c =? 125))))) (RChar 125)).

(** [values[match2]] as a text: an element, the length, or a member every array inherits, which is
    the language's ([array_member]). *)
Section Translate.
Context (array_member : jstr -> option jstr).

Definition value_of (values : list jstr) (name : jstr) : jstr :=
  match parse_int 10 name with
  | Some i =>
      if (0 <=? i) && str_eqb (num_to_string 10 i) name then default (js "undefined") (values !! Z.to_nat i)
      else default (js "undefined") (array_member name)
  | None => if str_eqb name (js "length") then num_to_string 10 (Z.of_nat (length values))
            else default (js "undefined") (array_member name)
  end.

Definition fill (values : list jstr) (text : jstr) : jstr :=
  replace_all tokenRegExp (λ m, value_of values (default [] (group 1 m))) text.

(** [None]: an inherited member has no method replace. *)
Definition translate (w : i18n) (a : arg) : option answer :=
  match a with
  | AUndefined => Some Undefined
  | AText s => Some (look_up w s)
  | ARaw (c :: s) => Some (Answer (c :: s))
  | ARaw [] => Some (match Obj.get (js "[object Object]") (data w) with
                     | Some (c :: s) => Answer (c :: s)
                     | _ => Itself a
                     end)
  | AArray text values =>
      match look_up w text with
      | Answer t => Some (look_up w (fill values t))
      | _ => None
      end
  end.

(** ** What it returns *)

(** A text with tokens, taken apart. *)
Inductive piece := Lit (s : jstr) | Tok (i : nat).
Definition print_piece (p : piece) : jstr :=
  match p with Lit s => s | Tok i => 123 :: num_to_string 10 (Z.of_nat i) ++ [125] end.
Definition piece_value (values : list jstr) (p : piece) : jstr :=
  match p with Lit s => s | Tok i => default (js "undefined") (values !! i) end.
Definition print_pieces (ps : list piece) : jstr := concat (print_piece <$> ps).
Definition plain_piece (p : piece) : Prop := match p with Lit s => (123 : Z) ∉ s | Tok _ => True end.

Lemma num_units (n : Z) : 0 <= n → Forall (λ c, 48 <= c <= 57) (num_to_string 10 n).
Proof using Type.
  intros Hn. eapply Forall_impl; [apply (num_to_string_units 10); [lia|done]|].
  intros c (d & -> & Hd). unfold digit_unit. destruct (Z.ltb_spec d 10); lia.
Qed.

Lemma value_of_number (values : list jstr) (i : nat) :
  value_of values (num_to_string 10 (Z.of_nat i)) = default (js "undefined") (values !! i).
Proof using Type.
  unfold value_of. rewrite parse_num_to_string by lia. destruct (Z.leb_spec 0 (Z.of_nat i)); [|lia].
  unfold str_eqb. rewrite bool_decide_true by done. cbn [andb]. by rewrite Nat2Z.id.
Qed.

Lemma token_match (n : Z) t : 0 <= n →
  match_here tokenRegExp 0 (123 :: num_to_string 10 n ++ 125 :: t)
  = Some (MR 0 (123 :: num_to_string 10 n ++ [125]) t [(1%nat, num_to_string 10 n)]).
Proof using Type.
  intros Hn. destruct (num_to_string_cons 10 ltac:(lia) n Hn) as (d & s & E & _).
  assert (reads tokenRegExp ([123] ++ num_to_string 10 n ++ [125]) t [] [(1%nat, num_to_string 10 n)]) as Hr.
  { eapply reads_seq; [apply reads_char|]. eapply reads_seq; [|apply reads_char].
    apply (reads_group 1 _ _ _ [] []). apply reads_plus; [by rewrite E| |done].
    apply forallb_forall. intros c Hc%list_elem_of_In. pose proof (num_units n Hn) as Hu. rewrite Forall_forall in Hu.
    specialize (Hu c Hc). cbn in Hu. destruct (Z.eqb_spec c 125); [lia|done]. }
  unfold match_here. specialize (Hr 0%nat Some _ eq_refl). rewrite <- !app_assoc in Hr. cbn [app] in Hr. rewrite Hr.
  cbn [pos rest caps]. rewrite Nat.sub_0_r, Nat.add_0_l. f_equal. f_equal.
  change (123 :: num_to_string 10 n ++ 125 :: t) with ([123] ++ num_to_string 10 n ++ [125] ++ t).
  rewrite !app_assoc. by rewrite take_app_length.
Qed.

Lemma fill_pieces (values : list jstr) ps : Forall plain_piece ps →
  fill values (print_pieces ps) = concat (piece_value values <$> ps).
Proof using Type.
  unfold fill. set (f := λ m : mres, _).
  assert (∀ m p, f (set_index p m) = f m) as Hf by done.
  assert (no_bol tokenRegExp = true) as Hb by done.
  induction 1 as [|p ps Hp _ IH]; [by rewrite replace_all_nil|].
  unfold print_pieces in *. cbn [fmap list_fmap concat]. destruct p as [s|i]; cbn [print_piece piece_value].
  - cbn in Hp. induction s as [|c s IHs]; cbn [app]; [done|]. apply not_elem_of_cons in Hp as [Hc Hs].
    rewrite (replace_all_skip _ _ Hb Hf); [by rewrite (IHs Hs)|].
    unfold match_here, tokenRegExp. rewrite refuses_seq; [done|]. apply refuses_char.
    unfold stops. by destruct (Z.eqb_spec 123 c).
  - rewrite <- app_comm_cons, <- app_assoc. cbn [app].
    rewrite (replace_all_step _ _ Hb Hf _ _ (token_match (Z.of_nat i) _ ltac:(lia))) by done.
    cbn [m_after]. rewrite IH. f_equal. unfold f. cbn. apply value_of_number.
Qed.

Lemma get_added (items d : Obj.t jstr) k : NoDup items.*1 →
  Obj.get k (fold_left (λ d p, Obj.set p.1 p.2 d) items d) = match Obj.get k items with Some v => Some v | None => Obj.get k d end.
Proof using Type.
  revert d. induction items as [|[k' v] items IH]; intros d; cbn [fold_left fmap list_fmap fst snd]; [done|].
  intros [Hk Hn]%NoDup_cons. rewrite IH by done. cbn [Obj.get]. unfold str_eqb. case_bool_decide as E; subst.
  - assert (Obj.get k' items = None) as -> by by apply Obj.get_None_keys. by rewrite Obj.get_set_eq.
  - destruct (Obj.get k items); [done|]. by rewrite Obj.get_set_ne.
Qed.

(** After [add], a text of the new items is translated to what they say (an empty translation counts as none), any
    other text as before. *)
Theorem add_translate items w text : NoDup items.*1 →
  translate (add items w) (AText text) =
    match Obj.get text items with
    | Some (c :: s) => Some (Answer (c :: s))
    | Some [] => Some (Answer text)
    | None => translate w (AText text)
    end.
Proof using Type.
  intros Hn. cbn [translate]. unfold look_up, add. cbn [data]. rewrite get_added by done.
  by destruct (Obj.get text items) as [[|c s]|].
Qed.

(** An array is translated by its text, and each token [{i}] of the result replaced by the i-th value; the
    text that makes is looked up once more. *)
Theorem translate_tokens w text values ps : Forall plain_piece ps →
  look_up w text = Answer (print_pieces ps) →
  translate w (AArray text values) = Some (look_up w (concat (piece_value values <$> ps))).
Proof using Type. intros Hp E. cbn [translate]. by rewrite E, fill_pieces. Qed.
End Translate.

Definition swedish : i18n := add [(js "Row {0} of {1}", js "Rad {0} av {1}"); (js "Cut", js "Klipp ut"); (js "Cut off", [])] init.

Lemma add_translate_witness : translate (λ _, None) swedish (AText (js "Cut")) = Some (Answer (js "Klipp ut")).
Proof.
  etransitivity; [apply add_translate|by vm_compute]. apply (bool_decide_unpack _). by vm_compute.
Defined.

Lemma translate_tokens_witness :
  translate (λ _, None) swedish (AArray (js "Row {0} of {1}") [js "2"; js "10"]) = Some (Answer (js "Rad 2 av 10")).
Proof.
  etransitivity; [apply (translate_tokens _ _ _ _ [Lit (js "Rad "); Tok 0; Lit (js " av "); Tok 1])|by vm_compute].
  - repeat constructor; apply (bool_decide_unpack _); by vm_compute.
  - by vm_compute.
Defined.

(** The name of an inherited member is not translated to itself: the member comes back. *)
Theorem translate_inherited : translate (λ _, None) swedish (AText (js "constructor")) = Some (Inherited (js "constructor")).
Proof. by vm_compute. Qed.

(** The filled text is taken for a text to translate: a value that completes it to a key is replaced. *)
Theorem translate_twice :
  translate (λ _, None) (add [(js "Cut", js "Klipp ut")] init) (AArray (js "{0}") [js "Cut"]) = Some (Answer (js "Klipp ut")).
Proof. by vm_compute. Qed.
