(* ===== verification/Shortcuts.v ===== *)
(** * classes/Shortcuts.js

    The keyboard shortcuts of an editor: the table [add] fills, and what the listener for key events does with it.
    The object of shortcuts has one entry per combination of keys; its names hold commas, so that the language
    keeps the entries in the order in which they came in and inherits none of them. *)

From S2P Require Import Prelude Tools.

(** ** State *)

(** What [charCodeAt] or the table of keys gives: undefined, not a number, a code, or a member every object inherits. *)
Inductive code := CUndefined | CNaN | CCode (n : Z) | CInherited (name : jstr).
#[export] Instance code_dec : EqDecision code.
Proof. solve_decision. Defined.

Section Shortcuts.
(** Functions, the objects they are called on, and the other values a command can be given. *)
Context {F O X : Type}.

Inductive value := VString (s : jstr) | VFalse | VNull | VOther (x : X).

(** The argument [cmdFunc]: the name of a command, an array, or a function. *)
Inductive callee := CmdName (cmd : jstr) | CmdArray (cmd : list value) | CmdFunction (f : F).

(** What a shortcut does: [editor.execCommand] with its arguments ([None] is undefined), or a function on its scope,
    where [None] is the editor. *)
Inductive call := ExecCommand (cmd ui v : option value) | CallFunction (f : F) (scope : option O).

Record shortcut := Shortcut {
  func : callee; scope : option O; desc : jstr; alt : bool; ctrl : bool; shift : bool; charCode : code; keyCode : code
}.

Definition set_alt (s : shortcut) := Shortcut (func s) (scope s) (desc s) true (ctrl s) (shift s) (charCode s) (keyCode s).
Definition set_ctrl (s : shortcut) := Shortcut (func s) (scope s) (desc s) (alt s) true (shift s) (charCode s) (keyCode s).
Definition set_shift (s : shortcut) := Shortcut (func s) (scope s) (desc s) (alt s) (ctrl s) true (charCode s) (keyCode s).
Definition set_codes (c k : code) (s : shortcut) := Shortcut (func s) (scope s) (desc s) (alt s) (ctrl s) (shift s) c k.

(** [editor.translate], and the text of an inherited member. *)
Context (translate : jstr -> jstr) (member_text : jstr -> jstr).

(** ** add *)
Definition keyCodeLookup : Obj.t Z := [(js "f9", 120); (js "f10", 121); (js "f11", 122)].

(** [s.charCodeAt(0)] *)
Definition charCodeAt0 (s : jstr) : code := match s with c :: _ => CCode c | [] => CNaN end.

(** [keyCodeLookup[value] || value.toUpperCase().charCodeAt(0)] *)
Definition key_of (value : jstr) : code :=
  match Obj.get value keyCodeLookup with
  | Some n => CCode n
  | None => if Obj.is_proto value then CInherited value else charCodeAt0 (to_upper value)
  end.

Definition part (value : jstr) (s : shortcut) : shortcut :=
  if str_eqb value (js "alt") then set_alt s
  else if str_eqb value (js "ctrl") then set_ctrl s
  else if str_eqb value (js "shift") then set_shift s
  else set_codes (charCodeAt0 value) (key_of value) s.

Definition shortcut_of (f : callee) (sc : option O) (d : jstr) (pattern : jstr) : shortcut :=
  (each (explode pattern 43) (λ value _ s, (part value s, false))
     (Shortcut f sc (translate d) false false false CUndefined CUndefined)).1.

Definition code_text (c : code) : jstr :=
  match c with
  | CUndefined => js "undefined" | CNaN => js "NaN" | CCode n => num_to_string 10 n | CInherited name => member_text name
  end.

(** The combination of keys a shortcut is for, and the name of its entry. *)
Definition combination : Type := bool * bool * bool * code.
Definition combination_of (s : shortcut) : combination := (ctrl s, alt s, shift s, keyCode s).
Definition entry_name (k : combination) : jstr :=
  let '(c, a, sh, n) := k in
  (if c : bool then js "ctrl" else []) ++ 44 :: (if a : bool then js "alt" else []) ++ 44 :: (if sh : bool then js "shift" else []) ++ 44 :: code_text n.

Definition add (pattern d : jstr) (cmdFunc : callee) (sc : option O) (shortcuts : Obj.t shortcut) : Obj.t shortcut :=
  (each (explode (to_lower pattern) 44)
     (λ pattern _ m, let s := shortcut_of cmdFunc sc d pattern in (Obj.set (entry_name (combination_of s)) s m, false)) shortcuts).1.

(** ** The listener *)
Record key_event := KeyEvent {
  type : jstr; altKey : bool; ctrlKey : bool; shiftKey : bool; metaKey : bool; ev_keyCode : Z; ev_charCode : Z
}.

Definition call_of (s : shortcut) : call :=
  match func s with
  | CmdName cmd => ExecCommand (Some (VString cmd)) (Some VFalse) (Some VNull)
  | CmdArray a => ExecCommand (a !! 0%nat) (a !! 1%nat) (a !! 2%nat)
  | CmdFunction f => CallFunction f (scope s)
  end.

(** [e.keyCode == shortcut.keyCode]: no number equals undefined, not a number or the text of a function. *)
Definition same_code (n : Z) (c : code) : bool := bool_decide (c = CCode n).

Definition matches (mac : bool) (e : key_event) (s : shortcut) : bool :=
  eqb (ctrl s) (if mac then metaKey e else ctrlKey e) && eqb (alt s) (altKey e) && eqb (shift s) (shiftKey e)
  && (same_code (ev_keyCode e) (keyCode s) || (negb (ev_charCode e =? 0) && same_code (ev_charCode e) (charCode s))).

(** The calls in order, and whether the default was prevented. *)
Definition listener (mac : bool) (shortcuts : Obj.t shortcut) (e : key_event) : list call * bool :=
  if altKey e || ctrlKey e || metaKey e then
    (each shortcuts
       (λ p _ '(calls, prevented),
          if matches mac e p.2
          then ((if str_eqb (type e) (js "keydown") then calls ++ [call_of p.2] else calls, true), false)
          else ((calls, prevented), false)) ([], false)).1
  else ([], false).
(** ** Pressing a combination *)

(** The shortcuts added so far, one for each pattern. *)
Definition added : Type := jstr * jstr * callee * option O.
Definition add_all (l : list added) : Obj.t shortcut := fold_left (λ m '(pattern, d, f, sc), add pattern d f sc m) l [].

(** The combination a pattern asks for: ctrl, alt and shift when they are
    among its parts, wherever, and the key of the last part that is none of them. *)
Definition modifiers : list jstr := [js "alt"; js "ctrl"; js "shift"].
Definition asks_for (pattern : jstr) : combination :=
  let parts := explode pattern 43 in
  (bool_decide (js "ctrl" ∈ parts), bool_decide (js "alt" ∈ parts), bool_decide (js "shift" ∈ parts),
   match last (base.filter (.∉ modifiers) parts) with Some key => key_of key | None => CUndefined end).

(** What it is to run. *)
Definition runs (f : callee) (sc : option O) : call :=
  match f with
  | CmdName cmd => ExecCommand (Some (VString cmd)) (Some VFalse) (Some VNull)
  | CmdArray a => ExecCommand (a !! 0%nat) (a !! 1%nat) (a !! 2%nat)
  | CmdFunction f => CallFunction f sc
  end.

Definition entries_of (a : added) : list (combination * call) :=
  let '(pattern, d, f, sc) := a in (λ p, (asks_for p, runs f sc)) <$> explode (to_lower pattern) 44.
Definition entries (l : list added) : list (combination * call) := concat (entries_of <$> l).

(** A combination on the keyboard: ctrl, the command key, alt, shift and the
    key. On a Mac the command key stands for the ctrl of a pattern, and no pattern asks for the other one. *)
Definition keyboard : Type := bool * bool * bool * bool * code.
Definition on_keyboard (mac : bool) (k : combination) : keyboard :=
  let '(c, a, sh, n) := k in if mac then (false, c, a, sh, n) else (c, false, a, sh, n).
Definition keys_down (e : key_event) : keyboard := (ctrlKey e, metaKey e, altKey e, shiftKey e, CCode (ev_keyCode e)).
Definition other_key (mac : bool) (e : key_event) : bool := if mac then ctrlKey e else metaKey e.

(** What was added last for a combination on the keyboard. *)
Definition for_keys (mac : bool) (k : keyboard) (fl : list (combination * call)) : option call :=
  snd <$> last (base.filter (λ x, on_keyboard mac x.1 = k) fl).

(** What the listener compares. *)
Definition pressed (mac : bool) (e : key_event) : combination :=
  (if mac then metaKey e else ctrlKey e, altKey e, shiftKey e, CCode (ev_keyCode e)).

(** The parts of a pattern, one after the other, make the combination it asks
    for. *)
Lemma part_all ps : ∀ s, let s' := fold_left (λ s v, part v s) ps s in
  ctrl s' = ctrl s || bool_decide (js "ctrl" ∈ ps)
  ∧ alt s' = alt s || bool_decide (js "alt" ∈ ps)
  ∧ shift s' = shift s || bool_decide (js "shift" ∈ ps)
  ∧ keyCode s' = match last (base.filter (.∉ modifiers) ps) with Some key => key_of key | None => keyCode s end
  ∧ func s' = func s ∧ scope s' = scope s.
Proof using Type.
  clear translate member_text. induction ps as [|v ps IH] using rev_ind; intros s; cbn zeta; [by rewrite !orb_false_r|].
  destruct (IH s) as (E1 & E2 & E3 & E4 & E5 & E6). rewrite fold_left_app. cbn [fold_left].
  set (s' := fold_left _ ps s) in *. rewrite filter_app, filter_cons, filter_nil.
  assert (∀ m : jstr, bool_decide (m ∈ ps ++ [v]) = bool_decide (m ∈ ps) || bool_decide (v = m)) as Hin.
  { intros m. rewrite <- bool_decide_or. apply bool_decide_ext. rewrite elem_of_app, list_elem_of_singleton. naive_solver. }
  rewrite !Hin, !orb_assoc, <- E1, <- E2, <- E3. unfold part, str_eqb.
  destruct (decide (v = js "alt")) as [->|Ha]; [|destruct (decide (v = js "ctrl")) as [->|Hc];
    [|destruct (decide (v = js "shift")) as [->|Hs]]].
  1-3: rewrite decide_False by (unfold modifiers; set_solver); rewrite app_nil_r, <- E4;
    cbn; rewrite ?orb_false_r, ?orb_true_r; by split_and!.
  rewrite !bool_decide_false by done. rewrite decide_True by (unfold modifiers; set_solver). rewrite last_snoc.
  cbn. rewrite !orb_false_r. by split_and!.
Qed.

Lemma shortcut_asks f sc d p : combination_of (shortcut_of f sc d p) = asks_for p ∧ call_of (shortcut_of f sc d p) = runs f sc.
Proof using translate.
  unfold shortcut_of, combination_of, asks_for, call_of. rewrite each_fold. cbn [fst].
  destruct (part_all (explode p 43) (Shortcut f sc (translate d) false false false CUndefined CUndefined)) as (E1 & E2 & E3 & E4 & E5 & E6).
  rewrite E1, E2, E3, E4, E5, E6. by destruct f.
Qed.

(** The text of an inherited member is that of a function or object, no number. *)
Context (member_text_ok : ∀ name n, member_text name ≠ num_to_string 10 n).

Lemma num_to_string_inj n m : num_to_string 10 n = num_to_string 10 m → n = m.
Proof using Type.
  assert (∀ i, i < 0 → num_to_string 10 i = [48 + i]) as Hneg.
  { intros i Hi. unfold num_to_string. rewrite Z.log2_nonpos by lia. cbn. destruct (Z.ltb_spec i 10); [|lia]. cbn. unfold digit_unit.
    by destruct (Z.ltb_spec i 10); [|lia]. }
  assert (∀ i j, i < 0 → 0 <= j → num_to_string 10 i ≠ num_to_string 10 j) as Hmix.
  { intros i j Hi Hj E. rewrite (Hneg i Hi) in E. destruct (num_to_string_cons 10 ltac:(lia) j Hj) as (d & s & E' & Hd).
    rewrite E' in E. injection E as E _. unfold digit_unit in E. destruct (Z.ltb_spec d 10); lia. }
  intros E. destruct (Z.le_gt_cases 0 n), (Z.le_gt_cases 0 m).
  - apply (f_equal (parse_int 10)) in E. rewrite !parse_num_to_string in E by lia. by injection E.
  - by destruct (Hmix m n).
  - by destruct (Hmix n m).
  - rewrite !Hneg in E by done. injection E. lia.
Qed.

Lemma num_text_digit n c s : num_to_string 10 n = c :: s → c < 58.
Proof using Type.
  intros E. destruct (Z.le_gt_cases 0 n) as [Hn|Hn].
  - destruct (num_to_string_cons 10 ltac:(lia) n Hn) as (d & s' & E' & Hd). rewrite E' in E. injection E as <- _.
    unfold digit_unit. destruct (Z.ltb_spec d 10); lia.
  - unfold num_to_string in E. rewrite Z.log2_nonpos in E by lia. cbn in E. destruct (Z.ltb_spec n 10); [|lia]. cbn in E.
    unfold digit_unit in E. destruct (Z.ltb_spec n 10); [|lia]. injection E as <- _. lia.
Qed.

Lemma code_text_inj c n : code_text c = code_text (CCode n) → c = CCode n.
Proof using member_text_ok.
  destruct c; cbn [code_text]; intros E.
  - symmetry in E. apply num_text_digit in E. by vm_compute in E.
  - symmetry in E. apply num_text_digit in E. by vm_compute in E.
  - f_equal. by apply num_to_string_inj.
  - by apply member_text_ok in E.
Qed.

Lemma comma_inj (x y r r' : jstr) : 44 ∉ x → 44 ∉ y → x ++ 44 :: r = y ++ 44 :: r' → x = y ∧ r = r'.
Proof using Type.
  revert y. induction x as [|a x IH]; intros [|b y] Hx Hy E; cbn in E.
  - by injection E as ->.
  - injection E as <- _. destruct Hy. by left.
  - injection E as -> _. destruct Hx. by left.
  - injection E as -> E. apply not_elem_of_cons in Hx as [_ Hx], Hy as [_ Hy]. by destruct (IH y Hx Hy E) as [-> ->].
Qed.

(** No two combinations with a key have one entry. *)
Lemma entry_name_inj k c a sh n : entry_name k = entry_name (c, a, sh, CCode n) → k = (c, a, sh, CCode n).
Proof using member_text_ok.
  destruct k as [[[c' a'] sh'] n']. unfold entry_name. intros E.
  assert (∀ (b : bool) s, (s = js "ctrl" ∨ s = js "alt" ∨ s = js "shift") → 44 ∉ (if b then s else [])) as Hs.
  { intros [] s Hs; [|apply not_elem_of_nil]. rewrite list_elem_of_In. destruct Hs as [->|[->| ->]]; cbn; lia. }
  apply comma_inj in E as [Ec E]; [|apply Hs; tauto..]. apply comma_inj in E as [Ea E]; [|apply Hs; tauto..].
  apply comma_inj in E as [Es E]; [|apply Hs; tauto..]. apply code_text_inj in E as ->.
  by destruct c, c', a, a', sh, sh'.
Qed.

(** *** The table *)
Definition last_of (k : combination) (fl : list (combination * call)) : option (combination * call) := last (base.filter (λ x, x.1 = k) fl).

Record table_of (fl : list (combination * call)) (m : Obj.t shortcut) : Prop := {
  tb_once : NoDup (Obj.keys m);
  tb_name k s : (k, s) ∈ m → k = entry_name (combination_of s);
  tb_last c a sh n : let k := (c, a, sh, CCode n) in
    last_of k fl = (λ s, (k, call_of s)) <$> Obj.get (entry_name k) m
}.

Lemma set_elem k v (m : Obj.t shortcut) k' v' : (k', v') ∈ Obj.set k v m → (k', v') = (k, v) ∨ (k', v') ∈ m.
Proof using Type.
  induction m as [|[k1 v1] m IH]; cbn [Obj.set]; [intros ?%list_elem_of_singleton; by left|].
  destruct (str_eqb k k1); intros [E|Hin]%elem_of_cons.
  - by left.
  - right. by right.
  - right. rewrite E. by left.
  - destruct (IH Hin) as [|]; [by left|right; by right].
Qed.

Lemma table_add fl m s : table_of fl m → table_of (fl ++ [(combination_of s, call_of s)]) (Obj.set (entry_name (combination_of s)) s m).
Proof using member_text_ok.
  intros [Hnd Hn Hl]. constructor.
  - by apply Obj.keys_NoDup_set.
  - intros k s' [[= -> ->]|Hin]%set_elem; [done|by apply Hn].
  - intros c a sh n k. unfold last_of. rewrite filter_app, Obj.get_set. destruct (decide (combination_of s = k)) as [E|E].
    + rewrite E, decide_True, filter_cons_True by done. rewrite filter_nil, last_snoc. done.
    + rewrite decide_False by (intros E'%entry_name_inj; done). rewrite filter_cons_False, filter_nil, app_nil_r by done. apply Hl.
Qed.

Lemma table_all l : ∀ fl m, table_of fl m → table_of (fl ++ entries l) (fold_left (λ m '(pattern, d, f, sc), add pattern d f sc m) l m).
Proof using member_text_ok.
  induction l as [|[[[pattern d] f] sc] l IH]; intros fl m Hm; cbn [fold_left entries fmap list_fmap concat]; [by rewrite app_nil_r|].
  rewrite app_assoc. apply IH. unfold add, entries_of. rewrite each_fold. cbn [fst].
  generalize (explode (to_lower pattern) 44). intros ps. revert fl m Hm. induction ps as [|p ps IHp]; intros fl m Hm; [by rewrite app_nil_r|].
  cbn [fmap list_fmap fold_left]. change (?x :: ?y) with ([x] ++ y). rewrite app_assoc. apply IHp. destruct (shortcut_asks f sc d p) as [<- <-]. by apply table_add.
Qed.

Lemma add_all_table l : table_of (entries l) (add_all l).
Proof using member_text_ok. apply (table_all l [] []). constructor; [constructor|by intros ? ? ?%elem_of_nil|done]. Qed.

(** *** The listener *)
Lemma listener_fold mac e m : type e = js "keydown" → ∀ calls p,
  (each m (λ p _ '(calls, prevented),
     if matches mac e p.2 then ((if str_eqb (type e) (js "keydown") then calls ++ [call_of p.2] else calls, true), false)
     else ((calls, prevented), false)) (calls, p)).1
  = let hit := base.filter (λ x : jstr * shortcut, matches mac e x.2 = true) m in
    (calls ++ (call_of <$> hit.*2), p || negb (bool_decide (hit = []))).
Proof using Type.
  intros Ht. assert (str_eqb (type e) (js "keydown") = true) as -> by by apply str_eqb_true.
  unfold each. generalize 0%nat. induction m as [|[k s] m IH]; intros n calls p; cbn [each_from].
  - rewrite filter_nil. cbn. by rewrite app_nil_r, orb_false_r.
  - rewrite filter_cons. cbn [snd]. destruct (matches mac e s); [rewrite decide_True by done|rewrite decide_False by done; apply IH].
    rewrite IH. cbn. rewrite <- app_assoc. by destruct p.
Qed.

Lemma entry_unique (m : Obj.t shortcut) k : NoDup (Obj.keys m) →
  base.filter (λ x : jstr * shortcut, x.1 = k) m = match Obj.get k m with Some s => [(k, s)] | None => [] end.
Proof using Type.
  induction m as [|[k' s] m IH]; [done|]. rewrite filter_cons. unfold Obj.keys. cbn [Obj.get fmap list_fmap fst]. rewrite NoDup_cons. intros [Hn Hnd]. unfold str_eqb.
  destruct (decide (k' = k)) as [->|Hne].
  - rewrite bool_decide_true by done. rewrite (IH Hnd). apply Obj.get_None_keys in Hn. by rewrite Hn.
  - rewrite bool_decide_false by congruence. by apply IH.
Qed.

Lemma matches_pressed mac e s : ev_charCode e = 0 → matches mac e s = true ↔ combination_of s = pressed mac e.
Proof using Type.
  intros Hc. unfold matches, same_code, combination_of, pressed. rewrite Hc. cbn. rewrite orb_false_r, !andb_true_iff, !eqb_true_iff, bool_decide_eq_true.
  split; [by intros [[[-> ->] ->] ->]|]. by intros [= -> -> -> ->].
Qed.

Lemma on_keyboard_pressed mac k e : other_key mac e = false → on_keyboard mac k = keys_down e ↔ k = pressed mac e.
Proof using Type. destruct k as [[[c a] sh] n], mac; unfold other_key, keys_down, pressed; cbn; intros ->; naive_solver. Qed.

Lemma for_keys_pressed mac e fl : other_key mac e = false → for_keys mac (keys_down e) fl = snd <$> last_of (pressed mac e) fl.
Proof using Type.
  intros Ho. unfold for_keys, last_of. do 2 f_equal. apply list_filter_iff. intros x. by apply on_keyboard_pressed.
Qed.

(** C22: A key pressed (a keydown event, without a character code) together with ctrl (on a Mac the command key), alt or both, and with or without shift, runs what was
    added last for exactly that combination, once, and prevents the default; nothing is run where nothing was added
    for it. The other one of ctrl and the command key is up, which the code does not check. A pattern asks for ctrl,
    alt and shift when they are among its parts, in any order and case, and for the key of its last other part. *)
Theorem listener_ok mac l e : type e = js "keydown" → ev_charCode e = 0 → other_key mac e = false →
  listener mac (add_all l) e
  = if altKey e || ctrlKey e || metaKey e then
      match for_keys mac (keys_down e) (entries l) with Some x => ([x], true) | None => ([], false) end
    else ([], false).
Proof using member_text_ok.
  intros Ht Hc Ho. rewrite (for_keys_pressed mac e _ Ho). unfold listener. destruct (altKey e || ctrlKey e || metaKey e); [|done].
  destruct (add_all_table l) as [Hnd Hn Hl]. rewrite (listener_fold mac e (add_all l) Ht [] false). cbn zeta.
  assert (base.filter (λ x : jstr * shortcut, matches mac e x.2 = true) (add_all l) =
    base.filter (λ x : jstr * shortcut, x.1 = entry_name (pressed mac e)) (add_all l)) as ->.
  { generalize (add_all l) Hn. clear Hl Hnd Hn. intros m. induction m as [|[k s] m IH]; intros Hn; [done|]. rewrite !filter_cons. cbn [fst snd].
    rewrite IH by (intros k' s' Hin; apply Hn; by right). pose proof (Hn k s ltac:(by left)) as Ek.
    assert (matches mac e s = true ↔ k = entry_name (pressed mac e)) as Hiff.
    { rewrite (matches_pressed mac e s Hc), Ek. split; [by intros ->|]. apply entry_name_inj. }
    destruct (decide (matches mac e s = true)) as [Hm|Hm], (decide (k = entry_name (pressed mac e))) as [Hk|Hk]; [done| | |done].
    - destruct Hk. by apply Hiff.
    - destruct Hm. by apply Hiff. }
  rewrite (entry_unique _ _ Hnd). unfold pressed. rewrite Hl. by destruct (Obj.get _ _).
Qed.
End Shortcuts.

(** ** Examples *)

(** A function of the language in its source text. *)
Definition native_text (name : jstr) : jstr := js "function " ++ name ++ js "() { [native code] }".

Lemma native_text_ok name n : native_text name ≠ num_to_string 10 n.
Proof.
  intros E. symmetry in E. pose proof E as E'. apply num_text_digit in E'. by vm_compute in E'.
Qed.
Opaque native_text.

(** [Ctrl+B], then the same keys in another order and another case with another function; pressed with shift, and without. *)
Definition bold_twice : list (@added nat nat nat) :=
  [(js "Ctrl+B, ctrl+shift+1", js "Bold", CmdName (js "Bold"), None); (js "shift+a+ctrl,  B+ctrl", js "Other", CmdFunction 7%nat, Some 3%nat)].
Definition ctrl_b (shift : bool) : key_event := KeyEvent (js "keydown") false true shift false 66 0.

Lemma listener_ok_witness :
  listener false (add_all (λ s, s) native_text bold_twice) (ctrl_b false) = ([CallFunction 7%nat (Some 3%nat)], true)
  ∧ listener false (add_all (λ s, s) native_text bold_twice) (ctrl_b true) = ([], false).
Proof.
  split; (etransitivity; [apply (@listener_ok nat nat nat (λ s, s) native_text native_text_ok); reflexivity|by vm_compute]).
Defined.

(** A shortcut without ctrl, alt or the command key can be added, and its key runs nothing. *)
Example plain_key_never : listener false (add_all (λ s, s) native_text [(js "f9", js "Help", @CmdFunction nat nat 7%nat, @None nat)])
    (KeyEvent (js "keydown") false false false false 120 0) = ([], false)
  ∧ listener false (add_all (λ s, s) native_text [(js "f9", js "Help", @CmdFunction nat nat 7%nat, @None nat)])
    (KeyEvent (js "keydown") false false false true 120 0) = ([CallFunction 7%nat None], true).
Proof. by vm_compute. Qed.

(** The key code of F9 is the character code of "x": with ctrl down, the character is taken for the key. *)
Example x_taken_for_f9 : (listener false (add_all (λ s, s) native_text [(js "ctrl+f9", js "Help", @CmdFunction nat nat 7%nat, @None nat)])
    (KeyEvent (js "keypress") false true false false 120 120)).2 = true.
Proof. by vm_compute. Qed.
