(* ===== verification/Commands.v ===== *)
(** * Commands: classes/EditorCommands.js and execCommand, queryCommandState and queryCommandValue of classes/Editor.js

    The tables of commands and the order in which a command is offered to those who can carry it out.  A callback is
    named by a key and may change everything, the tables too; what it does is a parameter, like the events, the browser's
    own commands and the members every object inherits. *)

From S2P Require Import Prelude Tools.

(** ** Values *)
Section Commands.
Context {X C W : Type}.

Inductive value := VTrue | VFalse | VUndefined | VNull | VNumber (n : Z) | VOther (x : X).
#[export] Instance value_dec `{EqDecision X} : EqDecision value.
Proof. solve_decision. Defined.

Context `{EqDecision X} (truthy_other : X -> bool).
Definition truthy_value (v : value) : bool :=
  match v with VTrue => true | VFalse | VUndefined | VNull => false | VNumber n => negb (n =? 0) | VOther x => truthy_other x end.

(** ** State *)

(** [commands] of EditorCommands; the tables of an Editor, its plug-ins in order, each with its execCommand if it has
    one, and its theme likewise. *)
Inductive command_type := Exec | State | Value.
Record tables := Tables {
  exec : Obj.t C; state : Obj.t C; value_of : Obj.t C;
  execCommands : Obj.t C; queryStateCommands : Obj.t C; queryValueCommands : Obj.t C;
  plugins : list (option C); theme : option C
}.
Abbreviation St := (tables * W)%type.

(** What the editor and the browser do: callbacks with their arguments, [focus], [fire] with the answer of
    isDefaultPrevented, [_isHidden], the commands of the document. *)
Record host := Host {
  call : C -> list value -> SE St value;
  inherited : jstr -> list value -> SE St value;
  of_string : jstr -> value;
  focus : SE St unit;
  fire : jstr -> jstr -> value -> value -> SE St bool;
  isHidden : SE St bool;
  doc_execCommand : jstr -> value -> value -> SE St unit;
  doc_queryCommandState : jstr -> SE St value;
  doc_queryCommandValue : jstr -> SE St value
}.

(** ** EditorCommands.js *)
Definition table (ty : command_type) (t : tables) : Obj.t C :=
  match ty with Exec => exec t | State => state t | Value => value_of t end.
Definition set_table (ty : command_type) (f : Obj.t C -> Obj.t C) (t : tables) : tables :=
  match ty with
  | Exec => Tables (f (exec t)) (state t) (value_of t) (execCommands t) (queryStateCommands t) (queryValueCommands t) (plugins t) (theme t)
  | State => Tables (exec t) (f (state t)) (value_of t) (execCommands t) (queryStateCommands t) (queryValueCommands t) (plugins t) (theme t)
  | Value => Tables (exec t) (state t) (f (value_of t)) (execCommands t) (queryStateCommands t) (queryValueCommands t) (plugins t) (theme t)
  end.

(** [addCommands(command_list, type)]: the names of a callback are separated by commas. *)
Definition addCommands (command_list : Obj.t C) (ty : command_type) (t : tables) : tables :=
  (each command_list (λ p _ t, ((each (split_unit 44 (to_lower p.1)) (λ command _ t, (set_table ty (Obj.set command p.2) t, false)) t).1, false)) t).1.

Section Run.
Context (h : host).

(** The entry of a command, called, or nothing when there is none. *)
Definition call_entry (ty : command_type) (command : jstr) (args : list value) : SE St (option value) :=
  f ← gets (λ s : St, Obj.get command (table ty s.1));
  match f with
  | Some f => v ← call h f args; mret (Some v)
  | None => if Obj.is_proto command then v ← inherited h command args; mret (Some v) else mret None
  end.

Definition execCommand_ (command : jstr) (ui v : value) : SE St bool :=
  let command := to_lower command in
  r ← call_entry Exec command [of_string h command; ui; v];
  mret (match r with Some _ => true | None => false end).

Definition queryCommandState_ (command : jstr) : SE St value :=
  let command := to_lower command in
  r ← call_entry State command [of_string h command];
  mret (default (VNumber (-1)) r).

Definition queryCommandValue_ (command : jstr) : SE St value :=
  let command := to_lower command in
  r ← call_entry Value command [of_string h command];
  mret (default VFalse r).

(** ** Editor.js *)

(** A registered callback: the members every object inherits have no [func], so that the call throws. *)
Definition registered (get : tables -> Obj.t C) (cmd : jstr) (args : list value) : SE St (option value) :=
  f ← gets (λ s : St, Obj.get cmd (get s.1));
  match f with
  | Some f => v ← call h f args; mret (Some v)
  | None => if Obj.is_proto cmd then throw else mret None
  end.

(** [each(self.plugins, ...)]: whether one of them took the command. *)
Fixpoint plugin_commands (ps : list (option C)) (cmd : jstr) (ui v : value) : SE St bool :=
  match ps with
  | [] => mret false
  | None :: ps => plugin_commands ps cmd ui v
  | Some p :: ps =>
      r ← call h p [of_string h cmd; ui; v];
      if truthy_value r then _ ← fire h (js "ExecCommand") cmd ui v; mret true
      else plugin_commands ps cmd ui v
  end.

(** [/^(mceAddUndoLevel|mceEndUndoLevel|mceBeginUndoLevel|mceRepaint)$/] *)
Definition keeps_focus (cmd : jstr) : bool :=
  bool_decide (cmd ∈ [js "mceAddUndoLevel"; js "mceEndUndoLevel"; js "mceBeginUndoLevel"; js "mceRepaint"]).

Definition execCommand (cmd : jstr) (ui v : value) (skip_focus : bool) : SE St value :=
  (if keeps_focus cmd || skip_focus then mret tt else focus h);;
  prevented ← fire h (js "BeforeExecCommand") cmd ui v;
  if prevented : bool then mret VFalse
  else
    r ← registered execCommands cmd [ui; v];
    if match r with Some r => negb (bool_decide (r = VTrue)) | None => false end then
      _ ← fire h (js "ExecCommand") cmd ui v; mret VTrue
    else
      ps ← gets (λ s : St, plugins s.1);
      done ← plugin_commands ps cmd ui v;
      if done : bool then mret VTrue
      else
        th ← gets (λ s : St, theme s.1);
        done ← match th with Some th => r ← call h th [of_string h cmd; ui; v]; mret (truthy_value r) | None => mret false end;
        if done : bool then _ ← fire h (js "ExecCommand") cmd ui v; mret VTrue
        else
          done ← execCommand_ cmd ui v;
          if done : bool then _ ← fire h (js "ExecCommand") cmd ui v; mret VTrue
          else
            doc_execCommand h cmd ui v;;
            _ ← fire h (js "ExecCommand") cmd ui v;
            mret VUndefined.

(** [try { ... } catch (ex) {}]: what was done before the exception is not undone, and not seen here. *)
Definition try_ (m : SE St value) : SE St value := λ s, match m s with Some r => Some r | None => Some (VUndefined, s) end.

Definition query (get : tables -> Obj.t C) (own : jstr -> SE St value) (none : value) (native : jstr -> SE St value) (cmd : jstr) : SE St value :=
  hidden ← isHidden h;
  if hidden : bool then mret VUndefined
  else
    r ← registered get cmd [];
    match r with
    | Some v => if bool_decide (v = VTrue) then
                  v ← own cmd; if bool_decide (v = none) then try_ (native cmd) else mret v
                else mret v
    | None => v ← own cmd; if bool_decide (v = none) then try_ (native cmd) else mret v
    end.

Definition queryCommandState (cmd : jstr) : SE St value :=
  query queryStateCommands queryCommandState_ (VNumber (-1)) (doc_queryCommandState h) cmd.
Definition queryCommandValue (cmd : jstr) : SE St value :=
  query queryValueCommands queryCommandValue_ VUndefined (doc_queryCommandValue h) cmd.
End Run.

Definition addCommand (name : jstr) (callback : C) (t : tables) : tables :=
  Tables (exec t) (state t) (value_of t) (Obj.set name callback (execCommands t)) (queryStateCommands t) (queryValueCommands t) (plugins t) (theme t).
Definition addQueryStateHandler (name : jstr) (callback : C) (t : tables) : tables :=
  Tables (exec t) (state t) (value_of t) (execCommands t) (Obj.set name callback (queryStateCommands t)) (queryValueCommands t) (plugins t) (theme t).
Definition addQueryValueHandler (name : jstr) (callback : C) (t : tables) : tables :=
  Tables (exec t) (state t) (value_of t) (execCommands t) (queryStateCommands t) (Obj.set name callback (queryValueCommands t)) (plugins t) (theme t).
(** ** Who carries a command out *)
Section Order.
Context (h : host) (cmd : jstr) (ui v : value).

(** Those a command is offered to answer whether they took it; the first to take it is the last to be asked. *)
Fixpoint first_to_take (offers : list (SE St bool)) : SE St bool :=
  match offers with
  | [] => mret false
  | m :: offers => taken ← m; if taken : bool then mret true else first_to_take offers
  end.

Definition offer_registered : SE St bool :=
  r ← registered h execCommands cmd [ui; v]; mret (match r with Some r => negb (bool_decide (r = VTrue)) | None => false end).
Definition offer_callback (c : option C) : SE St bool :=
  match c with Some c => r ← call h c [of_string h cmd; ui; v]; mret (truthy_value r) | None => mret false end.
Definition offer_plugins : SE St bool := ps ← gets (λ s : St, plugins s.1); first_to_take (offer_callback <$> ps).
Definition offer_theme : SE St bool := th ← gets (λ s : St, theme s.1); offer_callback th.
Definition offer_own : SE St bool := execCommand_ h cmd ui v.

Lemma bind_ext {A B} (m : SE St A) (f g : A -> SE St B) s : (∀ x s, f x s = g x s) → (m ≫= f) s = (m ≫= g) s.
Proof using Type. intros E. rewrite !SE_bind_unfold. destruct (m s) as [[x s']|]; [apply E|done]. Qed.

Lemma bind_of {A B} (m m' : SE St A) (f : A -> SE St B) s : m s = m' s → (m ≫= f) s = (m' ≫= f) s.
Proof using Type. intros E. by rewrite !SE_bind_unfold, E. Qed.

Lemma plugin_commands_ok ps s : plugin_commands h ps cmd ui v s
  = (taken ← first_to_take (offer_callback <$> ps); if taken : bool then _ ← fire h (js "ExecCommand") cmd ui v; mret true else mret false) s.
Proof using Type.
  revert s. induction ps as [|[p|] ps IH]; intros s; [done| |].
  - cbn [plugin_commands fmap list_fmap first_to_take offer_callback]. rewrite !SE_bind_assoc. apply bind_ext. intros r s'.
    rewrite SE_ret_bind. destruct (truthy_value r); [by rewrite SE_ret_bind|apply IH].
  - cbn [plugin_commands fmap list_fmap first_to_take offer_callback]. rewrite SE_bind_assoc, SE_ret_bind. apply IH.
Qed.

(** A command that is not prevented is offered to the callback registered for it, the plug-ins in order, the theme and the
    editor's own commands until one takes it, and goes to the browser where none does; then, in every case, the event
    ExecCommand is fired once. The answer is true where it was taken, undefined where the browser got it. *)
Lemma execCommand_ok skip_focus s :
  execCommand h cmd ui v skip_focus s
  = ((if keeps_focus cmd || skip_focus then mret tt else focus h);;
     prevented ← fire h (js "BeforeExecCommand") cmd ui v;
     if prevented : bool then mret VFalse
     else
       taken ← first_to_take [offer_registered; offer_plugins; offer_theme; offer_own];
       (if taken : bool then mret tt else doc_execCommand h cmd ui v);;
       _ ← fire h (js "ExecCommand") cmd ui v;
       mret (if taken : bool then VTrue else VUndefined)) s.
Proof using Type.
  unfold execCommand. apply bind_ext. intros [] s1. apply bind_ext. intros [] s2; [done|].
  cbn [first_to_take]. unfold offer_registered. rewrite !SE_bind_assoc. apply bind_ext. intros r s3. rewrite !SE_ret_bind.
  destruct (match r with Some r => _ | None => _ end); [done|].
  unfold offer_plugins. rewrite !SE_bind_assoc. apply bind_ext. intros ps s4.
  rewrite (bind_of _ _ _ _ (plugin_commands_ok ps s4)), !SE_bind_assoc. apply bind_ext. intros [] s5.
  { rewrite SE_bind_assoc, !SE_ret_bind. by apply bind_ext. }
  rewrite SE_ret_bind. cbn [first_to_take]. unfold offer_theme, offer_own. rewrite !SE_bind_assoc. apply bind_ext. intros th s6.
  apply bind_ext. intros [] s7; [done|]. rewrite SE_bind_assoc. by apply bind_ext; intros [].
Qed.
End Order.

(** A value the editor has no callback for is false: the browser is never asked. *)
Lemma value_never_native (h : host) cmd s : isHidden h s = Some (false, s) →
  Obj.get cmd (queryValueCommands s.1) = None → Obj.is_proto cmd = false →
  Obj.get (to_lower cmd) (value_of s.1) = None → Obj.is_proto (to_lower cmd) = false →
  queryCommandValue h cmd s = Some (VFalse, s).
Proof using Type.
  intros Hh H1 P1 H2 P2. unfold queryCommandValue, query. rewrite (SE_bind_some _ _ _ _ _ Hh).
  unfold registered. rewrite SE_bind_assoc, (SE_bind_some _ _ s (Obj.get cmd (queryValueCommands s.1)) s) by done. rewrite H1, P1, SE_ret_bind.
  unfold queryCommandValue_, call_entry. rewrite !SE_bind_assoc.
  rewrite (SE_bind_some _ _ s (Obj.get (to_lower cmd) (value_of s.1)) s) by done. by rewrite H2, P2.
Qed.

(** [addCommands]: the last callback of the list that has the name among its own. *)
Lemma addCommands_get l ty t name : Obj.get name (table ty (addCommands l ty t))
  = match last (base.filter (λ p : jstr * C, name ∈ split_unit 44 (to_lower p.1)) l) with
    | Some p => Some p.2
    | None => Obj.get name (table ty t)
    end.
Proof using Type.
  unfold addCommands. rewrite (each_fold (λ p t, (each (split_unit 44 (to_lower p.1)) (λ command _ t, (set_table ty (Obj.set command p.2) t, false)) t).1)).
  cbn [fst]. revert t. induction l as [|p l IH] using rev_ind; intros t; [done|].
  rewrite fold_left_app, filter_app. cbn [fold_left]. rewrite each_fold. cbn [fst].
  assert (∀ names t, Obj.get name (table ty (fold_left (λ t command, set_table ty (Obj.set command p.2) t) names t))
    = if decide (name ∈ names) then Some p.2 else Obj.get name (table ty t)) as Hnames.
  { intros names. induction names as [|n names IHn]; intros t'; cbn [fold_left]; [by rewrite decide_False by apply not_elem_of_nil|].
    rewrite IHn. assert (∀ f, table ty (set_table ty f t') = f (table ty t')) as -> by (by destruct ty). rewrite Obj.get_set.
    destruct (decide (name ∈ names)); [by rewrite decide_True by (by right)|]. destruct (decide (n = name)) as [->|].
    - by rewrite decide_True by (by left).
    - rewrite decide_False; [done|]. by intros [|]%elem_of_cons. }
  rewrite Hnames, filter_cons. destruct (decide (name ∈ _)); [by rewrite filter_nil, last_snoc|]. by rewrite filter_nil, app_nil_r, IH.
Qed.
End Commands.

(** ** Examples *)

(** An editor whose callbacks answer with their number, and write down what happens. *)
Definition quiet : @host Empty_set Z (list jstr) := {|
  call c _ := λ s, Some (VNumber c, (s.1, s.2 ++ [num_to_string 10 c]));
  inherited _ _ := mret VUndefined;
  of_string _ := VUndefined;
  focus := mret tt;
  fire name _ _ _ := λ s, Some (false, (s.1, s.2 ++ [name]));
  isHidden := mret false;
  doc_execCommand _ _ _ := λ s, Some (tt, (s.1, s.2 ++ [js "browser"]));
  doc_queryCommandState _ := mret VTrue;
  doc_queryCommandValue _ := mret (VNumber 5)
|}.
Definition no_tables : @tables Z := Tables [] [] [] [] [] [] [] None.
Definition with_bold : tables := addCommands [(js "Bold,Italic", 1)] Exec no_tables.

(** The commands of the editor have their names in any case, a registered command in its own only: registered as "bold", it
    does not take the place of "Bold". *)
Example override_in_one_case : ∃ s, execCommand (λ x : Empty_set, match x with end) quiet (js "Bold") VFalse VNull true (addCommand (js "bold") 2 with_bold, []) = Some (VTrue, s)
  ∧ s.2 = [js "BeforeExecCommand"; js "1"; js "ExecCommand"].
Proof. eexists. split; [vm_compute; reflexivity|done]. Qed.

(** The state of an unknown command comes from the browser, its value does not. *)
Example value_not_from_browser : (queryCommandState quiet (js "x") (no_tables, []) : option (value * _)) = Some (VTrue, (no_tables, []))
  ∧ queryCommandValue quiet (js "x") (no_tables, []) = Some (VFalse, (no_tables, [])).
Proof. by vm_compute. Qed.

(** A registered callback that returns true, which its description calls handled, is taken not to have handled the command. *)
Definition agreeing : @host Empty_set Z (list jstr) :=
  Host (λ c _ s, Some (VTrue, (s.1, s.2 ++ [num_to_string 10 c]))) (inherited quiet) (of_string quiet) (focus quiet) (fire quiet)
    (isHidden quiet) (doc_execCommand quiet) (doc_queryCommandState quiet) (doc_queryCommandValue quiet).
Example true_is_not_handled : ∃ s, execCommand (λ x : Empty_set, match x with end) agreeing (js "x") VFalse VNull true (addCommand (js "x") 2 no_tables, []) = Some (VUndefined, s)
  ∧ s.2 = [js "BeforeExecCommand"; js "2"; js "browser"; js "ExecCommand"].
Proof. eexists. split; [vm_compute; reflexivity|done]. Qed.
