(* ===== verification/ScriptLive.v ===== *)
(** * classes/dom/ScriptLoader.js: what is loaded is announced

    On a page whose callbacks make no calls of their own, every order in which
    the browser reports the scripts ends after finitely many reports, and then every
    callback waiting for the queue has run. *)

From S2P Require Import Prelude Tools ScriptLoader.

Section Live.
Context (baseURL : jstr).
Abbreviation run_task := (exec baseURL quiet_page).

(** The steps that need no event. *)
Inductive tstep : config -> config -> Prop :=
  | tstep_task t ts w ts' w' : run_task t w = Some (ts', w') → tstep (t :: ts, w) (ts' ++ ts, w').
Abbreviation runs := (rtc tstep).

Lemma tstep_step c c' : tstep c c' → step baseURL quiet_page c c'.
Proof using Type. intros [t ts w ts' w' E]. by constructor. Qed.

Lemma runs_one t ts w ts' w' c : run_task t w = Some (ts', w') → runs (ts' ++ ts, w') c → runs (t :: ts, w) c.
Proof using Type. intros E Hr. eapply rtc_l; [by constructor|done]. Qed.

Lemma tstep_det c c1 c2 : tstep c c1 → tstep c c2 → c1 = c2.
Proof using Type. intros H1 H2. inversion H1; subst. inversion H2; subst. simplify_eq. congruence. Qed.

Lemma runs_det c w1 w2 : runs c ([], w1) → runs c ([], w2) → w1 = w2.
Proof using Type.
  intros H1. remember ([], w1) as c1 eqn:E1. induction H1 as [c|c c' c'' Hs _ IH]; intros H2; subst.
  - inversion H2 as [|? ? ? Hs]; subst; [done|]. inversion Hs.
  - inversion H2 as [|? c3 ? Hs' Hr]; subst; [inversion Hs|]. rewrite (tstep_det _ _ _ Hs' Hs) in Hr. auto.
Qed.

(** ** Quiet worlds *)
Definition user (cb : callback) : bool := match cb with CbUser _ => true | CbDeps _ _ _ => false end.
Definition user_id (cb : callback) : list nat := match cb with CbUser id => [id] | CbDeps _ _ _ => [] end.

(** Only callbacks of the page wait, and every one for the queue is a function. *)
Record calm (w : world) : Prop := {
  calm_good : good w;
  calm_queue : Forall (λ o, ∃ cb, o = Some cb ∧ user cb = true) (queueLoadedCallbacks w);
  calm_urls : ∀ url cbs, Obj.get url (scriptLoadedCallbacks w) = Some cbs → Forall (λ cb, user cb = true) cbs
}.

Definition waiting (w : world) : list nat := concat ((λ o, match o with Some cb => user_id cb | None => [] end) <$> queueLoadedCallbacks w).
Definition in_arrays (w : world) : nat := list_sum (length <$> arrays w).

(** What running part of a handler does to a quiet world: it may start scripts and run callbacks. *)
Record grows (k : nat) (w w' : world) : Prop := {
  grows_calm : calm w';
  grows_queue : queueLoadedCallbacks w' = queueLoadedCallbacks w;
  grows_arrays : arrays w' = arrays w;
  grows_calls : calls w `prefix_of` calls w';
  grows_pending : (length (pending w) <= length (pending w') <= length (pending w) + k)%nat
}.

Lemma grows_refl w : calm w → grows 0 w w.
Proof using Type. intros Hw. by constructor; [..|lia]. Qed.

Lemma grows_trans k1 k2 w1 w2 w3 : grows k1 w1 w2 → grows k2 w2 w3 → grows (k1 + k2) w1 w3.
Proof using Type.
  intros [C1 Q1 A1 P1 L1] [C2 Q2 A2 P2 L2]. constructor; [done|congruence|congruence|by etransitivity|lia].
Qed.

Lemma calm_calls v w : calm w → calm (set_calls v w).
Proof using Type. intros [[H1 H2 H3 H4 H5] Hq Hu]. by constructor. Qed.

Lemma user_call cb ts w : user cb = true → calm w →
  ∃ w', runs (TCall (Some cb) :: ts, w) (ts, w') ∧ w' = set_calls (calls w ++ user_id cb) w.
Proof using Type.
  intros Hu Hw. destruct cb as [id|]; [|done]. eexists. split; [|done].
  eapply runs_one; [reflexivity|]. apply rtc_refl.
Qed.

Lemma run_url_each url cbs : Forall (λ cb, user cb = true) cbs → ∀ ts w, calm w →
  ∃ w', runs (TUrlEach url cbs :: ts, w) (ts, w') ∧ w' = set_calls (calls w ++ concat (user_id <$> cbs)) w.
Proof using Type.
  induction 1 as [|cb cbs Hu _ IH]; intros ts w Hw.
  - eexists. split; [eapply runs_one; [reflexivity|]; apply rtc_refl|]. cbn. rewrite app_nil_r. by destruct w.
  - destruct (user_call cb (TUrlEach url cbs :: ts) w Hu Hw) as (w1 & R1 & ->).
    destruct (IH ts (set_calls (calls w ++ user_id cb) w) (calm_calls _ _ Hw)) as (w2 & R2 & ->).
    eexists. split; [eapply runs_one; [reflexivity|]; cbn; etransitivity; [exact R1|exact R2]|].
    unfold set_calls. cbn. by rewrite <- app_assoc.
Qed.

Lemma calm_clear url w : calm w → calm (set_urlCbs (Obj.delete url (scriptLoadedCallbacks w)) w).
Proof using Type.
  intros [[H1 H2 H3 H4 H5] Hq Hu]. constructor; [by constructor|done|]. cbn. intros u cbs. 
  destruct (decide (url = u)) as [->|Hne]; [by rewrite Obj.get_delete_eq|]. rewrite Obj.get_delete_ne by done. apply Hu.
Qed.

(** The callbacks of one script. *)
Lemma run_url url ts w : calm w →
  ∃ w', runs (TUrlEach url (default [] (Obj.get url (scriptLoadedCallbacks w))) :: TUrlClear url :: ts, w) (ts, w') ∧ grows 0 w w'.
Proof using Type.
  intros Hw. assert (Forall (λ cb, user cb = true) (default [] (Obj.get url (scriptLoadedCallbacks w)))) as Hu.
  { destruct (Obj.get url _) as [cbs|] eqn:E; [by eapply calm_urls|constructor]. }
  destruct (run_url_each url _ Hu (TUrlClear url :: ts) w Hw) as (w1 & R1 & ->). set (cbs := concat _) in *.
  eexists. split.
  - etransitivity; [exact R1|]. eapply runs_one; [reflexivity|]. apply rtc_refl.
  - constructor; cbn; try done; [exact (calm_clear url _ (calm_calls (calls w ++ cbs) _ Hw))|by eexists|lia].
Qed.

Lemma run_load_each arr us : ∀ ts w, calm w →
  ∃ w', runs (TLoadEach us arr :: ts, w) (ts, w') ∧ grows (length us) w w'.
Proof using Type.
  induction us as [|url us IH]; intros ts w Hw.
  - exists w. split; [eapply runs_one; [reflexivity|]; apply rtc_refl|by apply grows_refl].
  - destruct (isDone url w) eqn:Ed.
    + destruct (run_url url (TLoadEach us arr :: ts) w Hw) as (w1 & R1 & G1).
      destruct (IH ts w1 (grows_calm _ _ _ G1)) as (w2 & R2 & G2). exists w2. split.
      * eapply runs_one; [cbn; rewrite Ed; reflexivity|]. cbn. etransitivity; [exact R1|exact R2].
      * eapply (grows_trans 0 _ _ _ _ G1) in G2. destruct G2. constructor; try done. cbn. lia.
    + destruct (bool_decide (Obj.get url (states w) = Some LOADING)) eqn:El.
      * destruct (IH ts w Hw) as (w2 & R2 & G2). exists w2. split; [|destruct G2; constructor; try done; cbn; lia].
        eapply runs_one; [cbn; rewrite Ed, El; reflexivity|]. exact R2.
      * assert (calm (start_script url arr w)) as Hw1.
        { destruct Hw as [Hg Hq Hu]. constructor; [|done|done]. apply (good_start quiet_page); [..|done].
          - unfold isDone in Ed. by apply bool_decide_eq_false in Ed.
          - by apply bool_decide_eq_false in El. }
        assert (grows 1 w (start_script url arr w)) as G1.
        { constructor; try done. cbn. rewrite length_app. cbn. lia. }
        destruct (IH ts _ Hw1) as (w2 & R2 & G2). exists w2. split; [|by apply (grows_trans 1 _ _ _ _ G1)].
        eapply runs_one; [cbn; rewrite Ed, El; reflexivity|]. exact R2.
Qed.

(** The callbacks of the queue, from the n-th on. *)
Lemma run_queue_each q2 : ∀ q1 ts w, calm w → queueLoadedCallbacks w = q1 ++ q2 →
  ∃ w', runs (TQueueEach (length q1) (length (q1 ++ q2)) :: ts, w) (ts, w')
    ∧ w' = set_calls (calls w ++ concat ((λ o, match o with Some cb => user_id cb | None => [] end) <$> q2)) w.
Proof using Type.
  induction q2 as [|o q2 IH]; intros q1 ts w Hw Eq.
  - eexists. split; [eapply runs_one; [cbn [exec]; rewrite app_nil_r, Nat.ltb_irrefl; reflexivity|]; apply rtc_refl|].
    cbn. rewrite app_nil_r. by destruct w.
  - pose proof (calm_queue w Hw) as Hq. rewrite Eq, Forall_app, Forall_cons in Hq. destruct Hq as (_ & (cb & -> & Hu) & _).
    destruct (user_call cb (TQueueEach (S (length q1)) (length (q1 ++ Some cb :: q2)) :: ts) w Hu Hw) as (w1 & R1 & ->).
    destruct (IH (q1 ++ [Some cb]) ts (set_calls (calls w ++ user_id cb) w)) as (w2 & R2 & ->);
      [by apply calm_calls|by rewrite <- app_assoc|].
    eexists. split.
    + eapply runs_one.
      * cbn [exec]. rewrite (proj2 (Nat.ltb_lt _ _)) by (rewrite length_app; cbn; lia).
        rewrite Eq, list_lookup_middle by done. reflexivity.
      * cbn [app]. etransitivity; [exact R1|]. rewrite length_app, <- app_assoc in R2. cbn [length app] in R2.
        rewrite Nat.add_1_r in R2. exact R2.
    + unfold set_calls. cbn. by rewrite <- app_assoc.
Qed.

(** ** One report *)

(** After [loadScripts] of an array: its scripts are started, and the queue is announced when nothing loads. *)
Record settled (arr : nat) (w w' : world) : Prop := {
  settled_calm : calm w';
  settled_arrays : arrays w' = <[arr := []]> (arrays w);
  settled_pending : (length (pending w') <= length (pending w) + length (default [] (arrays w !! arr)))%nat;
  settled_calls : calls w `prefix_of` calls w';
  settled_queue : (loading w' = 0 ∧ queueLoadedCallbacks w' = [] ∧ ∀ id, id ∈ waiting w → id ∈ calls w')
                  ∨ (loading w' ≠ 0 ∧ queueLoadedCallbacks w' = queueLoadedCallbacks w)
}.

Lemma run_queue ts w : calm w → ∃ w', runs (TQueue :: ts, w) (ts, w') ∧
  (w' = w ∧ loading w ≠ 0 ∨ loading w = 0 ∧ w' = set_queueCbs [] (set_calls (calls w ++ waiting w) w)).
Proof using Type.
  intros Hw. destruct (Z.eqb_spec (loading w) 0) as [H0|H0].
  - destruct (run_queue_each (queueLoadedCallbacks w) [] (TQueueClear :: ts) w Hw eq_refl) as (w1 & R1 & ->).
    eexists. split; [|by right].
    eapply runs_one; [cbn [exec]; rewrite (proj2 (Z.eqb_eq _ _)) by done; reflexivity|]. etransitivity; [exact R1|].
    eapply runs_one; [reflexivity|]. apply rtc_refl.
  - exists w. split; [|by left]. eapply runs_one; [cbn [exec]; rewrite (proj2 (Z.eqb_neq _ _)) by done; reflexivity|]. apply rtc_refl.
Qed.

Lemma run_load arr ts w : calm w → ∃ w', runs (TLoad arr :: ts, w) (ts, w') ∧ settled arr w w'.
Proof using Type.
  intros Hw. set (w0 := set_arrays (<[arr := []]> (arrays w)) w).
  assert (calm w0) as Hw0 by (destruct Hw as [[H1 H2 H3 H4 H5] Hq Hu]; by constructor).
  destruct (run_load_each arr (default [] (arrays w !! arr)) (TQueue :: ts) w0 Hw0) as (w1 & R1 & [C1 Q1 A1 P1 L1]).
  destruct (run_queue ts w1 C1) as (w2 & R2 & Hw2). exists w2. split.
  { eapply runs_one; [reflexivity|]. cbn [app]. fold w0. etransitivity; [exact R1|exact R2]. }
  destruct Hw2 as [[-> Hl]|[Hl ->]].
  - constructor; try done; [cbn in L1; lia|by right].
  - constructor; cbn; try done; [|cbn in L1; lia|..].
    + destruct C1 as [[H1 H2 H3 H4 H5] Hq Hu]. constructor; [by constructor|constructor|done].
    + etransitivity; [exact P1|]. by eexists.
    + left. split_and!; [done|done|]. intros id Hid. apply elem_of_app. right. unfold waiting in *. by rewrite Q1.
Qed.

(** What is still to come: scripts being loaded and scripts in the arrays. *)
Definition left_over (w : world) : nat := (length (pending w) + in_arrays w)%nat.
Definition at_rest (w : world) : Prop := calm w ∧ (loading w = 0 → queueLoadedCallbacks w = []).

Lemma in_arrays_insert arr w : (list_sum (length <$> <[arr := []]> (arrays w)) + length (default [] (arrays w !! arr)) = in_arrays w)%nat.
Proof using Type.
  unfold in_arrays. generalize (arrays w) as l. clear w. intros l. revert arr.
  induction l as [|a l IH]; intros [|arr]; [done|done|cbn; lia|]. specialize (IH arr). cbn. rewrite <- Nat.add_assoc. f_equal. exact IH.
Qed.

(** The browser reports the k-th script that is being loaded, and the handler runs to its end. *)
Definition report (k : nat) (w w' : world) : Prop := ∃ ts w1, loaded k w = Some (ts, w1) ∧ runs (ts, w1) ([], w').

Lemma report_ok k w : calm w → (k < length (pending w))%nat → ∃ w', report k w w' ∧ at_rest w'
  ∧ (left_over w' < left_over w)%nat ∧ calls w `prefix_of` calls w'
  ∧ (queueLoadedCallbacks w' = queueLoadedCallbacks w ∨ ∀ id, id ∈ waiting w → id ∈ calls w').
Proof using Type.
  intros Hw Hk. destruct (lookup_lt_is_Some_2 _ _ Hk) as [[url arr] Ek].
  unfold report, loaded. rewrite Ek. cbn [mbind option_bind].
  set (w1 := MkWorld _ _ _ _ _ _ _ _ _ _).
  assert (calm w1) as Hw1.
  { destruct Hw as [Hg Hq Hu]. constructor; [|done|done]. eapply (good_loaded k); [|exact Hg].
    unfold loaded. rewrite Ek. reflexivity. }
  destruct (run_url url [TLoad arr] w1 Hw1) as (w2 & R2 & [C2 Q2 A2 P2 L2]).
  destruct (run_load arr [] w2 C2) as (w3 & R3 & [C3 A3 L3 P3 Q3]).
  exists w3. split; [eexists _, _; split; [reflexivity|]; etransitivity; [exact R2|exact R3]|].
  split_and!.
  - split; [done|]. destruct Q3 as [(_ & ? & _)|[? _]]; [done|lia].
  - unfold left_over, in_arrays at 1. rewrite A3. pose proof (in_arrays_insert arr w2) as Hi.
    assert (in_arrays w2 = in_arrays w) as Ei by (unfold in_arrays; by rewrite A2).
    assert (length (pending w1) = (length (pending w) - 1)%nat) as E1 by (cbn; rewrite length_delete; [lia|by eexists]).
    lia.
  - by transitivity (calls w2).
  - destruct Q3 as [(_ & _ & Hids)|[_ ->]]; [right|left; by rewrite Q2]. intros id Hid. apply Hids.
    unfold waiting in *. by rewrite Q2.
Qed.

Inductive reports : list nat -> world -> world -> Prop :=
  | reports_nil w : reports [] w w
  | reports_cons k ks w w1 w' : (k < length (pending w))%nat → report k w w1 → reports ks w1 w' → reports (k :: ks) w w'.

(** ** The worlds a quiet page can make *)
Definition user_cb (o : option callback) : bool := match o with Some cb => user cb | None => false end.
Definition quiet_cmd (c : cmd) : bool :=
  match c with
  | CAdd _ cb => match cb with Some cb => user cb | None => true end
  | CLoadQueue cb | CLoadScripts _ cb => user_cb cb
  | CMarkDone _ => true
  | CPluginAdd _ _ | CPluginLoad _ _ _ => false
  end.

Inductive quiet_reach : world -> Prop :=
  | quiet_init arrs : quiet_reach (init arrs)
  | quiet_array a w : quiet_reach w → quiet_reach (set_arrays (arrays w ++ [a]) w)
  | quiet_page_cmd c w w' : quiet_reach w → quiet_cmd c = true → runs ([TCmd c], w) ([], w') → quiet_reach w'
  | quiet_report k w w' : quiet_reach w → (k < length (pending w))%nat → report k w w' → quiet_reach w'.

Lemma calm_add url cb w w' : match cb with Some cb => user cb | None => true end = true → add url cb w = Some w' → calm w →
  calm w' ∧ queueLoadedCallbacks w' = queueLoadedCallbacks w ∧ loading w' = loading w.
Proof using Type.
  intros Hcb E [Hg Hq Hu]. pose proof (good_add _ _ _ _ E Hg) as Hg'. unfold add in E.
  set (w1 := if Obj.has url (states w) then _ else _) in E.
  assert (queueLoadedCallbacks w1 = queueLoadedCallbacks w ∧ loading w1 = loading w ∧ scriptLoadedCallbacks w1 = scriptLoadedCallbacks w)
    as (E1 & E2 & E3) by (unfold w1; by destruct (Obj.has url (states w))).
  destruct cb as [cb|]; [|simplify_eq; split_and!; try done; constructor; [done|by rewrite E1|by rewrite E3]].
  assert (∀ cbs, Forall (λ cb, user cb = true) cbs → w' = set_urlCbs (Obj.set url cbs (scriptLoadedCallbacks w1)) w1 →
    calm w' ∧ queueLoadedCallbacks w' = queueLoadedCallbacks w ∧ loading w' = loading w) as Hset.
  { intros cbs Hc ->. split_and!; [|done|done]. constructor; [done|cbn; by rewrite E1|]. cbn. intros u cbs'.
    rewrite Obj.get_set. case_decide; [by intros [= <-]|rewrite E3; apply Hu]. }
  destruct (Obj.get url (scriptLoadedCallbacks w1)) as [cbs|] eqn:Eg.
  - simplify_eq. eapply Hset; [|done]. apply Forall_app. rewrite E3 in Eg. split; [by eapply Hu|by repeat constructor].
  - destruct (Obj.is_proto url); [done|]. simplify_eq. eapply Hset; [|done]. by repeat constructor.
Qed.

Lemma quiet_page_rest c w w' : at_rest w → quiet_cmd c = true → runs ([TCmd c], w) ([], w') → at_rest w'.
Proof using Type.
  intros [Hw Hr] Hc Hruns.
  assert (∀ ts w1, run_task (TCmd c) w = Some (ts, w1) → runs (ts, w1) ([], w')) as Hnext.
  { intros ts w1 E. inversion Hruns as [|? c1 ? Hs Hrest]; subst. inversion Hs; subst. simplify_eq. by rewrite app_nil_r in Hrest. }
  assert (∀ arr cb w0, user_cb cb = true → calm w0 → runs ([TLoad arr], set_queueCbs (queueLoadedCallbacks w0 ++ [cb]) w0) ([], w') → at_rest w') as Hload.
  { intros arr cb w0 Hcb [[H1 H2 H3 H4 H5] Hq Hu] Hrun. destruct (run_load arr [] (set_queueCbs (queueLoadedCallbacks w0 ++ [cb]) w0)) as (w2 & R2 & S2).
    - constructor; [by constructor| |done]. apply Forall_app. split; [done|]. repeat constructor. destruct cb as [cb|]; [by exists cb|done].
    - rewrite (runs_det _ _ _ Hrun R2). destruct S2 as [C2 _ _ _ Q2]. split; [done|]. destruct Q2 as [(_ & ? & _)|[? _]]; done. }
  destruct c as [url cb|cb|arr cb|url|id deps|n u cb]; try done.
  - cbn [exec exec_cmd] in Hnext. destruct (add url cb w) as [w1|] eqn:Ea.
    + destruct (calm_add _ _ _ _ Hc Ea Hw) as (C1 & Q1 & L1). specialize (Hnext [] w1 eq_refl).
      inversion Hnext as [|? ? ? Hs]; subst; [|inversion Hs]. split; [done|]. by rewrite Q1, L1.
    + inversion Hruns as [|? c1 ? Hs Hrest]; subst. inversion Hs; subst. match goal with E : exec _ _ _ _ = _ |- _ => cbn in E; by rewrite Ea in E end.
  - specialize (Hnext _ _ eq_refl). inversion Hnext as [|? c1 ? Hs Hrest]; subst. inversion Hs; subst. simplify_eq/=. by eapply Hload.
  - specialize (Hnext _ _ eq_refl). by eapply Hload.
  - specialize (Hnext _ _ eq_refl). inversion Hnext as [|? ? ? Hs]; subst; [|inversion Hs]. split; [|done].
    destruct Hw as [Hg Hq Hu]. constructor; [by apply (good_markDone)|done|done].
Qed.

Lemma report_det k w w1 w2 : report k w w1 → report k w w2 → w1 = w2.
Proof using Type. intros (ts & v & E & R) (ts' & v' & E' & R'). simplify_eq. by eapply runs_det. Qed.

Lemma quiet_rest w : quiet_reach w → at_rest w.
Proof using Type.
  induction 1 as [arrs|a w _ [[[H1 H2 H3 H4 H5] Hq Hu] Hr]|c w w' _ IH Hc Hruns|k w w' _ [Hw _] Hk Hrep].
  - split; [|done]. constructor; [constructor; cbn; try set_solver; constructor|constructor|done].
  - split; [|done]. constructor; [by constructor|done|done].
  - by eapply quiet_page_rest.
  - destruct (report_ok k w Hw Hk) as (w1 & Hrep1 & Hrest & _). by rewrite (report_det _ _ _ _ Hrep Hrep1).
Qed.

Lemma reports_calls ks w w' : reports ks w w' → calm w → calls w `prefix_of` calls w'.
Proof using Type.
  induction 1 as [w|k ks w w1 w' Hk Hrep _ IH]; intros Hw; [done|].
  destruct (report_ok k w Hw Hk) as (v & Hrep1 & [Cv _] & _ & Hp & _).
  rewrite (report_det _ _ _ _ Hrep Hrep1) in *. etransitivity; [exact Hp|]. by apply IH.
Qed.

(** C21: On a page with quiet callbacks, in whatever order the browser reports the scripts: only finitely many reports can
    come (at most as many as scripts were left), each is handled to its end, and once nothing is being loaded
    every callback that waited for the queue has run and none waits. *)
Theorem queue_announced w ks w' : quiet_reach w → reports ks w w' →
  (length ks <= left_over w)%nat
  ∧ (∀ k, (k < length (pending w'))%nat → ∃ w2, report k w' w2)
  ∧ (pending w' = [] → queueLoadedCallbacks w' = [] ∧ ∀ id, id ∈ waiting w → id ∈ calls w').
Proof using Type.
  intros Hq Hreps. apply quiet_rest in Hq as [Hw Hrest].
  induction Hreps as [w|k ks w w1 w' Hk Hrep Hrs IH].
  - split_and!; [cbn; lia|intros k Hk; destruct (report_ok k w Hw Hk) as (w2 & Hr & _); eauto|].
    intros Hp. assert (queueLoadedCallbacks w = []) as Eq.
    { apply Hrest. destruct Hw as [Hg _ _]. rewrite (good_count w Hg), Hp. done. }
    split; [done|]. unfold waiting. rewrite Eq. intros id Hid. by apply elem_of_nil in Hid.
  - destruct (report_ok k w Hw Hk) as (v & Hrep1 & [Cv Rv] & Hm & Hp & Hids).
    rewrite (report_det _ _ _ _ Hrep Hrep1) in *. destruct (IH Cv Rv) as (I1 & I2 & I3).
    split_and!; [cbn; lia|done|]. intros Hp'. destruct (I3 Hp') as [Eq Hc]. split; [done|]. intros id Hid.
    destruct Hids as [Hqe|Hall].
    + apply Hc. unfold waiting in *. by rewrite Hqe.
    + apply Hall in Hid. destruct (reports_calls _ _ _ Hrs Cv) as [l ->]. apply elem_of_app. by left.
Qed.

(** The same runs as a function. *)
Fixpoint go (fuel : nat) (c : config) : option world :=
  match c, fuel with
  | ([], w), _ => Some w
  | (t :: ts, w), S f => match run_task t w with Some (ts', w') => go f (ts' ++ ts, w') | None => None end
  | _, O => None
  end.

Lemma go_runs f c w : go f c = Some w → runs c ([], w).
Proof using Type.
  revert c. induction f as [|f IH]; intros [[|t ts] v]; cbn [go]; try done; try (intros [= ->]; apply rtc_refl).
  destruct (run_task t v) as [[ts' v']|] eqn:E; [|done]. intros Hg. eapply runs_one; [exact E|]. by apply IH.
Qed.
End Live.

(** A page adds a script and loads the queue; the browser reports the script. *)
Definition added : world := Eval vm_compute in
  default (init []) (go (js "/base") 50 ([TCmd (CAdd (js "a.js") (Some (CbUser 1)))], init [])).
Definition queued : world := Eval vm_compute in
  default (init []) (go (js "/base") 50 ([TCmd (CLoadQueue (Some (CbUser 2)))], added)).
Definition announced : world := Eval vm_compute in
  match loaded 0 queued with Some c => default (init []) (go (js "/base") 50 c) | None => init [] end.

Lemma queue_announced_witness : queueLoadedCallbacks announced = [] ∧ ∀ id, id ∈ [2]%nat → id ∈ calls announced.
Proof.
  assert (quiet_reach (js "/base") added) as Ha.
  { refine (quiet_page_cmd _ (CAdd (js "a.js") (Some (CbUser 1))) _ _ (quiet_init _ []) eq_refl (go_runs _ 50 _ _ _)).
    vm_compute. reflexivity. }
  assert (quiet_reach (js "/base") queued) as Hq.
  { refine (quiet_page_cmd _ (CLoadQueue (Some (CbUser 2))) _ _ Ha eq_refl (go_runs _ 50 _ _ _)).
    vm_compute. reflexivity. }
  assert (reports (js "/base") [0%nat] queued announced) as Hr.
  { refine (reports_cons _ 0 [] _ announced _ _ _ (reports_nil _ _)); [vm_compute; lia|].
    eexists _, _. split; [reflexivity|]. refine (go_runs _ 50 _ _ _). vm_compute. reflexivity. }
  destruct (queue_announced (js "/base") queued [0%nat] announced Hq Hr) as (_ & _ & H).
  exact (H eq_refl).
Defined.
