(* ===== verification/EventUtils.v ===== *)
(** * classes/dom/EventUtils.js

    Handlers on browser objects: one native listener for each object and event name, which runs the list
    of callbacks bound there.  The lists are shared arrays, since a callback may bind and unbind while
    its list is running.  The browser's side is the log of the listener calls made on it.  Modelled for browsers
    with addEventListener. *)

From S2P Require Import Prelude.

(** ** Data *)

(** A native handler: what it does to the event, the id it runs, and a serial number
    for the closure. *)
Inductive kind := KDefault | KMouse | KFocus.
Record native := MkNative { n_kind : kind; n_id : nat; n_serial : nat }.

(** [readyHandler] of bindOnReady around a native handler. *)
Inductive listener := LNative (h : native) | LReady (h : native).

#[export] Instance kind_eq_dec : EqDecision kind.
Proof. solve_decision. Defined.
#[export] Instance native_eq_dec : EqDecision native.
Proof. solve_decision. Defined.
#[export] Instance listener_eq_dec : EqDecision listener.
Proof. solve_decision. Defined.

(** The objects events are bound to, with what the code reads of them: [up] is
    [parentNode || ownerDocument || defaultView || parentWindow]; [elements] is [getElementsByTagName('*')],
    [None] when there is no such method; [document_of] is the member [document]; [complete] compares the
    member [readyState].  The last two say what the browser can do by itself. *)
Class Page (target : Type) := {
  nodeType : target -> Z;
  up : target -> option target;
  complete : target -> bool;
  elements : target -> option (list target);
  document_of : target -> option target;
  the_document : target;
  hasMouseEnterLeave : bool;
  hasFocusIn : bool
}.

Section EventUtils.
Context {target : Type} `{Countable target} `{!Page target}.

(** A bound function with its scope; without one it is called as a plain function. *)
Definition fn : Type := nat * option target.

(** A callback list with the members the code gives it; a cloned list has the handler only. *)
Record clist := MkList { funcs : list fn; fakeName : option jstr; capture : bool; nativeHandler : native }.

Inductive ncall :=
  | AddListener (t : target) (name : jstr) (l : listener) (capture : bool)
  | RemoveListener (t : target) (name : jstr) (l : listener) (capture : bool).

(** [expandos]: the member [expando] of the targets; [lists]: the arrays made so far; [serial]: the
    closures made so far. *)
Record world := MkWorld {
  events : gmap nat (Obj.t nat);
  count : nat;
  expandos : gmap target nat;
  lists : list clist;
  log : list ncall;
  serial : nat;
  domLoaded : bool
}.

Definition init : world := MkWorld ∅ 1 ∅ [] [] 0 false.

Definition set_events v w := MkWorld v (count w) (expandos w) (lists w) (log w) (serial w) (domLoaded w).
Definition set_expandos v w := MkWorld (events w) (count w) v (lists w) (log w) (serial w) (domLoaded w).
Definition set_lists v w := MkWorld (events w) (count w) (expandos w) v (log w) (serial w) (domLoaded w).
Definition set_domLoaded v w := MkWorld (events w) (count w) (expandos w) (lists w) (log w) (serial w) v.
Definition add_log c w := MkWorld (events w) (count w) (expandos w) (lists w) (log w ++ [c]) (serial w) (domLoaded w).
Definition next_serial w := MkWorld (events w) (count w) (expandos w) (lists w) (log w) (S (serial w)) (domLoaded w).

(** An event object; [fixed] says whether [fix] gave it its states. *)
Record evt := MkEvt {
  etype : jstr;
  etarget : option target;
  fixed : bool;
  isDefaultPrevented : bool;
  isPropagationStopped : bool;
  isImmediatePropagationStopped : bool
}.

Definition set_type v e := MkEvt v (etarget e) (fixed e) (isDefaultPrevented e) (isPropagationStopped e) (isImmediatePropagationStopped e).
Definition set_target v e := MkEvt (etype e) (Some v) (fixed e) (isDefaultPrevented e) (isPropagationStopped e) (isImmediatePropagationStopped e).
Definition preventDefault e := MkEvt (etype e) (etarget e) (fixed e) true (isPropagationStopped e) (isImmediatePropagationStopped e).
Definition stopPropagation e := MkEvt (etype e) (etarget e) (fixed e) (isDefaultPrevented e) true (isImmediatePropagationStopped e).
Definition stopImmediatePropagation e := stopPropagation
  (MkEvt (etype e) (etarget e) (fixed e) (isDefaultPrevented e) (isPropagationStopped e) true).
Definition cancel e := stopImmediatePropagation (preventDefault e).

(** [fix(originalEvent, data)] for an event without states of its own: the target is filled in, the
    states are false unless there are some. *)
Definition fix_event (e : evt) : evt :=
  let e := match etarget e with Some _ => e | None => set_target the_document e end in
  if fixed e then e else MkEvt (etype e) (etarget e) true false false false.

Definition new_event (type : jstr) : evt := MkEvt type None false false false false.

(** A target events are not bound to: text nodes and comments. *)
Definition skipped (t : target) : bool := (nodeType t =? 3) || (nodeType t =? 8).

Definition get_list (a : nat) (w : world) : clist :=
  default (MkList [] None false (MkNative KDefault 0 0)) (lists w !! a).

(** [events[id][name]]; [None]: there is no [events[id]]. *)
Inductive found := FList (a : nat) | FNothing | FInherited.
Definition find_in (m : Obj.t nat) (name : jstr) : found :=
  match Obj.get name m with
  | Some a => FList a
  | None => if Obj.is_proto name then FInherited else FNothing
  end.
Definition find_list (id : nat) (name : jstr) (w : world) : option found := (λ m, find_in m name) <$> events w !! id.

(** ** Running callbacks *)
Section Run.
(** A callback: the world and the event after it, and whether it returned [false]; [None]: it threw. *)
Context (env : fn -> world -> evt -> option (world * evt * bool)).

(** The loop of [executeHandlers], [k] turns from [i]; an inherited member has no callbacks. *)
Fixpoint run_from (k i a : nat) (w : world) (e : evt) : option (world * evt) :=
  match k with
  | O => Some (w, e)
  | S k =>
      '(w, e) ← match funcs (get_list a w) !! i with
                | Some f => '(w, e, r) ← env f w e; Some (w, if (r : bool) then preventDefault e else e)
                | None => Some (w, e)
                end;
      if isImmediatePropagationStopped e then Some (w, e) else run_from k (S i) a w e
  end.

Definition executeHandlers (e : evt) (id : nat) (w : world) : option (world * evt) :=
  match find_list id (etype e) w with
  | Some (FList a) => run_from (length (funcs (get_list a w))) 0 a w e
  | _ => Some (w, e)
  end.

(** The native handlers; [inside]: the related target lies in the current one. *)
Definition defaultNativeHandler (id : nat) (e : evt) (w : world) : option (world * evt) := executeHandlers (fix_event e) id w.
Definition mouseHandler (id : nat) (current : target) (inside : bool) (e : evt) (w : world) : option (world * evt) :=
  if inside then Some (w, e)
  else
    let e := fix_event e in
    executeHandlers (set_target current
      (set_type (if str_eqb (etype e) (js "mouseout") then js "mouseleave" else js "mouseenter") e)) id w.
Definition focusHandler (id : nat) (e : evt) (w : world) : option (world * evt) :=
  let e := fix_event e in
  executeHandlers (set_type (if str_eqb (etype e) (js "focus") then js "focusin" else js "focusout") e) id w.

(** The browser calls a native handler. *)
Definition run_native (h : native) (current : target) (inside : bool) (e : evt) (w : world) : option (world * evt) :=
  match n_kind h with
  | KDefault => defaultNativeHandler (n_id h) e w
  | KMouse => mouseHandler (n_id h) current inside e w
  | KFocus => focusHandler (n_id h) e w
  end.

(** [readyHandler()] of bindOnReady. *)
Definition readyHandler (h : native) (win : target) (w : world) : option world :=
  if domLoaded w then Some w
  else fst <$> run_native h win false (new_event (js "ready")) (set_domLoaded true w).

Definition bindOnReady (win : target) (h : native) (w : world) : option world :=
  if domLoaded w then fst <$> run_native h win false (new_event (js "ready")) w
  else
    doc ← document_of win;
    w ← (if complete doc then readyHandler h win w
         else Some (add_log (AddListener win (js "DOMContentLoaded") (LReady h) false) w));
    Some (add_log (AddListener win (js "load") (LReady h) false) w).

(** ** bind *)
Definition mouseEnterLeave (name : jstr) : option jstr :=
  if str_eqb name (js "mouseenter") then Some (js "mouseover")
  else if str_eqb name (js "mouseleave") then Some (js "mouseout")
  else None.

(** The handler for a name, its other name, whether it captures; a handler that is
    not the default one is a new closure. *)
Definition native_for (id dflt : nat) (name : jstr) (w : world) : native * option jstr * bool * world :=
  let focus := negb hasFocusIn && (str_eqb name (js "focusin") || str_eqb name (js "focusout")) in
  let fake := if hasMouseEnterLeave then None else mouseEnterLeave name in
  if focus then
    (MkNative KFocus id (serial w), Some (if str_eqb name (js "focusin") then js "focus" else js "blur"), true, next_serial w)
  else match fake with
       | Some f => (MkNative KMouse id (serial w), Some f, false, next_serial w)
       | None => (MkNative KDefault id dflt, None, false, w)
       end.

(** One name of [bind]; [dflt] is the serial number of this call's default handler. *)
Definition bind1 (t : target) (id dflt : nat) (callback : nat) (scope : target) (name : jstr) (w : world) : option world :=
  let name := if str_eqb name (js "DOMContentLoaded") then js "ready" else name in
  let ready := str_eqb name (js "ready") in
  if domLoaded w && ready && complete t then
    (λ r, fst (fst r)) <$> env (callback, Some scope) w (fix_event (new_event name))
  else
    let '(h, fake, cap, w) := native_for id dflt name w in
    m ← events w !! id;
    match find_in m name with
    | FNothing =>
        let a := length (lists w) in
        let w := set_lists (lists w ++ [MkList [(callback, Some scope)] fake cap h]) w in
        let w := set_events (<[id := Obj.set name a m]> (events w)) w in
        if ready then bindOnReady t h w
        else Some (add_log (AddListener t (default name fake) (LNative h) cap) w)
    | FList a =>
        if ready && domLoaded w then (λ r, fst (fst r)) <$> env (callback, None) w (new_event name)
        else Some (set_lists (alter (λ l, MkList (funcs l ++ [(callback, Some scope)]) (fakeName l) (capture l) (nativeHandler l)) a (lists w)) w)
    | FInherited => None (** the inherited member has no method push *)
    end.

(** The id of a target, and the world in which it has one. *)
Definition target_id (t : target) (w : world) : nat * world :=
  match expandos w !! t with
  | Some id => (id, w)
  | None => (count w, MkWorld (<[count w := []]> (events w)) (S (count w)) (<[t := count w]> (expandos w))
                        (lists w) (log w) (serial w) (domLoaded w))
  end.

(** [bind(target, names, callback, scope)]: the names from the last to the first. *)
Definition bind (t : target) (names : jstr) (callback : nat) (scope : option target) (w : world) : option world :=
  if skipped t then Some w
  else
    let '(id, w) := target_id t w in
    let dflt := serial w in
    fold_right (λ name r, w ← r; bind1 t id dflt callback (default t scope) name w) (Some (next_serial w)) (split_unit 32 names).

(** ** unbind *)

(** The loop [while (ci--)]: every list without one callback is a new array. *)
Fixpoint drop_callback (k : nat) (f : nat) (id : nat) (name : jstr) (a : nat) (w : world) : nat * world :=
  match k with
  | O => (a, w)
  | S k =>
      let l := get_list a w in
      if bool_decide (fst <$> funcs l !! k = Some f) then
        let a' := length (lists w) in
        let w := set_lists (lists w ++ [MkList (take k (funcs l) ++ drop (S k) (funcs l)) None false (nativeHandler l)]) w in
        drop_callback k f id name a' (set_events (alter (λ m, Obj.set name a' m) id (events w)) w)
      else drop_callback k f id name a w
  end.

Definition remove_list (t : target) (id : nat) (name : jstr) (a : nat) (w : world) : world :=
  let l := get_list a w in
  add_log (RemoveListener t (match fakeName l with Some (c :: n) => c :: n | _ => name end) (LNative (nativeHandler l)) (capture l))
    (set_events (alter (Obj.delete name) id (events w)) w).

(** An inherited member with parameters has a length, but no callbacks at its indices. *)
Definition inherited_throws (name : jstr) : bool :=
  negb (existsb (str_eqb name) (js <$> ["toString"; "valueOf"; "toLocaleString"; "__proto__"]%string)).

Definition unbind1 (t : target) (id : nat) (callback : option nat) (name : jstr) (w : world) : option world :=
  m ← events w !! id;
  match find_in m name with
  | FNothing => Some w
  | FInherited => if (if callback is Some _ then inherited_throws name else false) then None else Some w
  | FList a =>
      let '(a, w) := match callback with
                     | Some f => drop_callback (length (funcs (get_list a w))) f id name a w
                     | None => (a, w)
                     end in
      if bool_decide (callback = None) || bool_decide (funcs (get_list a w) = [])
      then Some (remove_list t id name a w) else Some w
  end.

(** Every name of the map: the listeners go, the map is left behind. *)
Definition unbind_all (t : target) (m : Obj.t nat) (w : world) : world :=
  fold_left (λ w p,
    let l := get_list p.2 w in
    add_log (RemoveListener t (match fakeName l with Some (c :: n) => c :: n | _ => p.1 end) (LNative (nativeHandler l)) (capture l)) w) m w.

Definition forget (t : target) (id : nat) (w : world) : world :=
  set_expandos (delete t (expandos w)) (set_events (delete id (events w)) w).

(** [unbind(target, names, callback)] *)
Definition unbind (t : target) (names : option jstr) (callback : option nat) (w : world) : option world :=
  if skipped t then Some w
  else
    match expandos w !! t with
    | None => Some w
    | Some id =>
        match names with
        | Some ((_ :: _) as names) =>
            w ← fold_right (λ name r, w ← r; unbind1 t id callback name w) (Some w) (split_unit 32 names);
            m ← events w !! id;
            Some (if bool_decide (m = []) then forget t id w else w)
        | _ => Some (forget t id (unbind_all t (default [] (events w !! id)) w))
        end
    end.

(** ** fire, clean, destroy *)
Fixpoint fire_loop (fuel : nat) (t : target) (e : evt) (w : world) : option (world * evt) :=
  '(w, e) ← match expandos w !! t with Some id => executeHandlers e id w | None => Some (w, e) end;
  match up t with
  | Some p => if isPropagationStopped e then Some (w, e)
              else match fuel with O => None | S f => fire_loop f p e w end
  | None => Some (w, e)
  end.

Definition fire (height : target -> nat) (t : target) (name : jstr) (args : evt) (w : world) : option (world * evt) :=
  if skipped t then Some (w, args)
  else
    let e := fix_event args in
    fire_loop (height t) t (set_target t (set_type name e)) w.

Definition unbind_bound (t : target) (w : world) : option world :=
  match expandos w !! t with Some _ => unbind t None None w | None => Some w end.

(** [clean(target)]: the target itself, its document when it has no elements, and the elements from the last to the first. *)
Definition clean (t : target) (w : world) : option world :=
  if skipped t then Some w
  else
    w ← unbind_bound t w;
    let holder := match elements t with Some _ => Some t | None => document_of t end in
    match holder with
    | None => Some w
    | Some d =>
        match elements d with
        | None => Some w
        | Some l =>
            w ← unbind d None None w;
            fold_right (λ t r, w ← r; unbind_bound t w) (Some w) l
        end
    end.

Definition destroy (w : world) : world := set_events ∅ w.
End Run.
End EventUtils.
