(* ===== verification/EventFacts.v ===== *)
(** * What the handlers of EventUtils do

    The abstract view of the handlers is one list of bound functions for each target and event name;
    [bind] appends to one of them, [unbind] and [clean] remove from them ([spec_op]).  The
    invariant [good] ties the shared arrays and the browser's listeners to it. *)

From S2P Require Import Prelude EventUtils.

Section Facts.
Context {target : Type} `{Countable target} `{!Page target}.
#[local] Abbreviation world := (@EventUtils.world target _ _).
#[local] Abbreviation clist := (@EventUtils.clist target).
#[local] Abbreviation fn := (@EventUtils.fn target).
#[local] Abbreviation evt := (@EventUtils.evt target).
Implicit Types (t : target) (w : world) (n : jstr) (l : clist).

(** ** The listeners of the browser *)
Definition entry : Type := target * jstr * listener * bool.

(** A listener added twice is there once. *)
Definition hear (es : list entry) (c : ncall) : list entry :=
  match c with
  | AddListener t n x c => if bool_decide ((t, n, x, c) ∈ es) then es else es ++ [(t, n, x, c)]
  | RemoveListener t n x c => base.filter (λ e, e ≠ (t, n, x, c)) es
  end.

Definition listening w : list entry := fold_left hear (log w) [].

(** ** The abstract view *)

(** The array of an id and a name. *)
Definition slot w (id : nat) n : option nat := events w !! id ≫= Obj.get n.

Definition bound w t n : list fn :=
  default [] (id ← expandos w !! t; a ← slot w id n; funcs <$> lists w !! a).

Definition spec : Type := target -> jstr -> list fn.

Inductive op :=
  | OBind (t : target) (names : jstr) (callback : nat) (scope : option target)
  | OUnbind (t : target) (names : option jstr) (callback : option nat)
  | OClean (t : target).

Definition spec_bind t names callback scope (s : spec) : spec := λ t' n',
  s t' n' ++ (if bool_decide (t' = t)
              then replicate (length (base.filter (λ n, n = n') (split_unit 32 names))) (callback, Some (default t scope))
              else []).

Definition spec_unbind t (names : option jstr) (callback : option nat) (s : spec) : spec := λ t' n',
  if bool_decide (t' = t) && (match names with Some ((_ :: _) as names) => bool_decide (n' ∈ split_unit 32 names) | _ => true end)
  then match names, callback with
       | Some (_ :: _), Some f => base.filter (λ g, fst g ≠ f) (s t' n')
       | _, _ => []
       end
  else s t' n'.

(** The targets [clean] unbinds. *)
Definition cleaned t : list target :=
  t :: match (match elements t with Some _ => Some t | None => document_of t end) with
       | Some d => match elements d with Some l => d :: l | None => [] end
       | None => []
       end.

Definition spec_op (o : op) (s : spec) : spec :=
  match o with
  | OBind t names f scope => if skipped t then s else spec_bind t names f scope s
  | OUnbind t names f => if skipped t then s else spec_unbind t names f s
  | OClean t => if skipped t then s else λ t' n', if bool_decide (t' ∈ cleaned t) then [] else s t' n'
  end.

(** Names without a meaning of their own: not the ready event, not a member every object inherits. *)
Definition plain_name n : bool :=
  negb (str_eqb n (js "ready") || str_eqb n (js "DOMContentLoaded") || Obj.is_proto n).
Definition plain_names (names : jstr) : bool := forallb plain_name (split_unit 32 names).
Definition plain_op (o : op) : bool :=
  match o with
  | OBind _ names _ _ => plain_names names
  | OUnbind _ (Some names) _ => plain_names names
  | _ => true
  end.

Section Ops.
Context (env : fn -> world -> evt -> option (world * evt * bool)).

Definition run_op (o : op) w : option world :=
  match o with
  | OBind t names f scope => bind env t names f scope w
  | OUnbind t names f => unbind t names f w
  | OClean t => clean t w
  end.

Definition run_ops (os : list op) w : option world := fold_left (λ r o, w ← r; run_op o w) os (Some w).
End Ops.

(** ** Listener lemmas *)
Lemma listening_add_log c w : listening (add_log c w) = hear (listening w) c.
Proof. unfold listening; simpl. by rewrite fold_left_app. Qed.

Lemma elem_of_hear (e : entry) es c : e ∈ hear es c ↔
  match c with
  | AddListener t n x c => e = (t, n, x, c) ∨ e ∈ es
  | RemoveListener t n x c => e ≠ (t, n, x, c) ∧ e ∈ es
  end.
Proof.
  destruct c; simpl.
  - case_bool_decide; [naive_solver|]. rewrite elem_of_app, list_elem_of_singleton. tauto.
  - rewrite list_elem_of_filter. done.
Qed.

Lemma NoDup_hear (es : list entry) c : NoDup es → NoDup (hear es c).
Proof.
  intros. destruct c; simpl; [case_bool_decide; [done|]|by apply NoDup_filter].
  apply NoDup_app; split_and!; [done| |apply NoDup_singleton]. set_solver.
Qed.

Lemma NoDup_listening w : NoDup (listening w).
Proof.
  unfold listening. assert (NoDup ([] : list entry)) as Hn by constructor. revert Hn.
  generalize ([] : list entry). induction (log w) as [|c cs IH]; simpl; [done|].
  intros es Hes. apply IH. by apply NoDup_hear.
Qed.

(** ** The kinds of names *)

(** The kind of a name's handler, its other name, whether it captures. *)
Definition shape n : kind * option jstr * bool :=
  let '(h, f, c, _) := native_for 0 0 n (init : world) in (n_kind h, f, c).
Definition k_of n := fst (fst (shape n)).
Definition fake_of n := snd (fst (shape n)).
Definition cap_of n := snd (shape n).
Definition shown n : jstr := default n (fake_of n).

Lemma native_for_shape id d n w : ∃ s w', native_for id d n w = (MkNative (k_of n) id s, fake_of n, cap_of n, w') ∧
  (w' = w ∨ w' = next_serial w).
Proof.
  unfold k_of, fake_of, cap_of, shape, native_for.
  destruct (negb hasFocusIn && _); simpl; [eauto|].
  destruct (if hasMouseEnterLeave then _ else _); simpl; eauto.
Qed.

Lemma shape_cases n : shape n = (KDefault, None, false) ∨
  (n = js "focusin" ∧ shape n = (KFocus, Some (js "focus"), true)) ∨
  (n = js "focusout" ∧ shape n = (KFocus, Some (js "blur"), true)) ∨
  (n = js "mouseenter" ∧ shape n = (KMouse, Some (js "mouseover"), false)) ∨
  (n = js "mouseleave" ∧ shape n = (KMouse, Some (js "mouseout"), false)).
Proof.
  unfold shape, native_for, mouseEnterLeave.
  destruct hasFocusIn, hasMouseEnterLeave; simpl; auto;
    repeat match goal with |- context [str_eqb n ?m] => destruct (str_eqb n m) eqn:?E; simpl end;
    rewrite ?str_eqb_true in *; auto 10.
Qed.

(** A list that belongs to a name; after a callback was removed it only keeps its handler. *)
Record fits (id : nat) n l : Prop := {
  fit_kind : n_kind (nativeHandler l) = k_of n;
  fit_id : n_id (nativeHandler l) = id;
  fit_rest : fakeName l = fake_of n ∧ capture l = cap_of n ∨ fakeName l = None ∧ capture l = false
}.

(** The name [unbind] removes the handler under. *)
Definition gone n l : jstr := match fakeName l with Some (c :: s) => c :: s | _ => n end.

Lemma gone_ne id n l n' h x : fits id n l → n ≠ n' → nativeHandler l = h → n_kind h = k_of n' →
  (gone n l, LNative h, x) ≠ (shown n', LNative h, cap_of n').
Proof.
  intros [Hk _ Hr] Hne Hh Hk' [= Hs Hx].
  unfold gone, shown, k_of, fake_of, cap_of in *. rewrite Hh in Hk.
  destruct (shape_cases n) as [E|[[-> E]|[[-> E]|[[-> E]|[-> E]]]]];
    destruct (shape_cases n') as [E'|[[-> E']|[[-> E']|[[-> E']|[-> E']]]]];
    try congruence; rewrite E, E' in *; simpl in *; try congruence; destruct Hr as [[Hf Hc]|[Hf Hc]]; rewrite Hf in *; simpl in *; try congruence; try discriminate.
Qed.

(** A default handler is removed under its own name. *)
Lemma gone_default id n l : fits id n l → n_kind (nativeHandler l) = KDefault → gone n l = n ∧ capture l = false ∧ shown n = n ∧ cap_of n = false.
Proof.
  intros [Hk _ Hr] Hd. unfold gone, shown, k_of, fake_of, cap_of in *. rewrite Hd in Hk.
  destruct (shape_cases n) as [E|[[-> E]|[[-> E]|[[-> E]|[-> E]]]]]; rewrite E in *; simpl in *; try done.
  destruct Hr as [[Hf Hc]|[Hf Hc]]; by rewrite Hf, Hc.
Qed.

(** ** The invariant *)

(** The ids belong to one target each, the arrays to one name of one id. *)
Record arranged w : Prop := {
  g_id : ∀ t id, expandos w !! t = Some id → is_Some (events w !! id);
  g_skip : ∀ t id, expandos w !! t = Some id → skipped t = false;
  g_inj : ∀ t t' id, expandos w !! t = Some id → expandos w !! t' = Some id → t = t';
  g_fresh : ∀ id, is_Some (events w !! id) → (id < count w)%nat;
  g_keys : ∀ id m, events w !! id = Some m → NoDup (Obj.keys m);
  g_arr : ∀ id n a, slot w id n = Some a → ∃ l, lists w !! a = Some l ∧ fits id n l;
  g_share : ∀ id n id' n' a, slot w id n = Some a → slot w id' n' = Some a → id = id' ∧ n = n'
}.

(** Each array's handler listens, and a default handler that listens is that of the array of its name. *)
Record good w : Prop := {
  g_arranged :> arranged w;
  g_on : ∀ t id n a l, expandos w !! t = Some id → slot w id n = Some a → lists w !! a = Some l →
    (t, shown n, LNative (nativeHandler l), cap_of n) ∈ listening w;
  g_off : ∀ t x c X, (t, X, x, c) ∈ listening w → ∃ h, x = LNative h ∧
    (n_kind h = KDefault → c = false ∧ ∃ id a l, expandos w !! t = Some id ∧ slot w id X = Some a ∧
       lists w !! a = Some l ∧ nativeHandler l = h) ∧
    (n_kind h ≠ KDefault → ∃ n, fake_of n = Some X)
}.

(** Arrays that exist only grow. *)
Definition extends w w' : Prop := ∀ a l, lists w !! a = Some l → ∃ l', lists w' !! a = Some l' ∧ funcs l `prefix_of` funcs l'.

#[export] Instance extends_po : PreOrder extends.
Proof.
  split.
  - intros w a l Hl. by exists l.
  - intros w1 w2 w3 H1 H2 a l Hl. destruct (H1 a l Hl) as (l2 & Hl2 & ?), (H2 a _ Hl2) as (l3 & Hl3 & ?).
    exists l3. split; [done|]. by etrans.
Qed.

Lemma good_init : good init.
Proof. split; [split; try done; by intros id []|done|]. intros ???? Hin. by apply not_elem_of_nil in Hin. Qed.

Lemma bound_Some w t n id : expandos w !! t = Some id →
  bound w t n = default [] (slot w id n ≫= λ a, funcs <$> lists w !! a).
Proof. unfold bound. by intros ->. Qed.

Lemma bound_slot w t n id a l : expandos w !! t = Some id → slot w id n = Some a → lists w !! a = Some l →
  bound w t n = funcs l.
Proof. intros Ht Hs Hl. rewrite (bound_Some _ _ _ id) by done. by rewrite Hs; simpl; rewrite Hl. Qed.

Lemma bound_None w t n : expandos w !! t = None → bound w t n = [].
Proof. unfold bound. by intros ->. Qed.

Lemma bound_no_slot w t n id : expandos w !! t = Some id → slot w id n = None → bound w t n = [].
Proof. intros Ht Hs. rewrite (bound_Some _ _ _ id) by done. by rewrite Hs. Qed.

Lemma find_in_plain m n : plain_name n = true → find_in m n = match Obj.get n m with Some a => FList a | None => FNothing end.
Proof. unfold plain_name, find_in. destruct (Obj.get n m); [done|]. by destruct (Obj.is_proto n); rewrite ?orb_true_r. Qed.

(** *** Giving a target an id *)
Lemma target_id_ok t w : good w → skipped t = false → ∃ id w', target_id t w = (id, w') ∧ good w' ∧ expandos w' !! t = Some id ∧
  (∀ t' n', bound w' t' n' = bound w t' n') ∧ extends w w' ∧ domLoaded w' = domLoaded w.
Proof.
  intros Hg Hskip. unfold target_id. destruct (expandos w !! t) as [id|] eqn:Et.
  { exists id, w. by split_and!. }
  eexists _, _. split; [done|].
  assert (∀ id n a, slot w id n = Some a → id ≠ count w) as Hne.
  { intros id n a. unfold slot. destruct (events w !! id) eqn:Eid; [|done]. simpl. intros _ ->.
    assert (count w < count w)%nat by (apply (g_fresh w Hg); rewrite Eid; eauto). lia. }
  assert (∀ id n, slot (MkWorld (<[count w := []]> (events w)) (S (count w)) (<[t := count w]> (expandos w))
    (lists w) (log w) (serial w) (domLoaded w)) id n = slot w id n) as Hs.
  { intros id n. unfold slot at 1. simpl. destruct (decide (id = count w)) as [->|].
    - rewrite lookup_insert_eq. simpl. symmetry. destruct (slot w _ n) eqn:E; [|done]. by apply Hne in E.
    - by rewrite lookup_insert_ne. }
  assert (∀ t' id', expandos w !! t' = Some id' → id' ≠ count w) as Hid.
  { intros t' id' Ht' ->. apply (g_id w Hg), (g_fresh w Hg) in Ht'. lia. }
  split_and!; simpl.
  - split; [split|..]; simpl.
    + intros t' id' [[-> <-]|[? Ht']]%lookup_insert_Some; [by rewrite lookup_insert_eq|].
      rewrite lookup_insert_ne by (by apply not_eq_sym, (Hid t')). by eapply (g_id w Hg).
    + intros t' id' [[-> _]|[_ ?]]%lookup_insert_Some; [done|by eapply (g_skip w Hg)].
    + intros t1 t2 id [[-> <-]|[? H1]]%lookup_insert_Some [[-> E2]|[? H2]]%lookup_insert_Some; try done.
      * by apply Hid in H2.
      * subst. by apply Hid in H1.
      * by eapply (g_inj w Hg).
    + intros id. destruct (decide (id = count w)) as [->|]; [lia|]. rewrite lookup_insert_ne by done.
      intros ?%(g_fresh w Hg). lia.
    + intros id m [[? ?]|[? ?]]%lookup_insert_Some; [subst; constructor|by eapply (g_keys w Hg)].
    + intros id n a. rewrite Hs. apply (g_arr w Hg).
    + intros id n id' n' a. rewrite !Hs. apply (g_share w Hg).
    + intros t' id n a l [[? ?]|[? Ht']]%lookup_insert_Some; rewrite Hs.
      * intros ?%Hne. subst. done.
      * intros. by eapply (g_on w Hg).
    + intros t' x c X Hin. destruct (g_off w Hg t' x c X Hin) as (h & -> & Hd & Hf). exists h. split_and!; [done| |done].
      intros Hk. destruct (Hd Hk) as (? & id & a & l & ? & ? & ? & ?). split; [done|]. exists id, a, l.
      rewrite Hs. split_and!; try done. rewrite lookup_insert_ne; [done|]. naive_solver.
  - by rewrite lookup_insert_eq.
  - intros t' n'. unfold bound. simpl. destruct (decide (t = t')) as [->|].
    + rewrite lookup_insert_eq, Et. simpl. rewrite Hs. destruct (slot w _ n') eqn:E; [|done]. by apply Hne in E.
    + rewrite lookup_insert_ne by done. destruct (expandos w !! t'); [|done]. simpl. by rewrite Hs.
  - intros a l Hl. by exists l.
  - done.
Qed.

(** *** A new array for a name *)
Definition put id n l w : world :=
  set_events (alter (Obj.set n (length (lists w))) id (events w)) (set_lists (lists w ++ [l]) w).

Lemma slot_put id n l w id' n' : is_Some (events w !! id) →
  slot (put id n l w) id' n' = if bool_decide (id' = id ∧ n' = n) then Some (length (lists w)) else slot w id' n'.
Proof.
  intros [m Hm]. unfold slot. simpl. destruct (decide (id' = id)) as [->|].
  - rewrite lookup_alter_eq, Hm. simpl. rewrite Obj.get_set. repeat case_decide; case_bool_decide; naive_solver.
  - rewrite lookup_alter_ne by done. rewrite bool_decide_false by naive_solver. done.
Qed.

Lemma lists_put id n l w a : lists (put id n l w) !! a = if bool_decide (a = length (lists w)) then Some l else lists w !! a.
Proof.
  simpl. case_bool_decide; subst; [by rewrite list_lookup_middle|].
  destruct (decide (a < length (lists w))%nat); [by rewrite lookup_app_l|].
  rewrite !lookup_ge_None_2; [done|lia|]. rewrite length_app; simpl; lia.
Qed.

Lemma slot_old w id n : arranged w → slot w id n ≠ Some (length (lists w)).
Proof. intros Hg Hs. apply g_arr in Hs as (l & Hl & _); [|done]. apply lookup_lt_Some in Hl. lia. Qed.

Lemma bound_put id n l w t t' n' : arranged w → expandos w !! t = Some id →
  bound (put id n l w) t' n' = if bool_decide (t' = t ∧ n' = n) then funcs l else bound w t' n'.
Proof.
  intros Hg Ht. unfold bound at 1. simpl. unfold bound. destruct (expandos w !! t') as [id'|] eqn:Et'; simpl.
  - rewrite slot_put by by eapply g_id. case_bool_decide as Hd; simpl.
    + destruct Hd as [-> ->]. rewrite (bool_decide_true (t' = t ∧ _)) by (split; [by eapply g_inj|done]).
      by rewrite list_lookup_middle.
    + rewrite (bool_decide_false (t' = t ∧ _)) by naive_solver.
      destruct (slot w id' n') as [a|] eqn:Es; [|done]. simpl. change (lists w ++ [l]) with (lists (put id n l w)).
      rewrite lists_put, bool_decide_false; [done|]. intros ->. by apply slot_old in Es.
  - rewrite bool_decide_false by naive_solver. done.
Qed.

Lemma extends_put id n l w : extends w (put id n l w).
Proof. intros a l' Hl. exists l'. split; [|done]. simpl. by apply lookup_app_l_Some. Qed.

Lemma arranged_put id n l w : arranged w → is_Some (events w !! id) → fits id n l → arranged (put id n l w).
Proof.
  intros Hg Hid Hf. split; simpl.
  - intros t id' Ht. rewrite lookup_alter_is_Some. by eapply g_id.
  - apply (g_skip w Hg).
  - apply (g_inj w Hg).
  - intros id'. rewrite lookup_alter_is_Some. apply (g_fresh w Hg).
  - intros id' m. rewrite lookup_alter_Some. intros [(<- & m' & Hm & ->)|[_ Hm]].
    + apply Obj.keys_NoDup_set. by eapply g_keys.
    + by eapply g_keys.
  - intros id' n' a. rewrite slot_put by done. change (lists w ++ [l]) with (lists (put id n l w)). rewrite lists_put.
    case_bool_decide as Hd.
    + intros [= <-]. rewrite bool_decide_true by done. destruct Hd as [-> ->]. eauto.
    + intros Hs. rewrite bool_decide_false by (intros ->; by apply slot_old in Hs). by apply (g_arr w Hg).
  - intros id1 n1 id2 n2 a. rewrite !slot_put by done.
    repeat case_bool_decide; intros Hs1 Hs2; simplify_eq.
    + naive_solver.
    + by apply slot_old in Hs2.
    + by apply slot_old in Hs1.
    + by eapply (g_share w Hg).
Qed.

Lemma arranged_add_log c w : arranged w → arranged (add_log c w).
Proof. intros Hg. split; apply Hg. Qed.

Lemma put_new_good t id n l w : good w → expandos w !! t = Some id → slot w id n = None → fits id n l →
  good (add_log (AddListener t (shown n) (LNative (nativeHandler l)) (cap_of n)) (put id n l w)).
Proof.
  intros Hg Ht Hs Hf. assert (is_Some (events w !! id)) as Hid by by eapply (g_id w Hg).
  split; [apply arranged_add_log, arranged_put; [apply Hg|done|done]|..].
  - intros t' id' n' a l' Ht' Hs' Hl'. rewrite listening_add_log, elem_of_hear.
    change (slot (put id n l w) id' n' = Some a) in Hs'. change (lists (put id n l w) !! a = Some l') in Hl'.
    rewrite slot_put in Hs' by done. rewrite lists_put in Hl'. destruct (decide (id' = id ∧ n' = n)) as [[-> ->]|Hd].
    + rewrite bool_decide_true in Hs' by done. injection Hs' as <-. rewrite bool_decide_true in Hl' by done. injection Hl' as <-.
      rewrite (g_inj w Hg t t' id) by done. by left.
    + right. rewrite bool_decide_false in Hs' by done. rewrite bool_decide_false in Hl' by (intros ->; by apply (slot_old w _ _ Hg) in Hs').
      by eapply (g_on w Hg).
  - intros t' x c X. rewrite listening_add_log, elem_of_hear. intros [Heq|Hin].
    + simplify_eq. exists (nativeHandler l). split; [done|]. split; intros Hk.
      * pose proof (gone_default id n l Hf Hk) as (_ & _ & Hn & Hc). rewrite Hn, Hc. split; [done|].
        exists id, (length (lists w)), l. split_and!; [done| | |done].
        -- change (slot (put id n l w) id n = Some (length (lists w))). rewrite slot_put by done. by rewrite bool_decide_true.
        -- by apply list_lookup_middle.
      * exists n. rewrite (fit_kind _ _ _ Hf) in Hk. unfold k_of, shown, fake_of in *.
        destruct (shape_cases n) as [E|[[-> E]|[[-> E]|[[-> E]|[-> E]]]]]; by rewrite E in *.
    + destruct (g_off w Hg t' x c X Hin) as (h & -> & Hd & Hk). exists h. split_and!; [done| |done].
      intros Hh. destruct (Hd Hh) as (? & id' & a & l' & Ht' & Hs' & Hl' & ?). split; [done|]. exists id', a, l'.
      split_and!; [done| | |done].
      * change (slot (put id n l w) id' X = Some a). rewrite slot_put by done. rewrite bool_decide_false; naive_solver.
      * by apply lookup_app_l_Some.
Qed.

(** *** An array changed in place, or replaced by one with the same handler *)
Lemma put_old_good id n a l l' w : good w → slot w id n = Some a → lists w !! a = Some l → fits id n l' →
  nativeHandler l' = nativeHandler l → good (put id n l' w).
Proof.
  intros Hg Hs Hl Hf Hh. assert (is_Some (events w !! id)) as Hid.
  { unfold slot in Hs. destruct (events w !! id); [eauto|done]. }
  split; [apply arranged_put; [apply Hg|done|done]|..].
  - intros t' id' n' a' l1 Ht' Hs' Hl'. change (listening (put id n l' w)) with (listening w).
    rewrite slot_put in Hs' by done. rewrite lists_put in Hl'. destruct (decide (id' = id ∧ n' = n)) as [[-> ->]|Hd].
    + rewrite bool_decide_true in Hs' by done. injection Hs' as <-. rewrite bool_decide_true in Hl' by done. injection Hl' as <-.
      rewrite Hh. by eapply (g_on w Hg).
    + rewrite bool_decide_false in Hs' by done. rewrite bool_decide_false in Hl' by (intros ->; by apply (slot_old w _ _ Hg) in Hs').
      by eapply (g_on w Hg).
  - intros t' x c X. change (listening (put id n l' w)) with (listening w). intros Hin.
    destruct (g_off w Hg t' x c X Hin) as (h & -> & Hd & Hk). exists h. split_and!; [done| |done].
    intros Hkd. destruct (Hd Hkd) as (? & id' & a' & l1 & Ht' & Hs' & Hl' & ?). split; [done|].
    destruct (decide (id' = id ∧ X = n)) as [[-> ->]|Hne].
    + exists id, (length (lists w)), l'. rewrite slot_put, bool_decide_true by done. rewrite lists_put, bool_decide_true by done.
      simplify_eq. by split_and!.
    + exists id', a', l1. rewrite slot_put, bool_decide_false by done. split_and!; [done..| |done].
      rewrite lists_put, bool_decide_false; [done|]. intros ->. by apply (slot_old w _ _ Hg) in Hs'.
Qed.

Definition push a (f : fn) w : world :=
  set_lists (alter (λ l, MkList (funcs l ++ [f]) (fakeName l) (capture l) (nativeHandler l)) a (lists w)) w.

Lemma lists_push a f w a' : lists (push a f w) !! a' =
  (if bool_decide (a' = a) then λ l, MkList (funcs l ++ [f]) (fakeName l) (capture l) (nativeHandler l) else id) <$> lists w !! a'.
Proof.
  simpl. case_bool_decide; subst; [by rewrite list_lookup_alter_eq|]. rewrite list_lookup_alter_ne by done.
  by destruct (lists w !! a').
Qed.

(** The list of an array after a push has the members it had. *)
Lemma push_Some a f w a' l : lists w !! a' = Some l → ∃ l', lists (push a f w) !! a' = Some l' ∧
  nativeHandler l' = nativeHandler l ∧ fakeName l' = fakeName l ∧ capture l' = capture l ∧
  funcs l' = funcs l ++ (if bool_decide (a' = a) then [f] else []).
Proof. rewrite lists_push. intros ->. case_bool_decide; simpl; eexists; split_and!; try done. by rewrite app_nil_r. Qed.

Lemma push_lookup a f w a' l' : lists (push a f w) !! a' = Some l' → ∃ l, lists w !! a' = Some l ∧ nativeHandler l' = nativeHandler l.
Proof.
  intros Hl. destruct (lists w !! a') as [l|] eqn:E; [|rewrite lists_push, E in Hl; done].
  destruct (push_Some a f w a' l E) as (l1 & Hl1 & ? & _). simplify_eq. eauto.
Qed.

Lemma push_good a f w : good w → good (push a f w).
Proof.
  intros Hg. split; [split; try apply Hg|..].
  - intros id n a' Hs. destruct (g_arr w Hg id n a' Hs) as (l & Hl & [Hk Hi Hr]).
    destruct (push_Some a f w a' l Hl) as (l' & ? & Hh & Hf & Hc & _). exists l'. split; [done|].
    split; congruence || (rewrite Hf, Hc; tauto).
  - intros t id n a' l' Ht Hs (l & Hl & ->)%push_lookup. by eapply (g_on w Hg).
  - intros t x c X Hin. destruct (g_off w Hg t x c X Hin) as (h & -> & Hd & Hk). exists h. split_and!; [done| |done].
    intros Hkd. destruct (Hd Hkd) as (? & id' & a' & l & ? & ? & Hl & ?). split; [done|].
    destruct (push_Some a f w a' l Hl) as (l' & ? & ? & _). exists id', a', l'. split_and!; [done|done|done|congruence].
Qed.

Lemma extends_push a f w : extends w (push a f w).
Proof.
  intros a' l Hl. destruct (push_Some a f w a' l Hl) as (l' & ? & _ & _ & _ & Hf). exists l'. split; [done|].
  rewrite Hf. by apply prefix_app_r.
Qed.

Lemma bound_push a f w t n id t' n' : arranged w → expandos w !! t = Some id → slot w id n = Some a →
  bound (push a f w) t' n' = bound w t' n' ++ (if bool_decide (t' = t ∧ n' = n) then [f] else []).
Proof.
  intros Hg Ht Hs. unfold bound. change (expandos (push a f w)) with (expandos w).
  destruct (expandos w !! t') as [id'|] eqn:Et'; simpl.
  - change (slot (push a f w)) with (slot w). destruct (slot w id' n') as [a'|] eqn:Es; simpl.
    + destruct (g_arr w Hg id' n' a' Es) as (l & Hl & _). destruct (push_Some a f w a' l Hl) as (l' & Hl' & _ & _ & _ & Hf).
      rewrite Hl. change (alter _ a (lists w)) with (lists (push a f w)). rewrite Hl'. simpl. rewrite Hf. f_equal.
      destruct (decide (a' = a)) as [->|Hne].
      * destruct (g_share w Hg id n id' n' a Hs Es) as [-> ->]. rewrite !bool_decide_true; [done| |done].
        split; [by eapply (g_inj w Hg)|done].
      * rewrite !bool_decide_false; [done| |done]. intros [-> ->]. congruence.
    + rewrite bool_decide_false; [done|]. intros [-> ->]. congruence.
  - rewrite bool_decide_false; [done|]. intros [-> ->]. congruence.
Qed.

(** ** bind *)
Lemma plain_name_not n : plain_name n = true →
  str_eqb n (js "ready") = false ∧ str_eqb n (js "DOMContentLoaded") = false ∧ Obj.is_proto n = false.
Proof. unfold plain_name. by intros [[? ?]%orb_false_iff ?]%negb_true_iff%orb_false_iff. Qed.

Lemma good_next_serial w : good w → good (next_serial w).
Proof. intros Hg. split; [split|..]; apply Hg. Qed.

(** What an operation keeps and does: the invariant, the lists. *)
Definition step_to w w' (s : spec) : Prop := good w' ∧ extends w w' ∧ ∀ t n, bound w' t n = s t n.

Section BindOk.
Context (env : fn -> world -> evt -> option (world * evt * bool)).

Lemma bind1_ok t id d f sc n w : good w → expandos w !! t = Some id → plain_name n = true →
  ∃ w', bind1 env t id d f sc n w = Some w' ∧ expandos w' !! t = Some id ∧
    step_to w w' (λ t' n', bound w t' n' ++ (if bool_decide (t' = t ∧ n' = n) then [(f, Some sc)] else [])).
Proof.
  intros Hg Ht Hn. destruct (plain_name_not n Hn) as (Hr & Hd & Hp).
  unfold bind1. rewrite Hd, Hr, andb_false_r. simpl.
  destruct (native_for_shape id d n w) as (s & w1 & -> & Hw1).
  assert (∃ w2, good w2 ∧ w1 = w2 ∧ expandos w2 = expandos w ∧ events w2 = events w ∧ lists w2 = lists w ∧ extends w w2) as
    (w2 & Hg2 & -> & He & Hev & Hl & Hx).
  { exists w1. destruct Hw1 as [-> | ->]; split_and!; try done; [by apply good_next_serial|]. intros a l Hl. by exists l. }
  assert (∀ t' n', bound w t' n' = bound w2 t' n') as Hb by (intros; unfold bound, slot; by rewrite He, Hev, Hl).
  rewrite <- He in Ht. destruct (g_id w2 Hg2 t id Ht) as [m Hm]. rewrite Hm. simpl.
  rewrite find_in_plain by done. assert (slot w2 id n = Obj.get n m) as Hs by (unfold slot; by rewrite Hm).
  destruct (Obj.get n m) as [a|] eqn:Eg; simpl.
  - eexists. split; [done|]. change (set_lists _ w2) with (push a (f, Some sc) w2). split; [done|]. split_and!.
    + by apply push_good.
    + etrans; [done|]. apply extends_push.
    + intros t' n'. rewrite Hb. by eapply bound_push; [apply Hg2| |].
  - set (l := MkList [(f, Some sc)] (fake_of n) (cap_of n) (MkNative (k_of n) id s)).
    assert (fits id n l) as Hf by (split; simpl; auto).
    assert (set_events (<[id:=Obj.set n (length (lists w2)) m]> (events w2)) (set_lists (lists w2 ++ [l]) w2) = put id n l w2) as ->.
    { unfold put. f_equal. apply map_eq. intros i. destruct (decide (i = id)) as [->|].
      - rewrite lookup_insert_eq, lookup_alter_eq, Hm. done.
      - by rewrite lookup_insert_ne, lookup_alter_ne. }
    eexists. split; [done|]. split; [done|]. split_and!.
    + by apply put_new_good.
    + etrans; [done|]. apply extends_put.
    + intros t' n'. rewrite Hb. change (bound (put id n l w2) t' n' = bound w2 t' n' ++ (if bool_decide (t' = t ∧ n' = n) then [(f, Some sc)] else [])).
      rewrite (bound_put id n l w2 t) by (done || apply Hg2). case_bool_decide as Hc; [|by rewrite app_nil_r].
      destruct Hc as [-> ->]. by rewrite (bound_no_slot w2 t n id).
Qed.

Lemma bind_fold_ok t id d f sc names w : good w → expandos w !! t = Some id → forallb plain_name names = true →
  ∃ w', fold_right (λ n r, w ← r; bind1 env t id d f sc n w) (Some w) names = Some w' ∧ expandos w' !! t = Some id ∧
    step_to w w' (λ t' n', bound w t' n' ++
      (if bool_decide (t' = t) then replicate (length (base.filter (λ n, n = n') names)) (f, Some sc) else [])).
Proof.
  intros Hg Ht. induction names as [|n names IH]; simpl.
  { intros _. exists w. unfold step_to. split_and!; try done. intros t' n'. case_bool_decide; by rewrite app_nil_r. }
  intros [Hn Hns]%andb_true_iff. destruct IH as (w1 & -> & Ht1 & Hg1 & Hx1 & Hb1); [done|]. simpl.
  destruct (bind1_ok t id d f sc n w1 Hg1 Ht1 Hn) as (w2 & -> & Ht2 & Hg2 & Hx2 & Hb2).
  exists w2. unfold step_to. split_and!; [done..|by etrans|]. intros t' n'. rewrite Hb2, Hb1, <- app_assoc. f_equal.
  rewrite filter_cons. destruct (decide (t' = t)) as [->|]; [|by rewrite !bool_decide_false by naive_solver].
  rewrite (bool_decide_true (t = t)) by done. case_decide; subst; simpl.
  - rewrite bool_decide_true by done. rewrite <- replicate_cons_app. done.
  - rewrite bool_decide_false by naive_solver. by rewrite app_nil_r.
Qed.

Lemma bind_ok t names f scope w : good w → plain_names names = true → skipped t = false →
  ∃ w', bind env t names f scope w = Some w' ∧ step_to w w' (spec_bind t names f scope (bound w)).
Proof.
  intros Hg Hn Hs. unfold bind. rewrite Hs.
  destruct (target_id_ok t w Hg Hs) as (id & w1 & -> & Hg1 & Ht1 & Hb1 & Hx1 & _).
  destruct (bind_fold_ok t id (serial w1) f (default t scope) (split_unit 32 names) (next_serial w1))
    as (w2 & -> & _ & Hg2 & Hx2 & Hb2); [by apply good_next_serial|done|done|].
  exists w2. split; [done|]. split_and!; [done| |].
  - etrans; [done|]. etrans; [|done]. intros a l Hl. by exists l.
  - intros t' n'. rewrite Hb2. unfold spec_bind. rewrite <- Hb1. done.
Qed.
End BindOk.

(** ** unbind *)
Lemma get_list_Some a w l : lists w !! a = Some l → get_list a w = l.
Proof. unfold get_list. by intros ->. Qed.

Lemma fits_clone id n l (fs : list fn) : fits id n l → fits id n (MkList fs None false (nativeHandler l)).
Proof. intros [Hk Hi _]. split; simpl; auto. Qed.

Lemma drop_callback_ok t id n f k : ∀ a l w, good w → expandos w !! t = Some id → slot w id n = Some a → lists w !! a = Some l →
  ∃ a' l' w', drop_callback k f id n a w = (a', w') ∧ slot w' id n = Some a' ∧ lists w' !! a' = Some l' ∧
    expandos w' = expandos w ∧ funcs l' = base.filter (λ g, g.1 ≠ f) (take k (funcs l)) ++ drop k (funcs l) ∧
    step_to w w' (λ t' n', if bool_decide (t' = t ∧ n' = n) then funcs l' else bound w t' n').
Proof.
  induction k as [|k IH]; intros a l w Hg Ht Hs Hl; simpl.
  { exists a, l, w. unfold step_to. rewrite drop_0. split_and!; try done. intros t' n'. case_bool_decide as Hc; [|done].
    destruct Hc as [-> ->]. by eapply bound_slot. }
  rewrite (get_list_Some a w l Hl). case_bool_decide as Hc.
  - set (l1 := MkList (take k (funcs l) ++ drop (S k) (funcs l)) None false (nativeHandler l)).
    change (set_events _ _) with (put id n l1 w). destruct (funcs l !! k) as [g|] eqn:Ek; simpl in Hc; [|done]. simplify_eq.
    assert (k < length (funcs l))%nat by by eapply lookup_lt_Some.
    assert (is_Some (events w !! id)) as Hid by by eapply (g_id w Hg).
    destruct (IH (length (lists w)) l1 (put id n l1 w)) as (a' & l' & w' & -> & Hs' & Hl' & He & Hf & Hg' & Hx & Hb); [|done|..].
    + destruct (g_arr w Hg id n a Hs) as (l0 & ? & Hfit). simplify_eq. by apply (put_old_good id n a l); [..|apply fits_clone|].
    + rewrite slot_put by done. by rewrite bool_decide_true.
    + rewrite lists_put. by rewrite bool_decide_true.
    + exists a', l', w'. unfold step_to. split_and!; try done.
      * rewrite Hf. simpl. rewrite take_app_le, take_take, Nat.min_id by (rewrite length_take; lia).
        rewrite drop_app_ge, length_take, Nat.min_l, Nat.sub_diag, drop_0 by (rewrite ?length_take; lia).
        rewrite (take_S_r _ _ g) by done. rewrite filter_app, filter_cons_False by naive_solver.
        by rewrite filter_nil, app_nil_r.
      * etrans; [apply extends_put|done].
      * intros t' n'. rewrite Hb, (bound_put id n l1 w t) by (done || apply Hg). by case_bool_decide.
  - destruct (IH a l w Hg Ht Hs Hl) as (a' & l' & w' & -> & Hs' & Hl' & He & Hf & Hst).
    exists a', l', w'. split_and!; try done. rewrite Hf. destruct (funcs l !! k) as [g|] eqn:Ek.
    + rewrite (take_S_r _ _ g), filter_app by done. rewrite filter_cons_True by (intros <-; done).
      rewrite filter_nil, <- app_assoc. f_equal. by rewrite (drop_S _ g).
    + apply lookup_ge_None in Ek. by rewrite (take_ge _ k), (take_ge _ (S k)), (drop_ge _ k), (drop_ge _ (S k)) by (exact Ek || by apply le_S).
Qed.

Lemma slot_delete id n w id' n' : slot (set_events (alter (Obj.delete n) id (events w)) w) id' n' =
  if bool_decide (id' = id ∧ n' = n) then None else slot w id' n'.
Proof.
  unfold slot. simpl. destruct (decide (id' = id)) as [->|].
  - rewrite lookup_alter_eq. destruct (events w !! id) as [m|]; simpl; [|by case_bool_decide].
    case_bool_decide as Hc; [destruct Hc as [_ ->]; by rewrite Obj.get_delete_eq|].
    rewrite Obj.get_delete_ne; naive_solver.
  - rewrite lookup_alter_ne by done. rewrite bool_decide_false by naive_solver. done.
Qed.

Lemma remove_list_unfold t id n a w l : lists w !! a = Some l → remove_list t id n a w =
  add_log (RemoveListener t (gone n l) (LNative (nativeHandler l)) (capture l)) (set_events (alter (Obj.delete n) id (events w)) w).
Proof. intros Hl. unfold remove_list. rewrite (get_list_Some a w l Hl). done. Qed.

Lemma remove_list_ok t id n a l w : good w → expandos w !! t = Some id → slot w id n = Some a → lists w !! a = Some l →
  step_to w (remove_list t id n a w) (λ t' n', if bool_decide (t' = t ∧ n' = n) then [] else bound w t' n') ∧
  expandos (remove_list t id n a w) = expandos w.
Proof.
  intros Hg Ht Hs Hl. rewrite (remove_list_unfold _ _ _ _ _ l) by done. split; [|done].
  destruct (g_arr w Hg id n a Hs) as (l0 & ? & Hfit). simplify_eq.
  assert (∀ id' n', slot (add_log (RemoveListener t (gone n l) (LNative (nativeHandler l)) (capture l))
    (set_events (alter (Obj.delete n) id (events w)) w)) id' n' = if bool_decide (id' = id ∧ n' = n) then None else slot w id' n') as Hsl.
  { intros. rewrite <- slot_delete. done. }
  split_and!; [split; [split|..]|..].
  - intros t' id' Ht'. simpl. rewrite lookup_alter_is_Some. by eapply (g_id w Hg).
  - apply (g_skip w Hg).
  - apply (g_inj w Hg).
  - intros id'. simpl. rewrite lookup_alter_is_Some. apply (g_fresh w Hg).
  - intros id' m. simpl. rewrite lookup_alter_Some. intros [(<- & m' & Hm & ->)|[_ Hm]].
    + apply Obj.keys_NoDup_delete. by eapply (g_keys w Hg).
    + by eapply (g_keys w Hg).
  - intros id' n' a'. rewrite Hsl. case_bool_decide; [done|]. apply (g_arr w Hg).
  - intros id1 n1 id2 n2 a'. rewrite !Hsl. repeat case_bool_decide; try done. apply (g_share w Hg).
  - intros t' id' n' a' l' Ht' Hs' Hl'. rewrite Hsl in Hs'. case_bool_decide as Hc; [done|].
    rewrite listening_add_log, elem_of_hear. split; [|by eapply (g_on w Hg)].
    destruct (g_arr w Hg id' n' a' Hs') as (l0 & Hl0 & Hfit'). change (lists w !! a' = Some l') in Hl'.
    simplify_eq. change (expandos w !! t' = Some id') in Ht'.
    intros Heq. injection Heq as -> Hn Hh Hcap. assert (id' = id) as -> by congruence.
    eapply (gone_ne id n l n' (nativeHandler l') (capture l) Hfit); [naive_solver|done|apply Hfit'|congruence].
  - intros t' x c X. rewrite listening_add_log, elem_of_hear. intros [Hne Hin].
    destruct (g_off w Hg t' x c X Hin) as (h & -> & Hd & Hk). exists h. split_and!; [done| |done].
    intros Hkd. destruct (Hd Hkd) as (-> & id' & a' & l' & Ht' & Hs' & Hl' & Hh). split; [done|]. exists id', a', l'.
    split_and!; try done. rewrite Hsl, bool_decide_false; [done|]. intros [-> ->].
    assert (t' = t) as -> by by eapply (g_inj w Hg). simplify_eq.
    destruct (gone_default id n l Hfit Hkd) as (E1 & E2 & _). by rewrite E1, E2 in Hne.
  - intros a' l' Hl'. by exists l'.
  - intros t' n'. unfold bound. change (expandos (add_log _ _)) with (expandos w). change (lists (add_log _ _)) with (lists w).
    destruct (expandos w !! t') as [id'|] eqn:Et'; simpl; [|by case_bool_decide].
    rewrite Hsl. destruct (decide (id' = id ∧ n' = n)) as [[-> ->]|Hne].
    + rewrite !bool_decide_true; [done| |done]. split; [by eapply (g_inj w Hg)|done].
    + rewrite !bool_decide_false; [done| |done]. intros [-> ->]. naive_solver.
Qed.

(** The list of a target's name once [callback] is unbound. *)
Definition without (callback : option nat) (fs : list fn) : list fn :=
  match callback with Some f => base.filter (λ g, g.1 ≠ f) fs | None => [] end.

Lemma unbind1_ok t id callback n w : good w → expandos w !! t = Some id → plain_name n = true →
  ∃ w', unbind1 t id callback n w = Some w' ∧ expandos w' = expandos w ∧
    step_to w w' (λ t' n', if bool_decide (t' = t ∧ n' = n) then without callback (bound w t' n') else bound w t' n').
Proof.
  intros Hg Ht Hn. unfold unbind1. destruct (g_id w Hg t id Ht) as [m Hm]. rewrite Hm. simpl.
  rewrite find_in_plain by done. assert (slot w id n = Obj.get n m) as Hs by (unfold slot; by rewrite Hm).
  destruct (Obj.get n m) as [a|] eqn:Eg.
  2:{ exists w. unfold step_to. split_and!; try done. intros t' n'. case_bool_decide as Hc; [|done]. destruct Hc as [-> ->].
      rewrite (bound_no_slot w t n id) by done. by destruct callback. }
  destruct (g_arr w Hg id n a Hs) as (l & Hl & _). pose proof (bound_slot w t n id a l Ht Hs Hl) as Hb.
  destruct callback as [f|].
  - rewrite (get_list_Some a w l Hl).
    destruct (drop_callback_ok t id n f (length (funcs l)) a l w Hg Ht Hs Hl) as (a' & l' & w1 & -> & Hs1 & Hl1 & He & Hf & Hg1 & Hx1 & Hb1).
    rewrite take_ge, drop_ge, app_nil_r in Hf by done. rewrite bool_decide_false by done. simpl.
    rewrite (get_list_Some a' w1 l' Hl1). case_bool_decide as Hc.
    + destruct (remove_list_ok t id n a' l' w1 Hg1) as [(Hg2 & Hx2 & Hb2) He2]; [by rewrite He|done..|].
      eexists. split; [done|]. rewrite He2. split; [done|]. split_and!; [done|by etrans|].
      intros t' n'. rewrite Hb2, Hb1. case_bool_decide as Ht'; [|done]. destruct Ht' as [-> ->].
      by rewrite Hb, <- Hf, Hc.
    + exists w1. split; [done|]. split; [done|]. split_and!; [done..|]. intros t' n'. rewrite Hb1.
      case_bool_decide as Ht'; [|done]. destruct Ht' as [-> ->]. by rewrite Hb, <- Hf.
  - rewrite bool_decide_true by done. simpl.
    destruct (remove_list_ok t id n a l w Hg Ht Hs Hl) as [Hst He]. eauto.
Qed.

Lemma unbind_fold_ok t id callback names w : good w → expandos w !! t = Some id → forallb plain_name names = true →
  ∃ w', fold_right (λ n r, w ← r; unbind1 t id callback n w) (Some w) names = Some w' ∧ expandos w' = expandos w ∧
    step_to w w' (λ t' n', if bool_decide (t' = t ∧ n' ∈ names) then without callback (bound w t' n') else bound w t' n').
Proof.
  intros Hg Ht. induction names as [|n names IH]; simpl.
  { intros _. exists w. unfold step_to. split_and!; try done. intros t' n'. rewrite bool_decide_false by set_solver. done. }
  intros [Hn Hns]%andb_true_iff. destruct IH as (w1 & -> & He1 & Hg1 & Hx1 & Hb1); [done|]. simpl.
  destruct (unbind1_ok t id callback n w1 Hg1) as (w2 & -> & He2 & Hg2 & Hx2 & Hb2); [by rewrite He1|done|].
  exists w2. unfold step_to. split_and!; [done|by rewrite He2|done|by etrans|]. intros t' n'. rewrite Hb2, Hb1.
  destruct (decide (t' = t ∧ n' ∈ names)) as [Hc|Hc]; [rewrite (bool_decide_true (_ ∧ _ ∈ names)) by done|rewrite (bool_decide_false (_ ∧ _ ∈ names)) by done].
  - rewrite (bool_decide_true (_ ∧ n' ∈ n :: names)) by set_solver. case_bool_decide; [|done].
    destruct callback as [f|]; [|done]. simpl. rewrite list_filter_filter. apply list_filter_iff. naive_solver.
  - case_bool_decide as Hd.
    + rewrite bool_decide_true by set_solver. done.
    + rewrite bool_decide_false by set_solver. done.
Qed.

(** *** The end of a target *)
Lemma forget_ok t id w w1 : good w → expandos w !! t = Some id →
  events w1 = events w → count w1 = count w → expandos w1 = expandos w → lists w1 = lists w →
  (∀ e, e ∈ listening w1 → e ∈ listening w) →
  (∀ t' n x c, t' ≠ t → (t', n, x, c) ∈ listening w → (t', n, x, c) ∈ listening w1) →
  (∀ n h c, (t, n, LNative h, c) ∈ listening w1 → n_kind h ≠ KDefault) →
  step_to w (forget t id w1) (λ t' n', if bool_decide (t' = t) then [] else bound w t' n').
Proof.
  intros Hg Ht Hev Hco Hex Hli Hsub Hkeep Hgone.
  assert (∀ t', t' ≠ t → expandos w !! t' ≠ Some id) as Hother.
  { intros t' Hne Ht'. by rewrite (g_inj w Hg t' t id) in Hne. }
  assert (∀ id' n, slot (forget t id w1) id' n = if bool_decide (id' = id) then None else slot w id' n) as Hs.
  { intros id' n. unfold slot. simpl. rewrite Hev. case_bool_decide; subst; [by rewrite lookup_delete_eq|by rewrite lookup_delete_ne]. }
  split_and!; [split; [split|..]|..].
  - intros t' id'. simpl. rewrite Hex, Hev, lookup_delete_Some. intros [? Ht'].
    rewrite lookup_delete_ne by (intros ->; by apply (Hother t')). by eapply (g_id w Hg).
  - intros t' id'. simpl. rewrite Hex, lookup_delete_Some. intros [_ ?]. by eapply (g_skip w Hg).
  - intros t1 t2 id'. simpl. rewrite Hex, !lookup_delete_Some. intros [_ ?] [_ ?]. by eapply (g_inj w Hg).
  - intros id'. simpl. rewrite Hev, Hco. intros [m [_ Hm]%lookup_delete_Some]. apply (g_fresh w Hg). eauto.
  - intros id' m. simpl. rewrite Hev. intros [_ Hm]%lookup_delete_Some. by eapply (g_keys w Hg).
  - intros id' n a. rewrite Hs. case_bool_decide; [done|]. simpl. rewrite Hli. apply (g_arr w Hg).
  - intros id1 n1 id2 n2 a. rewrite !Hs. repeat case_bool_decide; try done. apply (g_share w Hg).
  - intros t' id' n a l. simpl. rewrite Hex, Hli, Hs. intros [? Ht']%lookup_delete_Some. case_bool_decide; [done|].
    intros Hsl Hl. apply Hkeep; [done|]. by eapply (g_on w Hg).
  - intros t' x c X Hin. change (listening (forget t id w1)) with (listening w1) in Hin.
    destruct (g_off w Hg t' x c X (Hsub _ Hin)) as (h & -> & Hd & Hk). exists h. split_and!; [done| |done].
    intros Hkd. destruct (Hd Hkd) as (-> & id' & a & l & Ht' & Hsl & Hl & Hh). split; [done|].
    assert (t' ≠ t) as Hne by (intros ->; by apply Hgone in Hin). exists id', a, l.
    simpl. rewrite Hex, Hli, Hs, bool_decide_false by (intros ->; by apply (Hother t')).
    by rewrite lookup_delete_ne by done.
  - intros a l Hl. simpl. rewrite Hli. eauto.
  - intros t' n. unfold bound. simpl. rewrite Hex, Hli. case_bool_decide as Hc; subst; [by rewrite lookup_delete_eq|].
    rewrite lookup_delete_ne by done. destruct (expandos w !! t') as [id'|] eqn:Et; [|done]. simpl.
    rewrite Hs, bool_decide_false; [done|]. intros ->. by apply (Hother t').
Qed.

Definition silence t (p : jstr * nat) w : world :=
  add_log (RemoveListener t (gone p.1 (get_list p.2 w)) (LNative (nativeHandler (get_list p.2 w))) (capture (get_list p.2 w))) w.

Lemma unbind_all_cons t p (m : Obj.t nat) w : unbind_all t (p :: m) w = unbind_all t m (silence t p w).
Proof. done. Qed.

Lemma unbind_all_same t m w : events (unbind_all t m w) = events w ∧ count (unbind_all t m w) = count w ∧
  expandos (unbind_all t m w) = expandos w ∧ lists (unbind_all t m w) = lists w.
Proof. revert w. induction m as [|p m IH]; intros w; [done|]. rewrite unbind_all_cons. apply (IH (silence t p w)). Qed.

Lemma listening_unbind_all t (m : Obj.t nat) w e : e ∈ listening (unbind_all t m w) ↔ e ∈ listening w ∧
  Forall (λ p, e ≠ (t, gone p.1 (get_list p.2 w), LNative (nativeHandler (get_list p.2 w)), capture (get_list p.2 w))) m.
Proof.
  revert w. induction m as [|p m IH]; intros w; [simpl; rewrite Forall_nil; tauto|].
  rewrite unbind_all_cons, IH, Forall_cons. unfold silence. rewrite listening_add_log, elem_of_hear. unfold get_list. simpl. tauto.
Qed.

Lemma unbind_all_ok t id w : good w → expandos w !! t = Some id →
  step_to w (forget t id (unbind_all t (default [] (events w !! id)) w)) (λ t' n', if bool_decide (t' = t) then [] else bound w t' n').
Proof.
  intros Hg Ht. destruct (g_id w Hg t id Ht) as [m Hm]. rewrite Hm. simpl.
  destruct (unbind_all_same t m w) as (Hev & Hco & Hex & Hli). apply forget_ok; try done.
  - intros e. rewrite listening_unbind_all. tauto.
  - intros t' n x c Hne Hin. rewrite listening_unbind_all. split; [done|]. apply Forall_forall. intros p _. naive_solver.
  - intros n h c. rewrite listening_unbind_all. intros [Hin Hall] Hk.
    destruct (g_off w Hg _ _ _ _ Hin) as (? & [= <-] & Hd & _). destruct (Hd Hk) as (-> & id' & a & l & Ht' & Hs & Hl & <-).
    rewrite Ht in Ht'. injection Ht' as <-. destruct (g_arr w Hg id n a Hs) as (l0 & Hl0 & Hfit). assert (l0 = l) as -> by congruence.
    destruct (gone_default id n l Hfit Hk) as (E1 & E2 & _).
    assert ((n, a) ∈ m) as Hin' by (apply Obj.get_Some_elem; unfold slot in Hs; by rewrite Hm in Hs).
    rewrite Forall_forall in Hall. apply Hall in Hin'. simpl in Hin'. by rewrite (get_list_Some a w l), E1, E2 in Hin' by done.
Qed.

Lemma bound_skip w t n : good w → (∀ id, expandos w !! t = Some id → events w !! id = Some []) → bound w t n = [].
Proof.
  intros Hg Hm. destruct (expandos w !! t) as [id|] eqn:Et; [|by apply bound_None].
  apply (bound_no_slot w t n id); [done|]. unfold slot. by rewrite (Hm id).
Qed.

Lemma unbind_ok t names callback w : good w → match names with Some s => plain_names s | None => true end = true → skipped t = false →
  ∃ w', unbind t names callback w = Some w' ∧ step_to w w' (spec_unbind t names callback (bound w)).
Proof.
  intros Hg Hn Hs. unfold unbind. rewrite Hs. unfold spec_unbind. destruct (expandos w !! t) as [id|] eqn:Et.
  2:{ exists w. unfold step_to. split_and!; try done. intros t' n'. destruct (decide (t' = t)) as [->|];
      [|by rewrite bool_decide_false]. rewrite (bound_None w t) by done. by destruct (_ && _), names as [[|]|], callback. }
  pose proof (unbind_all_ok t id w Hg Et) as Hall.
  assert (∃ w', Some (forget t id (unbind_all t (default [] (events w !! id)) w)) = Some w' ∧
    step_to w w' (λ t' n', if bool_decide (t' = t) && true then [] else bound w t' n')) as Hwhole.
  { eexists. split; [done|]. destruct Hall as (? & ? & Hb). split_and!; try done. intros t' n'. by rewrite Hb, andb_true_r. }
  destruct names as [[|c s]|]; [done| |done]. clear Hwhole Hall.
  destruct (unbind_fold_ok t id callback (split_unit 32 (c :: s)) w Hg Et Hn) as (w1 & -> & He1 & Hg1 & Hx1 & Hb1). simpl.
  assert (expandos w1 !! t = Some id) as Ht1 by by rewrite He1. destruct (g_id w1 Hg1 t id Ht1) as [m Hm]. rewrite Hm. simpl.
  assert (∀ t' n', bound w1 t' n' = if bool_decide (t' = t) && bool_decide (n' ∈ split_unit 32 (c :: s)) then without callback (bound w t' n') else bound w t' n') as Hb1'.
  { intros t' n'. by rewrite Hb1, bool_decide_and. }
  eexists. split; [done|]. case_bool_decide as Hc; [subst m|].
  - destruct (forget_ok t id w1 w1 Hg1 Ht1) as (Hg2 & Hx2 & Hb2); try done.
    { intros n h cap Hin Hk. destruct (g_off w1 Hg1 _ _ _ _ Hin) as (? & [= <-] & Hd & _). destruct (Hd Hk) as (-> & id' & a & l & Ht' & Hs' & _).
      simplify_eq. unfold slot in Hs'. by rewrite Hm in Hs'. }
    split_and!; [done|by etrans|]. intros t' n'. rewrite Hb2. case_bool_decide as Hc; [subst t'|by rewrite Hb1'; rewrite bool_decide_false].
    etrans; [symmetry; apply (bound_skip w1 t n' Hg1); intros; by simplify_eq|]. rewrite Hb1', (bool_decide_true (t = t)) by done. by destruct callback.
  - split_and!; [done..|]. intros t' n'. rewrite Hb1'. by destruct callback.
Qed.

Lemma step_to_ext w w' (s s' : spec) : step_to w w' s → (∀ t n, s t n = s' t n) → step_to w w' s'.
Proof. intros (? & ? & Hb) Heq. split_and!; [done..|]. intros. by rewrite Hb. Qed.

(** The targets [clean] goes through: one with an id is unbound, the others have nothing. *)
Lemma unbind_target_ok t w : good w →
  ∃ w', unbind t None None w = Some w' ∧ step_to w w' (λ t' n', if bool_decide (t' = t) then [] else bound w t' n').
Proof.
  intros Hg. destruct (skipped t) eqn:Hs.
  - exists w. unfold unbind, step_to. rewrite Hs. split_and!; try done. intros t' n'. case_bool_decide as Hc; [subst t'|done].
    apply bound_None. destruct (expandos w !! t) as [id|] eqn:Et; [|done]. apply (g_skip w Hg) in Et. congruence.
  - destruct (unbind_ok t None None w Hg eq_refl Hs) as (w' & -> & Hst). exists w'. split; [done|].
    eapply step_to_ext; [done|]. intros t' n'. unfold spec_unbind. by rewrite andb_true_r.
Qed.

Lemma unbind_bound_ok t w : good w →
  ∃ w', unbind_bound t w = Some w' ∧ step_to w w' (λ t' n', if bool_decide (t' = t) then [] else bound w t' n').
Proof.
  intros Hg. unfold unbind_bound. destruct (expandos w !! t) as [id|] eqn:Et; [by apply unbind_target_ok|].
  exists w. unfold step_to. split_and!; try done. intros t' n'. case_bool_decide as Hc; [subst t'|done]. by apply bound_None.
Qed.

Lemma clean_fold_ok ts w : good w →
  ∃ w', fold_right (λ t r, w ← r; unbind_bound t w) (Some w) ts = Some w' ∧
    step_to w w' (λ t' n', if bool_decide (t' ∈ ts) then [] else bound w t' n').
Proof.
  intros Hg. induction ts as [|t ts (w1 & Hw1 & Hg1 & Hx1 & Hb1)]; [by exists w|]. cbn [fold_right]. rewrite Hw1. cbn [mbind option_bind].
  destruct (unbind_bound_ok t w1 Hg1) as (w2 & -> & Hg2 & Hx2 & Hb2). exists w2. split; [done|].
  split_and!; [done|by etrans|]. intros t' n'. rewrite Hb2, Hb1. repeat case_bool_decide; set_solver.
Qed.

Lemma clean_ok t w : good w → skipped t = false →
  ∃ w', clean t w = Some w' ∧ step_to w w' (λ t' n', if bool_decide (t' ∈ cleaned t) then [] else bound w t' n').
Proof.
  intros Hg Hs. unfold clean, cleaned. rewrite Hs.
  destruct (unbind_bound_ok t w Hg) as (w1 & -> & Hst1). simpl. pose proof Hst1 as (Hg1 & Hx1 & Hb1).
  destruct (match elements t with Some _ => Some t | None => document_of t end) as [d|].
  2:{ exists w1. split; [done|]. eapply step_to_ext; [done|]. intros t' n'. simpl. repeat case_bool_decide; set_solver. }
  destruct (elements d) as [ts|].
  2:{ exists w1. split; [done|]. eapply step_to_ext; [done|]. intros t' n'. simpl. repeat case_bool_decide; set_solver. }
  destruct (unbind_target_ok d w1 Hg1) as (w2 & -> & Hg2 & Hx2 & Hb2). simpl.
  destruct (clean_fold_ok ts w2 Hg2) as (w3 & -> & Hg3 & Hx3 & Hb3). exists w3. split; [done|].
  split_and!; [done|by etrans; [|etrans]|]. intros t' n'. rewrite Hb3, Hb2, Hb1. repeat case_bool_decide; set_solver.
Qed.

(** ** All operations *)
Lemma run_op_ok env o w : good w → plain_op o = true →
  ∃ w', run_op env o w = Some w' ∧ step_to w w' (spec_op o (bound w)).
Proof.
  intros Hg Hp. destruct o as [t names f scope|t names f|t]; simpl in *; destruct (skipped t) eqn:Hs;
    [|by apply bind_ok| |by apply unbind_ok| |by apply clean_ok]; exists w; unfold bind, unbind, clean; by rewrite Hs.
Qed.

Lemma run_ops_snoc env os o w : run_ops env (os ++ [o]) w = (run_ops env os w ≫= run_op env o).
Proof. unfold run_ops. by rewrite fold_left_app. Qed.

Lemma spec_op_ext o (s s' : spec) : (∀ t n, s t n = s' t n) → ∀ t n, spec_op o s t n = spec_op o s' t n.
Proof.
  intros Heq t n. destruct o as [t' names f scope|t' names f|t']; simpl; destruct (skipped t'); try done.
  - unfold spec_bind. by rewrite Heq.
  - unfold spec_unbind. by rewrite Heq.
  - by rewrite Heq.
Qed.

Lemma run_ops_ok env os w : good w → forallb plain_op os = true →
  ∃ w', run_ops env os w = Some w' ∧ step_to w w' (fold_left (λ s o, spec_op o s) os (bound w)).
Proof.
  intros Hg. induction os as [|o os IH] using rev_ind; [by exists w|].
  rewrite forallb_app. intros [Hos [Ho _]%andb_true_iff]%andb_true_iff.
  destruct (IH Hos) as (w1 & Hw1 & Hg1 & Hx1 & Hb1). rewrite run_ops_snoc, Hw1. simpl.
  destruct (run_op_ok env o w1 Hg1 Ho) as (w2 & -> & Hg2 & Hx2 & Hb2). exists w2. split; [done|].
  split_and!; [done|by etrans|]. intros t n. rewrite Hb2, fold_left_app. simpl. by apply spec_op_ext.
Qed.

(** ** Running callbacks *)
Section Running.
Context (env : fn -> world -> evt -> option (world * evt * bool)).

(** The callbacks of a list, each once, until one stops the others. *)
Fixpoint run_fns (fs : list fn) w (e : evt) : option (world * evt) :=
  match fs with
  | [] => Some (w, e)
  | f :: fs =>
      '(w, e, r) ← env f w e;
      let e := if (r : bool) then preventDefault e else e in
      if isImmediatePropagationStopped e then Some (w, e) else run_fns fs w e
  end.

(** All a callback does to the handlers is to bind, unbind and clean. *)
Definition acts : Prop := ∀ f w e w' e' r, env f w e = Some (w', e', r) →
  ∃ env' os, forallb plain_op os = true ∧ run_ops env' os w = Some w'.

Lemma acts_step f w e w' e' r : acts → good w → env f w e = Some (w', e', r) → good w' ∧ extends w w'.
Proof.
  intros Ha Hg Hf. destruct (Ha f w e w' e' r Hf) as (env' & os & Hos & Hrun).
  destruct (run_ops_ok env' os w Hg Hos) as (w1 & Hw1 & Hg1 & Hx1 & _). by simplify_eq.
Qed.

Lemma run_from_ok : acts → ∀ fs i a l w e, good w → lists w !! a = Some l → (∃ p, length p = i ∧ (p ++ fs) `prefix_of` funcs l) →
  run_from env (length fs) i a w e = run_fns fs w e.
Proof.
  intros Ha. induction fs as [|f fs IH]; intros i a l w e Hg Hl (p & Hp & q & Hq); [done|].
  cbn [length run_from run_fns]. rewrite (get_list_Some a w l Hl), Hq, <- app_assoc. cbn [app].
  rewrite (list_lookup_middle _ _ f) by done.
  destruct (env f w e) as [[[w' e'] r]|] eqn:Ef; [|done]. cbn [mbind option_bind].
  destruct (acts_step f w e w' e' r Ha Hg Ef) as [Hg' Hx]. destruct (isImmediatePropagationStopped _); [done|].
  destruct (Hx a l Hl) as (l' & Hl' & q' & Hq'). eapply (IH (S i) a l' w'); [done..|].
  exists (p ++ [f]). rewrite length_app. simpl. split; [lia|]. exists (q ++ q'). by rewrite Hq', Hq, <- !app_assoc.
Qed.

Lemma executeHandlers_ok t id w e : acts → good w → expandos w !! t = Some id →
  executeHandlers env e id w = run_fns (bound w t (etype e)) w e.
Proof.
  intros Ha Hg Ht. unfold executeHandlers, find_list. destruct (g_id w Hg t id Ht) as [m Hm]. rewrite Hm. simpl.
  assert (slot w id (etype e) = Obj.get (etype e) m) as Hs by (unfold slot; by rewrite Hm). unfold find_in.
  destruct (Obj.get (etype e) m) as [a|] eqn:Eg.
  - destruct (g_arr w Hg id _ a Hs) as (l & Hl & _). rewrite (get_list_Some a w l Hl), (bound_slot w t _ id a l) by done.
    eapply run_from_ok; [done..|]. by exists [].
  - rewrite (bound_no_slot w t _ id) by done. by destruct (Obj.is_proto _).
Qed.

(** *** Events of the browser *)

(** The browser calls a listener. *)
Definition call_listener t (inside : bool) (e : evt) (x : listener) w : option world :=
  match x with
  | LNative h => fst <$> run_native env h t inside e w
  | LReady h => readyHandler env h t w
  end.

Definition heard_by t n w : list listener :=
  (λ e : entry, e.1.2) <$> base.filter (λ e : entry, e.1.1 = (t, n)) (listening w).

(** An event happens at a target: the listeners for its name there are called. *)
Definition dispatch t (inside : bool) (e : evt) w : option world :=
  fold_left (λ r x, w ← r; call_listener t inside e x w) (heard_by t (etype e) w) (Some w).

(** Names the browser has, that no other name is listened to as. *)
Definition native_name n : bool :=
  (hasMouseEnterLeave || negb (existsb (str_eqb n) (js <$> ["mouseenter"; "mouseleave"; "mouseover"; "mouseout"]%string))) &&
  (hasFocusIn || negb (existsb (str_eqb n) (js <$> ["focusin"; "focusout"; "focus"; "blur"]%string))).

Lemma native_name_ok n : native_name n = true → fake_of n = None ∧ ∀ n', fake_of n' ≠ Some n.
Proof.
  intros Hn. split.
  - unfold fake_of. destruct (shape_cases n) as [E|[[-> E]|[[-> E]|[[-> E]|[-> E]]]]]; [by rewrite E|exfalso..];
      revert Hn E; unfold shape, native_for, native_name; destruct hasFocusIn, hasMouseEnterLeave; vm_compute; congruence.
  - intros n' Hf. unfold fake_of in Hf. destruct (shape_cases n') as [E|[[-> E]|[[-> E]|[[-> E]|[-> E]]]]]; rewrite E in Hf;
      [done|injection Hf as <-..]; revert Hn E; unfold shape, native_for, native_name; destruct hasFocusIn, hasMouseEnterLeave; vm_compute; congruence.
Qed.

Lemma heard_by_ok t n w : good w → native_name n = true → heard_by t n w =
  match expandos w !! t ≫= λ id, slot w id n ≫= λ a, lists w !! a with
  | Some l => [LNative (nativeHandler l)]
  | None => []
  end.
Proof.
  intros Hg [Hfn Hno]%native_name_ok. unfold heard_by.
  pose proof (NoDup_filter (λ e : entry, e.1.1 = (t, n)) _ (NoDup_listening w)) as Hnd.
  assert (∀ x c, (t, n, x, c) ∈ listening w → c = false ∧ ∃ id a l, expandos w !! t = Some id ∧ slot w id n = Some a ∧
    lists w !! a = Some l ∧ x = LNative (nativeHandler l)) as Hoff.
  { intros x c Hin. destruct (g_off w Hg _ _ _ _ Hin) as (h & -> & Hd & Hk).
    destruct (decide (n_kind h = KDefault)) as [Hkd|Hkd]; [|destruct (Hk Hkd) as [n' Hn']; by apply Hno in Hn'].
    destruct (Hd Hkd) as (-> & id & a & l & ? & ? & ? & <-). eauto 10. }
  destruct (expandos w !! t ≫= _) as [l|] eqn:El.
  - destruct (expandos w !! t) as [id|] eqn:Et; [|done]. simpl in El. destruct (slot w id n) as [a|] eqn:Es; [|done]. simpl in El.
    pose proof (g_on w Hg t id n a l Et Es El) as Hon. unfold shown in Hon. rewrite Hfn in Hon. simpl in Hon.
    assert (base.filter (λ e : entry, e.1.1 = (t, n)) (listening w) = [(t, n, LNative (nativeHandler l), cap_of n)]) as ->; [|done].
    apply Permutation_singleton_r. apply NoDup_Permutation; [done|apply NoDup_singleton|]. intros [[[t' n'] x] c].
    rewrite list_elem_of_filter, list_elem_of_singleton. simpl. split.
    + intros [[= -> ->] Hin]. destruct (Hoff x c Hin) as (-> & id' & a' & l' & ? & ? & ? & ->).
      destruct (Hoff _ _ Hon) as (-> & _). congruence.
    + intros [= -> -> -> ->]. done.
  - destruct (base.filter _ _) as [|[[[t' n'] x] c] es] eqn:Ef; [done|exfalso].
    assert ((t', n', x, c) ∈ base.filter (λ e : entry, e.1.1 = (t, n)) (listening w)) as Hin by (rewrite Ef; set_solver).
    apply list_elem_of_filter in Hin as [[= -> ->] Hin]. destruct (Hoff x c Hin) as (_ & id & a & l & Ht & Hs & Hl & _).
    rewrite Ht in El. simpl in El. rewrite Hs in El. simpl in El. congruence.
Qed.

Lemma dispatch_good t inside e w : acts → good w → native_name (etype e) = true →
  dispatch t inside e w = fst <$> run_fns (bound w t (etype e)) w (fix_event e).
Proof.
  intros Ha Hg Hn. unfold dispatch. rewrite heard_by_ok by done.
  assert (etype (fix_event e) = etype e) as Hty by (unfold fix_event; destruct (etarget e); simpl; by destruct (fixed e)).
  destruct (expandos w !! t) as [id|] eqn:Et; [|by rewrite bound_None by done]. cbn [mbind option_bind].
  destruct (slot w id (etype e)) as [a|] eqn:Es; [|by rewrite (bound_no_slot w t _ id) by done]. cbn [mbind option_bind].
  destruct (g_arr w Hg id _ a Es) as (l & Hl & [Hk Hi _]). rewrite Hl. cbn [fold_left mbind option_bind call_listener].
  assert (n_kind (nativeHandler l) = KDefault) as Hd.
  { rewrite Hk. destruct (native_name_ok _ Hn) as [Hf _]. unfold fake_of, k_of in *.
    destruct (shape_cases (etype e)) as [E|[[_ E]|[[_ E]|[[_ E]|[_ E]]]]]; by rewrite E in *. }
  unfold run_native. rewrite Hd, Hi. unfold defaultNativeHandler.
  by rewrite (executeHandlers_ok t id w), Hty by done.
Qed.

(** *** Events of the code *)

(** The way up from a target. *)
Fixpoint path (h : nat) t : list target :=
  t :: match up t, h with Some p, S h => path h p | _, _ => [] end.

Fixpoint fire_all (ts : list target) w (e : evt) : option (world * evt) :=
  match ts with
  | [] => Some (w, e)
  | t :: ts =>
      '(w, e) ← run_fns (bound w t (etype e)) w e;
      if isPropagationStopped e then Some (w, e) else fire_all ts w e
  end.

Lemma run_fns_good fs : acts → ∀ w e w' e', good w → run_fns fs w e = Some (w', e') → good w'.
Proof.
  intros Ha. induction fs as [|f fs IH]; simpl; intros w e w' e' Hg Hr; [by simplify_eq|].
  destruct (env f w e) as [[[w1 e1] r]|] eqn:Ef; [|done]. simpl in Hr.
  destruct (acts_step f w e w1 e1 r Ha Hg Ef) as [Hg1 _]. destruct (isImmediatePropagationStopped _); [by simplify_eq|].
  by eapply IH.
Qed.

Lemma fire_loop_ok : acts → ∀ (h : target -> nat), (∀ t p, up t = Some p → (h p < h t)%nat) → ∀ k t w e, good w → (h t ≤ k)%nat →
  fire_loop env k t e w = fire_all (path k t) w e.
Proof.
  intros Ha h Hh. induction k as [k IH] using lt_wf_ind. intros t w e Hg Hk.
  assert (match expandos w !! t with Some id => executeHandlers env e id w | None => Some (w, e) end = run_fns (bound w t (etype e)) w e) as Hx.
  { destruct (expandos w !! t) as [id|] eqn:Et; [by apply executeHandlers_ok|by rewrite bound_None]. }
  destruct k as [|k]; cbn [fire_loop path fire_all]; rewrite Hx;
    (destruct (run_fns _ w e) as [[w' e']|] eqn:Er; [|done]); cbn [mbind option_bind];
    (destruct (up t) as [p|] eqn:Eu; [|by destruct (isPropagationStopped e')]).
  - apply Hh in Eu. lia.
  - destruct (isPropagationStopped e'); [done|]. apply IH; [lia|by eapply run_fns_good|]. apply Hh in Eu. lia.
Qed.

(** [fire] runs what is bound to its name at the target and at everything above it, until a callback stops the event. *)
Lemma fire_ok (h : target -> nat) t name args w : acts → good w → (∀ t p, up t = Some p → (h p < h t)%nat) → skipped t = false →
  fire env h t name args w = fire_all (path (h t) t) w (set_target t (set_type name (fix_event args))).
Proof. intros Ha Hg Hh Hs. unfold fire. rewrite Hs. by eapply fire_loop_ok. Qed.
End Running.

(** The lists after a history of operations, by their description. *)
Definition after (os : list op) : spec := fold_left (λ s o, spec_op o s) os (λ _ _, []).

Lemma after_ok env os : forallb plain_op os = true →
  ∃ w, run_ops env os init = Some w ∧ good w ∧ ∀ t n, bound w t n = after os t n.
Proof.
  intros Hos. destruct (run_ops_ok env os init good_init Hos) as (w & Hw & Hg & _ & Hb). by exists w.
Qed.

(** C19: Binding, unbinding and cleaning, in any order and for any names but the ready event and the
    members every object inherits, never fails; afterwards the callbacks of each target and name are those
    that were bound there, in order, less those unbound since; and each target with callbacks for a name the
    browser has listens to it with one handler. *)
Theorem handlers_refine env os : forallb plain_op os = true →
  ∃ w, run_ops env os init = Some w ∧ (∀ t n, bound w t n = after os t n) ∧
    ∀ t n, native_name n = true → after os t n ≠ [] → length (heard_by t n w) = 1%nat.
Proof.
  intros Hos. destruct (after_ok env os Hos) as (w & Hw & Hg & Hb). exists w. split_and!; [done..|].
  intros t n Hn Hne. rewrite heard_by_ok by done. rewrite <- Hb in Hne. unfold bound in Hne.
  destruct (expandos w !! t) as [id|]; [|done]. simpl in *. destruct (slot w id n) as [a|]; [|done]. simpl in *.
  by destruct (lists w !! a).
Qed.

(** C20: When the browser reports an event, each callback bound to it at that moment runs exactly once,
    in the order of binding, until one stops the others - also when the callbacks themselves bind,
    unbind and clean while the event runs. *)
Theorem dispatch_ok env os t inside e w : acts env → forallb plain_op os = true → run_ops env os init = Some w →
  native_name (etype e) = true →
  dispatch env t inside e w = fst <$> run_fns env (after os t (etype e)) w (fix_event e).
Proof.
  intros Ha Hos Hw Hn. destruct (after_ok env os Hos) as (w' & Hw' & Hg & Hb). simplify_eq.
  rewrite <- Hb. by apply dispatch_good.
Qed.

(** ** Where the code falls short *)

(** A callback bound to the ready event of a window that is loaded is called without its scope when there
    are others. *)
Lemma ready_loses_scope env t id d f sc w a : domLoaded w = true → complete t = false → slot w id (js "ready") = Some a →
  bind1 env t id d f sc (js "ready") w = (λ r, r.1.1) <$> env (f, None) w (new_event (js "ready")).
Proof.
  intros Hd Hc Hs. unfold bind1. change (str_eqb (js "ready") (js "DOMContentLoaded")) with false. cbv iota.
  change (str_eqb (js "ready") (js "ready")) with true. rewrite Hd, Hc. cbn [andb].
  unfold slot in Hs. destruct (events w !! id) as [m|] eqn:Em; [|done]. cbn [mbind option_bind] in Hs.
  assert (native_for id d (js "ready") w = (MkNative KDefault id d, None, false, w)) as ->.
  { unfold native_for. change (str_eqb (js "ready") (js "focusin") || str_eqb (js "ready") (js "focusout")) with false.
    rewrite andb_false_r. change (mouseEnterLeave (js "ready")) with (@None jstr). by destruct hasMouseEnterLeave. }
  rewrite Em. cbn [mbind option_bind]. unfold find_in. by rewrite Hs, Hd.
Qed.

(** [destroy] leaves the ids on the targets, so binding to one that had callbacks throws. *)
Lemma destroy_bind_throws env t f names scope w : skipped t = false → is_Some (expandos w !! t) → plain_names names = true →
  bind env t names f scope (destroy w) = None.
Proof.
  intros Hs [id Hid] Hp. unfold bind, target_id. rewrite Hs. change (expandos (destroy w)) with (expandos w). rewrite Hid.
  cut (∀ names d, names ≠ [] → forallb plain_name names = true → fold_right (λ n r, w ← r; bind1 env t id d f (default t scope) n w)
    (Some (next_serial (destroy w))) names = None).
  { intros Hc. apply Hc; [|done]. clear. destruct names as [|c s]; simpl; [done|]. case_match; [done|]. by destruct (split_unit 32 s). }
  clear names Hp. intros names d Hne Hp. induction names as [|n [|n' names] IH]; [done| |].
  - simpl in Hp. apply andb_true_iff in Hp as [Hp _]. destruct (plain_name_not n Hp) as (Hr & Hd & _).
    cbn [fold_right mbind option_bind]. unfold bind1. rewrite Hd, Hr, andb_false_r. cbn [andb].
    destruct (native_for_shape id d n (next_serial (destroy w))) as (s & w' & -> & [-> | ->]); done.
  - cbn [forallb] in Hp. apply andb_true_iff in Hp as [_ Hp]. change (fold_right ?g ?a (n :: ?l)) with (g n (fold_right g a l)). cbv beta.
    rewrite IH; done.
Qed.

End Facts.

(** ** A small page *)

(** Target 0 is the document, each other target hangs below the one before it; the browser knows
    mouseenter and mouseleave, but not focusin and focusout. *)
#[local] Instance chain_page : Page nat := {|
  nodeType := λ t, if (t =? 0)%nat then 9 else 1;
  up := λ t, match t with O => None | S t => Some t end;
  complete := λ _, true;
  elements := λ t, Some (if (t =? 0)%nat then [1; 2]%nat else []);
  document_of := λ _, None;
  the_document := 0%nat;
  hasMouseEnterLeave := true;
  hasFocusIn := false
|}.

(** Callbacks that do what [script] says and let the event go on. *)
Definition scripted (script : nat -> list (@op nat)) (f : @fn nat) (w : @world nat _ _) (e : @evt nat) : option (@world nat _ _ * @evt nat * bool) :=
  w' ← run_ops (λ _ _ _, None) (script f.1) w; Some (w', e, false).

(** Callback 1 unbinds itself and binds 3. *)
Definition busy (f : nat) : list (@op nat) :=
  if (f =? 1)%nat then [OUnbind 1%nat (Some (js "click")) (Some 1%nat); OBind 1%nat (js "click") 3 None] else [].

Definition clicks : list (@op nat) :=
  [OBind 1%nat (js "keyup click") 1 None; OBind 1%nat (js "click") 2 (Some 0%nat); OBind 2%nat (js "click") 4 None; OClean 2%nat].

Lemma handlers_refine_witness : forallb plain_op clicks = true ∧
  ∃ w, run_ops (λ _ _ _, None) clicks init = Some w ∧ (∀ t n, bound w t n = after clicks t n) ∧
    ∀ t n, native_name n = true → after clicks t n ≠ [] → length (heard_by t n w) = 1%nat.
Proof. split; [by vm_compute|]. by apply handlers_refine. Defined.

Lemma dispatch_ok_witness : ∃ w, run_ops (scripted busy) clicks init = Some w ∧
  dispatch (scripted busy) 1%nat false (new_event (js "click")) w =
    fst <$> run_fns (scripted busy) [(1%nat, Some 1%nat); (2%nat, Some 0%nat)] w (fix_event (new_event (js "click"))).
Proof.
  eexists. split; [by vm_compute|]. rewrite (dispatch_ok (scripted busy) clicks); [done| |done|done|done].
  intros f w e w' e' r. unfold scripted. destruct (run_ops _ (busy f.1) w) as [w1|] eqn:Er; [|done]. intros [= <- <- <-].
  exists (λ _ _ _, None), (busy f.1). split; [|done]. unfold busy. by destruct (f.1 =? 1)%nat.
Defined.

(** Unbinding one callback loses the other name of focusin and focusout: the listener stays, and a later
    callback runs twice for one event. *)
Lemma focusin_runs_twice :
  let count_runs := λ (_ : @fn nat) (w : @world nat _ _) (e : @evt nat), Some (next_serial w, e, false) in
  match run_ops count_runs [OBind 1%nat (js "click focusin") 1 None; OUnbind 1%nat (Some (js "focusin")) (Some 1%nat);
                            OBind 1%nat (js "focusin") 2 None] init with
  | Some w => bound w 1%nat (js "focusin") = [(2%nat, Some 1%nat)] ∧
      serial <$> dispatch count_runs 1%nat false (new_event (js "focus")) w = Some (serial w + 2)%nat
  | None => False
  end.
Proof. vm_compute. split; reflexivity. Qed.
