(* ===== verification/DomSerializer.v ===== *)
(** * classes/dom/Serializer.js, and the parser of classes/Editor.js

    The filters that turn the editor's content into the HTML it hands out, the opposite filters of the parser
    that takes HTML in, and [serialize] after the browser printed the element.  The filters are callers'
    filters of the parser of DomParser. *)

From S2P Require Import Prelude Regexp Tools Styles Entities Schema SaxParser Writer Node DomParser Serializer.

(** ** The language's [unescape] *)
Definition hex_digit (c : Z) : option Z := d ← unit_digit c; if d <? 16 then Some d else None.

Definition hex_units (s : jstr) : option Z :=
  foldl (λ acc c, a ← acc; d ← hex_digit c; Some (16 * a + d)) (Some 0) s.

(** [%uXXXX] and [%XX]; anything else stays. *)
Fixpoint unescape (s : jstr) : jstr :=
  match s with
  | 37 :: 117 :: ((a :: b :: c :: d :: t) as t') =>
      match hex_units [a; b; c; d] with Some n => n :: unescape t | None => 37 :: 117 :: unescape t' end
  | 37 :: ((a :: ((b :: t) as t')) as t'') =>
      match hex_units [a; b] with Some n => n :: unescape t | None => 37 :: unescape t'' end
  | c :: t => c :: unescape t
  | [] => []
  end.

(** ** Regular expressions *)
Definition spaces : re := RStar true (RSet is_space).
Definition lines : re := RStar true (RSet (λ c, (c =? 13) || (c =? 10))).

(** [/(?:^|\s)mce-item-\w+(?!\S)/g] *)
Definition itemRegExp : re :=
  RSeq (RAlt RBol (RSet is_space)) (RSeq (RStr (js "mce-item-")) (RSeq (RPlus (RSet is_word)) (RNotAhead (RSet (λ c, negb (is_space c)))))).

(** [/^mce\-/] *)
Definition prefixRegExp : re := RSeq RBol (RStr (js "mce-")).

(** [/^\[CDATA\[|\]\]$/g] *)
Definition cdataRegExp : re := RAlt (RSeq RBol (RStr (js "[CDATA["))) (RSeq (RStr (js "]]")) REol).

(** The four expressions of [trim] in the script filter. *)
Definition commentedCdata : re := RAlt (RStr (js "<!--[CDATA[")) (RStr (js "]]-->")).
Definition outerLines : re := RAlt (RSeq RBol lines) (RSeq lines REol).
Definition openings : re :=
  let cdata := RStrI (js "<![CDATA[") in
  let comment := RStr (js "<!--") in
  RAlt (RSeq (ROpt comment) (RSeq (ROpt (RSeq spaces (RStr (js "//")))) (RSeq spaces cdata)))
  (RAlt (RSeq (ROpt (RSeq comment spaces)) (RSeq (RStr (js "/*")) (RSeq spaces (RSeq cdata (RSeq spaces (RStr (js "*/")))))))
  (RAlt (RSeq (ROpt (RStr (js "//"))) (RSeq spaces comment))
        (RSeq (RStr (js "/*")) (RSeq spaces (RSeq comment (RSeq spaces (RStr (js "*/"))))))) ).
Definition openingRegExp : re := RSeq RBol (RSeq spaces (RSeq openings (RSeq spaces lines))).
Definition closings : re :=
  let cdata := RStr (js "]]>") in
  let comment := RStr (js "-->") in
  RAlt (RSeq (RStr (js "/*")) (RSeq spaces (RSeq cdata (RSeq spaces (RSeq (RStr (js "*/")) (ROpt comment))))))
  (RAlt (RSeq spaces (RSeq (RStr (js "//")) (RSeq spaces (RSeq cdata (ROpt comment)))))
  (RAlt (RSeq (RStr (js "//")) (RSeq spaces (ROpt comment)))
  (RAlt cdata
  (RAlt (RSeq (RStr (js "/*")) (RSeq spaces (RSeq comment (RSeq spaces (RStr (js "*/"))))))
        (RSeq spaces (RSeq comment spaces)))))).
Definition closingRegExp : re := RSeq spaces (RSeq closings (RSeq spaces REol)).

Definition newline : jstr := [10].

Definition trim_script (value : jstr) : jstr :=
  let value := replace_all commentedCdata (λ _, newline) value in
  let value := replace_all outerLines (λ _, []) value in
  let value := replace_all openingRegExp (λ _, []) value in
  replace_all closingRegExp (λ _, []) value.

(** ** Steps on a node *)
(** [node.attributes.map] *)
Definition map_of (r : Node.ref) : DM (Obj.t jstr) := a ← field r Node.attributes; a ← oget a; mret (amap a).
Definition set_attr (r : Node.ref) (nm : jstr) (v : attr_arg) : DM unit := lift (attr r nm v);; mret tt.
(** [node.attr(name)] as a text, [None] when it is undefined; the names read here are not inherited. *)
Definition get_attr (r : Node.ref) (nm : jstr) : DM (option jstr) :=
  t ← lift (attr r nm ArgUndefined); mret match t with ResVal v => Some v | _ => None end.
(** [value.length > 0 ? value : null] *)
Definition or_null (v : jstr) : attr_arg := match v with [] => ArgNull | _ => ArgVal v end.

Definition internalName (nm : jstr) : jstr := js "data-mce-" ++ nm.

Definition set_type (ty : ntype) (n : node) : node :=
  MkNode (Node.name n) ty (Node.attributes n) (value n) (shortEnded n) (raw n) (fixed n)
    (parent n) (firstChild n) (lastChild n) (next n) (prev n).

(** The callback sees the nodes from the last to the first. *)
Definition each_node (f : Node.ref -> DM unit) (nodes : list Node.ref) : DM unit := for_all f (reverse nodes).

(** [dom.serializeStyle(dom.parseStyle(value), name)]: nothing to parse gives no styles. *)
Definition style_text (st : Styles.settings) (schema_styles : option (Obj.t (list jstr))) (value : option jstr) (nm : jstr) : option jstr :=
  (λ s, Styles.serialize schema_styles s nm) <$> Styles.parse st (default [] value).

Section Filters.
(** The styles of [dom]; the converter of addresses, of the settings or the editor, which may be asked
    about a missing value; the browser's decoder of entities. *)
Context `{DomSchema} (st : Styles.settings) (schema_styles : option (Obj.t (list jstr))).
Context (convert : option (option jstr -> jstr -> jstr -> jstr)) (nativeDecode : jstr -> jstr).

(** ** The filters of the serializer *)
Section Out.
Context (cleanup : bool).

(** [src,href,style] *)
Definition restore1 (nm : jstr) (r : Node.ref) : DM unit :=
  m ← map_of r;
  match Obj.get (internalName nm) m with
  | Some v => set_attr r nm (or_null v);; set_attr r (internalName nm) ArgNull
  | None =>
      node_name ← field r Node.name;
      let v := Obj.get nm m in
      v ← oget (if str_eqb nm (js "style") then style_text st schema_styles v node_name
                else match convert with Some f => Some (f v nm node_name) | None => v end);
      set_attr r nm (or_null v)
  end.

(** [class] *)
Definition class1 (r : Node.ref) : DM unit :=
  v ← get_attr r (js "class");
  v ← oget v;
  set_attr r (js "class") (or_null (replace_all itemRegExp (λ _, []) v)).

(** [data-mce-type] *)
Definition bookmark1 (r : Node.ref) : DM unit :=
  m ← map_of r;
  if bool_decide (Obj.get (js "data-mce-type") m = Some (js "bookmark")) && negb cleanup
  then lift (remove r);; mret tt else mret tt.

(** [data-mce-expando], and the other internal attributes. *)
Definition drop_attr1 (nm : jstr) (r : Node.ref) : DM unit := set_attr r nm ArgNull.

(** [noscript] *)
Definition noscript1 (r : Node.ref) : DM unit :=
  f ← field r firstChild;
  match f with
  | None => mret tt
  | Some c => v ← text_value c; set_value_of c (Entities.decode nativeDecode v)
  end.

(** [script,style]: the value of a first child that has none throws at [value.length]. *)
Definition script1 (nm : jstr) (r : Node.ref) : DM unit :=
  f ← field r firstChild;
  v ← match f with None => mret (Some []) | Some c => field c value end;
  if str_eqb nm (js "script") then
    t ← get_attr r (js "type");
    let t := replace_first prefixRegExp (λ _, []) (match t with Some (c :: s) => c :: s | _ => js "text/javascript" end) in
    set_attr r (js "type") (if str_eqb t (js "text/javascript") then ArgNull else ArgVal t);;
    v ← oget v;
    match f with
    | Some c => if truthy v then set_value_of c (js "// <![CDATA[" ++ newline ++ trim_script v ++ newline ++ js "// ]]>") else mret tt
    | None => mret tt
    end
  else
    v ← oget v;
    match f with
    | Some c => if truthy v then set_value_of c (js "<!--" ++ newline ++ trim_script v ++ newline ++ js "-->") else mret tt
    | None => mret tt
    end.

(** [#comment] *)
Definition comment_node (v : jstr) (n : node) : node :=
  if starts_with (js "[CDATA[") v then
    set_value (Some (replace_all cdataRegExp (λ _, []) v)) (set_type (TNum 4) (set_name (js "#cdata") n))
  else if starts_with (js "mce:protected ") v then
    set_value (Some (drop 14 (unescape v))) (set_raw true (set_type (TNum 3) (set_name (js "#text") n)))
  else n.
Definition comment1 (r : Node.ref) : DM unit := v ← text_value r; lift (upd r (comment_node v)).

(** [xml:namespace,input] *)
Definition input1 (nm : jstr) (r : Node.ref) : DM unit :=
  ty ← field r Node.type;
  if bool_decide (ty = TNum 7) then lift (remove r);; mret tt
  else if bool_decide (ty = TNum 1) && str_eqb nm (js "input") then
    m ← map_of r;
    if Obj.has (js "type") m then mret tt else set_attr r (js "type") (ArgVal (js "text"))
  else mret tt.

(** [ul,ol] *)
Definition list1 (r : Node.ref) : DM unit :=
  p ← field r parent;
  p ← oget p;
  pn ← field p Node.name;
  if str_eqb pn (js "ul") || str_eqb pn (js "ol") then
    pv ← field r prev;
    match pv with
    | None => mret tt
    | Some s => sn ← field s Node.name; if str_eqb sn (js "li") then lift (append s r);; mret tt else mret tt
    end
  else mret tt.

(** The callback with that number. *)
Definition serializer_filter (n : nat) (nodes : list Node.ref) (nm : jstr) : DM unit :=
  match n with
  | 0%nat => each_node (restore1 nm) nodes
  | 1%nat => each_node class1 nodes
  | 2%nat => each_node bookmark1 nodes
  | 3%nat => each_node (drop_attr1 nm) nodes
  | 4%nat => each_node noscript1 nodes
  | 5%nat => each_node (script1 nm) nodes
  | 6%nat => each_node comment1 nodes
  | 7%nat => each_node (input1 nm) nodes
  | 8%nat => each_node list1 nodes
  | _ => each_node (drop_attr1 nm) nodes
  end.
End Out.

(** The filters of the constructor, in its order. *)
Definition new_Serializer (cfg : DomParser.settings) (fix_list_elements : bool) : filters :=
  let fs := new_DomParser cfg in
  let fs := addAttributeFilter (js "src,href,style") (FUser 0) fs in
  let fs := addAttributeFilter (js "class") (FUser 1) fs in
  let fs := addAttributeFilter (js "data-mce-type") (FUser 2) fs in
  let fs := addAttributeFilter (js "data-mce-expando") (FUser 3) fs in
  let fs := addNodeFilter (js "noscript") (FUser 4) fs in
  let fs := addNodeFilter (js "script,style") (FUser 5) fs in
  let fs := addNodeFilter (js "#comment") (FUser 6) fs in
  let fs := addNodeFilter (js "xml:namespace,input") (FUser 7) fs in
  let fs := if fix_list_elements then addNodeFilter (js "ul,ol") (FUser 8) fs else fs in
  addAttributeFilter (js "data-mce-src,data-mce-href,data-mce-style,data-mce-selected") (FUser 9) fs.

(** ** The filters of the editor's parser *)

(** [src,href,style]; the editor's converter is always there. *)
Definition keep1 (nm : jstr) (r : Node.ref) : DM unit :=
  v ← get_attr r nm;
  m ← map_of r;
  if map_truthy (internalName nm) m then mret tt
  else
    node_name ← field r Node.name;
    v ← oget (if str_eqb nm (js "style") then style_text st schema_styles v node_name
              else match convert with Some f => Some (f v nm node_name) | None => v end);
    set_attr r (internalName nm) (ArgVal v).

(** [script] *)
Definition script_in1 (r : Node.ref) : DM unit :=
  t ← get_attr r (js "type");
  set_attr r (js "type") (ArgVal (js "mce-" ++ match t with Some (c :: s) => c :: s | _ => js "text/javascript" end)).

(** [#cdata] *)
Definition cdata_node (n : node) : node :=
  set_value (Some (js "[CDATA[" ++ default (js "undefined") (value n) ++ js "]]")) (set_name (js "#comment") (set_type (TNum 8) n)).
Definition cdata1 (r : Node.ref) : DM unit := lift (upd r cdata_node).

(** [p,h1,h2,h3,h4,h5,h6,div] *)
Definition block1 (r : Node.ref) : DM unit :=
  e ← lift (isEmpty r d_nonEmpty);
  if (e : bool) then
    lift (empty r);;
    b ← lift (alloc (new_node (js "br") (TNum 1)));
    lift (append r b);;
    lift (upd b (set_shortEnded true))
  else mret tt.

Definition editor_filter (n : nat) (nodes : list Node.ref) (nm : jstr) : DM unit :=
  match n with
  | 0%nat => each_node (keep1 nm) nodes
  | 1%nat => each_node script_in1 nodes
  | 2%nat => each_node cdata1 nodes
  | _ => each_node block1 nodes
  end.

Definition new_editor_parser (cfg : DomParser.settings) : filters :=
  let fs := new_DomParser cfg in
  let fs := addAttributeFilter (js "src,href,style") (FUser 0) fs in
  let fs := addNodeFilter (js "script") (FUser 1) fs in
  let fs := addNodeFilter (js "#cdata") (FUser 2) fs in
  addNodeFilter (js "p,h1,h2,h3,h4,h5,h6,div") (FUser 3) fs.

(** ** serialize *)

(** [serialize(node, args)] once the browser printed the node as [html]; events of the editor are left out. *)
Definition serialize_html `{SerializerSchema} (cfg : DomParser.settings) (fix_list_elements cleanup inner : bool)
    (w : writer) (a : args) (html : jstr) : option jstr :=
  '(root, _, d) ← DomParser.parse cfg (new_Serializer cfg fix_list_elements) (serializer_filter cleanup) nativeDecode (Tools.trim html) a;
  '(content, _) ← Serializer.serialize w (validate cfg) inner root (d_heap d);
  Some (if cleanup then content else replace_all (RChar 65279) (λ _, []) content).
End Filters.
