(* ===== verification/ParserAttrs.v ===== *)
(** * The attributes of the nodes through the parser

    Operations are [calm] when they give no node a new attribute; the parser [keeps] the lists
    of nodes with an attribute that is filtered complete; an operation [wanes] when it neither adds an
    internal attribute nor puts a removed node back. *)

From S2P Require Import Prelude Regexp Tools Styles Entities Schema SaxParser Writer Node NodeFacts NodeAttrs DomParser DomFacts Serializer DomSerializer.

Lemma SE_bind_inv {S A B} (m : SE S A) (f : A -> SE S B) d y d' : (m ≫= f) d = Some (y, d') →
  ∃ x d1, m d = Some (x, d1) ∧ f x d1 = Some (y, d').
Proof. rewrite SE_bind_unfold. destruct (m d) as [[x d1]|]; [|done]. eauto. Qed.

(** ** Operations that give no node an attribute *)
Definition blank (n : node) : Prop := ∀ a, Node.attributes n = Some a → a = Attrs [] [].

Definition hgrows (h h' : heap) : Prop := ∀ r n', h' !! r = Some n' →
  (∃ n, h !! r = Some n ∧ Node.attributes n' = Node.attributes n) ∨ blank n'.

#[export] Instance hgrows_po : PreOrder hgrows.
Proof.
  split; [intros h r n Hn; left; eauto|].
  intros h1 h2 h3 H12 H23 r n3 Hn3. destruct (H23 r n3 Hn3) as [(n2 & Hn2 & E)|]; [|by right].
  destruct (H12 r n2 Hn2) as [(n1 & Hn1 & E1)|Hb].
  - left. exists n1. split; [done|congruence].
  - right. unfold blank. by rewrite E.
Qed.

Definition calm {A} (m : HM A) : Prop := ∀ h x h', m h = Some (x, h') → hgrows h h'.

Section Calm.
Context {A B : Type}.

Lemma calm_ret (x : A) : calm (mret x).
Proof. intros h y h' [= _ <-]. reflexivity. Qed.
Lemma calm_throw : calm (A := A) throw.
Proof. done. Qed.
Lemma calm_bind (m : HM A) (f : A -> HM B) : calm m → (∀ x, calm (f x)) → calm (m ≫= f).
Proof.
  intros Hm Hf h y h'. rewrite SE_bind_unfold. destruct (m h) as [[x h1]|] eqn:E; [|done]. simpl. intros E'.
  etrans; [by eapply Hm|by eapply Hf].
Qed.
Lemma calm_oget (o : option A) : calm (oget o).
Proof. intros h y h'. unfold oget. destruct o; [|done]. intros [= _ <-]. reflexivity. Qed.
Lemma calm_gets (f : heap -> A) : calm (gets f).
Proof. intros h y h' [= _ <-]. reflexivity. Qed.
Lemma calm_nonnull o (k : Node.ref -> HM A) : (∀ r, calm (k r)) → calm (nonnull o k).
Proof. destruct o; simpl; auto using calm_throw. Qed.
Lemma calm_when_some (o : option A) (k : A -> HM unit) : (∀ r, calm (k r)) → calm (when_some o k).
Proof. destruct o; simpl; auto. intros _. intros h y h' [= _ <-]. reflexivity. Qed.
End Calm.

Lemma calm_deref r : calm (deref r).
Proof. intros h y h'. unfold deref. destruct (h !! r); [|done]. intros [= _ <-]. reflexivity. Qed.

Lemma calm_upd r f : (∀ n, Node.attributes (f n) = Node.attributes n) → calm (upd r f).
Proof.
  intros Hf h y h'. unfold upd. destruct (h !! r) as [n|] eqn:E; [|done]. intros [= _ <-].
  intros x m [[<- <-]|[_ Hm]]%lookup_insert_Some; left; eauto.
Qed.

Lemma calm_alloc n : blank n → calm (alloc n).
Proof. intros Hn h y h' [= _ <-] x m [[<- <-]|[_ Hm]]%lookup_insert_Some; [by right|]. left. eauto. Qed.

Create HintDb calm.
#[export] Hint Resolve calm_ret calm_throw calm_oget calm_gets calm_deref : calm.
#[export] Hint Extern 1 (calm (upd _ _)) => (apply calm_upd; by intros []) : calm.

(** Takes a composition apart. *)
Ltac calm_step :=
  lazymatch goal with
  | |- calm (mbind _ _) => apply calm_bind; [|intros ?]
  | |- calm (nonnull _ _) => apply calm_nonnull; intros ?
  | |- calm (when_some _ _) => apply calm_when_some; intros ?
  | |- calm (match ?x with _ => _ end) => destruct x
  | |- calm (let _ := _ in _) => cbv zeta
  end.
Ltac calm_all := repeat first [progress auto with calm | calm_step].

Lemma calm_remove r : calm (remove r).
Proof. unfold remove. calm_all. Qed.
#[export] Hint Resolve calm_remove : calm.
Lemma calm_detach r : calm (detach_node r).
Proof. unfold detach_node. calm_all. Qed.
#[export] Hint Resolve calm_detach : calm.
Lemma calm_append p r : calm (append p r).
Proof. unfold append, append_link. calm_all. Qed.
Lemma calm_insert p r s b : calm (insert p r s b).
Proof. unfold insert, insert_link. calm_all. Qed.
#[export] Hint Resolve calm_append calm_insert : calm.
Lemma calm_replace r s : calm (replace r s).
Proof. unfold replace. calm_all. Qed.
Lemma calm_wrap r s : calm (wrap r s).
Proof. unfold wrap. calm_all. Qed.
#[export] Hint Resolve calm_replace calm_wrap : calm.

Lemma calm_unwrap r : calm (unwrap r).
Proof.
  assert (∀ k r n, calm (unwrap_loop k r n)) as Hl.
  { induction k as [|k IH]; intros s n; simpl; calm_all. }
  unfold unwrap. calm_all.
Qed.
Lemma calm_walk r s b : calm (walk r s b).
Proof.
  assert (∀ k b p s, calm (walk_up k b p s)) as Hl.
  { induction k as [|k IH]; intros b' p s'; simpl; calm_all. }
  unfold walk. calm_all.
Qed.
#[export] Hint Resolve calm_unwrap calm_walk : calm.

Lemma calm_walk_all {A} (f : A -> Node.ref -> node -> A) k : ∀ self cur acc, calm (walk_all k self cur f acc).
Proof. induction k as [|k IH]; intros self c acc; simpl; calm_all. Qed.
#[export] Hint Resolve calm_walk_all : calm.

Lemma calm_empty r : calm (empty r).
Proof.
  assert (∀ l, calm (clear_all l)) as Hl by (induction l; simpl; calm_all).
  unfold empty, walk_children. calm_all.
Qed.
Lemma calm_isEmpty r m : calm (isEmpty r m).
Proof.
  assert (∀ k s c, calm (isEmpty_loop k s c m)) as Hl.
  { induction k as [|k IH]; intros s c; simpl; calm_all. }
  unfold isEmpty. calm_all.
Qed.
#[export] Hint Resolve calm_empty calm_isEmpty : calm.

Lemma calm_read_attr r nm : calm (attr r nm ArgUndefined).
Proof.
  intros h x h'. unfold attr, deref. rewrite SE_bind_unfold. destruct (h !! r) as [n|] eqn:E; [|done]. simpl.
  destruct (Node.attributes n) as [a|] eqn:Ea; [|by intros [= _ <-]]. rewrite SE_bind_unfold. unfold upd. rewrite E. simpl.
  intros [= _ <-] z m [[<- <-]|[_ Hm]]%lookup_insert_Some; left; [exists n|exists m]; done.
Qed.
#[export] Hint Resolve calm_read_attr : calm.

(** ** The same for the steps of the parser *)
Definition mgrows (m m' : Obj.t (list Node.ref)) : Prop :=
  ∀ nm l, Obj.get nm m = Some l → ∃ l', Obj.get nm m' = Some l' ∧ l ⊆ l'.

#[export] Instance mgrows_po : PreOrder mgrows.
Proof.
  split; [intros m nm l Hl; by exists l|].
  intros m1 m2 m3 H12 H23 nm l Hl. destruct (H12 nm l Hl) as (l2 & Hl2 & ?), (H23 nm l2 Hl2) as (l3 & Hl3 & ?).
  exists l3. split; [done|]. by etrans.
Qed.

Definition steady {A} (m : DM A) : Prop := ∀ d x d', m d = Some (x, d') →
  hgrows (d_heap d) (d_heap d') ∧ mgrows (matchedAttributes d) (matchedAttributes d').

Section Steady.
Context {A B : Type}.

Lemma steady_ret (x : A) : steady (mret x).
Proof. intros d y d' [= _ <-]. by split. Qed.
Lemma steady_throw : steady (A := A) throw.
Proof. done. Qed.
Lemma steady_bind (m : DM A) (f : A -> DM B) : steady m → (∀ x, steady (f x)) → steady (m ≫= f).
Proof.
  intros Hm Hf d y d'. rewrite SE_bind_unfold. destruct (m d) as [[x d1]|] eqn:E; [|done]. simpl. intros E'.
  destruct (Hm _ _ _ E), (Hf _ _ _ _ E'). split; by etrans.
Qed.
Lemma steady_oget (o : option A) : steady (oget o).
Proof. intros d y d'. unfold oget. destruct o; [|done]. intros [= _ <-]. by split. Qed.
Lemma steady_gets (f : dst -> A) : steady (gets f).
Proof. intros d y d' [= _ <-]. by split. Qed.
Lemma steady_lift (m : HM A) : calm m → steady (lift m).
Proof.
  intros Hm d y d'. unfold lift. destruct (m (d_heap d)) as [[x h]|] eqn:E; [|done]. intros [= _ <-].
  split; [by eapply Hm|done].
Qed.
Lemma steady_field r (f : node -> A) : steady (field r f).
Proof. apply steady_lift. calm_all. Qed.
End Steady.

Lemma steady_modify f : (∀ d, d_heap (f d) = d_heap d ∧ matchedAttributes (f d) = matchedAttributes d) → steady (modify f).
Proof. intros Hf d y d' [= _ <-]. destruct (Hf d) as [-> ->]. by split. Qed.
Lemma steady_current : steady current.
Proof. intros d y d'. unfold current. destruct (cur d); [|done]. intros [= _ <-]. by split. Qed.
Lemma steady_count : steady nodes_count.
Proof. intros d y d' [= _ <-]. by split. Qed.

Create HintDb steady.
#[export] Hint Resolve steady_ret steady_throw steady_oget steady_gets steady_field steady_current steady_count : steady.
#[export] Hint Extern 2 (steady (lift _)) => (apply steady_lift; solve [calm_all]) : steady.
#[export] Hint Extern 1 (steady (modify _)) =>
  (apply steady_modify; intros []; repeat match goal with |- context [if ?b then _ else _] => destruct b end; by split) : steady.

Ltac steady_step :=
  lazymatch goal with
  | |- steady (mbind _ _) => apply steady_bind; [|intros ?]
  | |- steady (match ?x with _ => _ end) => destruct x
  | |- steady (let _ := _ in _) => cbv zeta
  end.
Ltac steady_all := repeat first [progress auto with steady | steady_step].

Lemma steady_push_matched k r : steady (push_matched k r).
Proof. unfold push_matched. steady_all. Qed.
#[export] Hint Resolve steady_push_matched : steady.

Lemma push_at_grows k r m m' : push_at k r m = Some m' → mgrows m m' ∧ ∃ l, Obj.get k m' = Some l ∧ r ∈ l.
Proof.
  unfold push_at. destruct (Obj.get k m) as [l|] eqn:E; [|destruct (Obj.is_proto k); [done|]]; intros [= <-]; split;
    try (eexists; split; [apply Obj.get_set_eq|set_solver]);
    intros nm l' Hl; rewrite Obj.get_set; (case_decide; [subst|by eauto]);
    eexists; (split; [done|]); rewrite E in Hl; by simplify_eq; try set_solver.
Qed.

Lemma push_matched_attribute_inv k r d x d' : push_matched_attribute k r d = Some (x, d') →
  d_heap d' = d_heap d ∧ mgrows (matchedAttributes d) (matchedAttributes d') ∧
  ∃ l, Obj.get k (matchedAttributes d') = Some l ∧ r ∈ l.
Proof.
  unfold push_matched_attribute, oget, gets, modify. rewrite SE_bind_unfold. simpl. rewrite SE_bind_unfold.
  destruct (push_at k r (matchedAttributes d)) as [m|] eqn:E; [|done]. intros [= _ <-]. split; [done|]. by apply push_at_grows.
Qed.

Lemma match_attributes_inv names m r : ∀ d x d', match_attributes names m r d = Some (x, d') →
  d_heap d' = d_heap d ∧ mgrows (matchedAttributes d) (matchedAttributes d') ∧
  ∀ nm, nm ∈ names → Obj.has nm m = true → ∃ l, Obj.get nm (matchedAttributes d') = Some l ∧ r ∈ l.
Proof.
  induction names as [|k names IH]; intros d x d'; simpl.
  { intros [= _ <-]. split_and!; [done|done|]. by intros nm ?%elem_of_nil. }
  rewrite SE_bind_unfold. destruct (Obj.has k m) eqn:Ek.
  - destruct (push_matched_attribute k r d) as [[y d1]|] eqn:E; [|done]. simpl. intros E'.
    apply push_matched_attribute_inv in E as (Eh & Hg & l & Hl & Hin).
    apply IH in E' as (Eh' & Hg' & Hall). split_and!; [congruence|by etrans|].
    intros nm [->|Hnm]%elem_of_cons Hh; [|by apply Hall].
    destruct (Hg' k l Hl) as (l' & Hl' & Hsub). exists l'. split; [done|by apply Hsub].
  - simpl. intros E'. apply IH in E' as (Eh' & Hg' & Hall). split_and!; [done..|].
    intros nm [->|Hnm]%elem_of_cons Hh; [congruence|by apply Hall].
Qed.

Lemma steady_match_attributes names m r : steady (match_attributes names m r).
Proof. intros d x d' (E & Hg & _)%match_attributes_inv. by rewrite E. Qed.
#[export] Hint Resolve steady_match_attributes : steady.

(** ** Attributes of one node *)
Definition attr_of (nm : jstr) (n : node) : option jstr := a ← Node.attributes n; Obj.get nm (amap a).

Lemma attr_inv r nm v h x h' : attr r nm v h = Some (x, h') → h' = h ∨
  ∃ n a, h !! r = Some n ∧ Node.attributes n = Some a ∧ h' = <[r := set_attributes (Some (attr_attrs nm v a).1) n]> h.
Proof.
  unfold attr, deref. rewrite SE_bind_unfold. destruct (h !! r) as [n|] eqn:E; [|done]. simpl.
  destruct (Node.attributes n) as [a|] eqn:Ea; [|intros [= _ <-]; by left].
  destruct (attr_attrs nm v a) as [a' t] eqn:Et. rewrite SE_bind_unfold. unfold upd. rewrite E. simpl. intros [= _ <-].
  right. exists n, a. by rewrite Et.
Qed.

(** What [attr] leaves of an attribute set. *)
Definition attr_value (nm : jstr) (v : attr_arg) (a : attrs) (nm' : jstr) : option jstr :=
  match v with
  | ArgUndefined => Obj.get nm' (amap a)
  | ArgNull => if bool_decide (nm' = nm) then None else Obj.get nm' (amap a)
  | ArgVal v => if bool_decide (nm' = nm) then Some v else Obj.get nm' (amap a)
  end.

Lemma attr_attrs_values nm v a : attrs_ok a → Obj.is_proto nm = false →
  attrs_ok (attr_attrs nm v a).1 ∧ ∀ nm', Obj.get nm' (amap (attr_attrs nm v a).1) = attr_value nm v a nm'.
Proof.
  intros Hok Hp. rewrite attr_attrs_refines by done. pose proof Hok as [E Hn]. split.
  - split; [done|]. simpl. by apply attr_spec_NoDup.
  - intros nm'. simpl. destruct v as [| |v]; simpl; rewrite ?E; [done| |].
    + case_bool_decide; [subst; apply Obj.get_delete_eq|by apply Obj.get_delete_ne, not_eq_sym].
    + rewrite Obj.get_set. case_bool_decide; [by rewrite decide_True|by rewrite decide_False by congruence].
Qed.

Section Parser.
Context `{DomSchema} (cfg : DomParser.settings) (fs : filters).

Lemma steady_createNode nm ty : steady (createNode fs nm ty).
Proof.
  unfold createNode. apply steady_bind; [|intros; steady_all].
  apply steady_lift, calm_alloc. intros a. cbn. case_decide; [by intros [= <-]|done].
Qed.
Hint Resolve steady_createNode : steady.
Lemma steady_set_value_of r v : steady (set_value_of r v).
Proof. unfold set_value_of. steady_all. Qed.
Lemma steady_text_value r : steady (text_value r).
Proof. unfold text_value. steady_all. Qed.
Hint Resolve steady_set_value_of steady_text_value : steady.
Lemma steady_append_new nm ty t : steady (append_new fs nm ty t).
Proof. unfold append_new. steady_all. Qed.
Hint Resolve steady_append_new : steady.
Lemma steady_trim_before k : ∀ t, steady (trim_before k t).
Proof. induction k as [|k IH]; intros t; simpl; steady_all. Qed.
Hint Resolve steady_trim_before : steady.
Lemma steady_removeWhitespaceBefore r : steady (removeWhitespaceBefore r).
Proof. unfold removeWhitespaceBefore. steady_all. Qed.
Hint Resolve steady_removeWhitespaceBefore : steady.
Lemma steady_on_text t b : steady (on_text fs t b).
Proof. unfold on_text, after_block. steady_all. Qed.
Lemma steady_drop_space k b : ∀ t, steady (drop_space k b t).
Proof. induction k as [|k IH]; intros t; simpl; steady_all. Qed.
Hint Resolve steady_on_text steady_drop_space : steady.
Lemma steady_trim_side b r : steady (trim_side b r).
Proof. unfold trim_side. steady_all. Qed.
Hint Resolve steady_trim_side : steady.

Lemma steady_alloc_new nm ty : steady (lift (alloc (new_node nm ty))).
Proof. apply steady_lift, calm_alloc. intros a. cbn. case_decide; [by intros [= <-]|done]. Qed.
Hint Resolve steady_alloc_new : steady.

Lemma steady_on_end nm : steady (on_end cfg nm).
Proof. unfold on_end, on_empty. steady_all. Qed.
Lemma steady_filterNode r : steady (filterNode fs r).
Proof. unfold filterNode, match_attribute_filters. steady_all. Qed.
Hint Resolve steady_on_end steady_filterNode : steady.

Lemma steady_move_blocks k : ∀ item s, steady (move_blocks k item s).
Proof. induction k as [|k IH]; intros item s; simpl; steady_all. Qed.
Lemma steady_find_parents k nm : ∀ p, steady (find_parents k nm p).
Proof. induction k as [|k IH]; intros p; simpl; steady_all. Qed.
Lemma steady_move_left k t : ∀ c s, steady (move_left k t c s).
Proof. induction k as [|k IH]; intros c s; simpl; steady_all. Qed.
Lemma steady_wrap_in r nm : steady (wrap_in fs r nm).
Proof. unfold wrap_in. steady_all. Qed.
Hint Resolve steady_move_blocks steady_find_parents steady_move_left steady_wrap_in : steady.
Lemma steady_wrap_item r : steady (wrap_item fs r).
Proof. unfold wrap_item, is_list. steady_all. Qed.
Lemma steady_wrap_other r pn nm : steady (wrap_other fs r pn nm).
Proof. unfold wrap_other. steady_all. Qed.
Lemma steady_trim_text b o : steady (trim_text b o).
Proof. unfold trim_text. steady_all. Qed.
Hint Resolve steady_wrap_item steady_wrap_other steady_trim_text : steady.
Lemma steady_trim_block o : steady (trim_block o).
Proof. unfold trim_block. steady_all. Qed.
Hint Resolve steady_trim_block : steady.

(** ** The lists of matched nodes are complete *)
Context (internal : list jstr).
Context (Hint : ∀ nm, nm ∈ internal → Obj.is_proto nm = false ∧ nm ∈ filter_names fs).

(** Lists and maps of attributes agree, and every node with an internal attribute, outside of [S], is
    on the list of that attribute. *)
Definition all_matched (S : list Node.ref) (d : dst) : Prop :=
  (∀ r n a, d_heap d !! r = Some n → Node.attributes n = Some a → attrs_ok a) ∧
  (∀ r n nm, d_heap d !! r = Some n → r ∉ S → nm ∈ internal → is_Some (attr_of nm n) →
     ∃ l, Obj.get nm (matchedAttributes d) = Some l ∧ r ∈ l).

Definition keeps {A} (m : DM A) : Prop := ∀ S d x d', all_matched S d → m d = Some (x, d') → all_matched S d'.

Lemma blank_ok : attrs_ok (Attrs [] []).
Proof. split; [done|constructor]. Qed.

Lemma all_matched_grows S d d' : hgrows (d_heap d) (d_heap d') → mgrows (matchedAttributes d) (matchedAttributes d') →
  all_matched S d → all_matched S d'.
Proof.
  intros Hh Hm [Hok Hall]. split.
  - intros r n' a Hr Ha. destruct (Hh r n' Hr) as [(n & Hn & E)|Hb].
    + apply (Hok r n); congruence.
    + rewrite (Hb a Ha). apply blank_ok.
  - intros r n' nm Hr HS Hnm [v Hv]. destruct (Hh r n' Hr) as [(n & Hn & E)|Hb].
    + destruct (Hall r n nm Hn HS Hnm) as (l & Hl & Hin); [unfold attr_of in *; rewrite <- E; eauto|].
      destruct (Hm nm l Hl) as (l' & Hl' & Hsub). exists l'. split; [done|by apply Hsub].
    + unfold attr_of in Hv. destruct (Node.attributes n') as [a|] eqn:Ea; [|done]. by rewrite (Hb a Ea) in Hv.
Qed.

Lemma keeps_steady {A} (m : DM A) : steady m → keeps m.
Proof. intros Hm S d x d' Ha E. destruct (Hm d x d' E). by eapply all_matched_grows. Qed.

Lemma attrs_keeps_bind {A B} (m : DM A) (f : A -> DM B) : keeps m → (∀ x, keeps (f x)) → keeps (m ≫= f).
Proof.
  intros Hm Hf S d y d' Ha. rewrite SE_bind_unfold. destruct (m d) as [[x d1]|] eqn:E; [|done]. simpl. intros E'.
  eapply Hf; [|done]. by eapply Hm.
Qed.

(** A node gets its attributes, and is put on the lists before the step is over. *)
Definition fresh_attrs (r : Node.ref) (a : attrs) (d : dst) : Prop :=
  ∀ n a', d_heap d !! r = Some n → Node.attributes n = Some a' → a' = a ∨ a' = Attrs [] [].

Lemma fresh_attrs_steady {A} (m : DM A) r a d x d' : steady m → m d = Some (x, d') → fresh_attrs r a d → fresh_attrs r a d'.
Proof.
  intros Hm E Hf n a' Hn Ha. destruct (Hm d x d' E) as [Hh _]. destruct (Hh r n Hn) as [(n0 & Hn0 & E0)|Hb].
  - apply (Hf n0); congruence.
  - right. by apply Hb.
Qed.

Lemma attr_of_has nm n a : Node.attributes n = Some a → is_Some (attr_of nm n) → Obj.has nm (amap a) = true.
Proof. intros Ha [v Hv]. unfold attr_of in Hv. rewrite Ha in Hv. simpl in Hv. unfold Obj.has. by rewrite Hv. Qed.

Lemma match_attributes_completes S r a d x d' names : (∀ nm, nm ∈ internal → nm ∈ names) →
  all_matched (r :: S) d → fresh_attrs r a d → match_attributes names (amap a) r d = Some (x, d') → all_matched S d'.
Proof.
  intros Hn Ha Hf E. pose proof (keeps_steady _ (steady_match_attributes _ _ _) _ _ _ _ Ha E) as [Hok Hall].
  apply match_attributes_inv in E as (Eh & _ & Hm). split; [done|]. intros x' n nm Hx HS Hnm Hs.
  destruct (decide (x' = r)) as [->|]; [|apply (Hall x' n nm); [done|set_solver|done..]].
  unfold attr_of in Hs. destruct (Node.attributes n) as [a'|] eqn:Ea; [|by destruct Hs]. simpl in Hs.
  rewrite Eh in Hx. destruct (Hf n a' Hx Ea) as [-> | ->]; [|by destruct Hs].
  apply Hm; [by apply Hn|]. by apply (attr_of_has nm n); [|unfold attr_of; rewrite Ea].
Qed.

Lemma filter_names_internal nm : nm ∈ internal → nm ∈ reverse (filter_names fs).
Proof using Hint. intros Hnm. apply elem_of_reverse. by apply Hint. Qed.

(** An element of the tokenizer whose attributes have different names. *)
Definition distinct_names (e : event) : Prop :=
  match e with EStart _ (Some l) _ => NoDup (Obj.keys l) | _ => True end.

Lemma attrs_of_ok l : NoDup (Obj.keys l) → attrs_ok (attrs_of l).
Proof. intros Hl. split; [|done]. unfold attrs_of. simpl. by apply (fold_set_fresh l []). Qed.

Lemma upd_attributes S r a d x d' : attrs_ok a → all_matched S d →
  lift (upd r (set_attributes (Some a))) d = Some (x, d') → all_matched (r :: S) d' ∧ fresh_attrs r a d'.
Proof.
  intros Hok [Hall Hm]. unfold lift, upd. destruct (d_heap d !! r) as [n0|] eqn:E; [|done]. intros [= _ <-]. split; [split|].
  - intros x' n a'. simpl. intros [[<- <-]|[_ Hn]]%lookup_insert_Some; [by intros [= <-]|by apply (Hall x' n)].
  - intros x' n nm. simpl. intros [[<- <-]|[_ Hn]]%lookup_insert_Some HS; [set_solver|apply Hm; [done|set_solver]].
  - intros n a'. simpl. rewrite lookup_insert_eq. intros [= <-] [= <-]. by left.
Qed.

Lemma keeps_on_start nm l b : NoDup (Obj.keys l) → keeps (DomParser.on_start cfg fs nm l b).
Proof using Hint.
  intros Hl S d x d' Ha. unfold DomParser.on_start. destruct (rule_of cfg nm) as [rl|]; [|by intros [= _ <-]]. cbv zeta.
  intros (r & d1 & E1 & E)%SE_bind_inv. pose proof (keeps_steady _ (steady_createNode _ _) S d r d1 Ha E1) as Ha1.
  apply SE_bind_inv in E as (? & d2 & E2 & E). destruct (upd_attributes S r (attrs_of l) d1 _ d2 (attrs_of_ok l Hl) Ha1 E2) as [Ha2 Hf2].
  match type of E with (?m ≫= ?f) _ = _ => apply SE_bind_inv in E as (? & d3 & E3 & E) end.
  assert (∀ A (m : DM A) d d' x, steady m → m d = Some (x, d') → all_matched (r :: S) d → fresh_attrs r (attrs_of l) d →
    all_matched (r :: S) d' ∧ fresh_attrs r (attrs_of l) d') as Hst.
  { intros A m e e' y Hm Ey Hae Hfe. split; [by eapply keeps_steady|by eapply fresh_attrs_steady]. }
  eapply Hst in E3 as [Ha3 Hf3]; [|steady_all|done..].
  apply SE_bind_inv in E as (p & d4 & E4 & E). eapply Hst in E4 as [Ha4 Hf4]; [|steady_all|done..].
  apply SE_bind_inv in E as (? & d5 & E5 & E). eapply Hst in E5 as [Ha5 Hf5]; [|steady_all|done..].
  apply SE_bind_inv in E as (pn & d6 & E6 & E). eapply Hst in E6 as [Ha6 Hf6]; [|steady_all|done..].
  apply SE_bind_inv in E as (? & d7 & E7 & E). eapply Hst in E7 as [Ha7 Hf7]; [|steady_all|done..].
  apply SE_bind_inv in E as (? & d8 & E8 & E).
  eapply match_attributes_completes in E8; [|apply filter_names_internal|done..].
  eapply keeps_steady; [|exact E8|exact E]. steady_all.
Qed.

(** A copy is put on the lists at once. *)
Lemma clone_matched S p d r d' : all_matched S d → lift (clone p) d = Some (r, d') → all_matched (r :: S) d'.
Proof.
  intros [Hok Hm]. unfold lift, clone, deref. rewrite SE_bind_unfold. destruct (d_heap d !! p) as [n|] eqn:E; [|done]. simpl.
  intros [= <- <-]. set (r := fresh _). split.
  - intros z n' a. simpl. intros [[<- <-]|[_ Hn]]%lookup_insert_Some; [|by apply (Hok z n')].
    unfold clone_node. simpl. destruct (Node.attributes n) as [a0|] eqn:Ea.
    + intros [= <-]. destruct (Hok p n a0 E Ea) as [_ Hn]. split; simpl.
      * apply (fold_set_fresh _ []). by apply keys_filter_NoDup.
      * by apply keys_filter_NoDup.
    + unfold new_node. simpl. case_decide; [|done]. intros [= <-]. apply blank_ok.
  - intros z n' nm. simpl. intros [[<- <-]|[_ Hn]]%lookup_insert_Some HS; [set_solver|apply Hm; [done|set_solver]].
Qed.

Lemma filterNode_matched S r d t d' : all_matched (r :: S) d → filterNode fs r d = Some (t, d') → all_matched S d' ∧ t = r.
Proof using Hint.
  intros Ha. unfold filterNode. cbv zeta. intros (? & d1 & E1 & E)%SE_bind_inv.
  assert (all_matched (r :: S) d1) as Ha1 by (eapply keeps_steady; [|exact Ha|exact E1]; steady_all).
  apply SE_bind_inv in E as (a & d2 & E2 & E).
  assert (all_matched (r :: S) d2) as Ha2 by (eapply keeps_steady; [|exact Ha1|exact E2]; steady_all).
  assert (d2 = d1 ∧ ∀ n, d_heap d1 !! r = Some n → Node.attributes n = a) as [-> Hr].
  { unfold field, lift, deref in E2. rewrite SE_bind_unfold in E2. destruct (d_heap d1 !! r) as [n|]; [|done]. simpl in E2.
    injection E2 as <- <-. rewrite with_heap_same. split; [done|]. by intros n' [= <-]. }
  apply SE_bind_inv in E as (? & d3 & E3 & [= <- <-]). split; [|done]. unfold match_attribute_filters in E3.
  destruct (attributeFilters fs) as [|q l] eqn:Ef.
  - injection E3 as _ <-. destruct Ha2 as [Hok Hm]. split; [done|]. intros z n nm Hx HS Hnm Hs.
    exfalso. destruct (Hint nm Hnm) as [_ Hin]. unfold filter_names in Hin. rewrite Ef in Hin. by apply elem_of_nil in Hin.
  - apply SE_bind_inv in E3 as (m & d4 & E4 & E3). destruct a as [a|]; [|done]. injection E4 as <- <-.
    eapply match_attributes_completes in E3; [exact E3|apply filter_names_internal|done|].
    intros n a' Hn Ha'. rewrite (Hr n Hn) in Ha'. injection Ha' as <-. by left.
Qed.

Lemma keeps_clone {B} p (k : Node.ref -> DM B) : (∀ t, keeps (k t)) → keeps (t ← lift (clone p); t ← filterNode fs t; k t).
Proof using Hint.
  intros Hk S d y d' Ha (r & d1 & E1 & (t & d2 & E2 & E)%SE_bind_inv)%SE_bind_inv. eapply clone_matched in E1; [|done].
  destruct (filterNode_matched S r d1 t d2 E1 E2) as [Ha2 ->]. by eapply Hk.
Qed.

Create HintDb keeps.
Hint Extern 3 (keeps _) => (apply keeps_steady; solve [steady_all]) : keeps.
Hint Resolve @keeps_on_start : keeps.
Ltac keeps_step :=
  lazymatch goal with
  | |- keeps (mbind _ (lift (clone _))) => apply keeps_clone; intros ?
  | |- keeps (mbind _ _) => apply attrs_keeps_bind; [|intros ?]
  | |- keeps (match ?x with _ => _ end) => destruct x
  | |- keeps (let _ := _ in _) => cbv zeta
  end.
Ltac keeps_all := repeat first [progress auto with keeps | keeps_step].

Lemma keeps_split_left l : ∀ c, keeps (split_left fs c l).
Proof using Hint. induction l as [|p rest IH]; intros c; cbn [split_left]; [keeps_all|]. destruct rest as [|q l]; keeps_all. Qed.
Hint Resolve keeps_split_left : keeps.
Lemma keeps_split_parents r p t l : keeps (split_parents fs r p t l).
Proof using Hint. unfold split_parents. keeps_all. Qed.
Hint Resolve keeps_split_parents : keeps.
Lemma keeps_fix_one r : keeps (fix_one fs r).
Proof using Hint. unfold fix_one. keeps_all. Qed.
Hint Resolve keeps_fix_one : keeps.
Lemma keeps_fixInvalidChildren l : keeps (fixInvalidChildren fs l).
Proof using Hint. induction l; simpl; keeps_all. Qed.

Lemma keeps_handle e : distinct_names e → keeps (handle cfg fs e).
Proof using Hint.
  intros He. destruct e as [nm l b| | | | | |]; simpl; unfold on_cdata, on_comment, on_pi, on_doctype; keeps_all.
  apply keeps_on_start. destruct l; [done|constructor].
Qed.
Lemma keeps_handle_all es : Forall distinct_names es → keeps (handle_all cfg fs es).
Proof using Hint. induction 1; simpl; keeps_all. by apply keeps_handle. Qed.

(** ** Root blocks *)
Lemma keeps_attr r nm v : Obj.is_proto nm = false → nm ∉ internal → keeps (lift (attr r nm v)).
Proof using Type.
  intros Hp Hnm S d x d' [Hok Hm]. unfold lift. destruct (attr r nm v (d_heap d)) as [[y h']|] eqn:E; [|done]. intros [= _ <-].
  apply attr_inv in E as [-> | (n & a & Hn & Ha & ->)]; [by rewrite with_heap_same|].
  destruct (attr_attrs_values nm v a (Hok r n a Hn Ha) Hp) as [Hok' Hval]. split.
  - intros z n' a'. simpl. intros [[<- <-]|[_ Hz]]%lookup_insert_Some; [by intros [= <-]|by apply (Hok z n')].
  - intros z n' nm'. simpl. intros [[<- <-]|[_ Hz]]%lookup_insert_Some HS Hnm' Hs; [|by apply (Hm z n')].
    apply (Hm r n); [done..|]. unfold attr_of in *. rewrite Ha. simpl in *. rewrite Hval in Hs.
    destruct v; simpl in Hs; try done; by rewrite bool_decide_false in Hs by (intros ->; done).
Qed.

Definition block_attrs_plain : Prop :=
  Forall (λ p, Obj.is_proto p.1 = false ∧ p.1 ∉ internal) (forced_root_block_attrs cfg).

Lemma keeps_attr_items r items : Forall (λ p, Obj.is_proto p.1 = false ∧ p.1 ∉ internal) items → keeps (lift (attr_items r items)).
Proof using Type.
  induction 1 as [|[nm v] items [Hp Hn] _ IH]; [apply keeps_steady; simpl; steady_all|]. intros S d x d' Ha. unfold lift. cbn [attr_items].
  rewrite SE_bind_unfold. destruct (attr r nm v (d_heap d)) as [[y h]|] eqn:E; [|done]. simpl.
  destruct (attr_items r items h) as [[z h']|] eqn:E'; [|done]. intros [= _ <-].
  assert (all_matched S (with_heap h d)) as Ha1.
  { eapply (keeps_attr r nm v Hp Hn S d y); [done|]. unfold lift. by rewrite E. }
  eapply (IH S (with_heap h d) z); [done|]. unfold lift. simpl. by rewrite E'.
Qed.

Lemma keeps_block_loop k root nm : block_attrs_plain → ∀ r b, keeps (block_loop cfg fs k root nm r b).
Proof using Type.
  intros Hb. induction k as [|k IH]; intros r b; cbn [block_loop]; [destruct r; keeps_all|]. destruct r as [r|]; [|keeps_all].
  apply attrs_keeps_bind; [keeps_all|intros nx]. apply attrs_keeps_bind; [unfold needs_block; keeps_all|intros w].
  destruct w; [|keeps_all]. destruct b as [b|]; [keeps_all|].
  apply attrs_keeps_bind; [keeps_all|intros t]. apply attrs_keeps_bind; [by apply keeps_attr_items|intros _]. keeps_all.
Qed.

Lemma keeps_addRootBlocks root nm : block_attrs_plain → keeps (addRootBlocks cfg fs root nm).
Proof using Type. intros Hb. unfold addRootBlocks. keeps_all. by apply keeps_block_loop. Qed.

End Parser.

(** ** Operations that neither add internal attributes nor put a node back *)
Section Fades.
Context (internal : list jstr).

Definition fades (h h' : heap) : Prop :=
  ((∀ r n a, h !! r = Some n → Node.attributes n = Some a → attrs_ok a) →
   (∀ r n a, h' !! r = Some n → Node.attributes n = Some a → attrs_ok a) ∧
   ∀ r n', h' !! r = Some n' → ∃ n, h !! r = Some n ∧ (parent n' ≠ None → parent n ≠ None) ∧
     ∀ nm v, nm ∈ internal → attr_of nm n' = Some v → attr_of nm n = Some v).

#[export] Instance fades_po : PreOrder fades.
Proof.
  split; [intros h Hok; split; [done|]; intros r n Hn; exists n; by split_and!|].
  intros h1 h2 h3 H12 H23 Hok. destruct (H12 Hok) as [Hok2 Hb2]. destruct (H23 Hok2) as [Hok3 Hb3]. split; [done|].
  intros r n3 Hn3. destruct (Hb3 r n3 Hn3) as (n2 & Hn2 & Hp2 & Ha2), (Hb2 r n2 Hn2) as (n1 & Hn1 & Hp1 & Ha1).
  exists n1. split_and!; auto.
Qed.

Definition dims {A} (m : HM A) : Prop := ∀ h x h', m h = Some (x, h') → fades h h'.
Definition wanes {A} (m : DM A) : Prop := ∀ d x d', m d = Some (x, d') → fades (d_heap d) (d_heap d').

Section Rules.
Context {A B : Type}.
Lemma dims_ret (x : A) : dims (mret x).
Proof. intros h y h' [= _ <-]. reflexivity. Qed.
Lemma dims_throw : dims (A := A) throw.
Proof. done. Qed.
Lemma dims_bind (m : HM A) (f : A -> HM B) : dims m → (∀ x, dims (f x)) → dims (m ≫= f).
Proof.
  intros Hm Hf h y h'. rewrite SE_bind_unfold. destruct (m h) as [[x h1]|] eqn:E; [|done]. simpl. intros E'.
  etrans; [by eapply Hm|by eapply Hf].
Qed.
Lemma wanes_ret (x : A) : wanes (mret x).
Proof. intros h y h' [= _ <-]. reflexivity. Qed.
Lemma wanes_bind (m : DM A) (f : A -> DM B) : wanes m → (∀ x, wanes (f x)) → wanes (m ≫= f).
Proof.
  intros Hm Hf h y h' (x & d1 & E & E')%SE_bind_inv. etrans; [by eapply Hm|by eapply Hf].
Qed.
Lemma wanes_oget (o : option A) : wanes (oget o).
Proof. intros h y h'. unfold oget. destruct o; [|done]. intros [= _ <-]. reflexivity. Qed.
Lemma wanes_lift (m : HM A) : dims m → wanes (lift m).
Proof. intros Hm d y d'. unfold lift. destruct (m (d_heap d)) as [[x h]|] eqn:E; [|done]. intros [= _ <-]. by eapply Hm. Qed.
End Rules.

Lemma dims_deref r : dims (deref r).
Proof. intros h y h'. unfold deref. destruct (h !! r); [|done]. intros [= _ <-]. reflexivity. Qed.

Lemma dims_upd r f : (∀ n, Node.attributes (f n) = Node.attributes n ∧ (parent (f n) = parent n ∨ parent (f n) = None)) → dims (upd r f).
Proof.
  intros Hf h y h'. unfold upd. destruct (h !! r) as [n|] eqn:E; [|done]. intros [= _ <-] Hok. destruct (Hf n) as [Ha Hp]. split.
  - intros z m a. intros [[<- <-]|[_ Hm]]%lookup_insert_Some; [rewrite Ha; by apply (Hok r n)|by apply (Hok z m)].
  - intros z m [[<- <-]|[_ Hm]]%lookup_insert_Some; [exists n|exists m]; split_and!; try done.
    + destruct Hp as [-> | ->]; done.
    + intros nm v _. unfold attr_of. by rewrite Ha.
Qed.

Lemma dims_attr r nm v : Obj.is_proto nm = false → (nm ∉ internal ∨ v = ArgNull ∨ v = ArgUndefined) → dims (attr r nm v).
Proof.
  intros Hp Hv h y h' [-> | (n & a & Hn & Ha & ->)]%attr_inv; [reflexivity|]. intros Hok.
  destruct (attr_attrs_values nm v a (Hok r n a Hn Ha) Hp) as [Hok' Hval]. split.
  - intros z m b [[<- <-]|[_ Hm]]%lookup_insert_Some; [by intros [= <-]|by apply (Hok z m)].
  - intros z m [[<- <-]|[_ Hm]]%lookup_insert_Some; [exists n|exists m; by split_and!]. split_and!; [done..|].
    intros nm' u Hin. unfold attr_of. simpl. rewrite Ha, Hval. simpl. destruct v as [| |v]; simpl; [done|by case_bool_decide|].
    destruct Hv as [Hv|[Hv|Hv]]; [|done..]. by rewrite bool_decide_false by (intros ->; done).
Qed.

Lemma dims_remove r : dims (remove r).
Proof.
  unfold remove.
  repeat first [apply dims_bind; [|intros ?] | apply dims_deref | apply dims_ret | apply dims_throw
    | apply dims_upd; intros []; split; simpl; auto; fail | progress unfold when_some, nonnull
    | match goal with |- dims (match ?x with _ => _ end) => destruct x end].
Qed.

Lemma wanes_field {A} r (f : node -> A) : wanes (field r f).
Proof. apply wanes_lift, dims_bind; [apply dims_deref|intros; apply dims_ret]. Qed.
Lemma wanes_map_of r : wanes (map_of r).
Proof. unfold map_of. apply wanes_bind; [apply wanes_field|intros]. apply wanes_bind; [apply wanes_oget|intros; apply wanes_ret]. Qed.
Lemma wanes_set_attr r nm v : Obj.is_proto nm = false → (nm ∉ internal ∨ v = ArgNull ∨ v = ArgUndefined) → wanes (set_attr r nm v).
Proof. intros. apply wanes_bind; [by apply wanes_lift, dims_attr|intros; apply wanes_ret]. Qed.
Lemma wanes_for_all f nodes : (∀ r, wanes (f r)) → wanes (for_all f nodes).
Proof. intros Hf. induction nodes; simpl; [apply wanes_ret|by apply wanes_bind]. Qed.

(** What a filter achieves on each of its nodes stays. *)
Lemma for_all_effect (f : Node.ref -> DM unit) (Q : node -> Prop) nodes d x d' :
  (∀ r, wanes (f r)) →
  (∀ r d x d' n, f r d = Some (x, d') → (∀ r n a, d_heap d !! r = Some n → Node.attributes n = Some a → attrs_ok a) → d_heap d' !! r = Some n → Q n) →
  (∀ n n', Q n → (parent n' ≠ None → parent n ≠ None) → (∀ nm v, nm ∈ internal → attr_of nm n' = Some v → attr_of nm n = Some v) → Q n') →
  (∀ r n a, d_heap d !! r = Some n → Node.attributes n = Some a → attrs_ok a) →
  for_all f nodes d = Some (x, d') → ∀ r n, r ∈ nodes → d_heap d' !! r = Some n → Q n.
Proof.
  intros Hw He Hs. revert d x d'. induction nodes as [|r nodes IH]; intros d x d' Hok; simpl.
  { intros _ r n Hr. by apply elem_of_nil in Hr. }
  intros (y & d1 & E1 & E)%SE_bind_inv z n [->|Hz]%elem_of_cons Hn.
  - destruct (Hw _ _ _ _ E1 Hok) as [Hok1 _]. destruct (wanes_for_all f nodes Hw _ _ _ E Hok1) as [_ Hb].
    destruct (Hb r n Hn) as (n1 & Hn1 & Hp & Ha). eapply Hs; [|exact Hp|exact Ha]. by eapply He.
  - destruct (Hw _ _ _ _ E1 Hok) as [Hok1 _]. by eapply IH.
Qed.
End Fades.
