(* ===== verification/DomSerializerFacts.v ===== *)
(** * What the editor hands out

    The attributes the editor adds for itself do not reach the HTML it hands out, and the filters of the
    serializer undo those of the editor's parser. *)

From S2P Require Import Prelude Regexp Tools Styles Entities Schema SaxParser Writer Node NodeFacts NodeAttrs DomParser DomFacts Serializer DomSerializer ParserAttrs.

(** ** The serializer's parser *)
Definition internal : list jstr :=
  js <$> ["data-mce-type"; "data-mce-expando"; "data-mce-src"; "data-mce-href"; "data-mce-style"; "data-mce-selected"]%string.

Section Serialize.
Context `{DomSchema} (st : Styles.settings) (schema_styles : option (Obj.t (list jstr))).
Context (convert : option (option jstr -> jstr -> jstr -> jstr)) (nativeDecode : jstr -> jstr).
Context (cfg : DomParser.settings) (fix_list_elements cleanup : bool).

Abbreviation user := (serializer_filter st schema_styles convert nativeDecode cleanup).
Abbreviation fs := (new_Serializer cfg fix_list_elements).

(** What must not be handed out: an internal attribute, or a bookmark unless the caller cleans up. *)
Definition bad (nm : jstr) (n : node) : Prop :=
  if bool_decide (nm = js "data-mce-type") then cleanup = false ∧ attr_of nm n = Some (js "bookmark")
  else is_Some (attr_of nm n).

Lemma bad_attr nm n : bad nm n → is_Some (attr_of nm n).
Proof. unfold bad. case_bool_decide; [intros [_ ->]; eauto|done]. Qed.

Lemma bad_fades nm n n' : nm ∈ internal → (∀ nm v, nm ∈ internal → attr_of nm n' = Some v → attr_of nm n = Some v) → bad nm n' → bad nm n.
Proof.
  intros Hnm Ha. unfold bad. case_bool_decide; [intros [? ?]; split; [done|by apply Ha]|]. intros [v Hv]. exists v. by apply Ha.
Qed.

(** The filters of one attribute: they wane, and leave no attached node of theirs bad. *)
Definition treats (nm : jstr) (callbacks : list DomParser.filter) : Prop :=
  (∀ nodes, wanes internal (run_list user callbacks nodes nm)) ∧
  (nm ∈ internal → ∀ nodes d x d', run_list user callbacks nodes nm d = Some (x, d') →
     (∀ r n a, d_heap d !! r = Some n → Node.attributes n = Some a → attrs_ok a) →
     ∀ r n, r ∈ nodes → d_heap d' !! r = Some n → parent n ≠ None → ¬ bad nm n).

Definition covers (m : Obj.t (list Node.ref)) (h : heap) : Prop :=
  (∀ r n a, h !! r = Some n → Node.attributes n = Some a → attrs_ok a) ∧
  (∀ r n nm, h !! r = Some n → nm ∈ internal → is_Some (attr_of nm n) → ∃ l, Obj.get nm m = Some l ∧ r ∈ l).

Lemma covers_fades m h h' : fades internal h h' → covers m h → covers m h'.
Proof using Type.
  intros Hf [Hok Hm]. destruct (Hf Hok) as [Hok' Hb]. split; [done|]. intros r n' nm Hn' Hnm [v Hv].
  destruct (Hb r n' Hn') as (n & Hn & _ & Ha). apply (Hm r n nm Hn Hnm). exists v. by apply Ha.
Qed.

Lemma attached_inv nodes d l d' : attached nodes d = Some (l, d') → d_heap d' = d_heap d ∧
  ∀ r n, r ∈ nodes → d_heap d !! r = Some n → parent n ≠ None → r ∈ l.
Proof using Type.
  revert l d'. induction nodes as [|r nodes IH]; intros l d'; simpl.
  { intros [= <- <-]. split; [done|]. by intros r n ?%elem_of_nil. }
  intros (p & d1 & E1 & (rest & d2 & E2 & [= <- <-])%SE_bind_inv)%SE_bind_inv.
  unfold field, lift, deref in E1. rewrite SE_bind_unfold in E1. destruct (d_heap d !! r) as [n0|] eqn:E; [|done]. simpl in E1.
  injection E1 as <- <-. rewrite with_heap_same in E2. destruct (IH _ _ E2) as [Eh Hall]. split; [done|].
  intros z n [->|Hz]%elem_of_cons Hn Hp.
  - assert (n0 = n) as -> by congruence. destruct (parent n); [set_solver|done].
  - specialize (Hall z n Hz Hn Hp). destruct (parent n0); set_solver.
Qed.

Lemma run_attribute_filters_ok m l : Forall (λ p, treats p.1 p.2) l → ∀ d x d', covers m (d_heap d) →
  run_attribute_filters user l m d = Some (x, d') → fades internal (d_heap d) (d_heap d') ∧
  ∀ r n nm, nm ∈ l.*1 → nm ∈ internal → d_heap d' !! r = Some n → parent n ≠ None → ¬ bad nm n.
Proof using Type.
  induction 1 as [|[nm cbs] l [Hw He] _ IH]; intros d x d' Hc; simpl in *.
  { intros [= _ <-]. split; [done|]. by intros r n nm ?%elem_of_nil. }
  intros (y & d1 & E1 & E)%SE_bind_inv.
  assert (fades internal (d_heap d) (d_heap d1) ∧ (nm ∈ internal → ∀ r n, d_heap d1 !! r = Some n → parent n ≠ None → ¬ bad nm n)) as [Hf1 Hb1].
  { destruct (Obj.get nm m) as [nodes|] eqn:Em.
    - apply SE_bind_inv in E1 as (nodes' & d0 & E0 & E1). apply attached_inv in E0 as [Eh Hall].
      pose proof (Hw nodes' _ _ _ E1) as Hf. rewrite Eh in Hf. split; [done|]. intros Hnm r n Hn Hp Hbad.
      destruct (Hf (proj1 Hc)) as [_ Hback]. destruct (Hback r n Hn) as (n0 & Hn0 & Hp0 & Ha0).
      destruct (proj2 Hc r n0 nm Hn0 Hnm) as (l' & Hl' & Hin); [by apply bad_attr, (bad_fades nm n0 n)|].
      assert (l' = nodes) as -> by congruence.
      apply (He Hnm nodes' d0 y d1 E1) with (r := r) (n := n); try done; [by rewrite Eh; apply Hc|]. by eapply Hall; [..|apply Hp0].
    - injection E1 as _ <-. split; [done|]. intros Hnm r n Hn _ Hbad%bad_attr.
      destruct (proj2 Hc r n nm Hn Hnm Hbad) as (l' & Hl' & _). congruence. }
  assert (covers m (d_heap d1)) as Hc1 by by eapply covers_fades.
  destruct (IH d1 x d' Hc1 E) as [Hf2 Hb2]. split; [by etrans|].
  intros r n nm' [->|Hin]%elem_of_cons Hnm Hn Hp; [|by eapply Hb2]. intros Hbad.
  destruct (Hf2 (proj1 Hc1)) as [_ Hback]. destruct (Hback r n Hn) as (n1 & Hn1 & Hp1 & Ha1).
  apply (Hb1 Hnm r n1 Hn1); [auto|]. by apply (bad_fades nm n1 n).
Qed.
End Serialize.

(** ** The filters one by one *)
Lemma wanes_get_attr l r nm : Obj.is_proto nm = false → wanes l (get_attr r nm).
Proof. intros. apply wanes_bind; [apply wanes_lift, dims_attr; auto|intros; apply wanes_ret]. Qed.

Section Treats.
Context `{DomSchema} (st : Styles.settings) (schema_styles : option (Obj.t (list jstr))).
Context (convert : option (option jstr -> jstr -> jstr -> jstr)) (nativeDecode : jstr -> jstr) (cleanup : bool).

Lemma run_one (user : nat -> list Node.ref -> jstr -> DM unit) k nodes nm d x d' : run_list user [FUser k] nodes nm d = Some (x, d') → user k nodes nm d = Some (x, d').
Proof. simpl. intros ([] & d1 & E1 & [= <- <-])%SE_bind_inv. done. Qed.

Lemma wanes_run_one l (user : nat -> list Node.ref -> jstr -> DM unit) k nm : (∀ nodes, wanes l (user k nodes nm)) →
  ∀ nodes, wanes l (run_list user [FUser k] nodes nm).
Proof. intros Hw nodes d x d' E%run_one. by eapply Hw. Qed.

Abbreviation user := (serializer_filter st schema_styles convert nativeDecode cleanup).
Abbreviation treats := (treats st schema_styles convert nativeDecode cleanup).

(** Filters of other attributes only have to wane. *)
Lemma treats_other nm k : nm ∉ internal → (∀ nodes, wanes internal (user k nodes nm)) → treats nm [FUser k].
Proof. intros Hn Hw. split; [by apply wanes_run_one|done]. Qed.

Lemma treats_restore nm : Obj.is_proto nm = false → Obj.is_proto (internalName nm) = false → nm ∉ internal → treats nm [FUser 0].
Proof.
  intros Hp Hpi Hn. apply treats_other; [done|]. intros nodes. apply wanes_for_all. intros r. unfold restore1. cbv zeta.
  apply wanes_bind; [apply wanes_map_of|intros m]. destruct (Obj.get (internalName nm) m).
  - apply wanes_bind; [apply wanes_set_attr; auto|intros _; apply wanes_set_attr; auto].
  - apply wanes_bind; [apply wanes_field|intros nn]. apply wanes_bind; [apply wanes_oget|intros v]. apply wanes_set_attr; auto.
Qed.

Lemma treats_class : treats (js "class") [FUser 1].
Proof.
  apply treats_other; [by vm_compute; set_solver|]. intros nodes. apply wanes_for_all. intros r. unfold class1.
  apply wanes_bind; [by apply wanes_get_attr|intros v]. apply wanes_bind; [apply wanes_oget|intros u].
  apply wanes_set_attr; [done|]. left. vm_compute. set_solver.
Qed.

Lemma wanes_bookmark1 r : wanes internal (bookmark1 cleanup r).
Proof.
  unfold bookmark1. apply wanes_bind; [apply wanes_map_of|intros m]. destruct (_ && _); [|apply wanes_ret].
  apply wanes_bind; [apply wanes_lift, dims_remove|intros; apply wanes_ret].
Qed.

(** After [remove] a node has no parent. *)
Lemma remove_parent r h x h' n : remove r h = Some (x, h') → h' !! r = Some n → parent n = None.
Proof.
  unfold remove, deref. rewrite SE_bind_unfold. destruct (h !! r) as [n0|] eqn:E; [|done]. simpl.
  destruct (parent n0) as [p|] eqn:Ep; [|intros [= _ <-]; congruence].
  intros (pn & h1 & _ & E1)%SE_bind_inv. apply SE_bind_inv in E1 as (? & h2 & _ & E1).
  apply SE_bind_inv in E1 as (? & h3 & _ & E1). apply SE_bind_inv in E1 as (? & h4 & _ & E1).
  apply SE_bind_inv in E1 as (? & h5 & E5 & [= _ <-]). unfold upd in E5. destruct (h4 !! r) as [m|]; [|done].
  injection E5 as _ <-. rewrite lookup_insert_eq. intros [= <-]. done.
Qed.

Lemma treats_bookmark : treats (js "data-mce-type") [FUser 2].
Proof.
  split; [apply wanes_run_one; intros nodes; apply wanes_for_all, wanes_bookmark1|].
  intros _ nodes d x d' E%run_one Hok r n Hr Hn Hp.
  assert (parent n = None ∨ ¬ bad cleanup (js "data-mce-type") n) as [?|?]; [|done..].
  eapply (for_all_effect internal (bookmark1 cleanup) (λ n, parent n = None ∨ ¬ bad cleanup (js "data-mce-type") n));
    [apply wanes_bookmark1| | |exact Hok|exact E|by apply elem_of_reverse|done].
  - clear. intros r d x d' n E Hok Hn. unfold bookmark1 in E. apply SE_bind_inv in E as (m & d1 & E1 & E).
    unfold map_of in E1. apply SE_bind_inv in E1 as (a & d2 & E2 & E1). apply SE_bind_inv in E1 as (a' & d3 & E3 & [= <- <-]).
    unfold field, lift, deref in E2. rewrite SE_bind_unfold in E2. destruct (d_heap d !! r) as [n0|] eqn:Er; [|done]. simpl in E2.
    injection E2 as <- <-. rewrite with_heap_same in E3. destruct (Node.attributes n0) as [a0|] eqn:Ea; [|done]. injection E3 as <- <-.
    destruct (bool_decide _ && negb cleanup) eqn:Eb.
    + left. apply SE_bind_inv in E as (y & d4 & E4 & [= _ <-]). unfold lift in E4.
      destruct (remove r (d_heap d)) as [[z h]|] eqn:Erm; [|done]. injection E4 as _ <-. by eapply remove_parent.
    + right. injection E as _ <-. assert (n = n0) as -> by congruence. unfold bad. rewrite bool_decide_true by done.
      intros [Hc Ht]. unfold attr_of in Ht. rewrite Ea in Ht. cbn [mbind option_bind] in Ht. rewrite Ht, Hc in Eb. done.
  - intros n1 n2 [Hq|Hq] Hpp Ha; [left; destruct (parent n2); [by destruct Hpp|done]|]. right.
    intros Hb. apply Hq. eapply bad_fades; [|exact Ha|exact Hb]. vm_compute. set_solver.
Qed.

Lemma treats_drop nm k : (k = 3 ∨ k = 9)%nat → Obj.is_proto nm = false → nm ≠ js "data-mce-type" → treats nm [FUser k].
Proof.
  intros Hk Hp Hne. assert (∀ nodes, user k nodes nm = each_node (drop_attr1 nm) nodes) as Hu by (by destruct Hk as [-> | ->]).
  assert (∀ r, wanes internal (drop_attr1 nm r)) as Hw by (intros r; apply wanes_set_attr; auto).
  split; [apply wanes_run_one; intros nodes; rewrite Hu; by apply wanes_for_all|].
  intros Hin nodes d x d' E%run_one Hok r n Hr Hn _. rewrite Hu in E.
  eapply (for_all_effect internal (drop_attr1 nm) (λ n, ¬ bad cleanup nm n));
    [done| | |exact Hok|exact E|by apply elem_of_reverse|done].
  - clear E Hr Hn r n d x d' Hok. intros r d x d' n E Hok Hn Hb%bad_attr. unfold drop_attr1, set_attr in E.
    apply SE_bind_inv in E as (y & d1 & E & [= _ <-]). unfold lift in E.
    destruct (attr r nm ArgNull (d_heap d)) as [[z h]|] eqn:Ea; [|done]. injection E as _ <-. simpl in Hn.
    unfold attr in Ea. apply SE_bind_inv in Ea as (n0 & h0 & E0 & Ea). unfold deref in E0.
    destruct (d_heap d !! r) as [n1|] eqn:Er; [|done]. injection E0 as <- <-.
    destruct (Node.attributes n1) as [a|] eqn:Eat.
    + destruct (attr_attrs nm ArgNull a) as [a' t] eqn:Et. apply SE_bind_inv in Ea as (u & h1 & E1 & [= _ <-]).
      unfold upd in E1. rewrite Er in E1. injection E1 as _ <-. rewrite lookup_insert_eq in Hn. injection Hn as <-.
      destruct (attr_attrs_values nm ArgNull a (Hok r n1 a Er Eat) Hp) as [_ Hval]. rewrite Et in Hval. simpl in Hval.
      unfold attr_of in Hb. simpl in Hb. rewrite (Hval nm), bool_decide_true in Hb by done. by destruct Hb.
    + injection Ea as _ <-. assert (n1 = n) as -> by congruence. unfold attr_of in Hb. rewrite Eat in Hb. by destruct Hb.
  - intros n1 n2 Hq _ Ha Hb. apply Hq. by eapply bad_fades.
Qed.
End Treats.

(** The attribute filters of the serializer. *)
Definition own_attribute_filters : list (jstr * list DomParser.filter) :=
  [(js "src", [FUser 0]); (js "href", [FUser 0]); (js "style", [FUser 0]); (js "class", [FUser 1]);
   (js "data-mce-type", [FUser 2]); (js "data-mce-expando", [FUser 3]); (js "data-mce-src", [FUser 9]);
   (js "data-mce-href", [FUser 9]); (js "data-mce-style", [FUser 9]); (js "data-mce-selected", [FUser 9])].

Lemma new_attribute_filters cfg fx : attributeFilters (new_Serializer cfg fx) =
  (if allow_html_in_named_anchor cfg then [] else [(js "id", [FNamedAnchor]); (js "name", [FNamedAnchor])]) ++ own_attribute_filters.
Proof. unfold new_Serializer, new_DomParser. destruct (allow_html_in_named_anchor cfg), (remove_trailing_brs cfg), fx; reflexivity. Qed.

Definition node_filter_kind (f : DomParser.filter) : bool :=
  match f with FTrailingBr => true | FNamedAnchor => false | FUser k => (4 <=? k)%nat && (k <=? 8)%nat end.

Lemma new_node_filters cfg fx : forallb (λ p, forallb node_filter_kind p.2) (nodeFilters (new_Serializer cfg fx)) = true.
Proof. unfold new_Serializer, new_DomParser. destruct (allow_html_in_named_anchor cfg), (remove_trailing_brs cfg), fx; reflexivity. Qed.

Section Whole.
Context `{DomSchema} (st : Styles.settings) (schema_styles : option (Obj.t (list jstr))).
Context (convert : option (option jstr -> jstr -> jstr -> jstr)) (nativeDecode : jstr -> jstr).
Context (cfg : DomParser.settings) (fix_list_elements cleanup : bool).

Abbreviation user := (serializer_filter st schema_styles convert nativeDecode cleanup).
Abbreviation fs := (new_Serializer cfg fix_list_elements).

Lemma own_treated : Forall (λ p, treats st schema_styles convert nativeDecode cleanup p.1 p.2) own_attribute_filters.
Proof.
  unfold own_attribute_filters. repeat apply List.Forall_cons; cbn [fst snd];
    try (apply treats_restore; [done|done|vm_compute; set_solver]);
    try apply treats_class; try apply treats_bookmark; try (apply treats_drop; [auto|done|done]). by apply List.Forall_nil.
Qed.

Lemma internal_filtered nm : nm ∈ internal → Obj.is_proto nm = false ∧ nm ∈ filter_names fs.
Proof.
  intros Hnm. split.
  - revert nm Hnm. apply Forall_forall. by repeat constructor.
  - unfold filter_names. rewrite new_attribute_filters, fmap_app, elem_of_app. right. revert nm Hnm. apply Forall_forall.
    repeat constructor; vm_compute; set_solver.
Qed.

#[local] Hint Resolve steady_set_value_of steady_text_value steady_alloc_new : steady.

Lemma keeps_for_all (f : Node.ref -> DM unit) nodes : (∀ r, keeps internal (f r)) → keeps internal (for_all f nodes).
Proof. intros Hf. induction nodes; simpl; [by apply keeps_steady, steady_ret|by apply attrs_keeps_bind]. Qed.

Lemma keeps_set_attr r nm v : Obj.is_proto nm = false → nm ∉ internal → keeps internal (set_attr r nm v).
Proof. intros. apply attrs_keeps_bind; [by apply keeps_attr|intros; apply keeps_steady, steady_ret]. Qed.

Lemma steady_get_attr r nm : steady (get_attr r nm).
Proof. unfold get_attr. steady_all. Qed.
Lemma steady_map_of r : steady (map_of r).
Proof. unfold map_of. steady_all. Qed.
#[local] Hint Resolve steady_get_attr steady_map_of : steady.

Lemma type_not_internal : js "type" ∉ internal.
Proof. vm_compute. set_solver. Qed.

Lemma keeps_script1 nm r : keeps internal (script1 nm r).
Proof.
  unfold script1. apply attrs_keeps_bind; [apply keeps_steady; steady_all|intros f].
  apply attrs_keeps_bind; [apply keeps_steady; destruct f; steady_all|intros v].
  destruct (str_eqb nm (js "script")); [|apply keeps_steady; steady_all].
  apply attrs_keeps_bind; [apply keeps_steady; steady_all|intros t]. cbv zeta.
  apply attrs_keeps_bind; [apply keeps_set_attr; [done|apply type_not_internal]|intros _]. apply keeps_steady. steady_all.
Qed.

Lemma keeps_input1 nm r : keeps internal (input1 nm r).
Proof.
  unfold input1. apply attrs_keeps_bind; [apply keeps_steady; steady_all|intros ty].
  destruct (bool_decide _); [apply keeps_steady; steady_all|]. destruct (_ && _); [|apply keeps_steady; steady_all].
  apply attrs_keeps_bind; [apply keeps_steady; steady_all|intros m]. destruct (Obj.has _ m); [apply keeps_steady; steady_all|].
  apply keeps_set_attr; [done|apply type_not_internal].
Qed.

Lemma steady_comment1 r : steady (comment1 r).
Proof.
  unfold comment1. apply steady_bind; [steady_all|intros v]. apply steady_lift, calm_upd. intros n. unfold comment_node.
  destruct (starts_with (js "[CDATA[") v), (starts_with (js "mce:protected ") v); by destruct n.
Qed.

Lemma steady_br_before k : ∀ o, steady (br_before k o).
Proof. induction k as [|k IH]; intros o; simpl; steady_all. Qed.
Lemma steady_only_child_block k b : ∀ c o, steady (only_child_block k b c o).
Proof. induction k as [|k IH]; intros c o; simpl; steady_all. Qed.
#[local] Hint Resolve steady_br_before steady_only_child_block : steady.
Lemma steady_br_filter1 r : steady (br_filter1 r).
Proof. unfold br_filter1, after_br_removed. steady_all. Qed.
Lemma steady_move_out k p r : ∀ s, steady (move_out k p r s).
Proof. induction k as [|k IH]; intros s; simpl; steady_all. Qed.
#[local] Hint Resolve steady_move_out : steady.
Lemma steady_anchor_filter1 r : steady (anchor_filter1 r).
Proof. unfold anchor_filter1. steady_all. Qed.
Lemma steady_for_all (f : Node.ref -> DM unit) nodes : (∀ r, steady (f r)) → steady (for_all f nodes).
Proof. intros Hf. induction nodes; simpl; steady_all. Qed.
Lemma steady_attached nodes : steady (attached nodes).
Proof. induction nodes; simpl; steady_all. Qed.

Lemma keeps_node_filter f nodes nm : node_filter_kind f = true → keeps internal (run_filter user f nodes nm).
Proof.
  destruct f as [| |k]; [intros _; apply keeps_steady, steady_for_all, steady_br_filter1|done|].
  unfold node_filter_kind. intros [H1%Nat.leb_le H2%Nat.leb_le]%andb_true_iff.
  assert (k = 4 ∨ k = 5 ∨ k = 6 ∨ k = 7 ∨ k = 8)%nat as [->|[->|[->|[->| ->]]]] by lia; apply keeps_for_all; intros r.
  - apply keeps_steady. unfold noscript1. steady_all.
  - apply keeps_script1.
  - apply keeps_steady, steady_comment1.
  - apply keeps_input1.
  - apply keeps_steady. unfold list1. steady_all.
Qed.

Lemma keeps_run_list l nodes nm : forallb node_filter_kind l = true → keeps internal (run_list user l nodes nm).
Proof.
  induction l as [|f l IH]; simpl; [intros _; apply keeps_steady, steady_ret|]. intros [Hf Hl]%andb_true_iff.
  apply attrs_keeps_bind; [by apply keeps_node_filter|intros _; by apply IH].
Qed.

Lemma keeps_run_node_filters matched : keeps internal (run_node_filters fs user matched).
Proof.
  induction matched as [|[nm nodes] matched IH]; cbn [run_node_filters]; [apply keeps_steady, steady_ret|].
  apply attrs_keeps_bind; [apply keeps_steady, steady_attached|intros ns].
  intros S d x d' Ha (l & d1 & E1 & E)%SE_bind_inv. unfold oget in E1.
  destruct (Obj.get nm (nodeFilters fs)) as [l'|] eqn:El; [|done]. injection E1 as <- <-.
  apply SE_bind_inv in E as (y & d2 & E2 & E). eapply IH; [|exact E]. eapply keeps_run_list; [|exact Ha|exact E2].
  pose proof (new_node_filters cfg fix_list_elements) as Hall. rewrite forallb_forall in Hall.
  apply Obj.get_Some_elem, list_elem_of_In in El. by apply (Hall (nm, l')).
Qed.

Lemma run_attribute_filters_app (u : nat -> list Node.ref -> jstr -> DM unit) l1 l2 m d x d' :
  run_attribute_filters u (l1 ++ l2) m d = Some (x, d') →
  ∃ y d1, run_attribute_filters u l1 m d = Some (y, d1) ∧ run_attribute_filters u l2 m d1 = Some (x, d').
Proof.
  revert d. induction l1 as [|[nm cbs] l1 IH]; intros d; simpl; [by exists tt, d|].
  intros (y & d1 & E1 & E)%SE_bind_inv. apply IH in E as (z & d2 & E2 & E). exists z, d2. split; [|done].
  rewrite SE_bind_unfold, E1. done.
Qed.

Lemma all_matched_covers d : all_matched internal [] d → covers (matchedAttributes d) (d_heap d).
Proof. intros [Hok Hm]. split; [done|]. intros r n nm Hn. apply (Hm r n nm Hn). by apply not_elem_of_nil. Qed.

Lemma covers_hgrows m h h' : hgrows h h' → covers m h → covers m h'.
Proof.
  intros Hh [Hok Hm].
  assert (all_matched internal [] (Dst h' None false [] [] m ∅)) as Ha.
  { apply (all_matched_grows internal [] (Dst h None false [] [] m ∅)); [done|done|]. split; [done|]. simpl. intros. by eapply Hm. }
  apply all_matched_covers in Ha. exact Ha.
Qed.

Lemma steady_anchors m : steady (run_attribute_filters user
  (if allow_html_in_named_anchor cfg then [] else [(js "id", [FNamedAnchor]); (js "name", [FNamedAnchor])]) m).
Proof.
  assert (∀ nm, steady (match Obj.get nm m with Some nodes => nodes ← attached nodes; run_list user [FNamedAnchor] nodes nm | None => mret tt end)) as Hs.
  { intros nm. destruct (Obj.get nm m); [|apply steady_ret]. apply steady_bind; [apply steady_attached|intros ns]. simpl.
    apply steady_bind; [apply steady_for_all, steady_anchor_filter1|intros; apply steady_ret]. }
  destruct (allow_html_in_named_anchor cfg); cbn [run_attribute_filters]; [apply steady_ret|].
  apply steady_bind; [apply Hs|intros _]. apply steady_bind; [apply Hs|intros _; apply steady_ret].
Qed.

(** All filters of the serializer, from a state with complete lists. *)
Lemma filters_clean d x d1 y d' : all_matched internal [] d → run_node_filters fs user (matchedNodes d) d = Some (x, d1) →
  run_attribute_filters user (attributeFilters fs) (matchedAttributes d1) d1 = Some (y, d') →
  (∀ r n a, d_heap d' !! r = Some n → Node.attributes n = Some a → attrs_ok a) ∧
  ∀ r n nm, nm ∈ internal → d_heap d' !! r = Some n → parent n ≠ None → ¬ bad cleanup nm n.
Proof.
  intros Ha E1 E2. eapply keeps_run_node_filters in E1; [|exact Ha]. rewrite new_attribute_filters in E2.
  apply run_attribute_filters_app in E2 as (z & d2 & E2 & E3). apply steady_anchors in E2 as [Hh _].
  eapply covers_hgrows in Hh; [|by apply all_matched_covers].
  destruct (run_attribute_filters_ok st schema_styles convert nativeDecode cleanup _ _ own_treated d2 y d' Hh E3) as [Hf Hb].
  split; [by apply (Hf (proj1 Hh))|]. intros r n nm Hnm. apply Hb; [|done]. revert nm Hnm. apply Forall_forall.
  repeat constructor; vm_compute; set_solver.
Qed.

Lemma start_matched a root d : start_state cfg a = (root, d) → all_matched internal [] d.
Proof.
  unfold start_state. intros [= _ <-]. split; cbn [d_heap].
  - intros r n b [<- <-]%lookup_singleton_Some. done.
  - intros r n nm [<- <-]%lookup_singleton_Some _ _ [v Hv]. done.
Qed.

(** The attributes that are never handed out. *)
Definition hidden : list jstr := tail internal.

Definition clean_attribute (p : jstr * jstr) : Prop :=
  (p.1 ∉ hidden) ∧ (cleanup = false → p ≠ (js "data-mce-type", js "bookmark")).

Lemma not_bad_clean n a : attrs_ok a → Node.attributes n = Some a → (∀ nm, nm ∈ internal → ¬ bad cleanup nm n) →
  Forall clean_attribute (alist a).
Proof.
  intros [E Hn] Ha Hb. apply Forall_forall. intros [nm v] Hin.
  assert (attr_of nm n = Some v) as Hv by (unfold attr_of; rewrite Ha; simpl; rewrite E; by apply Obj.get_elem_NoDup).
  split; simpl.
  - intros Hh. apply (Hb nm); [by right|]. unfold bad. rewrite bool_decide_false; [eauto|].
    intros ->. revert Hh. vm_compute. set_solver.
  - intros Hc [= -> ->]. apply (Hb (js "data-mce-type")); [left|]. unfold bad. by rewrite bool_decide_true.
Qed.

End Whole.

(** ** What the editor's parser hides, the serializer restores *)
Lemma cdata_inside p s : p ≠ 0%nat → mtch cdataRegExp (MS s p []) Some = mtch (RSeq (RStr (js "]]")) REol) (MS s p []) Some.
Proof.
  intros Hp. unfold cdataRegExp. rewrite mtch_alt, (mtch_seq RBol), mtch_bol. destruct (Nat.eqb_spec p 0); [done|]. reflexivity.
Qed.

Lemma cdata_rest v : ∀ n p, (length v < n)%nat → p ≠ 0%nat → replace_all_from n cdataRegExp (λ _, []) p (v ++ js "]]") = v.
Proof.
  induction v as [|c v IH]; intros n p Hn Hp; (destruct n as [|n]; [simpl in Hn; lia|]); rewrite replace_all_from_S; unfold match_here;
    rewrite cdata_inside by done.
  - rewrite app_nil_l.
    assert (mtch (RSeq (RStr (js "]]")) REol) (MS (js "]]") p []) Some = Some (MS [] (p + 2) [])) as ->.
    { by apply (reads_seq (RStr (js "]]")) REol (js "]]") [] [] [] [] [] (reads_str _ _ _) (reads_eol _) p Some). }
    cbn [pos rest caps]. replace (p + 2 - p)%nat with 2%nat by lia. cbn [m_text length Nat.eqb m_after take js]. cbv zeta iota.
    destruct n; [done|]. rewrite replace_all_from_S. unfold match_here. rewrite cdata_inside by (cbn; lia). done.
  - assert (mtch (RSeq (RStr (js "]]")) REol) (MS ((c :: v) ++ js "]]") p []) Some = None) as ->.
    { change (RStr (js "]]")) with (RSeq (RSet (Z.eqb 93)) (RSet (Z.eqb 93))). change (js "]]") with [93; 93].
      rewrite !mtch_seq. cbn [app]. rewrite mtch_set_cons. destruct (93 =? c); [|done].
      destruct v as [|d v]; cbn [app]; rewrite mtch_set_cons; [done|]. destruct (93 =? d); [|done]. by destruct v. }
    cbn [app]. f_equal. apply IH; [simpl in Hn; lia|done].
Qed.

Lemma cdata_text v : replace_all cdataRegExp (λ _, []) (js "[CDATA[" ++ v ++ js "]]") = v.
Proof.
  unfold replace_all. rewrite replace_all_from_S.
  assert (match_here cdataRegExp 0 (js "[CDATA[" ++ v ++ js "]]") = Some (MR 0 (js "[CDATA[") (v ++ js "]]") [])) as -> by done.
  cbn [m_text m_after js length Nat.eqb]. rewrite app_nil_l. apply cdata_rest; [|done]. rewrite !length_app. simpl. lia.
Qed.

Lemma field_run {A} d r n (f : node -> A) : d_heap d !! r = Some n → field r f d = Some (f n, d).
Proof.
  intros Hr. unfold field, lift, deref. rewrite SE_bind_unfold, Hr.
  change (Some (f n, with_heap (d_heap d) d) = Some (f n, d)). by rewrite with_heap_same.
Qed.

Lemma text_value_run d r n v : d_heap d !! r = Some n → value n = Some v → text_value r d = Some (v, d).
Proof. intros Hr Hv. unfold text_value. by rewrite SE_bind_unfold, (field_run d r n), Hv. Qed.

(** The state in which the node [r] has the attributes [l]. *)
Section OneNode.
Context (d : dst) (r : Node.ref) (n : node).

Definition with_attrs (l : list (jstr * jstr)) : dst := with_heap (<[r := set_attributes (Some (Attrs l l)) n]> (d_heap d)) d.

Lemma with_attrs_lookup l : d_heap (with_attrs l) !! r = Some (set_attributes (Some (Attrs l l)) n).
Proof. apply lookup_insert_eq. Qed.

Lemma field_with l {A} (f : node -> A) : field r f (with_attrs l) = Some (f (set_attributes (Some (Attrs l l)) n), with_attrs l).
Proof. apply field_run, with_attrs_lookup. Qed.

Lemma map_of_with l : map_of r (with_attrs l) = Some (l, with_attrs l).
Proof. unfold map_of. by rewrite SE_bind_unfold, field_with. Qed.

Lemma attr_with l nm v : NoDup (Obj.keys l) → Obj.is_proto nm = false →
  lift (attr r nm v) (with_attrs l) = Some ((attr_spec nm v l).2, with_attrs (attr_spec nm v l).1).
Proof.
  intros Hl Hp. unfold lift, attr, deref. rewrite SE_bind_unfold, with_attrs_lookup. cbn [fmap option_fmap option_map Node.attributes set_attributes].
  rewrite attr_attrs_refines by done. rewrite SE_bind_unfold. unfold upd. rewrite with_attrs_lookup. cbn.
  unfold with_attrs, with_heap. cbn. by rewrite insert_insert_eq.
Qed.

Lemma set_attr_with l nm v : NoDup (Obj.keys l) → Obj.is_proto nm = false →
  set_attr r nm v (with_attrs l) = Some (tt, with_attrs (attr_spec nm v l).1).
Proof. intros. unfold set_attr. by rewrite SE_bind_unfold, attr_with. Qed.

Lemma get_attr_with l nm : NoDup (Obj.keys l) → Obj.is_proto nm = false →
  get_attr r nm (with_attrs l) = Some (Obj.get nm l, with_attrs l).
Proof. intros. unfold get_attr. rewrite SE_bind_unfold, attr_with by done. cbn. by destruct (Obj.get nm l). Qed.

Lemma with_attrs_same l : d_heap d !! r = Some n → Node.attributes n = Some (Attrs l l) → with_attrs l = d.
Proof.
  intros Hr Ha. unfold with_attrs. rewrite <- Ha. assert (set_attributes (Node.attributes n) n = n) as -> by by destruct n.
  by rewrite insert_id, with_heap_same.
Qed.
End OneNode.

Lemma Obj_delete_set_ne {V} k k' (v : V) (l : Obj.t V) : k ≠ k' → Obj.delete k (Obj.set k' v l) = Obj.set k' v (Obj.delete k l).
Proof.
  intros Hne. induction l as [|[k1 v1] l IH]; cbn; [by rewrite (proj2 (str_eqb_false k k'))|].
  destruct (str_eqb k' k1) eqn:E1, (str_eqb k k1) eqn:E; cbn; rewrite ?E1, ?E, ?IH; try done.
  - apply str_eqb_true in E1, E. congruence.
  - apply str_eqb_true in E1 as ->. by rewrite (proj2 (str_eqb_false k k1)).
Qed.

Lemma Obj_delete_set_new {V} k (v : V) (l : Obj.t V) : Obj.get k l = None → Obj.delete k (Obj.set k v l) = l.
Proof.
  induction l as [|[k1 v1] l IH]; cbn; [by rewrite (proj2 (str_eqb_true k k))|].
  destruct (str_eqb k k1) eqn:E; [done|]. cbn. rewrite E. intros. by rewrite IH.
Qed.

Lemma Obj_delete_delete {V} k k' (l : Obj.t V) : Obj.delete k (Obj.delete k' l) = Obj.delete k' (Obj.delete k l).
Proof.
  induction l as [|[k1 v1] l IH]; cbn; [done|].
  destruct (str_eqb k' k1) eqn:E1, (str_eqb k k1) eqn:E; cbn; rewrite ?E1, ?E; by rewrite ?IH.
Qed.

Lemma Obj_set_set {V} k (v v' : V) (l : Obj.t V) : Obj.set k v (Obj.set k v' l) = Obj.set k v l.
Proof.
  induction l as [|[k1 v1] l IH]; cbn; [by rewrite (proj2 (str_eqb_true k k))|].
  destruct (str_eqb k k1) eqn:E; cbn; [by rewrite (proj2 (str_eqb_true k k))|]. by rewrite E, IH.
Qed.

Lemma Obj_delete_set {V} k (v : V) (l : Obj.t V) : Obj.delete k (Obj.set k v l) = Obj.delete k l.
Proof.
  induction l as [|[k1 v1] l IH]; cbn; [by rewrite (proj2 (str_eqb_true k k))|].
  destruct (str_eqb k k1) eqn:E; cbn; [by rewrite (proj2 (str_eqb_true k k))|]. by rewrite E, IH.
Qed.

Section Restore.
Context (st : Styles.settings) (schema_styles : option (Obj.t (list jstr))).
Context (convert : option (option jstr -> jstr -> jstr -> jstr)).

(** The value the editor shows for an address or a style. *)
Definition converted (nm v node_name : jstr) : option jstr :=
  if str_eqb nm (js "style") then style_text st schema_styles (Some v) node_name
  else match convert with Some f => Some (f (Some v) nm node_name) | None => Some v end.

(** An attribute with its value, none when the value is empty. *)
Definition with_value (nm v : jstr) (l : list (jstr * jstr)) : list (jstr * jstr) :=
  match v with [] => Obj.delete nm l | _ => Obj.set nm v l end.

Lemma or_null_with nm v l : (attr_spec nm (or_null v) l).1 = with_value nm v l.
Proof. by destruct v. Qed.

Lemma with_value_NoDup nm v l : NoDup (Obj.keys l) → NoDup (Obj.keys (with_value nm v l)).
Proof. intros. destruct v; [by apply Obj.keys_NoDup_delete|by apply Obj.keys_NoDup_set]. Qed.

Lemma internalName_ne nm : nm ≠ internalName nm.
Proof. intros E%(f_equal length). unfold internalName in E. rewrite length_app in E. cbn [length js] in E. lia. Qed.

Lemma address_restored d r n l nm v v' : d_heap d !! r = Some n → Node.attributes n = Some (Attrs l l) → NoDup (Obj.keys l) →
  Obj.is_proto nm = false → Obj.is_proto (internalName nm) = false →
  Obj.get nm l = Some v → Obj.get (internalName nm) l = None → converted nm v (Node.name n) = Some v' →
  (keep1 st schema_styles convert nm r;; restore1 st schema_styles convert nm r) d = Some (tt, with_attrs d r n (with_value nm v' l)).
Proof.
  intros Hr Ha Hl Hp Hpi Hv Hi Hc. rewrite <- (with_attrs_same d r n l Hr Ha) at 1.
  rewrite SE_bind_unfold. unfold keep1. rewrite SE_bind_unfold, get_attr_with, Hv by done. cbn [fmap option_fmap option_map].
  rewrite SE_bind_unfold, map_of_with. unfold map_truthy. rewrite Hi, Hpi. rewrite SE_bind_unfold, field_with. cbv zeta.
  rewrite SE_bind_unfold. unfold oget. change (Node.name (set_attributes (Some (Attrs l l)) n)) with (Node.name n).
  change (if str_eqb nm (js "style") then style_text st schema_styles (Some v) (Node.name n) else
    match convert with Some f => Some (f (Some v) nm (Node.name n)) | None => Some v end) with (converted nm v (Node.name n)).
  rewrite Hc. cbn [fmap option_fmap option_map]. rewrite set_attr_with by done. cbn [attr_spec fst].
  set (l1 := Obj.set (internalName nm) v' l). assert (NoDup (Obj.keys l1)) as Hl1 by by apply Obj.keys_NoDup_set.
  unfold restore1. rewrite SE_bind_unfold, map_of_with. cbv zeta. unfold l1 at 1. rewrite Obj.get_set_eq.
  rewrite SE_bind_unfold, set_attr_with, or_null_with by done. rewrite set_attr_with by (done || by apply with_value_NoDup).
  cbn [attr_spec fst]. do 3 f_equal. unfold l1. pose proof (internalName_ne nm). destruct v' as [|c u]; cbn [with_value].
  - rewrite Obj_delete_delete. by rewrite Obj_delete_set_new.
  - rewrite Obj_delete_set_ne by done. by rewrite Obj_delete_set_new.
Qed.

(** The type of a script, unless it is the default one. *)
Definition script_type (l : list (jstr * jstr)) : jstr :=
  match Obj.get (js "type") l with Some (c :: s) => c :: s | _ => js "text/javascript" end.

Lemma prefix_dropped t : replace_first prefixRegExp (λ _, []) (js "mce-" ++ t) = t.
Proof. unfold replace_first, prefixRegExp. by rewrite (exec_reads _ (js "mce-") t [] (reads_str _ _ _)). Qed.

(** The code of a script, within a CDATA section that the script takes for two comments. *)
Definition in_section (code : jstr) : jstr := js "// <![CDATA[" ++ newline ++ trim_script code ++ newline ++ js "// ]]>".

(** A script is empty or its first child is a text. *)
Definition script_child (d : dst) (r : Node.ref) (n : node) : Prop :=
  match firstChild n with Some c => c ≠ r ∧ ∃ nc v, d_heap d !! c = Some nc ∧ value nc = Some v | None => True end.

Definition with_code (c : option Node.ref) (d : dst) : dst :=
  match c with
  | None => d
  | Some c =>
      match d_heap d !! c with
      | Some nc => match value nc with
                   | Some (x :: v) => with_heap (<[c := set_value (Some (in_section (x :: v))) nc]> (d_heap d)) d
                   | _ => d
                   end
      | None => d
      end
  end.

(** The code is read before the type is set and written after it. *)
Lemma code_run d r n l1 (m : dst → option (unit * dst)) l2 : script_child d r n →
  m (with_attrs d r n l1) = Some (tt, with_attrs d r n l2) →
  (v ← match firstChild n with None => mret (Some []) | Some c => field c value end;
   m;; v ← oget v;
   match firstChild n with
   | Some c => if truthy v then set_value_of c (in_section v) else mret tt
   | None => mret tt
   end) (with_attrs d r n l1) = Some (tt, with_code (firstChild n) (with_attrs d r n l2)).
Proof.
  intros Hc Hm. unfold script_child in Hc. rewrite SE_bind_unfold. destruct (firstChild n) as [c|].
  - destruct Hc as (Hne & nc & v & Hr & Hv).
    assert (∀ l, d_heap (with_attrs d r n l) !! c = Some nc) as Hcl by (intros l; unfold with_attrs; cbn; by rewrite lookup_insert_ne).
    rewrite (field_run _ c nc value (Hcl l1)), SE_bind_unfold, Hm, SE_bind_unfold, Hv. cbn [oget fmap option_fmap option_map].
    unfold with_code. rewrite Hcl, Hv. destruct v as [|x v]; [done|]. cbn [truthy].
    unfold set_value_of, lift, upd. by rewrite Hcl.
  - change ((mret (Some []) : DM (option jstr)) (with_attrs d r n l1)) with (Some (Some (@nil Z), with_attrs d r n l1)).
    cbv iota. rewrite SE_bind_unfold, Hm. done.
Qed.

Lemma script_restored d r n l : d_heap d !! r = Some n → Node.attributes n = Some (Attrs l l) → NoDup (Obj.keys l) → script_child d r n →
  (script_in1 r;; script1 (js "script") r) d = Some (tt, with_code (firstChild n) (with_attrs d r n
    (if str_eqb (script_type l) (js "text/javascript") then Obj.delete (js "type") l else Obj.set (js "type") (script_type l) l))).
Proof.
  intros Hr Ha Hl Hc. rewrite <- (with_attrs_same d r n l Hr Ha) at 1.
  rewrite SE_bind_unfold. unfold script_in1. rewrite SE_bind_unfold, get_attr_with by done. cbn [fmap option_fmap option_map].
  rewrite set_attr_with by done. cbn [attr_spec fst]. change (match Obj.get (js "type") l with Some (c :: s) => c :: s | _ => js "text/javascript" end) with (script_type l).
  set (l1 := Obj.set (js "type") (js "mce-" ++ script_type l) l). assert (NoDup (Obj.keys l1)) as Hl1 by by apply Obj.keys_NoDup_set.
  unfold script1. rewrite SE_bind_unfold, field_with. cbn [set_attributes firstChild].
  change (str_eqb (js "script") (js "script")) with true. cbv iota.
  set (m := (t ← get_attr r (js "type");
    let t := replace_first prefixRegExp (λ _, []) (match t with Some (c :: s) => c :: s | _ => js "text/javascript" end) in
    set_attr r (js "type") (if str_eqb t (js "text/javascript") then ArgNull else ArgVal t)) : DM unit).
  set (l2 := if str_eqb (script_type l) _ then _ else _).
  assert (m (with_attrs d r n l1) = Some (tt, with_attrs d r n l2)) as Hm.
  { unfold m. rewrite SE_bind_unfold, get_attr_with by done. cbv zeta.
    assert (Obj.get (js "type") l1 = Some (js "mce-" ++ script_type l)) as -> by apply Obj.get_set_eq.
    change (match js "mce-" ++ script_type l with [] => js "text/javascript" | c :: s => c :: s end) with (js "mce-" ++ script_type l).
    rewrite prefix_dropped. unfold l2. destruct (str_eqb (script_type l) (js "text/javascript")); rewrite set_attr_with by done; cbn [attr_spec fst].
    - unfold l1. by rewrite Obj_delete_set.
    - unfold l1. by rewrite Obj_set_set. }
  etransitivity; [|exact (code_run d r n l1 m l2 Hc Hm)].
  rewrite !SE_bind_unfold. change (firstChild (set_attributes (Some (Attrs l1 l1)) n)) with (firstChild n).
  destruct (match firstChild n with Some c => field c value | None => mret (Some []) end (with_attrs d r n l1)) as [[v d1]|]; [|done].
  unfold m. by rewrite SE_bind_assoc.
Qed.

Lemma cdata_restored n v : Node.name n = js "#cdata" → Node.type n = TNum 4 → value n = Some v → comment_node (default [] (value (cdata_node n))) (cdata_node n) = n.
Proof.
  intros Hn Ht Hv.
  assert (value (cdata_node n) = Some (js "[CDATA[" ++ v ++ js "]]")) as -> by (destruct n; cbn in *; by subst).
  change (comment_node (js "[CDATA[" ++ v ++ js "]]") (cdata_node n) = n). unfold comment_node. assert (starts_with (js "[CDATA[") (js "[CDATA[" ++ v ++ js "]]") = true) as -> by done.
  rewrite cdata_text. destruct n. cbn [Node.name Node.type Node.value] in Hn, Ht, Hv. subst. reflexivity.
Qed.

(** C9: The serializer's filters undo those of the editor's parser: the address or style the editor shows for
    an attribute, that is its value as converted by the parser, comes back as that attribute, in its place, and the internal one, which the element is not to have before, is gone; a script, empty or with a text as its first child, has its type
    again, unless it is the default one, and its code, trimmed, is within a CDATA section; and a comment that stands for a CDATA
    section is that section again, whatever its text. *)
Theorem filters_restore d r n :
  d_heap d !! r = Some n →
  (∀ l nm v v', Node.attributes n = Some (Attrs l l) → NoDup (Obj.keys l) → nm ∈ js <$> ["src"; "href"; "style"]%string →
     Obj.get nm l = Some v → Obj.get (internalName nm) l = None → converted nm v (Node.name n) = Some v' →
     (keep1 st schema_styles convert nm r;; restore1 st schema_styles convert nm r) d = Some (tt, with_attrs d r n (with_value nm v' l)))
  ∧ (∀ l, Node.attributes n = Some (Attrs l l) → NoDup (Obj.keys l) → script_child d r n →
     (script_in1 r;; script1 (js "script") r) d = Some (tt, with_code (firstChild n) (with_attrs d r n
       (if str_eqb (script_type l) (js "text/javascript") then Obj.delete (js "type") l else Obj.set (js "type") (script_type l) l))))
  ∧ (∀ v, Node.name n = js "#cdata" → Node.type n = TNum 4 → value n = Some v → (cdata1 r;; comment1 r) d = Some (tt, d)).
Proof.
  intros Hr. split_and!.
  - intros l nm v v' Ha Hl Hnm. assert (Obj.is_proto nm = false ∧ Obj.is_proto (internalName nm) = false) as [Hp Hpi].
    { revert nm Hnm. apply Forall_forall. by repeat constructor. }
    by apply address_restored.
  - intros l. by apply script_restored.
  - intros v Hn Ht Hv. pose proof (cdata_restored n v Hn Ht Hv) as Hback.
    set (d1 := with_heap (<[r:=cdata_node n]> (d_heap d)) d).
    assert (d_heap d1 !! r = Some (cdata_node n)) as Hr1 by apply lookup_insert_eq.
    assert (cdata1 r d = Some (tt, d1)) as E1 by (unfold cdata1, lift, upd; by rewrite Hr).
    assert (value (cdata_node n) = Some (js "[CDATA[" ++ v ++ js "]]")) as Hv1 by (destruct n; cbn in *; by subst).
    rewrite SE_bind_unfold, E1. unfold comment1. rewrite SE_bind_unfold, (text_value_run d1 r _ _ Hr1 Hv1).
    rewrite Hv1 in Hback. change (comment_node (js "[CDATA[" ++ v ++ js "]]") (cdata_node n) = n) in Hback.
    unfold lift, upd. rewrite Hr1. cbn [fmap option_fmap option_map fst snd]. rewrite Hback. unfold d1. cbn [d_heap with_heap].
    rewrite insert_insert_eq, insert_id by done. unfold with_heap. by destruct d.
Qed.
End Restore.

(** ** A small document *)
Definition sample_styles : Styles.settings := Styles.Settings false None.
Definition quoted_text (s : string) : jstr := (λ c, if c =? 96 then 34 else c) <$> js s.
Definition sample_edited : jstr := quoted_text
  "<p data-mce-style=`color: red;` style=`x` class=`mce-item-a b`>t<span data-mce-type=`bookmark`>x</span><img src=`1` data-mce-src=`2`></p>".

Abbreviation sample_parse html :=
  (DomParser.parse (H := sample_dom) sample_settings (new_Serializer sample_settings true)
    (serializer_filter sample_styles None None no_entities false) no_entities html sample_args).


Definition sample_dst (n : node) : dst := Dst {[0%nat := n]} None false [] [] [] ∅.
Definition sample_img : node := set_attributes (Some (Attrs [(js "src", js "a.gif")] [(js "src", js "a.gif")])) (new_node (js "img") (TNum 1)).

(** [<script type="text/x">a()</script>] *)
Definition sample_script : node :=
  MkNode (js "script") (TNum 1) (Some (Attrs [(js "type", js "text/x")] [(js "type", js "text/x")])) None false false false
    None (Some 1%nat) (Some 1%nat) None None.
Definition sample_code : node := set_value (Some (js "a()")) (new_node (js "#text") (TNum 3)).
Definition script_dst : dst := Dst {[0%nat := sample_script; 1%nat := sample_code]} None false [] [] [] ∅.

Lemma filters_restore_witness :
  (keep1 sample_styles None None (js "src") 0%nat;; restore1 sample_styles None None (js "src") 0%nat) (sample_dst sample_img)
    = Some (tt, with_attrs (sample_dst sample_img) 0%nat sample_img [(js "src", js "a.gif")])
  ∧ (λ p, value <$> d_heap p.2 !! 1%nat) <$> ((script_in1 0%nat;; script1 (js "script") 0%nat) script_dst)
    = Some (Some (Some (js "// <![CDATA[" ++ [10] ++ js "a()" ++ [10] ++ js "// ]]>"))).
Proof.
  split.
  - destruct (filters_restore sample_styles None None (sample_dst sample_img) 0%nat sample_img eq_refl) as (Ha & _ & _).
    apply (Ha [(js "src", js "a.gif")] (js "src") (js "a.gif") (js "a.gif")); try reflexivity; [|by left].
    apply NoDup_singleton.
  - destruct (filters_restore sample_styles None None script_dst 0%nat sample_script eq_refl) as (_ & Hs & _).
    rewrite (Hs [(js "type", js "text/x")]); [by vm_compute|done|apply NoDup_singleton|].
    split; [done|]. by exists sample_code, (js "a()").
Defined.

(** A tag with the same internal attribute twice: the filter removes one of them, the other is handed out. *)
Definition sample_order : SerializerSchema :=
  {| attributesOrder := λ n, r ← getElementRule default_schema.1 n; Schema.attributesOrder r |}.

Lemma internal_survives_twice :
  serialize_html (H := sample_dom) (H0 := sample_order) sample_styles None None no_entities sample_settings true false false sample_writer sample_args
    (quoted_text "<p data-mce-src=`a` data-mce-src=`b`>x</p>") = Some (quoted_text "<p data-mce-src=`a`>x</p>").
Proof. vm_compute. reflexivity. Qed.
