(* ===== verification/WordFilter.v ===== *)
(** * plugins/paste/classes/WordFilter.js and plugins/paste/classes/Utils.js

    The clean-up of content pasted from a word processor: regular expressions
    over the text, the parser with a schema and two filters of its own, the conversion of paragraphs that
    begin with a bullet or a number into lists, and the serializer.  Paths are relative to the editor's
    directory, beside classes/. *)

From S2P Require Import Prelude Regexp Tools Styles Entities Schema SaxParser Writer Node DomParser Serializer DomSerializer.

(** [map[name]] is truthy: a member, or one every object inherits. *)
Definition has_key (nm : jstr) (m : nameset) : bool := Obj.has nm m || Obj.is_proto nm.

(** ** Utils.filter *)
(** An expression alone is replaced by nothing. *)
Definition filter (content : jstr) (items : list (re * (mres -> jstr))) : jstr :=
  (each items (λ v _ content, (replace_all v.1 v.2 content, false)) content).1.

(** ** Utils.innerText *)
Section InnerText.
Context (shortEndedElements ignoreElements blockElements : nameset).

(** [walk(node)], with the text written so far. *)
Definition walk_with (children : option Node.ref -> jstr -> HM jstr) (currentNode : node) (text : jstr) : HM jstr :=
  let nm := Node.name currentNode in
  if str_eqb nm (js "br") then mret (text ++ [10])
  else
    let text := if has_key nm shortEndedElements then text ++ [32] else text in
    if has_key nm ignoreElements then mret (text ++ [32])
    else
      let text := if is_text currentNode then text ++ default (js "undefined") (value currentNode) else text in
      text ← (if shortEnded currentNode then mret text else children (firstChild currentNode) text);
      mret (if has_key nm blockElements && bool_decide (is_Some (next currentNode))
            then text ++ [10] ++ (if str_eqb nm (js "p") then [10] else []) else text).

(** [do { walk(node); } while ((node = node.next))] *)
Fixpoint walk_nodes (fuel : nat) (cur : option Node.ref) (text : jstr) : HM jstr :=
  match fuel, cur with
  | _, None => mret text
  | O, Some _ => throw
  | S f, Some x =>
      n ← deref x;
      text ← walk_with (walk_nodes f) n text;
      walk_nodes f (next n) text
  end.

Definition walk_text (root : Node.ref) : HM jstr :=
  n ← deref root;
  sz ← gets size;
  walk_with (walk_nodes sz) n [].
End InnerText.

Definition ignoreElements : nameset := makeMap (js "script noscript style textarea video audio iframe object") 32 [].

(** The settings object of both parsers of the plug-in is empty. *)
Definition empty_settings : DomParser.settings := DomParser.Settings true (js "body") false false None [] false false.
Definition no_args : args := Args None None false.
Definition no_user_filter (n : nat) (nodes : list Node.ref) (nm : jstr) : DM unit := mret tt.

Definition innerText `{DomSchema} (nativeDecode : jstr -> jstr) (html : jstr) : option jstr :=
  '(root, _, d) ← DomParser.parse empty_settings (new_DomParser empty_settings) no_user_filter nativeDecode html no_args;
  fst <$> walk_text shortEndedElements ignoreElements d_block root (d_heap d).

(** ** WordFilter *)
Definition any : cset := λ _, true.
Definition RAhead (a : re) : re := RNotAhead (RNotAhead a).

(** [/<font face=`Times New Roman`|class=`?Mso|style=`[^`]*\bmso-|style='[^'']*\bmso-|w:WordDocument/i], with
    double quotes for the backquotes; the word boundary before [mso-] is a sign before it that belongs to no
    word, or the quote itself. *)
Definition mso_style (q : Z) : re :=
  RSeq (RStrI (js "style=")) (RSeq (RChar q)
    (RSeq (ROpt (RSeq (RStar true (RSet (λ c, negb (c =? q)))) (RSet (λ c, negb (c =? q) && negb (is_word c))))) (RStrI (js "mso-")))).
Definition wordRegExp : re :=
  RAlt (RStrI (js "<font face=" ++ [34] ++ js "Times New Roman" ++ [34]))
  (RAlt (RSeq (RStrI (js "class=")) (RSeq (ROpt (RChar 34)) (RStrI (js "Mso"))))
  (RAlt (mso_style 34) (RAlt (mso_style 39) (RStrI (js "w:WordDocument"))))).
Definition isWordContent (content : jstr) : bool := test wordRegExp content.

(** [/<!--[\s\S]+?-->/gi] *)
Definition commentRegExp : re :=
  RSeq (RStr (js "<!--")) (RSeq (RSet any) (RSeq (RStar false (RSet any)) (RStr (js "-->")))).

(** [/<(!|script[^>]*>.*?<\/script(?=[>\s])|\/?(\?xml(:\w+)?|img|meta|link|style|\w:\w+)(?=[\s\/>]))[^>]*>/gi] *)
Definition not_gt : re := RStar true (RSet (λ c, negb (c =? 62))).
Definition junkNames : re :=
  RAlt (RSeq (RStrI (js "?xml")) (ROpt (RSeq (RChar 58) (RPlus (RSet is_word)))))
  (RAlt (RStrI (js "img")) (RAlt (RStrI (js "meta")) (RAlt (RStrI (js "link")) (RAlt (RStrI (js "style"))
  (RSeq (RSet is_word) (RSeq (RChar 58) (RPlus (RSet is_word)))))))).
Definition junkRegExp : re :=
  RSeq (RChar 60) (RSeq
    (RAlt (RChar 33)
    (RAlt (RSeq (RStrI (js "script")) (RSeq not_gt (RSeq (RChar 62) (RSeq (RStar false (RSet dot))
             (RSeq (RStrI (js "</script")) (RAhead (RSet (λ c, (c =? 62) || is_space c))))))))
          (RSeq (ROpt (RChar 47)) (RSeq junkNames (RAhead (RSet (λ c, is_space c || (c =? 47) || (c =? 62))))))))
    (RSeq not_gt (RChar 62))).

(** [/<(\/?)s>/gi] *)
Definition strikeRegExp : re := RSeq (RChar 60) (RSeq (RGroup 1 (ROpt (RChar 47))) (RStrI (js "s>"))).

(** [/<span\s+style\s*=\s*`\s*mso-spacerun\s*:\s*yes\s*;?\s*`\s*>([\s\u00a0]* )<\/span>/gi], likewise. *)
Definition spacerunRegExp : re :=
  RSeq (RStrI (js "<span")) (RSeq (RPlus (RSet is_space)) (RSeq (RStrI (js "style")) (RSeq spaces (RSeq (RChar 61) (RSeq spaces
  (RSeq (RChar 34) (RSeq spaces (RSeq (RStrI (js "mso-spacerun")) (RSeq spaces (RSeq (RChar 58) (RSeq spaces
  (RSeq (RStrI (js "yes")) (RSeq spaces (RSeq (ROpt (RChar 59)) (RSeq spaces (RSeq (RChar 34) (RSeq spaces (RSeq (RChar 62)
  (RSeq (RGroup 1 (RStar true (RSet is_space))) (RStrI (js "</span>"))))))))))))))))))))).

(** The spaces that stand for a run of that length. *)
Definition spacerun (m : mres) : jstr :=
  let spaces := default [] (group 1 m) in
  if truthy spaces then
    join nbsp ((λ c, [c]) <$> drop (length spaces / 2) (replace_first (RSet dot) (λ _, [32]) spaces))
  else [].

Definition word_items : list (re * (mres -> jstr)) :=
  [(commentRegExp, λ _, []);
   (junkRegExp, λ _, []);
   (strikeRegExp, λ m, js "<" ++ default [] (group 1 m) ++ js "strike>");
   (RStrI (js "&nbsp;"), λ _, nbsp);
   (spacerunRegExp, spacerun)].

(** *** The style attribute *)
Definition set_level (r : Node.ref) (l : Z) (d : dst) : dst :=
  Dst (d_heap d) (cur d) (inPre d) (invalidChildren d) (matchedNodes d) (matchedAttributes d) (<[r := l]> (listLevels d)).

(** [/mso-list:\w+ \w+([0-9]+)/] *)
Definition listRegExp : re :=
  RSeq (RStr (js "mso-list:")) (RSeq (RPlus (RSet is_word)) (RSeq (RChar 32)
    (RSeq (RPlus (RSet is_word)) (RGroup 1 (RPlus (RSet is_digit)))))).
Definition list_level (styleValue : jstr) : option Z := m ← exec listRegExp styleValue; s ← group 1 m; parse_int 10 s.

(** The names under which a style goes on; [None]: the callback returns before it is written. *)
Definition style_name (name : jstr) : option jstr :=
  if existsb (str_eqb name) (js <$> ["horiz-align"; "vert-align"; "font-color"; "mso-foreground"]%string) then None
  else if str_eqb name (js "mso-background") || str_eqb name (js "mso-highlight") then Some (js "background")
  else Some name.

(** The pairs [each] passes on; an object with a length is taken for an array, whose members are missing
    (of the lengths that are no number in decimal digits all count as 0 here). *)
Definition style_entries (styles : styles_t) : list (jstr * jstr) :=
  match Obj.get (js "length") styles with
  | None => styles
  | Some v =>
      (λ i, (num_to_string 10 (Z.of_nat i), js "undefined"))
        <$> seq 0 (if truthy v && forallb is_digit v then Z.to_nat (default 0 (parse_int 10 v)) else 0)
  end.

Section Pasting.
(** [paste_retain_style_properties], when it is set; the styles of the editor. *)
Context (retain : option jstr) (st : Styles.settings).

Definition keeps_style (name : jstr) : bool :=
  match retain with
  | Some (c :: s) => str_eqb (c :: s) (js "all") || has_key name (makeMap (c :: s) 44 [])
  | _ => false
  end.

Definition retained (styles : list (jstr * jstr)) : jstr :=
  (each styles (λ p _ out,
     (match style_name p.1 with
      | Some name => if keeps_style name then out ++ name ++ js ":" ++ p.2 ++ js ";" else out
      | None => out
      end, false)) []).1.

(** [filterStyles(node, styleValue)]; [None] is a missing value, read as its name by the expression
    and as no styles by the parser. *)
Definition filterStyles (r : Node.ref) (styleValue : option jstr) : DM attr_arg :=
  nm ← field r Node.name;
  (if str_eqb nm (js "p") then
     match list_level (default (js "undefined") styleValue) with
     | Some l => modify (set_level r l)
     | None => mret tt
     end
   else mret tt);;
  match retain with
  | Some [] => mret ArgNull
  | _ =>
      styles ← oget (Styles.parse st (default [] styleValue));
      mret (or_null (retained (style_entries styles)))
  end.

Definition style1 (r : Node.ref) : DM unit :=
  v ← get_attr r (js "style");
  v ← filterStyles r v;
  set_attr r (js "style") v;;
  nm ← field r Node.name;
  if str_eqb nm (js "span") then
    a ← field r Node.attributes;
    a ← oget a;
    match alist a with [] => lift (unwrap r) | _ => mret tt end
  else mret tt.

(** *** Links *)
(** [href.split('#')[1]] *)
Definition after_hash (href : jstr) : option jstr := split_unit 35 href !! 1%nat.

Definition link_of (href : option jstr) : option jstr :=
  match href with
  | Some h => if starts_with (js "file://") h
              then match after_hash h with Some (c :: s) => Some (js "#" ++ c :: s) | x => x end
              else Some h
  | None => None
  end.

Definition arg_of (o : option jstr) : attr_arg := match o with Some v => ArgVal v | None => ArgUndefined end.
Definition falsy (o : option jstr) : bool := match o with Some (_ :: _) => false | _ => true end.

Definition anchor1 (r : Node.ref) : DM unit :=
  href ← get_attr r (js "href");
  nm ← get_attr r (js "name");
  let href := link_of href in
  if falsy href && falsy nm then lift (unwrap r)
  else lift (attr_items r [(js "href", arg_of href); (js "name", arg_of nm)]).

Definition word_filter (n : nat) (nodes : list Node.ref) (nm : jstr) : DM unit :=
  match n with
  | 0%nat => each_node style1 nodes
  | _ => each_node anchor1 nodes
  end.

Definition new_word_parser : filters :=
  addNodeFilter (js "a") (FUser 1) (addAttributeFilter (js "style") (FUser 0) (new_DomParser empty_settings)).
End Pasting.

(** *** Lists *)
(** [/^\s*[\u2022\u00b7\u00a7\u00d8\u25CF]\s*$/] *)
Definition bulletRegExp : re :=
  RSeq RBol (RSeq spaces (RSeq (RSet (λ c, existsb (Z.eqb c) [0x2022; 0xb7; 0xa7; 0xd8; 0x25CF])) (RSeq spaces REol))).
(** [/^\s*\w+\.$/] *)
Definition numberRegExp : re := RSeq RBol (RSeq spaces (RSeq (RPlus (RSet is_word)) (RSeq (RChar 46) REol))).
(** [/([0-9])\./] *)
Definition startRegExp : re := RSeq (RGroup 1 (RSet is_digit)) (RChar 46).
(** [/^\u00a0+/] *)
Definition nbspRegExp : re := RSeq RBol (RPlus (RChar 160)).

Definition is_bullet (text : jstr) : bool := test bulletRegExp text.
Definition is_number (text : jstr) : bool := test numberRegExp text.
Definition start_of (text : jstr) : Z :=
  default 1 (m ← exec startRegExp text; s ← group 1 m; parse_int 10 s).

(** The kind of list a paragraph with that first text begins an item of, and the number of the item; the
    missing number of an unordered list is never above 1. *)
Definition list_kind (text : jstr) : option (jstr * Z) :=
  if is_bullet text then Some (js "ul", 1)
  else if is_number text then Some (js "ol", start_of text)
  else None.

(** The variables of the conversion. *)
Record lists := Lists { currentListNode : option Node.ref; prevListNode : option Node.ref; lastLevel : Z }.

Definition hfield {A} (r : Node.ref) (f : node -> A) : HM A := n ← deref r; mret (f n).

Section Convert.
(** The property [_listLevel] of a node. *)
Context (_listLevel : Node.ref -> option Z).

Definition level_of (ls : lists) (r : Node.ref) : Z :=
  match _listLevel r with Some l => if l =? 0 then lastLevel ls else l | None => lastLevel ls end.

(** Where the nesting leads: the two list variables. *)
Definition nest (ls : lists) (level : Z) : HM (option Node.ref * option Node.ref) :=
  if level =? lastLevel ls then mret (currentListNode ls, prevListNode ls)
  else if level <? lastLevel ls then
    match currentListNode ls with
    | Some c => p ← hfield c parent; p ← oget p; pp ← hfield p parent; mret (pp, prevListNode ls)
    | None => mret (None, prevListNode ls)
    end
  else mret (None, currentListNode ls).

Definition has_name (o : option Node.ref) (nm : jstr) : HM bool :=
  match o with Some c => n ← hfield c Node.name; mret (str_eqb n nm) | None => mret false end.

Definition or_else (a b : option Node.ref) : option Node.ref := match a with Some _ => a | None => b end.

Definition make_list (listName : jstr) (start : Z) : HM Node.ref :=
  l ← alloc (new_node listName (TNum 1));
  (if 1 <? start then attr l (js "start") (ArgVal (num_to_string 10 start));; mret tt else mret tt);;
  mret l.

(** The list the paragraph is put in, and the list before it. *)
Definition join_list (cur pv : option Node.ref) (paragraphNode : Node.ref) (listName : jstr) (start : Z)
    : HM (Node.ref * option Node.ref) :=
  same ← has_name cur listName;
  match cur, (same : bool) with
  | Some c, true => append c paragraphNode;; mret (c, pv)
  | _, _ =>
      l ← make_list listName start;
      wrap paragraphNode l;;
      mret (l, or_else pv cur)
  end.

(** The bullet goes, and so do the spaces after it. *)
Definition drop_bullet (listStartTextNode : Node.ref) : HM unit :=
  upd listStartTextNode (set_value (Some []));;
  nx ← hfield listStartTextNode next;
  match nx with
  | None => mret tt
  | Some nextNode =>
      t ← hfield nextNode type;
      if bool_decide (t = TNum 3) then
        v ← hfield nextNode value;
        v ← oget v;
        upd nextNode (set_value (Some (replace_first nbspRegExp (λ _, []) v)))
      else mret tt
  end.

Definition convertParagraphToLi (ls : lists) (paragraphNode : Node.ref) (listStartTextNode : option Node.ref)
    (listName : jstr) (start : Z) : HM lists :=
  let level := level_of ls paragraphNode in
  '(cur, pv) ← nest ls level;
  '(cur, pv) ← join_list cur pv paragraphNode listName start;
  upd paragraphNode (set_name (js "li"));;
  t ← oget listStartTextNode;
  drop_bullet t;;
  match pv with
  | Some p =>
      if lastLevel ls <? level then lc ← hfield p lastChild; lc ← oget lc; append lc cur;; mret tt else mret tt
  | None => mret tt
  end;;
  mret (Lists (Some cur) pv level).

(** [while (listStartTextNode) ...]: the first node with a value on the way down the first children. *)
Fixpoint first_text (fuel : nat) (cur : option Node.ref) (nodeText : option jstr) : HM (option Node.ref * option jstr) :=
  match fuel, cur with
  | _, None => mret (None, nodeText)
  | O, Some _ => throw
  | S f, Some c =>
      n ← deref c;
      match value n with
      | Some (u :: v) => mret (Some c, Some (u :: v))
      | v => first_text f (firstChild n) v
      end
  end.

Definition convert1 (ls : lists) (node : Node.ref) : HM lists :=
  n ← deref node;
  match firstChild n with
  | Some c =>
      if str_eqb (Node.name n) (js "p") then
        sz ← gets size;
        '(t, nodeText) ← first_text sz (Some c) (Some []);
        match list_kind (default (js "undefined") nodeText) with
        | Some (listName, start) => convertParagraphToLi ls node t listName start
        | None => mret (Lists None (prevListNode ls) (lastLevel ls))
        end
      else mret ls
  | None => mret ls
  end.

Fixpoint convert_all (ls : lists) (paragraphs : list Node.ref) : HM lists :=
  match paragraphs with
  | [] => mret ls
  | p :: paragraphs => ls ← convert1 ls p; convert_all ls paragraphs
  end.

Definition convertFakeListsToProperLists (root : Node.ref) : HM unit :=
  paragraphs ← getAll root (js "p");
  convert_all (Lists None None 1) paragraphs;;
  mret tt.
End Convert.

(** ** The handler of BeforePastePreProcess *)
Definition default_word_elements : jstr :=
  js "@[style],-strong/b,-em/i,-span,-p,-ol,-ul,-li,-h1,-h2,-h3,-h4,-h5,-h6,-table,-tr,-td[colspan|rowspan],-th,-thead,-tfoot,-tbody,-a[href|name],sub,sup,strike,br".

Definition word_schema_settings (paste_word_valid_elements : jstr) : Schema.settings :=
  Schema.Settings None true (if truthy paste_word_valid_elements then paste_word_valid_elements else default_word_elements)
    None [] [] [] [] [] [].

(** What the serializer asks of the schema. *)
Definition schema_order (s : schema) : SerializerSchema :=
  {| attributesOrder := λ n, r ← getElementRule s n; Schema.attributesOrder r |}.

Definition plain_writer : writer := new_writer (MkSettings false [] [] [] [] []).

Section Handler.
Context (retain : option jstr) (st : Styles.settings) (nativeDecode : jstr -> jstr).
(** [paste_enable_default_filters === false], and [paste_word_valid_elements]. *)
Context (filters_off : bool) (paste_word_valid_elements : jstr).

Definition convert_root (root : Node.ref) (d : dst) : option heap :=
  snd <$> convertFakeListsToProperLists (λ r, listLevels d !! r) root (d_heap d).

(** The event's content and [wordContent] afterwards; [sh] holds what schemas share. *)
Definition preprocess (sh : shared) (content : jstr) : option (jstr * bool) :=
  if filters_off then Some (content, false)
  else if isWordContent content then
    '(s, sh) ← new_Schema (word_schema_settings paste_word_valid_elements) sh;
    '(root, _, d) ← DomParser.parse (H := schema_dom s sh) empty_settings new_word_parser (word_filter retain st)
       nativeDecode (filter content word_items) no_args;
    h ← convert_root root d;
    '(html, _) ← Serializer.serialize (H := schema_order s) plain_writer true false root h;
    Some (html, true)
  else Some (content, false).
End Handler.

Definition qt (s : string) : jstr := (λ c, if c =? 96 then 34 else if c =? 126 then 0x2022 else c) <$> js s.
