(* ===== verification/WordFilterFacts.v ===== *)
(** * The lists of the paste plug-in

    What convertFakeListsToProperLists does to the node tree, on the invariant of NodeFacts, and where
    the clean-up of pasted content goes wrong. *)

From S2P Require Import Prelude Regexp Tools Styles Entities Schema SaxParser Writer Node NodeFacts NodeMoves NodeWalk DomParser DomFacts Serializer DomSerializer WordFilter.

(** ** Writes that keep the links *)
Definition keeps_pointers (f : node -> node) : Prop :=
  ∀ n, parent (f n) = parent n ∧ firstChild (f n) = firstChild n ∧ lastChild (f n) = lastChild n
    ∧ next (f n) = next n ∧ prev (f n) = prev n.

Lemma write_wf h s r n f : wf h s → h !! r = Some n → keeps_pointers f →
  upd r f h = Some (tt, <[r := f n]> h) ∧ wf (<[r := f n]> h) s.
Proof.
  intros Hwf Hr Hf. split; [unfold upd; by rewrite Hr|]. constructor; try apply Hwf.
  - intros p c E. apply (wf_dom _ _ Hwf) in E as [? ?]. auto using insert_dom.
  - intros x m. destruct (decide (x = r)) as [->|Hx].
    + rewrite lookup_insert_eq. intros [= <-]. destruct (wf_links _ _ Hwf r n Hr) as (H1 & H2 & H3 & H4 & H5).
      destruct (Hf n) as (E1 & E2 & E3 & E4 & E5). unfold links_ok. by rewrite E1, E2, E3, E4, E5.
    + rewrite lookup_insert_ne by done. apply (wf_links _ _ Hwf).
Qed.

Lemma wf_data h s x n : wf h s → h !! x = Some n → parent n = par s x ∧ lastChild n = last (ch s x) ∧ next n = sib_next s x.
Proof. intros Hwf E. by destruct (wf_links _ _ Hwf x n E) as (? & ? & ? & ? & ?). Qed.

(** ** Moving a subtree *)
Section Moved.
Context (s s' : shape) (q L : Node.ref).
Context (Hq : par s' q = Some L) (Hrest : ∀ x, x ≠ q → x ≠ L → par s' x = par s x).

(** What is below [q] stays the same. *)
Lemma below_kept h' x : wf h' s' → anc s' q x → anc s q x.
Proof using Hq Hrest.
  intros Hwf. pose proof (anc_self_parent h' s' q L Hwf Hq) as Hno.
  induction (wf_acyclic _ _ Hwf x) as [x _ IH]. intros Ha. destruct (decide (x = q)) as [->|Hxq]; [apply rtc_refl|].
  assert (x ≠ L) as HxL by (by intros ->). pose proof Ha as Ha'. unfold anc in Ha'. inv Ha' as [|? y ? Hy Hay].
  rewrite Hrest in Hy by done. eapply anc_parent; [exact Hy|]. apply IH; [|exact Hay].
  unfold parent_of. by rewrite Hrest.
Qed.
End Moved.

(** The places of the nodes after a paragraph [q] went into the list [L], which is below [y]. *)
Record placed (s s' : shape) (q L y : Node.ref) : Prop := Placed {
  pl_item : par s' q = Some L;
  pl_items : ch s' L = ch (detach q s) L ++ [q];
  pl_list : par s' L = Some y;
  pl_par : ∀ x, x ≠ q → x ≠ L → par s' x = par s x;
  pl_ch : ∀ z, par s q ≠ Some z → z ≠ L → z ≠ y → ch s' z = ch s z
}.

Lemma pl_last s s' q L y : placed s s' q L y → last (ch s' L) = Some q.
Proof. intros Hpl. by rewrite (pl_items _ _ _ _ _ Hpl), last_snoc. Qed.

Lemma append_shape_par p r s x : par (append_shape p r s) x = if decide (x = r) then Some p else par s x.
Proof. unfold append_shape, attach, fset. cbn. case_decide; [done|]. rewrite detach_par. by rewrite decide_False. Qed.

Lemma append_shape_ch p r s z : z ≠ p → par s r ≠ Some z → ch (append_shape p r s) z = ch s z.
Proof. intros Hz Hr. unfold append_shape. by rewrite attach_ch_ne, detach_ch_ne. Qed.

Lemma join_existing h s c q y : wf h s → is_Some (h !! c) → is_Some (h !! q) → ¬ anc s q c → par s c = Some y →
  ∃ h' s', append c q h = Some (q, h') ∧ wf h' s' ∧ same_payload h h' ∧ placed s s' q c y.
Proof.
  intros Hwf Hc Hq Ha Hy. destruct (append_ok h s c q Hwf Hc Hq Ha) as (h' & E & Hwf' & Hp).
  exists h', (append_shape c q s). split_and!; [done..|].
  assert (c ≠ q) as Hne by (intros ->; apply Ha, rtc_refl). constructor.
  - rewrite append_shape_par. by rewrite decide_True.
  - unfold append_shape. by rewrite attach_ch_eq.
  - rewrite append_shape_par. by rewrite decide_False.
  - intros x Hx _. rewrite append_shape_par. by rewrite decide_False.
  - intros z Hz Hzc _. by apply append_shape_ch.
Qed.

(** A new node takes the place of [q] and gets it as its only child. *)
Lemma wrap_fresh h s q L p : wf h s → par s q = Some p → is_Some (h !! L) → par s L = None → ch s L = [] →
  ∃ h' s', wrap q L h = Some (q, h') ∧ wf h' s' ∧ same_payload h h' ∧ placed s s' q L p
    ∧ ch s' L = [q] ∧ ∀ x, x ≠ q → last (ch s p) = Some x → last (ch s' p) = Some x.
Proof.
  intros Hwf Hp HL HLp HLc. destruct (child_split _ _ _ _ Hwf Hp) as (l1 & l2 & Hc & Hnd & Hqp & _).
  assert (L ≠ q) as HLq by congruence.
  assert (∀ x, ¬ anc s L x ∨ x = L) as Hleaf.
  { intros x. destruct (decide (x = L)) as [->|Hx]; [by right|left]. intros [?|(y & _ & Hy)]%rtc_inv_r; [done|].
    apply (wf_ch _ _ Hwf) in Hy. rewrite HLc in Hy. by apply elem_of_nil in Hy. }
  assert (p ≠ L) as HpL.
  { intros ->. apply (wf_ch _ _ Hwf) in Hp. rewrite HLc in Hp. by apply elem_of_nil in Hp. }
  destruct (wrap_ok h s q L p l1 l2) as (h' & s' & E & Hpay & Hwf' & Hcp & HcL & Hch); try done.
  - by destruct (Hleaf p).
  - intros Ha. unfold anc in Ha. inv Ha; congruence.
  - by rewrite detach_none.
  - rewrite detach_none in HcL, Hch by done. rewrite HLc in HcL. exists h', s'. split_and!; [done..| |done|].
    2: { intros x Hx. rewrite Hc, Hcp, !last_app_cons. destruct l2 as [|z l2]; [|done]. cbn. congruence. }
    assert (par s' q = Some L) as Hq' by (apply (wf_ch _ _ Hwf'); rewrite HcL; left).
    assert (par s' L = Some p) as HL' by (apply (wf_ch _ _ Hwf'); rewrite Hcp; set_solver).
    constructor; [done|by rewrite HcL, detach_ch_ne, HLc by congruence|done| |].
    + intros x Hxq HxL. destruct (par s x) as [z|] eqn:Ez.
      * apply (wf_ch _ _ Hwf'). apply (wf_ch _ _ Hwf) in Ez. destruct (decide (z = p)) as [->|Hzp].
        -- rewrite Hcp. rewrite Hc in Ez. set_solver.
        -- rewrite Hch; [done|done|]. intros ->. rewrite HLc in Ez. by apply elem_of_nil in Ez.
      * destruct (par s' x) as [z|] eqn:Ez'; [|done]. apply (wf_ch _ _ Hwf') in Ez'. destruct (decide (z = p)) as [->|Hzp].
        -- assert (x ∈ ch s p) as Hx by (rewrite Hc; rewrite Hcp in Ez'; set_solver). apply (wf_ch _ _ Hwf) in Hx. congruence.
        -- destruct (decide (z = L)) as [->|HzL]; [rewrite HcL in Ez'; set_solver|].
           rewrite Hch in Ez' by done. apply (wf_ch _ _ Hwf) in Ez'. congruence.
    + intros z Hz HzL Hzp. by apply Hch.
Qed.

(** ** The list a paragraph joins *)
Lemma attr_run l nm v n a h : h !! l = Some n → Node.attributes n = Some a →
  ∃ a' r, attr l nm v h = Some (r, <[l := set_attributes (Some a') n]> h).
Proof.
  intros Hl Ha. destruct (attr_attrs nm v a) as [a' r] eqn:E. exists a', r.
  unfold attr. hstep. rewrite Ha, E. hstep. reflexivity.
Qed.

Definition old_data (h h' : heap) : Prop := ∀ x n, h !! x = Some n → ∃ n', h' !! x = Some n' ∧ payload n' = payload n.

Lemma old_data_refl h : old_data h h.
Proof. intros x n E. eauto. Qed.
Lemma old_data_trans h1 h2 h3 : old_data h1 h2 → old_data h2 h3 → old_data h1 h3.
Proof. intros H1 H2 x n E. destruct (H1 x n E) as (n2 & E2 & P2). destruct (H2 x n2 E2) as (n3 & E3 & P3). exists n3. split; congruence. Qed.
Lemma same_old h h' : same_payload h h' → old_data h h'.
Proof. intros E x n Hx. specialize (E x). rewrite Hx in E. destruct (h' !! x) as [n'|]; cbn in E; [|discriminate E]. exists n'. split; [done|congruence]. Qed.
Lemma insert_old h r n : h !! r = None → old_data h (<[r := n]> h).
Proof. intros Hr x m Hx. exists m. by rewrite lookup_insert_ne by congruence. Qed.

(** A new list with its number, if it has one. *)
Lemma new_list h s nm st : wf h s →
  ∃ L n h1, make_list nm st h = Some (L, h1)
    ∧ h !! L = None ∧ par s L = None ∧ ch s L = [] ∧ wf h1 s ∧ h1 !! L = Some n ∧ Node.name n = nm ∧ old_data h h1.
Proof.
  intros Hwf. destruct (alloc_wf h s (new_node nm (TNum 1)) Hwf eq_refl) as (L & E & HL & Hp & Hc & Hwf1).
  unfold make_list. rewrite (SE_bind_some _ _ _ _ _ E). destruct (1 <? st).
  - destruct (attr_run L (js "start") (ArgVal (num_to_string 10 st)) (new_node nm (TNum 1)) (Attrs [] []) _
      (lookup_insert_eq h L _) eq_refl) as (a' & r & Ea).
    exists L, (set_attributes (Some a') (new_node nm (TNum 1))). eexists.
    rewrite SE_bind_assoc, (SE_bind_some _ _ _ _ _ Ea). split; [reflexivity|]. split_and!; [done..| | |done|].
    + eapply (write_wf _ _ L _ (set_attributes (Some a'))); [done|apply lookup_insert_eq|done].
    + apply lookup_insert_eq.
    + intros x n Hx. exists n. by rewrite !lookup_insert_ne by congruence.
  - exists L, (new_node nm (TNum 1)). eexists. split; [reflexivity|].
    split_and!; [done..|apply lookup_insert_eq|done|by apply insert_old].
Qed.

(** Either the current list has the name and takes the paragraph, or a new list with the paragraph takes its place. *)
Lemma join_list_ok h s cur pv q p nm st : wf h s → par s q = Some p →
  (∀ c, cur = Some c → is_Some (h !! c) ∧ (¬ anc s q c) ∧ (∀ n, h !! c = Some n → Node.name n = nm → is_Some (par s c))) →
  ∃ L pv' y h' s' ln, join_list cur pv q nm st h = Some ((L, pv'), h') ∧ wf h' s' ∧ placed s s' q L y
    ∧ h' !! L = Some ln ∧ Node.name ln = nm ∧ old_data h h'
    ∧ ((cur = Some L ∧ par s L = Some y ∧ pv' = pv)
       ∨ (h !! L = None ∧ par s L = None ∧ ch s L = [] ∧ y = p ∧ pv' = or_else pv cur
          ∧ (∀ c n, cur = Some c → h !! c = Some n → Node.name n ≠ nm)
          ∧ ∀ x, x ≠ q → last (ch s p) = Some x → last (ch s' p) = Some x)).
Proof.
  intros Hwf Hp Hcur. destruct (wf_dom _ _ Hwf p q Hp) as [Hpd Hqd].
  assert (∀ c n, cur = Some c → h !! c = Some n → Node.name n = nm → ∃ L pv' y h' s' ln,
    (append c q;; mret (c, pv)) h = Some ((L, pv'), h') ∧ wf h' s' ∧ placed s s' q L y
    ∧ h' !! L = Some ln ∧ Node.name ln = nm ∧ old_data h h' ∧ cur = Some L ∧ par s L = Some y ∧ pv' = pv) as Hold.
  { intros c n Hc Hn Hnm. destruct (Hcur c Hc) as (Hcd & Ha & Hpar). destruct (Hpar n Hn Hnm) as [y Hy].
    destruct (join_existing h s c q y Hwf Hcd Hqd Ha Hy) as (h' & s' & E & Hwf' & Hpay & Hpl).
    apply same_old in Hpay. destruct (Hpay c n Hn) as (n' & En' & Hn').
    exists c, pv, y, h', s', n'. rewrite (SE_bind_some _ _ _ _ _ E).
    split_and!; try done. by rewrite (payload_name _ _ Hn'). }
  assert (∃ L pv' y h' s' ln, (l ← make_list nm st; wrap q l;; mret (l, or_else pv cur)) h = Some ((L, pv'), h') ∧ wf h' s' ∧ placed s s' q L y
    ∧ h' !! L = Some ln ∧ Node.name ln = nm ∧ old_data h h' ∧ h !! L = None ∧ par s L = None ∧ ch s L = [] ∧ y = p ∧ pv' = or_else pv cur
    ∧ ∀ x, x ≠ q → last (ch s p) = Some x → last (ch s' p) = Some x) as Hnew.
  { destruct (new_list h s nm st Hwf) as (L & n & h1 & E & HL & HLp & HLc & Hwf1 & Hn & Hnm & Hold1).
    destruct (wrap_fresh h1 s q L p Hwf1 Hp ltac:(eauto) HLp HLc) as (h2 & s2 & E2 & Hwf2 & Hpay & Hpl & _ & Hlast).
    apply same_old in Hpay. destruct (Hpay L n Hn) as (n' & En' & Hn').
    exists L, (or_else pv cur), p, h2, s2, n'.
    rewrite (SE_bind_some _ _ _ _ _ E), (SE_bind_some _ _ _ _ _ E2). split_and!; try done.
    - by rewrite (payload_name _ _ Hn').
    - by eapply old_data_trans. }
  unfold join_list. rewrite SE_bind_unfold. unfold has_name, hfield. destruct cur as [c|].
  - destruct (Hcur c eq_refl) as ([n Hn] & _). repeat hstep. cbn [mret SE_ret].
    unfold str_eqb at 1. case_bool_decide as Enm.
    + destruct (Hold c n eq_refl Hn Enm) as (L & pv' & y & h' & s' & ln & ?). exists L, pv', y, h', s', ln. naive_solver.
    + destruct Hnew as (L & pv' & y & h' & s' & ln & ?). exists L, pv', y, h', s', ln. naive_solver.
  - destruct Hnew as (L & pv' & y & h' & s' & ln & ?). exists L, pv', y, h', s', ln. naive_solver.
Qed.

(** ** The bullet *)
Definition dropped (t : Node.ref) (nx : option Node.ref) (x : Node.ref) (n : node) : node :=
  let n := if decide (x = t) then set_value (Some []) n else n in
  if decide (Some x = nx ∧ type n = TNum 3) then set_value (replace_first nbspRegExp (λ _, []) <$> value n) n else n.

Lemma sib_next_facts h s t x : wf h s → sib_next s t = Some x → x ≠ t ∧ is_Some (h !! x) ∧ ∃ p, par s t = Some p ∧ par s x = Some p.
Proof.
  intros Hwf E. unfold sib_next in E. destruct (par s t) as [p|] eqn:Ep; [|done].
  destruct (child_split _ _ _ _ Hwf Ep) as (l1 & l2 & Hc & Hnd & _). destruct (mid_notin _ _ _ Hnd) as (H1 & H2 & _).
  cbn in E. rewrite Hc, next_in_mid in E by done. destruct l2 as [|y l2]; cbn in E; [done|]. injection E as ->.
  assert (par s x = Some p) as Hx by (apply (wf_ch _ _ Hwf); rewrite Hc; set_solver).
  split_and!; [|by apply (wf_dom _ _ Hwf p)|by exists p]. intros ->. by destruct H2; left.
Qed.

Lemma drop_bullet_ok h s t tn : wf h s → h !! t = Some tn →
  (∀ x n, next tn = Some x → h !! x = Some n → type n = TNum 3 → is_Some (value n)) →
  ∃ h', drop_bullet t h = Some (tt, h') ∧ wf h' s ∧ ∀ x, h' !! x = dropped t (next tn) x <$> h !! x.
Proof.
  intros Hwf Ht Hv. destruct (write_wf h s t tn (set_value (Some [])) Hwf Ht) as [E1 Hwf1]; [done|].
  unfold drop_bullet. rewrite (SE_bind_some _ _ _ _ _ E1). unfold hfield. repeat hstep.
  change (next (set_value (Some []) tn)) with (next tn). destruct (next tn) as [x|] eqn:Ex.
  2: { exists (<[t:=set_value (Some []) tn]> h). split_and!; [done|done|]. intros z. unfold dropped.
       destruct (decide (z = t)) as [->|Hz].
       - rewrite lookup_insert_eq, Ht. cbn. by rewrite decide_False by (intros [? _]; done).
       - rewrite lookup_insert_ne by done. destruct (h !! z); cbn; [|done]. by rewrite decide_False by (intros [? _]; done). }
  destruct (wf_data h s t tn Hwf Ht) as (_ & _ & Esib). rewrite Ex in Esib.
  destruct (sib_next_facts h s t x Hwf (eq_sym Esib)) as (Hxt & [xn Hx] & _).
  assert ((<[t:=set_value (Some []) tn]> h) !! x = Some xn) as Hx1 by by rewrite lookup_insert_ne.
  repeat hstep. case_bool_decide as Hty.
  - destruct (Hv x xn eq_refl Hx Hty) as [v Ev]. repeat hstep. rewrite Ev. erewrite (SE_bind_some (oget (Some v))) by reflexivity.
    destruct (write_wf _ s x xn (set_value (Some (replace_first nbspRegExp (λ _, []) v))) Hwf1 Hx1) as [E2 Hwf2]; [done|].
    eexists. split; [exact E2|]. split; [exact Hwf2|]. intros z. unfold dropped.
    destruct (decide (z = x)) as [->|Hzx].
    + rewrite lookup_insert_eq, Hx. cbn [fmap option_fmap option_map]. rewrite (decide_False (P := x = t)) by done. rewrite decide_True by done. by rewrite Ev.
    + rewrite lookup_insert_ne by done. destruct (decide (z = t)) as [->|Hzt].
      * rewrite lookup_insert_eq, Ht. cbn. by rewrite decide_False by (intros [? _]; congruence).
      * rewrite lookup_insert_ne by done. destruct (h !! z); cbn; [|done]. by rewrite decide_False by (intros [? _]; congruence).
  - eexists. split; [reflexivity|]. split; [exact Hwf1|]. intros z. unfold dropped.
    destruct (decide (z = t)) as [->|Hzt].
    + rewrite lookup_insert_eq, Ht. cbn. by rewrite decide_False by (intros [? _]; congruence).
    + rewrite lookup_insert_ne by done. destruct (h !! z) eqn:Ez; cbn; [|done]. by rewrite decide_False by (intros [? ?]; congruence).
Qed.

(** ** One paragraph *)
(** The list that takes the paragraph, if it has the name. *)
Definition nested (s : shape) (ls : lists) (level : Z) : option Node.ref :=
  if level =? lastLevel ls then currentListNode ls
  else if level <? lastLevel ls then currentListNode ls ≫= λ c, par s c ≫= λ p, par s p
  else None.

Lemma nest_run h s ls level : wf h s → (∀ c, currentListNode ls = Some c → is_Some (h !! c) ∧ is_Some (par s c)) →
  nest ls level h = Some ((nested s ls level,
    if (level =? lastLevel ls) || (level <? lastLevel ls) then prevListNode ls else currentListNode ls), h).
Proof.
  intros Hwf Hcur. unfold nest, nested. destruct (level =? lastLevel ls); [done|]. destruct (level <? lastLevel ls); [|done].
  destruct (currentListNode ls) as [c|] eqn:Ec; [|done]. destruct (Hcur c eq_refl) as ([n Hn] & [p Hp]).
  destruct (wf_data h s c n Hwf Hn) as (Hpar & _). unfold hfield. repeat hstep. rewrite Hpar, Hp.
  erewrite (SE_bind_some (oget (Some p))) by reflexivity.
  destruct (wf_dom _ _ Hwf p c Hp) as [[pn Hpn] _]. destruct (wf_data h s p pn Hwf Hpn) as (Hpp & _).
  repeat hstep. cbn [mbind option_bind]. rewrite Hp, Hpp. done.
Qed.

(** What the conversion writes into the nodes of one paragraph [q] with the bullet [t]. *)
Definition renamed (q x : Node.ref) (n : node) : node := if decide (x = q) then set_name (js "li") n else n.
Definition converted (q t : Node.ref) (nx : option Node.ref) (x : Node.ref) (n : node) : node := dropped t nx x (renamed q x n).

Lemma converted_name q t nx x n : x ≠ q → Node.name (converted q t nx x n) = Node.name n.
Proof. intros Hx. unfold converted, renamed, dropped. rewrite (decide_False (P := x = q)) by done. by repeat case_decide. Qed.

Lemma dropped_payload t nx x n n' : payload n = payload n' → payload (dropped t nx x n) = payload (dropped t nx x n').
Proof.
  destruct n, n'. unfold dropped, payload, clear_links. cbn. intros [=]. subst.
  destruct (decide (x = t)); cbn; by destruct (decide (Some x = nx ∧ _)).
Qed.

Lemma renamed_payload q x n n' : payload n = payload n' → payload (renamed q x n) = payload (renamed q x n').
Proof. destruct n, n'. unfold renamed, payload, clear_links. cbn. intros [=]. subst. by destruct (decide (x = q)). Qed.

(** What a call relies on of the variables of the conversion: the current list is in the tree, not below the
    paragraph, and its last child is the item before. *)
Record current_ok (h : heap) (s : shape) (q : Node.ref) (ls : lists) : Prop := CurrentOk {
  co_dom c : currentListNode ls = Some c → is_Some (h !! c) ∧ is_Some (par s c);
  co_last c : currentListNode ls = Some c → ∃ r, last (ch s c) = Some r ∧ ¬ anc s q r
}.

Lemma payload_value_type n n' : payload n = payload n' → value n = value n' ∧ type n = type n'.
Proof. destruct n, n'. unfold payload, clear_links. cbn. intros [=]. by subst. Qed.

Lemma above_anc s a b x : anc s a b → anc s b x → anc s a x.
Proof. unfold anc. intros. by etransitivity. Qed.

Lemma nested_above s ls level c : nested s ls level = Some c → ∃ c0, currentListNode ls = Some c0 ∧ anc s c c0.
Proof.
  unfold nested. destruct (level =? _); [intros E; exists c; split; [done|apply rtc_refl]|]. destruct (level <? _); [|done].
  intros (c0 & Ec & (p & Ep & Epp)%bind_Some)%bind_Some. exists c0. split; [done|].
  eapply anc_parent; [exact Ep|]. eapply anc_parent; [exact Epp|apply rtc_refl].
Qed.

Lemma last_child h s c r : wf h s → last (ch s c) = Some r → par s r = Some c.
Proof. intros Hwf Hl. apply (wf_ch _ _ Hwf). by apply last_Some_elem. Qed.

Lemma nested_outside h s q ls level c : wf h s → current_ok h s q ls → nested s ls level = Some c →
  is_Some (h !! c) ∧ ¬ anc s q c.
Proof.
  intros Hwf Hco Hn. destruct (nested_above s ls level c Hn) as (c0 & Ec & Ha). destruct (co_dom _ _ _ _ Hco c0 Ec) as [Hd Hp].
  destruct (co_last _ _ _ _ Hco c0 Ec) as (r & Hr & Hqr). split.
  - by eapply (anc_dom h s Hwf).
  - intros Hq. apply Hqr. eapply anc_parent; [by eapply last_child|]. by eapply above_anc.
Qed.

(** The siblings of a node below [q] are left alone. *)
Lemma placed_below s s' q L y z : placed s s' q L y → par s q ≠ None → (∀ p, par s q = Some p → ¬ anc s q p) →
  ¬ anc s q L → ¬ anc s q y → anc s q z → ch s' z = ch s z.
Proof. intros Hpl Hq Hp HL Hy Hz. apply (pl_ch _ _ _ _ _ Hpl); [intros E; by apply (Hp z)|by intros ->|by intros ->]. Qed.

Lemma placed_moved s s1 q L p r : placed s s1 q L p → par s q = Some p → L ≠ q → r ≠ L → p ≠ L →
  placed s (append_shape r L s1) q L r.
Proof.
  intros [Hq Hl HL Hpar Hch] Hp HLq HrL HpL. constructor.
  - rewrite append_shape_par. by rewrite decide_False.
  - rewrite append_shape_ch; [done|done|congruence].
  - rewrite append_shape_par. by rewrite decide_True.
  - intros x Hxq HxL. rewrite append_shape_par, decide_False by done. by apply Hpar.
  - intros z Hz HzL Hzr. rewrite append_shape_ch; [apply Hch; congruence|done|congruence].
Qed.

(** The name and the bullet, after the paragraph went into the list. *)
Lemma relabel_ok h h1 s1 q t nx tn1 : wf h1 s1 → old_data h h1 → is_Some (h !! q) → h1 !! t = Some tn1 → next tn1 = nx →
  (∀ x n, nx = Some x → h1 !! x = Some n → type n = TNum 3 → is_Some (value n)) →
  ∃ h2 h3, upd q (set_name (js "li")) h1 = Some (tt, h2) ∧ drop_bullet t h2 = Some (tt, h3) ∧ wf h3 s1
    ∧ (∀ x, h3 !! x = converted q t nx x <$> h1 !! x).
Proof.
  intros Hwf Hold [qn Hq] Ht Hnx Hv. destruct (Hold q qn Hq) as (qn1 & Hq1 & _).
  destruct (write_wf h1 s1 q qn1 (set_name (js "li")) Hwf Hq1) as [E2 Hwf2]; [done|].
  assert (∀ x, (<[q:=set_name (js "li") qn1]> h1) !! x = renamed q x <$> h1 !! x) as Hren.
  { intros x. unfold renamed. destruct (decide (x = q)) as [->|Hx]; [by rewrite lookup_insert_eq, Hq1|].
    rewrite lookup_insert_ne by done. by destruct (h1 !! x). }
  destruct (drop_bullet_ok (<[q:=set_name (js "li") qn1]> h1) s1 t (renamed q t tn1) Hwf2) as (h3 & E3 & Hwf3 & Hd).
  - by rewrite Hren, Ht.
  - intros x n Hx. rewrite Hren. destruct (h1 !! x) as [m|] eqn:Em; [|done]. cbn. intros [= <-].
    assert (type (renamed q x m) = type m ∧ value (renamed q x m) = value m) as [-> ->] by (unfold renamed; by case_decide).
    apply (Hv x m); [|done]. rewrite <- Hnx, <- Hx. unfold renamed. by case_decide.
  - eexists _, h3. split_and!; [exact E2|exact E3|exact Hwf3|]. intros x. rewrite Hd, Hren.
    assert (next (renamed q t tn1) = nx) as -> by (rewrite <- Hnx; unfold renamed; by case_decide).
    by destruct (h1 !! x).
Qed.

Section Step.
Context (h : heap) (s : shape) (_listLevel : Node.ref -> option Z) (ls : lists) (q p t : Node.ref) (tn : node) (nm : jstr) (st : Z).
Abbreviation level := (level_of _listLevel ls q).
Context (Hwf : wf h s) (Hp : par s q = Some p) (Ht : h !! t = Some tn) (Hqt : anc s q t) (Htq : t ≠ q).
Context (Hv : ∀ x n, next tn = Some x → h !! x = Some n → type n = TNum 3 → is_Some (value n)).
Context (Hco : current_ok h s q ls).
Context (Hjoin : ∀ c n, nested s ls level = Some c → h !! c = Some n → Node.name n = nm → is_Some (par s c)).

(** Where the list is, and which list. *)
Definition list_place (L y : Node.ref) : Prop :=
  (nested s ls level = Some L ∧ par s L = Some y)
  ∨ (h !! L = None ∧ (∀ c n, nested s ls level = Some c → h !! c = Some n → Node.name n ≠ nm)
     ∧ y = if lastLevel ls <? level then match currentListNode ls with Some c => default p (last (ch s c)) | None => p end else p).

Lemma convert_item_ok : ∃ ls' L y h' s' ln,
  convertParagraphToLi _listLevel ls q (Some t) nm st h = Some (ls', h') ∧ wf h' s' ∧ placed s s' q L y
  ∧ currentListNode ls' = Some L ∧ lastLevel ls' = level ∧ h' !! L = Some ln ∧ Node.name ln = nm
  ∧ (∀ x n, h !! x = Some n → ∃ n', h' !! x = Some n' ∧ payload n' = payload (converted q t (next tn) x n))
  ∧ list_place L y.
Proof using All.
  assert (¬ anc s q p) as Hqp by (by eapply anc_self_parent).
  destruct (join_list_ok h s (nested s ls level) (if (level =? lastLevel ls) || (level <? lastLevel ls) then prevListNode ls
      else currentListNode ls) q p nm st Hwf Hp)
    as (L & pv' & y & h1 & s1 & ln & Ej & Hwf1 & Hpl & HL & Hnm & Hold & Hcase).
  { intros c Hc. destruct (nested_outside h s q ls level c Hwf Hco Hc) as [? ?]. split_and!; [done|done|]. intros n. by apply Hjoin. }
  assert (¬ anc s q L ∧ ¬ anc s q y ∧ L ≠ q) as (HqL & Hqy & HLq).
  { destruct Hcase as [(Hn & HLy & _)|(HLn & HLp & HLc & -> & _)].
    - destruct (nested_outside h s q ls level L Hwf Hco Hn) as [_ Ha]. split_and!; [done| |].
      + intros Hq. apply Ha. by eapply anc_parent.
      + intros ->. apply Ha, rtc_refl.
    - assert (L ≠ q) by congruence. split_and!; [|done|done]. intros Ha. unfold anc in Ha. inv Ha; congruence. }
  assert (∀ z, anc s q z → ch s1 z = ch s z) as Hbelow.
  { intros z. apply (placed_below s s1 q L y z Hpl); [by rewrite Hp|congruence|done|done]. }
  destruct (Hold t tn Ht) as (tn1 & Ht1 & _).
  assert (next tn1 = next tn) as Hnx.
  { destruct (wf_data _ _ _ _ Hwf Ht) as (_ & _ & ->). destruct (wf_data _ _ _ _ Hwf1 Ht1) as (_ & _ & ->).
    unfold sib_next. rewrite (pl_par _ _ _ _ _ Hpl) by (done || by intros ->). destruct (par s t) as [z|] eqn:Ez; [|done].
    cbn. rewrite Hbelow; [done|]. by eapply anc_ne_parent. }
  destruct (relabel_ok h h1 s1 q t (next tn) tn1 Hwf1 Hold ltac:(by apply (wf_dom _ _ Hwf p)) Ht1 Hnx) as (h2 & h3 & E2 & E3 & Hwf3 & Hc3).
  { intros x n1 Hx Hn1 Hty. destruct (wf_data _ _ _ _ Hwf Ht) as (_ & _ & Es). rewrite Hx in Es.
    destruct (sib_next_facts h s t x Hwf (eq_sym Es)) as (_ & [n Hn] & _). destruct (Hold x n Hn) as (n' & Hn' & Hpay). rewrite Hn1 in Hn'. injection Hn' as <-.
    assert (value n1 = value n ∧ type n1 = type n) as [-> Hty'] by (by apply payload_value_type).
    apply (Hv x n Hx Hn). congruence. }
  assert (∀ x n, h !! x = Some n → ∃ n', h3 !! x = Some n' ∧ payload n' = payload (converted q t (next tn) x n)) as Hdata.
  { intros x n Hn. destruct (Hold x n Hn) as (n' & Hn' & Hpay). exists (converted q t (next tn) x n').
    rewrite Hc3, Hn'. split; [done|]. unfold converted. by apply dropped_payload, renamed_payload. }
  assert (h3 !! L = Some (converted q t (next tn) L ln)) as HL3 by by rewrite Hc3, HL.
  assert (Node.name (converted q t (next tn) L ln) = nm) as HLnm.
  { unfold converted, renamed, dropped. rewrite (decide_False (P := L = q)) by done. repeat case_decide; exact Hnm. }
  assert (∀ k : HM lists, convertParagraphToLi _listLevel ls q (Some t) nm st h =
    (match pv' with
     | Some p => if lastLevel ls <? level then lc ← hfield p lastChild; lc ← oget lc; append lc L;; mret tt else mret tt
     | None => mret tt
     end;; mret (Lists (Some L) pv' level)) h3) as Erun.
  { intros _. unfold convertParagraphToLi. rewrite (SE_bind_some _ _ _ _ _ (nest_run h s ls level Hwf (co_dom _ _ _ _ Hco))).
    rewrite (SE_bind_some _ _ _ _ _ Ej), (SE_bind_some _ _ _ _ _ E2). erewrite (SE_bind_some (oget (Some t))) by reflexivity.
    by rewrite (SE_bind_some _ _ _ _ _ E3). }
  specialize (Erun (mret ls)).
  destruct Hcase as [(Hn & HLy & ->)|(HLn & HLp & HLc & -> & Hpv & Hno & Hlast)].
  - exists (Lists (Some L) (if (level =? lastLevel ls) || (level <? lastLevel ls) then prevListNode ls else currentListNode ls) level), L, y, h3, s1.
    eexists. split; [|split_and!; [exact Hwf3|exact Hpl|done|done|exact HL3|exact HLnm|exact Hdata|by left]].
    rewrite Erun. assert ((lastLevel ls <? level) = false) as ->.
    { unfold nested in Hn. destruct (Z.eqb_spec level (lastLevel ls)); [lia|]. destruct (Z.ltb_spec level (lastLevel ls)); [lia|done]. }
    by destruct (if (level =? lastLevel ls) || (level <? lastLevel ls) then _ else _).
  - destruct (lastLevel ls <? level) eqn:Elv.
    2: { exists (Lists (Some L) pv' level), L, p, h3, s1. eexists.
         split; [by rewrite Erun; destruct pv'|]. split_and!; [done..|exact HL3|exact HLnm|exact Hdata|].
         right. split_and!; [done|done|by rewrite Elv]. }
    apply Z.ltb_lt in Elv as Hlt. assert (pv' = currentListNode ls) as ->.
    { rewrite Hpv. unfold nested. destruct (Z.eqb_spec level (lastLevel ls)); [lia|]. destruct (Z.ltb_spec level (lastLevel ls)); [lia|].
      cbn. by destruct (currentListNode ls). }
    destruct (currentListNode ls) as [c|] eqn:Ec.
    2: { exists (Lists (Some L) None level), L, p, h3, s1. eexists. split; [by rewrite Erun|].
         split_and!; [done..|exact HL3|exact HLnm|exact Hdata|]. right. split_and!; [done|done|]. by rewrite Elv, Ec. }
    destruct (co_last _ _ _ _ Hco c Ec) as (r & Hr & Hqr). destruct (co_dom _ _ _ _ Hco c Ec) as ([cn Hcn] & _).
    pose proof (last_child h s c r Hwf Hr) as Hrc. destruct (wf_dom _ _ Hwf c r Hrc) as [_ [rn Hrn]].
    assert (r ≠ L ∧ c ≠ L ∧ p ≠ L) as (HrL & HcL & HpL).
    { destruct (wf_dom _ _ Hwf p q Hp) as [[? ?] _]. split_and!; congruence. }
    assert (r ≠ q) as Hrq by (intros ->; apply Hqr, rtc_refl).
    assert (last (ch s1 c) = Some r) as Hr1.
    { destruct (decide (c = p)) as [->|Hcp]; [by apply Hlast|]. rewrite (pl_ch _ _ _ _ _ Hpl); [done|congruence|done|done]. }
    destruct (Hdata c cn Hcn) as (cn3 & Hcn3 & _). destruct (wf_data _ _ _ _ Hwf3 Hcn3) as (_ & Hlc & _).
    destruct (append_ok h3 s1 r L Hwf3) as (h4 & E4 & Hwf4 & Hpay); [|by eexists| |].
    { destruct (Hdata r rn Hrn) as (? & -> & _). by eexists. }
    { intros [->|(z & Hz & Hz')]%rtc_inv_r; [done|]. assert (z = q) as ->.
      { destruct (decide (z = q)) as [|Hzq]; [done|]. destruct (decide (z = L)) as [->|HzL].
        - rewrite (pl_list _ _ _ _ _ Hpl) in Hz'. congruence.
        - rewrite (pl_par _ _ _ _ _ Hpl) in Hz' by done. destruct (wf_dom _ _ Hwf _ _ Hz') as [[? ?] _]. congruence. }
      apply Hqr. by eapply (below_kept s s1 q L); [apply Hpl|apply Hpl|exact Hwf1|]. }
    apply same_old in Hpay. destruct (Hpay _ _ HL3) as (ln4 & HL4 & Hpl4).
    exists (Lists (Some L) (Some c) level), L, r, h4, (append_shape r L s1), ln4.
    split. { rewrite Erun. unfold hfield. repeat hstep. rewrite Hlc, Hr1. erewrite (SE_bind_some (oget (Some r))) by reflexivity.
      rewrite SE_bind_assoc. by rewrite (SE_bind_some _ _ _ _ _ E4). }
    split_and!; [exact Hwf4|by eapply placed_moved|done|done|exact HL4| | |].
    + by rewrite (payload_name _ _ Hpl4).
    + intros x n Hn. destruct (Hdata x n Hn) as (n3 & Hn3 & P3). destruct (Hpay x n3 Hn3) as (n4 & Hn4 & P4). exists n4. split; congruence.
    + right. split_and!; [done|done|]. by rewrite Elv, Ec, Hr.
Qed.
End Step.

(** ** The text a paragraph begins with *)
(** The first node with a text on the way down the first children. *)
Fixpoint first_in (h : heap) (t : tree) : option Node.ref * option jstr :=
  match t with
  | T x ts =>
      match h !! x ≫= value with
      | Some (u :: v) => (Some x, Some (u :: v))
      | v => match ts with [] => (None, v) | t :: _ => first_in h t end
      end
  end.

Lemma first_text_run h s t : wf h s → tree_ok s t → is_Some (h !! root t) → ∀ f v0, (length (preorder t) ≤ f)%nat →
  first_text f (Some (root t)) v0 h = Some (first_in h t, h).
Proof.
  intros Hwf. induction t as [x ts IH] using tree_ind'. intros Hok [n Hx] f v0 Hf. inv Hok as [? ? Hc Hts].
  destruct f as [|f]; [cbn in Hf; lia|]. cbn [root] in *. cbn [first_text first_in]. hstep. rewrite Hx. cbn [mbind option_bind].
  destruct (wf_links _ _ Hwf x n Hx) as (_ & Hfc & _). rewrite Hc in Hfc.
  assert (first_text f (firstChild n) (value n) h = Some (match ts with [] => (None, value n) | t :: _ => first_in h t end, h)) as E.
  { rewrite Hfc. destruct ts as [|t ts]; [by destruct f|]. cbn [fmap list_fmap head].
    apply List.Forall_cons_iff in IH as [IH _]. apply List.Forall_cons_iff in Hts as [Ht _].
    apply IH; [done| |cbn in Hf; rewrite length_app in Hf; lia].
    apply (wf_dom _ _ Hwf x), (wf_ch _ _ Hwf). rewrite Hc. by left. }
  destruct (value n) as [[|u v]|]; [exact E|done|exact E].
Qed.

Lemma first_in_elem h t x v : first_in h t = (Some x, v) → x ∈ preorder t ∧ is_Some (h !! x).
Proof.
  induction t as [y ts IH] using tree_ind'. cbn. intros E.
  assert (∀ w : option jstr, match ts with [] => (None, w) | t :: _ => first_in h t end = (Some x, v) →
    x ∈ y :: (ts ≫= preorder) ∧ is_Some (h !! x)) as Hts.
  { destruct ts as [|t ts]; [done|]. intros _ Et. apply List.Forall_cons_iff in IH as [IH _].
    destruct (IH Et) as [Hin Hd]. split; [|done]. right. cbn. apply elem_of_app. by left. }
  destruct (h !! y ≫= value) as [[|u w]|] eqn:Ev; [by eapply Hts| |by eapply Hts].
  injection E as -> _. split; [by left|]. by destruct (h !! x).
Qed.

Lemma first_in_ext h h' t : (∀ x, x ∈ preorder t → h' !! x ≫= value = h !! x ≫= value) → first_in h' t = first_in h t.
Proof.
  induction t as [x ts IH] using tree_ind'. cbn. intros E. rewrite (E x) by left.
  assert (∀ v : option jstr, match ts with [] => (@None Node.ref, v) | t :: _ => first_in h' t end
    = match ts with [] => (None, v) | t :: _ => first_in h t end) as Ets.
  { destruct ts as [|t ts]; [done|]. intros _. apply List.Forall_cons_iff in IH as [IH _]. apply IH.
    intros y Hy. apply E. right. cbn. apply elem_of_app. by left. }
  destruct (h !! x ≫= value) as [[|u v]|]; [apply Ets|done|apply Ets].
Qed.

(** The bullet of a paragraph, with the kind and the number of the list it begins an item of. *)
Definition item (h : heap) (q : Node.ref) : option (Node.ref * (jstr * Z)) :=
  n ← h !! q; c ← firstChild n;
  '(o, v, _) ← first_text (size h) (Some c) (Some []) h;
  k ← list_kind (default (js "undefined") v);
  t ← o;
  Some (t, k).

Lemma missing_is_no_item v : (∀ u w, v ≠ Some (u :: w)) → list_kind (default (js "undefined") v) = None.
Proof. destruct v as [[|u w]|]; intros Hv; [by vm_compute|by destruct (Hv u w)|by vm_compute]. Qed.

Lemma first_in_value h t v : first_in h t = (None, v) → ∀ u w, v ≠ Some (u :: w).
Proof.
  induction t as [y ts IH] using tree_ind'. cbn. intros E.
  assert (∀ w : option jstr, (∀ u w', w ≠ Some (u :: w')) → match ts with [] => (None, w) | t :: _ => first_in h t end = (None, v) →
    ∀ u w', v ≠ Some (u :: w')) as Hts.
  { destruct ts as [|t ts]; [by intros w Hw [= <-]|]. intros _ _ Et. apply List.Forall_cons_iff in IH as [IH _]. by apply IH. }
  destruct (h !! y ≫= value) as [[|u w]|] eqn:Ev; [by eapply (Hts (Some [])); [|exact E]|done|by eapply (Hts None); [|exact E]].
Qed.

Lemma kind_name v nm st : list_kind v = Some (nm, st) → nm = js "ul" ∨ nm = js "ol".
Proof. unfold list_kind. destruct (is_bullet v); [intros [= <- _]; by left|]. destruct (is_number v); [intros [= <- _]; by right|done]. Qed.

Lemma item_name h q t nm st : item h q = Some (t, (nm, st)) → nm = js "ul" ∨ nm = js "ol".
Proof.
  unfold item. intros (n & _ & (c & _ & ([[o v] ?] & _ & ([nm' st'] & Ek & (t' & _ & E)%bind_Some)%bind_Some)%bind_Some)%bind_Some)%bind_Some.
  injection E as _ <- <-. by eapply kind_name.
Qed.

(** What the search finds below [q] in the store [h0], found again while nothing below [q] has changed. *)
Section Frozen.
Context (h0 h : heap) (s0 s : shape) (q : Node.ref) (Hwf0 : wf h0 s0) (Hwf : wf h s).
Definition frozen : Prop := ∀ x, anc s0 q x → ch s x = ch s0 x ∧ payload <$> h !! x = payload <$> h0 !! x.
Context (Hf : frozen).

Lemma frozen_below x : anc s q x → anc s0 q x.
Proof using All.
  induction (wf_acyclic _ _ Hwf x) as [x _ IH]. intros Ha. unfold anc in Ha. inv Ha as [|? y ? Hy Ha']; [apply rtc_refl|].
  pose proof (IH y Hy Ha') as Hy0. eapply anc_parent; [|exact Hy0]. apply (wf_ch _ _ Hwf0).
  destruct (Hf y Hy0) as [<- _]. by apply (wf_ch _ _ Hwf).
Qed.

Lemma frozen_above x : anc s0 q x → anc s q x.
Proof using All.
  induction (wf_acyclic _ _ Hwf0 x) as [x _ IH]. intros Ha. unfold anc in Ha. inv Ha as [|? y ? Hy Ha']; [apply rtc_refl|].
  pose proof (IH y Hy Ha') as Hy0. eapply anc_parent; [|exact Hy0]. apply (wf_ch _ _ Hwf).
  destruct (Hf y Ha') as [-> _]. by apply (wf_ch _ _ Hwf0).
Qed.

Lemma frozen_tree t : tree_ok s0 t → anc s0 q (root t) → tree_ok s t.
Proof using All.
  induction t as [x ts IH] using tree_ind'. intros Hok Ha. inv Hok as [? ? Hc Hts]. cbn in Ha. constructor.
  - destruct (Hf x Ha) as [-> _]. exact Hc.
  - rewrite Forall_forall in IH, Hts |- *. intros t Ht. apply IH; [done|by apply Hts|].
    eapply anc_parent; [|exact Ha]. apply (wf_ch _ _ Hwf0). rewrite Hc. by apply list_elem_of_fmap_2.
Qed.

Lemma frozen_node x n0 : anc s0 q x → h0 !! x = Some n0 → ∃ n, h !! x = Some n ∧ payload n = payload n0.
Proof using Hf.
  intros Ha E. destruct (Hf x Ha) as [_ Hp]. rewrite E in Hp. destruct (h !! x) as [n|]; [|done]. exists n. split; [done|].
  cbn in Hp. congruence.
Qed.
End Frozen.

(** The search in both stores: it returns, finds the same, and a bullet is below the paragraph. *)
Lemma search_ok h0 h s0 s q n n0 c : wf h0 s0 → wf h s → frozen h0 h s0 s q → (size h0 ≤ size h)%nat →
  h0 !! q = Some n0 → h !! q = Some n → firstChild n = Some c →
  firstChild n0 = Some c ∧ ∃ o v, first_text (size h) (Some c) (Some []) h = Some (o, v, h)
    ∧ first_text (size h0) (Some c) (Some []) h0 = Some (o, v, h0)
    ∧ (o = None → list_kind (default (js "undefined") v) = None)
    ∧ ∀ t, o = Some t → anc s0 q t ∧ t ≠ q ∧ is_Some (h0 !! t).
Proof.
  intros Hwf0 Hwf Hf Hsz Hn0 Hn Hc.
  destruct (wf_links _ _ Hwf q n Hn) as (_ & Hfc & _). destruct (wf_links _ _ Hwf0 q n0 Hn0) as (_ & Hfc0 & _).
  destruct (Hf q (rtc_refl _ _)) as [Hch _]. rewrite Hc, Hch in Hfc.
  assert (par s0 c = Some q) as Hpc by (apply (wf_ch _ _ Hwf0), head_Some_elem; done).
  destruct (wf_dom _ _ Hwf0 q c Hpc) as [_ Hcd]. destruct (tree_exists h0 s0 Hwf0 c Hcd) as (t & <- & Hok).
  assert (anc s0 q (root t)) as Hqc by (by apply rtc_once).
  assert (∀ x, x ∈ preorder t → anc s0 q x ∧ x ≠ q) as Hbelow.
  { intros x Hx%(preorder_anc h0 s0 Hwf0 t x Hok). split; [by eapply above_anc|]. intros ->.
    by apply (anc_self_parent h0 s0 (root t) q Hwf0 Hpc). }
  assert (length (preorder t) ≤ size h0)%nat as Hlen.
  { apply (path_size h0); [by apply (preorder_NoDup h0 s0 Hwf0)|]. intros x Hx. destruct (Hbelow x Hx) as [Ha Hxq].
    unfold anc in Ha. inv Ha. by eapply (wf_dom _ _ Hwf0). }
  pose proof (frozen_tree h0 h s0 s q Hwf0 Hwf Hf t Hok Hqc) as Hok'.
  assert (is_Some (h !! root t)) as Hcd'.
  { destruct Hcd as [cn Hcn]. destruct (frozen_node h0 h s0 s q Hf _ cn Hqc Hcn) as (? & ? & _). by eexists. }
  split; [congruence|]. destruct (first_in h0 t) as [o v] eqn:Et. exists o, v. split_and!.
  - rewrite (first_text_run h s t Hwf Hok' Hcd') by lia. rewrite (first_in_ext h0 h t); [by rewrite Et|].
    intros x [Hx _]%Hbelow. destruct (Hf x Hx) as [_ E]. destruct (h !! x) as [m|], (h0 !! x) as [m0|]; try done.
    cbn in E |- *. apply payload_value_type. congruence.
  - rewrite (first_text_run h0 s0 t Hwf0 Hok Hcd) by lia. by rewrite Et.
  - intros ->. apply missing_is_no_item. by eapply first_in_value.
  - intros x ->. destruct (first_in_elem h0 t x v Et) as [Hx Hd]. by destruct (Hbelow x Hx).
Qed.
