(* ===== verification/WordLists.v ===== *)
(** * The lists of the paste plug-in: the pass over the paragraphs

    The invariant of the loop of convertFakeListsToProperLists, what the loop does to a tree, and the
    levels of the items. *)

From S2P Require Import Prelude Regexp Tools Styles Entities Schema SaxParser Writer Node NodeFacts NodeMoves NodeWalk DomParser DomFacts Serializer DomSerializer WordFilter WordFilterFacts.

Section Pass.
Context (h0 : heap) (s0 : shape) (rt : Node.ref) (ps : list Node.ref) (_listLevel : Node.ref -> option Z).

(** The paragraphs are below the root, none in another; the root is on top and no list; texts have a value. *)
Record document : Prop := Document {
  d_wf : wf h0 s0;
  d_root : par s0 rt = None ∧ ∀ n, h0 !! rt = Some n → Node.name n ≠ js "ul" ∧ Node.name n ≠ js "ol";
  d_text : ∀ x n, h0 !! x = Some n → type n = TNum 3 → is_Some (value n);
  d_name : ∀ q, q ∈ ps → ∃ n, h0 !! q = Some n ∧ Node.name n = js "p";
  d_below : ∀ q, q ∈ ps → anc s0 rt q ∧ q ≠ rt;
  d_apart : ∀ q r, q ∈ ps → r ∈ ps → anc s0 q r → q = r;
  d_once : NoDup ps
}.
Context (Hdoc : document).

(** The node [x] of a paragraph after its conversion. *)
Definition after_item (q x : Node.ref) (n n' : node) : Prop :=
  ∃ t k tn, item h0 q = Some (t, k) ∧ h0 !! t = Some tn ∧ payload n' = payload (converted q t (next tn) x n).

(** The state of the loop: [todo] is left, the items of [dn] are made. *)
Record state (todo dn : list Node.ref) (ls : lists) (h : heap) (s : shape) : Prop := State {
  i_wf : wf h s;
  i_frozen : ∀ q, q ∈ todo → frozen h0 h s0 s q ∧ anc s rt q;
  i_apart : ∀ q, q ∈ todo → q ∉ dn;
  i_parts : ∀ q, q ∈ todo ++ dn → q ∈ ps;
  i_root : par s rt = None ∧ ∃ n n0, h !! rt = Some n ∧ h0 !! rt = Some n0 ∧ payload n = payload n0;
  i_current : ∀ c, currentListNode ls = Some c → is_Some (h !! c) ∧ is_Some (par s c) ∧ anc s rt c ∧ ∃ r, last (ch s c) = Some r ∧ r ∈ dn;
  i_data : ∀ x n0, h0 !! x = Some n0 → ∃ n, h !! x = Some n ∧
    ((∃ q, q ∈ dn ∧ anc s0 q x ∧ after_item q x n0 n) ∨ ((∀ q, q ∈ dn → ¬ anc s0 q x) ∧ payload n = payload n0));
  i_par : ∀ x, is_Some (h0 !! x) → x ∉ dn → par s x = par s0 x;
  i_items : ∀ q, q ∈ dn → ∃ t nm st L ln, item h0 q = Some (t, (nm, st)) ∧ par s q = Some L ∧ h !! L = Some ln ∧ Node.name ln = nm
}.

Lemma paragraph_root q : q ∈ ps → ¬ anc s0 q rt.
Proof using Hdoc.
  intros Hq Ha. destruct (d_root Hdoc) as [Hr _]. destruct (d_below Hdoc q Hq) as [_ Hne]. unfold anc in Ha. inv Ha; congruence.
Qed.

Lemma below_dom r x : r ∈ ps → anc s0 r x → is_Some (h0 !! x).
Proof using Hdoc.
  intros Hr Ha. unfold anc in Ha. destruct (decide (x = r)) as [->|].
  - destruct (d_name Hdoc r Hr) as (n & ? & _). by eexists.
  - inv Ha as [|? z ? Hz _]. exact (proj2 (wf_dom _ _ (d_wf Hdoc) z x Hz)).
Qed.

Lemma state_dom todo dn ls h s x : state todo dn ls h s → is_Some (h0 !! x) → is_Some (h !! x).
Proof using Type. intros Hs [n0 E]. destruct (i_data _ _ _ _ _ Hs x n0 E) as (n & ? & _). by eexists. Qed.

Lemma state_size todo dn ls h s : state todo dn ls h s → (size h0 ≤ size h)%nat.
Proof using Type.
  intros Hs. rewrite <- !size_dom. apply subseteq_size. intros x. rewrite !elem_of_dom. by eapply state_dom.
Qed.

(** A paragraph that begins no item. *)
Lemma skip_state q todo dn ls ls' h s : state (q :: todo) dn ls h s →
  (currentListNode ls' = currentListNode ls ∨ currentListNode ls' = None) → state todo dn ls' h s.
Proof using Type.
  intros [Hwf Hf Ha Hp Hr Hc Hd Hpa Hi] Hls. constructor; try done.
  - intros r Hr'. apply Hf. by right.
  - intros r Hr'. apply Ha. by right.
  - intros r Hr'. apply Hp. by right.
  - intros c E. destruct Hls as [Hls|Hls]; rewrite Hls in E; [by apply Hc|done].
Qed.

(** The next paragraph and the current list. *)
Lemma state_current q todo dn ls h s : state (q :: todo) dn ls h s → current_ok h s q ls.
Proof using Hdoc.
  intros Hs. constructor.
  - intros c Hc. by destruct (i_current _ _ _ _ _ Hs c Hc) as (? & ? & _).
  - intros c Hc. destruct (i_current _ _ _ _ _ Hs c Hc) as (_ & _ & _ & r & Hr & Hd). exists r. split; [done|]. intros Ha.
    destruct (i_frozen _ _ _ _ _ Hs q) as [Hf _]; [by left|].
    apply (frozen_below h0 h s0 s q (d_wf Hdoc) (i_wf _ _ _ _ _ Hs) Hf) in Ha.
    apply (i_apart _ _ _ _ _ Hs q); [by left|]. rewrite (d_apart Hdoc q r); [done| | |done];
      apply (i_parts _ _ _ _ _ Hs), elem_of_app; [left; by left|by right].
Qed.

Lemma below_top s' x : par s' rt = None → anc s' rt x → x ≠ rt → is_Some (par s' x).
Proof using Type. intros _ Ha Hx. unfold anc in Ha. inv Ha. by eexists. Qed.

(** The list that is joined is below the root. *)
Lemma nested_below todo dn ls h s level c : state todo dn ls h s → nested s ls level = Some c → c ≠ rt → anc s rt c.
Proof using Hdoc.
  intros Hs Hn Hc. destruct (nested_above s ls level c Hn) as (c0 & Ec & Ha).
  destruct (i_current _ _ _ _ _ Hs c0 Ec) as (_ & _ & Hr & _). destruct (i_root _ _ _ _ _ Hs) as [Htop _].
  destruct (anc_linear s c rt c0 Ha Hr) as [H|H]; [|done]. unfold anc in H. inv H; congruence.
Qed.

Lemma state_join q todo dn ls h s level nm c n : state (q :: todo) dn ls h s → nm = js "ul" ∨ nm = js "ol" →
  nested s ls level = Some c → h !! c = Some n → Node.name n = nm → is_Some (par s c).
Proof using Hdoc.
  intros Hs Hnm Hn Hc Hname. destruct (i_root _ _ _ _ _ Hs) as (Htop & m & n0 & Hm & Hn0 & Hp).
  assert (c ≠ rt) as Hcr.
  { intros ->. destruct (d_root Hdoc) as [_ Hr]. destruct (Hr n0 Hn0) as [H1 H2].
    rewrite Hm in Hc. injection Hc as <-. rewrite (payload_name _ _ Hp) in Hname. destruct Hnm; congruence. }
  apply (below_top s c Htop); [|done]. by eapply nested_below.
Qed.

(** *** One step *)
Section Step.
Context (q : Node.ref) (todo dn : list Node.ref) (ls ls' : lists) (h h' : heap) (s s' : shape).
Context (Hs : state (q :: todo) dn ls h s) (Hwf' : wf h' s') (Hfresh : q ∉ todo).
Context (t p L y : Node.ref) (nm : jstr) (st : Z) (tn0 ln : node).
Context (Hitem : item h0 q = Some (t, (nm, st))) (Ht : h0 !! t = Some tn0) (Hqt : anc s0 q t) (Htq : t ≠ q).
Context (Hp : par s q = Some p) (Hpl : placed s s' q L y) (Hplace : list_place h s _listLevel ls q p nm L y).
Context (Hcur : currentListNode ls' = Some L) (HL : h' !! L = Some ln) (Hlnm : Node.name ln = nm).
Context (Hdata : ∀ x n, h !! x = Some n → ∃ n', h' !! x = Some n' ∧ payload n' = payload (converted q t (next tn0) x n)).

Lemma q_part : q ∈ ps.
Proof using Hs. apply (i_parts _ _ _ _ _ Hs). by left. Qed.

Lemma nested_part L0 : nested s ls (level_of _listLevel ls q) = Some L0 → ∀ r, r ∈ q :: todo → ¬ anc s0 r L0.
Proof using Hs Hdoc.
  intros Hn r Hr Ha. destruct (i_frozen _ _ _ _ _ Hs r Hr) as [Hf _].
  apply (frozen_above h0 h s0 s r (d_wf Hdoc) (i_wf _ _ _ _ _ Hs) Hf) in Ha.
  destruct (nested_above s ls _ L0 Hn) as (c0 & Ec & Hc). destruct (i_current _ _ _ _ _ Hs c0 Ec) as (_ & _ & _ & x & Hx & Hd).
  assert (anc s0 r x) as Hrx.
  { apply (frozen_below h0 h s0 s r (d_wf Hdoc) (i_wf _ _ _ _ _ Hs) Hf).
    eapply anc_parent; [by eapply last_child; [apply Hs|]|]. eapply above_anc; [exact Ha|exact Hc]. }
  apply (i_apart _ _ _ _ _ Hs r Hr). rewrite (d_apart Hdoc r x); [done| | |done]; apply (i_parts _ _ _ _ _ Hs), elem_of_app; auto.
Qed.

(** The list and where it is lie outside of the paragraphs that are left. *)
Lemma place_outside r : r ∈ todo → is_Some (h !! L) ∨ is_Some (h0 !! L) → ¬ anc s0 r L.
Proof using Hs Hdoc Hplace.
  intros Hr HLd Ha. destruct Hplace as [(Hn & _)|(Hnone & _)].
  - by apply (nested_part L Hn r); [right|].
  - destruct HLd as [[? ?]|Hd]; [congruence|]. eapply state_dom in Hd as [? ?]; [|exact Hs]. congruence.
Qed.

Lemma place_above r : r ∈ q :: todo → r = q ∨ ¬ anc s0 r y.
Proof using All.
  intros Hr. destruct (decide (r = q)) as [|Hne]; [by left|right]. intros Ha.
  assert (r ∈ todo) as Hr' by (by apply elem_of_cons in Hr as [|]).
  destruct (i_frozen _ _ _ _ _ Hs r Hr) as [Hf _]. pose proof (i_wf _ _ _ _ _ Hs) as Hwf.
  destruct Hplace as [(Hn & HLy)|(Hnone & _ & Hy)].
  - apply (nested_part L Hn r Hr). apply (frozen_below h0 h s0 s r (d_wf Hdoc) Hwf Hf).
    eapply anc_parent; [exact HLy|]. by apply (frozen_above h0 h s0 s r (d_wf Hdoc) Hwf Hf).
  - assert (∀ x, x ∈ ps → x ≠ r → ¬ anc s0 r x) as Hap.
    { intros x Hx Hxr Hrx. apply Hxr. symmetry. apply (d_apart Hdoc); [|done|done].
      apply (i_parts _ _ _ _ _ Hs), elem_of_app. by left. }
    assert (y = p ∨ y ∈ dn) as [->|Hd].
    { subst y. destruct (_ <? _); [|by left]. destruct (currentListNode ls) as [c|] eqn:Ec; [|by left].
      destruct (i_current _ _ _ _ _ Hs c Ec) as (_ & _ & _ & x & -> & Hx). by right. }
    + apply (Hap q q_part (not_eq_sym Hne)). eapply (frozen_below h0 h s0 s r (d_wf Hdoc) Hwf Hf).
      eapply anc_parent; [exact Hp|]. by apply (frozen_above h0 h s0 s r (d_wf Hdoc) Hwf Hf).
    + apply (Hap y); [apply (i_parts _ _ _ _ _ Hs), elem_of_app; by right| |done].
      intros ->. by apply (i_apart _ _ _ _ _ Hs r Hr).
Qed.

Lemma converted_outside x n : ¬ anc s0 q x → converted q t (next tn0) x n = n.
Proof using All.
  intros Ha. assert (x ≠ q ∧ x ≠ t) as [Hxq Hxt] by (split; [intros ->; apply Ha, rtc_refl|by intros ->]).
  unfold converted, renamed, dropped. rewrite (decide_False (P := x = q)), (decide_False (P := x = t)) by done.
  rewrite decide_False; [done|]. intros [Hx _]. apply Ha.
  destruct (wf_data h0 s0 t tn0 (d_wf Hdoc) Ht) as (_ & _ & Es). rewrite <- Hx in Es.
  destruct (sib_next_facts h0 s0 t x (d_wf Hdoc) (eq_sym Es)) as (_ & _ & z & Hz & Hz').
  eapply anc_parent; [exact Hz'|]. exact (anc_ne_parent s0 q t z Hz (not_eq_sym Htq) Hqt).
Qed.

Lemma apart_from r x : r ∈ ps → r ≠ q → anc s0 r x → ¬ anc s0 q x.
Proof using Hs Hdoc.
  intros Hr Hne Ha Hb. apply Hne. destruct (anc_linear s0 r q x Ha Hb) as [H|H]; [|symmetry]; apply (d_apart Hdoc); try done; apply q_part.
Qed.

(** Parents of the nodes that were there. *)
Lemma old_par x : is_Some (h !! x) → x ≠ q → par s' x = par s x.
Proof using Hpl Hplace.
  intros Hx Hxq. destruct (decide (x = L)) as [->|]; [|by apply (pl_par _ _ _ _ _ Hpl)]. rewrite (pl_list _ _ _ _ _ Hpl).
  destruct Hplace as [(_ & ?)|(Hn & _)]; [done|]. destruct Hx. congruence.
Qed.

Lemma anc_kept x : is_Some (h !! x) → (¬ anc s q x) → anc s rt x → anc s' rt x.
Proof using Hs Hpl Hplace.
  pose proof (i_wf _ _ _ _ _ Hs) as Hwf. induction (wf_acyclic _ _ Hwf x) as [x _ IH]. intros Hx Hqx Ha.
  destruct (decide (x = rt)) as [->|]; [apply rtc_refl|]. apply rtc_inv in Ha as [->|(z & Hz & Ha')]; [apply rtc_refl|].
  assert (x ≠ q) by (intros ->; apply Hqx, rtc_refl). eapply anc_parent; [by rewrite old_par|].
  apply IH; [done|by apply (wf_dom _ _ Hwf z x)| |done]. intros Hqz. apply Hqx. by eapply anc_parent.
Qed.

Lemma step_frozen r : r ∈ todo → frozen h0 h' s0 s' r ∧ anc s' rt r.
Proof using All.
  intros Hr. assert (r ∈ q :: todo) as Hr' by by right. assert (r ≠ q) as Hrq by by intros ->.
  assert (r ∈ ps) as Hrp by (apply (i_parts _ _ _ _ _ Hs), elem_of_app; by left).
  pose proof (i_wf _ _ _ _ _ Hs) as Hwf. destruct (i_frozen _ _ _ _ _ Hs r Hr') as [Hf Hra]. split.
  - intros x Hx. destruct (Hf x Hx) as [Hch Hpay]. pose proof (apart_from r x Hrp Hrq Hx) as Hqx. destruct (below_dom r x Hrp Hx) as [n0 Hn0].
    destruct (frozen_node h0 h s0 s r Hf x n0 Hx Hn0) as (n & Hn & Hpn). split.
    + rewrite (pl_ch _ _ _ _ _ Hpl); [done| | |].
      * intros Hz. apply Hrq. apply (d_apart Hdoc); [done|apply q_part|]. apply (frozen_below h0 h s0 s r (d_wf Hdoc) Hwf Hf).
        eapply anc_parent; [exact Hz|]. by apply (frozen_above h0 h s0 s r (d_wf Hdoc) Hwf Hf).
      * intros ->. apply (place_outside r Hr); [right; by eexists|done].
      * intros ->. by destruct (place_above r Hr').
    + destruct (Hdata x n Hn) as (n' & -> & Hp'). rewrite converted_outside in Hp' by done. rewrite Hn0. cbn. congruence.
  - apply anc_kept; [| |done].
    + destruct (d_name Hdoc r Hrp) as (n & Hn & _). eapply state_dom; [exact Hs|by eexists].
    + intros Ha. destruct (i_frozen _ _ _ _ _ Hs q) as [Hfq _]; [by left|].
      apply (frozen_below h0 h s0 s q (d_wf Hdoc) Hwf Hfq) in Ha. apply Hrq. symmetry. apply (d_apart Hdoc); [apply q_part|done|done].
Qed.

(** Where the list goes: in the tree, outside of the paragraph. *)
Lemma place_top : is_Some (h !! y) ∧ (¬ anc s q y) ∧ anc s rt y.
Proof using All.
  pose proof (i_wf _ _ _ _ _ Hs) as Hwf. pose proof (state_current q todo dn ls h s Hs) as Hco.
  destruct (i_root _ _ _ _ _ Hs) as (Htop & _). destruct (i_frozen _ _ _ _ _ Hs q) as [_ Hqr]; [by left|].
  destruct Hplace as [(Hn & HLy)|(Hnone & _ & Hy)].
  - destruct (nested_outside h s q ls _ L Hwf Hco Hn) as [_ Ha]. split_and!.
    + by apply (wf_dom _ _ Hwf y L).
    + intros H. apply Ha. by eapply anc_parent.
    + assert (L ≠ rt) by congruence. eapply anc_ne_parent; [exact HLy|done|]. by eapply nested_below.
  - assert (is_Some (h !! p) ∧ (¬ anc s q p) ∧ anc s rt p) as Hpp.
    { split_and!; [by apply (wf_dom _ _ Hwf p q)|by eapply anc_self_parent|].
      eapply anc_ne_parent; [exact Hp| |done]. apply not_eq_sym, (d_below Hdoc q q_part). }
    subst y. destruct (_ <? _); [|done]. destruct (currentListNode ls) as [c|] eqn:Ec; [|done].
    destruct (i_current _ _ _ _ _ Hs c Ec) as (_ & _ & Hc & x & Hx & Hd). destruct (co_last _ _ _ _ Hco c Ec) as (x' & Hx' & Hqx).
    rewrite Hx in Hx'. injection Hx' as <-. rewrite Hx. cbn. pose proof (last_child h s c x Hwf Hx) as Hxc.
    split_and!; [by apply (wf_dom _ _ Hwf c x)|done|by eapply anc_parent].
Qed.

Lemma step_data x n0 : h0 !! x = Some n0 → ∃ n, h' !! x = Some n ∧
  ((∃ r, r ∈ q :: dn ∧ anc s0 r x ∧ after_item r x n0 n) ∨ ((∀ r, r ∈ q :: dn → ¬ anc s0 r x) ∧ payload n = payload n0)).
Proof using All.
  intros Hn0. destruct (i_data _ _ _ _ _ Hs x n0 Hn0) as (n & Hn & Hcase). destruct (Hdata x n Hn) as (n' & Hn' & Hpay). exists n'. split; [done|].
  destruct (d_name Hdoc q q_part) as (qn & Hqn & _).
  destruct (descendants_exists h0 s0 (d_wf Hdoc) q qn Hqn) as (l & Hl). pose proof (descendants_elem h0 s0 (d_wf Hdoc) q l x Hl) as Hin.
  assert (anc s0 q x ∨ ¬ anc s0 q x) as [Ha|Ha].
  { destruct (decide (x = q)) as [->|Hxq]; [left; apply rtc_refl|]. destruct (decide (x ∈ l)) as [Hx|Hx]; [left|right]; naive_solver. }
  - assert (∀ r, r ∈ dn → ¬ anc s0 r x) as Hno.
    { intros r Hr Hrx. assert (r ∈ ps) as Hrp by (apply (i_parts _ _ _ _ _ Hs), elem_of_app; by right).
      assert (r ≠ q) as Hne by (intros E; rewrite E in Hr; by apply (i_apart _ _ _ _ _ Hs q); [left|]). by apply (apart_from r x Hrp Hne Hrx). }
    destruct Hcase as [(r & Hr & Hrx & _)|[_ Hp']]; [by destruct (Hno r Hr)|]. left. exists q. split_and!; [by left|done|].
    exists t, (nm, st), tn0. split_and!; [done..|]. rewrite Hpay. unfold converted. by apply dropped_payload, renamed_payload.
  - rewrite converted_outside in Hpay by done. destruct Hcase as [(r & Hr & Hrx & t' & k & tn' & Hit & Ht' & Hp')|[Hno Hp']].
    + left. exists r. split_and!; [by right|done|]. exists t', k, tn'. split_and!; [done..|congruence].
    + right. split; [|congruence]. intros r [->|Hr]%elem_of_cons; [done|by apply Hno].
Qed.

Lemma step_state : state todo (q :: dn) ls' h' s'.
Proof using All.
  pose proof (i_wf _ _ _ _ _ Hs) as Hwf. destruct place_top as (Hyd & Hqy & Hry).
  destruct (i_root _ _ _ _ _ Hs) as (Htop & rn & rn0 & Hrn & Hrn0 & Hrp).
  assert (rt ≠ q) as Hrq by apply not_eq_sym, (d_below Hdoc q q_part). constructor; [done|exact step_frozen| | | | |exact step_data| |].
  - intros r Hr. apply not_elem_of_cons. split; [by intros ->|]. apply (i_apart _ _ _ _ _ Hs). by right.
  - intros r Hr. apply (i_parts _ _ _ _ _ Hs). set_solver.
  - split; [by rewrite old_par by (first [done|by eexists])|]. destruct (Hdata rt rn Hrn) as (n' & Hn' & Hp'). exists n', rn0.
    split_and!; [done..|]. rewrite converted_outside in Hp' by apply paragraph_root, q_part. congruence.
  - intros c. rewrite Hcur. intros [= <-]. split_and!; [by eexists|by rewrite (pl_list _ _ _ _ _ Hpl)| |].
    + eapply anc_parent; [apply Hpl|]. by apply anc_kept.
    + exists q. split; [by eapply pl_last|by left].
  - intros x Hx [Hxq Hxd]%not_elem_of_cons. rewrite old_par; [|by eapply state_dom|done]. apply (i_par _ _ _ _ _ Hs); [done|by intros ?].
  - intros r [->|Hr]%elem_of_cons; [exists t, nm, st, L, ln; split_and!; [done|apply Hpl|done|done]|].
    destruct (i_items _ _ _ _ _ Hs r Hr) as (t' & nm' & st' & L' & ln' & Hit & HrL & HL' & Hnm').
    assert (r ≠ q) by (intros ->; apply (i_apart _ _ _ _ _ Hs q); [by left|done]).
    assert (r ∈ ps) as Hrps by (apply (i_parts _ _ _ _ _ Hs), elem_of_app; by right).
    destruct (Hdata L' ln' HL') as (n' & Hn' & Hp'). exists t', nm', st', L', n'. split_and!; [done| |done|].
    + rewrite old_par; [done| |done]. destruct (d_name Hdoc r Hrps) as (m & Hm & _). eapply state_dom; [exact Hs|by eexists].
    + rewrite (payload_name _ _ Hp'), <- Hnm'. apply converted_name. intros ->.
      destruct (i_frozen _ _ _ _ _ Hs q) as [Hfq _]; [by left|]. destruct (d_name Hdoc q q_part) as (qn & Hqn & Hqname).
      destruct (frozen_node h0 h s0 s q Hfq q qn (rtc_refl _ _) Hqn) as (m & Hm & Hpm). rewrite HL' in Hm. injection Hm as <-.
      rewrite <- (payload_name _ _ Hpm) in Hqname. rewrite Hqname in Hnm'. subst nm'.
      by destruct (item_name _ _ _ _ _ Hit).
Qed.
End Step.

(** What a step does to the variables and to the places of the nodes. *)
Record made (h : heap) (s s' : shape) (ls ls' : lists) (q p L y : Node.ref) (nm : jstr) : Prop := Made {
  m_par : par s q = Some p;
  m_placed : placed s s' q L y;
  m_place : list_place h s _listLevel ls q p nm L y;
  m_current : currentListNode ls' = Some L;
  m_level : lastLevel ls' = level_of _listLevel ls q
}.

Lemma convert1_ok q todo dn ls h s : q ∉ todo → state (q :: todo) dn ls h s →
  ∃ ls' h', convert1 _listLevel ls q h = Some (ls', h') ∧
    match item h0 q with
    | Some (_, (nm, _)) => ∃ s' p L y, state todo (q :: dn) ls' h' s' ∧ made h s s' ls ls' q p L y nm
    | None => h' = h ∧ state todo dn ls' h s
    end.
Proof using Hdoc.
  intros Hq Hs. pose proof (i_wf _ _ _ _ _ Hs) as Hwf.
  assert (q ∈ ps) as Hqp by (apply (i_parts _ _ _ _ _ Hs); by left).
  destruct (d_name Hdoc q Hqp) as (n0 & Hn0 & Hname). destruct (i_frozen _ _ _ _ _ Hs q) as [Hf Hqr]; [by left|].
  destruct (frozen_node h0 h s0 s q Hf q n0 (rtc_refl _ _) Hn0) as (n & Hn & Hpn).
  assert (firstChild n = firstChild n0) as Hfc.
  { destruct (wf_links _ _ Hwf q n Hn) as (_ & -> & _). destruct (wf_links _ _ (d_wf Hdoc) q n0 Hn0) as (_ & -> & _).
    by destruct (Hf q (rtc_refl _ _)) as [-> _]. }
  unfold convert1. hstep. unfold item. rewrite Hn0. cbn [mbind option_bind]. rewrite <- Hfc.
  destruct (firstChild n) as [c|] eqn:Ec.
  2: { exists ls, h. split; [done|]. split; [done|]. by eapply skip_state; [|left]. }
  rewrite (payload_name _ _ Hpn), Hname. change (str_eqb (js "p") (js "p")) with true. cbv iota.
  destruct (search_ok h0 h s0 s q n n0 c (d_wf Hdoc) Hwf Hf (state_size _ _ _ _ _ Hs) Hn0 Hn Ec) as (_ & o & v & E & E0 & Hno & Hbul).
  rewrite SE_bind_unfold. cbn [gets mbind option_bind]. rewrite (SE_bind_some _ _ _ _ _ E), E0. cbn [mbind option_bind].
  destruct (list_kind (default (js "undefined") v)) as [[nm st]|] eqn:Ek.
  2: { cbn. exists (Lists None (prevListNode ls) (lastLevel ls)), h. split; [done|]. split; [done|]. by eapply skip_state; [|right]. }
  destruct o as [t|]; [|specialize (Hno eq_refl); congruence]. cbn [mbind option_bind]. destruct (Hbul t eq_refl) as (Hqt & Htq & [tn0 Htn0]).
  destruct (frozen_node h0 h s0 s q Hf t tn0 Hqt Htn0) as (tn & Htn & _).
  pose proof (frozen_above h0 h s0 s q (d_wf Hdoc) Hwf Hf t Hqt) as Hqt'.
  assert (is_Some (par s q)) as [p Hp].
  { destruct (i_root _ _ _ _ _ Hs) as [Htop _]. apply (below_top s q Htop Hqr). by apply (d_below Hdoc). }
  assert (next tn = next tn0) as Hnx.
  { destruct (wf_data _ _ _ _ Hwf Htn) as (_ & _ & ->). destruct (wf_data _ _ _ _ (d_wf Hdoc) Htn0) as (_ & _ & ->). unfold sib_next.
    apply rtc_inv in Hqt as [|(z & Hz & Hqz)]; [done|]. destruct (Hf z Hqz) as [Hch _]. rewrite Hz.
    assert (par s t = Some z) as -> by (apply (wf_ch _ _ Hwf); rewrite Hch; by apply (wf_ch _ _ (d_wf Hdoc))). cbn. by rewrite Hch. }
  destruct (convert_item_ok h s _listLevel ls q p t tn nm st Hwf Hp Htn Hqt' Htq) as (ls' & L & y & h' & s' & ln & Erun & Hwf' & Hpl & Hcur & Hlv & HL & Hlnm & Hdata & Hplace).
  - intros x m Hx Hm Hty. destruct (wf_data _ _ _ _ Hwf Htn) as (_ & _ & Es). rewrite Hx in Es.
    destruct (sib_next_facts h s t x Hwf (eq_sym Es)) as (_ & _ & z & Hz & Hz').
    assert (anc s0 q x) as Hqx.
    { apply (frozen_below h0 h s0 s q (d_wf Hdoc) Hwf Hf). eapply anc_parent; [exact Hz'|].
      exact (anc_ne_parent s q t z Hz (not_eq_sym Htq) Hqt'). }
    destruct (below_dom q x Hqp Hqx) as [m0 Hm0]. destruct (frozen_node h0 h s0 s q Hf x m0 Hqx Hm0) as (m' & Hm' & Hpm).
    rewrite Hm in Hm'. injection Hm' as <-. destruct (payload_value_type _ _ Hpm) as [-> Htm]. apply (d_text Hdoc x m0 Hm0). congruence.
  - by eapply state_current.
  - intros c' m Hc' Hm Hnm. eapply state_join; [exact Hs|by eapply kind_name|exact Hc'|exact Hm|exact Hnm].
  - exists ls', h'. split; [exact Erun|]. exists s', p, L, y. split.
    + rewrite Hnx in Hdata. eapply (step_state q todo dn ls ls' h h' s s' Hs Hwf' Hq t p L y nm st tn0 ln); try done.
      unfold item. rewrite Hn0. cbn [mbind option_bind]. rewrite <- Hfc. cbn [mbind option_bind]. rewrite E0. cbn [mbind option_bind].
      by rewrite Ek.
    + by constructor.
Qed.

Lemma convert_all_ok todo : ∀ dn ls h s, NoDup todo → state todo dn ls h s →
  ∃ dn' ls' h' s', convert_all _listLevel ls todo h = Some (ls', h') ∧ state [] dn' ls' h' s'
    ∧ ∀ q, q ∈ dn' ↔ q ∈ dn ∨ (q ∈ todo ∧ is_Some (item h0 q)).
Proof using Hdoc.
  induction todo as [|q todo IH]; intros dn ls h s Hnd Hs.
  { exists dn, ls, h, s. split_and!; [done|done|]. set_solver. }
  apply NoDup_cons in Hnd as [Hq Hnd]. destruct (convert1_ok q todo dn ls h s Hq Hs) as (ls1 & h1 & E & Hstep).
  cbn [convert_all]. rewrite (SE_bind_some _ _ _ _ _ E). destruct (item h0 q) as [[t [nm st]]|] eqn:Ei.
  - destruct Hstep as (s1 & p & L & y & Hs1 & _). destruct (IH (q :: dn) ls1 h1 s1 Hnd Hs1) as (dn' & ls' & h' & s' & E' & Hs' & Hdn).
    exists dn', ls', h', s'. split_and!; [done|done|]. intros r. rewrite Hdn, !elem_of_cons.
    destruct (decide (r = q)) as [->|]; [rewrite Ei; naive_solver|naive_solver].
  - destruct Hstep as [-> Hs1]. destruct (IH dn ls1 h s Hnd Hs1) as (dn' & ls' & h' & s' & E' & Hs' & Hdn).
    exists dn', ls', h', s'. split_and!; [done|done|]. intros r. rewrite Hdn, elem_of_cons.
    destruct (decide (r = q)) as [->|]; [rewrite Ei; split; [naive_solver|intros [?|[_ [? ?]]]; [by left|done]]|naive_solver].
Qed.

Lemma start_state_ok : ps ≠ [] ∨ is_Some (h0 !! rt) → state ps [] (Lists None None 1) h0 s0.
Proof using Hdoc.
  intros Hr. assert (is_Some (h0 !! rt)) as [n Hn].
  { destruct Hr as [Hps|]; [|done]. destruct ps as [|q l] eqn:El; [done|]. destruct (d_below Hdoc q) as [Ha Hne]; [rewrite El; by left|].
    apply (anc_dom h0 s0 (d_wf Hdoc) rt q); [|done]. destruct (d_name Hdoc q) as (m & ? & _); [rewrite El; by left|by eexists]. }
  constructor.
  - apply (d_wf Hdoc).
  - intros q Hq. split; [by intros x _|by apply (d_below Hdoc)].
  - intros q _ Hq. by apply elem_of_nil in Hq.
  - intros q. by rewrite app_nil_r.
  - split; [apply (d_root Hdoc)|]. by exists n, n.
  - intros c. discriminate.
  - intros x m Hm. exists m. split; [exact Hm|]. right. split; [|reflexivity]. intros q Hq. by apply elem_of_nil in Hq.
  - reflexivity.
  - intros q Hq. by apply elem_of_nil in Hq.
Qed.
End Pass.

(** The paragraphs [getAll] finds. *)
Lemma paragraphs_ok h s rt rn ps : wf h s → h !! rt = Some rn → getAll rt (js "p") h = Some (ps, h) →
  (∀ q, q ∈ ps → (∃ n, h !! q = Some n ∧ Node.name n = js "p") ∧ anc s rt q ∧ q ≠ rt) ∧ NoDup ps.
Proof.
  intros Hwf Hr E. destruct (getAll_ok h s rt rn (js "p") Hwf Hr) as (l & Hl & E'). rewrite E in E'. injection E' as ->.
  pose proof (descendants_NoDup h s Hwf rt l Hl) as Hnd. apply NoDup_cons in Hnd as [_ Hnd].
  assert (∀ x, x ∈ l → is_Some (h !! x)) as Hd by (intros x; by apply (descendants_dom h s Hwf rt rn Hr)).
  split.
  - intros q ([x n] & -> & Hin)%list_elem_of_fmap. apply list_elem_of_In, filter_In in Hin as [Hin Hnm]. cbn in *.
    apply list_elem_of_In in Hin.
    unfold nodes_of in Hin. apply list_elem_of_omap in Hin as (z & Hz & (m & Hm & E2)%fmap_Some). injection E2 as -> ->.
    split; [exists m; split; [done|by apply bool_decide_eq_true in Hnm]|].
    apply (descendants_elem h s Hwf rt l z Hl) in Hz as [? ?]. done.
  - rewrite <- (nodes_of_fst h l Hd) in Hnd. clear -Hnd. induction (nodes_of h l) as [|[x n] k IH]; [constructor|].
    cbn in *. apply NoDup_cons in Hnd as [Hx Hnd]. destruct (str_eqb _ _); [|by apply IH]. cbn. apply NoDup_cons. split; [|by apply IH].
    intros ([z m] & -> & Hin)%list_elem_of_fmap. apply Hx. apply list_elem_of_In, filter_In in Hin as [Hin _].
    apply list_elem_of_fmap. exists (z, m). split; [done|by apply list_elem_of_In].
Qed.

(** ** The conversion *)
Section Conversion.
Context (h : heap) (s : shape) (rt : Node.ref) (rn : node) (_listLevel : Node.ref -> option Z).

(** A tree under a root that is no list, whose texts have a value and whose paragraphs are not in one another. *)
Record convertible : Prop := Convertible {
  c_wf : wf h s;
  c_root : h !! rt = Some rn ∧ par s rt = None ∧ Node.name rn ≠ js "ul" ∧ Node.name rn ≠ js "ol";
  c_text : ∀ x n, h !! x = Some n → type n = TNum 3 → is_Some (value n);
  c_apart : ∀ q r n m, h !! q = Some n → h !! r = Some m → Node.name n = js "p" → Node.name m = js "p" → anc s q r → q = r
}.

Lemma convertible_document ps : convertible → getAll rt (js "p") h = Some (ps, h) → document h s rt ps.
Proof using Type.
  intros [Hwf (Hr & Hp & Hul & Hol) Ht Ha] E. destruct (paragraphs_ok h s rt rn ps Hwf Hr E) as [Hps Hnd].
  constructor; [done| |done| | | |done].
  - split; [done|]. intros n. rewrite Hr. by intros [= <-].
  - intros q Hq. by apply Hps.
  - intros q Hq. by apply Hps.
  - intros q r Hq Hr'. destruct (Hps q Hq) as ((n & Hn & Hnn) & _). destruct (Hps r Hr') as ((m & Hm & Hmm) & _). by eapply Ha.
Qed.

Lemma pass_ok ps : convertible → getAll rt (js "p") h = Some (ps, h) →
  ∃ dn ls' h' s', convert_all _listLevel (Lists None None 1) ps h = Some (ls', h') ∧ state h s rt ps [] dn ls' h' s'
    ∧ convertFakeListsToProperLists _listLevel rt h = Some (tt, h') ∧ ∀ q, q ∈ dn ↔ q ∈ ps ∧ is_Some (item h q).
Proof using Type.
  intros Hc E. pose proof (convertible_document ps Hc E) as Hdoc. destruct (c_root Hc) as (Hr & _).
  destruct (convert_all_ok h s rt ps _listLevel Hdoc ps [] (Lists None None 1) h s) as (dn & ls' & h' & s' & Ec & Hs & Hdn).
  - apply Hdoc.
  - apply start_state_ok; [done|]. right. by eexists.
  - exists dn, ls', h', s'. split_and!; [done|done| |].
    + unfold convertFakeListsToProperLists. by rewrite (SE_bind_some _ _ _ _ _ E), (SE_bind_some _ _ _ _ _ Ec).
    + intros q. rewrite Hdn. set_solver.
Qed.

(** C4: The conversion of pasted paragraphs returns on every tree in which paragraphs are not nested and the root is no list, and keeps it well formed; each paragraph that
    begins with a bullet or a number is an item of a list of that kind, named li and without its bullet; every other
    node keeps its data, and its place. *)
Theorem convert_ok : convertible → ∃ ps h' s',
  getAll rt (js "p") h = Some (ps, h)
  ∧ convertFakeListsToProperLists _listLevel rt h = Some (tt, h') ∧ wf h' s'
  ∧ (∀ q t nm st, q ∈ ps → item h q = Some (t, (nm, st)) →
       (∃ L ln, par s' q = Some L ∧ h' !! L = Some ln ∧ Node.name ln = nm)
       ∧ ∀ x n, anc s q x → h !! x = Some n → ∃ n' tn, h' !! x = Some n' ∧ h !! t = Some tn
           ∧ payload n' = payload (converted q t (next tn) x n))
  ∧ (∀ x n, h !! x = Some n → (∀ q, q ∈ ps → is_Some (item h q) → ¬ anc s q x) →
       ∃ n', h' !! x = Some n' ∧ payload n' = payload n)
  ∧ (∀ x, is_Some (h !! x) → (x ∈ ps → item h x = None) → par s' x = par s x).
Proof using Type.
  intros Hc. destruct (c_root Hc) as (Hr & _). destruct (getAll_ok h s rt rn (js "p") (c_wf Hc) Hr) as (l & _ & E).
  eexists. destruct (pass_ok _ Hc E) as (dn & ls' & h' & s' & _ & Hs & Erun & Hdn). set (ps := _.*1) in *.
  pose proof (convertible_document ps Hc E) as Hdoc. exists h', s'. split_and!; [done|done|apply Hs| | |].
  - intros q t nm st Hq Hit. assert (q ∈ dn) as Hqd by (apply Hdn; split; [done|by eexists]). split.
    + destruct (i_items _ _ _ _ _ _ _ _ _ Hs q Hqd) as (t' & nm' & st' & L & ln & Hit' & ? & ? & ?). exists L, ln. split_and!; congruence.
    + intros x n Ha Hn. destruct (i_data _ _ _ _ _ _ _ _ _ Hs x n Hn) as (n' & Hn' & [(r & Hrd & Hrx & t' & k & tn & Hit' & Ht & Hp)|[Hno _]]).
      2: by destruct (Hno q Hqd).
      assert (r = q) as ->.
      { apply Hdn in Hrd as [Hrp _]. destruct (anc_linear s r q x Hrx Ha) as [H|H]; [|symmetry]; by apply (d_apart _ _ _ _ Hdoc). }
      exists n', tn. assert (t' = t) as -> by congruence. done.
  - intros x n Hn Hno. destruct (i_data _ _ _ _ _ _ _ _ _ Hs x n Hn) as (n' & Hn' & [(r & Hrd & Hrx & _)|[_ Hp]]); [|by exists n'].
    apply Hdn in Hrd as [? ?]. by destruct (Hno r).
  - intros x Hx Hno. apply (i_par _ _ _ _ _ _ _ _ _ Hs); [done|]. intros [Hp [? Hi]]%Hdn. rewrite Hno in Hi; done.
Qed.
End Conversion.

(** ** Three pasted paragraphs: 0 is the body, 1, 4 and 7 the paragraphs, of the levels 1, 2 and 1 *)
Definition list_shape : shape :=
  Shape (λ r, match r with 0 => [1; 4; 7] | 1 => [2; 3] | 4 => [5; 6] | 7 => [8] | _ => [] end)%nat
        (λ r, match r with 1 | 4 | 7 => Some 0 | 2 | 3 => Some 1 | 5 | 6 => Some 4 | 8 => Some 7 | _ => None end)%nat.

Definition text_node (v : jstr) : node := set_value (Some v) (new_node (js "#text") (TNum 3)).

Definition list_nodes : list (Node.ref * node) :=
  [(0%nat, new_node (js "body") (TNum 11));
   (1%nat, new_node (js "p") (TNum 1)); (2%nat, text_node [0x2022]); (3%nat, text_node ([160; 160] ++ js "one"));
   (4%nat, new_node (js "p") (TNum 1)); (5%nat, text_node (js "3.")); (6%nat, text_node ([160] ++ js "two"));
   (7%nat, new_node (js "p") (TNum 1)); (8%nat, text_node [0xb7; 160])].

Definition list_heap : heap := list_to_map ((λ p, (p.1, relink_node list_shape p.1 p.2)) <$> list_nodes).
Definition list_levels (r : Node.ref) : option Z := match r with 1%nat => Some 1 | 4%nat => Some 2 | 7%nat => Some 1 | _ => None end.

Lemma list_par c p : par list_shape c = Some p → (p < c ∧ c < 9)%nat.
Proof. do 9 (destruct c as [|c]; [cbn; intros; simplify_eq; lia|]). done. Qed.

Lemma list_dom r : (r < 9)%nat → is_Some (list_heap !! r).
Proof. intros. do 9 (destruct r as [|r]; [by eexists|]). lia. Qed.

Lemma list_get r n : list_heap !! r = Some n → (r < 9)%nat ∧ ∃ m, list_nodes !! r = Some (r, m) ∧ n = relink_node list_shape r m.
Proof.
  intros Hr. apply elem_of_list_to_map_2 in Hr. apply list_elem_of_fmap in Hr as ([x m] & [= -> ->] & Hin).
  apply list_elem_of_lookup in Hin as [i Hi]. assert (i = x) as ->.
  { do 9 (destruct i as [|i]; [by injection Hi as <- _|]). discriminate. }
  split; [by apply lookup_lt_Some in Hi|]. by exists m.
Qed.

Lemma list_wf : wf list_heap list_shape.
Proof.
  constructor.
  - intros p c. do 9 (destruct p as [|p];
      [do 9 (destruct c as [|c]; [cbn; set_solver|]); cbn; set_solver|]).
    cbn. split; [set_solver|]. intros Hp%list_par. lia.
  - intros p. do 9 (destruct p as [|p]; [cbn; apply (bool_decide_unpack _); by vm_compute|]). constructor.
  - intros c. induction (lt_wf c) as [c _ IH]. constructor. intros p Hp. apply IH. by apply list_par in Hp as [? _].
  - intros p c Hp%list_par. split; apply list_dom; lia.
  - intros r n (_ & m & _ & ->)%list_get. unfold links_ok. auto.
Qed.

Lemma list_convertible : convertible list_heap list_shape 0%nat (relink_node list_shape 0%nat (new_node (js "body") (TNum 11))).
Proof.
  constructor.
  - exact list_wf.
  - done.
  - intros x n (Hx & m & Hm & ->)%list_get Ht.
    do 9 (destruct x as [|x]; [cbn in Hm; injection Hm as <-; first [discriminate Ht|by eexists]|]). lia.
  - intros q r n m (Hq & n0 & Hn & ->)%list_get (Hr & m0 & Hm & ->)%list_get Hnn Hmm Ha.
    assert (∀ x y, list_nodes !! x = Some (x, y) → Node.name y = js "p" → x = 1%nat ∨ x = 4%nat ∨ x = 7%nat) as Hp.
    { intros x y Hy Hyn. do 9 (destruct x as [|x]; [cbn in Hy; injection Hy as <-; first [discriminate Hyn|by left|by right; left|by right; right]|]). discriminate. }
    apply rtc_inv in Ha as [|(z & Hz & Ha)]; [done|]. assert (q = 0%nat) as ->.
    { destruct (Hp r m0 Hm Hmm) as [-> |[-> | ->]]; injection Hz as <-; by apply rtc_inv in Ha as [|(? & ? & _)]. }
    by destruct (Hp _ _ Hn Hnn) as [|[|]].
Qed.

Lemma convert_ok_witness : ∃ ps h' s',
  getAll 0%nat (js "p") list_heap = Some (ps, list_heap)
  ∧ convertFakeListsToProperLists list_levels 0%nat list_heap = Some (tt, h') ∧ wf h' s'
  ∧ (∀ q t nm st, q ∈ ps → item list_heap q = Some (t, (nm, st)) →
       (∃ L ln, par s' q = Some L ∧ h' !! L = Some ln ∧ Node.name ln = nm)
       ∧ ∀ x n, anc list_shape q x → list_heap !! x = Some n → ∃ n' tn, h' !! x = Some n' ∧ list_heap !! t = Some tn
           ∧ payload n' = payload (converted q t (next tn) x n))
  ∧ (∀ x n, list_heap !! x = Some n → (∀ q, q ∈ ps → is_Some (item list_heap q) → ¬ anc list_shape q x) →
       ∃ n', h' !! x = Some n' ∧ payload n' = payload n)
  ∧ (∀ x, is_Some (list_heap !! x) → (x ∈ ps → item list_heap x = None) → par s' x = par list_shape x).
Proof. exact (convert_ok _ _ _ _ list_levels list_convertible). Defined.

(** All are items, and the nodes after the conversion, printed. *)
Example list_items : item list_heap <$> [1; 4; 7]%nat = Some <$> [(2%nat, (js "ul", 1)); (5%nat, (js "ol", 3)); (8%nat, (js "ul", 1))].
Proof. by vm_compute. Qed.

Definition convert_shown (levels : Node.ref -> option Z) (nodes : heap) : option jstr :=
  '(_, h) ← convertFakeListsToProperLists levels 0%nat nodes;
  fst <$> Serializer.serialize (H := {| attributesOrder := λ _, None |}) plain_writer true false 0%nat h.

Example list_shown : convert_shown list_levels list_heap = Some (js "<ul><li>one<ol start=" ++ [34] ++ js "3" ++ [34] ++ js "><li>two</li></ol></li><li></li></ul>").
Proof. by vm_compute. Qed.
