(* ===== verification/WordOutline.v ===== *)
(** * The lists of the paste plug-in: the levels of the items

    The outline of a sequence of items with levels, read off with a stack, and the proof that
    convertFakeListsToProperLists nests its lists in that way when each level is at most one
    away from the level before. *)

From S2P Require Import Prelude Regexp Tools Styles Entities Schema SaxParser Writer Node NodeFacts NodeMoves NodeWalk DomParser DomFacts Serializer DomSerializer WordFilter WordFilterFacts WordLists.

(** ** The outline *)
Section Outline.
Context (lv : Node.ref -> Z).

(** The open items above an item of level [l]. *)
Fixpoint close (l : Z) (stk : list Node.ref) : list Node.ref :=
  match stk with
  | r :: k => if l <=? lv r then close l k else stk
  | [] => []
  end.

(** Each item with the item it belongs to: the last one before it with a lower level. *)
Fixpoint owners (stk todo : list Node.ref) : list (Node.ref * option Node.ref) :=
  match todo with
  | q :: todo => let k := close (lv q) stk in (q, head k) :: owners (q :: k) todo
  | [] => []
  end.

(** Levels from 1 on, each at most one away from the one before. *)
Fixpoint gentle (last : Z) (todo : list Node.ref) : bool :=
  match todo with
  | q :: todo => (1 <=? lv q) && (last - 1 <=? lv q) && (lv q <=? last + 1) && gentle (lv q) todo
  | [] => true
  end.

(** The open items have the levels 1, 2 and so on from the bottom. *)
Fixpoint stepped (stk : list Node.ref) : Prop :=
  match stk with
  | r :: k => lv r = Z.of_nat (S (length k)) ∧ stepped k
  | [] => True
  end.

(** A gentle step: one level down, the same level, or one level up. *)
Lemma close_gentle q stk : stepped stk → 1 ≤ lv q → Z.of_nat (length stk) - 1 ≤ lv q ≤ Z.of_nat (length stk) + 1 →
  (close (lv q) stk = stk ∧ lv q = Z.of_nat (length stk) + 1)
  ∨ (∃ r, stk = r :: close (lv q) stk ∧ lv q = Z.of_nat (length stk))
  ∨ (∃ r r', stk = r :: r' :: close (lv q) stk ∧ lv q = Z.of_nat (length stk) - 1).
Proof.
  intros Hs Hq [H1 H2]. destruct stk as [|r k]; cbn [close]; [left; cbn in *; split; [done|lia]|].
  destruct Hs as [Hr Hs]. cbn [length] in *. case_match eqn:E1; [apply Z.leb_le in E1; right|apply Z.leb_gt in E1; left; split; [done|lia]].
  destruct k as [|r' k]; cbn [close]; [left; exists r; split; [done|cbn in *; lia]|]. destruct Hs as [Hr' Hs]. cbn [length] in *.
  case_match eqn:E2; [apply Z.leb_le in E2; right|apply Z.leb_gt in E2; left; exists r; split; [done|lia]].
  exists r, r'. split; [|lia]. f_equal. f_equal. destruct k as [|r'' k]; [done|]. destruct Hs as [Hr'' _]. cbn [close].
  cbn [length] in *. destruct (Z.leb_spec (lv q) (lv r'')); [lia|done].
Qed.

Lemma close_suffix l stk : close l stk `suffix_of` stk.
Proof. induction stk as [|r k IH]; cbn [close]; [done|]. case_match; [|done]. by apply suffix_cons_r. Qed.

Lemma stepped_suffix k stk : k `suffix_of` stk → stepped stk → stepped k.
Proof. intros [l ->]. induction l as [|r l IH]; [done|]. intros [_ H]. by apply IH. Qed.

Lemma owners_fst stk todo : (owners stk todo).*1 = todo.
Proof. revert stk. induction todo as [|q todo IH]; intros stk; [done|]. cbn. by rewrite IH. Qed.
End Outline.

(** The items of an owner, in their order. *)
Definition owned (o : option Node.ref) (l : list (Node.ref * option Node.ref)) : list Node.ref :=
  fst <$> base.filter (λ p : Node.ref * option Node.ref, p.2 = o) l.

Lemma owned_app o l l' : owned o (l ++ l') = owned o l ++ owned o l'.
Proof. unfold owned. by rewrite filter_app, fmap_app. Qed.

Lemma owned_one o q o' : owned o [(q, o')] = if decide (o' = o) then [q] else [].
Proof. unfold owned. rewrite filter_cons, filter_nil. cbn. by case_decide. Qed.

Lemma owned_elem o l x : x ∈ owned o l ↔ (x, o) ∈ l.
Proof.
  unfold owned. rewrite list_elem_of_fmap. split.
  - intros ([y o'] & -> & [Ho Hin]%list_elem_of_filter). cbn in *. by subst.
  - intros Hin. exists (x, o). split; [done|]. by apply list_elem_of_filter.
Qed.

(** The level of a paragraph that has one. *)
Definition own_level (_listLevel : Node.ref -> option Z) (q : Node.ref) : Z := default 0 (_listLevel q).

Section Nesting.
Context (h0 : heap) (s0 : shape) (rt : Node.ref) (ps : list Node.ref) (_listLevel : Node.ref -> option Z).
Context (Hdoc : document h0 s0 rt ps).
Abbreviation lv := (own_level _listLevel).

(** Every paragraph is a child of the root and an item; items of one owner are of one kind. *)
Definition kind (q : Node.ref) : option jstr := (λ i, fst (snd i)) <$> item h0 q.
Context (Htop : ∀ q, q ∈ ps → par s0 q = Some rt ∧ is_Some (item h0 q)).
Context (Hkind : ∀ x y o, (x, o) ∈ owners lv [] ps → (y, o) ∈ owners lv [] ps → kind x = kind y).

(** The list of an owner: a new one below it, or below the root. *)
Record list_of (s : shape) (l : list (Node.ref * option Node.ref)) (o : option Node.ref) (L : Node.ref) : Prop := ListOf {
  lo_below : par s L = Some (default rt o);
  lo_new : h0 !! L = None;
  lo_items : ch s L = owned o l
}.

(** The loop after the items of [dn]; the items of [stk] are open. *)
Record outlined (dn : list (Node.ref * option Node.ref)) (stk : list Node.ref) (ls : lists) (s : shape) : Prop := Outlined {
  o_level : lastLevel ls = Z.max 1 (Z.of_nat (length stk));
  o_steps : stepped lv stk;
  o_open : ∀ r k, (r :: k) `suffix_of` stk → (r, head k) ∈ dn;
  o_current : match head stk with
              | Some r => ∃ L, currentListNode ls = Some L ∧ par s r = Some L ∧ last (ch s L) = Some r
              | None => currentListNode ls = None ∧ dn = []
              end;
  o_owner : ∀ x r, (x, Some r) ∈ dn → r ∈ dn.*1;
  o_last : ∀ r x, head stk = Some r → (x, Some r) ∉ dn;
  o_lists : ∀ x o, (x, o) ∈ dn → ∃ L, par s x = Some L ∧ list_of s dn o L
}.

Lemma level_known ls q : 1 ≤ lv q → level_of _listLevel ls q = lv q.
Proof using Type.
  unfold own_level, level_of. intros Hq. destruct (_listLevel q) as [z|]; cbn in *; [|lia]. by rewrite (proj2 (Z.eqb_neq z 0)) by lia.
Qed.

(** *** One step *)
Section Step.
Context (q : Node.ref) (todo dn : list Node.ref) (l : list (Node.ref * option Node.ref)) (stk : list Node.ref).
Context (ls ls' : lists) (h : heap) (s s' : shape) (p L y : Node.ref) (nm : jstr).
Context (Hs : state h0 s0 rt ps (q :: todo) dn ls h s) (Ho : outlined l stk ls s).
Context (Hm : made _listLevel h s s' ls ls' q p L y nm).
Context (Hdn : ∀ x, x ∈ dn ↔ x ∈ l.*1) (Hl : l ++ owners lv stk (q :: todo) = owners lv [] ps).
Context (Hnm : kind q = Some nm).
Context (Hpos : 1 ≤ lv q) (Hgentle : Z.of_nat (length stk) - 1 ≤ lv q ≤ Z.of_nat (length stk) + 1).
Abbreviation k := (close lv (lv q) stk).

Lemma q_root : p = rt ∧ par s q = Some rt.
Proof using Hs Hm Hdoc Htop Hdn.
  assert (q ∈ ps) as Hq by (apply (i_parts _ _ _ _ _ _ _ _ _ Hs); by left). destruct (Htop q Hq) as [E _].
  assert (par s q = Some rt) as E'.
  { rewrite (i_par _ _ _ _ _ _ _ _ _ Hs); [done| |].
    - destruct (d_name _ _ _ _ Hdoc q Hq) as (n & ? & _). by eexists.
    - apply (i_apart _ _ _ _ _ _ _ _ _ Hs). by left. }
  split; [|done]. pose proof (m_par _ _ _ _ _ _ _ _ _ _ _ Hm). congruence.
Qed.

Lemma member_part x : x ∈ l.*1 → x ∈ ps.
Proof using Hs Hdn. intros Hx%Hdn. apply (i_parts _ _ _ _ _ _ _ _ _ Hs), elem_of_app. by right. Qed.

Lemma part_dom x : x ∈ ps → is_Some (h0 !! x).
Proof using Hdoc. intros Hx. destruct (d_name _ _ _ _ Hdoc x Hx) as (n & ? & _). by eexists. Qed.

Lemma root_dom : is_Some (h0 !! rt).
Proof using Hs. destruct (i_root _ _ _ _ _ _ _ _ _ Hs) as (_ & n & n0 & _ & ? & _). by eexists. Qed.

Lemma q_fresh : q ∉ l.*1.
Proof using Hs Hdn. rewrite <- Hdn. apply (i_apart _ _ _ _ _ _ _ _ _ Hs). by left. Qed.

Lemma owner_part o x : (x, o) ∈ l → is_Some (h0 !! default rt o) ∧ ∀ r, o = Some r → r ≠ rt.
Proof using Hs Ho Hdn Hdoc.
  intros Hx. destruct o as [r|]; cbn; [|split; [apply root_dom|done]].
  apply (o_owner _ _ _ _ Ho), member_part in Hx. split; [by apply part_dom|]. intros ? [= <-].
  by apply (d_below _ _ _ _ Hdoc).
Qed.

Lemma open_owner r : head k = Some r → (r, head (tail k)) ∈ l.
Proof using Ho.
  intros Hr. apply (o_open _ _ _ _ Ho). etransitivity; [|apply (close_suffix lv (lv q))].
  destruct k as [|r' k']; [done|]. by injection Hr as ->.
Qed.

Lemma open_part : is_Some (h0 !! default rt (head k)) ∧ ∀ r, head k = Some r → r ≠ rt.
Proof using Hs Ho Hdn Hdoc.
  destruct (head k) as [r|] eqn:Er; cbn; [|split; [apply root_dom|done]].
  assert (r ∈ ps) as Hr by (apply member_part, list_elem_of_fmap; eexists; split; [|by apply open_owner]; done).
  split; [by apply part_dom|]. intros ? [= <-]. by apply (d_below _ _ _ _ Hdoc).
Qed.

(** The list of the owner takes the item, or a new one is made. *)
Lemma joined : par s L = Some y → h0 !! L = None → (∃ r, (r, head k) ∈ l ∧ par s r = Some L) →
  (∀ x, (x, head k) ∈ l → par s x = Some L) ∧ y = default rt (head k) ∧ ch s' L = owned (head k) l ++ [q].
Proof using Hs Ho Hm Hdoc Htop Hdn.
  intros HLy HL (r & Hr & HrL). destruct (o_lists _ _ _ _ Ho r _ Hr) as (L0 & E0 & Hlo). assert (L0 = L) as -> by congruence.
  split_and!.
  - intros x Hx. apply (wf_ch _ _ (i_wf _ _ _ _ _ _ _ _ _ Hs)). rewrite (lo_items _ _ _ _ Hlo). by apply owned_elem.
  - pose proof (lo_below _ _ _ _ Hlo). congruence.
  - rewrite (pl_items _ _ _ _ _ (m_placed _ _ _ _ _ _ _ _ _ _ _ Hm)), detach_ch_ne, (lo_items _ _ _ _ Hlo); [done|].
    destruct q_root as [_ ->]. intros [= <-]. destruct root_dom. congruence.
Qed.

Lemma fresh_list : h !! L = None → (∀ x, (x, head k) ∉ l) → ch s' L = owned (head k) l ++ [q].
Proof using Hs Hm.
  intros HL Hno. assert (ch s L = []) as HLc.
  { apply elem_of_nil_inv. intros x Hx. apply (wf_ch _ _ (i_wf _ _ _ _ _ _ _ _ _ Hs)) in Hx.
    destruct (wf_dom _ _ (i_wf _ _ _ _ _ _ _ _ _ Hs) _ _ Hx) as [[? ?] _]. congruence. }
  assert (owned (head k) l = []) as ->.
  { apply elem_of_nil_inv. intros x Hx%owned_elem. by apply (Hno x). }
  pose proof (pl_items _ _ _ _ _ (m_placed _ _ _ _ _ _ _ _ _ _ _ Hm)) as ->. unfold detach.
  destruct (par s q) as [z|]; cbn; [|by rewrite HLc]. unfold fset. case_decide as Ez; [|by rewrite HLc].
  by rewrite <- Ez, HLc.
Qed.

(** Where the item is after the step. *)
Definition well_placed : Prop :=
  (∀ x, (x, head k) ∈ l → par s x = Some L) ∧ y = default rt (head k) ∧ ch s' L = owned (head k) l ++ [q] ∧ h0 !! L = None.

Lemma joins r c : (r, head k) ∈ l → par s r = Some c → nested s ls (lv q) = Some c → well_placed.
Proof using All.
  intros Hr Hc Hn. pose proof (m_place _ _ _ _ _ _ _ _ _ _ _ Hm) as Hpl. unfold list_place in Hpl. rewrite level_known, Hn in Hpl by done.
  destruct Hpl as [([= ->] & HLy)|(_ & Hne & _)].
  - assert (h0 !! L = None) as HL.
    { destruct (o_lists _ _ _ _ Ho r _ Hr) as (L0 & E0 & Hlo). rewrite Hc in E0. injection E0 as <-. apply (lo_new _ _ _ _ Hlo). }
    destruct (joined HLy HL) as (? & ? & ?); [by exists r|]. done.
  - exfalso. assert (r ∈ dn) as Hrd by (apply Hdn, list_elem_of_fmap; by exists (r, head k)).
    destruct (i_items _ _ _ _ _ _ _ _ _ Hs r Hrd) as (t & nm' & st & L' & ln & Hit & HL' & Hln & Hname).
    rewrite Hc in HL'. injection HL' as <-. apply (Hne c ln eq_refl Hln). rewrite Hname.
    assert (kind r = kind q) as E; [|unfold kind in E at 1; rewrite Hit in E; cbn in E; congruence].
    apply (Hkind r q (head k)); rewrite <- Hl, elem_of_app; [by left|right; by left].
Qed.

Lemma begins : nested s ls (lv q) = None → (∀ x, (x, head k) ∉ l) →
  default rt (head k) = (if lastLevel ls <? lv q then match currentListNode ls with Some c => default p (last (ch s c)) | None => p end else p) →
  well_placed.
Proof using All.
  intros Hn Hno Hy. pose proof (m_place _ _ _ _ _ _ _ _ _ _ _ Hm) as Hpl. unfold list_place in Hpl. rewrite level_known, Hn, <- Hy in Hpl by done.
  destruct Hpl as [(? & _)|(HL & _ & Ey)]; [done|]. split_and!; [intros x Hx; by destruct (Hno x)|done|by apply fresh_list|].
  destruct (h0 !! L) eqn:E; [|done]. destruct (state_dom _ _ _ _ _ _ _ _ _ L Hs) as [? ?]; [by eexists|congruence].
Qed.

Lemma place_ok : well_placed.
Proof using All.
  pose proof (o_steps _ _ _ _ Ho) as Hst. pose proof (o_level _ _ _ _ Ho) as Hlv. pose proof (o_current _ _ _ _ Ho) as Hcur.
  destruct (close_gentle lv q stk Hst Hpos Hgentle) as [[Ek Hq]|[(r & Ek & Hq)|(r & r' & Ek & Hq)]].
  - assert (stk = [] ∨ ∃ r k0, stk = r :: k0) as [Es|(r & k0 & Es)] by (destruct stk; eauto); rewrite Es in Hcur, Hlv, Hq.
    + destruct Hcur as [Hcur El]. cbn in Hlv, Hq. apply begins.
      * unfold nested. rewrite Hcur, Hlv, Hq. done.
      * rewrite El. intros x Hx. by apply elem_of_nil in Hx.
      * rewrite Ek, Es, Hcur, Hlv, Hq. cbn. symmetry. by apply q_root.
    + destruct Hcur as (c & Hcur & _ & Hlast). rewrite Z.max_r in Hlv by (cbn; lia). apply begins.
      * unfold nested. rewrite Hlv, Hq. by rewrite (proj2 (Z.eqb_neq _ _)), (proj2 (Z.ltb_ge _ _)) by lia.
      * rewrite Ek, Es. intros x. apply (o_last _ _ _ _ Ho r x). by rewrite Es.
      * rewrite Ek, Es, Hcur, Hlv, Hq. cbn [head default]. rewrite Hlast. by rewrite (proj2 (Z.ltb_lt _ _)) by lia.
  - rewrite Ek in Hcur. destruct Hcur as (c & Hcur & Hc & _). apply (joins r c); [|done|].
    + apply (o_open _ _ _ _ Ho r). by rewrite <- Ek.
    + unfold nested. rewrite Hcur, Hlv, Hq. rewrite Z.max_r by (rewrite Ek; cbn; lia). by rewrite Z.eqb_refl.
  - rewrite Ek in Hcur. destruct Hcur as (c & Hcur & Hc & _).
    assert ((r', head k) ∈ l) as Hr' by (apply (o_open _ _ _ _ Ho r'); eexists [r]; done).
    assert ((r, Some r') ∈ l) as Hr by (apply (o_open _ _ _ _ Ho r (r' :: k)); by rewrite <- Ek).
    destruct (o_lists _ _ _ _ Ho r' _ Hr') as (c' & Hc' & _). destruct (o_lists _ _ _ _ Ho r _ Hr) as (c0 & Hc0 & Hlo).
    rewrite Hc in Hc0. injection Hc0 as <-. apply (joins r' c'); [done|done|].
    unfold nested. rewrite Hcur, Hlv, Hq. rewrite Z.max_r by (rewrite Ek; cbn; lia).
    rewrite (proj2 (Z.eqb_neq _ _)), (proj2 (Z.ltb_lt _ _)) by lia. cbn. rewrite (lo_below _ _ _ _ Hlo). cbn. done.
Qed.

Lemma lists_kept x o : (x, o) ∈ l ++ [(q, head k)] → ∃ L', par s' x = Some L' ∧ list_of s' (l ++ [(q, head k)]) o L'.
Proof using All.
  destruct place_ok as (Hin & Hy & HLc & HL0). pose proof (m_placed _ _ _ _ _ _ _ _ _ _ _ Hm) as Hpl.
  assert (list_of s' (l ++ [(q, head k)]) (head k) L) as HLok.
  { constructor; [rewrite <- Hy; apply Hpl|done|]. rewrite owned_app, owned_one. by rewrite decide_True. }
  intros [Hx|Hx]%elem_of_app; [|apply list_elem_of_singleton in Hx as [= -> ->]; exists L; split; [apply Hpl|done]].
  destruct (o_lists _ _ _ _ Ho x o Hx) as (L' & HL' & Hlo). exists L'.
  pose proof (i_wf _ _ _ _ _ _ _ _ _ Hs) as Hwf. destruct (wf_dom _ _ Hwf _ _ HL') as [HLd Hxd].
  assert (x ∈ l.*1) as Hxl by (apply list_elem_of_fmap; by exists (x, o)).
  assert (x ≠ q) by (intros ->; by apply q_fresh). destruct q_root as [-> Hqp].
  assert (L' ≠ q).
  { intros ->. destruct (part_dom q) as [? ?]; [apply (i_parts _ _ _ _ _ _ _ _ _ Hs); by left|]. pose proof (lo_new _ _ _ _ Hlo). congruence. }
  pose proof (old_par _ _ _ _ _ _ _ _ _ _ Hpl (m_place _ _ _ _ _ _ _ _ _ _ _ Hm)) as Hold.
  split; [by rewrite Hold|]. destruct (decide (o = head k)) as [->|Hne].
  { assert (L' = L) as -> by (specialize (Hin x Hx); congruence). done. }
  assert (L' ≠ L) as HLL.
  { intros ->. pose proof (lo_below _ _ _ _ Hlo) as HLb. rewrite <- Hold, (pl_list _ _ _ _ _ Hpl), Hy in HLb by done. injection HLb as Eb.
    destruct (owner_part o x Hx) as [_ Hr], open_part as [_ Hr']. apply Hne.
    destruct o as [r|], (head k) as [r'|]; cbn in Eb; [congruence|by destruct (Hr r)|by destruct (Hr' r')|done]. }
  constructor.
  - rewrite Hold by done. apply Hlo.
  - apply Hlo.
  - rewrite owned_app, owned_one, decide_False, app_nil_r by congruence. rewrite <- (lo_items _ _ _ _ Hlo).
    apply (pl_ch _ _ _ _ _ Hpl); [|done|].
    + rewrite Hqp. intros [= <-]. destruct root_dom. pose proof (lo_new _ _ _ _ Hlo). congruence.
    + rewrite Hy. intros ->. destruct open_part as [[? ?] _]. pose proof (lo_new _ _ _ _ Hlo). congruence.
Qed.

Lemma new_level : lv q = Z.of_nat (S (length k)).
Proof using Ho Hpos Hgentle.
  destruct (close_gentle lv q stk (o_steps _ _ _ _ Ho) Hpos Hgentle) as [[Ek Hq]|[(r & Ek & Hq)|(r & r' & Ek & Hq)]];
    apply (f_equal length) in Ek; cbn [length] in Ek; lia.
Qed.

Lemma step_outlined : outlined (l ++ [(q, head k)]) (q :: k) ls' s'.
Proof using All.
  pose proof new_level as Hlv. pose proof (m_placed _ _ _ _ _ _ _ _ _ _ _ Hm) as Hpl. constructor.
  - rewrite (m_level _ _ _ _ _ _ _ _ _ _ _ Hm), level_known by done. cbn [length]. lia.
  - split; [done|]. eapply stepped_suffix; [apply close_suffix|apply Ho].
  - intros r k' [Hk|Hk]%suffix_cons_inv; apply elem_of_app.
    + injection Hk as -> ->. right. by left.
    + left. apply (o_open _ _ _ _ Ho). etransitivity; [exact Hk|apply close_suffix].
  - exists L. split_and!; [apply Hm|apply Hpl|by eapply pl_last].
  - intros x r [Hx|Hx]%elem_of_app; rewrite fmap_app; apply elem_of_app; left.
    + by apply (o_owner _ _ _ _ Ho x).
    + apply list_elem_of_singleton in Hx as [= -> Hr]. apply list_elem_of_fmap. eexists. split; [|by apply open_owner]. done.
  - intros r x [= <-] [Hx|Hx]%elem_of_app; apply q_fresh.
    + by apply (o_owner _ _ _ _ Ho x).
    + apply list_elem_of_singleton in Hx as [= -> Hr]. apply list_elem_of_fmap. eexists. split; [|by apply open_owner]. done.
  - exact lists_kept.
Qed.
End Step.

Lemma convert_outline todo : ∀ dn l stk ls h s, NoDup todo → gentle lv (Z.of_nat (length stk)) todo = true →
  state h0 s0 rt ps todo dn ls h s → outlined l stk ls s → (∀ x, x ∈ dn ↔ x ∈ l.*1) → l ++ owners lv stk todo = owners lv [] ps →
  ∃ stk' dn' ls' h' s', convert_all _listLevel ls todo h = Some (ls', h') ∧ state h0 s0 rt ps [] dn' ls' h' s'
    ∧ outlined (owners lv [] ps) stk' ls' s' ∧ ∀ x, x ∈ dn' ↔ x ∈ (owners lv [] ps).*1.
Proof using All.
  induction todo as [|q todo IH]; intros dn l stk ls h s Hnd Hg Hs Ho Hdn Hl.
  { cbn in Hl. rewrite app_nil_r in Hl. rewrite <- Hl. by exists stk, dn, ls, h, s. }
  apply NoDup_cons in Hnd as [Hq Hnd]. cbn [gentle] in Hg. apply andb_true_iff in Hg as [Hg Hg'].
  assert (1 ≤ lv q ∧ Z.of_nat (length stk) - 1 ≤ lv q ≤ Z.of_nat (length stk) + 1) as [Hpos Hge] by lia.
  destruct (convert1_ok h0 s0 rt ps _listLevel Hdoc q todo dn ls h s Hq Hs) as (ls1 & h1 & E & Hstep).
  destruct (Htop q) as [_ [[t [nm st]] Hit]]; [apply (i_parts _ _ _ _ _ _ _ _ _ Hs); by left|]. rewrite Hit in Hstep.
  destruct Hstep as (s1 & p & L & y & Hs1 & Hm). cbn [convert_all]. rewrite (SE_bind_some _ _ _ _ _ E).
  assert (kind q = Some nm) as Hnm by (unfold kind; by rewrite Hit).
  pose proof (step_outlined q todo dn l stk ls ls1 h s s1 p L y nm Hs Ho Hm Hdn Hl Hnm Hpos Hge) as Ho1.
  assert (lv q = Z.of_nat (S (length (close lv (lv q) stk)))) as Hlen by by eapply new_level.
  apply (IH (q :: dn) (l ++ [(q, head (close lv (lv q) stk))]) (q :: close lv (lv q) stk) ls1 h1 s1); try done.
  - cbn [length]. by rewrite <- Hlen.
  - intros x. rewrite fmap_app, elem_of_app, elem_of_cons, Hdn. cbn. rewrite list_elem_of_singleton. tauto.
  - rewrite <- Hl, <- app_assoc. done.
Qed.

End Nesting.

(** C5: When the pasted paragraphs are items below the root, their levels go from 1 up and down by steps of
    one, and items of one owner are of one kind, the conversion builds the outline of the levels: the items
    that belong to an item are, in their order, all the children of one new list of their kind below it,
    and the items of level 1 those of one new list below the root. *)
Theorem outline_ok h s rt rn _listLevel ps : convertible h s rt rn → getAll rt (js "p") h = Some (ps, h) →
  (∀ q, q ∈ ps → par s q = Some rt ∧ is_Some (item h q)) →
  (∀ x y o, (x, o) ∈ owners (own_level _listLevel) [] ps → (y, o) ∈ owners (own_level _listLevel) [] ps → kind h x = kind h y) →
  gentle (own_level _listLevel) 0 ps = true →
  ∃ h' s', convertFakeListsToProperLists _listLevel rt h = Some (tt, h') ∧ wf h' s'
    ∧ ∀ x o, (x, o) ∈ owners (own_level _listLevel) [] ps → ∃ L ln,
        par s' x = Some L ∧ par s' L = Some (default rt o) ∧ h !! L = None
        ∧ ch s' L = owned o (owners (own_level _listLevel) [] ps)
        ∧ h' !! L = Some ln ∧ kind h x = Some (Node.name ln).
Proof.
  intros Hc E Htop Hkind Hg. pose proof (convertible_document _ _ _ _ ps Hc E) as Hdoc. destruct (c_root _ _ _ _ Hc) as (Hr & _).
  destruct (convert_outline h s rt ps _listLevel Hdoc Htop Hkind ps [] [] [] (Lists None None 1) h s)
    as (stk & dn & ls' & h' & s' & Ec & Hs & Ho & Hdn).
  - apply Hdoc.
  - done.
  - apply start_state_ok; [done|]. right. by eexists.
  - constructor; try done.
    + intros r k Hk. by apply suffix_nil_inv in Hk.
    + intros x r Hx. by apply elem_of_nil in Hx.
    + intros x o Hx. by apply elem_of_nil in Hx.
  - done.
  - done.
  - exists h', s'. split_and!.
    + unfold convertFakeListsToProperLists. by rewrite (SE_bind_some _ _ _ _ _ E), (SE_bind_some _ _ _ _ _ Ec).
    + apply Hs.
    + intros x o Hx. destruct (o_lists _ _ _ _ _ _ _ Ho x o Hx) as (L & HL & [Hb Hn Hi]).
      assert (x ∈ dn) as Hxd by (apply Hdn, list_elem_of_fmap; by exists (x, o)).
      destruct (i_items _ _ _ _ _ _ _ _ _ Hs x Hxd) as (t & nm & st & L' & ln & Hit & HL' & Hln & Hname).
      rewrite HL in HL'. injection HL' as <-. exists L, ln. split_and!; [done..|]. unfold kind. by rewrite Hit, Hname.
Qed.

(** ** The paragraphs of WordLists: the second belongs to the first *)
Definition list_outline : list (Node.ref * option Node.ref) := [(1, None); (4, Some 1); (7, None)]%nat.

Lemma list_owners : owners (own_level list_levels) [] [1; 4; 7]%nat = list_outline.
Proof. by vm_compute. Qed.

Lemma list_kinds : Forall (λ p, Forall (λ r, p.2 = r.2 → kind list_heap p.1 = kind list_heap r.1) list_outline) list_outline.
Proof. apply (bool_decide_unpack _). by vm_compute. Qed.

Lemma outline_ok_witness : ∃ h' s', convertFakeListsToProperLists list_levels 0%nat list_heap = Some (tt, h') ∧ wf h' s'
  ∧ ∀ x o, (x, o) ∈ owners (own_level list_levels) [] [1; 4; 7]%nat → ∃ L ln,
      par s' x = Some L ∧ par s' L = Some (default 0%nat o) ∧ list_heap !! L = None
      ∧ ch s' L = owned o (owners (own_level list_levels) [] [1; 4; 7]%nat)
      ∧ h' !! L = Some ln ∧ kind list_heap x = Some (Node.name ln).
Proof.
  apply (outline_ok _ _ _ _ list_levels [1; 4; 7]%nat list_convertible).
  - by vm_compute.
  - apply Forall_forall. repeat constructor; by eexists.
  - rewrite list_owners. intros x y o Hx Hy.
    exact (proj1 (Forall_forall _ _) (proj1 (Forall_forall _ _) list_kinds _ Hx) _ Hy eq_refl).
  - by vm_compute.
Defined.
