(* ===== verification/WordFindings.v ===== *)
(** * The clean-up of pasted content on concrete text

    The whole handler of BeforePastePreProcess, from the text to the printed result, and where it goes wrong. *)

From S2P Require Import Prelude Regexp Tools Styles Entities Schema SaxParser Writer Node DomParser Serializer DomSerializer WordFilter.

Definition no_decode (s : jstr) : jstr := s.
Definition plain_styles : Styles.settings := Styles.Settings false None.

(** The result under [paste_retain_style_properties], with the other settings missing. *)
Definition pasted (retain : option jstr) (content : string) : option jstr :=
  fst <$> preprocess retain plain_styles no_decode false [] no_cache (qt content).

(** Two levels, out and back. *)
Example pasted_list : pasted None
  ("<p class=MsoNormal style=`mso-list:l0 level1`>~<b> </b>one</p>"
   ++ "<p class=MsoNormal style=`mso-list:l0 level2`>~<b> </b>two</p>"
   ++ "<p class=MsoNormal style=`mso-list:l0 level1`>~<b> </b>three</p>")
  = Some (qt "<ul><li>one<ul><li>two</li></ul></li><li>three</li></ul>").
Proof. by vm_compute. Qed.

(** Only paragraphs end a list: an item after a heading goes into the list before the heading. *)
Example list_joins_across : pasted None
  "<p class=MsoNormal>~<b> </b>one</p><h1>x</h1><p>~<b> </b>two</p>"
  = Some (qt "<ul><li>one</li><li>two</li></ul><h1>x</h1>").
Proof. by vm_compute. Qed.

(** For the same reason the item of one table cell goes into the list of another. *)
Example list_leaves_cell : pasted None
  "<table class=MsoTable><tr><td><p>~<b> </b>one</p></td><td><p>~<b> </b>two</p></td></tr></table>"
  = Some (qt "<table><tr><td><ul><li>one</li><li>two</li></ul></td><td></td></tr></table>").
Proof. by vm_compute. Qed.

(** Two levels down close one list only. *)
Example level_drops_once : pasted None
  ("<p class=MsoNormal style=`mso-list:l0 level1`>~<b> </b>a</p>"
   ++ "<p class=MsoNormal style=`mso-list:l0 level2`>~<b> </b>b</p>"
   ++ "<p class=MsoNormal style=`mso-list:l0 level3`>~<b> </b>c</p>"
   ++ "<p class=MsoNormal style=`mso-list:l0 level1`>~<b> </b>d</p>")
  = Some (qt "<ul><li>a<ul><li>b<ul><li>c</li></ul></li><li>d</li></ul></li></ul>").
Proof. by vm_compute. Qed.

(** An item of the other kind on a nested level leaves the nesting. *)
Example kind_leaves_nesting : pasted None
  ("<p class=MsoNormal style=`mso-list:l0 level1`>~<b> </b>a</p>"
   ++ "<p class=MsoNormal style=`mso-list:l0 level2`>~<b> </b>b</p>"
   ++ "<p class=MsoNormal style=`mso-list:l0 level2`>1.<b> </b>c</p>")
  = Some (qt "<ul><li>a<ul><li>b</li></ul></li></ul><ol><li>c</li></ol>").
Proof. by vm_compute. Qed.

(** The number of a list is its last digit. *)
Example number_last_digit : pasted None
  "<p class=MsoNormal style=`mso-list:l0 level1`>12.<b> </b>x</p>"
  = Some (qt "<ol start=`2`><li>x</li></ol>").
Proof. by vm_compute. Qed.

(** Renamed styles are left out. *)
Example styles_returned : pasted (Some (js "all"))
  "<p class=MsoNormal style=`horiz-align:left;color:red;mso-highlight:yellow;font-color:blue`>x</p>"
  = Some (qt "<p style=`color:red;background:yellow;`>x</p>").
Proof. by vm_compute. Qed.

(** A link to a file that has a name keeps its address. *)
Example file_link_stays : pasted None
  "<p class=MsoNormal>x<a href=`file:///c:/x` name=`n`>y</a></p>"
  = Some (qt "<p>x<a href=`file:///c:/x` name=`n`>y</a></p>").
Proof. by vm_compute. Qed.

(** A run of spaces: the plain space is the first one, which is cut off, and a run of even length loses one. *)
Example spaces_not_alternating :
  filter (qt "a<span style=`mso-spacerun:yes`>&nbsp;&nbsp;&nbsp;&nbsp;</span>b") word_items = js "a" ++ [160; 160; 160] ++ js "b".
Proof. by vm_compute. Qed.

(** The level of a list is the last digit of its number. *)
Example level_last_digit : list_level (js "mso-list:l0 level12 lfo1") = Some 2.
Proof. by vm_compute. Qed.
